(* ===== verification/_CoqProject ===== *)
-Q . S2P
Prelude.v
ByteUtils.v
WalFrame.v
Event.v
PgOutputParser.v
Config.v
Dispatcher.v
EmbeddingProvider.v
SinkBatch.v
Libpq.v
SqlBuilder.v
PgSink.v
Http.v
QdrantSink.v
MilvusSink.v
BackfillStore.v
Backfill.v
ReplicationSource.v
JsonCodec.v
QdrantTable.v
MilvusTable.v
JsonSink.v
OpenAI.v
Llama.v
Providers.v
BackfillManager.v
SpscQueue.v
QueueOps.v
QueueWalk.v
BlockingQueue.v
Semaphores.v
QueueMoves.v
QueueCapacity.v
QueueMemory.v
Handles.v
Logger.v
Pipeline.v
Sinks.v
Gguf.v
Entry.v
BackfillToTable.v
BackfillToVectors.v
BackfillToSinks.v
Progress.v
Shutdown.v
Workers.v
Numerals.v
BenchStats.v
Bench.v
BenchMain.v
BenchRun.v
Demo.v
