(* ===== verification/Prelude.v ===== *)
(** * Walkrie: change data capture from PostgreSQL into vector stores

    This is the root of a verification library for the C++ program under
    [src/src], with its benchmarks and the demo's search tools.  It holds the
    shared prelude (outcomes, the state monad, machine integers, bytes, strings,
    the [keeps] logic); this header documents the whole library.

    ** The program

    A source connects to PostgreSQL's logical replication, reads CopyData
    frames ([wal_frame]), decodes pgoutput messages ([pgoutput_parser]) into
    change events ([event.hpp]) and hands them, on the event-loop thread, to
    the dispatcher ([event_dispatcher]) through a lock-free queue
    ([queue/readerwriterqueue.hpp]).  The dispatcher's worker thread collects
    batches, calls every sink (PostgreSQL, Qdrant, Milvus, JSON) with retries,
    and reports the position it has delivered to the source, which tells
    PostgreSQL what it may forget.  The vector sinks turn a batch into upserts,
    deletes and truncates and ask an embedding provider (a local llama.cpp
    model or OpenAI, behind an LRU cache) for the vectors.  Rows that existed
    before the slot are dumped into a SQLite store and drained by separate
    worker processes, which the main process spawns and reaps.

    ** Files and what they model

    - [ByteUtils], [WalFrame], [Event], [PgOutputParser]: byte_utils.cpp,
      wal_frame.cpp, event.hpp, pgoutput_parser.cpp.  A read outside a message
      is [UB].
    - [Config]: config.hpp and the load and validate parts of the four
      *sink_configuration.cpp; [Gguf]: model/gguf_metadata_reader.cpp, as the
      validation uses it.
    - [Dispatcher]: event_dispatcher.cpp as a step relation between the event
      loop, the destructor and the worker, over a FIFO queue; [SpscQueue] and
      [BlockingQueue]: the queue itself, one shared-memory access per step, and
      the semaphore of atomicops.hpp; [QueueOps]: its peek and pop;
      [QueueWalk]: size estimates, destructor and moves; [Semaphores]: the
      semaphore classes of the four platforms of atomicops.hpp over their system
      calls, and its [weak_atomic]; [QueueMoves]: moving the blocking queue, with
      and without memory; [QueueCapacity]: what the constructor reserves;
      [QueueMemory]: the addresses of blocks and elements.
    - [Handles]: the constructors, [init] or [open], and destructors of the four
      classes that own a raw library handle (SQLite, libpq, libcurl, llama.cpp);
      [Logger]: init_logger of main.cpp.
    - [EmbeddingProvider], [OpenAI], [Llama], [Providers]: the provider
      interface and its cache, the two providers, and the factory.
    - [SinkBatch]: what the three vector sinks share ([call_batch] in two
      passes); [SqlBuilder], [PgSink], [QdrantSink], [MilvusSink], [JsonSink]:
      the sinks; [Libpq], [Http]: the client libraries they use;
      [QdrantTable], [MilvusTable]: their stores as tables ([JsonCodec] is a
      text form for the servers of the witnesses); [Sinks]: the [create_sink]
      factories and the objects as the dispatcher sees them.
    - [BackfillStore], [Backfill]: backfill_store.cpp, backfill_util.cpp and the
      drain of backfill_worker.cpp; [BackfillManager]: backfill_manager.cpp.
    - [ReplicationSource]: pgreplication_source.cpp.
    - [Pipeline]: what main.cpp builds and the running process; [Entry]: the
      command lines, daemon_utils.cpp, the start and the end of both [main]
      functions; [BackfillToTable], [BackfillToVectors]: the worker program
      with a PostgreSQL, a Qdrant or a Milvus sink; [BackfillToSinks]: with any
      number of sinks of any kinds.
    - [Progress]: runs of labelled steps that must reach a state; [Shutdown]:
      the running process with its signal and poll callbacks, and its end;
      [Workers]: any number of worker processes on one store.
    - [Numerals]: decimal numerals on command lines; [BenchStats]:
      bench_stats.hpp, benchmarking_sink.hpp, resource_sampler.cpp; [Bench] and
      [BenchMain]: the parts and the [main] functions of the benchmark programs;
      [BenchRun]: the threads of a running benchmark and the figures it reports;
      [Demo]: the two search tools under src/demo.

    Objects are records, methods are functions of type [prog W A] (explicit
    state, with exceptions, undefined behaviour and running out of fuel as
    values), interfaces are classes: [EmbeddingProvider]/[ProviderOk],
    [EventSink], [SinkOps]/[StoreOk], [Libpq]/[PgTable], [Curl], [JsonText],
    [Semaphore]/[SemaphoreOk].
    Clients are proved against the interface, implementations discharge it:
    [caching_provider_ok] and [llama_object_ok] for the provider,
    [pg_store_ok], [qdrant_store_ok] and [milvus_store_ok] for a table,
    [store_sink_takes] for the worker's sinks, [posix_semaphore_ok] and its three
    siblings for the semaphore.

    ** What the theorems show

    - End to end: a position acknowledged to PostgreSQL is durable in every
      required sink (Pipeline); a drained backfill row is in the table
      or collection of every sink of the worker (BackfillToSinks); the worker's
      exit code 0 means drained (Entry); once a signal or the fatal flag has broken the
      loop, every schedule of the threads brings [main] to its return, with the
      children reaped, the queue drained and the last position sent (Shutdown).
    - Several workers: every row goes to every sink once, in order, whatever the
      interleaving, and the workers end (Workers); so the benchmark that forks
      them measures a complete drain (Bench).
    - Delivery: the dispatcher hands batches on in order, confirms only what
      every required sink took, ends its retries and drains on shutdown; the
      queue is a FIFO, wait-free in its steps, and never loses a wake-up; peek
      and pop fit in; the constructor's capacity is there; the destructor
      destroys what is left, once; all elements lie apart in their memory; the
      system's semaphores keep the count the queue is verified with, which never
      overflows, and a timed wait ends at its deadline (Semaphores); a moved
      queue goes on where it was (QueueMoves).
    - Decoding: the parser refines a specification of the protocol and returns
      only well-formed events, whatever the bytes; the frame parsers are
      bounds-checked and invert the encoding, the drain loop delivers every
      event of the stream in order.
    - Sinks: a batch equals its events one by one; the PostgreSQL table,
      the Qdrant and the Milvus collection are the ones the changes define, and
      replays do not change the table; a Milvus sink
      starts only with a usable collection; a JSON batch is written line by
      line; the objects stay of the classes the configuration names.
    - Providers: the cache, the chunking of a batch and the retries are
      invisible; the provider that is built is a function of the text.
    - Store and processes: claims are exclusive, the dump is complete, children
      are tracked and reaped; a library handle is released exactly once, whichever
      step of its set-up failed (Handles).
    - Benchmarks: what a report of walkrie_bench stands for, whatever the
      interleaving of its threads (BenchRun).
    - Where the code does not do what it says, the theorem states what it does
      (refused writes, an update of a claimed row, a freed event base, ...).

    ** Fuel

    Loops without a structural measure take fuel, and the theorems say how much
    is enough: the retry loop [k + 10^6/g + 3] turns for a jitter of at least
    [g]; the frame loop one turn per frame and one more; the worker's drain one
    turn per waiting row and one more; the cache size 64; the wait for children
    their number plus the signals plus one; three attempts for an OpenAI
    request; 7, 9 and 12 steps for the queue operations.  The llama theorems ask
    for token limits below [2^30], which keeps the 32-bit sums in range.

    ** Parameters and limits

    libpq, libcurl, the JSON text form, libuuid, llama.cpp, gguf, the file
    system, fork and wait, the clock and the row order of SQLite are class
    parameters; laws are stated where a theorem needs them and each has an
    instance in a witness.  Each PostgreSQL sink has its own connection; the
    provider's network and the sinks' are separate states.

    Not modelled: weak memory (the accesses of the queue interleave
    sequentially; fences have no effect, so atomicops.hpp's barriers are left
    out); an allocation that fails in the constructor of the queue; [peek] of
    the blocking queue, which is that of the inner one; logging, usage texts and
    error output; the layout of the benchmark reports; toml.hpp and doctest,
    which are third-party code, and the tests.

    The main process and its workers meet in the store only: [Shutdown] has the
    one without the drains of the others, [Workers] has the workers with the
    merges of the main process as steps of their own. *)

From stdpp Require Export gmap strings list fin_maps.
From Stdlib Require Export ZArith Ascii.
From Stdlib Require Import Lia.

(** ** Outcomes of C++ code

    [Ret] is a normal return, [Throw] a C++ exception derived from
    [std::exception] (its [what()] text), and [UB] an operation the C++
    standard gives no meaning to (a read outside the buffer, a dereference of
    an empty [std::optional], an overflow of a signed counter).  [OutOfFuel]
    is no behaviour of the code: a loop the model runs on fuel was cut off, and
    the theorems about such a loop give the fuel that is enough. *)

Inductive outcome (A : Type) : Type :=
| Ret (a : A)
| Throw (msg : string)
| UB (why : string)
| OutOfFuel.
Arguments Ret {A} a.
Arguments Throw {A} msg.
Arguments UB {A} why.
Arguments OutOfFuel {A}.

#[export] Instance outcome_ret : MRet outcome := λ A a, Ret a.
#[export] Instance outcome_bind : MBind outcome := λ A B f m,
  match m with
  | Ret a => f a
  | Throw e => Throw e
  | UB e => UB e
  | OutOfFuel => OutOfFuel
  end.
#[export] Instance outcome_fmap : FMap outcome := λ A B f m,
  match m with
  | Ret a => Ret (f a)
  | Throw e => Throw e
  | UB e => UB e
  | OutOfFuel => OutOfFuel
  end.

#[export] Instance outcome_eq_dec `{EqDecision A} : EqDecision (outcome A).
Proof. solve_decision. Defined.

(** Whether the code returned normally. *)
Definition is_ret {A} (o : outcome A) : bool :=
  match o with Ret _ => true | _ => false end.

(** ** Programs over a state

    A stateful C++ routine that may throw: the state written before an
    exception stays written. *)

Definition prog (W A : Type) : Type := W → outcome A * W.

#[export] Instance prog_ret {W} : MRet (prog W) := λ A a w, (Ret a, w).
#[export] Instance prog_bind {W} : MBind (prog W) := λ A B f m w,
  match m w with
  | (Ret a, w') => f a w'
  | (Throw e, w') => (Throw e, w')
  | (UB e, w') => (UB e, w')
  | (OutOfFuel, w') => (OutOfFuel, w')
  end.

Definition throw {W A} (msg : string) : prog W A := λ w, (Throw msg, w).
Definition undefined {W A} (why : string) : prog W A := λ w, (UB why, w).
Definition gets {W A} (f : W → A) : prog W A := λ w, (Ret (f w), w).
Definition modify {W} (f : W → W) : prog W unit := λ w, (Ret tt, f w).

Definition lift {W A} (o : outcome A) : prog W A := λ w, (o, w).

(** [try { m } catch (const std::exception& e) { h e.what() }] *)
Definition try_catch {W A} (m : prog W A) (h : string → prog W A) : prog W A := λ w,
  match m w with
  | (Ret a, w') => (Ret a, w')
  | (Throw e, w') => h e w'
  | (UB e, w') => (UB e, w')
  | (OutOfFuel, w') => (OutOfFuel, w')
  end.

(** A range-for loop whose body is a program. *)
Fixpoint for_each {W A} (l : list A) (body : A → prog W unit) : prog W unit :=
  match l with
  | [] => mret tt
  | x :: l => body x ;; for_each l body
  end.

(** A program on one component of a pair of states. *)
Definition on_fst {P D A} (m : prog P A) : prog (P * D) A := λ w,
  let '(r, p) := m w.1 in (r, (p, w.2)).
Definition on_snd {P D A} (m : prog D A) : prog (P * D) A := λ w,
  let '(r, d) := m w.2 in (r, (w.1, d)).

(** ** Machine integers *)

Definition u16 (z : Z) : Z := (z mod 2 ^ 16)%Z.
Definition u32 (z : Z) : Z := (z mod 2 ^ 32)%Z.
Definition u64 (z : Z) : Z := (z mod 2 ^ 64)%Z.
(** Two's complement at width [w]. *)
Definition sint (w : Z) (z : Z) : Z := ((z + 2 ^ (w - 1)) mod 2 ^ w - 2 ^ (w - 1))%Z.
Definition i32 (z : Z) : Z := sint 32 z.
Definition i64 (z : Z) : Z := sint 64 z.

Lemma u64_small z : (0 ≤ z < 2 ^ 64)%Z → u64 z = z.
Proof. intros. by apply Z.mod_small. Qed.

Lemma u64_range z : (0 ≤ u64 z < 2 ^ 64)%Z.
Proof. by apply Z.mod_pos_bound. Qed.

Lemma sint_small w z :
  (0 < w)%Z → (- 2 ^ (w - 1) ≤ z < 2 ^ (w - 1))%Z → sint w z = z.
Proof.
  intros Hw Hz. unfold sint.
  assert (2 ^ w = 2 * 2 ^ (w - 1))%Z as E.
  { rewrite <- Z.pow_succ_r by lia. f_equal. lia. }
  rewrite Z.mod_small; lia.
Qed.

(** ** Bytes *)

(** A byte of a buffer or of a [std::string], and its value. *)
Abbreviation byte := ascii.
Definition byte_val (b : byte) : Z := Z.of_N (N_of_ascii b).
Definition byte_of (z : Z) : byte := ascii_of_N (Z.to_N (z mod 256)).

Lemma byte_val_range b : (0 ≤ byte_val b < 256)%Z.
Proof.
  unfold byte_val. pose proof (N_ascii_bounded b). lia.
Qed.

Lemma byte_val_of z : byte_val (byte_of z) = (z mod 256)%Z.
Proof.
  unfold byte_val, byte_of.
  pose proof (Z.mod_pos_bound z 256 eq_refl).
  rewrite N_ascii_embedding; lia.
Qed.

Lemma byte_of_val b : byte_of (byte_val b) = b.
Proof.
  unfold byte_of. rewrite Z.mod_small by apply byte_val_range.
  unfold byte_val. rewrite N2Z.id. apply ascii_N_embedding.
Qed.

(** Or-ing in the low bits of a shifted value is an addition: the ways the
    source composes integers from bytes all meet here. *)
Lemma lor_shiftl v b n :
  (0 ≤ n)%Z → (0 ≤ b < 2 ^ n)%Z → Z.lor (Z.shiftl v n) b = (v * 2 ^ n + b)%Z.
Proof.
  intros Hn Hb. rewrite Z.shiftl_mul_pow2 by lia.
  rewrite <- Z.add_lor_land.
  assert (Z.land (v * 2 ^ n) b = 0)%Z as ->; [|lia].
  apply Z.bits_inj'. intros k Hk. rewrite Z.land_spec, Z.bits_0.
  destruct (decide (k < n)%Z) as [Hlt|Hge].
  - by rewrite Z.mul_pow2_bits_low by lia.
  - rewrite <- (Z.mod_small b (2 ^ n)) by lia.
    rewrite Z.mod_pow2_bits_high by lia. by rewrite andb_false_r.
Qed.

Lemma lor_shiftl8 v b : Z.lor (Z.shiftl v 8) (byte_val b) = (v * 256 + byte_val b)%Z.
Proof. apply lor_shiftl; [lia|]. apply byte_val_range. Qed.

(** ** Big-endian integers, as specification *)

Definition be_val (bs : list byte) : Z := foldl (λ v b, v * 256 + byte_val b)%Z 0%Z bs.

Fixpoint be_bytes (n : nat) (v : Z) : list byte :=
  match n with
  | O => []
  | S n => be_bytes n (v / 256) ++ [byte_of v]
  end.

Lemma be_val_snoc bs b : be_val (bs ++ [b]) = (be_val bs * 256 + byte_val b)%Z.
Proof. unfold be_val. by rewrite foldl_app. Qed.

Lemma length_be_bytes n v : length (be_bytes n v) = n.
Proof. revert v. induction n as [|n IH]; intros v; simpl; [done|]. rewrite length_app, IH. simpl. lia. Qed.

Lemma be_val_bytes n v : be_val (be_bytes n v) = (v mod 256 ^ Z.of_nat n)%Z.
Proof.
  revert v. induction n as [|n IH]; intros v; simpl be_bytes.
  - by rewrite Z.mod_1_r.
  - rewrite be_val_snoc, IH, byte_val_of, Nat2Z.inj_succ, Z.pow_succ_r by lia.
    rewrite Z.rem_mul_r by lia. lia.
Qed.

Lemma be_val_range bs : (0 ≤ be_val bs < 256 ^ Z.of_nat (length bs))%Z.
Proof.
  induction bs as [|b bs IH] using rev_ind; [done|].
  rewrite be_val_snoc, length_app, Nat2Z.inj_add, Z.pow_add_r by lia.
  pose proof (byte_val_range b). simpl Z.of_nat. lia.
Qed.

Lemma be_bytes_val bs : be_bytes (length bs) (be_val bs) = bs.
Proof.
  induction bs as [|b bs IH] using rev_ind; [done|].
  rewrite be_val_snoc, length_app, Nat.add_comm. simpl.
  pose proof (byte_val_range b).
  rewrite Z.div_add_l, Z.div_small, Z.add_0_r, IH by lia. f_equal. f_equal.
  unfold byte_of. rewrite Z.add_comm, Z.mod_add by lia. apply byte_of_val.
Qed.

#[global] Arguments be_bytes : simpl never.
#[global] Opaque be_bytes.
#[global] Arguments byte_val : simpl never.
#[global] Arguments byte_of : simpl never.

(** ** Strings *)

(** [std::string(const char* s)] and every interface that takes a
    NUL-terminated string keep the bytes before the first NUL. *)
Definition is_nul (b : byte) : bool := Ascii.eqb b "000".

Fixpoint c_str (s : string) : string :=
  match s with
  | EmptyString => EmptyString
  | String a s => if is_nul a then EmptyString else String a (c_str s)
  end.

Definition bytes_of_string (s : string) : list byte := String.list_ascii_of_string s.
Definition string_of_bytes (l : list byte) : string := String.string_of_list_ascii l.

Lemma string_of_bytes_of s : string_of_bytes (bytes_of_string s) = s.
Proof. apply String.string_of_list_ascii_of_string. Qed.

Lemma bytes_of_string_of l : bytes_of_string (string_of_bytes l) = l.
Proof. apply String.list_ascii_of_string_of_list_ascii. Qed.

(** No byte of the string is NUL. *)
Definition nul_free (s : string) : bool := forallb (λ b, negb (is_nul b)) (bytes_of_string s).

Lemma c_str_nul_free s : nul_free (c_str s) = true.
Proof.
  induction s as [|a s IH]; [done|]. simpl. destruct (is_nul a) eqn:E; [done|].
  unfold nul_free in *. simpl. by rewrite E.
Qed.

Lemma nul_free_c_str s : nul_free s = true → c_str s = s.
Proof.
  induction s as [|a s IH]; [done|]. unfold nul_free in *. simpl.
  destruct (is_nul a); [done|]. simpl. intros. by rewrite IH.
Qed.

Lemma c_str_idemp s : c_str (c_str s) = c_str s.
Proof. apply nul_free_c_str, c_str_nul_free. Qed.

Lemma str_app_assoc (a b c : string) : (a +:+ b) +:+ c = a +:+ b +:+ c.
Proof. induction a as [|x a IH]; [done|]. exact (f_equal (String x) IH). Qed.

Lemma str_app_nil (a : string) : a +:+ "" = a.
Proof. induction a as [|x a IH]; [done|]. exact (f_equal (String x) IH). Qed.

Definition str_empty (s : string) : bool := bool_decide (s = "").

Lemma str_empty_true s : str_empty s = true ↔ s = "".
Proof. apply bool_decide_eq_true. Qed.

Lemma str_empty_false s : str_empty s = false ↔ s ≠ "".
Proof. apply bool_decide_eq_false. Qed.

(** [a << sep << b ...]: elements with a separator between them. *)
Fixpoint join (sep : string) (l : list string) : string :=
  match l with
  | [] => ""
  | [x] => x
  | x :: l => x +:+ sep +:+ join sep l
  end.

(** ** Lists *)

Lemma elem_of_concat {A} (x : A) (ls : list (list A)) :
  x ∈ concat ls ↔ ∃ l, l ∈ ls ∧ x ∈ l.
Proof.
  rewrite list_elem_of_In, in_concat. by setoid_rewrite list_elem_of_In.
Qed.

(** Writing elements to given positions, one after the other. *)
Definition place {A} (rs : list A) (p : nat * A) : list A := <[p.1 := p.2]> rs.

Lemma length_places {A} (l : list (nat * A)) rs : length (foldl place rs l) = length rs.
Proof.
  revert rs. induction l as [|p l IH]; intros rs; simpl; [done|]. rewrite IH. apply length_insert.
Qed.

Lemma places_other {A} (l : list (nat * A)) rs i : i ∉ l.*1 → foldl place rs l !! i = rs !! i.
Proof.
  revert rs. induction l as [|p l IH]; intros rs; csimpl; [done|].
  rewrite not_elem_of_cons. intros [Hi Hl]. rewrite IH by done. unfold place.
  by rewrite list_lookup_insert_ne.
Qed.

Lemma places_lookup {A} (l : list (nat * A)) rs i v :
  NoDup l.*1 → (i, v) ∈ l → i < length rs → foldl place rs l !! i = Some v.
Proof.
  revert rs. induction l as [|p l IH]; intros rs; csimpl; [set_solver|].
  intros [Hp Hl]%NoDup_cons [<-|Hin]%elem_of_cons Hi.
  - rewrite places_other by done. by apply list_lookup_insert_eq.
  - apply IH; [done..|]. unfold place. by rewrite length_insert.
Qed.

(** ** Automation *)

Create HintDb walkrie.
Create Rewrite HintDb walkrie.
#[export] Hint Rewrite @length_app length_be_bytes be_val_bytes string_of_bytes_of
  bytes_of_string_of c_str_idemp : walkrie.
#[export] Hint Resolve byte_val_range be_val_range u64_range c_str_nul_free : walkrie.

(** Split every conditional and match of the goal and close what computes. *)
Ltac split_cases :=
  repeat (case_match; simplify_eq/=; try done).

(** Reduce the monadic plumbing of [outcome] and [prog]. *)
Ltac run :=
  cbn [mbind outcome_bind prog_bind mret outcome_ret prog_ret fmap outcome_fmap
       throw undefined gets modify lift try_catch on_fst on_snd for_each fst snd] in *.

(** ** Equations of the monad *)

Lemma prog_bind_ret {W A B} (m : prog W A) (f : A → prog W B) w a w' :
  m w = (Ret a, w') → (m ≫= f) w = f a w'.
Proof. intros H. unfold mbind, prog_bind. by rewrite H. Qed.

Lemma prog_bind_inv {W A B} (m : prog W A) (f : A → prog W B) w b w' :
  (m ≫= f) w = (Ret b, w') → ∃ a w1, m w = (Ret a, w1) ∧ f a w1 = (Ret b, w').
Proof.
  unfold mbind, prog_bind. destruct (m w) as [[a| | |] w1]; try done. by exists a, w1.
Qed.

Lemma prog_bind_throw {W A B} (m : prog W A) (f : A → prog W B) w e w' :
  m w = (Throw e, w') → (m ≫= f) w = (Throw e, w').
Proof. intros H. unfold mbind, prog_bind. by rewrite H. Qed.

Lemma for_each_app {W A} (l1 l2 : list A) (body : A → prog W unit) w :
  for_each (l1 ++ l2) body w = (for_each l1 body ;; for_each l2 body) w.
Proof.
  revert w. induction l1 as [|x l1 IH]; intros w; simpl; [done|].
  unfold mbind, prog_bind. by destruct (body x w) as [[[]| | |] ?]; [apply IH| | |].
Qed.

(** A loop whose body always returns is a fold over the state. *)
Lemma for_each_fold {W A} (l : list A) (body : A → prog W unit) (f : W → A → W) w :
  (∀ x w, body x w = (Ret tt, f w x)) →
  for_each l body w = (Ret tt, foldl f w l).
Proof.
  intros Hb. revert w. induction l as [|x l IH]; intros w; simpl; [done|].
  unfold mbind, prog_bind. by rewrite Hb, IH.
Qed.

(** ** Programs that change the state in a given way only

    [keeps R m]: however [m] ends, the state it leaves is related by [R] to
    the one it started in.  With [R] a preorder this goes through the control
    structures of the code, which the hints [keeps] record. *)

Definition keeps {W A} (R : relation W) (m : prog W A) : Prop := ∀ w, R w (m w).2.

Section keeps.
Context {W : Type} (R : relation W) `{!PreOrder R}.

Lemma keeps_pure {A} (m : prog W A) : (∀ w, (m w).2 = w) → keeps R m.
Proof. intros Hm w. by rewrite Hm. Qed.

Lemma keeps_ret {A} (a : A) : keeps R (mret a).
Proof. by apply keeps_pure. Qed.

Lemma keeps_gets {A} (f : W → A) : keeps R (gets f).
Proof. by apply keeps_pure. Qed.

Lemma keeps_lift {A} (o : outcome A) : keeps R (lift o).
Proof. by apply keeps_pure. Qed.

Lemma keeps_throw {A} e : keeps (A := A) R (throw e).
Proof. by apply keeps_pure. Qed.

Lemma keeps_undefined {A} e : keeps (A := A) R (undefined e).
Proof. by apply keeps_pure. Qed.

Lemma keeps_bind {A B} (m : prog W A) (f : A → prog W B) :
  keeps R m → (∀ a, keeps R (f a)) → keeps R (m ≫= f).
Proof.
  intros Hm Hf w. unfold mbind, prog_bind. specialize (Hm w).
  destruct (m w) as [[a| | |] w']; simpl in *; try done. by etrans; [|apply Hf].
Qed.

Lemma keeps_try {A} (m : prog W A) h :
  keeps R m → (∀ e, keeps R (h e)) → keeps R (try_catch m h).
Proof.
  intros Hm Hh w. unfold try_catch. specialize (Hm w).
  destruct (m w) as [[a| | |] w']; simpl in *; try done. by etrans; [|apply Hh].
Qed.

Lemma keeps_for_each {A} (l : list A) body :
  (∀ x, keeps R (body x)) → keeps R (for_each l body).
Proof.
  intros Hb. induction l as [|x l IH]; simpl; [apply keeps_ret|]. by apply keeps_bind.
Qed.
End keeps.

Create HintDb keeps.
#[export] Hint Resolve keeps_ret keeps_gets keeps_lift keeps_throw keeps_undefined keeps_bind
  keeps_try keeps_for_each : keeps.

(** Walk through a program, splitting its conditionals and matches. *)
Ltac keep_going :=
  repeat first
    [ progress intros
    | solve [eauto 2 with keeps typeclass_instances]
    | apply keeps_bind; [exact _| |]
    | apply keeps_try; [exact _| |]
    | apply keeps_for_each; [exact _|]
    | match goal with |- keeps _ (match ?x with _ => _ end) => destruct x end ].
