(* ===== verification/ByteUtils.v ===== *)
(** * [src/byte_utils.cpp]: cursor reads over a message buffer

    A cursor [const uint8_t*& p] into a message is the list of the bytes from
    [p] to the message's end.  The helpers take no length, so a read that
    needs more bytes than are left is [UB]. *)

From S2P Require Import Prelude.
From Stdlib Require Import Lia.

Abbreviation cursor := (list byte).

Definition past_end : string := "read past the end of the message".

(** [uint8_t read_u8(const uint8_t*& p) { return *p++; }] *)
Definition read_u8 (p : cursor) : outcome (Z * cursor) :=
  match p with
  | b :: p => Ret (byte_val b, p)
  | [] => UB past_end
  end.

(** [memcpy] into a little-endian [uint16_t], then a byte swap. *)
Definition read_u16 (p : cursor) : outcome (Z * cursor) :=
  match p with
  | b0 :: b1 :: p =>
      let v := Z.lor (byte_val b0) (Z.shiftl (byte_val b1) 8) in
      Ret (Z.lor (Z.shiftl (Z.land v 0xFF) 8) (Z.shiftr v 8), p)
  | _ => UB past_end
  end.

Definition read_u32 (p : cursor) : outcome (Z * cursor) :=
  match p with
  | b0 :: b1 :: b2 :: b3 :: p =>
      Ret (Z.lor (Z.lor (Z.lor (Z.shiftl (byte_val b0) 24) (Z.shiftl (byte_val b1) 16))
                        (Z.shiftl (byte_val b2) 8))
                 (byte_val b3), p)
  | _ => UB past_end
  end.

Definition read_u64 (p : cursor) : outcome (Z * cursor) :=
  '(hi, p) ← read_u32 p;
  '(lo, p) ← read_u32 p;
  Ret (Z.lor (u64 (Z.shiftl hi 32)) lo, p).

(** [std::string s(start); p += s.size() + 1;] *)
Fixpoint read_cstr (p : cursor) : outcome (string * cursor) :=
  match p with
  | [] => UB past_end
  | b :: p =>
      if is_nul b then Ret ("", p)
      else '(s, p) ← read_cstr p; Ret (String b s, p)
  end.

(** ** What the reads return *)

Lemma read_u8_app b rest : read_u8 (b :: rest) = Ret (byte_val b, rest).
Proof. done. Qed.

Lemma read_u16_val b0 b1 rest :
  read_u16 (b0 :: b1 :: rest) = Ret (be_val [b0; b1], rest).
Proof.
  simpl. do 2 f_equal.
  pose proof (byte_val_range b0). pose proof (byte_val_range b1).
  rewrite (Z.lor_comm (byte_val b0)), lor_shiftl8.
  change 0xFF%Z with (Z.ones 8). rewrite Z.land_ones by lia.
  rewrite Z.shiftr_div_pow2 by lia. change (2 ^ 8)%Z with 256%Z.
  rewrite Z.div_add_l, Z.div_small, Z.add_0_r by lia.
  rewrite Z.add_comm, Z.mod_add, Z.mod_small by lia.
  rewrite lor_shiftl8. unfold be_val. simpl. lia.
Qed.

Lemma read_u32_val b0 b1 b2 b3 rest :
  read_u32 (b0 :: b1 :: b2 :: b3 :: rest) = Ret (be_val [b0; b1; b2; b3], rest).
Proof.
  unfold read_u32, be_val. simpl foldl. do 2 f_equal.
  rewrite <- !lor_shiftl8, !Z.shiftl_lor, !Z.shiftl_shiftl by lia. done.
Qed.

(** Every fixed-width read is the big-endian value of the next bytes. *)
Definition reads_be (n : nat) (rd : cursor → outcome (Z * cursor)) : Prop :=
  ∀ bs rest, length bs = n → rd (bs ++ rest) = Ret (be_val bs, rest).

Lemma read_u8_be : reads_be 1 read_u8.
Proof. intros [|b [|??]] rest [=]. simpl. unfold be_val. simpl. done. Qed.

Lemma read_u16_be : reads_be 2 read_u16.
Proof. intros [|b0 [|b1 [|??]]] rest [=]. apply read_u16_val. Qed.

Lemma read_u32_be : reads_be 4 read_u32.
Proof. intros [|b0 [|b1 [|b2 [|b3 [|??]]]]] rest [=]. apply read_u32_val. Qed.

Lemma be_val_app bs1 bs2 :
  be_val (bs1 ++ bs2) = (be_val bs1 * 256 ^ Z.of_nat (length bs2) + be_val bs2)%Z.
Proof.
  induction bs2 as [|b bs2 IH] using rev_ind.
  - rewrite app_nil_r. simpl. unfold be_val at 3. simpl. lia.
  - rewrite app_assoc, !be_val_snoc, IH, length_app, Nat2Z.inj_add, Z.pow_add_r by lia.
    simpl Z.of_nat. lia.
Qed.

Lemma read_u64_be : reads_be 8 read_u64.
Proof.
  intros bs rest Hl. rewrite <- (take_drop 4 bs), <- app_assoc.
  unfold read_u64. rewrite read_u32_be by (rewrite length_take; lia). run.
  rewrite read_u32_be by (rewrite length_drop; lia). run. do 2 f_equal.
  pose proof (be_val_range (take 4 bs)) as H1. pose proof (be_val_range (drop 4 bs)) as H2.
  rewrite be_val_app. rewrite length_take in H1. rewrite length_drop in H2. rewrite Hl in *.
  change (Z.of_nat (4 `min` 8)) with 4%Z in H1. change (Z.of_nat (8 - 4)) with 4%Z in H2.
  rewrite length_drop, Hl. change (Z.of_nat (8 - 4)) with 4%Z.
  rewrite u64_small.
  - rewrite lor_shiftl by lia. lia.
  - rewrite Z.shiftl_mul_pow2 by lia. lia.
Qed.

(** Encoding an integer and reading it back. *)
Lemma reads_be_bytes n rd v rest :
  reads_be n rd → (0 ≤ v < 256 ^ Z.of_nat n)%Z → rd (be_bytes n v ++ rest) = Ret (v, rest).
Proof.
  intros Hrd Hv. rewrite Hrd by apply length_be_bytes.
  by rewrite be_val_bytes, Z.mod_small.
Qed.

(** A NUL-terminated name is read back up to its terminator. *)
Lemma read_cstr_app s rest :
  nul_free s = true → read_cstr (bytes_of_string s ++ "000"%char :: rest) = Ret (s, rest).
Proof.
  induction s as [|a s IH]; [done|]. unfold nul_free. simpl.
  destruct (is_nul a) eqn:E; [done|]. simpl. intros Hs. by rewrite IH.
Qed.

(** A name without its terminator runs off the message. *)
Lemma read_cstr_unterminated p :
  forallb (λ b, negb (is_nul b)) p = true → read_cstr p = UB past_end.
Proof.
  induction p as [|b p IH]; [done|]. simpl.
  destruct (is_nul b); [done|]. simpl. intros Hp. by rewrite IH.
Qed.

#[export] Hint Resolve read_u8_be read_u16_be read_u32_be read_u64_be : walkrie.

(** One parsing step of a decoder proof: consume an encoded integer. *)
Ltac read_int :=
  rewrite reads_be_bytes by first [eauto with walkrie | assumption | lia]; run.
