(* ===== verification/WalFrame.v ===== *)
(** * [src/wal_frame.cpp]: the CopyData frames of the replication stream

    A frame is the bytes libpq hands over, [None] for a null pointer; its
    length is the [len] argument.  The frame's type byte is not looked at here
    (the caller switches on it). *)

From S2P Require Import Prelude ByteUtils.
From Stdlib Require Import Lia.

Record XLogDataHeader := {
  wal_start : Z;
  wal_end : Z;
  send_time : Z;
  payload : list byte;
  payload_len : nat;
}.

Record KeepaliveMessage := {
  ka_wal_end : Z;
  ka_send_time : Z;
  reply_requested : bool;
}.

(** [for (int i = 0; i < 8; ++i) v = (v << 8) | p[i];] with [n] turns left. *)
Fixpoint read_u64_loop (n i : nat) (v : Z) (p : list byte) : outcome Z :=
  match n with
  | O => Ret v
  | S n =>
      match p !! i with
      | Some b => read_u64_loop n (S i) (Z.lor (u64 (Z.shiftl v 8)) (byte_val b)) p
      | None => UB past_end
      end
  end.

Definition frame_read_u64 (p : list byte) : outcome Z := read_u64_loop 8 0 0 p.

Definition xlogdata_header_len : nat := 1 + 8 + 8 + 8.

Definition parse_xlogdata_header (buf : option (list byte)) : outcome (option XLogDataHeader) :=
  match buf with
  | None => Ret None
  | Some buf =>
      let len := length buf in
      if bool_decide (len < xlogdata_header_len) then Ret None
      else
        let p := drop 1 buf in
        ws ← frame_read_u64 p;
        we ← frame_read_u64 (drop 8 p);
        st ← frame_read_u64 (drop 16 p);
        Ret (Some {| wal_start := ws; wal_end := we; send_time := st;
                     payload := drop xlogdata_header_len buf;
                     payload_len := len - xlogdata_header_len |})
  end.

Definition keepalive_len : nat := 1 + 8 + 8 + 1.

Definition parse_keepalive_message (buf : option (list byte)) : outcome (option KeepaliveMessage) :=
  match buf with
  | None => Ret None
  | Some buf =>
      if bool_decide (length buf < keepalive_len) then Ret None
      else
        let p := drop 1 buf in
        we ← frame_read_u64 p;
        st ← frame_read_u64 (drop 8 p);
        match buf !! 17 with
        | Some b => Ret (Some {| ka_wal_end := we; ka_send_time := st;
                                 reply_requested := negb (byte_val b =? 0)%Z |})
        | None => UB past_end
        end
  end.

(** ** The wire layout, as specification *)

Definition encode_xlogdata (t : byte) (ws we st : Z) (pl : list byte) : list byte :=
  t :: be_bytes 8 ws ++ be_bytes 8 we ++ be_bytes 8 st ++ pl.

Definition encode_keepalive (t : byte) (we st : Z) (reply : byte) : list byte :=
  t :: be_bytes 8 we ++ be_bytes 8 st ++ [reply].

(** ** Properties *)

Lemma read_u64_loop_val n v p bs rest :
  length bs = n → (0 ≤ v)%Z → (v * 256 ^ Z.of_nat n + be_val bs < 2 ^ 64)%Z → p = bs ++ rest →
  ∀ pre, read_u64_loop n (length pre) v (pre ++ p) = Ret (v * 256 ^ Z.of_nat n + be_val bs)%Z.
Proof.
  revert v p bs. induction n as [|n IH]; intros v p bs Hl Hv Hb -> pre.
  - destruct bs; [|done]. simpl. do 2 f_equal. unfold be_val. simpl. lia.
  - destruct bs as [|b bs]; [done|]. simpl in Hl. injection Hl as Hl.
    simpl read_u64_loop. rewrite list_lookup_middle by done.
    change (b :: bs) with ([b] ++ bs) in *.
    rewrite be_val_app in *. unfold be_val at 1 in Hb. simpl foldl in Hb. rewrite Hl in *.
    unfold be_val at 1. simpl foldl.
    pose proof (byte_val_range b) as Hr. pose proof (be_val_range bs) as Hs. rewrite Hl in Hs.
    rewrite Nat2Z.inj_succ, Z.pow_succ_r in Hb |- * by lia.
    assert (1 ≤ 256 ^ Z.of_nat n)%Z as Hp by (apply (Z.pow_le_mono_r 256 0); lia).
    rewrite u64_small by (rewrite Z.shiftl_mul_pow2 by lia; nia).
    rewrite lor_shiftl8.
    specialize (IH (v * 256 + byte_val b)%Z (bs ++ rest) bs Hl ltac:(lia)
                   ltac:(lia) eq_refl (pre ++ [b])).
    rewrite length_app in IH. simpl in IH. rewrite Nat.add_1_r, <- app_assoc in IH.
    simpl in IH. simpl. rewrite IH. f_equal. lia.
Qed.

Lemma frame_read_u64_be bs rest :
  length bs = 8 → frame_read_u64 (bs ++ rest) = Ret (be_val bs).
Proof.
  intros Hl. unfold frame_read_u64.
  pose proof (be_val_range bs) as Hb. rewrite Hl in Hb.
  change (Z.of_nat 8) with 8%Z in Hb.
  pose proof (read_u64_loop_val 8 0 (bs ++ rest) bs rest Hl ltac:(lia) ltac:(lia) eq_refl []) as E.
  simpl length in E. rewrite app_nil_l in E. by rewrite E.
Qed.

Lemma be_val_u64 v : (0 ≤ v < 2 ^ 64)%Z → be_val (be_bytes 8 v) = v.
Proof. intros Hv. rewrite be_val_bytes. by apply Z.mod_small. Qed.

Lemma xlogdata_fields t a b c pl :
  length a = 8 → length b = 8 → length c = 8 →
  parse_xlogdata_header (Some (t :: a ++ b ++ c ++ pl)) =
  Ret (Some {| wal_start := be_val a; wal_end := be_val b; send_time := be_val c;
               payload := pl; payload_len := length pl |}).
Proof.
  intros Ha Hb Hc. unfold parse_xlogdata_header.
  assert (length (t :: a ++ b ++ c ++ pl) = xlogdata_header_len + length pl) as ->.
  { cbn [length]. rewrite !length_app, Ha, Hb, Hc. unfold xlogdata_header_len. lia. }
  rewrite bool_decide_false by lia.
  rewrite skipn_cons, drop_0, frame_read_u64_be by done. run.
  rewrite (drop_app_length' a _ 8) by done. rewrite frame_read_u64_be by done. run.
  rewrite (app_assoc a), (drop_app_length' (a ++ b) _ 16) by (rewrite length_app; lia).
  rewrite frame_read_u64_be by done. run.
  assert (drop xlogdata_header_len (t :: (a ++ b) ++ c ++ pl) = pl) as ->.
  { rewrite app_comm_cons, app_assoc. apply drop_app_length'.
    cbn [length]. rewrite !length_app. simpl. rewrite length_app.
    unfold xlogdata_header_len. lia. }
  by rewrite Nat.add_comm, Nat.add_sub.
Qed.

Lemma keepalive_fields t a b reply :
  length a = 8 → length b = 8 →
  parse_keepalive_message (Some (t :: a ++ b ++ [reply])) =
  Ret (Some {| ka_wal_end := be_val a; ka_send_time := be_val b;
               reply_requested := negb (byte_val reply =? 0)%Z |}).
Proof.
  intros Ha Hb. unfold parse_keepalive_message.
  assert (length (t :: a ++ b ++ [reply]) = keepalive_len) as ->.
  { cbn [length]. rewrite !length_app, Ha, Hb. done. }
  rewrite bool_decide_false by lia.
  rewrite skipn_cons, drop_0, frame_read_u64_be by done. run.
  rewrite (drop_app_length' a _ 8) by done. rewrite frame_read_u64_be by done. run.
  assert ((t :: a ++ b ++ [reply]) !! 17 = Some reply) as ->; [|done].
  rewrite app_assoc, app_comm_cons.
  apply list_lookup_middle. cbn [length]. rewrite length_app. lia.
Qed.

(** C37: an XLogData frame decodes to exactly the header and payload it was built
    from, whatever its type byte, for any 64-bit positions and any payload. *)
Theorem xlogdata_roundtrip t ws we st pl :
  (0 ≤ ws < 2 ^ 64)%Z → (0 ≤ we < 2 ^ 64)%Z → (0 ≤ st < 2 ^ 64)%Z →
  parse_xlogdata_header (Some (encode_xlogdata t ws we st pl)) =
  Ret (Some {| wal_start := ws; wal_end := we; send_time := st;
               payload := pl; payload_len := length pl |}).
Proof.
  intros Hs He Ht. unfold encode_xlogdata.
  rewrite xlogdata_fields by apply length_be_bytes. by rewrite !be_val_u64.
Qed.

Lemma xlogdata_roundtrip_witness :
  parse_xlogdata_header (Some (encode_xlogdata "w" 0x16B3748 0x16B3800 7 ["B"%char])) =
  Ret (Some {| wal_start := 0x16B3748; wal_end := 0x16B3800; send_time := 7;
               payload := ["B"%char]; payload_len := 1 |}).
Proof. apply (xlogdata_roundtrip "w" 0x16B3748 0x16B3800 7 ["B"%char]); lia. Defined.

(** A frame read at an offset that the length check has cleared is defined. *)
Lemma frame_read_u64_defined p : 8 ≤ length p → ∃ v, frame_read_u64 p = Ret v ∧ (0 ≤ v < 2 ^ 64)%Z.
Proof.
  intros Hl. exists (be_val (take 8 p)).
  pose proof (be_val_range (take 8 p)) as Hr.
  rewrite length_take, Nat.min_l in Hr by done. split; [|exact Hr].
  rewrite <- (take_drop 8 p) at 1. apply frame_read_u64_be. rewrite length_take. lia.
Qed.

(** The frame parsers are total on every buffer: they never throw and never
    read outside it, and they refuse exactly the null and the short ones. *)
Definition refuses_only_short {H} (n : nat) (parse : option (list byte) → outcome (option H)) : Prop :=
  ∀ buf, (∃ r, parse buf = Ret r) ∧
         (parse buf = Ret None ↔ ∀ b, buf = Some b → length b < n).

Lemma refuses_only_short_intro {H} n (parse : option (list byte) → outcome (option H)) :
  parse None = Ret None →
  (∀ b, length b < n → parse (Some b) = Ret None) →
  (∀ b, n ≤ length b → ∃ h, parse (Some b) = Ret (Some h)) →
  refuses_only_short n parse.
Proof.
  intros H0 Hs Hl [b|].
  - destruct (decide (length b < n)) as [Hlt|Hge].
    + rewrite (Hs b Hlt). split; [eauto|]. split; [|done]. by intros _ ? [= ->].
    + destruct (Hl b ltac:(lia)) as [h ->]. split; [eauto|]. split; [done|].
      intros Hb. specialize (Hb b eq_refl). lia.
  - rewrite H0. split; [eauto|]. split; [|done]. intros _ ? [=].
Qed.

(** Both frame parsers are total and in bounds: they refuse exactly the null
    buffer and the frames shorter than 25 (XLogData) or 18 (keepalive) bytes. *)
Theorem frames_bounds_checked :
  refuses_only_short 25 parse_xlogdata_header ∧ refuses_only_short 18 parse_keepalive_message.
Proof.
  split; apply refuses_only_short_intro; try done; intros b Hb.
  - simpl. by rewrite bool_decide_true.
  - simpl. rewrite bool_decide_false by (unfold xlogdata_header_len; lia).
    destruct (frame_read_u64_defined (drop 1 b)) as [v1 [-> _]]; [rewrite length_drop; lia|]. run.
    rewrite !drop_drop.
    destruct (frame_read_u64_defined (drop (1 + 8) b)) as [v2 [-> _]]; [rewrite length_drop; lia|]. run.
    destruct (frame_read_u64_defined (drop (1 + 16) b)) as [v3 [-> _]]; [rewrite length_drop; lia|]. run.
    eauto.
  - simpl. by rewrite bool_decide_true.
  - simpl. rewrite bool_decide_false by (unfold keepalive_len; lia).
    destruct (frame_read_u64_defined (drop 1 b)) as [v1 [-> _]]; [rewrite length_drop; lia|]. run.
    rewrite !drop_drop.
    destruct (frame_read_u64_defined (drop (1 + 8) b)) as [v2 [-> _]]; [rewrite length_drop; lia|]. run.
    destruct (lookup_lt_is_Some_2 b 17 ltac:(lia)) as [c ->]. eauto.
Qed.

(** A keepalive frame decodes to its fields; any non-zero last byte asks for a reply. *)
Lemma keepalive_decode t we st reply :
  (0 ≤ we < 2 ^ 64)%Z → (0 ≤ st < 2 ^ 64)%Z →
  parse_keepalive_message (Some (encode_keepalive t we st reply)) =
  Ret (Some {| ka_wal_end := we; ka_send_time := st;
               reply_requested := negb (byte_val reply =? 0)%Z |}).
Proof.
  intros He Ht. unfold encode_keepalive.
  rewrite keepalive_fields by apply length_be_bytes. by rewrite !be_val_u64.
Qed.
