(* ===== verification/Event.v ===== *)
(** * [src/event.hpp]: the change events that flow through the pipeline

    A JSON value of [nlohmann::ordered_json] is data ([json] below, object
    members in insertion order); its text form ([dump], [parse]) is library
    code and a parameter wherever it is used. *)

From S2P Require Import Prelude.

(** ** JSON values *)

Inductive json : Type :=
| JNull
| JBool (b : bool)
| JInt (z : Z)
| JFloat (bits : Z)
| JString (s : string)
| JArray (l : list json)
| JObject (members : list (string * json)).

(** Assigning a member of an ordered object keeps its position when the key is
    there and appends it otherwise. *)
Fixpoint member_set (k : string) (v : json) (l : list (string * json)) : list (string * json) :=
  match l with
  | [] => [(k, v)]
  | (k', v') :: l => if bool_decide (k' = k) then (k, v) :: l else (k', v') :: member_set k v l
  end.

Fixpoint member_get (k : string) (l : list (string * json)) : option json :=
  match l with
  | [] => None
  | (k', v') :: l => if bool_decide (k' = k) then Some v' else member_get k l
  end.

(** [j[k] = v]: a null value becomes an object first; any other non-object
    raises the library's type error. *)
Definition json_set (k : string) (v : json) (j : json) : outcome json :=
  match j with
  | JNull => Ret (JObject [(k, v)])
  | JObject l => Ret (JObject (member_set k v l))
  | _ => Throw "cannot use operator[] with a string argument"
  end.

(** ** Events *)

Record ColumnValue := {
  cv_name : string;
  is_null : bool;
  is_unchanged_toast : bool;
  text_value : string;
}.

Inductive TupleKind := TInsert | TUpdateOld | TUpdateNew | TDelete.

Record DecodedRow := {
  row_schema : string;
  row_table : string;
  row_kind : TupleKind;
  columns : list ColumnValue;
}.

Inductive Op := OpInsert | OpUpdate | OpDelete | OpTruncate | OpCommit.

Record ChangeEvent := {
  op : Op;
  schema_name : string;
  table_name : string;
  old_row : option DecodedRow;
  new_row : option DecodedRow;
  commit_lsn : Z;
  commit_timestamp : Z;
}.

Record RelationInfo := {
  relation_id : Z;
  rel_schema : string;
  rel_table : string;
  column_names : list string;
}.

#[export] Instance ColumnValue_eq_dec : EqDecision ColumnValue.
Proof. solve_decision. Defined.
#[export] Instance TupleKind_eq_dec : EqDecision TupleKind.
Proof. solve_decision. Defined.
#[export] Instance DecodedRow_eq_dec : EqDecision DecodedRow.
Proof. solve_decision. Defined.
#[export] Instance Op_eq_dec : EqDecision Op.
Proof. solve_decision. Defined.
#[export] Instance ChangeEvent_eq_dec : EqDecision ChangeEvent.
Proof. solve_decision. Defined.
#[export] Instance RelationInfo_eq_dec : EqDecision RelationInfo.
Proof. solve_decision. Defined.

(** [event.commit_lsn = lsn] *)
Definition set_commit_lsn (lsn : Z) (e : ChangeEvent) : ChangeEvent :=
  {| op := op e; schema_name := schema_name e; table_name := table_name e;
     old_row := old_row e; new_row := new_row e; commit_lsn := lsn;
     commit_timestamp := commit_timestamp e |}.

(** [ChangeEvent::to_string] *)
Definition op_to_string (k : Op) : string :=
  match k with
  | OpInsert => "insert"
  | OpUpdate => "update"
  | OpDelete => "delete"
  | OpTruncate => "truncate"
  | OpCommit => "commit"
  end.

Definition column_json (col : ColumnValue) : json :=
  if is_null col then JNull
  else if is_unchanged_toast col then JString "__unchanged_toast__"
  else JString (text_value col).

(** [to_json(ordered_json& j, const DecodedRow& row)]: assignments onto [j]. *)
Definition row_to_json (row : DecodedRow) (j : json) : outcome json :=
  foldl (λ acc col, j ← acc; json_set (cv_name col) (column_json col) j) (Ret j) (columns row).

(** [j[k] = *row] when the row is there. *)
Definition set_row (k : string) (row : option DecodedRow) (j : json) : outcome json :=
  match row with
  | Some r => v ← row_to_json r JNull; json_set k v j
  | None => Ret j
  end.

Definition event_to_json (e : ChangeEvent) : outcome json :=
  let j := JObject
    [("op", JString (op_to_string (op e))); ("schema", JString (schema_name e));
     ("table", JString (table_name e)); ("lsn", JInt (commit_lsn e));
     ("commit_timestamp", JInt (commit_timestamp e))] in
  j ← set_row "old" (old_row e) j;
  set_row "new" (new_row e) j.

(** ** Ordered objects *)

Lemma member_get_set k v k' l :
  member_get k' (member_set k v l) = if bool_decide (k = k') then Some v else member_get k' l.
Proof.
  induction l as [|[k1 v1] l IH]; simpl; [by repeat case_bool_decide|].
  repeat case_bool_decide; simpl; repeat case_bool_decide; simplify_eq/=; done.
Qed.

Lemma member_set_keys k v l :
  (member_set k v l).*1 = if bool_decide (k ∈ l.*1) then l.*1 else l.*1 ++ [k].
Proof.
  induction l as [|[k1 v1] l IH]; [done|]. simpl member_set.
  destruct (decide (k1 = k)) as [->|Hne].
  - rewrite bool_decide_true by done. csimpl.
    by rewrite bool_decide_true by apply list_elem_of_here.
  - rewrite (bool_decide_false (k1 = k)) by done. csimpl. rewrite IH.
    destruct (decide (k ∈ l.*1)) as [H1|H1].
    + by rewrite !bool_decide_true by (done || by apply list_elem_of_further).
    + by rewrite !bool_decide_false by (rewrite ?elem_of_cons; naive_solver).
Qed.

Lemma member_set_nodup k v l : NoDup l.*1 → NoDup (member_set k v l).*1.
Proof.
  intros Hl. rewrite member_set_keys. case_bool_decide; [done|].
  apply NoDup_app. split_and!; [done|set_solver|]. apply NoDup_singleton.
Qed.

(** A fold of assignments that starts from an object (or null) never raises. *)
Definition is_obj (j : json) : bool :=
  match j with JNull | JObject _ => true | _ => false end.

Definition members_of (j : json) : list (string * json) :=
  match j with JObject l => l | _ => [] end.

Lemma json_set_obj k v j :
  is_obj j = true → json_set k v j = Ret (JObject (member_set k v (members_of j))).
Proof. by destruct j. Qed.

Lemma row_to_json_fold (cols : list ColumnValue) j :
  is_obj j = true →
  ∃ j', foldl (λ acc col, j ← acc; json_set (cv_name col) (column_json col) j) (Ret j) cols = Ret j'
        ∧ is_obj j' = true
        ∧ members_of j' = foldl (λ l col, member_set (cv_name col) (column_json col) l)
                                (members_of j) cols.
Proof.
  revert j. induction cols as [|c cols IH]; intros j Hj; simpl; [eauto|].
  rewrite json_set_obj by done.
  apply (IH (JObject (member_set (cv_name c) (column_json c) (members_of j))) eq_refl).
Qed.

Lemma set_row_object k row l : ∃ l', set_row k row (JObject l) = Ret (JObject l').
Proof.
  destruct row as [r|]; simpl; [|eauto].
  destruct (row_to_json_fold (columns r) JNull eq_refl) as (v & Hv & _).
  unfold row_to_json. rewrite Hv. run. eauto.
Qed.

(** Serialising an event never raises: the result is always an object. *)
Lemma event_to_json_total e : ∃ l, event_to_json e = Ret (JObject l).
Proof.
  unfold event_to_json.
  match goal with |- context [set_row "old" _ (JObject ?l)] =>
    destruct (set_row_object "old" (old_row e) l) as [l1 ->] end.
  run. apply set_row_object.
Qed.
