(* ===== verification/PgOutputParser.v ===== *)
(** * [src/pgoutput_parser.cpp]: decoding pgoutput messages

    The parser keeps the relation cache and the timestamp of the transaction in
    progress.  Reads are not bounds-checked by the code, so a message that is
    shorter than its own counts say is [UB]. *)

From S2P Require Import Prelude ByteUtils WalFrame Event.
From Stdlib Require Import Lia.

Record PgOutputParser := {
  relations_ : gmap Z RelationInfo;
  pending_commit_timestamp_unix_us_ : Z;
}.

Definition new_parser : PgOutputParser :=
  {| relations_ := ∅; pending_commit_timestamp_unix_us_ := 0 |}.

(** 2000-01-01 against the Unix epoch, in microseconds. *)
Definition kPgEpochOffsetUs : Z := (946684800 * 1000000)%Z.

Definition chr (c : byte) : Z := byte_val c.

(** The column loop of [handle_relation]: flags, name, type oid, type modifier. *)
Fixpoint read_columns (n : nat) (p : cursor) : outcome (list string * cursor) :=
  match n with
  | O => Ret ([], p)
  | S n =>
      '(_, p) ← read_u8 p;
      '(col_name, p) ← read_cstr p;
      '(_, p) ← read_u32 p;
      '(_, p) ← read_u32 p;
      '(cols, p) ← read_columns n p;
      Ret (col_name :: cols, p)
  end.

Definition handle_relation (data : cursor) : prog PgOutputParser unit :=
  '(rel_id, p) ← lift (read_u32 data);
  '(schema, p) ← lift (read_cstr p);
  '(table, p) ← lift (read_cstr p);
  '(_, p) ← lift (read_u8 p);
  '(num_columns, p) ← lift (read_u16 p);
  '(cols, _) ← lift (read_columns (Z.to_nat num_columns) p);
  modify (λ st, {|
    relations_ := <[rel_id := {| relation_id := rel_id; rel_schema := schema;
                                 rel_table := table; column_names := cols |}]> (relations_ st);
    pending_commit_timestamp_unix_us_ := pending_commit_timestamp_unix_us_ st |}).

(** The file's own [read_u64], the same loop as the frame parser's. *)
Definition parser_read_u64 (p : cursor) : outcome Z := read_u64_loop 8 0 0 p.

Definition handle_begin (data : cursor) : prog PgOutputParser unit :=
  if bool_decide (length data < 20) then mret tt
  else
    pg_epoch_us ← lift (parser_read_u64 (drop 8 data));
    modify (λ st, {|
      relations_ := relations_ st;
      pending_commit_timestamp_unix_us_ := u64 (pg_epoch_us + kPgEpochOffsetUs) |}).

(** A default-constructed event with the fields every branch sets. *)
Definition mk_event (o : Op) (schema table : string) (old new : option DecodedRow) (ts : Z)
  : ChangeEvent :=
  {| op := o; schema_name := schema; table_name := table; old_row := old; new_row := new;
     commit_lsn := 0; commit_timestamp := ts |}.

(** The relation loop of [handle_truncate]: an unknown relation is skipped. *)
Fixpoint read_truncated (st : PgOutputParser) (n : nat) (p : cursor) : outcome (list ChangeEvent) :=
  match n with
  | O => Ret []
  | S n =>
      '(rel_id, p) ← read_u32 p;
      match relations_ st !! rel_id with
      | None => read_truncated st n p
      | Some rel =>
          evs ← read_truncated st n p;
          Ret (mk_event OpTruncate (rel_schema rel) (rel_table rel) None None
                 (pending_commit_timestamp_unix_us_ st) :: evs)
      end
  end.

Definition handle_truncate (data : cursor) : prog PgOutputParser (list ChangeEvent) :=
  '(num_relations, p) ← lift (read_u32 data);
  '(_, p) ← lift (read_u8 p);
  st ← gets id;
  lift (read_truncated st (Z.to_nat num_relations) p).

Definition bad_kind : string := "pgoutput: unexpected tuple column kind byte".

(** [cv.text_value.assign(p, value_len); p += value_len;] *)
Definition read_text (len : Z) (p : cursor) : outcome (string * cursor) :=
  if bool_decide (length p < Z.to_nat len) then UB past_end
  else Ret (string_of_bytes (take (Z.to_nat len) p), drop (Z.to_nat len) p).

Definition decode_column (name : string) (p : cursor) : outcome (ColumnValue * cursor) :=
  '(kind_byte, p) ← read_u8 p;
  if (kind_byte =? chr "n")%Z then
    Ret ({| cv_name := name; is_null := true; is_unchanged_toast := false; text_value := "" |}, p)
  else if (kind_byte =? chr "u")%Z then
    Ret ({| cv_name := name; is_null := false; is_unchanged_toast := true; text_value := "" |}, p)
  else if (kind_byte =? chr "t")%Z then
    '(value_len, p) ← read_u32 p;
    '(text, p) ← read_text value_len p;
    Ret ({| cv_name := name; is_null := false; is_unchanged_toast := false; text_value := text |}, p)
  else Throw bad_kind.

(** The column loop of [decode_tuple]; [names] are the names from column [i] on,
    and a column past the relation's names is called [""]. *)
Fixpoint decode_columns (n : nat) (names : list string) (p : cursor)
  : outcome (list ColumnValue * cursor) :=
  match n with
  | O => Ret ([], p)
  | S n =>
      '(cv, p) ← decode_column (default "" (head names)) p;
      '(cvs, p) ← decode_columns n (tail names) p;
      Ret (cv :: cvs, p)
  end.

Definition decode_tuple (rel : RelationInfo) (p : cursor) (kind : TupleKind)
  : outcome (DecodedRow * cursor) :=
  '(num_columns, p) ← read_u16 p;
  '(cols, p) ← decode_columns (Z.to_nat num_columns) (column_names rel) p;
  Ret ({| row_schema := rel_schema rel; row_table := rel_table rel; row_kind := kind;
          columns := cols |}, p).

(** Look up the relation a row message names; [what] is the message's kind. *)
Definition find_relation (what : string) (rel_id : Z) : prog PgOutputParser RelationInfo :=
  rel ← gets (λ st, relations_ st !! rel_id);
  match rel with
  | Some r => mret r
  | None => throw ("pgoutput: " +:+ what +:+ " for unknown relation (missing Relation message)")
  end.

Definition parse_insert (p : cursor) : prog PgOutputParser (list ChangeEvent) :=
  '(rel_id, p) ← lift (read_u32 p);
  rel ← find_relation "Insert" rel_id;
  '(_, p) ← lift (read_u8 p);
  '(new_row, _) ← lift (decode_tuple rel p TInsert);
  ts ← gets pending_commit_timestamp_unix_us_;
  mret [mk_event OpInsert (rel_schema rel) (rel_table rel) None (Some new_row) ts].

Definition parse_update (p : cursor) : prog PgOutputParser (list ChangeEvent) :=
  '(rel_id, p) ← lift (read_u32 p);
  rel ← find_relation "Update" rel_id;
  ts ← gets pending_commit_timestamp_unix_us_;
  '(tag, p) ← lift (read_u8 p);
  '(old, tag, p) ← (if (tag =? chr "K")%Z || (tag =? chr "O")%Z then
      '(old_row, p) ← lift (decode_tuple rel p TUpdateOld);
      '(tag, p) ← lift (read_u8 p);
      mret (Some old_row, tag, p)
    else mret (None, tag, p));
  new ← (if (tag =? chr "N")%Z then
      '(new_row, _) ← lift (decode_tuple rel p TUpdateNew);
      mret (Some new_row)
    else mret None);
  mret [mk_event OpUpdate (rel_schema rel) (rel_table rel) old new ts].

Definition parse_delete (p : cursor) : prog PgOutputParser (list ChangeEvent) :=
  '(rel_id, p) ← lift (read_u32 p);
  rel ← find_relation "Delete" rel_id;
  ts ← gets pending_commit_timestamp_unix_us_;
  '(_, p) ← lift (read_u8 p);
  '(old_row, _) ← lift (decode_tuple rel p TDelete);
  mret [mk_event OpDelete (rel_schema rel) (rel_table rel) (Some old_row) None ts].

Definition parse (data : list byte) : prog PgOutputParser (option (list ChangeEvent)) :=
  if bool_decide (length data = 0) then mret None
  else
    '(msg_type, p) ← lift (read_u8 data);
    if (msg_type =? chr "B")%Z then handle_begin p ;; mret None
    else if (msg_type =? chr "C")%Z then
      ts ← gets pending_commit_timestamp_unix_us_;
      mret (Some [mk_event OpCommit "" "" None None ts])
    else if (msg_type =? chr "R")%Z then handle_relation p ;; mret None
    else if (msg_type =? chr "Y")%Z then mret None
    else if (msg_type =? chr "O")%Z then mret None
    else if (msg_type =? chr "T")%Z then evs ← handle_truncate p; mret (Some evs)
    else if (msg_type =? chr "I")%Z then evs ← parse_insert p; mret (Some evs)
    else if (msg_type =? chr "U")%Z then evs ← parse_update p; mret (Some evs)
    else if (msg_type =? chr "D")%Z then evs ← parse_delete p; mret (Some evs)
    else mret None.

(** ** Specification: messages as data

    What PostgreSQL sends, before it is bytes, and what each message means to
    the pipeline. *)

Inductive tuple_col := TCNull | TCUnchanged | TCText (s : string).

Record rel_col := { rc_flags : byte; rc_name : string; rc_oid : Z; rc_mod : Z }.

Inductive lmsg :=
| MBegin (final_lsn ts xid : Z)
| MCommit (body : list byte)
| MRelation (id : Z) (schema table : string) (identity : byte) (cols : list rel_col)
| MType (body : list byte)
| MOrigin (body : list byte)
| MTruncate (flags : byte) (rels : list Z)
| MInsert (rel : Z) (cols : list tuple_col)
| MUpdateNew (rel : Z) (new : list tuple_col)
| MUpdateKey (rel : Z) (key : list tuple_col) (new : list tuple_col)
| MUpdateFull (rel : Z) (old : list tuple_col) (new : list tuple_col)
| MDelete (rel : Z) (full : bool) (old : list tuple_col).

(** The meaning of a tuple under a relation: names by position. *)
Definition spec_column (name : string) (c : tuple_col) : ColumnValue :=
  match c with
  | TCNull => {| cv_name := name; is_null := true; is_unchanged_toast := false; text_value := "" |}
  | TCUnchanged => {| cv_name := name; is_null := false; is_unchanged_toast := true; text_value := "" |}
  | TCText s => {| cv_name := name; is_null := false; is_unchanged_toast := false; text_value := s |}
  end.

Fixpoint spec_columns (names : list string) (cols : list tuple_col) : list ColumnValue :=
  match cols with
  | [] => []
  | c :: cols => spec_column (default "" (head names)) c :: spec_columns (tail names) cols
  end.

Definition spec_row (rel : RelationInfo) (kind : TupleKind) (cols : list tuple_col) : DecodedRow :=
  {| row_schema := rel_schema rel; row_table := rel_table rel; row_kind := kind;
     columns := spec_columns (column_names rel) cols |}.

Definition unknown_relation (what : string) : string :=
  "pgoutput: " +:+ what +:+ " for unknown relation (missing Relation message)".

(** One event about a known relation. *)
Definition spec_event (st : PgOutputParser) (what : string) (rel : Z)
    (ev : RelationInfo → Z → ChangeEvent) : outcome (option (list ChangeEvent)) :=
  match relations_ st !! rel with
  | Some r => Ret (Some [ev r (pending_commit_timestamp_unix_us_ st)])
  | None => Throw (unknown_relation what)
  end.

Definition truncate_event (ts : Z) (r : RelationInfo) : ChangeEvent :=
  mk_event OpTruncate (rel_schema r) (rel_table r) None None ts.

Definition insert_event (cols : list tuple_col) (r : RelationInfo) (ts : Z) : ChangeEvent :=
  mk_event OpInsert (rel_schema r) (rel_table r) None (Some (spec_row r TInsert cols)) ts.

Definition update_event (old : option (list tuple_col)) (new : list tuple_col)
    (r : RelationInfo) (ts : Z) : ChangeEvent :=
  mk_event OpUpdate (rel_schema r) (rel_table r)
    (spec_row r TUpdateOld <$> old) (Some (spec_row r TUpdateNew new)) ts.

Definition delete_event (old : list tuple_col) (r : RelationInfo) (ts : Z) : ChangeEvent :=
  mk_event OpDelete (rel_schema r) (rel_table r) (Some (spec_row r TDelete old)) None ts.

Definition spec_msg (m : lmsg) : prog PgOutputParser (option (list ChangeEvent)) := λ st,
  let ts := pending_commit_timestamp_unix_us_ st in
  match m with
  | MBegin _ t _ =>
      (Ret None, {| relations_ := relations_ st;
                    pending_commit_timestamp_unix_us_ := u64 (t + kPgEpochOffsetUs) |})
  | MRelation id schema table _ cols =>
      (Ret None, {| relations_ := <[id := {| relation_id := id; rel_schema := schema;
                       rel_table := table; column_names := rc_name <$> cols |}]> (relations_ st);
                    pending_commit_timestamp_unix_us_ := ts |})
  | MCommit _ => (Ret (Some [mk_event OpCommit "" "" None None ts]), st)
  | MType _ | MOrigin _ => (Ret None, st)
  | MTruncate _ rels =>
      (Ret (Some (truncate_event ts <$> omap (λ id, relations_ st !! id) rels)), st)
  | MInsert rel cols => (spec_event st "Insert" rel (insert_event cols), st)
  | MUpdateNew rel new => (spec_event st "Update" rel (update_event None new), st)
  | MUpdateKey rel old new | MUpdateFull rel old new =>
      (spec_event st "Update" rel (update_event (Some old) new), st)
  | MDelete rel _ old => (spec_event st "Delete" rel (delete_event old), st)
  end.

(** ** The wire format *)

Definition encode_name (s : string) : list byte := bytes_of_string s ++ ["000"%char].

Definition encode_col (c : tuple_col) : list byte :=
  match c with
  | TCNull => ["n"%char]
  | TCUnchanged => ["u"%char]
  | TCText s => "t"%char :: be_bytes 4 (Z.of_nat (length (bytes_of_string s))) ++ bytes_of_string s
  end.

Definition encode_tuple (cols : list tuple_col) : list byte :=
  be_bytes 2 (Z.of_nat (length cols)) ++ concat (encode_col <$> cols).

Definition encode_rel_col (c : rel_col) : list byte :=
  rc_flags c :: encode_name (rc_name c) ++ be_bytes 4 (rc_oid c) ++ be_bytes 4 (rc_mod c).

Definition encode_msg (m : lmsg) : list byte :=
  match m with
  | MBegin l t x => "B"%char :: be_bytes 8 l ++ be_bytes 8 t ++ be_bytes 4 x
  | MCommit b => "C"%char :: b
  | MRelation id schema table ident cols =>
      "R"%char :: be_bytes 4 id ++ encode_name schema ++ encode_name table ++
      [ident] ++ be_bytes 2 (Z.of_nat (length cols)) ++ concat (encode_rel_col <$> cols)
  | MType b => "Y"%char :: b
  | MOrigin b => "O"%char :: b
  | MTruncate flags rels =>
      "T"%char :: be_bytes 4 (Z.of_nat (length rels)) ++ [flags] ++ concat (be_bytes 4 <$> rels)
  | MInsert rel cols => "I"%char :: be_bytes 4 rel ++ ["N"%char] ++ encode_tuple cols
  | MUpdateNew rel new => "U"%char :: be_bytes 4 rel ++ ["N"%char] ++ encode_tuple new
  | MUpdateKey rel old new =>
      "U"%char :: be_bytes 4 rel ++ ["K"%char] ++ encode_tuple old ++ ["N"%char] ++ encode_tuple new
  | MUpdateFull rel old new =>
      "U"%char :: be_bytes 4 rel ++ ["O"%char] ++ encode_tuple old ++ ["N"%char] ++ encode_tuple new
  | MDelete rel full old =>
      "D"%char :: be_bytes 4 rel ++ [if full then "O"%char else "K"%char] ++ encode_tuple old
  end.

Definition fits (n : nat) (z : Z) : bool := ((0 <=? z) && (z <? 256 ^ Z.of_nat n))%Z.

Definition wf_col (c : tuple_col) : bool :=
  match c with TCText s => fits 4 (Z.of_nat (length (bytes_of_string s))) | _ => true end.

Definition wf_tuple (cols : list tuple_col) : bool :=
  fits 2 (Z.of_nat (length cols)) && forallb wf_col cols.

(** The field widths and NUL-free names of the protocol. *)
Definition wf_msg (m : lmsg) : bool :=
  match m with
  | MBegin _ t _ => fits 8 t
  | MCommit _ | MType _ | MOrigin _ => true
  | MRelation id schema table _ cols =>
      fits 4 id && nul_free schema && nul_free table && fits 2 (Z.of_nat (length cols)) &&
      forallb (λ c, nul_free (rc_name c)) cols
  | MTruncate _ rels => fits 4 (Z.of_nat (length rels)) && forallb (fits 4) rels
  | MInsert rel cols | MUpdateNew rel cols | MDelete rel _ cols => fits 4 rel && wf_tuple cols
  | MUpdateKey rel old new | MUpdateFull rel old new => fits 4 rel && wf_tuple old && wf_tuple new
  end.

(** ** The decoder implements the specification *)

Lemma fits_spec n z : fits n z = true ↔ (0 ≤ z < 256 ^ Z.of_nat n)%Z.
Proof. unfold fits. rewrite andb_true_iff, Z.leb_le, Z.ltb_lt. done. Qed.

Lemma read_fits n rd v rest :
  reads_be n rd → fits n v = true → rd (be_bytes n v ++ rest) = Ret (v, rest).
Proof. rewrite fits_spec. apply reads_be_bytes. Qed.

Lemma read_any n rd v rest :
  reads_be n rd → ∃ v', rd (be_bytes n v ++ rest) = Ret (v', rest).
Proof. intros Hrd. eexists. apply Hrd, length_be_bytes. Qed.

Lemma read_name s rest :
  nul_free s = true → read_cstr (encode_name s ++ rest) = Ret (s, rest).
Proof. intros Hs. unfold encode_name. rewrite <- app_assoc. by apply read_cstr_app. Qed.

Lemma read_text_app s rest :
  read_text (Z.of_nat (length (bytes_of_string s))) (bytes_of_string s ++ rest) = Ret (s, rest).
Proof.
  unfold read_text. rewrite Nat2Z.id, length_app, bool_decide_false by lia.
  by rewrite take_app_length, drop_app_length, string_of_bytes_of.
Qed.

Lemma decode_column_enc name c rest :
  wf_col c = true → decode_column name (encode_col c ++ rest) = Ret (spec_column name c, rest).
Proof.
  destruct c as [| |s]; intros Hc; try reflexivity.
  unfold decode_column, encode_col. rewrite <- app_comm_cons, read_u8_app, <- app_assoc. run.
  change ((byte_val "t" =? chr "n")%Z) with false. change ((byte_val "t" =? chr "u")%Z) with false.
  change ((byte_val "t" =? chr "t")%Z) with true. cbv iota.
  rewrite (read_fits 4) by (done || apply read_u32_be). run.
  by rewrite read_text_app.
Qed.

Lemma decode_columns_enc names cols rest :
  forallb wf_col cols = true →
  decode_columns (length cols) names (concat (encode_col <$> cols) ++ rest)
  = Ret (spec_columns names cols, rest).
Proof.
  revert names. induction cols as [|c cols IH]; intros names; csimpl; [done|].
  intros [Hc Hcs]%andb_true_iff. rewrite <- app_assoc, decode_column_enc by done. run.
  by rewrite IH.
Qed.

Lemma decode_tuple_enc rel kind cols rest :
  wf_tuple cols = true →
  decode_tuple rel (encode_tuple cols ++ rest) kind = Ret (spec_row rel kind cols, rest).
Proof.
  unfold wf_tuple, encode_tuple, decode_tuple. intros [Hl Hc]%andb_true_iff.
  rewrite <- app_assoc, (read_fits 2) by (done || apply read_u16_be). run.
  by rewrite Nat2Z.id, decode_columns_enc.
Qed.

Lemma read_columns_enc cols rest :
  forallb (λ c, nul_free (rc_name c)) cols = true →
  read_columns (length cols) (concat (encode_rel_col <$> cols) ++ rest) = Ret (rc_name <$> cols, rest).
Proof.
  induction cols as [|c cols IH]; csimpl; [done|]. intros [Hc Hcs]%andb_true_iff.
  rewrite <- !app_assoc, read_name by done. run.
  destruct (read_any 4 read_u32 (rc_oid c)
    (be_bytes 4 (rc_mod c) ++ concat (encode_rel_col <$> cols) ++ rest) read_u32_be) as [v1 ->]. run.
  destruct (read_any 4 read_u32 (rc_mod c)
    (concat (encode_rel_col <$> cols) ++ rest) read_u32_be) as [v2 ->]. run.
  by rewrite IH.
Qed.

Lemma read_truncated_enc st rels rest :
  forallb (fits 4) rels = true →
  read_truncated st (length rels) (concat (be_bytes 4 <$> rels) ++ rest)
  = Ret (truncate_event (pending_commit_timestamp_unix_us_ st)
           <$> omap (λ id, relations_ st !! id) rels).
Proof.
  induction rels as [|r rels IH]; csimpl; [done|]. intros [Hr Hrs]%andb_true_iff.
  rewrite <- app_assoc, (read_fits 4) by (done || apply read_u32_be). run.
  destruct (relations_ st !! r) as [rel|]; rewrite IH by done; done.
Qed.

Lemma parse_type_byte (t : byte) p st :
  parse (t :: p) st =
  (if (byte_val t =? chr "B")%Z then handle_begin p ;; mret None
    else if (byte_val t =? chr "C")%Z then
      ts ← gets pending_commit_timestamp_unix_us_;
      mret (Some [mk_event OpCommit "" "" None None ts])
    else if (byte_val t =? chr "R")%Z then handle_relation p ;; mret None
    else if (byte_val t =? chr "Y")%Z then mret None
    else if (byte_val t =? chr "O")%Z then mret None
    else if (byte_val t =? chr "T")%Z then evs ← handle_truncate p; mret (Some evs)
    else if (byte_val t =? chr "I")%Z then evs ← parse_insert p; mret (Some evs)
    else if (byte_val t =? chr "U")%Z then evs ← parse_update p; mret (Some evs)
    else if (byte_val t =? chr "D")%Z then evs ← parse_delete p; mret (Some evs)
    else mret None) st.
Proof. reflexivity. Qed.

(** Decide the comparisons of concrete byte values in the goal. *)
Ltac byte_cases :=
  repeat match goal with
  | |- context [(byte_val ?a =? chr ?b)%Z] =>
      first [change ((byte_val a =? chr b)%Z) with true
            |change ((byte_val a =? chr b)%Z) with false]
  end; cbv iota beta; cbn [orb].

Lemma begin_enc l t x st :
  fits 8 t = true →
  handle_begin (be_bytes 8 l ++ be_bytes 8 t ++ be_bytes 4 x) st
  = (Ret tt, {| relations_ := relations_ st;
                pending_commit_timestamp_unix_us_ := u64 (t + kPgEpochOffsetUs) |}).
Proof.
  intros Ht%fits_spec. unfold handle_begin.
  rewrite !length_app, !length_be_bytes, bool_decide_false by lia.
  rewrite (drop_app_length' (be_bytes 8 l) _ 8) by (by rewrite length_be_bytes).
  unfold parser_read_u64. fold (frame_read_u64 (be_bytes 8 t ++ be_bytes 4 x)).
  rewrite frame_read_u64_be by apply length_be_bytes. rewrite be_val_u64 by exact Ht. done.
Qed.

Lemma relation_enc id schema table ident cols st :
  wf_msg (MRelation id schema table ident cols) = true →
  handle_relation (be_bytes 4 id ++ encode_name schema ++ encode_name table ++
      [ident] ++ be_bytes 2 (Z.of_nat (length cols)) ++ concat (encode_rel_col <$> cols)) st
  = (Ret tt, (spec_msg (MRelation id schema table ident cols) st).2).
Proof.
  simpl. intros [[[[Hi Hs]%andb_true_iff Ht]%andb_true_iff Hl]%andb_true_iff Hc]%andb_true_iff.
  unfold handle_relation. unfold mbind, prog_bind, lift.
  rewrite (read_fits 4) by (done || apply read_u32_be).
  rewrite read_name by done. rewrite read_name by done. rewrite read_u8_app.
  rewrite (read_fits 2) by (done || apply read_u16_be).
  rewrite Nat2Z.id. rewrite <- (app_nil_r (concat _)), read_columns_enc by done. done.
Qed.

(** The row messages share their prefix: relation id, lookup, tag byte. *)
Lemma find_relation_run what rel st :
  find_relation what rel st =
  (match relations_ st !! rel with Some r => Ret r | None => Throw (unknown_relation what) end, st).
Proof. unfold find_relation, gets, mbind, prog_bind. by destruct (relations_ st !! rel). Qed.

Ltac row_msg :=
  unfold mbind, prog_bind, lift, spec_event;
  rewrite (read_fits 4) by (done || apply read_u32_be);
  rewrite find_relation_run;
  match goal with |- context [relations_ ?st !! ?r] => destruct (relations_ st !! r) end;
  [|done]; unfold gets; rewrite ?read_u8_app.

Lemma insert_enc rel cols st :
  fits 4 rel = true → wf_tuple cols = true →
  (evs ← parse_insert (be_bytes 4 rel ++ ["N"%char] ++ encode_tuple cols); mret (Some evs)) st
  = (spec_event st "Insert" rel (insert_event cols), st).
Proof.
  intros Hr Hw. unfold parse_insert. simpl app. row_msg.
  by rewrite <- (app_nil_r (encode_tuple cols)), decode_tuple_enc by done.
Qed.

Lemma delete_enc rel (tag : byte) old st :
  fits 4 rel = true → wf_tuple old = true →
  (evs ← parse_delete (be_bytes 4 rel ++ [tag] ++ encode_tuple old); mret (Some evs)) st
  = (spec_event st "Delete" rel (delete_event old), st).
Proof.
  intros Hr Hw. unfold parse_delete. simpl app. row_msg.
  by rewrite <- (app_nil_r (encode_tuple old)), decode_tuple_enc by done.
Qed.

Lemma update_new_enc rel new st :
  fits 4 rel = true → wf_tuple new = true →
  (evs ← parse_update (be_bytes 4 rel ++ ["N"%char] ++ encode_tuple new); mret (Some evs)) st
  = (spec_event st "Update" rel (update_event None new), st).
Proof.
  intros Hr Hw. unfold parse_update. simpl app. row_msg. byte_cases.
  unfold mret, prog_ret. byte_cases.
  by rewrite <- (app_nil_r (encode_tuple new)), decode_tuple_enc by done.
Qed.

Lemma update_old_enc rel (tag : byte) old new st :
  tag = "K"%char ∨ tag = "O"%char →
  fits 4 rel = true → wf_tuple old = true → wf_tuple new = true →
  (evs ← parse_update (be_bytes 4 rel ++ [tag] ++ encode_tuple old ++ ["N"%char] ++ encode_tuple new);
   mret (Some evs)) st
  = (spec_event st "Update" rel (update_event (Some old) new), st).
Proof.
  intros Htag Hr Ho Hn. unfold parse_update. simpl app. row_msg.
  destruct Htag as [-> | ->]; byte_cases; rewrite decode_tuple_enc by done;
    unfold mret, prog_ret; rewrite read_u8_app; byte_cases;
    by rewrite <- (app_nil_r (encode_tuple new)), decode_tuple_enc by done.
Qed.

(** Decoding one well-formed message is its meaning, on every branch. *)
Lemma parse_encode m st : wf_msg m = true → parse (encode_msg m) st = spec_msg m st.
Proof.
  intros Hm. destruct m; cbn [encode_msg]; rewrite parse_type_byte; byte_cases; try done.
  - unfold mbind, prog_bind. simpl in Hm. by rewrite begin_enc.
  - unfold mbind, prog_bind. by rewrite relation_enc.
  - simpl in Hm. apply andb_true_iff in Hm as [Hl Hr].
    unfold handle_truncate, mbind, prog_bind, lift.
    rewrite (read_fits 4) by (done || apply read_u32_be). simpl app. rewrite read_u8_app.
    unfold gets. rewrite Nat2Z.id. rewrite <- (app_nil_r (concat _)).
    by rewrite read_truncated_enc.
  - simpl in Hm. apply andb_true_iff in Hm as [Hr Ht]. by apply insert_enc.
  - simpl in Hm. apply andb_true_iff in Hm as [Hr Ht]. by apply update_new_enc.
  - simpl in Hm. rewrite !andb_true_iff in Hm. destruct Hm as [[? ?] ?].
    apply update_old_enc; auto.
  - simpl in Hm. rewrite !andb_true_iff in Hm. destruct Hm as [[? ?] ?].
    apply update_old_enc; auto.
  - simpl in Hm. apply andb_true_iff in Hm as [Hr Ht]. by apply delete_enc.
Qed.

(** ** Streams of messages

    The source hands the parser one payload after another and goes on after an
    exception; the parser's state runs through. *)

Fixpoint run_stream {A} (step : A → prog PgOutputParser (option (list ChangeEvent)))
    (st : PgOutputParser) (l : list A)
  : list (outcome (option (list ChangeEvent))) * PgOutputParser :=
  match l with
  | [] => ([], st)
  | x :: l =>
      let '(r, st) := step x st in
      let '(rs, st) := run_stream step st l in (r :: rs, st)
  end.

(** C8: on any sequence of well-formed messages, decoding their bytes one after
    the other yields, message by message, exactly the events, exceptions and
    parser states of the specification (and so never reads out of bounds). *)
Theorem parser_refines_spec st ms :
  forallb wf_msg ms = true →
  run_stream parse st (encode_msg <$> ms) = run_stream spec_msg st ms.
Proof.
  revert st. induction ms as [|m ms IH]; intros st; csimpl; [done|].
  intros [Hm Hms]%andb_true_iff.
  rewrite parse_encode by done. destruct (spec_msg m st) as [r st']. by rewrite IH.
Qed.

Definition demo_stream : list lmsg :=
  [MBegin 100 5 7;
   MRelation 16385 "public" "items" "f"
     [{| rc_flags := "001"; rc_name := "id"; rc_oid := 23; rc_mod := 0xFFFFFFFF |};
      {| rc_flags := "000"; rc_name := "name"; rc_oid := 25; rc_mod := 0xFFFFFFFF |}];
   MInsert 16385 [TCText "1"; TCText "chair"];
   MUpdateFull 16385 [TCText "1"; TCText "chair"] [TCText "1"; TCNull];
   MTruncate "000" [99; 16385]%Z;
   MDelete 16385 false [TCText "1"; TCNull];
   MInsert 7 [TCText "x"];
   MCommit []].

Lemma parser_refines_spec_witness :
  forallb wf_msg demo_stream = true ∧
  run_stream parse new_parser (encode_msg <$> demo_stream) = run_stream spec_msg new_parser demo_stream.
Proof. split; [vm_compute; reflexivity|]. apply parser_refines_spec. vm_compute. reflexivity. Defined.

(** ** What the missing bounds checks cost *)

(** [rd] decodes [bs] to [v] and nothing less: with any tail it stops right
    after [bs], and on every strict prefix of [bs] it reads out of bounds. *)
Definition decodes {A} (rd : cursor → outcome (A * cursor)) (bs : list byte) (v : A) : Prop :=
  (∀ rest, rd (bs ++ rest) = Ret (v, rest)) ∧
  (∀ k, k < length bs → ∃ e, rd (take k bs) = UB e).

Lemma decodes_bind {A B} (rd : cursor → outcome (A * cursor)) (f : A → cursor → outcome (B * cursor))
    bs bs' v v' :
  decodes rd bs v → decodes (f v) bs' v' →
  decodes (λ p, '(a, p) ← rd p; f a p) (bs ++ bs') v'.
Proof.
  intros [H1 H2] [H3 H4]. split.
  - intros rest. rewrite <- app_assoc, H1. apply H3.
  - intros k Hk. rewrite length_app in Hk. destruct (decide (k < length bs)) as [Hlt|Hge].
    + rewrite take_app_le by lia. destruct (H2 k Hlt) as [e ->]. by exists e.
    + rewrite take_app_ge by lia. rewrite H1. apply H4. lia.
Qed.

Lemma decodes_ret {A} (v : A) : decodes (λ p, Ret (v, p)) [] v.
Proof. split; [done|]. simpl. lia. Qed.

Lemma decodes_fixed n rd v :
  reads_be n rd → (∀ p, length p < n → rd p = UB past_end) → fits n v = true →
  decodes rd (be_bytes n v) v.
Proof.
  intros Hrd Hshort Hv. split; [intros rest; apply read_fits; assumption|].
  intros k Hk. rewrite length_be_bytes in Hk. exists past_end. apply Hshort.
  rewrite length_take. lia.
Qed.

Lemma read_u32_short p : length p < 4 → read_u32 p = UB past_end.
Proof. destruct p as [|? [|? [|? [|? ?]]]]; simpl; try lia; done. Qed.

Lemma read_u16_short p : length p < 2 → read_u16 p = UB past_end.
Proof. destruct p as [|? [|? ?]]; simpl; try lia; done. Qed.

Lemma decodes_u8 b : decodes read_u8 [b] (byte_val b).
Proof. split; [done|]. intros [|k] Hk; simpl in *; [by eexists|lia]. Qed.

Lemma decodes_text s :
  decodes (read_text (Z.of_nat (length (bytes_of_string s)))) (bytes_of_string s) s.
Proof.
  split; [apply read_text_app|]. intros k Hk. exists past_end. unfold read_text.
  rewrite Nat2Z.id, length_take, bool_decide_true by lia. done.
Qed.

Lemma decodes_ext {A} (rd rd' : cursor → outcome (A * cursor)) bs v :
  (∀ p, rd p = rd' p) → decodes rd bs v → decodes rd' bs v.
Proof. intros E [H1 H2]. split; intros; rewrite <- E; auto. Qed.

Lemma decodes_column name c :
  wf_col c = true → decodes (decode_column name) (encode_col c) (spec_column name c).
Proof.
  intros Hc. destruct c as [| |s].
  - apply (decodes_bind read_u8 _ ["n"%char] [] _ _ (decodes_u8 _)). apply decodes_ret.
  - apply (decodes_bind read_u8 _ ["u"%char] [] _ _ (decodes_u8 _)). apply decodes_ret.
  - apply (decodes_bind read_u8 _ ["t"%char] _ _ _ (decodes_u8 _)). byte_cases.
    apply (decodes_bind read_u32 _ _ _ (Z.of_nat (length (bytes_of_string s)))).
    { by apply decodes_fixed; [apply read_u32_be|apply read_u32_short|]. }
    rewrite <- (app_nil_r (bytes_of_string s)).
    apply (decodes_bind (read_text _) _ _ [] s); [|apply decodes_ret].
    rewrite app_nil_r. apply decodes_text.
Qed.

Lemma decodes_columns names cols :
  forallb wf_col cols = true →
  decodes (decode_columns (length cols) names) (concat (encode_col <$> cols)) (spec_columns names cols).
Proof.
  revert names. induction cols as [|c cols IH]; intros names; csimpl; [intros; apply decodes_ret|].
  intros [Hc Hcs]%andb_true_iff.
  apply (decodes_bind (decode_column _) _ _ _ (spec_column (default "" (head names)) c)).
  { by apply decodes_column. }
  rewrite <- (app_nil_r (concat _)).
  apply (decodes_bind (decode_columns (length cols) (tail names)) _ _ []
           (spec_columns (tail names) cols)); [by apply IH|apply decodes_ret].
Qed.

Lemma decodes_tuple rel kind cols :
  wf_tuple cols = true →
  decodes (λ p, decode_tuple rel p kind) (encode_tuple cols) (spec_row rel kind cols).
Proof.
  unfold wf_tuple. intros [Hl Hc]%andb_true_iff.
  apply (decodes_bind read_u16 _ _ _ (Z.of_nat (length cols))).
  { by apply decodes_fixed; [apply read_u16_be|apply read_u16_short|]. }
  rewrite Nat2Z.id, <- (app_nil_r (concat _)).
  apply (decodes_bind (decode_columns (length cols) (column_names rel)) _ _ []
           (spec_columns (column_names rel) cols)); [by apply decodes_columns|apply decodes_ret].
Qed.

(** The decoder relies on complete messages: for a relation it knows, every
    cut of a well-formed Insert message anywhere after its type byte makes it
    read past the message's end ([end] is passed around but never compared). *)
Theorem truncated_insert_reads_out_of_bounds st rel r cols k :
  relations_ st !! rel = Some r → fits 4 rel = true → wf_tuple cols = true →
  0 < k < length (encode_msg (MInsert rel cols)) →
  ∃ e, parse (take k (encode_msg (MInsert rel cols))) st = (UB e, st).
Proof.
  intros Hrel Hf Hw Hk. destruct k as [|k]; [lia|]. cbn [encode_msg take length] in *.
  rewrite parse_type_byte. byte_cases.
  assert (decodes (λ p, '(id, p) ← read_u32 p; '(_, p) ← read_u8 p; decode_tuple r p TInsert)
    (be_bytes 4 rel ++ ["N"%char] ++ encode_tuple cols) (spec_row r TInsert cols)) as [_ Hcut].
  { apply (decodes_bind read_u32 _ _ _ rel).
    { by apply decodes_fixed; [apply read_u32_be|apply read_u32_short|]. }
    apply (decodes_bind read_u8 _ _ _ _ _ (decodes_u8 _)). by apply decodes_tuple. }
  destruct (Hcut k ltac:(lia)) as [e He]. exists e.
  unfold parse_insert, lift, mbind, prog_bind, gets, find_relation.
  unfold mbind, outcome_bind in He.
  destruct (decide (k < 4)) as [Hlt|Hge].
  { rewrite read_u32_short in He |- * by (rewrite length_take; lia). by injection He as ->. }
  rewrite take_app_ge in He |- * by (rewrite length_be_bytes; lia).
  rewrite (read_fits 4) in He |- * by (done || apply read_u32_be). unfold gets, mbind, prog_bind.
  rewrite Hrel. unfold mret, prog_ret.
  destruct (read_u8 _) as [[t p]| | |] eqn:E8; try by simplify_eq.
  by rewrite He.
Qed.

Lemma truncated_insert_reads_out_of_bounds_witness :
  ∃ e, parse (take 9 (encode_msg (MInsert 5 [TCText "ab"])))
         {| relations_ := {[5%Z := {| relation_id := 5; rel_schema := "s"; rel_table := "t";
                                    column_names := ["c"] |}]};
            pending_commit_timestamp_unix_us_ := 0 |}
       = (UB e, {| relations_ := {[5%Z := {| relation_id := 5; rel_schema := "s"; rel_table := "t";
                                    column_names := ["c"] |}]};
                   pending_commit_timestamp_unix_us_ := 0 |}).
Proof.
  eapply (truncated_insert_reads_out_of_bounds _ 5 _ [TCText "ab"] 9);
    [reflexivity|reflexivity|reflexivity|vm_compute; lia].
Defined.

(** ** Every event is well formed, whatever the bytes *)

(** Null, unchanged or a text, and nothing of the others. *)
Definition column_typed (c : ColumnValue) : Prop :=
  match is_null c, is_unchanged_toast c with
  | true, true => False
  | false, false => True
  | _, _ => text_value c = ""
  end.

(** A tuple of the relation: its names by position. *)
Definition row_typed (rel : RelationInfo) (kind : TupleKind) (row : DecodedRow) : Prop :=
  row_schema row = rel_schema rel ∧ row_table row = rel_table rel ∧ row_kind row = kind ∧
  Forall column_typed (columns row) ∧
  ∀ i c, columns row !! i = Some c → cv_name c = default "" (column_names rel !! i).

Definition opt_typed (rel : RelationInfo) (kind : TupleKind) (row : option DecodedRow) : Prop :=
  from_option (row_typed rel kind) True row.

(** The rows an operation carries, under a relation the parser knows. *)
Definition event_typed (rels : gmap Z RelationInfo) (e : ChangeEvent) : Prop :=
  match op e with
  | OpCommit => schema_name e = "" ∧ table_name e = "" ∧ old_row e = None ∧ new_row e = None
  | o => ∃ id rel, rels !! id = Some rel ∧ schema_name e = rel_schema rel ∧ table_name e = rel_table rel ∧
      match o with
      | OpInsert => old_row e = None ∧ is_Some (new_row e) ∧ opt_typed rel TInsert (new_row e)
      | OpUpdate => opt_typed rel TUpdateOld (old_row e) ∧ opt_typed rel TUpdateNew (new_row e)
      | OpDelete => is_Some (old_row e) ∧ opt_typed rel TDelete (old_row e) ∧ new_row e = None
      | _ => old_row e = None ∧ new_row e = None
      end
  end.

Lemma outcome_bind_inv {A B} (m : outcome A) (f : A → outcome B) b :
  (m ≫= f) = Ret b → ∃ a, m = Ret a ∧ f a = Ret b.
Proof. destruct m as [a| | |]; try done. by exists a. Qed.

Lemma lift_bind_inv {W A B} (o : outcome A) (f : A → prog W B) w b w' :
  (lift o ≫= f) w = (Ret b, w') → ∃ a, o = Ret a ∧ f a w = (Ret b, w').
Proof. intros (a & w1 & Hl & Hf)%prog_bind_inv. injection Hl as -> <-. eauto. Qed.

Lemma decode_column_typed name p cv p' :
  decode_column name p = Ret (cv, p') → column_typed cv ∧ cv_name cv = name.
Proof.
  unfold decode_column. intros ([k q] & _ & Hk)%outcome_bind_inv.
  destruct (_ =? _)%Z; [by injection Hk as <- _|]. destruct (_ =? _)%Z; [by injection Hk as <- _|].
  destruct (_ =? _)%Z; [|done]. apply outcome_bind_inv in Hk as ([len q1] & _ & Hk).
  apply outcome_bind_inv in Hk as ([text q2] & _ & Hk). by injection Hk as <- _.
Qed.

Lemma decode_columns_typed n names p cvs p' :
  decode_columns n names p = Ret (cvs, p') →
  Forall column_typed cvs ∧ ∀ i c, cvs !! i = Some c → cv_name c = default "" (names !! i).
Proof.
  revert names p cvs p'. induction n as [|n IH]; intros names p cvs p' Hd; cbn [decode_columns] in Hd.
  { injection Hd as <- _. split; [by constructor|done]. }
  apply outcome_bind_inv in Hd as ([cv q] & Hc & Hd). apply outcome_bind_inv in Hd as ([cs q1] & Hr & Hd).
  injection Hd as <- _. apply decode_column_typed in Hc as [Hc Hn]. apply IH in Hr as [Hcs Hns].
  split; [by constructor|]. intros [|i] c Hi; simpl in Hi.
  - injection Hi as <-. rewrite Hn. by destruct names.
  - rewrite (Hns i c Hi). by destruct names.
Qed.

Lemma decode_tuple_typed rel p kind row p' :
  decode_tuple rel p kind = Ret (row, p') → row_typed rel kind row.
Proof.
  unfold decode_tuple. intros ([n q] & _ & Hd)%outcome_bind_inv.
  apply outcome_bind_inv in Hd as ([cs q1] & Hc & Hd). injection Hd as <- _.
  apply decode_columns_typed in Hc as [Hc Hn]. by split_and!.
Qed.

Lemma find_relation_inv what id st rel st' :
  find_relation what id st = (Ret rel, st') → st' = st ∧ relations_ st !! id = Some rel.
Proof.
  unfold find_relation. intros (r & s & Hg & Hr)%prog_bind_inv. injection Hg as <- <-.
  destruct (relations_ st !! id) eqn:E; [|done]. by injection Hr as -> ->.
Qed.

Lemma read_truncated_typed st n p evs :
  read_truncated st n p = Ret evs → Forall (event_typed (relations_ st)) evs.
Proof.
  revert p evs. induction n as [|n IH]; intros p evs Hr; cbn [read_truncated] in Hr; [by injection Hr as <-|].
  apply outcome_bind_inv in Hr as ([id q] & _ & Hr). destruct (relations_ st !! id) as [rel|] eqn:E; [|by eapply IH].
  apply outcome_bind_inv in Hr as (es & He & Hr). injection Hr as <-. constructor; [|by eapply IH].
  exists id, rel. done.
Qed.

Lemma parse_insert_typed p st evs st' :
  parse_insert p st = (Ret evs, st') → Forall (event_typed (relations_ st)) evs.
Proof.
  unfold parse_insert. intros ([id q] & _ & Hp)%lift_bind_inv.
  apply prog_bind_inv in Hp as (rel & s & [-> Hrel]%find_relation_inv & Hp).
  apply lift_bind_inv in Hp as ([f q1] & _ & Hp).
  apply lift_bind_inv in Hp as ([row q2] & Hd%decode_tuple_typed & Hp).
  apply prog_bind_inv in Hp as (ts & s & _ & Hp). injection Hp as <- _.
  apply Forall_singleton. exists id, rel. by split_and!.
Qed.

Lemma parse_delete_typed p st evs st' :
  parse_delete p st = (Ret evs, st') → Forall (event_typed (relations_ st)) evs.
Proof.
  unfold parse_delete. intros ([id q] & _ & Hp)%lift_bind_inv.
  apply prog_bind_inv in Hp as (rel & s & [-> Hrel]%find_relation_inv & Hp).
  apply prog_bind_inv in Hp as (ts & s & _ & Hp). apply lift_bind_inv in Hp as ([f q1] & _ & Hp).
  apply lift_bind_inv in Hp as ([row q2] & Hd%decode_tuple_typed & Hp). injection Hp as <- _.
  apply Forall_singleton. exists id, rel. by split_and!.
Qed.

Lemma parse_update_typed p st evs st' :
  parse_update p st = (Ret evs, st') → Forall (event_typed (relations_ st)) evs.
Proof.
  unfold parse_update. intros ([id q] & _ & Hp)%lift_bind_inv.
  apply prog_bind_inv in Hp as (rel & s & [-> Hrel]%find_relation_inv & Hp).
  apply prog_bind_inv in Hp as (ts & s & _ & Hp). apply lift_bind_inv in Hp as ([tag q1] & _ & Hp).
  apply prog_bind_inv in Hp as ([[old tag'] q2] & s1 & Hold & Hp).
  apply prog_bind_inv in Hp as (new & s2 & Hnew & Hp). injection Hp as <- _.
  apply Forall_singleton. exists id, rel. split_and!; try done; simpl.
  - destruct (_ || _); [|unfold mret, prog_ret in Hold; by simplify_eq].
    apply lift_bind_inv in Hold as ([row q3] & Hd%decode_tuple_typed & Hold).
    apply lift_bind_inv in Hold as ([t q4] & _ & Hold). unfold mret, prog_ret in Hold. by simplify_eq.
  - destruct (tag' =? chr "N")%Z; [|unfold mret, prog_ret in Hnew; by simplify_eq].
    apply lift_bind_inv in Hnew as ([row q3] & Hd%decode_tuple_typed & Hnew).
    unfold mret, prog_ret in Hnew. by simplify_eq.
Qed.

(** C9: whatever bytes the server sends, the events the parser returns are well
    formed: an insert has a new row and no old one, a delete an old row and no
    new one, truncates and commits have none; every row belongs to a relation
    the parser was told of, under its schema, table and column names, with the
    tuple kind of its place; and every column is null, unchanged or a text. *)
Theorem parsed_events_typed (data : list byte) (st st' : PgOutputParser) (evs : list ChangeEvent) :
  parse data st = (Ret (Some evs), st') → Forall (event_typed (relations_ st)) evs.
Proof.
  unfold parse. case_bool_decide; [done|]. intros ([k p] & _ & Hp)%lift_bind_inv.
  destruct (_ =? _)%Z; [by apply prog_bind_inv in Hp as (? & ? & _ & Hp)|].
  destruct (_ =? _)%Z; [apply prog_bind_inv in Hp as (? & ? & _ & Hp); injection Hp as <- _; by repeat constructor|].
  destruct (_ =? _)%Z; [by apply prog_bind_inv in Hp as (? & ? & _ & Hp)|].
  do 2 (destruct (_ =? _)%Z; [done|]).
  destruct (_ =? _)%Z; [|destruct (_ =? _)%Z; [|destruct (_ =? _)%Z; [|destruct (_ =? _)%Z; [|done]]]];
    apply prog_bind_inv in Hp as (es & st1 & Hp & He); injection He as -> _.
  - apply lift_bind_inv in Hp as ([n q] & _ & Hp). apply lift_bind_inv in Hp as ([f q1] & _ & Hp).
    apply prog_bind_inv in Hp as (s & ? & Hg & Hp). injection Hg as <- <-. injection Hp as Hp _.
    by apply read_truncated_typed in Hp.
  - by eapply parse_insert_typed.
  - by eapply parse_update_typed.
  - by eapply parse_delete_typed.
Qed.

Lemma parsed_events_typed_witness :
  let rels := {[5%Z := {| relation_id := 5; rel_schema := "s"; rel_table := "t"; column_names := ["c"] |}]} in
  Forall (event_typed rels)
    [insert_event [TCText "ab"; TCNull]
       {| relation_id := 5; rel_schema := "s"; rel_table := "t"; column_names := ["c"] |} 0].
Proof.
  intros rels.
  apply (parsed_events_typed (encode_msg (MInsert 5 [TCText "ab"; TCNull]))
    {| relations_ := rels; pending_commit_timestamp_unix_us_ := 0 |}
    {| relations_ := rels; pending_commit_timestamp_unix_us_ := 0 |}).
  vm_compute. reflexivity.
Defined.
