(* ===== verification/Config.v ===== *)
(** * [src/config.hpp] and the sink configurations: loading and validation

    The TOML document is data ([toml]); the file parser and the file system
    ([fs_view]) are parameters.  Loading mirrors [load_config] and each
    [load_from_config]; validation returns the list of messages the program
    prints before it refuses to start. *)

From S2P Require Import Prelude.
From stdpp Require Import pretty.
From Stdlib Require Import Lia.

(** ** TOML documents *)

Inductive toml : Type :=
| TString (s : string)
| TInt (z : Z)
| TFloat (bits : Z)
| TBool (b : bool)
| TArray (l : list toml)
| TTable (l : list (string * toml)).

Abbreviation toml_table := (list (string * toml)).

Fixpoint tget (t : toml_table) (key : string) : option toml :=
  match t with
  | [] => None
  | (k, v) :: t => if bool_decide (k = key) then Some v else tget t key
  end.

Definition as_table (v : option toml) : option toml_table :=
  match v with Some (TTable t) => Some t | _ => None end.
Definition as_array (v : option toml) : option (list toml) :=
  match v with Some (TArray l) => Some l | _ => None end.

(** The readers of a typed key with a default ([str_or] and the lambdas of
    [load_config]): a missing key or another type gives the default. *)
Definition str_or (t : toml_table) (key : string) (def : string) : string :=
  match tget t key with Some (TString s) => s | _ => def end.
Definition i32_or (t : toml_table) (key : string) (def : Z) : Z :=
  match tget t key with Some (TInt z) => i32 z | _ => def end.
Definition bool_or (t : toml_table) (key : string) (def : bool) : bool :=
  match tget t key with Some (TBool b) => b | _ => def end.
Definition get_bool (t : toml_table) (key : string) : option bool :=
  match tget t key with Some (TBool b) => Some b | _ => None end.

(** ** Configuration records *)

Record AppSettings := {
  log_level : string;
  log_file : string;
  log_max_size_mb : Z;
  log_max_files : Z;
  batch_size : Z;          (* size_t *)
  batch_timeout_ms : Z;    (* int *)
  backfill_dir : string;
}.

Record TlsConfig := {
  sslmode : string;
  sslrootcert : string;
  sslcert : string;
  sslkey : string;
  sslpassword : string;
}.

Record SourceConfig := {
  src_host : string;
  src_port : string;
  src_dbname : string;
  src_user : string;
  src_password : string;
  src_slot_name : string;
  src_publication : string;
  src_backfill : bool;
  src_tls : TlsConfig;
}.

Record ColumnMapping := {
  source_column : string;
  sink_column : string;
  role : string;
}.

Record TableMapping := {
  source_table : string;
  tm_columns : list ColumnMapping;
  id_source_ : string;
  id_sink_ : string;
  embed_source_ : string;
  embed_sink_ : string;
  has_discriminator_ : bool;
  discriminator_sink_ : string;
  discriminator_label_ : string;
}.

#[export] Instance ColumnMapping_eq_dec : EqDecision ColumnMapping.
Proof. solve_decision. Defined.
#[export] Instance TableMapping_eq_dec : EqDecision TableMapping.
Proof. solve_decision. Defined.

Record EmbeddingConfig := {
  provider : string;
  model : string;
  model_path : string;
  api_key : string;
  lora_path : string;
  lora_scale : Z;          (* float, as its bits *)
  dimensions : Z;
  n_threads : Z;
  n_ctx : Z;
  max_batch_size : Z;
  n_gpu_layers : Z;
  emb_validate : string;
}.

Record PgSinkConfiguration := {
  pg_host : string;
  pg_port : string;
  pg_dbname : string;
  pg_user : string;
  pg_password : string;
  pg_table : string;
  pg_embedding_column : string;
  pg_table_mappings : list TableMapping;
  pg_tls : TlsConfig;
  pg_required_override : option bool;
}.

Record QdrantSinkConfiguration := {
  qd_url : string;
  qd_api_key : string;
  qd_collection : string;
  qd_table_mappings : list TableMapping;
  qd_required_override : option bool;
}.

Record MilvusSinkConfiguration := {
  mv_url : string;
  mv_token : string;
  mv_db_name : string;
  mv_collection : string;
  mv_table_mappings : list TableMapping;
  mv_required_override : option bool;
}.

Record JsonSinkConfiguration := {
  output_target : string;
  js_required_override : option bool;
}.

(** The classes derived from [SinkConfiguration]. *)
Inductive SinkConfiguration :=
| PgSink (c : PgSinkConfiguration)
| JsonSink (c : JsonSinkConfiguration)
| QdrantSink (c : QdrantSinkConfiguration)
| MilvusSink (c : MilvusSinkConfiguration).

Record AppConfig := {
  settings : AppSettings;
  sources : list SourceConfig;
  sinks : list SinkConfiguration;
  embedding : EmbeddingConfig;
}.

(** ** Defaults *)

Definition default_settings : AppSettings :=
  {| log_level := "info"; log_file := "/var/log/walkrie/walkrie.log"; log_max_size_mb := 10;
     log_max_files := 5; batch_size := 1; batch_timeout_ms := 50;
     backfill_dir := "/var/lib/walkrie/backfill" |}.

Definition default_tls : TlsConfig :=
  {| sslmode := ""; sslrootcert := ""; sslcert := ""; sslkey := ""; sslpassword := "" |}.

Definition default_source : SourceConfig :=
  {| src_host := "localhost"; src_port := "5432"; src_dbname := ""; src_user := "";
     src_password := ""; src_slot_name := "pgcdc_slot"; src_publication := "pgcdc_pub";
     src_backfill := false; src_tls := default_tls |}.

(** The bits of [1.0f]. *)
Definition float_one : Z := 0x3F800000.

Definition default_embedding : EmbeddingConfig :=
  {| provider := "llama"; model := ""; model_path := ""; api_key := ""; lora_path := "";
     lora_scale := float_one; dimensions := 1024; n_threads := 4; n_ctx := 512;
     max_batch_size := 1; n_gpu_layers := 0; emb_validate := "none" |}.

(** ** Loading *)

Definition tls_load_from_toml (t : toml_table) (c : TlsConfig) : TlsConfig :=
  {| sslmode := str_or t "sslmode" (sslmode c);
     sslrootcert := str_or t "sslrootcert" (sslrootcert c);
     sslcert := str_or t "sslcert" (sslcert c);
     sslkey := str_or t "sslkey" (sslkey c);
     sslpassword := str_or t "sslpassword" (sslpassword c) |}.

Definition frag (key value : string) : string :=
  if str_empty value then "" else " " +:+ key +:+ "=" +:+ value.

Definition to_conninfo_fragment (c : TlsConfig) : string :=
  frag "sslmode" (sslmode c) +:+ frag "sslrootcert" (sslrootcert c) +:+
  frag "sslcert" (sslcert c) +:+ frag "sslkey" (sslkey c) +:+ frag "sslpassword" (sslpassword c).

(** One turn of [resolve_columns]: a later column of the same role wins. *)
Definition resolve_column (tm : TableMapping) (m : ColumnMapping) : TableMapping :=
  if bool_decide (role m = "id") then
    {| source_table := source_table tm; tm_columns := tm_columns tm;
       id_source_ := source_column m; id_sink_ := sink_column m;
       embed_source_ := embed_source_ tm; embed_sink_ := embed_sink_ tm;
       has_discriminator_ := has_discriminator_ tm; discriminator_sink_ := discriminator_sink_ tm;
       discriminator_label_ := discriminator_label_ tm |}
  else if bool_decide (role m = "embed") then
    {| source_table := source_table tm; tm_columns := tm_columns tm;
       id_source_ := id_source_ tm; id_sink_ := id_sink_ tm;
       embed_source_ := source_column m; embed_sink_ := sink_column m;
       has_discriminator_ := has_discriminator_ tm; discriminator_sink_ := discriminator_sink_ tm;
       discriminator_label_ := discriminator_label_ tm |}
  else tm.

Definition resolve_columns (tm : TableMapping) : TableMapping :=
  foldl resolve_column tm (tm_columns tm).

(** One element of a [columns] array; kept only with a source column and a role. *)
Definition load_column (e : toml) : option ColumnMapping :=
  let m := match e with
           | TTable c => {| source_column := str_or c "source_column" "";
                            sink_column := str_or c "sink_column" "";
                            role := str_or c "role" "" |}
           | _ => {| source_column := ""; sink_column := ""; role := "" |}
           end in
  if negb (str_empty (source_column m)) && negb (str_empty (role m)) then Some m else None.

Definition empty_mapping : TableMapping :=
  {| source_table := ""; tm_columns := []; id_source_ := ""; id_sink_ := ""; embed_source_ := "";
     embed_sink_ := ""; has_discriminator_ := false; discriminator_sink_ := "";
     discriminator_label_ := "" |}.

(** One element of a [table_mapping] array; kept only with a source table. *)
Definition load_mapping (e : toml) : option TableMapping :=
  let tm := match e with
    | TTable t =>
        let disc_col := str_or t "discriminator_column" "" in
        let disc_lbl := str_or t "discriminator_label" "" in
        let cols := match as_array (tget t "columns") with
                    | Some l => omap load_column l
                    | None => []
                    end in
        let has := negb (str_empty disc_col) in
        resolve_columns
          {| source_table := str_or t "source_table" ""; tm_columns := cols;
             id_source_ := ""; id_sink_ := ""; embed_source_ := ""; embed_sink_ := "";
             has_discriminator_ := has;
             discriminator_sink_ := if has then disc_col else "";
             discriminator_label_ := if has then disc_lbl else "" |}
    | _ => empty_mapping
    end in
  if negb (str_empty (source_table tm)) then Some tm else None.

Definition load_table_mappings (t : toml_table) : list TableMapping :=
  match as_array (tget t "table_mapping") with
  | Some l => omap load_mapping l
  | None => []
  end.

Definition pg_load_from_config (t : toml_table) : PgSinkConfiguration :=
  {| pg_host := str_or t "host" "localhost"; pg_port := str_or t "port" "5432";
     pg_dbname := str_or t "dbname" ""; pg_user := str_or t "user" "";
     pg_password := str_or t "password" ""; pg_table := str_or t "table" "";
     pg_embedding_column := str_or t "embed_column" "";
     pg_tls := tls_load_from_toml t default_tls;
     pg_required_override := get_bool t "required";
     pg_table_mappings := load_table_mappings t |}.

Definition qdrant_load_from_config (t : toml_table) : QdrantSinkConfiguration :=
  {| qd_url := str_or t "url" "http://localhost:6333"; qd_api_key := str_or t "api_key" "";
     qd_collection := str_or t "collection" ""; qd_required_override := get_bool t "required";
     qd_table_mappings := load_table_mappings t |}.

Definition milvus_load_from_config (t : toml_table) : MilvusSinkConfiguration :=
  {| mv_url := str_or t "url" "http://localhost:19530"; mv_token := str_or t "token" "";
     mv_db_name := str_or t "db_name" ""; mv_collection := str_or t "collection" "";
     mv_required_override := get_bool t "required"; mv_table_mappings := load_table_mappings t |}.

Definition json_load_from_config (t : toml_table) : JsonSinkConfiguration :=
  {| output_target := str_or t "output_target" "stdout"; js_required_override := get_bool t "required" |}.

(** [instantiate_sink] followed by the instance's [load_from_config]. *)
Definition instantiate_sink (type : string) (t : toml_table) : outcome SinkConfiguration :=
  if bool_decide (type = "pgvector") then Ret (PgSink (pg_load_from_config t))
  else if bool_decide (type = "json-output") then Ret (JsonSink (json_load_from_config t))
  else if bool_decide (type = "qdrant") then Ret (QdrantSink (qdrant_load_from_config t))
  else if bool_decide (type = "milvus") then Ret (MilvusSink (milvus_load_from_config t))
  else Throw ("make_sink: unknown sink type '" +:+ type +:+ "' — " +:+
              "valid values: 'pgvector', 'json-output', 'qdrant', 'milvus'").

Definition load_settings (a : toml_table) : AppSettings :=
  let d := default_settings in
  {| log_level := str_or a "log_level" (log_level d);
     log_file := str_or a "log_file" (log_file d);
     log_max_size_mb := i32_or a "log_max_size_mb" (log_max_size_mb d);
     log_max_files := i32_or a "log_max_files" (log_max_files d);
     batch_size := u64 (i32_or a "batch_size" (i32 (batch_size d)));
     batch_timeout_ms := i32_or a "batch_timeout_ms" (batch_timeout_ms d);
     backfill_dir := str_or a "backfill_dir" (backfill_dir d) |}.

Definition load_source (e : toml) : SourceConfig :=
  let d := default_source in
  match e with
  | TTable s =>
      {| src_host := str_or s "host" (src_host d); src_port := str_or s "port" (src_port d);
         src_dbname := str_or s "dbname" (src_dbname d); src_user := str_or s "user" (src_user d);
         src_password := str_or s "password" (src_password d);
         src_slot_name := str_or s "slot_name" (src_slot_name d);
         src_publication := str_or s "publication" (src_publication d);
         src_backfill := bool_or s "backfill" (src_backfill d);
         src_tls := tls_load_from_toml s (src_tls d) |}
  | _ => d
  end.

(** The [[sink]] loop; a non-table element is passed over. *)
Fixpoint load_sinks (l : list toml) : outcome (list SinkConfiguration) :=
  match l with
  | [] => Ret []
  | TTable s :: l =>
      c ← instantiate_sink (str_or s "type" "pgvector") s;
      cs ← load_sinks l;
      Ret (c :: cs)
  | _ :: l => load_sinks l
  end.

Section load.
(** [static_cast<float>(double)] on bit patterns, and [toml::parse_file]. *)
Context (to_float : Z → Z) (parse_file : string → outcome toml_table).

Definition f32_or (t : toml_table) (key : string) (def : Z) : Z :=
  match tget t key with Some (TFloat z) => to_float z | _ => def end.

Definition load_embedding (e : toml_table) (max_batch : Z) : EmbeddingConfig :=
  let d := default_embedding in
  {| provider := str_or e "provider" (provider d); model := str_or e "model" (model d);
     model_path := str_or e "model_path" (model_path d); api_key := str_or e "api_key" (api_key d);
     lora_path := str_or e "lora_path" (lora_path d);
     lora_scale := f32_or e "lora_scale" (lora_scale d);
     dimensions := i32_or e "dimensions" (dimensions d);
     n_threads := i32_or e "n_threads" (n_threads d); n_ctx := i32_or e "n_ctx" (n_ctx d);
     max_batch_size := max_batch; n_gpu_layers := i32_or e "n_gpu_layers" (n_gpu_layers d);
     emb_validate := str_or e "validate" (emb_validate d) |}.

(** The document part of [load_config]; a missing section keeps its defaults,
    and [max_batch_size] is the batch size narrowed to [int]. *)
Definition load_document (tbl : toml_table) : outcome AppConfig :=
  let s := load_settings (default [] (as_table (tget tbl "app"))) in
  let srcs := load_source <$> default [] (as_array (tget tbl "source")) in
  sks ← load_sinks (default [] (as_array (tget tbl "sink")));
  Ret {| settings := s; sources := srcs; sinks := sks;
         embedding := load_embedding (default [] (as_table (tget tbl "embedding")))
                        (i32 (batch_size s)) |}.

Definition load_config (path : string) : outcome AppConfig :=
  match parse_file path with
  | Ret tbl => load_document tbl
  | Throw e => Throw ("config parse error in '" +:+ path +:+ "': " +:+ e)
  | UB e => UB e
  | OutOfFuel => OutOfFuel
  end.
End load.

(** ** Validation *)

(** What the checks ask of the file system and of the GGUF reader; every
    query may be about a path that does not exist. *)
Record fs_view := {
  fs_exists : string → bool;
  fs_is_regular : string → bool;
  fs_readable : string → bool;
  fs_size : string → Z;
  gguf_parsed : string → bool;
  gguf_dimensions : string → option Z;
}.

(** [if (cond) errors.push_back(msg)] *)
Definition err (cond : bool) (msg : string) : list string := if cond then [msg] else [].

Section validate.
Context (fs : fs_view).

Definition check_file (context path field : string) : list string :=
  if str_empty path then []
  else if negb (fs_exists fs path) then
    [context +:+ " " +:+ field +:+ " does not exist: '" +:+ path +:+ "'"]
  else if negb (fs_is_regular fs path) then
    [context +:+ " " +:+ field +:+ " exists but is not a regular file: '" +:+ path +:+ "'"]
  else err (negb (fs_readable fs path))
    (context +:+ " " +:+ field +:+ " exists but is not readable by the current user: '" +:+ path +:+ "'").

Definition valid_modes : list string :=
  ["disable"; "allow"; "prefer"; "require"; "verify-ca"; "verify-full"].

Definition tls_validate (context : string) (c : TlsConfig) : list string :=
  err (negb (str_empty (sslmode c)) && negb (bool_decide (sslmode c ∈ valid_modes)))
    (context +:+ " sslmode must be one of: disable, allow, prefer, require, verify-ca, verify-full") ++
  err (negb (Bool.eqb (str_empty (sslcert c)) (str_empty (sslkey c))))
    (context +:+ " sslcert and sslkey must both be set together for client " +:+
     "certificate authentication (or both left empty)") ++
  check_file context (sslrootcert c) "sslrootcert" ++
  check_file context (sslcert c) "sslcert" ++
  check_file context (sslkey c) "sslkey".

(** The per-mapping checks, the same text in the three sink configurations. *)
Definition validate_mapping (tm : TableMapping) : list string :=
  err (str_empty (source_table tm)) "[sink.table_mapping] source_table is required" ++
  err (str_empty (id_source_ tm))
    ("[sink.table_mapping:" +:+ source_table tm +:+ "] needs a mapping with role='id'") ++
  err (str_empty (embed_source_ tm))
    ("[sink.table_mapping:" +:+ source_table tm +:+ "] needs a mapping with role='embed'") ++
  err (has_discriminator_ tm && str_empty (discriminator_label_ tm))
    ("[sink.table_mapping:" +:+ source_table tm +:+
     "] discriminator_column is set but discriminator_label is empty").

Definition no_mapping : string := "[sink] at least one [[sink.table_mapping]] block is required".

Definition pg_validate (c : PgSinkConfiguration) : list string :=
  err (str_empty (pg_dbname c)) "[sink] dbname is required" ++
  err (str_empty (pg_user c)) "[sink] user is required" ++
  err (str_empty (pg_table c)) "[sink] table is required" ++
  err (str_empty (pg_embedding_column c)) "[sink] embedding column is required" ++
  err (bool_decide (pg_table_mappings c = [])) no_mapping ++
  tls_validate "[sink]" (pg_tls c) ++
  (pg_table_mappings c ≫= validate_mapping).

Definition qdrant_validate (c : QdrantSinkConfiguration) : list string :=
  err (str_empty (qd_url c)) "[sink] url is required" ++
  err (str_empty (qd_collection c)) "[sink] collection is required" ++
  err (bool_decide (qd_table_mappings c = [])) no_mapping ++
  (qd_table_mappings c ≫= validate_mapping).

Definition milvus_validate (c : MilvusSinkConfiguration) : list string :=
  err (str_empty (mv_url c)) "[sink] url is required" ++
  err (str_empty (mv_collection c)) "[sink] collection is required" ++
  err (bool_decide (mv_table_mappings c = [])) no_mapping ++
  (mv_table_mappings c ≫= validate_mapping).

Definition sink_validate (c : SinkConfiguration) : list string :=
  match c with
  | PgSink c => pg_validate c
  | JsonSink _ => []
  | QdrantSink c => qdrant_validate c
  | MilvusSink c => milvus_validate c
  end.

Definition valid_levels : list string := ["trace"; "debug"; "info"; "warn"; "error"; "critical"].

Definition validate_settings (s : AppSettings) : list string :=
  err (negb (bool_decide (log_level s ∈ valid_levels)))
    "[app] log_level must be one of: trace, debug, info, warn, error, critical" ++
  err (batch_size s <? 1)%Z "[app] batch_size must be >= 1" ++
  err (batch_timeout_ms s <=? 0)%Z "[app] batch_timeout_ms must be > 0".

Definition validate_source (i : nat) (s : SourceConfig) : list string :=
  let ctx := "[source][" +:+ pretty i +:+ "]" in
  err (str_empty (src_dbname s)) (ctx +:+ " dbname is required") ++
  err (str_empty (src_user s)) (ctx +:+ " user is required") ++
  tls_validate ctx (src_tls s).

(** The message of the opt-in model check, [""] when the model passes. *)
Definition gguf_message (e : EmbeddingConfig) : string :=
  if negb (gguf_parsed fs (model_path e)) then
    "[embedding] model_path is not a valid GGUF file: '" +:+ model_path e +:+
    "' — check it's the right file and wasn't corrupted or truncated during download"
  else match gguf_dimensions fs (model_path e) with
  | Some d =>
      if (d =? dimensions e)%Z then ""
      else "[embedding] dimensions (" +:+ pretty (dimensions e) +:+
           ") does not match the embedding size declared by the model at '" +:+ model_path e +:+
           "' (" +:+ pretty d +:+ ") — set [embedding] dimensions to match the model"
  | None => ""
  end.

(** A non-empty, regular, readable file; [extra] runs when all of that holds. *)
Definition check_model_file (field path hint_missing : string) (extra : list string) : list string :=
  if negb (fs_exists fs path) then
    ["[embedding] " +:+ field +:+ " does not exist: '" +:+ path +:+ "' — " +:+ hint_missing]
  else if negb (fs_is_regular fs path) then
    ["[embedding] " +:+ field +:+ " exists but is not a regular file: '" +:+ path +:+ "'"]
  else if negb (fs_readable fs path) then
    ["[embedding] " +:+ field +:+ " exists but is not readable by the current user: '" +:+ path +:+
     "' — check file ownership/permissions (the walkrie service runs as the 'walkrie' system user)"]
  else if (fs_size fs path =? 0)%Z then
    ["[embedding] " +:+ field +:+ " points to an empty (0-byte) file: '" +:+ path +:+
     "' — the download may have failed or been interrupted"]
  else extra.

Definition validate_llama (e : EmbeddingConfig) : list string :=
  (if str_empty (model_path e) then
     ["[embedding] model_path is required when provider = 'llama'"]
   else check_model_file "model_path" (model_path e)
     ("place a GGUF model file at this path before starting walkrie (see README.md for download " +:+
      "instructions)")
     (if bool_decide (emb_validate e ≠ "none")
      then err (negb (str_empty (gguf_message e)) && bool_decide (emb_validate e = "force"))
             (gguf_message e)
      else [])) ++
  (if str_empty (lora_path e) then []
   else check_model_file "lora_path" (lora_path e)
     ("place the LoRA adapter GGUF at this path or remove lora_path to run without an adapter") []) ++
  err (dimensions e <=? 0)%Z "[embedding] dimensions must be > 0".

Definition validate_openai (e : EmbeddingConfig) : list string :=
  err (str_empty (api_key e)) "[embedding] api_key is required when provider = 'openai'" ++
  err (str_empty (model e)) "[embedding] model is required when provider = 'openai'" ++
  err (bool_decide (model e = "text-embedding-3-small") && (1536 <? dimensions e)%Z)
    "[embedding] dimensions must be <= 1536 for text-embedding-3-small" ++
  err (bool_decide (model e = "text-embedding-3-large") && (3072 <? dimensions e)%Z)
    "[embedding] dimensions must be <= 3072 for text-embedding-3-large" ++
  err (bool_decide (model e = "text-embedding-ada-002") && negb (dimensions e =? 1536)%Z)
    ("[embedding] text-embedding-ada-002 does not support dimension truncation — " +:+
     "dimensions must be exactly 1536").

Definition validate_embedding (e : EmbeddingConfig) : list string :=
  err (bool_decide (provider e ≠ "llama") && bool_decide (provider e ≠ "openai"))
    "[embedding] provider must be 'llama' or 'openai'" ++
  err (bool_decide (emb_validate e ≠ "none") && bool_decide (emb_validate e ≠ "warn") &&
       bool_decide (emb_validate e ≠ "force"))
    "[embedding] validate must be one of: none, warn, force" ++
  (if bool_decide (provider e = "llama") then validate_llama e else []) ++
  (if bool_decide (provider e = "openai") then validate_openai e else []).

(** [AppConfig::validate()] (every sink pointer of a loaded config is set). *)
Definition validate (c : AppConfig) : list string :=
  validate_settings (settings c) ++
  err (bool_decide (sources c = [])) "[source] at least one [[source]] block is required" ++
  concat (imap validate_source (sources c)) ++
  validate_embedding (embedding c) ++
  (sinks c ≫= sink_validate).
End validate.

(** [SinkConfiguration::mappings] and [needs_embedding_provider] *)
Definition sink_mappings (c : SinkConfiguration) : list TableMapping :=
  match c with
  | PgSink c => pg_table_mappings c
  | JsonSink _ => []
  | QdrantSink c => qd_table_mappings c
  | MilvusSink c => mv_table_mappings c
  end.

Definition needs_embedding_provider (c : SinkConfiguration) : bool :=
  match c with JsonSink _ => false | _ => true end.

Definition any_sink_needs_provider (c : AppConfig) : bool :=
  existsb needs_embedding_provider (sinks c).

(** ** What a validated configuration guarantees *)

Lemma err_nil b m : err b m = [] ↔ b = false.
Proof. by destruct b. Qed.

Lemma bind_nil {A B} (f : A → list B) l : l ≫= f = [] ↔ ∀ x, x ∈ l → f x = [].
Proof.
  induction l as [|x l IH]; csimpl; [split; [set_solver|done]|].
  rewrite app_nil, IH. setoid_rewrite elem_of_cons. naive_solver.
Qed.

(** A mapping a sink can work with. *)
Definition usable_mapping (tm : TableMapping) : Prop :=
  source_table tm ≠ "" ∧ id_source_ tm ≠ "" ∧ embed_source_ tm ≠ "" ∧
  (has_discriminator_ tm = true → discriminator_label_ tm ≠ "").

Lemma validate_mapping_nil tm : validate_mapping tm = [] ↔ usable_mapping tm.
Proof.
  unfold validate_mapping, usable_mapping. rewrite !app_nil, !err_nil, !str_empty_false.
  rewrite andb_false_iff, str_empty_false. destruct (has_discriminator_ tm); naive_solver.
Qed.

Lemma sink_validate_mappings fs c tm :
  sink_validate fs c = [] → tm ∈ sink_mappings c → usable_mapping tm.
Proof.
  destruct c; simpl; unfold pg_validate, qdrant_validate, milvus_validate;
    rewrite ?app_nil, ?bind_nil; intros Hv Hin; [| set_solver| |];
    apply validate_mapping_nil; naive_solver.
Qed.


Definition demo_fs : fs_view :=
  {| fs_exists := λ p, bool_decide (p = "/m.gguf"); fs_is_regular := λ _, true;
     fs_readable := λ _, true; fs_size := λ _, 4096%Z; gguf_parsed := λ _, true;
     gguf_dimensions := λ _, Some 1024%Z |}.

Definition demo_document : toml_table :=
  [("app", TTable [("batch_size", TInt 8)]);
   ("source", TArray [TTable [("dbname", TString "qdb"); ("user", TString "quser")]]);
   ("embedding", TTable [("model_path", TString "/m.gguf")]);
   ("sink", TArray [TTable [("type", TString "qdrant"); ("collection", TString "c");
      ("table_mapping", TArray [TTable [("source_table", TString "items");
         ("columns", TArray
            [TTable [("source_column", TString "id"); ("sink_column", TString "item_id");
                     ("role", TString "id")];
             TTable [("source_column", TString "name"); ("sink_column", TString "item_name");
                     ("role", TString "embed")]])]])]])].

Definition demo_config : AppConfig :=
  match load_document id demo_document with
  | Ret c => c
  | _ => {| settings := default_settings; sources := []; sinks := []; embedding := default_embedding |}
  end.


(** A negative [batch_size] in the file passes validation: read as an
    [int] and cast to [size_t] it becomes a number above 2^63, which the check
    [batch_size < 1] accepts. *)
Theorem negative_batch_size_accepted a n :
  tget a "batch_size" = Some (TInt n) → (- 2 ^ 31 ≤ n < 0)%Z →
  batch_size (load_settings a) = (2 ^ 64 + n)%Z ∧
  "[app] batch_size must be >= 1" ∉ validate_settings (load_settings a).
Proof.
  intros Ha Hn.
  assert (batch_size (load_settings a) = (2 ^ 64 + n)%Z) as Hb.
  { unfold load_settings, i32_or. simpl. rewrite Ha. unfold i32. rewrite sint_small by lia.
    unfold u64. rewrite <- (Z.mod_add n 1 (2 ^ 64)) by lia. rewrite Z.mod_small; lia. }
  split; [done|]. unfold validate_settings. rewrite Hb.
  assert ((2 ^ 64 + n <? 1)%Z = false) as -> by (apply Z.ltb_ge; lia).
  unfold err. simpl.
  repeat case_match; simpl; rewrite ?not_elem_of_cons; split_and?; try done; apply not_elem_of_nil.
Qed.

Lemma negative_batch_size_accepted_witness :
  batch_size (load_settings [("batch_size", TInt (-1))]) = (2 ^ 64 + -1)%Z ∧
  "[app] batch_size must be >= 1" ∉ validate_settings (load_settings [("batch_size", TInt (-1))]).
Proof. apply (negative_batch_size_accepted [("batch_size", TInt (-1))] (-1)); [reflexivity|lia]. Defined.

(** ** What loading a table mapping yields *)

Lemma resolve_column_cols tm m : tm_columns (resolve_column tm m) = tm_columns tm.
Proof. unfold resolve_column. by repeat case_match. Qed.

Lemma resolve_fold_frame l tm :
  let tm' := foldl resolve_column tm l in
  source_table tm' = source_table tm ∧ tm_columns tm' = tm_columns tm ∧
  has_discriminator_ tm' = has_discriminator_ tm ∧
  discriminator_sink_ tm' = discriminator_sink_ tm ∧
  discriminator_label_ tm' = discriminator_label_ tm.
Proof.
  revert tm. induction l as [|m l IH]; intros tm; simpl; [done|].
  specialize (IH (resolve_column tm m)). simpl in IH. unfold resolve_column in *.
  repeat case_match; naive_solver.
Qed.

(** The fields of a role come from the last column that has it. *)
Definition last_with (r : string) (l : list ColumnMapping) : option ColumnMapping :=
  last (filter (λ m, role m = r) l).

Lemma last_with_snoc r l m :
  last_with r (l ++ [m]) = if decide (role m = r) then Some m else last_with r l.
Proof.
  unfold last_with. rewrite filter_app, filter_cons, filter_nil.
  destruct (decide (role m = r)); [by rewrite last_snoc|by rewrite app_nil_r].
Qed.

Lemma resolve_fold_roles l tm :
  let tm' := foldl resolve_column tm l in
  id_source_ tm' = from_option source_column (id_source_ tm) (last_with "id" l) ∧
  id_sink_ tm' = from_option sink_column (id_sink_ tm) (last_with "id" l) ∧
  embed_source_ tm' = from_option source_column (embed_source_ tm) (last_with "embed" l) ∧
  embed_sink_ tm' = from_option sink_column (embed_sink_ tm) (last_with "embed" l).
Proof.
  induction l as [|m l IH] using rev_ind; [done|].
  rewrite foldl_app, !last_with_snoc. simpl in *. destruct IH as (I1 & I2 & I3 & I4).
  unfold resolve_column. destruct (decide (role m = "id")) as [Hi|Hi].
  - rewrite bool_decide_true, decide_False by congruence. done.
  - rewrite bool_decide_false by done. destruct (decide (role m = "embed")) as [He|He].
    + by rewrite bool_decide_true.
    + by rewrite bool_decide_false.
Qed.

Lemma load_column_spec e m :
  load_column e = Some m → source_column m ≠ "" ∧ role m ≠ "".
Proof.
  unfold load_column. case_match eqn:E; intros [=]; subst.
  apply andb_true_iff in E as [E1 E2].
  by rewrite !negb_true_iff, !str_empty_false in *.
Qed.

Lemma last_with_in r l m : last_with r l = Some m → m ∈ l ∧ role m = r.
Proof.
  unfold last_with. intros H%last_Some_elem_of. by apply list_elem_of_filter in H as [? ?].
Qed.

(** A loaded mapping names its source table, every column it keeps has a
    source column and a role, its id and embed fields are those of the last
    column with that role, and they are empty exactly when no column has it
    (so the "needs a mapping with role" checks report what the file lacks). *)
Theorem load_mapping_spec e tm :
  load_mapping e = Some tm →
  source_table tm ≠ "" ∧
  (∀ m, m ∈ tm_columns tm → source_column m ≠ "" ∧ role m ≠ "") ∧
  id_source_ tm = from_option source_column "" (last_with "id" (tm_columns tm)) ∧
  embed_source_ tm = from_option source_column "" (last_with "embed" (tm_columns tm)) ∧
  (id_source_ tm = "" ↔ ∀ m, m ∈ tm_columns tm → role m ≠ "id") ∧
  (embed_source_ tm = "" ↔ ∀ m, m ∈ tm_columns tm → role m ≠ "embed").
Proof.
  intros H.
  assert (source_table tm ≠ "" ∧
    (∀ m, m ∈ tm_columns tm → source_column m ≠ "" ∧ role m ≠ "") ∧
    id_source_ tm = from_option source_column "" (last_with "id" (tm_columns tm)) ∧
    embed_source_ tm = from_option source_column "" (last_with "embed" (tm_columns tm)))
    as (Ht & Hc & Hi & He).
  { unfold load_mapping in H. case_match eqn:E; simplify_eq.
    rewrite negb_true_iff, str_empty_false in E. split; [done|].
    destruct e; try done. unfold resolve_columns in *. cbn [tm_columns] in *.
    match goal with |- context [foldl resolve_column ?t ?l] =>
      destruct (resolve_fold_roles l t) as (-> & _ & -> & _);
      destruct (resolve_fold_frame l t) as (_ & -> & _) end.
    split; [|done]. simpl. intros m Hm. case_match; [|set_solver].
    apply list_elem_of_omap in Hm as (x & _ & Hx). by apply load_column_spec in Hx. }
  assert (∀ r, from_option source_column "" (last_with r (tm_columns tm)) = "" ↔
               ∀ m, m ∈ tm_columns tm → role m ≠ r) as Hrole.
  { intros r. destruct (last_with r (tm_columns tm)) as [m|] eqn:E; simpl.
    - apply last_with_in in E as [Hin Hr]. destruct (Hc m Hin). naive_solver.
    - split; [|done]. intros _ m Hm Hr. unfold last_with in E. apply last_None in E.
      assert (m ∈ filter (λ m, role m = r) (tm_columns tm)) by (by apply list_elem_of_filter).
      rewrite E in *. set_solver. }
  split_and!; try done; [rewrite Hi|rewrite He]; apply Hrole.
Qed.

Definition demo_mapping_toml : toml :=
  TTable [("source_table", TString "items");
          ("columns", TArray [TTable [("source_column", TString "id"); ("role", TString "id")];
                              TTable [("source_column", TString "pk"); ("role", TString "id")]])].

Lemma load_mapping_spec_witness :
  ∃ tm, load_mapping demo_mapping_toml = Some tm ∧
        id_source_ tm = from_option source_column "" (last_with "id" (tm_columns tm)) ∧
        id_source_ tm = "pk".
Proof.
  eexists. split; [vm_compute; reflexivity|]. split; [|reflexivity].
  eapply (load_mapping_spec demo_mapping_toml). vm_compute. reflexivity.
Defined.
