(* ===== verification/Dispatcher.v ===== *)
(** * [src/event_dispatcher.hpp], [src/event_dispatcher.cpp]: batching, retries
    and LSN confirmation

    The worker thread of [EventDispatcher] takes jobs off the queue, groups
    them into batches, hands each batch to every sink and reports the LSNs of
    the batches that went through.  The sinks ([src/event_sink.hpp]) are an
    interface, the class [EventSink]; their objects live in a state [W] of
    their own.  [std::chrono::steady_clock] is the field [now_ns], which every
    reading advances by an arbitrary amount ([jitter], an oracle), and a job
    queue that other threads append to is the environment's part of the step
    relation. *)

From S2P Require Import Prelude Event.
From stdpp Require Import relations.
From Stdlib Require Import Lia.

(** ** The sinks, as the dispatcher sees them *)

(** A sink object is known by its address. *)
Abbreviation SinkRef := nat (only parsing).

(** The virtual functions of [EventSink] the dispatcher calls. *)
Class EventSink (W : Type) := {
  call_batch : SinkRef → list ChangeEvent → prog W unit;
  sink_default_required : SinkRef → bool;
}.

Record SinkHandle := { sink : SinkRef; required : bool }.

#[export] Instance SinkHandle_eq_dec : EqDecision SinkHandle.
Proof. solve_decision. Defined.

(** The two constructors of [SinkHandle]. *)
Definition handle_default `{EventSink W} (s : SinkRef) : SinkHandle :=
  {| sink := s; required := sink_default_required s |}.
Definition handle_with (s : SinkRef) (req : bool) : SinkHandle :=
  {| sink := s; required := req |}.

Abbreviation SourceId := Z (only parsing).

Record EventJob := {
  ev : ChangeEvent;
  source_id : SourceId;
  job_sinks : list SinkHandle;
}.

(** ** The dispatcher object *)

(** What the constructor and the setters fix; durations in milliseconds. *)
Record DispatcherConfig := {
  max_batch_size_ : Z;
  batch_timeout_ : Z;
  required_retry_initial_backoff_ : Z;
  required_retry_ceiling_ : Z;
  on_confirmed_ : bool;      (* whether the callback is set *)
  on_fatal_ : bool;
}.

(** [EventDispatcher(max_batch_size, batch_timeout)] with the default retry
    policy, and both callbacks installed, as [main] does. *)
Definition main_dispatcher (batch_size timeout : Z) : DispatcherConfig :=
  {| max_batch_size_ := batch_size; batch_timeout_ := timeout;
     required_retry_initial_backoff_ := 500; required_retry_ceiling_ := 60000;
     on_confirmed_ := true; on_fatal_ := true |}.

(** The state the worker thread owns.  [confirm_calls] and [fatal_calls]
    record the callbacks, [attempts] the calls into each sink with whether
    they returned normally. *)
Record Dispatcher (W : Type) := {
  sinks_state : W;
  now_ns : Z;
  clock_reads : nat;
  fatal_triggered_ : bool;
  confirm_calls : list (SourceId * Z);
  fatal_calls : nat;
  attempts : list (SinkRef * list ChangeEvent * bool);
}.
Arguments sinks_state {W}. Arguments now_ns {W}. Arguments clock_reads {W}.
Arguments fatal_triggered_ {W}. Arguments confirm_calls {W}. Arguments fatal_calls {W}.
Arguments attempts {W}.

Definition ns_per_ms : Z := 1000000.

Section dispatcher.
Context {W : Type} `{EventSink W} (cfg : DispatcherConfig) (jitter : nat → Z).

Abbreviation disp := (Dispatcher W).

(** [std::chrono::steady_clock::now()] *)
Definition steady_now : prog disp Z := λ d,
  let t := (now_ns d + jitter (clock_reads d))%Z in
  (Ret t, {| sinks_state := sinks_state d; now_ns := t; clock_reads := S (clock_reads d);
             fatal_triggered_ := fatal_triggered_ d; confirm_calls := confirm_calls d;
             fatal_calls := fatal_calls d; attempts := attempts d |}).

(** [std::this_thread::sleep_for(ms)]: at least that long. *)
Definition sleep_for (ms : Z) : prog disp unit := modify (λ d,
  {| sinks_state := sinks_state d; now_ns := (now_ns d + Z.max 0 ms * ns_per_ms)%Z;
     clock_reads := clock_reads d; fatal_triggered_ := fatal_triggered_ d;
     confirm_calls := confirm_calls d; fatal_calls := fatal_calls d; attempts := attempts d |}).

(** [handle.sink->call_batch(batch_events)] *)
Definition call_sink (h : SinkHandle) (batch_events : list ChangeEvent) : prog disp unit := λ d,
  let '(r, w) := call_batch (sink h) batch_events (sinks_state d) in
  (r, {| sinks_state := w; now_ns := now_ns d; clock_reads := clock_reads d;
         fatal_triggered_ := fatal_triggered_ d; confirm_calls := confirm_calls d;
         fatal_calls := fatal_calls d;
         attempts := attempts d ++ [(sink h, batch_events, is_ret r)] |}).

(** The [catch] block: [inl] is what the function returns, [inr] the backoff
    with which the loop goes round.  [backoff *= 2] is on a signed 64-bit
    count. *)
Definition on_batch_error (h : SinkHandle) (backoff start : Z) (e : string) : prog disp (bool + Z) :=
  if negb (required h) then mret (inl true)
  else
    t ← steady_now;
    let elapsed := (t - start)%Z in
    let ceiling := (required_retry_ceiling_ cfg * ns_per_ms)%Z in
    if (ceiling <=? elapsed)%Z then mret (inl false)
    else
      let remaining := Z.quot (ceiling - elapsed) ns_per_ms in
      sleep_for (Z.min remaining backoff) ;;
      if (2 ^ 63 <=? backoff * 2)%Z then undefined "signed overflow: backoff *= 2"
      else mret (inr (backoff * 2)%Z).

Fixpoint retry_loop (fuel : nat) (h : SinkHandle) (batch_events : list ChangeEvent)
    (backoff start : Z) : prog disp bool :=
  match fuel with
  | O => λ d, (OutOfFuel, d)
  | S fuel =>
      r ← try_catch (call_sink h batch_events ;; mret (inl true)) (on_batch_error h backoff start);
      match r with
      | inl ok => mret ok
      | inr backoff => retry_loop fuel h batch_events backoff start
      end
  end.

Definition dispatch_with_retry (fuel : nat) (h : SinkHandle) (batch_events : list ChangeEvent)
    : prog disp bool :=
  start ← steady_now;
  retry_loop fuel h batch_events (required_retry_initial_backoff_ cfg) start.

(** [if (!fatal_triggered_ && on_fatal_) { fatal_triggered_ = true; on_fatal_(); }] *)
Definition trigger_fatal : prog disp unit := modify (λ d,
  if negb (fatal_triggered_ d) && on_fatal_ cfg then
    {| sinks_state := sinks_state d; now_ns := now_ns d; clock_reads := clock_reads d;
       fatal_triggered_ := true; confirm_calls := confirm_calls d;
       fatal_calls := S (fatal_calls d); attempts := attempts d |}
  else d).

Fixpoint dispatch (fuel : nat) (batch_events : list ChangeEvent) (sinks : list SinkHandle)
    : prog disp bool :=
  match sinks with
  | [] => mret true
  | h :: sinks =>
      ok ← dispatch_with_retry fuel h batch_events;
      if (ok : bool) then dispatch fuel batch_events sinks
      else trigger_fatal ;; mret false
  end.

(** The iteration order of the [unordered_map] is some order; the callbacks
    of distinct sources are independent. *)
Definition notify_confirmed (batch_max_lsn : gmap SourceId Z) : prog disp unit := modify (λ d,
  if negb (on_confirmed_ cfg) then d
  else {| sinks_state := sinks_state d; now_ns := now_ns d; clock_reads := clock_reads d;
          fatal_triggered_ := fatal_triggered_ d;
          confirm_calls := confirm_calls d ++ map_to_list batch_max_lsn;
          fatal_calls := fatal_calls d; attempts := attempts d |}).

(** [auto& lsn = batch_max_lsn[id]; lsn = std::max(lsn, job.ev.commit_lsn);] *)
Definition note_lsn (m : gmap SourceId Z) (j : EventJob) : gmap SourceId Z :=
  <[source_id j := Z.max (default 0%Z (m !! source_id j)) (commit_lsn (ev j))]> m.

(** ** The worker thread *)

(** Where the worker is: at the head of the loop of [process_jobs], collecting
    a batch, about to dispatch it, inside [drain_remaining], or finished. *)
Inductive WorkerPc :=
| Looping
| Filling (batch_events : list ChangeEvent) (batch_max_lsn : gmap SourceId Z)
    (sinks : list SinkHandle) (batch_deadline : Z)
| Dispatching (batch_events : list ChangeEvent) (batch_max_lsn : gmap SourceId Z)
    (sinks : list SinkHandle)
| Draining (batch_events : list ChangeEvent) (batch_max_lsn : gmap SourceId Z)
    (sinks : list SinkHandle)
| Exited.

(** The queue and the flag shared between the threads, the worker, and the
    history the theorems speak about: the jobs posted, the batches whose
    dispatch succeeded, the jobs of failed batches, and those in hand. *)
Record System := {
  queue_ : list EventJob;
  running_ : bool;
  pc : WorkerPc;
  disp_of : disp;
  posted : list EventJob;
  delivered : list (list EventJob);
  failed : list EventJob;
  in_hand : list EventJob;
}.

(** After the loop of [process_jobs]: [if (!fatal_triggered_) drain_remaining();] *)
Definition exit_loop (d : disp) : WorkerPc :=
  if fatal_triggered_ d then Exited else Draining [] ∅ [].

(** The loop head: a timeout goes round again, a job starts a batch. *)
Definition poll (st : System) : System :=
  if running_ st then
    match queue_ st with
    | [] => st
    | j :: q =>
        let '(t, d) := steady_now (disp_of st) in
        let deadline := (now_ns d + batch_timeout_ cfg * ns_per_ms)%Z in
        {| queue_ := q; running_ := running_ st;
           pc := Filling [ev j] {[source_id j := commit_lsn (ev j)]} (job_sinks j) deadline;
           disp_of := d; posted := posted st; delivered := delivered st;
           failed := failed st; in_hand := [j] |}
    end
  else {| queue_ := queue_ st; running_ := running_ st; pc := exit_loop (disp_of st);
          disp_of := disp_of st; posted := posted st; delivered := delivered st;
          failed := failed st; in_hand := in_hand st |}.

Definition set_pc (pc' : WorkerPc) (st : System) : System :=
  {| queue_ := queue_ st; running_ := running_ st; pc := pc'; disp_of := disp_of st;
     posted := posted st; delivered := delivered st; failed := failed st;
     in_hand := in_hand st |}.

Definition set_disp (d : disp) (st : System) : System :=
  {| queue_ := queue_ st; running_ := running_ st; pc := pc st; disp_of := d;
     posted := posted st; delivered := delivered st; failed := failed st;
     in_hand := in_hand st |}.

(** One turn of the loop that collects a batch. *)
Definition fill (b : list ChangeEvent) (lsns : gmap SourceId Z) (sinks : list SinkHandle)
    (deadline : Z) (st : System) : System :=
  if (Z.of_nat (length b) <? max_batch_size_ cfg)%Z then
    let d := (steady_now (disp_of st)).2 in
    if (deadline <=? now_ns d)%Z then set_pc (Dispatching b lsns sinks) (set_disp d st)
    else match queue_ st with
         | [] => set_pc (Dispatching b lsns sinks) (set_disp d st)
         | j :: q =>
             {| queue_ := q; running_ := running_ st;
                pc := Filling (b ++ [ev j]) (note_lsn lsns j) sinks deadline;
                disp_of := d; posted := posted st; delivered := delivered st;
                failed := failed st; in_hand := in_hand st ++ [j] |}
         end
  else set_pc (Dispatching b lsns sinks) st.

(** The batch in hand went through all sinks, or did not. *)
Definition settle (ok : bool) (pc' : WorkerPc) (d : disp) (st : System) : System :=
  {| queue_ := queue_ st; running_ := running_ st; pc := pc'; disp_of := d; posted := posted st;
     delivered := if ok then delivered st ++ [in_hand st] else delivered st;
     failed := if ok then failed st else failed st ++ in_hand st; in_hand := [] |}.

(** [if (!dispatch(batch_events, sinks)) break; notify_confirmed(batch_max_lsn);] *)
Definition dispatch_batch (fuel : nat) (b : list ChangeEvent) (lsns : gmap SourceId Z)
    (sinks : list SinkHandle) (st : System) : option System :=
  match dispatch fuel b sinks (disp_of st) with
  | (Ret true, d) => Some (settle true Looping (notify_confirmed lsns d).2 st)
  | (Ret false, d) => Some (settle false (exit_loop d) d st)
  | _ => None
  end.

(** The lambda [flush] of [drain_remaining]; [again] and [stop] are where the
    caller goes on success and on failure. *)
Definition flush (fuel : nat) (b : list ChangeEvent) (lsns : gmap SourceId Z)
    (sinks : list SinkHandle) (again stop : WorkerPc) (st : System) : option System :=
  match b with
  | [] => Some (set_pc again st)
  | _ =>
      match dispatch fuel b sinks (disp_of st) with
      | (Ret true, d) => Some (settle true again (notify_confirmed lsns d).2 st)
      | (Ret false, d) => Some (settle false stop d st)
      | _ => None
      end
  end.

Definition drain (fuel : nat) (b : list ChangeEvent) (lsns : gmap SourceId Z)
    (sinks : list SinkHandle) (st : System) : option System :=
  match queue_ st with
  | [] => flush fuel b lsns sinks Exited Exited st
  | j :: q =>
      let sinks := match sinks with [] => job_sinks j | _ => sinks end in
      let lsns := note_lsn lsns j in
      let b := b ++ [ev j] in
      let st := {| queue_ := q; running_ := running_ st; pc := Draining b lsns sinks;
                   disp_of := disp_of st; posted := posted st; delivered := delivered st;
                   failed := failed st; in_hand := in_hand st ++ [j] |} in
      if (max_batch_size_ cfg <=? Z.of_nat (length b))%Z
      then flush fuel b lsns sinks (Draining [] ∅ sinks) Exited st
      else Some st
  end.

(** One step of the worker thread; [None] when it has finished, or when a
    sink's behaviour is undefined. *)
Definition worker_step (fuel : nat) (st : System) : option System :=
  match pc st with
  | Looping => Some (poll st)
  | Filling b lsns sinks deadline => Some (fill b lsns sinks deadline st)
  | Dispatching b lsns sinks => dispatch_batch fuel b lsns sinks st
  | Draining b lsns sinks => drain fuel b lsns sinks st
  | Exited => None
  end.

(** [post_job], called by the event loop. *)
Definition post_job (j : EventJob) (st : System) : System :=
  {| queue_ := queue_ st ++ [j]; running_ := running_ st; pc := pc st; disp_of := disp_of st;
     posted := posted st ++ [j]; delivered := delivered st; failed := failed st;
     in_hand := in_hand st |}.

(** The destructor: [running_ = false], then it joins the worker. *)
Definition request_stop (st : System) : System :=
  {| queue_ := queue_ st; running_ := false; pc := pc st; disp_of := disp_of st;
     posted := posted st; delivered := delivered st; failed := failed st;
     in_hand := in_hand st |}.

(** The interleavings of the threads. *)
Inductive step (fuel : nat) : System → System → Prop :=
| step_post j st : step fuel st (post_job j st)
| step_stop st : step fuel st (request_stop st)
| step_worker st st' : worker_step fuel st = Some st' → step fuel st st'.

Definition initial (w : W) (t : Z) : System :=
  {| queue_ := []; running_ := true; pc := Looping;
     disp_of := {| sinks_state := w; now_ns := t; clock_reads := 0; fatal_triggered_ := false;
                   confirm_calls := []; fatal_calls := 0; attempts := [] |};
     posted := []; delivered := []; failed := []; in_hand := [] |}.
End dispatcher.

(** ** Retries *)

Section retry.
Context {W : Type} `{EventSink W} (cfg : DispatcherConfig) (jitter : nat → Z).

(** A sink call returns or throws; it has no undefined behaviour. *)
Definition sink_defined (s : SinkRef) : Prop :=
  ∀ b w, match (call_batch s b w).1 with Ret _ | Throw _ => True | _ => False end.

(** What dispatching leaves alone, and that the log of attempts only grows. *)
Definition dispatch_frame (d d' : Dispatcher W) : Prop :=
  fatal_triggered_ d' = fatal_triggered_ d ∧ confirm_calls d' = confirm_calls d ∧
  fatal_calls d' = fatal_calls d ∧ attempts d `prefix_of` attempts d'.

#[export] Instance dispatch_frame_preorder : PreOrder dispatch_frame.
Proof.
  split; [by intros d; repeat split|].
  intros d1 d2 d3 (?&?&?&?) (?&?&?&?). split_and!; try congruence. by etrans.
Qed.

(** The three things one turn of the retry loop can do with a call. *)
Lemma retry_loop_unfold fuel h b backoff start d r w :
  call_batch (sink h) b (sinks_state d) = (r, w) →
  let d1 := (call_sink h b d).2 in
  retry_loop cfg jitter (S fuel) h b backoff start d =
  match r with
  | Ret _ => (Ret true, d1)
  | Throw e =>
      match on_batch_error cfg jitter h backoff start e d1 with
      | (Ret (inl ok), d2) => (Ret ok, d2)
      | (Ret (inr backoff'), d2) => retry_loop cfg jitter fuel h b backoff' start d2
      | (Throw e, d2) => (Throw e, d2)
      | (UB e, d2) => (UB e, d2)
      | (OutOfFuel, d2) => (OutOfFuel, d2)
      end
  | UB e => (UB e, d1)
  | OutOfFuel => (OutOfFuel, d1)
  end.
Proof.
  intros Hc d1. subst d1. simpl. unfold try_catch, mbind, prog_bind, call_sink.
  rewrite Hc. simpl. destruct r; simpl; try done.
  by destruct (on_batch_error _ _ _ _ _ _ _) as [[[]| | |] ?].
Qed.

(** After a failed call to a required sink: give up, or sleep and go on. *)
Lemma on_batch_error_required h backoff start e d :
  required h = true →
  let t := (now_ns d + jitter (clock_reads d))%Z in
  let ceiling := (required_retry_ceiling_ cfg * ns_per_ms)%Z in
  let nap := Z.min (Z.quot (ceiling - (t - start)) ns_per_ms) backoff in
  ∃ d1, dispatch_frame d d1 ∧ attempts d1 = attempts d ∧
    now_ns d1 = (t + (if ceiling <=? t - start then 0 else Z.max 0 nap * ns_per_ms))%Z ∧
    on_batch_error cfg jitter h backoff start e d =
      (if ceiling <=? t - start then Ret (inl false)
       else if 2 ^ 63 <=? backoff * 2 then UB "signed overflow: backoff *= 2"
       else Ret (inr (backoff * 2)), d1)%Z.
Proof.
  intros Hreq t ceiling nap. unfold on_batch_error. rewrite Hreq. simpl.
  unfold mbind, prog_bind, steady_now, sleep_for, modify. simpl. fold t ceiling.
  destruct (ceiling <=? t - start)%Z.
  - refine (ex_intro _ _ (conj _ (conj _ (conj _ eq_refl)))); repeat split; simpl; lia || done.
  - fold nap. destruct (2 ^ 63 <=? backoff * 2)%Z;
      refine (ex_intro _ _ (conj _ (conj _ (conj _ eq_refl)))); repeat split; done.
Qed.

(** One turn against a required sink: the call went through, or the clock has
    moved on by at least [g] and the loop gives up or sleeps and goes round. *)
Lemma retry_turn g h b backoff start fuel d :
  required h = true → sink_defined (sink h) → (∀ n, g ≤ jitter n)%Z →
  let ceiling := (required_retry_ceiling_ cfg * ns_per_ms)%Z in
  (∃ d', retry_loop cfg jitter (S fuel) h b backoff start d = (Ret true, d')) ∨
  ∃ t d1, (now_ns d + g ≤ t)%Z ∧
    now_ns d1 = (t + if ceiling <=? t - start then 0
      else Z.max 0 (Z.min (Z.quot (ceiling - (t - start)) ns_per_ms) backoff) * ns_per_ms)%Z ∧
    retry_loop cfg jitter (S fuel) h b backoff start d =
      if (ceiling <=? t - start)%Z then (Ret false, d1)
      else if (2 ^ 63 <=? backoff * 2)%Z then (UB "signed overflow: backoff *= 2", d1)
      else retry_loop cfg jitter fuel h b (backoff * 2) start d1.
Proof.
  intros Hreq Hdef Hj ceiling.
  destruct (call_batch (sink h) b (sinks_state d)) as [r w] eqn:Hc.
  rewrite (retry_loop_unfold _ _ _ _ _ _ _ _ Hc).
  pose proof (Hdef b (sinks_state d)) as Hr. rewrite Hc in Hr. simpl in Hr.
  destruct r as [u|e|?|]; [by eauto| |done|done]. right.
  destruct (on_batch_error_required h backoff start e (call_sink h b d).2 Hreq)
    as (d1 & _ & _ & Ht & ->).
  assert (now_ns (call_sink h b d).2 = now_ns d ∧ clock_reads (call_sink h b d).2 = clock_reads d)
    as [En Ec] by (unfold call_sink; by rewrite Hc).
  rewrite En, Ec in *. cbv zeta in *. eexists _, d1. split; [|split; [exact Ht|]].
  - pose proof (Hj (clock_reads d)). lia.
  - fold ceiling. destruct (ceiling <=? _)%Z; [done|]. by destruct (2 ^ 63 <=? _)%Z.
Qed.

Section bounded.
Context (g : Z) (h : SinkHandle) (b : list ChangeEvent) (start : Z).
Context (Hreq : required h = true) (Hdef : sink_defined (sink h)).
Context (Hg : (1 ≤ g)%Z) (Hj : ∀ n, (g ≤ jitter n)%Z).

(** Near the ceiling every turn costs at least the clock's progress [g]. *)
Lemma retry_loop_spin m fuel backoff d :
  m < fuel → (0 < backoff)%Z → (backoff * 2 ^ Z.of_nat m < 2 ^ 63)%Z →
  (start + required_retry_ceiling_ cfg * ns_per_ms - Z.of_nat m * g ≤ now_ns d)%Z →
  ∃ ok d', retry_loop cfg jitter fuel h b backoff start d = (Ret ok, d').
Proof.
  revert fuel backoff d. induction m as [|m IH]; intros [|fuel] backoff d Hf Hb Hov Hnow;
    try lia;
    destruct (retry_turn g h b backoff start fuel d Hreq Hdef Hj) as [[d' ->]|(t & d1 & Ht & Hd1 & ->)];
    eauto; cbv zeta in *.
  - rewrite (proj2 (Z.leb_le _ _)) by lia. eauto.
  - destruct (_ <=? t - start)%Z eqn:Ece; [by eauto|].
    rewrite Nat2Z.inj_succ, Z.pow_succ_r in Hov by lia.
    pose proof (Z.pow_pos_nonneg 2 (Z.of_nat m)).
    rewrite (proj2 (Z.leb_gt _ _)) by nia. apply IH; [lia|lia|nia|].
    rewrite Hd1. unfold ns_per_ms in *.
    match goal with |- (_ ≤ _ + Z.max 0 ?z * _)%Z => pose proof (Z.le_max_l 0 z) end. nia.
Qed.

(** Turns spent before the ceiling is within one millisecond: the backoffs
    double, so [k] of them reach a ceiling of at most [backoff * (2^k - 1)]. *)
Lemma retry_loop_backoff m k backoff d :
  (ns_per_ms ≤ Z.of_nat m * g)%Z →
  (0 < backoff)%Z → (backoff * 2 ^ Z.of_nat (k + S m) < 2 ^ 63)%Z →
  (start + (required_retry_ceiling_ cfg - backoff * (2 ^ Z.of_nat k - 1)) * ns_per_ms ≤ now_ns d)%Z →
  ∃ ok d', retry_loop cfg jitter (S (k + S m)) h b backoff start d = (Ret ok, d').
Proof.
  intros Hm. revert backoff d. induction k as [|k IH]; intros backoff d Hb Hov Hnow.
  - simpl Nat.add in *. apply (retry_loop_spin m); [lia|done| |].
    { rewrite Nat2Z.inj_succ, Z.pow_succ_r in Hov by lia.
      pose proof (Z.pow_pos_nonneg 2 (Z.of_nat m)). nia. }
    simpl in Hnow. nia.
  - destruct (retry_turn g h b backoff start (S k + S m) d Hreq Hdef Hj)
      as [[d' ->]|(t & d1 & Ht & Hd1 & ->)]; eauto; cbv zeta in *.
    destruct (_ <=? t - start)%Z eqn:Ece; [by eauto|]. apply Z.leb_gt in Ece.
    rewrite Nat.add_succ_l, Nat2Z.inj_succ, Z.pow_succ_r in Hov by lia.
    rewrite Nat2Z.inj_succ, Z.pow_succ_r in Hnow by lia.
    pose proof (Z.pow_pos_nonneg 2 (Z.of_nat (k + S m))).
    rewrite (proj2 (Z.leb_gt _ _)) by nia.
    set (rem := ((required_retry_ceiling_ cfg * ns_per_ms - (t - start)) ÷ ns_per_ms)%Z) in *.
    assert (rem = (required_retry_ceiling_ cfg * ns_per_ms - (t - start)) / ns_per_ms)%Z as Hrem
      by (unfold rem; apply Z.quot_div_nonneg; unfold ns_per_ms in *; lia).
    pose proof (Z.div_mod (required_retry_ceiling_ cfg * ns_per_ms - (t - start)) ns_per_ms
      ltac:(done)) as Hdm.
    pose proof (Z.mod_pos_bound (required_retry_ceiling_ cfg * ns_per_ms - (t - start)) ns_per_ms
      ltac:(done)) as Hmod.
    rewrite <- Hrem in Hdm. clearbody rem.
    assert (0 ≤ rem)%Z by (unfold ns_per_ms in *; lia).
    destruct (decide (rem < backoff)%Z) as [Hlt|Hge].
    + rewrite Z.min_l, Z.max_r in Hd1 by lia.
      apply (retry_loop_spin m); [lia|lia| |unfold ns_per_ms in *; lia].
      rewrite Nat2Z.inj_add, Nat2Z.inj_succ, Z.pow_add_r, Z.pow_succ_r in Hov by lia.
      pose proof (Z.pow_pos_nonneg 2 (Z.of_nat m)). pose proof (Z.pow_pos_nonneg 2 (Z.of_nat k)).
      nia.
    + rewrite Z.min_r, Z.max_r in Hd1 by lia. apply IH; [lia|nia|].
      rewrite Hd1. unfold ns_per_ms in *. nia.
Qed.
End bounded.

(** What a run of the loop that returned has done: failed attempts, then a
    last one whose success is the answer when the sink is required. *)
Definition retry_log (h : SinkHandle) (b : list ChangeEvent) (n : nat) (last : bool)
    : list (SinkRef * list ChangeEvent * bool) :=
  replicate n (sink h, b, false) ++ [(sink h, b, last)].

Lemma retry_loop_spec fuel h b backoff start d ok d' :
  retry_loop cfg jitter fuel h b backoff start d = (Ret ok, d') →
  dispatch_frame d d' ∧ ∃ n r,
    attempts d' = attempts d ++ retry_log h b n r ∧ n < fuel ∧
    (if required h then ok = r else n = 0 ∧ ok = true) ∧
    (ok = false → start + required_retry_ceiling_ cfg * ns_per_ms ≤ now_ns d')%Z.
Proof.
  revert backoff d. induction fuel as [|fuel IH]; intros backoff d; [done|].
  destruct (call_batch (sink h) b (sinks_state d)) as [r w] eqn:Hc.
  rewrite (retry_loop_unfold _ _ _ _ _ _ _ _ Hc).
  assert (dispatch_frame d (call_sink h b d).2 ∧
    attempts (call_sink h b d).2 = attempts d ++ [(sink h, b, is_ret r)]) as [Hf Ha].
  { unfold call_sink. rewrite Hc. repeat split; try done. by apply prefix_app_r. }
  destruct r as [[]|e| |]; simpl in Ha; try done.
  - intros [= <- <-]. split; [done|]. exists 0, true. rewrite Ha.
    split_and!; [done|lia| |done]. by destruct (required h).
  - destruct (required h) eqn:Hreq.
    + destruct (on_batch_error_required h backoff start e (call_sink h b d).2 Hreq)
        as (d1 & Hf1 & Ha1 & Hn1 & ->).
      destruct (_ <=? _ - start)%Z eqn:Ece.
      * intros [= <- <-]. split; [by etrans|]. exists 0, false. rewrite Ha1, Ha.
        apply Z.leb_le in Ece. split_and!; try done; [lia|]. intros _. lia.
      * destruct (2 ^ 63 <=? _)%Z; [done|]. intros (Hf2 & n & r & Ha2 & Hn & Hr & Hc2)%IH.
        split; [by do 2 etrans|]. exists (S n), r. split_and!; try done; [|lia].
        rewrite Ha2, Ha1, Ha. unfold retry_log. simpl. by rewrite <- !(assoc_L (++)).
    + unfold on_batch_error. rewrite Hreq. simpl. intros [= <- <-]. split; [done|].
      exists 0, false. rewrite Ha. split_and!; try done. lia.
Qed.

Lemma dispatch_with_retry_spec fuel h b d ok d' :
  dispatch_with_retry cfg jitter fuel h b d = (Ret ok, d') →
  dispatch_frame d d' ∧ ∃ n r,
    attempts d' = attempts d ++ retry_log h b n r ∧ n < fuel ∧
    (if required h then ok = r else n = 0 ∧ ok = true) ∧
    (ok = false → now_ns d + jitter (clock_reads d) + required_retry_ceiling_ cfg * ns_per_ms
                  ≤ now_ns d')%Z.
Proof.
  unfold dispatch_with_retry, mbind, prog_bind. simpl.
  intros (Hf & n & r & Ha & Hs)%retry_loop_spec. split; [exact Hf|]. by exists n, r.
Qed.

Lemma retry_log_success h b n : (sink h, b, true) ∈ retry_log h b n true.
Proof. apply elem_of_app. right. by apply list_elem_of_singleton. Qed.
End retry.

(** However the sink behaves, the loop comes to an end. *)
Lemma dispatch_with_retry_ends {W} `{EventSink W} (cfg : DispatcherConfig) (jitter : nat → Z)
    (h : SinkHandle) (b : list ChangeEvent) (d : Dispatcher W) (k m : nat) (g : Z) :
  sink_defined (sink h) →
  (1 ≤ g)%Z → (∀ n, g ≤ jitter n)%Z → (ns_per_ms ≤ Z.of_nat m * g)%Z →
  (0 < required_retry_initial_backoff_ cfg)%Z →
  (required_retry_ceiling_ cfg ≤ required_retry_initial_backoff_ cfg * (2 ^ Z.of_nat k - 1))%Z →
  (required_retry_initial_backoff_ cfg * 2 ^ Z.of_nat (k + S m) < 2 ^ 63)%Z →
  ∃ ok d', dispatch_with_retry cfg jitter (S (k + S m)) h b d = (Ret ok, d').
Proof.
  intros Hdef Hg Hj Hm Hb Hk Hov. unfold dispatch_with_retry, mbind, prog_bind. cbn [steady_now].
  destruct (required h) eqn:Hreq.
  - apply retry_loop_backoff with (g := g); try done. simpl. unfold ns_per_ms. nia.
  - set (d1 := {| sinks_state := _ |}).
    destruct (call_batch (sink h) b (sinks_state d1)) as [r w] eqn:Hc.
    rewrite (retry_loop_unfold _ _ _ _ _ _ _ _ _ _ Hc).
    pose proof (Hdef b (sinks_state d1)) as Hr. rewrite Hc in Hr.
    destruct r; try done; [by eauto|]. unfold on_batch_error. rewrite Hreq. by simpl; eauto.
Qed.

(** The retry loop of [dispatch_with_retry] ends, without overflowing its
    backoff, and says the truth: with an initial backoff that reaches the
    ceiling in [k] doublings and a clock that moves on by at least [g]
    nanoseconds between two readings, at most [k + 10^6/g + 3] calls are made;
    [true] means that a required sink's last call returned normally (a
    best-effort sink is called exactly once), and [false] means that the sink
    is required, that every call threw and that the ceiling has passed. *)
Theorem dispatch_with_retry_total {W} `{EventSink W} (cfg : DispatcherConfig) (jitter : nat → Z)
    (h : SinkHandle) (b : list ChangeEvent) (d : Dispatcher W) (k m : nat) (g : Z) :
  sink_defined (sink h) →
  (1 ≤ g)%Z → (∀ n, g ≤ jitter n)%Z → (ns_per_ms ≤ Z.of_nat m * g)%Z →
  (0 < required_retry_initial_backoff_ cfg)%Z →
  (required_retry_ceiling_ cfg ≤ required_retry_initial_backoff_ cfg * (2 ^ Z.of_nat k - 1))%Z →
  (required_retry_initial_backoff_ cfg * 2 ^ Z.of_nat (k + S m) < 2 ^ 63)%Z →
  ∃ ok d' n r,
    dispatch_with_retry cfg jitter (S (k + S m)) h b d = (Ret ok, d') ∧
    attempts d' = attempts d ++ retry_log h b n r ∧ n < S (k + S m) ∧
    (if required h then ok = r else n = 0 ∧ ok = true) ∧
    (ok = false → now_ns d + jitter (clock_reads d) + required_retry_ceiling_ cfg * ns_per_ms
                  ≤ now_ns d')%Z.
Proof.
  intros Hdef Hg Hj Hm Hb Hk Hov.
  destruct (dispatch_with_retry_ends cfg jitter h b d k m g) as (ok & d' & E); [done..|].
  exists ok, d'. destruct (dispatch_with_retry_spec _ _ _ _ _ _ _ _ E) as (_ & n & r & Hs).
  by exists n, r.
Qed.

(** The policy of [main]: 500 ms doubling up to one minute, a clock that moves
    by 25 microseconds per turn, a sink that always throws. *)
Lemma dispatch_with_retry_total_witness :
  let S := {| call_batch := λ _ _, throw "down"; sink_default_required := λ _, true |}
           : EventSink unit in
  ∃ ok d' n r,
    dispatch_with_retry (main_dispatcher 1 50) (λ _, 25000%Z) 49 (handle_with 0 true) []
      (disp_of (initial tt 0)) = (Ret ok, d') ∧
    attempts d' = [] ++ retry_log (handle_with 0 true) [] n r ∧ n < 49 ∧ ok = r ∧
    (ok = false → 0 + 25000 + 60000 * ns_per_ms ≤ now_ns d')%Z.
Proof.
  intros S. eapply (dispatch_with_retry_total (main_dispatcher 1 50) (λ _, 25000%Z)
    (handle_with 0 true) [] (disp_of (initial tt 0)) 7 40 25000%Z);
    first (by intros b w); vm_compute; intros; discriminate || reflexivity || done.
Defined.

(** ** Dispatching a batch to all sinks *)

Section dispatch.
Context {W : Type} `{EventSink W} (cfg : DispatcherConfig) (jitter : nat → Z).

(** Every required sink of the list took the batch. *)
Definition all_required_took (d : Dispatcher W) (sinks : list SinkHandle) (b : list ChangeEvent) : Prop :=
  ∀ h, h ∈ sinks → required h = true → (sink h, b, true) ∈ attempts d.

Lemma dispatch_true fuel b sinks d d' :
  dispatch cfg jitter fuel b sinks d = (Ret true, d') →
  dispatch_frame d d' ∧ all_required_took d' sinks b.
Proof.
  revert d. induction sinks as [|h sinks IH]; intros d; simpl.
  - intros [= <-]. split; [done|]. by intros h Hh%elem_of_nil.
  - unfold mbind, prog_bind.
    destruct (dispatch_with_retry _ _ _ _ _ _) as [[ok| | |] d1] eqn:E; try done.
    apply dispatch_with_retry_spec in E as (Hf & n & r & Ha & _ & Hr & _).
    destruct ok; [|done]. intros (Hf2 & Hall)%IH. split; [by etrans|].
    intros h' [->|Hin]%elem_of_cons Hreq; [|by apply Hall].
    rewrite Hreq in Hr. subst r. destruct Hf2 as (_ & _ & _ & Hpre).
    apply (elem_of_prefix (attempts d1)); [|done].
    rewrite Ha. apply elem_of_app. right. apply retry_log_success.
Qed.

(** A failed dispatch has raised the fatal callback, once and for all. *)
Lemma dispatch_false fuel b sinks d d' :
  dispatch cfg jitter fuel b sinks d = (Ret false, d') →
  confirm_calls d' = confirm_calls d ∧ attempts d `prefix_of` attempts d' ∧
  (if on_fatal_ cfg && negb (fatal_triggered_ d)
   then fatal_triggered_ d' = true ∧ fatal_calls d' = S (fatal_calls d)
   else fatal_triggered_ d' = fatal_triggered_ d ∧ fatal_calls d' = fatal_calls d).
Proof.
  revert d. induction sinks as [|h sinks IH]; intros d; simpl; [done|].
  unfold mbind, prog_bind.
  destruct (dispatch_with_retry _ _ _ _ _ _) as [[ok| | |] d1] eqn:E; try done.
  apply dispatch_with_retry_spec in E as ((Hft & Hcc & Hfc & Hat) & _).
  destruct ok.
  - intros (Hcc2 & Hat2 & Hcase)%IH. rewrite Hft, Hfc in Hcase.
    split_and!; [congruence|by etrans|done].
  - unfold trigger_fatal, modify. simpl. intros [= <-]. rewrite Hft, andb_comm.
    destruct (on_fatal_ cfg && negb (fatal_triggered_ d)) eqn:Ec; rewrite andb_comm in Ec;
      rewrite ?Ec; simpl; split_and!; congruence.
Qed.

(** ** The invariant of the whole dispatcher *)

Context (SL : list SinkHandle).

(** Every job carries the one list of sinks built at startup. *)
Definition job_ok (j : EventJob) : Prop := job_sinks j = SL ∧ (0 ≤ commit_lsn (ev j))%Z.

Definition max_lsns (js : list EventJob) : gmap SourceId Z := foldl note_lsn ∅ js.

Definition batch_bound : nat := Nat.max 1 (Z.to_nat (max_batch_size_ cfg)).

(** What a batch in the making is made of. *)
Definition batch_ok (js : list EventJob) (b : list ChangeEvent) (lsns : gmap SourceId Z)
    (sinks : list SinkHandle) : Prop :=
  b = ev <$> js ∧ lsns = max_lsns js ∧ (js ≠ [] → sinks = SL).

Definition pc_ok (st : @System W) : Prop :=
  match pc st with
  | Looping => in_hand st = [] ∧ failed st = []
  | Filling b lsns sinks _ | Dispatching b lsns sinks =>
      batch_ok (in_hand st) b lsns sinks ∧ in_hand st ≠ [] ∧
      length (in_hand st) ≤ batch_bound ∧ failed st = []
  | Draining b lsns sinks =>
      batch_ok (in_hand st) b lsns sinks ∧ (sinks = [] ∨ sinks = SL) ∧
      length (in_hand st) < batch_bound ∧ failed st = []
  | Exited => in_hand st = [] ∧ (failed st = [] → fatal_calls (disp_of st) = 0)
  end.

Record inv (st : @System W) : Prop := {
  inv_fifo : posted st = concat (delivered st) ++ failed st ++ in_hand st ++ queue_ st;
  inv_pc : pc_ok st;
  inv_fatal : fatal_triggered_ (disp_of st) = bool_decide (fatal_calls (disp_of st) = 1);
  inv_once : fatal_calls (disp_of st) ≤ 1;
  inv_raised : failed st ≠ [] → fatal_calls (disp_of st) = 1;
  inv_live : fatal_calls (disp_of st) = 1 → pc st = Exited;
  inv_confirmed : confirm_calls (disp_of st) =
    if on_confirmed_ cfg then concat ((λ js, map_to_list (max_lsns js)) <$> delivered st) else [];
  inv_took : ∀ js, js ∈ delivered st → all_required_took (disp_of st) SL (ev <$> js);
  inv_sizes : ∀ js, js ∈ delivered st → 1 ≤ length js ≤ batch_bound;
}.

Lemma max_lsns_snoc js j : max_lsns (js ++ [j]) = note_lsn (max_lsns js) j.
Proof. unfold max_lsns. by rewrite foldl_app. Qed.

Lemma max_lsns_first j : job_ok j → {[source_id j := commit_lsn (ev j)]} = max_lsns [j].
Proof.
  intros [_ Hl]. unfold max_lsns, note_lsn. simpl. rewrite lookup_empty. simpl.
  by rewrite Z.max_r.
Qed.

Lemma batch_ok_snoc js b lsns sinks j :
  batch_ok js b lsns sinks → sinks = SL →
  batch_ok (js ++ [j]) (b ++ [ev j]) (note_lsn lsns j) sinks.
Proof.
  intros (-> & -> & _) Hs. split_and!; [by rewrite fmap_app|by rewrite max_lsns_snoc|done].
Qed.

Lemma took_mono d d' sinks b :
  attempts d `prefix_of` attempts d' → all_required_took d sinks b → all_required_took d' sinks b.
Proof. intros Hp Ht h Hh Hr. eapply elem_of_prefix; [by apply Ht|done]. Qed.

Lemma notify_confirmed_frame lsns (d : Dispatcher W) :
  let d' := (notify_confirmed cfg lsns d).2 in
  attempts d' = attempts d ∧ fatal_triggered_ d' = fatal_triggered_ d ∧
  fatal_calls d' = fatal_calls d ∧
  confirm_calls d' = confirm_calls d ++ if on_confirmed_ cfg then map_to_list lsns else [].
Proof. simpl. destruct (on_confirmed_ cfg); simpl; by rewrite ?app_nil_r. Qed.

(** Putting a batch on the record of delivered ones, or of failed ones. *)
Lemma inv_delivered fuel b lsns st d pc' :
  inv st → pc st ≠ Exited → failed st = [] →
  batch_ok (in_hand st) b lsns SL → 1 ≤ length (in_hand st) ≤ batch_bound →
  dispatch cfg jitter fuel b SL (disp_of st) = (Ret true, d) →
  pc_ok (settle true pc' (notify_confirmed cfg lsns d).2 st) →
  inv (settle true pc' (notify_confirmed cfg lsns d).2 st).
Proof.
  intros [Hfifo _ Hft Honce Hrai Hlive Hcc Htook Hsz] Hpc Hfail (Hb & Hl & _) Hlen Hd Hpc'.
  apply dispatch_true in Hd as ((Eft & Ecc & Efc & Hpre) & Hall).
  assert (fatal_calls d ≠ 1) as Hn1 by (rewrite Efc; intros ?; auto).
  destruct (notify_confirmed_frame lsns d) as (Ea & Et & Ec & Enc).
  set (d2 := (notify_confirmed cfg lsns d).2) in *. clearbody d2.
  constructor; simpl; rewrite ?Ec, ?Et.
  - rewrite Hfifo, concat_app, Hfail. simpl. by rewrite !app_nil_r, <- (assoc_L (++)).
  - done.
  - by rewrite Efc, Eft.
  - by rewrite Efc.
  - by rewrite Hfail.
  - done.
  - rewrite Enc, Ecc, Hcc. destruct (on_confirmed_ cfg); [|done].
    rewrite fmap_app, concat_app. simpl. by rewrite app_nil_r, Hl.
  - intros js [Hin| ->%list_elem_of_singleton]%elem_of_app; unfold all_required_took; rewrite Ea.
    + by apply (took_mono (disp_of st) d), Htook.
    + rewrite <- Hb. exact Hall.
  - intros js [Hin| ->%list_elem_of_singleton]%elem_of_app; auto.
Qed.

Lemma inv_failed fuel b st d :
  on_fatal_ cfg = true → inv st → pc st ≠ Exited → failed st = [] → in_hand st ≠ [] →
  dispatch cfg jitter fuel b SL (disp_of st) = (Ret false, d) →
  fatal_triggered_ d = true ∧ inv (settle false Exited d st).
Proof.
  intros Hof [Hfifo _ Hft Honce Hrai Hlive Hcc Htook Hsz] Hpc Hfail Hne Hd.
  apply dispatch_false in Hd as (Ecc & Hpre & Hcase).
  assert (fatal_calls (disp_of st) = 0) as Hf0.
  { destruct (decide (fatal_calls (disp_of st) = 1)) as [E|E]; [by apply Hlive in E|lia]. }
  rewrite Hf0 in *. simpl in Hft. rewrite Hof, Hft in Hcase. simpl in Hcase.
  destruct Hcase as [Et Ec]. split; [done|].
  constructor; simpl; rewrite ?Ec, ?Et; try done.
  - by rewrite Hfifo, Hfail.
  - split; [done|]. simpl. rewrite Hfail. by intros ?.
  - by rewrite Ecc.
  - intros js Hin. by eapply took_mono; [|apply Htook].
Qed.

(** Every step keeps the invariant, as long as the jobs posted share the one
    list of sinks and the fatal callback is installed. *)
Context (Hof : on_fatal_ cfg = true).

Lemma posted_job_ok st j q :
  inv st → Forall job_ok (posted st) → queue_ st = j :: q → job_ok j.
Proof.
  intros Hinv Hall Hq. rewrite (inv_fifo _ Hinv), Hq, !Forall_app, Forall_cons in Hall.
  naive_solver.
Qed.

(** Moving the head of the queue into the batch in hand. *)
Lemma inv_take st j q pc' d :
  inv st → queue_ st = j :: q → pc st ≠ Exited → pc' ≠ Exited → dispatch_frame (disp_of st) d →
  let st' := {| queue_ := q; running_ := running_ st; pc := pc'; disp_of := d;
                posted := posted st; delivered := delivered st; failed := failed st;
                in_hand := in_hand st ++ [j] |} in
  pc_ok st' → inv st'.
Proof.
  intros [Hfifo _ Hft Honce Hrai Hlive Hcc Htook Hsz] Hq Hpc Hpc2 (Et & Ecc & Ec & Hpre) st' Hpc'.
  constructor; simpl; rewrite ?Et, ?Ec, ?Ecc; try done.
  - by rewrite Hfifo, Hq, <- (assoc_L (++)).
  - intros E. by apply Hlive in E.
  - intros js Hin. by apply (took_mono (disp_of st) d), Htook.
Qed.

(** A step that only moves the worker on and lets time pass. *)
Lemma inv_move st pc' d :
  inv st → pc st ≠ Exited → dispatch_frame (disp_of st) d →
  pc_ok (set_pc pc' (set_disp d st)) → inv (set_pc pc' (set_disp d st)).
Proof.
  intros [Hfifo _ Hft Honce Hrai Hlive Hcc Htook Hsz] Hpc (Et & Ecc & Ec & Hpre) Hpc'.
  constructor; simpl; rewrite ?Et, ?Ec, ?Ecc; try done.
  - intros E. by apply Hlive in E.
  - intros js Hin. by apply (took_mono (disp_of st) d), Htook.
Qed.

Lemma steady_now_frame (d : Dispatcher W) : dispatch_frame d (steady_now jitter d).2.
Proof. by repeat split. Qed.

Lemma not_fatal st : inv st → pc st ≠ Exited → fatal_triggered_ (disp_of st) = false.
Proof.
  intros Hinv Hpc. rewrite (inv_fatal _ Hinv). apply bool_decide_false.
  intros E. by apply (inv_live _ Hinv) in E.
Qed.

Lemma inv_poll st : inv st → Forall job_ok (posted st) → pc st = Looping → inv (poll cfg jitter st).
Proof.
  intros Hinv Hall Hpc. unfold poll.
  pose proof (inv_pc _ Hinv) as Hp. unfold pc_ok in Hp. rewrite Hpc in Hp. destruct Hp as [Hh Hf].
  assert (1 ≤ batch_bound) by (unfold batch_bound; lia).
  assert (running_ st = true ∨ running_ st = false) as [Hr|Hr] by (destruct (running_ st); auto);
    rewrite Hr at 1.
  - destruct (queue_ st) as [|j q] eqn:Hq; [done|]. simpl.
    pose proof (posted_job_ok _ _ _ Hinv Hall Hq) as Hj.
    replace [j] with (in_hand st ++ [j]) by by rewrite Hh.
    eapply (inv_take st j q _ (steady_now jitter (disp_of st)).2);
      [done|done|by rewrite Hpc|done|apply steady_now_frame|].
    unfold pc_ok. simpl. rewrite Hh. split_and!; [|done|done|done].
    split_and!; [done|by apply max_lsns_first|]. by destruct Hj.
  - unfold exit_loop. rewrite not_fatal by (done || by rewrite Hpc).
    apply (inv_move st _ (disp_of st)); [done|by rewrite Hpc|done|].
    unfold pc_ok. simpl. rewrite Hh. split_and!; [|by left|simpl; lia|done].
    by repeat split.
Qed.

Lemma inv_fill st b lsns sinks dl :
  inv st → Forall job_ok (posted st) → pc st = Filling b lsns sinks dl →
  inv (fill cfg jitter b lsns sinks dl st).
Proof.
  intros Hinv Hall Hpc. unfold fill.
  pose proof (inv_pc _ Hinv) as Hp. unfold pc_ok in Hp. rewrite Hpc in Hp.
  assert (pc st ≠ Exited) as Hne by by rewrite Hpc.
  destruct Hp as (Hb & Hh & Hlen & Hf). destruct (_ <? _)%Z eqn:Elt.
  - assert (inv (set_pc (Dispatching b lsns sinks) (set_disp (steady_now jitter (disp_of st)).2 st)))
      by (apply (inv_move st); [done|done|apply steady_now_frame|done]).
    destruct (dl <=? _)%Z; [done|]. destruct (queue_ st) as [|j q] eqn:Hq; [done|].
    apply (inv_take st); try done.
    unfold pc_ok. simpl. pose proof Hb as (Eb & _ & Hs). split_and!; [| | |done].
    + apply batch_ok_snoc; auto.
    + by intros []%app_nil.
    + apply Z.ltb_lt in Elt. rewrite Eb, length_fmap in Elt. rewrite length_app. simpl.
      unfold batch_bound. lia.
  - by apply (inv_move st _ (disp_of st)).
Qed.

Lemma inv_dispatch_batch fuel st b lsns sinks st' :
  inv st → pc st = Dispatching b lsns sinks →
  dispatch_batch cfg jitter fuel b lsns sinks st = Some st' → inv st'.
Proof.
  intros Hinv Hpc. unfold dispatch_batch.
  pose proof (inv_pc _ Hinv) as Hp. unfold pc_ok in Hp. rewrite Hpc in Hp.
  assert (pc st ≠ Exited) as Hne by by rewrite Hpc.
  destruct Hp as (Hb & Hh & Hlen & Hf). pose proof Hb as (_ & _ & Hs).
  rewrite (Hs Hh) in *. destruct (dispatch _ _ _ _ _ _) as [[[]| | |] d] eqn:Hd; intros; simplify_eq.
  - eapply inv_delivered; try done.
    destruct (in_hand st); [done|]. simpl in *. lia.
  - destruct (inv_failed _ _ _ _ Hof Hinv Hne Hf Hh Hd) as [Ht ?]. unfold exit_loop. by rewrite Ht.
Qed.

Lemma inv_flush fuel st b lsns sinks again st' :
  inv st → pc st ≠ Exited → failed st = [] → batch_ok (in_hand st) b lsns sinks →
  length (in_hand st) ≤ batch_bound →
  again = Exited ∨ again = Draining [] ∅ sinks ∧ (sinks = [] ∨ sinks = SL) →
  flush cfg jitter fuel b lsns sinks again Exited st = Some st' → inv st'.
Proof.
  intros Hinv Hne Hf Hb Hlen Hag.
  assert (0 < batch_bound) by (unfold batch_bound; lia).
  assert (∀ st1, in_hand st1 = [] → failed st1 = [] → fatal_calls (disp_of st1) = 0 →
    pc st1 = again → pc_ok st1) as Hok.
  { intros st1 E1 E2 E3 E4. unfold pc_ok. rewrite E1, E2, E3, E4.
    destruct Hag as [->|[-> Hs]]; simpl; [done|]. by split_and!. }
  assert (fatal_calls (disp_of st) = 0) as Hf0.
  { pose proof (inv_once _ Hinv). destruct (decide (fatal_calls (disp_of st) = 1)) as [E|E]; [|lia].
    by apply (inv_live _ Hinv) in E. }
  pose proof Hb as (Eb & El & Hs). destruct b as [|e b'] eqn:Ebb; simpl.
  - symmetry in Eb. apply fmap_nil_inv in Eb. intros [= <-].
    apply (inv_move st _ (disp_of st)); try done. by apply Hok.
  - assert (in_hand st ≠ []) as Hh by by intros E; rewrite E in Eb.
    rewrite (Hs Hh) in *.
    destruct (dispatch _ _ _ _ _ _) as [[[]| | |] d] eqn:Hd; intros; simplify_eq.
    + eapply inv_delivered; try done.
      { destruct (in_hand st); [done|]. simpl in *. lia. }
      apply Hok; try done. apply dispatch_true in Hd as ((_ & _ & Efc & _) & _).
      etrans; [apply notify_confirmed_frame|congruence].
    + by destruct (inv_failed _ _ _ _ Hof Hinv Hne Hf Hh Hd).
Qed.

(** [flush] overwrites where the worker is. *)
Lemma flush_pc fuel b lsns sinks again stop p (st : @System W) :
  flush cfg jitter fuel b lsns sinks again stop (set_pc p st) =
  flush cfg jitter fuel b lsns sinks again stop st.
Proof. by destruct b. Qed.

Lemma inv_drain fuel st b lsns sinks st' :
  inv st → Forall job_ok (posted st) → pc st = Draining b lsns sinks →
  drain cfg jitter fuel b lsns sinks st = Some st' → inv st'.
Proof.
  intros Hinv Hall Hpc. unfold drain.
  pose proof (inv_pc _ Hinv) as Hp. unfold pc_ok in Hp. rewrite Hpc in Hp.
  assert (pc st ≠ Exited) as Hne by by rewrite Hpc.
  destruct Hp as (Hb & Hss & Hlen & Hf). destruct (queue_ st) as [|j q] eqn:Hq.
  { apply inv_flush; auto. lia. }
  pose proof (posted_job_ok _ _ _ Hinv Hall Hq) as Hj.
  assert ((match sinks with [] => job_sinks j | _ => sinks end) = SL) as ->.
  { destruct Hj as [-> _]. by destruct sinks, Hss. }
  assert (batch_ok (in_hand st ++ [j]) (b ++ [ev j]) (note_lsn lsns j) SL) as Hb'.
  { destruct Hb as (-> & -> & _). split_and!; [by rewrite fmap_app|by rewrite max_lsns_snoc|done]. }
  destruct (_ <=? _)%Z eqn:Ele.
  - rewrite <- (flush_pc _ _ _ _ _ _ (Dispatching (b ++ [ev j]) (note_lsn lsns j) SL)).
    assert (length (in_hand st ++ [j]) ≤ batch_bound) by (rewrite length_app; simpl; lia).
    apply inv_flush; simpl; try done; [|by right; auto].
    eapply (inv_take st); try done. unfold pc_ok. simpl. split_and!; try done.
    by intros []%app_nil.
  - intros [= <-]. eapply (inv_take st); try done.
    unfold pc_ok. simpl. split_and!; [done|by right| |done].
    apply Z.leb_gt in Ele. destruct Hb as (-> & _). rewrite length_app, length_fmap in Ele.
    rewrite length_app. simpl in *. unfold batch_bound in *. lia.
Qed.

Lemma inv_worker_step fuel st st' :
  inv st → Forall job_ok (posted st) → worker_step cfg jitter fuel st = Some st' → inv st'.
Proof.
  intros Hinv Hall. unfold worker_step. destruct (pc st) eqn:Hpc; intros; simplify_eq.
  - by apply inv_poll.
  - by apply inv_fill.
  - by eapply inv_dispatch_batch.
  - by eapply inv_drain.
Qed.

Lemma worker_step_posted fuel (st st' : @System W) :
  worker_step cfg jitter fuel st = Some st' → posted st' = posted st.
Proof.
  unfold worker_step, poll, fill, dispatch_batch, drain, flush, set_pc, set_disp, settle.
  intros. repeat (case_match; simplify_eq/=; try done).
Qed.

Lemma inv_step fuel st st' :
  step cfg jitter fuel st st' → Forall job_ok (posted st') → inv st → inv st'.
Proof.
  intros Hs Hall Hinv. destruct Hs as [j st|st|st st' Hw].
  - destruct Hinv as [Hfifo Hpc Hft Honce Hrai Hlive Hcc Htook Hsz].
    constructor; simpl; try done. by rewrite Hfifo, <- !(assoc_L (++)).
  - by destruct Hinv; constructor.
  - eapply inv_worker_step; [done| |done]. by rewrite <- (worker_step_posted _ _ _ Hw).
Qed.

Lemma step_posted fuel (st st' : @System W) :
  step cfg jitter fuel st st' → posted st `prefix_of` posted st'.
Proof.
  intros [j st1|st1|st1 st2 Hw]; simpl; [by apply prefix_app_r|done|].
  by rewrite (worker_step_posted _ _ _ Hw).
Qed.

Lemma inv_reachable fuel w t st :
  rtc (step cfg jitter fuel) (initial w t) st → Forall job_ok (posted st) → inv st.
Proof.
  revert st. refine (rtc_ind_r _ _ _ _).
  - intros _. constructor; simpl; try done; [lia|by destruct (on_confirmed_ cfg)|..];
      by intros js []%elem_of_nil.
  - intros st st' _ Hs IH Hall. eapply inv_step; [done|done|]. apply IH.
    destruct (step_posted _ _ _ Hs) as [l El]. rewrite El in Hall.
    by apply Forall_app in Hall as [? _].
Qed.

Lemma max_lsns_lookup js src l :
  Forall job_ok js → max_lsns js !! src = Some l →
  (0 ≤ l)%Z ∧ ∃ j, j ∈ js ∧ source_id j = src ∧ commit_lsn (ev j) = l.
Proof using Type.
  clear dependent cfg. revert l. induction js as [|j js IH] using rev_ind; intros l; [done|].
  rewrite Forall_app, Forall_singleton. intros [Hjs [_ Hj]].
  rewrite max_lsns_snoc. unfold note_lsn.
  destruct (decide (source_id j = src)) as [<-|Hne].
  - rewrite lookup_insert, decide_True by done. intros [= <-]. split; [lia|].
    destruct (max_lsns js !! source_id j) as [l'|] eqn:El; simpl.
    + destruct (IH _ Hjs eq_refl) as (Hl' & j' & Hin & Es & Ec).
      destruct (Z.max_spec l' (commit_lsn (ev j))) as [[_ ->]|[_ ->]]; [exists j|exists j'];
        set_solver.
    + exists j. rewrite Z.max_r by done. set_solver.
  - rewrite lookup_insert_ne by done. intros (Hl & j' & Hin & Hs)%IH; [|done].
    split; [done|]. exists j'. set_solver.
Qed.

(** A confirmed position is that of a delivered job of its source. *)
Lemma confirmed_delivered st src lsn :
  inv st → Forall job_ok (posted st) → (src, lsn) ∈ confirm_calls (disp_of st) →
  ∃ jk, jk ∈ concat (delivered st) ∧ source_id jk = src ∧ commit_lsn (ev jk) = lsn.
Proof using Type.
  intros Hinv Hall Hconf. rewrite (inv_confirmed _ Hinv) in Hconf.
  destruct (on_confirmed_ cfg); [|by apply elem_of_nil in Hconf].
  apply elem_of_concat in Hconf as (cs & (js & -> & Hjs)%list_elem_of_fmap & Hin).
  apply elem_of_map_to_list in Hin. apply max_lsns_lookup in Hin as (_ & jk & Hjk & ? & ?).
  - exists jk. rewrite elem_of_concat. eauto.
  - rewrite Forall_forall in Hall |- *. intros j' ?. apply Hall.
    rewrite (inv_fifo _ Hinv), elem_of_app, elem_of_concat. eauto.
Qed.

Lemma delivered_took st j :
  inv st → j ∈ concat (delivered st) →
  ∃ js, js ∈ delivered st ∧ j ∈ js ∧ all_required_took (disp_of st) SL (ev <$> js).
Proof using Type.
  intros Hinv (js & ? & ?)%elem_of_concat. exists js. split_and!; [done..|].
  by apply (inv_took _ Hinv).
Qed.

Lemma worker_step_delivered fuel (st st' : @System W) :
  worker_step cfg jitter fuel st = Some st' → delivered st `prefix_of` delivered st'.
Proof using Type.
  unfold worker_step, poll, fill, dispatch_batch, drain, flush, set_pc, set_disp, settle.
  intros. repeat (case_match; simplify_eq/=; try first [done | by apply prefix_app_r]).
Qed.

(** The log of confirmations only grows. *)
Lemma worker_step_confirms fuel (st st' : @System W) :
  inv st → inv st' → worker_step cfg jitter fuel st = Some st' →
  confirm_calls (disp_of st) `prefix_of` confirm_calls (disp_of st').
Proof using Type.
  intros Hi Hi' [l El]%worker_step_delivered.
  rewrite (inv_confirmed _ Hi), (inv_confirmed _ Hi'), El.
  destruct (on_confirmed_ cfg); [|done]. rewrite fmap_app, concat_app. by apply prefix_app_r.
Qed.
End dispatch.

(** ** Confirmation *)

(** How PostgreSQL streams a publication: the jobs of one source come
    transaction by transaction, in the order of the transactions' commit
    positions [txn_end]; a change carries a position before its transaction's
    commit, and only the last message of a transaction, the commit, carries the
    commit position itself. *)
Definition commit_ordered (js : list EventJob) (txn_end : nat → Z) : Prop :=
  (∀ i j, js !! i = Some j → commit_lsn (ev j) ≤ txn_end i)%Z ∧
  (∀ i k ji jk, js !! i = Some ji → js !! k = Some jk → source_id ji = source_id jk → i < k →
     (txn_end i ≤ txn_end k ∧ (commit_lsn (ev ji) = txn_end i → txn_end i < txn_end k))%Z).

(** C2: an LSN is confirmed to PostgreSQL only when it is safe to: in every
    interleaving of the event loop, the destructor and the worker, once
    [on_confirmed_(src, lsn)] has been called, every job of that source whose
    transaction committed at or before [lsn] has been part of a batch that each
    required sink took without an exception.  The LSNs of successive batches
    need not increase (changes carry their own positions), and still nothing
    that PostgreSQL may now forget is lost. *)
Theorem confirmed_lsn_is_durable {W} `{EventSink W} (cfg : DispatcherConfig) (jitter : nat → Z)
    (fuel : nat) (SL : list SinkHandle) (w : W) (t : Z) (st : System) (txn_end : nat → Z)
    (src lsn : Z) (i : nat) (j : EventJob) :
  on_fatal_ cfg = true →
  rtc (step cfg jitter fuel) (initial w t) st →
  Forall (job_ok SL) (posted st) → commit_ordered (posted st) txn_end →
  (src, lsn) ∈ confirm_calls (disp_of st) →
  posted st !! i = Some j → source_id j = src → (txn_end i ≤ lsn)%Z →
  ∃ js, js ∈ delivered st ∧ j ∈ js ∧ all_required_took (disp_of st) SL (ev <$> js).
Proof.
  intros Hof Hr Hall [Hle Hord] Hconf Hi Hsrc Hend.
  pose proof (inv_reachable _ _ _ Hof _ _ _ _ Hr Hall) as Hinv.
  destruct (confirmed_delivered _ _ _ _ _ Hinv Hall Hconf)
    as (jk & [k Hk]%list_elem_of_lookup & Hks & Hkl).
  assert (posted st !! k = Some jk) as Hpk.
  { rewrite (inv_fifo _ _ _ Hinv). by apply lookup_app_l_Some. }
  assert (i < length (concat (delivered st))) as Hlt.
  { apply lookup_lt_Some in Hk. destruct (decide (i < length (concat (delivered st)))); [done|].
    destruct (Hord k i jk j) as [? Hstrict]; [done..|congruence|lia|].
    pose proof (Hle _ _ Hpk). lia. }
  rewrite (inv_fifo _ _ _ Hinv), lookup_app_l in Hi by done.
  by eapply delivered_took, list_elem_of_lookup_2.
Qed.

(** ** Runs of the system, as labels *)

Inductive label := LPost (j : EventJob) | LStop | LWork.

Section exec.
Context {W : Type} `{EventSink W} (cfg : DispatcherConfig) (jitter : nat → Z) (fuel : nat).

Definition exec1 (l : label) (st : @System W) : option System :=
  match l with
  | LPost j => Some (post_job j st)
  | LStop => Some (request_stop st)
  | LWork => worker_step cfg jitter fuel st
  end.

Fixpoint exec (ls : list label) (st : System) : option System :=
  match ls with
  | [] => Some st
  | l :: ls => st ← exec1 l st; exec ls st
  end.

Lemma exec_rtc ls st st' : exec ls st = Some st' → rtc (step cfg jitter fuel) st st'.
Proof.
  revert st. induction ls as [|l ls IH]; intros st; simpl; [by intros [= ->]|].
  intros (st1 & H1 & H2)%bind_Some. eapply rtc_l; [|by apply IH].
  destruct l; simplify_eq/=; by constructor.
Qed.
End exec.

(** A concrete system for the witnesses: one required sink that stores what it
    is given, and a source whose second transaction starts before the first
    one commits. *)
Module Demo.
Definition store_sink : EventSink (list (list ChangeEvent)) :=
  {| call_batch := λ _ b, modify (λ w, w ++ [b]); sink_default_required := λ _, true |}.

Definition change (o : Op) (lsn : Z) : EventJob :=
  {| ev := {| op := o; schema_name := "public"; table_name := "t"; old_row := None;
              new_row := None; commit_lsn := lsn; commit_timestamp := 0 |};
     source_id := 1; job_sinks := [handle_with 0 true] |}.

(** A change at 20 committed at 40, then a change at 10 committed at 50. *)
Definition jobs : list EventJob :=
  [change OpInsert 20; change OpCommit 40; change OpInsert 10; change OpCommit 50].
Definition txn_end (i : nat) : Z := if decide (i < 2) then 40%Z else 50%Z.

Definition labels : list label :=
  (LPost <$> jobs) ++ [LWork; LWork; LWork; LWork; LWork; LWork; LWork; LWork; LStop].

Definition run : option (@System (list (list ChangeEvent))) :=
  exec (H := store_sink) (main_dispatcher 2 50) (λ _, 25000%Z) 49 labels (initial [] 0).
End Demo.

(** The transaction that committed at 40 is in the sink when 40 is confirmed. *)
Lemma confirmed_lsn_is_durable_witness :
  ∃ st, Demo.run = Some st ∧ (1%Z, 40%Z) ∈ confirm_calls (disp_of st) ∧
    ∃ js, js ∈ delivered st ∧ Demo.change OpInsert 20 ∈ js ∧
      all_required_took (disp_of st) [handle_with 0 true] (ev <$> js).
Proof.
  eexists. split; [vm_compute; reflexivity|]. split; [left|].
  eapply (confirmed_lsn_is_durable (H := Demo.store_sink) (main_dispatcher 2 50) (λ _, 25000%Z) 49
    [handle_with 0 true] [] 0%Z _ Demo.txn_end 1 40 0 (Demo.change OpInsert 20)).
  - reflexivity.
  - apply (exec_rtc (H := Demo.store_sink) _ _ _ Demo.labels). vm_compute. reflexivity.
  - repeat constructor; vm_compute; discriminate.
  - split.
    + intros i j Hj. do 4 (destruct i as [|i]; [injection Hj as <-; vm_compute; discriminate|]). done.
    + intros i k ji jk Hi Hk _ Hlt.
      do 4 (destruct i as [|i];
        [injection Hi as <-; do 4 (destruct k as [|k];
           [first [lia|injection Hk as <-; vm_compute; split; [discriminate|]; intros; (discriminate || reflexivity)]|]); done|]).
      done.
  - left.
  - reflexivity.
  - reflexivity.
  - vm_compute. discriminate.
Defined.

(** C7: the dispatcher neither loses, duplicates nor reorders jobs: in every
    reachable state the jobs posted are, in order, those of the batches that
    went through, those of the one batch that failed, those in hand and those
    in the queue.  Every batch has between one job and the configured size
    (at least one), every required sink took each batch that went through, a
    failed batch stops the worker for good, and the fatal callback is raised
    at most once, exactly when a batch has failed. *)
Theorem dispatcher_fifo {W} `{EventSink W} (cfg : DispatcherConfig) (jitter : nat → Z)
    (fuel : nat) (SL : list SinkHandle) (w : W) (t : Z) (st : System) :
  on_fatal_ cfg = true →
  rtc (step cfg jitter fuel) (initial w t) st → Forall (job_ok SL) (posted st) →
  posted st = concat (delivered st) ++ failed st ++ in_hand st ++ queue_ st ∧
  (∀ js, js ∈ delivered st →
     1 ≤ length js ≤ Nat.max 1 (Z.to_nat (max_batch_size_ cfg)) ∧
     all_required_took (disp_of st) SL (ev <$> js)) ∧
  fatal_calls (disp_of st) = (if decide (failed st = []) then 0 else 1) ∧
  (failed st ≠ [] → pc st = Exited).
Proof.
  intros Hof Hr Hall. pose proof (inv_reachable _ _ _ Hof _ _ _ _ Hr Hall) as Hinv.
  split_and!.
  - apply (inv_fifo _ _ _ Hinv).
  - intros js Hjs. split; [by apply (inv_sizes _ _ _ Hinv)|by apply (inv_took _ _ _ Hinv)].
  - pose proof (inv_once _ _ _ Hinv). destruct (decide (failed st = [])) as [E|E];
      [|by apply (inv_raised _ _ _ Hinv)].
    destruct (decide (fatal_calls (disp_of st) = 1)) as [E1|]; [|lia].
    pose proof (inv_pc _ _ _ Hinv) as Hp. unfold pc_ok in Hp.
    rewrite (inv_live _ _ _ Hinv E1) in Hp. by apply Hp.
  - intros E. by apply (inv_live _ _ _ Hinv), (inv_raised _ _ _ Hinv).
Qed.

Lemma dispatcher_fifo_witness :
  ∃ st, Demo.run = Some st ∧
    posted st = concat (delivered st) ++ failed st ++ in_hand st ++ queue_ st ∧
    (∀ js, js ∈ delivered st → 1 ≤ length js ≤ 2 ∧
       all_required_took (disp_of st) [handle_with 0 true] (ev <$> js)) ∧
    fatal_calls (disp_of st) = (if decide (failed st = []) then 0 else 1) ∧
    (failed st ≠ [] → pc st = Exited).
Proof.
  eexists. split; [vm_compute; reflexivity|].
  eapply (dispatcher_fifo (H := Demo.store_sink) (main_dispatcher 2 50) (λ _, 25000%Z) 49
    [handle_with 0 true] [] 0%Z).
  - reflexivity.
  - apply (exec_rtc (H := Demo.store_sink) _ _ _ Demo.labels). vm_compute. reflexivity.
  - repeat constructor; vm_compute; discriminate.
Defined.

(** ** Shutdown *)

Section shutdown.
Context {W : Type} `{EventSink W} (cfg : DispatcherConfig) (jitter : nat → Z) (fuel : nat).
Context (SL : list SinkHandle) (Hof : on_fatal_ cfg = true).

(** The sinks are up: a required sink takes what it is given, a best-effort
    one may throw. *)
Definition sinks_up (SL : list SinkHandle) : Prop :=
  ∀ h, h ∈ SL → sink_defined (sink h) ∧
    (required h = true → ∀ b w, is_ret (call_batch (sink h) b w).1 = true).
Context (Hup : sinks_up SL).

Lemma dispatch_up b d : ∃ d', dispatch cfg jitter (S fuel) b SL d = (Ret true, d').
Proof.
  clear Hof. revert d Hup. induction SL as [|h sl IH]; intros d Hup'; simpl; [by eauto|].
  assert (∃ d1, dispatch_with_retry cfg jitter (S fuel) h b d = (Ret true, d1)) as [d1 E].
  { unfold dispatch_with_retry, mbind, prog_bind. cbn [steady_now].
    set (d1 := {| sinks_state := _ |}). clearbody d1.
    destruct (call_batch (sink h) b (sinks_state d1)) as [r w] eqn:Hc.
    rewrite (retry_loop_unfold _ _ _ _ _ _ _ _ _ _ Hc).
    destruct (Hup' h) as [Hd Hq]; [set_solver|].
    pose proof (Hd b (sinks_state d1)) as Hr. rewrite Hc in Hr. simpl in Hr.
    destruct r; try done; [by eauto|]. unfold on_batch_error.
    destruct (required h); [|by simpl; eauto].
    specialize (Hq eq_refl b (sinks_state d1)). by rewrite Hc in Hq. }
  unfold mbind, prog_bind. rewrite E. apply IH. intros h' Hh'. apply Hup'. set_solver.
Qed.

Abbreviation wstep := (λ st st', worker_step cfg jitter (S fuel) st = Some st').

Lemma flush_up b lsns sinks again st :
  (b ≠ [] → sinks = SL) →
  ∃ st', flush cfg jitter (S fuel) b lsns sinks again Exited st = Some st' ∧ pc st' = again ∧
    queue_ st' = queue_ st ∧ failed st' = failed st.
Proof.
  intros Hs. destruct b as [|e b]; simpl; [by eexists|]. rewrite Hs by done.
  destruct (dispatch_up (e :: b) (disp_of st)) as [d' ->]. by eexists.
Qed.

Lemma drain_up b lsns sinks st :
  inv cfg SL st → Forall (job_ok SL) (posted st) → pc st = Draining b lsns sinks →
  ∃ st', rtc wstep st st' ∧ pc st' = Exited ∧ queue_ st' = [] ∧ failed st' = failed st.
Proof.
  remember (queue_ st) as q eqn:Hq. symmetry in Hq. revert b lsns sinks st Hq.
  induction q as [|j q IH]; intros b lsns sinks st Hq Hinv Hall Hpc;
    pose proof (inv_pc _ _ _ Hinv) as Hp; unfold pc_ok in Hp; rewrite Hpc in Hp;
    destruct Hp as ((Hb & Hl & Hs) & Hss & _).
  - destruct (flush_up b lsns sinks Exited st) as (st' & Hf & ? & E & ?).
    { intros Hne. apply Hs. intros E. by rewrite E in Hb. }
    exists st'. rewrite E. split_and!; [|done..]. apply rtc_once. unfold worker_step.
    rewrite Hpc. unfold drain. by rewrite Hq.
  - assert (∃ st1, worker_step cfg jitter (S fuel) st = Some st1 ∧ queue_ st1 = q ∧
      failed st1 = failed st ∧ ∃ b' l' s', pc st1 = Draining b' l' s')
      as (st1 & H1 & Hq1 & Hf1 & b' & l' & s' & Hpc1).
    { unfold worker_step. rewrite Hpc. unfold drain. rewrite Hq.
      destruct (_ <=? _)%Z; [|by repeat eexists].
      match goal with |- context [flush _ _ _ ?b ?l ?s ?a _ ?st0] =>
        destruct (flush_up b l s a st0) as (st' & -> & Ep & Eq & Ef) end.
      - intros _. pose proof (posted_job_ok _ _ _ _ _ Hinv Hall Hq) as [-> _].
        by destruct sinks, Hss.
      - exists st'. rewrite Ep, Eq, Ef. by repeat eexists. }
    destruct (IH b' l' s' st1 Hq1) as (st' & Hr & ? & ? & Hf'); [| |done|].
    + by eapply inv_worker_step.
    + by rewrite (worker_step_posted _ _ _ _ _ H1).
    + exists st'. split_and!; [|done|done|congruence]. by eapply rtc_l.
Qed.
End shutdown.

(** Shutting down loses nothing: once the destructor has cleared
    [running_] and the worker is back at the head of its loop, the worker
    terminates by itself, and when it has, every job ever posted has been part
    of a batch that went through, provided the required sinks are up. *)
Theorem shutdown_drains_queue {W} `{EventSink W} (cfg : DispatcherConfig) (jitter : nat → Z)
    (fuel : nat) (SL : list SinkHandle) (w : W) (t : Z) (st : System) :
  on_fatal_ cfg = true → sinks_up SL →
  rtc (step cfg jitter (S fuel)) (initial w t) st → Forall (job_ok SL) (posted st) →
  pc st = Looping → running_ st = false →
  ∃ st', rtc (λ s s', worker_step cfg jitter (S fuel) s = Some s') st st' ∧
    pc st' = Exited ∧ posted st' = posted st ∧ posted st' = concat (delivered st').
Proof.
  intros Hof Hup Hr Hall Hpc Hrun.
  pose proof (inv_reachable _ _ _ Hof _ _ _ _ Hr Hall) as Hinv.
  assert (worker_step cfg jitter (S fuel) st = Some (poll cfg jitter st)) as Hw
    by (unfold worker_step; by rewrite Hpc).
  pose proof (inv_worker_step _ _ _ Hof _ _ _ Hinv Hall Hw) as Hinv1.
  pose proof (inv_pc _ _ _ Hinv) as Hp. unfold pc_ok in Hp. rewrite Hpc in Hp.
  assert (pc (poll cfg jitter st) = Draining [] ∅ [] ∧ failed (poll cfg jitter st) = [] ∧
    posted (poll cfg jitter st) = posted st) as (Hpc1 & Hf1 & Hpo).
  { unfold poll, exit_loop. rewrite Hrun, (not_fatal cfg SL) by (done || by rewrite Hpc).
    by destruct Hp. }
  destruct (drain_up cfg jitter fuel SL Hof Hup _ _ _ _ Hinv1 ltac:(by rewrite Hpo) Hpc1)
    as (st' & Hr' & Hex & Hq & Hf).
  exists st'.
  assert (inv cfg SL st' ∧ posted st' = posted st) as [Hinv' Hpo'].
  { rewrite <- Hpo. clear Hex Hq Hf. revert st' Hr'. refine (rtc_ind_r _ _ _ _); [done|].
    intros s1 s2 _ H2 [Hi He]. split; [|by rewrite (worker_step_posted _ _ _ _ _ H2)].
    eapply inv_worker_step; [done|done| |done]. by rewrite He, Hpo. }
  split_and!; [by eapply rtc_l|done|done|].
  pose proof (inv_pc _ _ _ Hinv') as Hp'. unfold pc_ok in Hp'. rewrite Hex in Hp'.
  rewrite (inv_fifo _ _ _ Hinv'), Hf, Hf1, Hq, (proj1 Hp'). by rewrite !app_nil_r.
Qed.

Lemma shutdown_drains_queue_witness :
  ∃ st, exec (H := Demo.store_sink) (main_dispatcher 2 50) (λ _, 25000%Z) 49
          ((LPost <$> Demo.jobs) ++ [LStop]) (initial [] 0) = Some st ∧
    ∃ st', rtc (λ s s', worker_step (H := Demo.store_sink) (main_dispatcher 2 50) (λ _, 25000%Z) 49 s
                        = Some s') st st' ∧
      pc st' = Exited ∧ posted st' = posted st ∧ posted st' = concat (delivered st').
Proof.
  eexists. split; [vm_compute; reflexivity|].
  apply (shutdown_drains_queue (H := Demo.store_sink) (main_dispatcher 2 50) (λ _, 25000%Z) 48
    [handle_with 0 true] [] 0%Z).
  - reflexivity.
  - intros h _. split; [by intros b w|by intros _ b w].
  - apply (exec_rtc (H := Demo.store_sink) _ _ _ ((LPost <$> Demo.jobs) ++ [LStop])).
    vm_compute. reflexivity.
  - repeat constructor; vm_compute; discriminate.
  - reflexivity.
  - reflexivity.
Defined.

(** A sink that is down for its first call only. *)
Definition flaky_sink : EventSink nat :=
  {| call_batch := λ _ _ w, (if decide (w = 0) then Throw "down" else Ret tt, S w);
     sink_default_required := λ _, true |}.

Definition no_fatal_config : DispatcherConfig :=
  {| max_batch_size_ := 2; batch_timeout_ := 50; required_retry_initial_backoff_ := 500;
     required_retry_ceiling_ := 0; on_confirmed_ := true; on_fatal_ := false |}.

(** The guard that keeps [drain_remaining] from running after a fatal
    stall is tied to the callback: with no [on_fatal_] installed
    [fatal_triggered_] stays false, the worker drains the queue behind the
    batch it gave up on and confirms an LSN past a job that no sink took. *)
Theorem unset_fatal_callback_confirms_past_failure :
  ∃ labels st,
    exec (H := flaky_sink) no_fatal_config (λ _, 25000%Z) 1 labels (initial 0 0) = Some st ∧
    Demo.change OpCommit 40 ∈ failed st ∧
    (1%Z, 50%Z) ∈ confirm_calls (disp_of st) ∧
    (∀ r, (0, [ev (Demo.change OpInsert 20); ev (Demo.change OpCommit 40)], r)
            ∈ attempts (disp_of st) → r = false).
Proof.
  exists ((LPost <$> Demo.jobs) ++ replicate 7 LWork). eexists.
  split; [vm_compute; reflexivity|]. split; [right; left|]. split; [left|].
  intros r. cbn [attempts disp_of]. rewrite !elem_of_cons, elem_of_nil.
  by intros [[= ->]|[[=]|[]]].
Qed.
