(* ===== verification/EmbeddingProvider.v ===== *)
(** * [src/embedding_provider.hpp] and [src/caching_embedding_provider.cpp]

    The interface of embedding providers is the class [EmbeddingProvider]; an
    object of a provider is a state of type [P].  The caching provider is a
    provider over any other one: its list of entries is modelled with the
    identity of the list nodes, because the index holds iterators into it. *)

From S2P Require Import Prelude.
From stdpp Require Import sorting.
From Stdlib Require Import Lia.

(** A [std::vector<float>]; a float is its bits. *)
Abbreviation vec := (list Z).

Class EmbeddingProvider (P : Type) := {
  prov_init : prog P unit;
  embed : string → prog P vec;
  embed_batch : list string → prog P (list vec);
  prov_dimensions : P → Z;
  prov_name : P → string;
}.

(** What the sinks rely on: as long as [I] holds of the provider, embedding
    returns one vector per text, and always the same one for the same text. *)
Class ProviderOk {P} `{EmbeddingProvider P} (I : P → Prop) (e : string → vec) := {
  embed_ok : ∀ t p, I p → ∃ p', embed t p = (Ret (e t), p') ∧ I p';
  embed_batch_ok : ∀ ts p, I p → ∃ p', embed_batch ts p = (Ret (e <$> ts), p') ∧ I p';
}.

(** [EmbeddingProvider::embed_batch], the default: one call per text. *)
Fixpoint default_embed_batch {P} (embed1 : string → prog P vec) (texts : list string)
    : prog P (list vec) :=
  match texts with
  | [] => mret []
  | t :: texts => v ← embed1 t; vs ← default_embed_batch embed1 texts; mret (v :: vs)
  end.

(** ** The size of the cache *)

(** [while (p < n) p <<= 1;] on [size_t]. *)
Fixpoint cache_size_loop (fuel : nat) (p n : Z) : outcome Z :=
  match fuel with
  | O => OutOfFuel
  | S fuel => if (p <? n)%Z then cache_size_loop fuel (u64 (Z.shiftl p 1)) n else Ret p
  end.

Definition cache_size_for_batch (fuel : nat) (batch_size : Z) : outcome Z :=
  cache_size_loop fuel 1 (Z.max batch_size 16).

(** ** The caching provider *)

Abbreviation Entry := (string * vec)%type.

Record Caching (P : Type) := {
  inner_ : P;
  max_entries_ : Z;
  lru_ : list (nat * Entry);        (* nodes with their identity, front first *)
  index_ : gmap string nat;         (* iterators *)
  next_node : nat;                  (* identity of the next node allocated *)
}.
Arguments inner_ {P}. Arguments max_entries_ {P}. Arguments lru_ {P}.
Arguments index_ {P}. Arguments next_node {P}.

Definition make_caching {P} (inner : P) (max_entries : Z) : Caching P :=
  {| inner_ := inner; max_entries_ := max_entries; lru_ := []; index_ := ∅; next_node := 0 |}.

Section caching.
Context {P : Type} `{EmbeddingProvider P}.

Definition with_lru (l : list (nat * Entry)) (c : Caching P) : Caching P :=
  {| inner_ := inner_ c; max_entries_ := max_entries_ c; lru_ := l; index_ := index_ c;
     next_node := next_node c |}.

(** A call on [inner_]. *)
Definition on_inner {A} (m : prog P A) : prog (Caching P) A := λ c,
  let '(r, p) := m (inner_ c) in
  (r, {| inner_ := p; max_entries_ := max_entries_ c; lru_ := lru_ c; index_ := index_ c;
         next_node := next_node c |}).

(** Unlink the node an iterator points to. *)
Fixpoint unlink (it : nat) (l : list (nat * Entry)) : option (Entry * list (nat * Entry)) :=
  match l with
  | [] => None
  | (n, x) :: l =>
      if decide (n = it) then Some (x, l)
      else match unlink it l with Some (y, l') => Some (y, (n, x) :: l') | None => None end
  end.

(** [lru_.splice(lru_.begin(), lru_, it)], after [it->second = f(it->second)];
    returns the vector at the iterator. *)
Definition touch (it : nat) (f : vec → vec) : prog (Caching P) vec := λ c,
  match unlink it (lru_ c) with
  | Some ((t, v), rest) => (Ret (f v), with_lru ((it, (t, f v)) :: rest) c)
  | None => (UB "dangling list iterator", c)
  end.

Definition try_get (text : string) : prog (Caching P) (option vec) := λ c,
  match index_ c !! text with
  | None => (Ret None, c)
  | Some it => (v ← touch it id; mret (Some v)) c
  end.

(** [auto& e = lru_.back(); index_.erase(e.first); lru_.pop_back();] *)
Definition evict : prog (Caching P) unit := λ c,
  match last (lru_ c) with
  | None => (UB "back() on an empty list", c)
  | Some (_, (t, _)) =>
      (Ret tt, {| inner_ := inner_ c; max_entries_ := max_entries_ c;
                  lru_ := take (pred (length (lru_ c))) (lru_ c);
                  index_ := delete t (index_ c); next_node := next_node c |})
  end.

(** [lru_.emplace_front(text, vec); index_[text] = lru_.begin();] *)
Definition emplace (text : string) (v : vec) : prog (Caching P) unit := modify (λ c,
  {| inner_ := inner_ c; max_entries_ := max_entries_ c;
     lru_ := (next_node c, (text, v)) :: lru_ c;
     index_ := <[text := next_node c]> (index_ c); next_node := S (next_node c) |}).

Definition put (text : string) (v : vec) : prog (Caching P) unit := λ c,
  match index_ c !! text with
  | Some it => (touch it (λ _, v) ;; mret tt) c
  | None =>
      if (max_entries_ c <=? Z.of_nat (size (index_ c)))%Z
      then (evict ;; emplace text v) c
      else emplace text v c
  end.

Definition caching_embed (text : string) : prog (Caching P) vec :=
  cached ← try_get text;
  match cached with
  | Some v => mret v
  | None => v ← on_inner (embed text); put text v ;; mret v
  end.

(** The first loop of [embed_batch]: hits go into [results], misses into the
    two parallel vectors. *)
Fixpoint lookup_texts (i : nat) (texts : list string) (results : list vec)
    : prog (Caching P) (list vec * list string * list nat) :=
  match texts with
  | [] => mret (results, [], [])
  | t :: texts =>
      cached ← try_get t;
      match cached with
      | Some v => lookup_texts (S i) texts (<[i := v]> results)
      | None =>
          r ← lookup_texts (S i) texts results;
          let '(results, uncached_texts, uncached_idx) := r in
          mret (results, t :: uncached_texts, i :: uncached_idx)
      end
  end.

(** The second loop. *)
Fixpoint store_computed (l : list (nat * (string * vec))) (results : list vec)
    : prog (Caching P) (list vec) :=
  match l with
  | [] => mret results
  | (idx, (t, v)) :: l => put t v ;; store_computed l (<[idx := v]> results)
  end.

Definition caching_embed_batch (texts : list string) : prog (Caching P) (list vec) :=
  r ← lookup_texts 0 texts (replicate (length texts) []);
  let '(results, uncached_texts, uncached_idx) := r in
  match uncached_texts with
  | [] => mret results
  | _ =>
      computed ← on_inner (embed_batch uncached_texts);
      if decide (length computed ≠ length uncached_texts) then mret []
      else store_computed (zip uncached_idx (zip uncached_texts computed)) results
  end.

#[export] Instance caching_provider : EmbeddingProvider (Caching P) := {|
  prov_init := on_inner prov_init;
  embed := caching_embed;
  embed_batch := caching_embed_batch;
  prov_dimensions c := prov_dimensions (inner_ c);
  prov_name c := prov_name (inner_ c);
|}.
End caching.

(** ** The size of the cache *)

Lemma cache_size_loop_pow fuel k n :
  (0 ≤ k ≤ 63)%Z → (2 ^ k < 2 * n)%Z → (n ≤ 2 ^ 63)%Z → 64 - Z.to_nat k ≤ fuel →
  ∃ j, (k ≤ j ≤ 63)%Z ∧ cache_size_loop fuel (2 ^ k) n = Ret (2 ^ j)%Z ∧ (n ≤ 2 ^ j < 2 * n)%Z.
Proof.
  revert k. induction fuel as [|fuel IH]; intros k Hk Hlt Hn Hf; [lia|]. cbn [cache_size_loop].
  destruct (Z.ltb_spec (2 ^ k) n) as [H1|H1]; [|by exists k; repeat split; lia].
  assert (k < 63)%Z by (apply Z.nle_gt; intros ?; assert (k = 63)%Z as -> by lia; lia).
  rewrite Z.shiftl_mul_pow2 by lia. replace (2 ^ k * 2 ^ 1)%Z with (2 ^ (k + 1))%Z
    by (rewrite Z.pow_add_r by lia; lia).
  rewrite u64_small.
  2: { split; [lia|]. apply Z.pow_lt_mono_r; lia. }
  destruct (IH (k + 1)%Z) as (j & Hj & -> & Hb); [lia| |done|lia|by exists j; repeat split; lia].
  rewrite Z.pow_add_r by lia. lia.
Qed.

(** The cache is sized as documented: for any batch size up to [2^63] the
    loop ends within 64 turns with the smallest power of two that is at least
    [max(batch_size, 16)]. *)
Theorem cache_size_smallest_power (batch_size : Z) :
  (batch_size ≤ 2 ^ 63)%Z →
  ∃ j, (0 ≤ j ≤ 63)%Z ∧ cache_size_for_batch 64 batch_size = Ret (2 ^ j)%Z ∧
    (Z.max batch_size 16 ≤ 2 ^ j)%Z ∧
    (∀ i, 0 ≤ i → Z.max batch_size 16 ≤ 2 ^ i → j ≤ i)%Z.
Proof.
  intros Hb. destruct (cache_size_loop_pow 64 0 (Z.max batch_size 16))
    as (j & Hj & E & Hle & Hlt); [lia|lia|lia|lia|].
  exists j. split_and!; [lia|lia|done|done|]. intros i Hi Hbi.
  apply Z.nlt_ge. intros Hij.
  assert (2 ^ (i + 1) ≤ 2 ^ j)%Z by (apply Z.pow_le_mono_r; lia).
  rewrite Z.pow_add_r in * by lia. lia.
Qed.

Lemma cache_size_smallest_power_witness :
  ∃ j, (0 ≤ j ≤ 63)%Z ∧ cache_size_for_batch 64 100 = Ret (2 ^ j)%Z ∧
    (Z.max 100 16 ≤ 2 ^ j)%Z ∧ (∀ i, 0 ≤ i → Z.max 100 16 ≤ 2 ^ i → j ≤ i)%Z.
Proof. apply (cache_size_smallest_power 100). lia. Defined.

Lemma cache_size_loop_zero fuel n : (0 < n)%Z → cache_size_loop fuel 0 n = OutOfFuel.
Proof.
  intros Hn. induction fuel as [|fuel IH]; [done|]. cbn [cache_size_loop].
  by rewrite (proj2 (Z.ltb_lt _ _)) by lia.
Qed.

Lemma cache_size_loop_over fuel k n :
  (0 ≤ k ≤ 63)%Z → (2 ^ 63 < n)%Z → cache_size_loop fuel (2 ^ k) n = OutOfFuel.
Proof.
  revert k. induction fuel as [|fuel IH]; intros k Hk Hn; [done|]. cbn [cache_size_loop].
  assert (2 ^ k ≤ 2 ^ 63)%Z by (apply Z.pow_le_mono_r; lia).
  rewrite (proj2 (Z.ltb_lt _ _)) by lia.
  destruct (decide (k = 63)%Z) as [->|Hne].
  - apply (cache_size_loop_zero fuel n). lia.
  - rewrite Z.shiftl_mul_pow2 by lia.
    replace (2 ^ k * 2 ^ 1)%Z with (2 ^ (k + 1))%Z by (rewrite Z.pow_add_r by lia; lia).
    rewrite u64_small; [apply IH; lia|].
    split; [lia|]. apply Z.pow_lt_mono_r; lia.
Qed.

(** For a batch size above [2^63], which a negative [batch_size] in the
    configuration becomes when it is converted to [size_t], the shift runs out
    of the word, [p] becomes 0 and the loop never ends: no amount of fuel
    gives a result. *)
Theorem cache_size_diverges (batch_size : Z) (fuel : nat) :
  (2 ^ 63 < batch_size)%Z → cache_size_for_batch fuel batch_size = OutOfFuel.
Proof. intros Hb. apply (cache_size_loop_over fuel 0); lia. Qed.

Lemma cache_size_diverges_witness : cache_size_for_batch 1000 (u64 (-1)) = OutOfFuel.
Proof. apply cache_size_diverges. vm_compute. reflexivity. Defined.

(** ** The cache is transparent *)

Section caching_ok.
Context {P : Type} `{EmbeddingProvider P} (I : P → Prop) (e : string → vec) `{!ProviderOk I e}.

Abbreviation keyed := (λ n : nat * Entry, (n.2.1, n.1)).

(** The list and the index describe the same entries, each text once; nodes
    are distinct and older than the next one; the size is bounded; and every
    vector kept is the provider's. *)
Record cache_ok (c : Caching P) : Prop := {
  ok_inner : I (inner_ c);
  ok_nodes : NoDup (lru_ c).*1;
  ok_texts : NoDup (lru_ c).*2.*1;
  ok_fresh : ∀ n, n ∈ (lru_ c).*1 → n < next_node c;
  ok_index : index_ c = list_to_map (keyed <$> lru_ c);
  ok_bound : (Z.of_nat (length (lru_ c)) ≤ max_entries_ c)%Z;
  ok_vecs : ∀ n t v, (n, (t, v)) ∈ lru_ c → v = e t;
}.

Lemma keyed_fst l : (keyed <$> l).*1 = l.*2.*1.
Proof. by rewrite <- !list_fmap_compose. Qed.

Lemma unlink_perm it l x l' : unlink it l = Some (x, l') → l ≡ₚ (it, x) :: l'.
Proof.
  revert l'. induction l as [|[n y] l IH]; intros l'; simpl; [done|].
  case_decide as Hn; [by intros [= -> ->]; subst|].
  destruct (unlink it l) as [[z l1]|]; [|done]. intros [= -> <-].
  rewrite (IH l1) by done. apply Permutation_swap.
Qed.

Lemma unlink_in it l : it ∈ l.*1 → ∃ x l', unlink it l = Some (x, l').
Proof.
  induction l as [|[n y] l IH]; simpl; [by intros ?%elem_of_nil|].
  case_decide as Hn; [by eauto|]. intros [->|Hin]%elem_of_cons; [done|].
  destruct (IH Hin) as (x & l' & ->). eauto.
Qed.

(** Reordering the list and replacing a vector by the right one keeps it. *)
Lemma cache_ok_perm c l :
  cache_ok c → l ≡ₚ lru_ c → cache_ok (with_lru l c).
Proof.
  intros [Hi Hn Ht Hf Hx Hb Hv] Hl. constructor; simpl; rewrite ?Hl; try done.
  - intros n. rewrite Hl. apply Hf.
  - rewrite Hx. apply list_to_map_proper; [by rewrite keyed_fst|]. by rewrite Hl.
  - intros n t v. rewrite Hl. apply Hv.
Qed.

Lemma index_spec c t it :
  cache_ok c → index_ c !! t = Some it ↔ (it, (t, e t)) ∈ lru_ c.
Proof.
  intros [Hi Hn Ht Hf Hx Hb Hv]. rewrite Hx.
  rewrite <- elem_of_list_to_map by by rewrite keyed_fst.
  rewrite list_elem_of_fmap. split.
  - intros ([n [t' v]] & [= -> ->] & Hin). by rewrite <- (Hv _ _ _ Hin).
  - intros Hin. by exists (it, (t, e t)).
Qed.

Lemma touch_ok c t it f :
  cache_ok c → index_ c !! t = Some it → f (e t) = e t →
  ∃ c', touch it f c = (Ret (e t), c') ∧ cache_ok c' ∧ inner_ c' = inner_ c ∧
    max_entries_ c' = max_entries_ c.
Proof.
  intros Hok Hit Hfe. pose proof (proj1 (index_spec _ _ _ Hok) Hit) as Hin.
  unfold touch. destruct (unlink_in it (lru_ c)) as ([t' v'] & l' & Hu).
  { apply list_elem_of_fmap. by exists (it, (t, e t)). }
  rewrite Hu. apply unlink_perm in Hu.
  assert ((t', v') = (t, e t)) as [= -> ->].
  { assert (NoDup (lru_ c).*1) as Hnd by apply Hok. rewrite Hu in Hin, Hnd.
    apply NoDup_cons in Hnd as [Hnd _].
    apply elem_of_cons in Hin as [[= -> ->]|Hin]; [done|].
    destruct Hnd. apply list_elem_of_fmap. by exists (it, (t, e t)). }
  rewrite Hfe. eexists. split; [done|]. split; [|done]. by apply cache_ok_perm.
Qed.

Lemma try_get_ok c t :
  cache_ok c →
  ∃ c' r, try_get t c = (Ret r, c') ∧ cache_ok c' ∧ (r = None ∨ r = Some (e t)) ∧
    inner_ c' = inner_ c ∧ max_entries_ c' = max_entries_ c.
Proof.
  intros Hok. unfold try_get. destruct (index_ c !! t) as [it|] eqn:Hit; [|by eauto 10].
  destruct (touch_ok c t it id Hok Hit eq_refl) as (c' & Ht & Hok' & Hi' & Hm').
  exists c', (Some (e t)). split; [|by auto]. unfold mbind, prog_bind. by rewrite Ht.
Qed.

Lemma emplace_ok c t :
  cache_ok c → index_ c !! t = None → (Z.of_nat (length (lru_ c)) < max_entries_ c)%Z →
  ∃ c', emplace t (e t) c = (Ret tt, c') ∧ cache_ok c' ∧ inner_ c' = inner_ c.
Proof.
  intros [Hi Hn Ht Hf Hx Hb Hv] Hnone Hlt. eexists. split; [done|]. split; [|done].
  constructor; simpl; try done.
  - apply NoDup_cons. split; [|done]. intros ?%Hf. lia.
  - apply NoDup_cons. split; [|done]. rewrite Hx in Hnone.
    by apply not_elem_of_list_to_map_2 in Hnone; rewrite keyed_fst in Hnone.
  - intros n [->|?%Hf]%elem_of_cons; lia.
  - by rewrite Hx.
  - lia.
  - intros n t' v [[= -> -> ->]|?]%elem_of_cons; [done|]. by eapply Hv.
Qed.

Lemma evict_ok c :
  cache_ok c → lru_ c ≠ [] →
  ∃ c', evict c = (Ret tt, c') ∧ cache_ok c' ∧ inner_ c' = inner_ c ∧
    max_entries_ c' = max_entries_ c ∧ S (length (lru_ c')) = length (lru_ c) ∧
    index_ c' ⊆ index_ c.
Proof.
  intros [Hi Hn Ht Hf Hx Hb Hv] Hne. unfold evict.
  destruct (lru_ c) as [|x l _] eqn:El using rev_ind; [done|].
  destruct x as [n [t v]]. rewrite last_snoc. eexists. split; [done|].
  rewrite length_app, Nat.add_comm. simpl. rewrite take_app_length.
  rewrite !fmap_app in *. apply NoDup_app in Hn as (Hn & Hnn & _).
  apply NoDup_app in Ht as (Ht & Htn & _). simpl in *.
  assert (index_ c = <[t := n]> (list_to_map (keyed <$> l))) as Hx'.
  { rewrite Hx, list_to_map_snoc; [done|]. rewrite keyed_fst. intros Hin.
    eapply Htn; [done|]. by left. }
  split; [|split_and!; [done|done|lia|apply delete_subseteq]].
  constructor; simpl; try done.
  - intros m Hm. apply Hf. set_solver.
  - rewrite Hx', delete_insert_id; [done|]. apply not_elem_of_list_to_map_1.
    rewrite keyed_fst. intros Hin. eapply Htn; [done|]. by left.
  - rewrite length_app in Hb. simpl in Hb. lia.
  - intros m t' v' Hm. apply (Hv m). set_solver.
Qed.

Lemma put_ok c t :
  cache_ok c → (1 ≤ max_entries_ c)%Z →
  ∃ c', put t (e t) c = (Ret tt, c') ∧ cache_ok c' ∧ inner_ c' = inner_ c ∧
    max_entries_ c' = max_entries_ c.
Proof.
  intros Hok Hmax. unfold put. destruct (index_ c !! t) as [it|] eqn:Hit.
  - destruct (touch_ok c t it (λ _, e t) Hok Hit eq_refl) as (c' & Ht & Hok' & Hi' & Hm').
    exists c'. unfold mbind, prog_bind. by rewrite Ht.
  - assert (size (index_ c) = length (lru_ c)) as ->.
    { rewrite (ok_index _ Hok), map_size_list_to_map, length_fmap; [done|].
      rewrite keyed_fst. apply Hok. }
    destruct (_ <=? _)%Z eqn:Ele; [apply Z.leb_le in Ele|apply Z.leb_gt in Ele].
    + destruct (evict_ok c Hok) as (c1 & H1 & Hok1 & Hi1 & Hm1 & Hl1 & Hx1).
      { intros E. rewrite E in Ele. simpl in Ele. lia. }
      destruct (emplace_ok c1 t Hok1) as (c2 & H2 & Hok2 & Hi2).
      { destruct (index_ c1 !! t) eqn:E; [|done]. by rewrite (lookup_weaken _ _ _ _ E Hx1) in Hit. }
      { pose proof (ok_bound _ Hok). lia. }
      exists c2. unfold mbind, prog_bind. rewrite H1.
      split_and!; [done|done|congruence|]. by injection H2 as <-.
    + destruct (emplace_ok c t Hok Hit Ele) as (c2 & H2 & Hok2 & Hi2).
      exists c2. split_and!; [done..|]. by injection H2 as <-.
Qed.

(** What the first loop leaves to do, as assignments on the results. *)
Lemma lookup_texts_ok texts i results c :
  cache_ok c → i + length texts ≤ length results →
  ∃ c' rs ut ui, lookup_texts i texts results c = (Ret (rs, ut, ui), c') ∧ cache_ok c' ∧
    inner_ c' = inner_ c ∧ max_entries_ c' = max_entries_ c ∧
    length ui = length ut ∧ length rs = length results ∧ NoDup ui ∧ Forall (λ k, i ≤ k < i + length texts) ui ∧
    (∀ k, k < i → rs !! k = results !! k) ∧
    (∀ j t, texts !! j = Some t →
       (rs !! (i + j) = Some (e t) ∧ i + j ∉ ui) ∨ (i + j, t) ∈ zip ui ut).
Proof.
  revert i results c. induction texts as [|t texts IH]; intros i results c Hok Hlen.
  { exists c, results, [], []. split_and!; try done; try by constructor. }
  cbn [lookup_texts length] in *. unfold mbind, prog_bind.
  destruct (try_get_ok c t Hok) as (c1 & r & Hg & Hok1 & Hr & Hi1 & Hm1).
  rewrite Hg.
  destruct Hr as [-> | ->].
  - destruct (IH (S i) results c1 Hok1 ltac:(lia))
      as (c2 & rs & ut & ui & -> & Hok2 & Hi2 & Hm2 & Hl & Hlr & Hnd & Hge & Hlow & Hall).
    exists c2, rs, (t :: ut), (i :: ui). split_and!; try done; try congruence; csimpl.
    + by rewrite Hl.
    + apply NoDup_cons. split; [|done]. intros Hin.
      rewrite Forall_forall in Hge. specialize (Hge _ Hin). lia.
    + constructor; [lia|]. eapply Forall_impl; [done|]. simpl. lia.
    + intros k Hk. apply Hlow. lia.
    + intros [|j] t' Ht; csimpl in *.
      * injection Ht as <-. right. rewrite Nat.add_0_r. by left.
      * rewrite Nat.add_succ_r. destruct (Hall j t' Ht) as [[? Hni]|?]; [left|right; by right].
        split; [done|]. rewrite not_elem_of_cons. split; [lia|done].
  - destruct (IH (S i) (<[i := e t]> results) c1 Hok1 ltac:(rewrite length_insert; lia))
      as (c2 & rs & ut & ui & -> & Hok2 & Hi2 & Hm2 & Hl & Hlr & Hnd & Hge & Hlow & Hall).
    rewrite length_insert in Hlr.
    exists c2, rs, ut, ui. split_and!; try done; try congruence.
    + eapply Forall_impl; [done|]. simpl. lia.
    + intros k Hk. rewrite Hlow by lia. apply list_lookup_insert_ne. lia.
    + intros [|j] t' Ht; simpl in *.
      * injection Ht as <-. left. rewrite Nat.add_0_r. split.
        -- rewrite Hlow by lia. apply list_lookup_insert_eq. lia.
        -- intros Hin. rewrite Forall_forall in Hge. specialize (Hge _ Hin). lia.
      * rewrite Nat.add_succ_r. by apply Hall.
Qed.

Lemma store_computed_ok ui ut results c :
  cache_ok c → (1 ≤ max_entries_ c)%Z → NoDup ui → length ui = length ut →
  Forall (λ k, k < length results) ui →
  ∃ c' rs, store_computed (zip ui (zip ut (e <$> ut))) results c = (Ret rs, c') ∧ cache_ok c' ∧
    inner_ c' = inner_ c ∧ max_entries_ c' = max_entries_ c ∧ length rs = length results ∧
    (∀ k, k ∉ ui → rs !! k = results !! k) ∧
    (∀ k t, (k, t) ∈ zip ui ut → rs !! k = Some (e t)).
Proof.
  revert ut results c. induction ui as [|i ui IH]; intros [|t ut] results c Hok Hmax Hnd Hl Hb; try done.
  { exists c, results. split_and!; try done. by intros k t Hn%elem_of_nil. }
  csimpl. apply NoDup_cons in Hnd as [Hi Hnd]. apply Forall_cons in Hb as [Hbi Hb].
  destruct (put_ok c t Hok Hmax) as (c1 & H1 & Hok1 & Hi1 & Hm1).
  unfold mbind, prog_bind. rewrite H1.
  destruct (IH ut (<[i := e t]> results) c1) as (c2 & rs & -> & Hok2 & Hi2 & Hm2 & Hlr & Hout & Hin);
    [done|by rewrite Hm1|done|by injection Hl|by rewrite length_insert|].
  rewrite length_insert in Hlr. exists c2, rs. split_and!; try done; try congruence.
  - intros k [Hne Hk]%not_elem_of_cons. rewrite Hout by done. by apply list_lookup_insert_ne.
  - intros k t' [[= -> ->]|Hk]%elem_of_cons; [|by apply Hin].
    rewrite Hout by done. by apply list_lookup_insert_eq.
Qed.

(** The object is in order and has room for an entry. *)
Definition cache_inv (c : Caching P) : Prop := cache_ok c ∧ (1 ≤ max_entries_ c)%Z.

Lemma on_inner_ok {A} (m : prog P A) c r p :
  m (inner_ c) = (r, p) → I p → cache_inv c →
  ∃ c', on_inner m c = (r, c') ∧ cache_inv c' ∧ lru_ c' = lru_ c ∧ inner_ c' = p.
Proof.
  intros Hm Hp [[] Hmax]. unfold on_inner. rewrite Hm. eexists. split; [done|]. by repeat split.
Qed.

Lemma caching_embed_ok t c :
  cache_inv c → ∃ c', caching_embed t c = (Ret (e t), c') ∧ cache_inv c'.
Proof.
  intros [Hok Hmax]. unfold caching_embed, mbind, prog_bind.
  destruct (try_get_ok c t Hok) as (c1 & r & -> & Hok1 & Hr & Hi1 & Hm1).
  destruct Hr as [-> | ->]; [|by eexists; split_and!; [done|split; [done|lia]]].
  destruct (embed_ok t (inner_ c1) (ok_inner _ Hok1)) as (p & Hp & HI).
  destruct (on_inner_ok (embed t) c1 _ _ Hp HI) as (c2 & -> & [Hok2 Hmax2] & _);
    [split; [done|lia]|].
  destruct (put_ok c2 t Hok2 Hmax2) as (c3 & -> & Hok3 & _ & Hm3).
  exists c3. split; [done|]. split; [done|lia].
Qed.

Lemma caching_embed_batch_ok ts c :
  cache_inv c → ∃ c', caching_embed_batch ts c = (Ret (e <$> ts), c') ∧ cache_inv c'.
Proof.
  intros [Hok Hmax]. unfold caching_embed_batch, mbind, prog_bind.
  destruct (lookup_texts_ok ts 0 (replicate (length ts) []) c Hok)
    as (c1 & rs & ut & ui & -> & Hok1 & Hi1 & Hm1 & Hl & Hlr & Hnd & Hge & _ & Hall).
  { by rewrite length_replicate. }
  rewrite length_replicate in Hlr.
  assert (Forall (λ k, k < length rs) ui) as Hb.
  { eapply Forall_impl; [exact Hge|]. simpl. lia. }
  destruct ut as [|t0 ut0] eqn:Eut.
  - exists c1. split; [|split; [done|lia]]. unfold mret, prog_ret. do 2 f_equal. apply list_eq. intros j.
    destruct (ts !! j) as [t|] eqn:Ht; rewrite list_lookup_fmap, Ht; simpl.
    + destruct (Hall j t Ht) as [[? _]|Hz]; [done|]. by rewrite zip_with_nil_r in Hz; apply elem_of_nil in Hz.
    + apply lookup_ge_None. apply lookup_ge_None in Ht. lia.
  - rewrite <- Eut in *. clear t0 ut0 Eut.
    destruct (embed_batch_ok ut (inner_ c1) (ok_inner _ Hok1)) as (p & Hp & HI).
    destruct (on_inner_ok (embed_batch ut) c1 _ _ Hp HI) as (c2 & -> & [Hok2 Hmax2] & _);
      [split; [done|lia]|].
    rewrite decide_False by (rewrite length_fmap; lia).
    destruct (store_computed_ok ui ut rs c2)
      as (c3 & rs' & -> & Hok3 & _ & Hm3 & Hlr' & Hout & Hin); try done.
    exists c3. split; [|split; [done|lia]]. do 2 f_equal. apply list_eq. intros j.
    destruct (ts !! j) as [t|] eqn:Ht; rewrite list_lookup_fmap, Ht; simpl.
    + destruct (Hall j t Ht) as [[Hj Hni]|Hz]; [by rewrite Hout|by apply Hin].
    + apply lookup_ge_None. apply lookup_ge_None in Ht. lia.
Qed.

#[export] Instance caching_provider_ok : ProviderOk cache_inv e.
Proof. split; [apply caching_embed_ok|apply caching_embed_batch_ok]. Qed.

Lemma make_caching_inv p n : I p → (1 ≤ n)%Z → cache_inv (make_caching p n).
Proof.
  intros Hp Hn. split; [|done]. constructor; simpl; try done; try by constructor.
  - by intros m Hm%elem_of_nil.
  - lia.
  - by intros m t v Hm%elem_of_nil.
Qed.
End caching_ok.

Arguments cache_inv {P} I e c.
Arguments cache_ok {P} I e c.

(** A run of calls on the provider, in any order. *)
Inductive call := CEmbed (t : string) | CBatch (ts : list string).

Definition run_call {P} `{EmbeddingProvider P} (k : call) : prog P (list vec) :=
  match k with
  | CEmbed t => v ← embed t; mret [v]
  | CBatch ts => embed_batch ts
  end.

Fixpoint run_calls {P} `{EmbeddingProvider P} (ks : list call) : prog P (list (list vec)) :=
  match ks with
  | [] => mret []
  | k :: ks => r ← run_call k; rs ← run_calls ks; mret (r :: rs)
  end.

Definition call_answer (e : string → vec) (k : call) : list vec :=
  match k with CEmbed t => [e t] | CBatch ts => e <$> ts end.

(** A provider in order answers every run of calls by its function. *)
Lemma run_calls_ok {P} `{EmbeddingProvider P} (I : P → Prop) (e : string → vec) `{!ProviderOk I e} ks p :
  I p → ∃ p', run_calls ks p = (Ret (call_answer e <$> ks), p') ∧ I p'.
Proof.
  revert p. induction ks as [|k ks IH]; intros p Hp; simpl; [by exists p|].
  assert (∃ p1, run_call k p = (Ret (call_answer e k), p1) ∧ I p1) as (p1 & H1 & Hp1).
  { destruct k as [t|ts]; simpl; [|by apply embed_batch_ok].
    destruct (embed_ok t p Hp) as (p1 & H1 & Hp1). exists p1. by rewrite (prog_bind_ret _ _ _ _ _ H1). }
  destruct (IH p1 Hp1) as (p2 & H2 & Hp2). exists p2. split; [|done].
  rewrite (prog_bind_ret _ _ _ _ _ H1). by rewrite (prog_bind_ret _ _ _ _ _ H2).
Qed.

(** C26: caching is invisible: over a provider that embeds by a function [e],
    every sequence of calls on a [CachingEmbeddingProvider] with room for at
    least one entry gives the answers of [e], whatever the hits, misses,
    evictions and repeated texts in a batch; no iterator of the index ever
    dangles; and afterwards the cache holds at most [max_entries] texts, each
    once, with its own vector, the index naming exactly these. *)
Theorem caching_transparent {P} `{EmbeddingProvider P} (I : P → Prop) (e : string → vec)
    `{!ProviderOk I e} (p : P) (max_entries : Z) (ks : list call) :
  I p → (1 ≤ max_entries)%Z →
  ∃ c', run_calls ks (make_caching p max_entries) = (Ret (call_answer e <$> ks), c') ∧
    cache_ok I e c'.
Proof.
  intros Hp Hn. pose proof (make_caching_inv I e p max_entries Hp Hn) as Hc.
  destruct (run_calls_ok (cache_inv I e) e ks _ Hc) as (c' & ? & [? _]). by exists c'.
Qed.

(** A provider that counts its calls and embeds a text as its length. *)
Definition length_vec (t : string) : vec := [Z.of_nat (String.length t)].

#[export] Instance length_provider : EmbeddingProvider nat := {|
  prov_init := mret tt;
  embed t := λ n, (Ret (length_vec t), S n);
  embed_batch ts := λ n, (Ret (length_vec <$> ts), S n);
  prov_dimensions _ := 1%Z;
  prov_name _ := "length";
|}.

#[export] Instance length_provider_ok : ProviderOk (λ _ : nat, True) length_vec.
Proof. split; intros; by eexists. Qed.

Lemma caching_transparent_witness :
  ∃ c', run_calls [CBatch ["a"; "bb"; "a"]; CEmbed "a"; CEmbed "ccc"; CBatch ["bb"; "a"]]
          (make_caching 0 1)
        = (Ret (call_answer length_vec <$>
                  [CBatch ["a"; "bb"; "a"]; CEmbed "a"; CEmbed "ccc"; CBatch ["bb"; "a"]]), c') ∧
    cache_ok (λ _, True) length_vec c'.
Proof. apply (caching_transparent (λ _ : nat, True) length_vec 0 1); [done|lia]. Defined.

(** A failure is cached like a success.  The providers report a failed
    embedding as an empty vector; once the cache has seen one for a text, the
    next call for that text answers with the empty vector again without asking
    the provider, whatever the provider would answer now. *)
Theorem failed_embedding_is_cached {P} `{EmbeddingProvider P} (p p' : P) (t : string) (n : Z) :
  embed t p = (Ret [], p') → (1 ≤ n)%Z →
  ∃ c', (caching_embed t ;; caching_embed t) (make_caching p n) = (Ret [], c') ∧ inner_ c' = p'.
Proof.
  intros He Hn.
  assert (∃ c1, caching_embed t (make_caching p n) = (Ret [], c1) ∧ inner_ c1 = p' ∧
    index_ c1 !! t = Some 0 ∧ lru_ c1 = [(0, (t, []))]) as (c1 & H1 & Hi & Hx & Hl).
  { unfold caching_embed, mbind, prog_bind, try_get. cbn [make_caching index_].
    rewrite lookup_empty. unfold on_inner. cbn [inner_ make_caching]. rewrite He.
    unfold put. cbn [index_ max_entries_ make_caching]. rewrite lookup_empty, map_size_empty.
    rewrite (proj2 (Z.leb_gt _ _)) by (simpl; lia). eexists. split; [done|].
    split_and!; [done| |done]. by apply lookup_insert_eq. }
  rewrite (prog_bind_ret _ _ _ _ _ H1). unfold caching_embed, mbind, prog_bind, try_get.
  rewrite Hx. unfold mbind, prog_bind, touch. rewrite Hl. simpl. by eexists.
Qed.

(** A provider that fails once. *)
Definition flaky_provider : EmbeddingProvider nat := {|
  prov_init := mret tt;
  embed t := λ n, (Ret (if decide (n = 0) then [] else length_vec t), S n);
  embed_batch ts := λ n, (Ret (length_vec <$> ts), S n);
  prov_dimensions _ := 1%Z;
  prov_name _ := "flaky";
|}.

Lemma failed_embedding_is_cached_witness :
  ∃ c', (caching_embed (H := flaky_provider) "a" ;; caching_embed (H := flaky_provider) "a")
          (make_caching 0 16) = (Ret [], c') ∧ inner_ c' = 1.
Proof. apply (failed_embedding_is_cached (H := flaky_provider) 0 1 "a" 16); [reflexivity|lia]. Defined.
