(* ===== verification/SinkBatch.v ===== *)
(** * [src/batch_event.hpp] and the batch processing the embedding sinks share

    [PgEmbeddingSink], [QdrantSink] and [MilvusSink] each have their own copy
    of [get_column], [is_toast], [prepare_upsert] and [call_batch]; the copies
    differ in their log texts only, so there is one definition here, over the
    three operations in which the sinks do differ ([SinkOps]).  The provider
    and the store a sink writes to are two components of its state. *)

From S2P Require Import Prelude Event Config EmbeddingProvider.
From Stdlib Require Import Lia.

(** ** Batches *)

Inductive BatchKind := Upsert | Delete | Truncate.

Record BatchEvent := {
  kind : BatchKind;
  tm : TableMapping;
  id_val : string;
  embed_val : string;
  meta_vals : list string;
}.

Abbreviation Batch := (list BatchEvent).

(** The virtual operations of an embedding sink on its store: whether the
    write was accepted. *)
Record SinkOps (D : Type) := {
  upsert : TableMapping → string → string → list string → vec → prog D bool;
  remove : TableMapping → string → prog D bool;
  truncate : TableMapping → prog D bool;
}.
Arguments upsert {D}. Arguments remove {D}. Arguments truncate {D}.

(** ** Reading a row *)

Fixpoint find_column (cols : list ColumnValue) (name : string) : option ColumnValue :=
  match cols with
  | [] => None
  | c :: cols => if bool_decide (cv_name c = name) then Some c else find_column cols name
  end.

Definition get_column (row : DecodedRow) (col_name : string) : string :=
  match find_column (columns row) col_name with
  | Some col => if is_null col || is_unchanged_toast col then "" else text_value col
  | None => ""
  end.

Definition is_toast (row : DecodedRow) (col_name : string) : bool :=
  match find_column (columns row) col_name with
  | Some col => is_unchanged_toast col
  | None => false
  end.

(** The columns of a mapping with the role "metadata". *)
Definition metadata_columns (t : TableMapping) : list ColumnMapping :=
  filter (λ m, role m = "metadata") (tm_columns t).

(** Whether an update leaves the embedded column alone. *)
Definition embed_unchanged (t : TableMapping) (event : ChangeEvent) (new_row : DecodedRow) : bool :=
  is_toast new_row (embed_source_ t) ||
  match old_row event with
  | Some old_row =>
      let old_val := get_column old_row (embed_source_ t) in
      negb (str_empty old_val) && bool_decide (old_val = get_column new_row (embed_source_ t))
  | None => false
  end.

Definition prepare_upsert (t : TableMapping) (event : ChangeEvent) : option BatchEvent :=
  match new_row event with
  | None => None
  | Some new_row =>
      let id_val := get_column new_row (id_source_ t) in
      let embed_val := get_column new_row (embed_source_ t) in
      if bool_decide (op event = OpUpdate) && embed_unchanged t event new_row then None
      else if str_empty id_val || str_empty embed_val then None
      else Some {| kind := Upsert; tm := t; id_val := id_val; embed_val := embed_val;
                   meta_vals := (λ m, get_column new_row (source_column m)) <$> metadata_columns t |}
  end.

(** [for (m : config_.mappings) if (m.source_table == event.table_name) ...] *)
Definition find_mapping (mappings : list TableMapping) (table : string) : option TableMapping :=
  head (filter (λ m, source_table m = table) mappings).

(** ** The two passes of [call_batch] *)

(** One turn of pass 1. *)
Definition prepare (mappings : list TableMapping) (event : ChangeEvent) : option BatchEvent :=
  if bool_decide (op event = OpCommit) then None
  else match find_mapping mappings (table_name event) with
  | None => None
  | Some t =>
      match op event with
      | OpInsert | OpUpdate => prepare_upsert t event
      | OpDelete =>
          match old_row event with
          | None => None
          | Some old_row =>
              let id := get_column old_row (id_source_ t) in
              if str_empty id then None
              else Some {| kind := Delete; tm := t; id_val := id; embed_val := ""; meta_vals := [] |}
          end
      | OpTruncate =>
          Some {| kind := Truncate; tm := t; id_val := ""; embed_val := ""; meta_vals := [] |}
      | OpCommit => None
      end
  end.

Definition is_upsert (be : BatchEvent) : bool :=
  match kind be with Upsert => true | _ => false end.

Section call_batch.
Context {P D : Type} `{EmbeddingProvider P} (ops : SinkOps D) (mappings : list TableMapping).

(** Pass 2: [vectors] are those not yet used; indexing past the end of a
    [std::vector] is undefined.  What the operations return is ignored. *)
Fixpoint apply_batch (batch : Batch) (vectors : list vec) : prog D unit :=
  match batch with
  | [] => mret tt
  | be :: batch =>
      match kind be with
      | Upsert =>
          match vectors with
          | [] => undefined "vectors[vec_idx] out of range"
          | [] :: vectors => apply_batch batch vectors
          | v :: vectors =>
              upsert ops (tm be) (id_val be) (embed_val be) (meta_vals be) v ;;
              apply_batch batch vectors
          end
      | Delete => remove ops (tm be) (id_val be) ;; apply_batch batch vectors
      | Truncate => truncate ops (tm be) ;; apply_batch batch vectors
      end
  end.

Definition sink_call_batch (events : list ChangeEvent) : prog (P * D) unit :=
  let batch := omap (prepare mappings) events in
  match batch with
  | [] => mret tt
  | _ =>
      let texts_to_embed := embed_val <$> filter is_upsert batch in
      match texts_to_embed with
      | [] => on_snd (apply_batch batch [])
      | _ =>
          vectors ← on_fst (embed_batch texts_to_embed);
          if decide (length vectors ≠ length texts_to_embed) then mret tt
          else on_snd (apply_batch batch vectors)
      end
  end.

(** [call(event)]: [call_batch({event})] *)
Definition sink_call (event : ChangeEvent) : prog (P * D) unit := sink_call_batch [event].
End call_batch.

(** ** One event after the other: the reference *)

Section reference.
Context {D : Type} (ops : SinkOps D) (mappings : list TableMapping) (e : string → vec).

(** What a single prepared event does, given the embedding function. *)
Definition apply_one (be : BatchEvent) : prog D unit :=
  match kind be with
  | Upsert =>
      match e (embed_val be) with
      | [] => mret tt
      | v => upsert ops (tm be) (id_val be) (embed_val be) (meta_vals be) v ;; mret tt
      end
  | Delete => remove ops (tm be) (id_val be) ;; mret tt
  | Truncate => truncate ops (tm be) ;; mret tt
  end.

Definition apply_event (event : ChangeEvent) : prog D unit :=
  match prepare mappings event with
  | Some be => apply_one be
  | None => mret tt
  end.
End reference.

Section two_pass.
Context {P D : Type} `{EmbeddingProvider P} (I : P → Prop) (e : string → vec) `{!ProviderOk I e}.
Context (ops : SinkOps D) (mappings : list TableMapping).

Lemma apply_batch_one batch d :
  apply_batch ops batch (e <$> (embed_val <$> filter is_upsert batch)) d =
  for_each batch (apply_one ops e) d.
Proof.
  revert d. induction batch as [|be batch IH]; intros d; [done|]. cbn [apply_batch for_each].
  assert (apply_one ops e be d = match kind be with
    | Upsert => match e (embed_val be) with [] => mret tt
                | v => upsert ops (tm be) (id_val be) (embed_val be) (meta_vals be) v ;; mret tt end
    | Delete => remove ops (tm be) (id_val be) ;; mret tt
    | Truncate => truncate ops (tm be) ;; mret tt end d) as E by done.
  unfold mbind at 4, prog_bind at 4. rewrite E. clear E.
  destruct (kind be) eqn:Ek; unfold mbind, prog_bind.
  - rewrite filter_cons_True by (unfold is_upsert; by rewrite Ek). csimpl.
    destruct (e (embed_val be)) as [|x v]; [apply IH|].
    by destruct (upsert _ _ _ _ _ _ _) as [[| | |] ?]; [apply IH|..].
  - rewrite filter_cons_False by (unfold is_upsert; rewrite Ek; auto).
    by destruct (remove _ _ _ _) as [[| | |] ?]; [apply IH|..].
  - rewrite filter_cons_False by (unfold is_upsert; rewrite Ek; auto).
    by destruct (truncate _ _ _) as [[| | |] ?]; [apply IH|..].
Qed.

Lemma for_each_prepare events d :
  for_each (omap (prepare mappings) events) (apply_one ops e) d =
  for_each events (apply_event ops mappings e) d.
Proof.
  revert d. induction events as [|ev events IH]; intros d; [done|]. csimpl.
  assert (apply_event ops mappings e ev d = match prepare mappings ev with
    | Some be => apply_one ops e be | None => mret tt end d) as E by done.
  destruct (prepare mappings ev) as [be|]; csimpl; unfold mbind, prog_bind; rewrite E.
  - by destruct (apply_one _ _ _ _) as [[| | |] ?]; [apply IH|..].
  - apply IH.
Qed.

Lemma sink_call_batch_seq events p d :
  I p →
  ∃ p', I p' ∧ sink_call_batch ops mappings events (p, d) =
    let '(r, d') := for_each events (apply_event ops mappings e) d in (r, (p', d')).
Proof.
  intros Hp. unfold sink_call_batch. rewrite <- for_each_prepare.
  destruct (omap (prepare mappings) events) as [|be batch] eqn:Eb; [by exists p|].
  rewrite <- Eb. clear be batch Eb. set (batch := omap _ _). rewrite <- (apply_batch_one batch).
  destruct (embed_val <$> filter is_upsert batch) as [|t ts] eqn:Et; [by exists p|].
  rewrite <- Et. destruct (embed_batch_ok (embed_val <$> filter is_upsert batch) p Hp) as (p' & Hb & Hp').
  exists p'. split; [done|]. unfold mbind, prog_bind, on_fst. cbn [fst snd]. rewrite Hb.
  rewrite decide_False by (rewrite length_fmap; auto). unfold on_snd. done.
Qed.
End two_pass.


(** A mapping and events on it, for the witnesses. *)
Module Sample.
Definition col (n r : string) : ColumnMapping :=
  {| source_column := n; sink_column := n +:+ "_s"; role := r |}.
Definition mapping : TableMapping :=
  {| source_table := "docs"; tm_columns := [col "id" "id"; col "body" "embed"; col "lang" "metadata"];
     id_source_ := "id"; id_sink_ := "id_s"; embed_source_ := "body"; embed_sink_ := "body_s";
     has_discriminator_ := true; discriminator_sink_ := "kind"; discriminator_label_ := "docs" |}.
Definition value (n v : string) : ColumnValue :=
  {| cv_name := n; is_null := false; is_unchanged_toast := false; text_value := v |}.
Definition row (id body lang : string) : DecodedRow :=
  {| row_schema := "public"; row_table := "docs"; row_kind := TUpdateNew;
     columns := [value "id" id; value "body" body; value "lang" lang] |}.
Definition event (o : Op) (old new : option DecodedRow) : ChangeEvent :=
  {| op := o; schema_name := "public"; table_name := "docs"; old_row := old; new_row := new;
     commit_lsn := 1; commit_timestamp := 0 |}.
Definition insert (id body : string) : ChangeEvent := event OpInsert None (Some (row id body "en")).
Definition delete (id : string) : ChangeEvent := event OpDelete (Some (row id "" "")) None.

(** A store that lists the writes and refuses none. *)
Definition log_ops : SinkOps (list (string * string * vec)) :=
  {| upsert := λ _ id t _ v d, (Ret true, d ++ [(id, t, v)]);
     remove := λ _ id d, (Ret true, d ++ [(id, "", [])]);
     truncate := λ _ d, (Ret true, d ++ [("", "", [])]) |}.
End Sample.


(** ** What pass 1 keeps and drops *)

(** A value the sinks can use: present, not NULL, not an unchanged TOAST
    value, not empty. *)
Definition usable (row : DecodedRow) (col : string) (v : string) : Prop :=
  v ≠ "" ∧ get_column row col = v.

(** Exactly the events that carry enough to upsert are upserted: an
    insert or update becomes an upsert if and only if it has a new row with a
    usable id and a usable text, and, for an update, the text is neither an
    unchanged TOAST value nor equal to a non-empty old text; the upsert then
    carries these values and one metadata value per metadata column. *)
Theorem prepare_upsert_spec (t : TableMapping) (event : ChangeEvent) (be : BatchEvent) :
  prepare_upsert t event = Some be ↔
  ∃ row id text, new_row event = Some row ∧
    usable row (id_source_ t) id ∧ usable row (embed_source_ t) text ∧
    (op event = OpUpdate → is_toast row (embed_source_ t) = false ∧
       ∀ old, old_row event = Some old → get_column old (embed_source_ t) ≠ text) ∧
    be = {| kind := Upsert; tm := t; id_val := id; embed_val := text;
            meta_vals := (λ m, get_column row (source_column m)) <$> metadata_columns t |}.
Proof.
  unfold prepare_upsert, usable. destruct (new_row event) as [row|]; [|by split; [|intros (? & ? & ? & ? & _)]].
  set (id := get_column row (id_source_ t)). set (text := get_column row (embed_source_ t)).
  assert (text ≠ "" → bool_decide (op event = OpUpdate) && embed_unchanged t event row = false ↔
    (op event = OpUpdate → is_toast row (embed_source_ t) = false ∧
       ∀ old, old_row event = Some old → get_column old (embed_source_ t) ≠ text)) as Hch.
  { intros Hne. rewrite andb_false_iff, bool_decide_eq_false. unfold embed_unchanged. fold text.
    rewrite orb_false_iff. destruct (old_row event) as [old|];
      [|destruct (decide (op event = OpUpdate)); naive_solver].
    rewrite andb_false_iff, negb_false_iff, str_empty_true, bool_decide_eq_false.
    destruct (decide (op event = OpUpdate)) as [E|E]; [|naive_solver].
    split.
    - intros [?|[? [H1|H1]]] _; [done|..]; (split; [done|]); intros ? [= <-]; congruence.
    - intros Hx. right. split; [by apply Hx|]. right. by apply Hx. }
  split.
  - destruct (_ && _) eqn:E1; [done|]. destruct (_ || _) eqn:E2; [done|].
    apply orb_false_iff in E2 as [?%str_empty_false Ht%str_empty_false]. intros [= <-].
    exists row, id, text. split_and!; try done. by apply Hch.
  - intros (row' & id' & text' & [= <-] & [Hid <-] & [Ht <-] & Hup & ->).
    rewrite (proj2 (Hch Ht) Hup). fold id text.
    rewrite (proj2 (str_empty_false id) Hid), (proj2 (str_empty_false text) Ht). done.
Qed.

(** An update that does not touch the embedded column is dropped as a
    whole, so a change of a metadata column alone never reaches the sink. *)
Theorem metadata_only_update_dropped (t : TableMapping) (event : ChangeEvent) (old new : DecodedRow) :
  op event = OpUpdate → old_row event = Some old → new_row event = Some new →
  get_column old (embed_source_ t) = get_column new (embed_source_ t) →
  prepare_upsert t event = None.
Proof.
  intros Hop Hold Hnew Heq. unfold prepare_upsert, embed_unchanged. rewrite Hnew, Hold, Hop.
  rewrite Heq. set (text := get_column new (embed_source_ t)).
  destruct (str_empty text) eqn:E; [by rewrite orb_true_r; case_match|].
  by rewrite !bool_decide_true, orb_true_r by done.
Qed.

Lemma metadata_only_update_dropped_witness :
  prepare_upsert Sample.mapping
    (Sample.event OpUpdate (Some (Sample.row "1" "one" "en")) (Some (Sample.row "1" "one" "de"))) = None.
Proof.
  apply (metadata_only_update_dropped Sample.mapping _ (Sample.row "1" "one" "en")
    (Sample.row "1" "one" "de")); reflexivity.
Defined.

(** ** Refused writes *)

(** The operations report a refused write by returning [false]; they do not
    throw. *)
Definition never_throws {D} (ops : SinkOps D) : Prop :=
  (∀ t id tx ms v d, is_ret (upsert ops t id tx ms v d).1 = true) ∧
  (∀ t id d, is_ret (remove ops t id d).1 = true) ∧
  (∀ t d, is_ret (truncate ops t d).1 = true).

Lemma apply_one_returns {D} (ops : SinkOps D) e be d :
  never_throws ops → (apply_one ops e be d).1 = Ret tt.
Proof.
  intros (Hu & Hr & Ht). unfold apply_one, mbind, prog_bind.
  destruct (kind be); [destruct (e (embed_val be)) as [|x v]; [done|]|..].
  - specialize (Hu (tm be) (id_val be) (embed_val be) (meta_vals be) (x :: v) d).
    by destruct (upsert _ _ _ _ _ _ _) as [[| | |] ?].
  - specialize (Hr (tm be) (id_val be) d). by destruct (remove _ _ _ _) as [[| | |] ?].
  - specialize (Ht (tm be) d). by destruct (truncate _ _ _) as [[| | |] ?].
Qed.

Lemma apply_events_return {D} (ops : SinkOps D) mappings e events d :
  never_throws ops → ∃ d', for_each events (apply_event ops mappings e) d = (Ret tt, d').
Proof.
  intros Hn. revert d. induction events as [|ev events IH]; intros d; simpl; [by eauto|].
  unfold mbind, prog_bind.
  assert (∃ d', apply_event ops mappings e ev d = (Ret tt, d')) as [d' ->]; [|apply IH].
  unfold apply_event. destruct (prepare mappings ev) as [be|]; [|by eauto].
  pose proof (apply_one_returns ops e be d Hn).
  destruct (apply_one ops e be d) as [r d']; simpl in *; subst; eauto.
Qed.

(** C40: a sink never tells the dispatcher that a write was refused: as long
    as the operations report failure by [false] rather than by an exception,
    [call_batch] returns normally, so the dispatcher neither retries the batch
    nor withholds its LSN. *)
Theorem refused_writes_not_reported {P D} `{EmbeddingProvider P} (I : P → Prop) (e : string → vec)
    `{!ProviderOk I e} (ops : SinkOps D) (mappings : list TableMapping)
    (events : list ChangeEvent) (p : P) (d : D) :
  never_throws ops → I p → (sink_call_batch ops mappings events (p, d)).1 = Ret tt.
Proof.
  intros Hn Hp. destruct (apply_events_return ops mappings e events d Hn) as [d' Hd].
  destruct (sink_call_batch_seq I e ops mappings events p d Hp) as (p' & _ & ->). by rewrite Hd.
Qed.

(** A store that refuses every write. *)
Definition refusing_ops : SinkOps unit :=
  {| upsert := λ _ _ _ _ _ d, (Ret false, d); remove := λ _ _ d, (Ret false, d);
     truncate := λ _ d, (Ret false, d) |}.

Lemma refused_writes_not_reported_witness :
  (sink_call_batch refusing_ops [Sample.mapping] [Sample.insert "1" "one"] (0, tt)).1 = Ret tt.
Proof. by apply (refused_writes_not_reported (λ _ : nat, True) length_vec). Defined.

(** ** The store a sink promises *)

(** A sink over a store that accepts its writes keeps a table: [key_of] names
    the row of a source id, [row_of] is what an upsert writes there, [merge]
    what is left of the row it finds, and [removed] and [truncated] say which
    rows a delete and a truncate take away. *)
Class StoreOk {D K R} `{Countable K} (ops : SinkOps D) (mappings : list TableMapping)
    (J : D → Prop) (view : D → gmap K R) (key_of : TableMapping → string → K)
    (row_of : TableMapping → string → string → list string → vec → R) (merge : R → R → R)
    (removed : TableMapping → string → K * R → bool) (truncated : TableMapping → K * R → bool) := {
  store_upsert : ∀ t id tx ms v d, t ∈ mappings → J d → id ≠ "" →
    length ms = length (metadata_columns t) →
    ∃ d', upsert ops t id tx ms v d = (Ret true, d') ∧ J d' ∧
      view d' = partial_alter (λ o, Some (from_option (merge (row_of t id tx ms v))
                                            (row_of t id tx ms v) o)) (key_of t id) (view d);
  store_remove : ∀ t id d, t ∈ mappings → J d → id ≠ "" →
    ∃ d', remove ops t id d = (Ret true, d') ∧ J d' ∧
      view d' = filter (λ kr, removed t id kr = false) (view d);
  store_truncate : ∀ t d, t ∈ mappings → J d →
    ∃ d', truncate ops t d = (Ret true, d') ∧ J d' ∧
      view d' = filter (λ kr, truncated t kr = false) (view d);
}.

Section store.
Context {K R : Type} `{Countable K}.
Context (mappings : list TableMapping) (e : string → vec).
Context (key_of : TableMapping → string → K).
Context (row_of : TableMapping → string → string → list string → vec → R) (merge : R → R → R).
Context (removed : TableMapping → string → K * R → bool) (truncated : TableMapping → K * R → bool).

(** What one change of the source means for the table. *)
Definition table_step (m : gmap K R) (event : ChangeEvent) : gmap K R :=
  match prepare mappings event with
  | None => m
  | Some be =>
      match kind be with
      | Upsert =>
          match e (embed_val be) with
          | [] => m
          | v => let r := row_of (tm be) (id_val be) (embed_val be) (meta_vals be) v in
                 partial_alter (λ o, Some (from_option (merge r) r o)) (key_of (tm be) (id_val be)) m
          end
      | Delete => filter (λ kr, removed (tm be) (id_val be) kr = false) m
      | Truncate => filter (λ kr, truncated (tm be) kr = false) m
      end
  end.

Lemma find_mapping_in table t : find_mapping mappings table = Some t → t ∈ mappings.
Proof.
  unfold find_mapping. intros Hh. destruct (filter _ mappings) as [|t' l] eqn:E; [done|].
  injection Hh as ->. assert (t ∈ filter (λ m, source_table m = table) mappings) as Hin
    by (rewrite E; left). by apply list_elem_of_filter in Hin as [_ ?].
Qed.

(** What pass 1 guarantees about the batch events it produces. *)
Lemma prepare_ok event be :
  prepare mappings event = Some be →
  tm be ∈ mappings ∧ (kind be ≠ Truncate → id_val be ≠ "") ∧
  (kind be = Upsert → length (meta_vals be) = length (metadata_columns (tm be))).
Proof.
  unfold prepare. case_bool_decide; [done|].
  destruct (find_mapping _ _) as [t|] eqn:Ef; [|done]. apply find_mapping_in in Ef.
  destruct (op event); try done.
  1-2: intros Hp; unfold prepare_upsert in Hp; destruct (new_row event); [|done];
    destruct (_ && _); [done|]; destruct (_ || _) eqn:E2; [done|];
    apply orb_false_iff in E2 as [?%str_empty_false _]; injection Hp as <-; simpl;
    rewrite length_fmap; done.
  - destruct (old_row event); [|done]. destruct (str_empty _) eqn:E; [done|].
    apply str_empty_false in E. intros [= <-]. done.
  - intros [= <-]. done.
Qed.

Lemma apply_event_store {D} (ops : SinkOps D) (J : D → Prop) (view : D → gmap K R)
    `{!StoreOk ops mappings J view key_of row_of merge removed truncated} event d :
  J d → ∃ d', apply_event ops mappings e event d = (Ret tt, d') ∧ J d' ∧
    view d' = table_step (view d) event.
Proof.
  intros HJ. unfold apply_event, table_step.
  destruct (prepare mappings event) as [be|] eqn:Hp; [|by exists d].
  destruct (prepare_ok event be Hp) as (Ht & Hid & Hml). unfold apply_one, mbind, prog_bind.
  destruct (kind be) eqn:Ek.
  - destruct (e (embed_val be)) as [|x v]; [by exists d|].
    destruct (store_upsert (tm be) (id_val be) (embed_val be) (meta_vals be) (x :: v) d)
      as (d' & -> & ? & ?); auto. by exists d'.
  - destruct (store_remove (tm be) (id_val be) d) as (d' & -> & ? & ?); auto. by exists d'.
  - destruct (store_truncate (tm be) d) as (d' & -> & ? & ?); auto. by exists d'.
Qed.

Lemma call_batch_store {P D} `{EmbeddingProvider P} (I : P → Prop) `{!ProviderOk I e}
    (ops : SinkOps D) (J : D → Prop) (view : D → gmap K R)
    `{!StoreOk ops mappings J view key_of row_of merge removed truncated} events p d :
  I p → J d → ∃ p' d', sink_call_batch ops mappings events (p, d) = (Ret tt, (p', d')) ∧
    I p' ∧ J d' ∧ view d' = foldl table_step (view d) events.
Proof.
  intros Hp HJ.
  assert (∃ d', for_each events (apply_event ops mappings e) d = (Ret tt, d') ∧ J d' ∧
    view d' = foldl table_step (view d) events) as (d' & Hd & HJ' & Hv).
  { clear Hp. revert d HJ. induction events as [|ev events IH]; intros d HJ; simpl; [by exists d|].
    destruct (apply_event_store ops J view ev d HJ) as (d1 & H1 & HJ1 & Hv1).
    destruct (IH d1 HJ1) as (d2 & H2 & HJ2 & Hv2). exists d2.
    rewrite (prog_bind_ret _ _ _ _ _ H1), H2, Hv2, Hv1. done. }
  destruct (sink_call_batch_seq I e ops mappings events p d Hp) as (p' & Hp' & ->).
  rewrite Hd. by exists p', d'.
Qed.

(** *** Replays

    On a single row, an event does nothing, replaces what is there, or merges
    something into it; such effects compose, and doing one twice is doing it
    once. *)
Context (removed_key : TableMapping → string → K → bool) (truncated_key : TableMapping → K → bool).
Context (Hrk : ∀ t id k r, removed t id (k, r) = removed_key t id k).
Context (Htk : ∀ t k r, truncated t (k, r) = truncated_key t k).
Context (Hassoc : Assoc (=) merge) (Hidem : IdemP (=) merge).

Inductive effect := Keep | Replace (o : option R) | Merge (a : R).

Definition on_row (f : effect) (o : option R) : option R :=
  match f with
  | Keep => o
  | Replace o' => o'
  | Merge a => Some (from_option (merge a) a o)
  end.

Definition after (g f : effect) : effect :=
  match g, f with
  | Keep, _ => f
  | Replace o, _ => Replace o
  | Merge a, Keep => Merge a
  | Merge a, Replace o => Replace (on_row (Merge a) o)
  | Merge a, Merge b => Merge (merge a b)
  end.

Lemma on_row_after g f o : on_row (after g f) o = on_row g (on_row f o).
Proof. destruct g, f; simpl; try done. destruct o; simpl; [|done]. by rewrite (assoc merge). Qed.

Lemma on_row_idemp f o : on_row f (on_row f o) = on_row f o.
Proof.
  destruct f as [| |a]; simpl; try done. destruct o as [b|]; simpl; f_equal; [|apply (idemp merge)].
  by rewrite (assoc merge), (idemp merge).
Qed.

Lemma table_step_effect event k : ∃ f, ∀ m, table_step m event !! k = on_row f (m !! k).
Proof.
  unfold table_step. destruct (prepare mappings event) as [be|]; [|by exists Keep].
  assert (∀ p : K * R → bool, ∀ b, (∀ r, p (k, r) = b) →
    ∃ f, ∀ m : gmap K R, filter (λ kr, p kr = false) m !! k = on_row f (m !! k)) as Hfil.
  { intros p b Hp. exists (if b then Replace None else Keep). intros m.
    rewrite map_lookup_filter. destruct (m !! k) as [r|]; simpl; [|by destruct b].
    specialize (Hp r). destruct b; simpl.
    - by rewrite option_guard_False by congruence.
    - by rewrite option_guard_True. }
  destruct (kind be); [|by eapply Hfil, Hrk|by eapply Hfil, Htk].
  destruct (e (embed_val be)) as [|x v]; [by exists Keep|].
  set (r := row_of _ _ _ _ _). destruct (decide (key_of (tm be) (id_val be) = k)) as [<-|Hne].
  - exists (Merge r). intros m. by rewrite lookup_partial_alter_eq.
  - exists Keep. intros m. by rewrite lookup_partial_alter_ne.
Qed.

Lemma table_run_effect events k : ∃ f, ∀ m, foldl table_step m events !! k = on_row f (m !! k).
Proof.
  induction events as [|ev events [g IH]] using rev_ind; [by exists Keep|].
  destruct (table_step_effect ev k) as [f Hf]. exists (after f g). intros m.
  by rewrite foldl_app, on_row_after, <- IH, <- Hf.
Qed.

Lemma table_replay m events :
  foldl table_step (foldl table_step m events) events = foldl table_step m events.
Proof.
  apply map_eq. intros k. destruct (table_run_effect events k) as [f Hf].
  rewrite !Hf. apply on_row_idemp.
Qed.
End store.
