(* ===== verification/Libpq.v ===== *)
(** * What the program uses of libpq

    PostgreSQL and libpq are not part of the program: a server is a state [S]
    with the operations of the class [Libpq], and nothing is known about it but
    what a theorem assumes.  A C string ends at its first NUL, so texts and
    parameters reach the server through [c_str]. *)

From S2P Require Import Prelude.

(** [PQresultStatus] with the tuples of the result, or the error message. *)
Inductive PGresult :=
| TuplesOk (rows : list (list (option string)))
| CommandOk
| CopyBoth
| Failed (err : string).

(** The calls do not throw.  [pq_connect] gives the error message of a
    connection that failed. *)
Class Libpq (S : Type) := {
  pq_connect : string → S → option string * S;
  pq_exec : string → S → PGresult * S;
  pq_exec_params : string → list string → S → PGresult * S;
}.

(** A library call as a step of a program. *)
Definition lib {S A} (f : S → A * S) : prog S A := λ s, let '(a, s') := f s in (Ret a, s').

Definition PQconnectdb `{Libpq Srv} (conninfo : string) : prog Srv (option string) :=
  lib (pq_connect (c_str conninfo)).
Definition PQexec `{Libpq Srv} (sql : string) : prog Srv PGresult := lib (pq_exec (c_str sql)).
Definition PQexecParams `{Libpq Srv} (sql : string) (params : list string) : prog Srv PGresult :=
  lib (pq_exec_params (c_str sql) (c_str <$> params)).

Definition is_command_ok (r : PGresult) : bool :=
  match r with CommandOk => true | _ => false end.

(** The message libpq gives for a result that is not the one wanted. *)
Definition pq_error (r : PGresult) : string :=
  match r with Failed err => err | _ => "" end.

(** [std::string(PQgetvalue(res, row, col))]: NULL reads as the empty string,
    and a cell that is not there as a null pointer. *)
Definition PQgetvalue (rows : list (list (option string))) (row col : nat) : outcome string :=
  match rows !! row ≫= (.!! col) with
  | Some v => Ret (default "" v)
  | None => UB "null pointer from PQgetvalue"
  end.

(** [std::atoi] on a value that fits an [int]. *)
Fixpoint atoi_digits (acc : Z) (s : string) : Z :=
  match s with
  | String a s' =>
      let d := (byte_val a - 48)%Z in
      if (0 <=? d)%Z && (d <=? 9)%Z then atoi_digits (acc * 10 + d) s' else acc
  | EmptyString => acc
  end.

(** [isspace] in the C locale. *)
Definition is_space (a : ascii) : bool :=
  let b := byte_val a in (b =? 32)%Z || ((9 <=? b)%Z && (b <=? 13)%Z).

Fixpoint skip_spaces (s : string) : string :=
  match s with
  | String a s' => if is_space a then skip_spaces s' else s
  | EmptyString => s
  end.

Definition atoi (s : string) : Z :=
  match skip_spaces s with
  | String "-" s => (- atoi_digits 0 s)%Z
  | String "+" s => atoi_digits 0 s
  | s => atoi_digits 0 s
  end.
