(* ===== verification/SqlBuilder.v ===== *)
(** * [src/pg_sql_builder.cpp]: the statements of the PostgreSQL sink *)

From S2P Require Import Prelude Config SinkBatch.
From stdpp Require Import pretty.
From Stdlib Require Import Lia.

Record PgSqlBuilder := { sink_table_ : string; sink_column_ : string }.

Section builder.
Context (b : PgSqlBuilder) (t : TableMapping).

(** The columns an upsert writes, in the order of its parameters: id,
    discriminator if configured, embedded text, metadata, vector. *)
Definition sink_cols : list string :=
  [id_sink_ t] ++ (if has_discriminator_ t then [discriminator_sink_ t] else []) ++
  [embed_sink_ t] ++ (sink_column <$> metadata_columns t) ++ [sink_column_ b].

(** The columns it updates on conflict. *)
Definition update_cols : list string :=
  [embed_sink_ t] ++ (sink_column <$> metadata_columns t) ++ [sink_column_ b].

(** The placeholder of column number [i]. *)
Definition placeholder (i : nat) (col : string) : string :=
  "$" +:+ pretty (S i) +:+ if bool_decide (col = sink_column_ b) then "::vector" else "".

Definition build_upsert_sql : string :=
  "INSERT INTO " +:+ sink_table_ b +:+
  " (" +:+ Prelude.join ", " sink_cols +:+ ")" +:+
  " VALUES (" +:+ Prelude.join ", " (imap placeholder sink_cols) +:+ ")" +:+
  " ON CONFLICT (" +:+ id_sink_ t +:+
  (if has_discriminator_ t then ", " +:+ discriminator_sink_ t else "") +:+
  ") DO UPDATE SET " +:+ Prelude.join ", " ((λ c, c +:+ " = EXCLUDED." +:+ c) <$> update_cols).

Definition build_delete_sql : string :=
  "DELETE FROM " +:+ sink_table_ b +:+ " WHERE " +:+ id_sink_ t +:+ " = $1" +:+
  (if has_discriminator_ t then " AND " +:+ discriminator_sink_ t +:+ " = $2" else "").

Definition build_truncate_sql : string :=
  "DELETE FROM " +:+ sink_table_ b +:+
  (if has_discriminator_ t then " WHERE " +:+ discriminator_sink_ t +:+ " = $1" else "").
End builder.
