(* ===== verification/PgSink.v ===== *)
(** * [src/pgembedding_sink.cpp]: the PostgreSQL (pgvector) sink *)

From S2P Require Import Prelude Event Config EmbeddingProvider SinkBatch Libpq SqlBuilder.
From stdpp Require Import pretty.
From Stdlib Require Import Lia.

(** ** [std::ostream << float] with the default precision: ["%g"] with six
    significant digits, rounded to nearest, ties to even *)

Definition digits_of (n : nat) (d : Z) : string :=
  (fix go n d := match n with
                 | O => ""
                 | S n => go n (d / 10)%Z +:+ String (byte_of (48 + d mod 10)) ""
                 end) n d.

(** Drop the zeros at the end. *)
Fixpoint strip_zeros (s : string) : string :=
  match s with
  | "" => ""
  | String a s => match strip_zeros s with
                  | "" => if Ascii.eqb a "0" then "" else String a ""
                  | s => String a s
                  end
  end.

Definition with_point (int frac : string) : string :=
  match strip_zeros frac with "" => int | f => int +:+ "." +:+ f end.

(** The largest [x] below the start with [10^x <= num / den]. *)
Fixpoint exponent10 (fuel : nat) (x num den : Z) : Z :=
  match fuel with
  | O => x
  | S fuel =>
      if (if 0 <=? x then 10 ^ x * den <=? num else den <=? num * 10 ^ (- x))%Z then x
      else exponent10 fuel (x - 1) num den
  end.

Definition round_half_even (num den : Z) : Z :=
  let q := (num / den)%Z in let r := (2 * (num mod den))%Z in
  if (r <? den)%Z then q
  else if (den <? r)%Z then (q + 1)%Z
  else if Z.even q then q else (q + 1)%Z.

Definition show_positive (num den : Z) : string :=
  let x := exponent10 90 40 num den in
  let d := if (x <=? 5)%Z then round_half_even (num * 10 ^ (5 - x)) den
           else round_half_even num (den * 10 ^ (x - 5)) in
  let '(d, x) := if (d =? 10 ^ 6)%Z then (10 ^ 5, x + 1)%Z else (d, x) in
  let ds := digits_of 6 d in
  if (x <? -4)%Z || (6 <=? x)%Z then
    with_point (String.substring 0 1 ds) (String.substring 1 5 ds) +:+ "e" +:+
    (if (x <? 0)%Z then "-" else "+") +:+ digits_of 2 (Z.abs x)
  else if (0 <=? x)%Z then
    let n := Z.to_nat (x + 1) in with_point (String.substring 0 n ds) (String.substring n (6 - n) ds)
  else with_point "0" (digits_of (Z.to_nat (- x - 1)) 0 +:+ ds).

(** The float with these bits, as the stream prints it. *)
Definition show_float (bits : Z) : string :=
  let ex := (Z.shiftr bits 23 mod 256)%Z in
  let man := (bits mod 2 ^ 23)%Z in
  (if Z.testbit bits 31 then "-" else "") +:+
  (if (ex =? 255)%Z then (if (man =? 0)%Z then "inf" else "nan")
   else
     let m := if (ex =? 0)%Z then man else (2 ^ 23 + man)%Z in
     let e := if (ex =? 0)%Z then (-149)%Z else (ex - 150)%Z in
     if (m =? 0)%Z then "0" else show_positive (m * 2 ^ Z.max e 0) (2 ^ Z.max (- e) 0)).

(** The literal ["[x,y,...]"] bound to the vector column. *)
Definition vec_literal (v : vec) : string := "[" +:+ Prelude.join "," (show_float <$> v) +:+ "]".

(** ** The sink object *)

Record PgEmbeddingSinkConfig := {
  pg_conninfo : string;
  sink_table : string;
  sink_vec_column : string;       (* the member sink_column *)
  mappings : list TableMapping;
}.

(** The object after [init()]; the connection is part of the server. *)
Record PgEmbeddingSink := {
  config_ : PgEmbeddingSinkConfig;
  upsert_sql_list_ : gmap string string;
  delete_sql_list_ : gmap string string;
  truncate_sql_list_ : gmap string string;
}.

Definition builder_of (c : PgEmbeddingSinkConfig) : PgSqlBuilder :=
  {| sink_table_ := sink_table c; sink_column_ := sink_vec_column c |}.

(** The loop that fills a statement cache: the last mapping of a table wins. *)
Definition sql_list (build : TableMapping → string) (ms : list TableMapping) : gmap string string :=
  foldl (λ acc t, <[source_table t := build t]> acc) ∅ ms.

Definition prepare_statements (c : PgEmbeddingSinkConfig) : PgEmbeddingSink :=
  {| config_ := c;
     upsert_sql_list_ := sql_list (build_upsert_sql (builder_of c)) (mappings c);
     delete_sql_list_ := sql_list (build_delete_sql (builder_of c)) (mappings c);
     truncate_sql_list_ := sql_list (build_truncate_sql (builder_of c)) (mappings c) |}.

Section sink.
Context {P Srv : Type} `{EmbeddingProvider P} `{Libpq Srv}.

(** [verify()]: the width of the vector column against the provider's. *)
Definition verify (c : PgEmbeddingSinkConfig) : prog (P * Srv) unit :=
  res ← on_snd (PQexecParams
    "SELECT atttypmod FROM pg_attribute WHERE attrelid = $1::regclass AND attname = $2 AND NOT attisdropped"
    [sink_table c; sink_vec_column c]);
  match res with
  | TuplesOk [] => throw ("EmbeddingSink: sink column '" +:+ sink_vec_column c +:+
      "' not found on table '" +:+ sink_table c +:+ "'")
  | TuplesOk rows =>
      v ← lift (PQgetvalue rows 0 0);
      let column_dims := atoi v in
      if (column_dims <=? 0)%Z then mret tt
      else
        provider_dims ← gets (λ w, prov_dimensions w.1);
        if bool_decide (column_dims = provider_dims) then mret tt
        else throw ("EmbeddingSink: sink column '" +:+ sink_table c +:+ "." +:+ sink_vec_column c +:+
          "' is vector(" +:+ pretty column_dims +:+
          ") but the embedding provider produces " +:+ pretty provider_dims +:+
          "-dimensional vectors — fix [embedding] dimensions or the column definition")
  | res => throw ("EmbeddingSink: failed to look up sink column '" +:+ sink_vec_column c +:+
      "' on table '" +:+ sink_table c +:+ "': " +:+ pq_error res)
  end.

(** [check_vector_index()]: asks for an index, and only logs what it finds. *)
Definition check_vector_index (c : PgEmbeddingSinkConfig) : prog (P * Srv) unit :=
  res ← on_snd (PQexecParams
    ("SELECT am.amname FROM pg_index i JOIN pg_class ic ON ic.oid = i.indexrelid " +:+
     "JOIN pg_am am ON am.oid = ic.relam " +:+
     "JOIN pg_attribute a ON a.attrelid = i.indrelid AND a.attnum = ANY(i.indkey) " +:+
     "WHERE i.indrelid = $1::regclass AND a.attname = $2 AND am.amname IN ('hnsw', 'ivfflat')")
    [sink_table c; sink_vec_column c]);
  match res with
  | TuplesOk ((_ :: _) as rows) => v ← lift (PQgetvalue rows 0 0); mret tt
  | _ => mret tt
  end.

Definition pg_sink_init (c : PgEmbeddingSinkConfig) : prog (P * Srv) PgEmbeddingSink :=
  let sink := prepare_statements c in
  err ← on_snd (PQconnectdb (pg_conninfo c));
  match err with
  | Some err => throw ("EmbeddingSink: pg connection failed: " +:+ err)
  | None =>
      res ← on_snd (PQexec "SELECT 1 FROM pg_extension WHERE extname = 'vector'");
      match res with
      | TuplesOk (_ :: _) => verify c ;; check_vector_index c ;; mret sink
      | _ => throw ("EmbeddingSink: pgvector extension not installed in target db. " +:+
                    "Run: CREATE EXTENSION vector;")
      end
  end.

(** [list.at(key)] *)
Definition sql_at (l : gmap string string) (key : string) : prog Srv string :=
  match l !! key with
  | Some sql => mret sql
  | None => throw "unordered_map::at"
  end.

Definition upsert_params (t : TableMapping) (id_value embed_text : string)
    (metadata_values : list string) (embedding : vec) : list string :=
  [id_value] ++ (if has_discriminator_ t then [discriminator_label_ t] else []) ++
  [embed_text] ++ metadata_values ++ [vec_literal embedding].

Definition delete_params (t : TableMapping) (id_value : string) : list string :=
  [id_value] ++ (if has_discriminator_ t then [discriminator_label_ t] else []).

Definition truncate_params (t : TableMapping) : list string :=
  if has_discriminator_ t then [discriminator_label_ t] else [].

Definition pg_upsert (k : PgEmbeddingSink) (t : TableMapping) (id_value embed_text : string)
    (metadata_values : list string) (embedding : vec) : prog Srv bool :=
  sql ← sql_at (upsert_sql_list_ k) (source_table t);
  res ← PQexecParams sql (upsert_params t id_value embed_text metadata_values embedding);
  mret (is_command_ok res).

Definition pg_remove (k : PgEmbeddingSink) (t : TableMapping) (id_value : string) : prog Srv bool :=
  sql ← sql_at (delete_sql_list_ k) (source_table t);
  res ← PQexecParams sql (delete_params t id_value);
  mret (is_command_ok res).

Definition pg_truncate (k : PgEmbeddingSink) (t : TableMapping) : prog Srv bool :=
  sql ← sql_at (truncate_sql_list_ k) (source_table t);
  res ← PQexecParams sql (truncate_params t);
  mret (is_command_ok res).

Definition pg_ops (k : PgEmbeddingSink) : SinkOps Srv :=
  {| upsert := pg_upsert k; SinkBatch.remove := pg_remove k; truncate := pg_truncate k |}.

(** [PgEmbeddingSink::call_batch] *)
Definition pg_call_batch (k : PgEmbeddingSink) (events : list ChangeEvent) : prog (P * Srv) unit :=
  sink_call_batch (pg_ops k) (mappings (config_ k)) events.
End sink.

(** ** Statements and mappings *)

Lemma sql_list_snoc build ms t :
  sql_list build (ms ++ [t]) = <[source_table t := build t]> (sql_list build ms).
Proof. unfold sql_list. by rewrite foldl_app. Qed.

Lemma sql_list_lookup build ms t :
  NoDup (source_table <$> ms) → t ∈ ms → sql_list build ms !! source_table t = Some (build t).
Proof.
  induction ms as [|u ms IH] using rev_ind; [by intros _ Hin%elem_of_nil|].
  rewrite fmap_app, sql_list_snoc. intros (Hnd & Hni & _)%NoDup_app.
  intros [Hin| ->%list_elem_of_singleton]%elem_of_app.
  - rewrite lookup_insert_ne; [by apply IH|]. intros E.
    eapply Hni; [by apply list_elem_of_fmap_2|]. rewrite <- E. by left.
  - apply lookup_insert_eq.
Qed.

(** When a sink has two mappings for one source table, nothing refuses
    the configuration, the values of an event are taken with the first
    mapping and the statement of the last one is executed with them. *)
Theorem duplicate_mapping_mixes_statements {Srv} `{Libpq Srv} (c : PgEmbeddingSinkConfig)
    (first last : TableMapping) (ms : list TableMapping) (id text : string)
    (metas : list string) (v : vec) (s : Srv) :
  mappings c = first :: ms ++ [last] → source_table first = source_table last →
  find_mapping (mappings c) (source_table last) = Some first ∧
  pg_upsert (prepare_statements c) first id text metas v s =
    (res ← PQexecParams (build_upsert_sql (builder_of c) last)
             (upsert_params first id text metas v);
     mret (is_command_ok res)) s.
Proof.
  intros Hms Heq. split.
  - unfold find_mapping. rewrite Hms, filter_cons_True by done. done.
  - unfold pg_upsert, sql_at. cbn [upsert_sql_list_ prepare_statements].
    rewrite Hms, app_comm_cons, sql_list_snoc, Heq, lookup_insert_eq. done.
Qed.

(** ** The row an upsert writes *)

Lemma upsert_params_length b t id text metas v :
  length metas = length (metadata_columns t) →
  length (upsert_params t id text metas v) = length (sink_cols b t).
Proof.
  intros Hl. unfold upsert_params, sink_cols. rewrite !length_app, length_fmap, Hl.
  by destruct (has_discriminator_ t).
Qed.

Abbreviation pgrow := (gmap string string).

(** Columns with the values bound to them. *)
Definition bind_row (b : PgSqlBuilder) (t : TableMapping) (params : list string) : pgrow :=
  list_to_map (zip (sink_cols b t) params).

Lemma bind_row_lookup b t params i col v :
  NoDup (sink_cols b t) → sink_cols b t !! i = Some col → params !! i = Some v →
  bind_row b t params !! col = Some v.
Proof.
  intros Hnd Hc Hv. unfold bind_row. apply elem_of_list_to_map.
  - assert ((zip (sink_cols b t) params).*1 `sublist_of` sink_cols b t) as Hsub.
    { generalize (sink_cols b t) params. clear. intros l. induction l as [|x l IH]; intros [|y k]; simpl;
        try apply sublist_nil_l. by constructor. }
    by eapply sublist_NoDup.
  - apply list_elem_of_lookup. exists i. rewrite lookup_zip_with, Hc. simpl. by rewrite Hv.
Qed.

Lemma sink_cols_last b t : last (sink_cols b t) = Some (sink_column_ b).
Proof. unfold sink_cols. rewrite !app_assoc. apply last_snoc. Qed.

Lemma placeholder_cast b t i col :
  NoDup (sink_cols b t) → sink_cols b t !! i = Some col →
  imap (placeholder b) (sink_cols b t) !! i =
    Some ("$" +:+ pretty (S i) +:+ if decide (i = pred (length (sink_cols b t))) then "::vector" else "").
Proof.
  intros Hnd Hc. rewrite list_lookup_imap, Hc. cbn [fmap option_fmap option_map].
  unfold placeholder. do 3 f_equal. pose proof (sink_cols_last b t) as Hlast. rewrite last_lookup in Hlast.
  case_decide as Hi.
  - rewrite bool_decide_true; [done|]. rewrite Hi, Hlast in Hc. by injection Hc.
  - rewrite bool_decide_false; [done|]. intros ->. apply Hi.
    by eapply NoDup_lookup.
Qed.

(** Columns and parameters of an upsert line up: for a mapping whose
    sink columns are distinct and one value per metadata column, the statement
    has as many placeholders as there are parameters, and the id, the
    discriminator, the text, every metadata value and the vector each end up
    in their own column, the vector column being the one that is cast. *)
Theorem upsert_binds_columns (b : PgSqlBuilder) (t : TableMapping) (id text : string)
    (metas : list string) (v : vec) :
  NoDup (sink_cols b t) → length metas = length (metadata_columns t) →
  let params := upsert_params t id text metas v in
  let row := bind_row b t params in
  length params = length (sink_cols b t) ∧
  row !! id_sink_ t = Some id ∧
  (has_discriminator_ t = true → row !! discriminator_sink_ t = Some (discriminator_label_ t)) ∧
  row !! embed_sink_ t = Some text ∧
  (∀ i m val, metadata_columns t !! i = Some m → metas !! i = Some val →
     row !! sink_column m = Some val) ∧
  row !! sink_column_ b = Some (vec_literal v) ∧
  (∀ i col, sink_cols b t !! i = Some col →
     imap (placeholder b) (sink_cols b t) !! i =
       Some ("$" +:+ pretty (S i) +:+ if decide (i = pred (length (sink_cols b t))) then "::vector" else "")).
Proof.
  intros Hnd Hl params row.
  pose proof (upsert_params_length b t id text metas v Hl) as Hlen.
  set (k := if has_discriminator_ t then 1 else 0).
  assert (∀ i col x, ((sink_column <$> metadata_columns t) ++ [sink_column_ b]) !! i = Some col →
    (metas ++ [vec_literal v]) !! i = Some x →
    row !! col = Some x) as Hrest.
  { intros i col x Hc Hx. apply (bind_row_lookup b t params (2 + k + i)); [done|..];
      unfold sink_cols, params, upsert_params, k; by destruct (has_discriminator_ t). }
  split_and!; [done|..].
  - by apply (bind_row_lookup b t params 0).
  - intros Hd. apply (bind_row_lookup b t params 1); [done|..];
      unfold sink_cols, params, upsert_params; by rewrite Hd.
  - apply (bind_row_lookup b t params (1 + k)); [done|..];
      unfold sink_cols, params, upsert_params, k; by destruct (has_discriminator_ t).
  - intros i m val Hm Hv. apply (Hrest i).
    + apply lookup_app_l_Some. by rewrite list_lookup_fmap, Hm.
    + by apply lookup_app_l_Some.
  - apply (Hrest (length metas)); [|by rewrite lookup_app_r, Nat.sub_diag].
    rewrite lookup_app_r, length_fmap, Hl, Nat.sub_diag; [done|]. by rewrite length_fmap, Hl.
  - intros i col Hc. by apply (placeholder_cast b t i col).
Qed.

(** A mapping for the witnesses, with its columns. *)
Definition sample_builder : PgSqlBuilder := {| sink_table_ := "emb"; sink_column_ := "vec" |}.

Lemma upsert_binds_columns_witness :
  let params := upsert_params Sample.mapping "7" "hello" ["en"] [float_one] in
  let row := bind_row sample_builder Sample.mapping params in
  length params = length (sink_cols sample_builder Sample.mapping) ∧
  row !! "id_s" = Some "7" ∧
  (true = true → row !! "kind" = Some "docs") ∧
  row !! "body_s" = Some "hello" ∧
  (∀ i m val, metadata_columns Sample.mapping !! i = Some m → ["en"] !! i = Some val →
     row !! sink_column m = Some val) ∧
  row !! "vec" = Some "[1]" ∧
  (∀ i col, sink_cols sample_builder Sample.mapping !! i = Some col →
     imap (placeholder sample_builder) (sink_cols sample_builder Sample.mapping) !! i =
       Some ("$" +:+ pretty (S i) +:+
         if decide (i = pred (length (sink_cols sample_builder Sample.mapping))) then "::vector" else "")).
Proof.
  apply (upsert_binds_columns sample_builder Sample.mapping "7" "hello" ["en"] [float_one]).
  - vm_compute. repeat constructor; set_solver.
  - reflexivity.
Defined.

(** ** The sink's table *)

Section table.
Context {Srv : Type} `{Libpq Srv} (c : PgEmbeddingSinkConfig).
Abbreviation b := (builder_of c).

(** A row is known by its id and, if the mapping has one, its discriminator. *)
Abbreviation pgkey := (string * option string)%type.

Definition row_key (t : TableMapping) (row : pgrow) : pgkey :=
  (default "" (row !! id_sink_ t),
   if has_discriminator_ t then row !! discriminator_sink_ t else None).

Definition label_of (t : TableMapping) : option string :=
  if has_discriminator_ t then Some (c_str (discriminator_label_ t)) else None.

Definition pg_key (t : TableMapping) (id : string) : pgkey := (c_str id, label_of t).

Definition pg_row (t : TableMapping) (id text : string) (metas : list string) (v : vec) : pgrow :=
  bind_row b t (c_str <$> upsert_params t id text metas v).

(** [WHERE id = $1 AND disc = $2], [WHERE disc = $1]; without a discriminator
    the conditions on it are not there. *)
Definition matches_label (t : TableMapping) (label : option string) (k : pgkey) : bool :=
  if has_discriminator_ t then bool_decide (k.2 = label) else true.

(** What PostgreSQL documents of the three statements on a table whose rows
    are unique by the conflict target: an insert adds the row it is given, on
    conflict its columns replace those of the row there; a delete removes the
    rows that satisfy its condition. *)
Class PgTable (J : Srv → Prop) (view : Srv → gmap pgkey pgrow) := {
  exec_upsert : ∀ t ps s, t ∈ mappings c → J s → length ps = length (sink_cols b t) →
    let row := bind_row b t ps in
    ∃ s', pq_exec_params (c_str (build_upsert_sql b t)) ps s = (CommandOk, s') ∧ J s' ∧
      view s' = partial_alter (λ o, Some (from_option (union row) row o)) (row_key t row) (view s);
  exec_delete : ∀ t ps s, t ∈ mappings c → J s → length ps = length (delete_params t "") →
    ∃ s', pq_exec_params (c_str (build_delete_sql b t)) ps s = (CommandOk, s') ∧ J s' ∧
      view s' = filter (λ kr, bool_decide (Some kr.1.1 = ps !! 0) && matches_label t (ps !! 1) kr.1
                              = false) (view s);
  exec_truncate : ∀ t ps s, t ∈ mappings c → J s → length ps = length (truncate_params t) →
    ∃ s', pq_exec_params (c_str (build_truncate_sql b t)) ps s = (CommandOk, s') ∧ J s' ∧
      view s' = filter (λ kr, matches_label t (ps !! 0) kr.1 = false) (view s);
}.

Definition pg_removed (t : TableMapping) (id : string) (kr : pgkey * pgrow) : bool :=
  bool_decide (kr.1.1 = c_str id) && matches_label t (label_of t) kr.1.
Definition pg_truncated (t : TableMapping) (kr : pgkey * pgrow) : bool :=
  matches_label t (label_of t) kr.1.

Context (J : Srv → Prop) (view : Srv → gmap pgkey pgrow) `{!PgTable J view}.
Context (Htables : NoDup (source_table <$> mappings c)).
Context (Hcols : ∀ t, t ∈ mappings c → NoDup (sink_cols b t)).

Lemma pg_row_key t id text metas v :
  t ∈ mappings c → length metas = length (metadata_columns t) →
  row_key t (pg_row t id text metas v) = pg_key t id.
Proof.
  intros Ht Hl. unfold row_key, pg_key, pg_row, label_of.
  rewrite (bind_row_lookup b t _ 0 (id_sink_ t) (c_str id)) by (done || by apply Hcols).
  simpl. f_equal. destruct (has_discriminator_ t) eqn:Ed; [|done].
  apply (bind_row_lookup b t _ 1); [by apply Hcols|unfold sink_cols; by rewrite Ed|done].
Qed.

Lemma pg_store_ok :
  StoreOk (pg_ops (prepare_statements c)) (mappings c) J view pg_key pg_row union pg_removed pg_truncated.
Proof.
  split.
  - intros t id tx ms v s Ht HJ Hid Hl. cbn [upsert pg_ops]. unfold pg_upsert, sql_at.
    cbn [upsert_sql_list_ prepare_statements]. rewrite sql_list_lookup by done.
    destruct (exec_upsert t (c_str <$> upsert_params t id tx ms v) s Ht HJ) as (s' & He & HJ' & Hv).
    { by rewrite length_fmap, (upsert_params_length b). }
    exists s'. unfold mbind, prog_bind, mret, prog_ret, PQexecParams, lib. rewrite He.
    split_and!; [done|done|].
    rewrite Hv. fold (pg_row t id tx ms v). by rewrite pg_row_key.
  - intros t id s Ht HJ Hid. cbn [SinkBatch.remove pg_ops]. unfold pg_remove, sql_at.
    cbn [delete_sql_list_ prepare_statements]. rewrite sql_list_lookup by done.
    destruct (exec_delete t (c_str <$> delete_params t id) s Ht HJ) as (s' & He & HJ' & Hv).
    { rewrite length_fmap. unfold delete_params. by destruct (has_discriminator_ t). }
    exists s'. unfold mbind, prog_bind, mret, prog_ret, PQexecParams, lib. rewrite He.
    split_and!; [done|done|].
    rewrite Hv. apply map_filter_ext. intros k r _. unfold pg_removed, matches_label, label_of, delete_params.
    destruct (has_discriminator_ t); csimpl;
      by rewrite (bool_decide_ext (Some k.1 = Some (c_str id)) (k.1 = c_str id))
        by (split; congruence).
  - intros t s Ht HJ. cbn [truncate pg_ops]. unfold pg_truncate, sql_at.
    cbn [truncate_sql_list_ prepare_statements]. rewrite sql_list_lookup by done.
    destruct (exec_truncate t (c_str <$> truncate_params t) s Ht HJ) as (s' & He & HJ' & Hv).
    { by rewrite length_fmap. }
    exists s'. unfold mbind, prog_bind, mret, prog_ret, PQexecParams, lib. rewrite He.
    split_and!; [done|done|].
    rewrite Hv. apply map_filter_ext. intros k r _. unfold pg_truncated, matches_label, label_of, truncate_params.
    by destruct (has_discriminator_ t).
Qed.
End table.



(** ** A server for the witnesses: it runs the statements of its mappings *)

Module DemoServer.
Abbreviation table := (gmap (string * option string) pgrow).

Definition find_sql (build : TableMapping → string) (ts : list TableMapping) (sql : string)
    : option TableMapping :=
  head (filter (λ t, c_str (build t) = sql) ts).

Definition server (b : PgSqlBuilder) (ts : list TableMapping) : Libpq table :=
  {| pq_connect := λ _ s, (None, s);
     pq_exec := λ _ s, (TuplesOk [[Some "1"]], s);
     pq_exec_params := λ sql ps s,
       match find_sql (build_upsert_sql b) ts sql with
       | Some t =>
           let row := bind_row b t ps in
           (CommandOk, partial_alter (λ o, Some (from_option (union row) row o)) (row_key t row) s)
       | None =>
           match find_sql (build_delete_sql b) ts sql with
           | Some t => (CommandOk, filter (λ kr, bool_decide (Some kr.1.1 = ps !! 0) &&
                                            matches_label t (ps !! 1) kr.1 = false) s)
           | None =>
               match find_sql (build_truncate_sql b) ts sql with
               | Some t => (CommandOk, filter (λ kr, matches_label t (ps !! 0) kr.1 = false) s)
               | None => (Failed "unknown statement", s)
               end
           end
       end |}.

Definition config : PgEmbeddingSinkConfig :=
  {| pg_conninfo := "dbname=x"; sink_table := "emb"; sink_vec_column := "vec";
     mappings := [Sample.mapping] |}.

#[export] Instance demo_server : Libpq table := server (builder_of config) [Sample.mapping].

#[export] Instance demo_table : PgTable config (λ _, True) id.
Proof.
  split; intros t ps s ->%list_elem_of_singleton _ Hl; eexists; (split; [|split; [done|done]]);
    cbn [pq_exec_params demo_server server].
  - assert (find_sql (build_upsert_sql (builder_of config)) [Sample.mapping]
      (c_str (build_upsert_sql (builder_of config) Sample.mapping)) = Some Sample.mapping) as ->
      by (vm_compute; reflexivity). reflexivity.
  - assert (find_sql (build_upsert_sql (builder_of config)) [Sample.mapping]
      (c_str (build_delete_sql (builder_of config) Sample.mapping)) = None) as ->
      by (vm_compute; reflexivity).
    assert (find_sql (build_delete_sql (builder_of config)) [Sample.mapping]
      (c_str (build_delete_sql (builder_of config) Sample.mapping)) = Some Sample.mapping) as ->
      by (vm_compute; reflexivity). reflexivity.
  - assert (find_sql (build_upsert_sql (builder_of config)) [Sample.mapping]
      (c_str (build_truncate_sql (builder_of config) Sample.mapping)) = None) as ->
      by (vm_compute; reflexivity).
    assert (find_sql (build_delete_sql (builder_of config)) [Sample.mapping]
      (c_str (build_truncate_sql (builder_of config) Sample.mapping)) = None) as ->
      by (vm_compute; reflexivity).
    assert (find_sql (build_truncate_sql (builder_of config)) [Sample.mapping]
      (c_str (build_truncate_sql (builder_of config) Sample.mapping)) = Some Sample.mapping) as ->
      by (vm_compute; reflexivity). reflexivity.
Qed.

Lemma distinct_tables : NoDup (source_table <$> mappings config).
Proof. apply NoDup_singleton. Qed.

Lemma distinct_columns t : t ∈ mappings config → NoDup (sink_cols (builder_of config) t).
Proof.
  intros ->%list_elem_of_singleton. vm_compute. repeat constructor; set_solver.
Qed.

(** A second mapping of the same table, under another label. *)
Definition other : TableMapping :=
  {| source_table := "docs"; tm_columns := [Sample.col "id" "id"; Sample.col "title" "embed"];
     id_source_ := "id"; id_sink_ := "id_s"; embed_source_ := "title"; embed_sink_ := "title_s";
     has_discriminator_ := true; discriminator_sink_ := "kind"; discriminator_label_ := "titles" |}.
Definition twice : PgEmbeddingSinkConfig :=
  {| pg_conninfo := "dbname=x"; sink_table := "emb"; sink_vec_column := "vec";
     mappings := [Sample.mapping; other] |}.
End DemoServer.

#[local] Existing Instances DemoServer.demo_server DemoServer.demo_table.



Lemma duplicate_mapping_mixes_statements_witness :
  find_mapping (mappings DemoServer.twice) "docs" = Some Sample.mapping ∧
  pg_upsert (prepare_statements DemoServer.twice) Sample.mapping "1" "one" ["en"] [float_one] ∅ =
    (res ← PQexecParams (build_upsert_sql (builder_of DemoServer.twice) DemoServer.other)
             (upsert_params Sample.mapping "1" "one" ["en"] [float_one]);
     mret (is_command_ok res)) ∅.
Proof.
  apply (duplicate_mapping_mixes_statements DemoServer.twice Sample.mapping DemoServer.other []);
    reflexivity.
Defined.

(** The vector literal keeps six significant digits, so different
    embeddings are stored as the same vector: 1 and the next float print
    alike. *)
Theorem vec_literal_not_injective :
  ∃ v w : vec, v ≠ w ∧ vec_literal v = vec_literal w.
Proof. exists [float_one], [(float_one + 1)%Z]. split; [done|]. vm_compute. reflexivity. Qed.
