(* ===== verification/Http.v ===== *)
(** * [src/http_client.cpp]: the HTTP client of the REST sinks and of OpenAI

    libcurl and the network are the class [Curl]; JSON text is the library
    nlohmann::json, whose [dump] (which throws on a string that is not UTF-8)
    and [parse] are the class [JsonText]. *)

From S2P Require Import Prelude Event.

Record HttpResponse := {
  status_code : Z;
  body : string;
  curl_ok : bool;
  curl_error : string;
}.

Inductive HttpMethod := Get | Post | Put | HDelete.

(** What the options set on the handle make of a request. *)
Record Request := {
  rq_method : HttpMethod;
  rq_url : string;
  rq_headers : list string;
  rq_body : option string;
  rq_timeout : Z;
}.

(** [curl_easy_perform]: an error text or the response code, and the bytes
    handed to the write callback before it ended. *)
Class Curl (S : Type) := {
  curl_perform : Request → S → (string + Z) * list string * S;
}.

Class JsonText := {
  dump : json → outcome string;
  parse_json : string → outcome json;
}.

(** [curl_] is null when [curl_easy_init] failed. *)
Record HttpClient := { curl_ : bool; timeout_secs_ : Z }.

(** The callback appends each chunk it is given. *)
Definition write_callback (out : string) (chunk : string) : string := out +:+ chunk.

Section client.
Context {Net : Type} `{Curl Net} (c : HttpClient).

Definition perform (method : HttpMethod) (url json_body : string) (extra_headers : list string)
    : prog Net HttpResponse := λ net,
  if negb (curl_ c) then
    (Ret {| status_code := 0; body := ""; curl_ok := false;
            curl_error := "curl handle not initialized" |}, net)
  else
    let rq := {| rq_method := method; rq_url := c_str url;
                 rq_headers := "Content-Type: application/json" :: (c_str <$> extra_headers);
                 rq_body := match method with Get => None | _ => Some json_body end;
                 rq_timeout := timeout_secs_ c |} in
    let '(res, chunks, net) := curl_perform rq net in
    let received := foldl write_callback "" chunks in
    match res with
    | inl err =>
        (Ret {| status_code := 0; body := received; curl_ok := false; curl_error := err |}, net)
    | inr code =>
        (Ret {| status_code := code; body := received; curl_ok := true; curl_error := "" |}, net)
    end.

Definition post_json (url json_body : string) (hs : list string) := perform Post url json_body hs.
Definition put_json (url json_body : string) (hs : list string) := perform Put url json_body hs.
Definition delete_json (url json_body : string) (hs : list string) := perform HDelete url json_body hs.
Definition get_json (url : string) (hs : list string) := perform Get url "" hs.
End client.

(** ** Reading JSON: [at], [get<T>], [value] *)

Definition json_at (k : string) (j : json) : outcome json :=
  match j with
  | JObject l => match member_get k l with
                 | Some v => Ret v
                 | None => Throw "key not found"
                 end
  | _ => Throw "cannot use at() with this type"
  end.

Definition json_at_index (i : nat) (j : json) : outcome json :=
  match j with
  | JArray l => match l !! i with Some v => Ret v | None => Throw "array index out of range" end
  | _ => Throw "cannot use at() with this type"
  end.

Definition json_string (j : json) : outcome string :=
  match j with JString s => Ret s | _ => Throw "type must be string" end.

(** [value(key, default)] on an object. *)
Definition json_bool_value (k : string) (def : bool) (j : json) : outcome bool :=
  match j with
  | JObject l => match member_get k l with
                 | Some (JBool b) => Ret b
                 | Some _ => Throw "type must be boolean"
                 | None => Ret def
                 end
  | _ => Throw "cannot use value() with this type"
  end.

Definition json_string_value (k : string) (def : string) (j : json) : outcome string :=
  match j with
  | JObject l => match member_get k l with
                 | Some (JString s) => Ret s
                 | Some _ => Throw "type must be string"
                 | None => Ret def
                 end
  | _ => Throw "cannot use value() with this type"
  end.

(** The elements a range-for over a JSON value visits. *)
Definition json_elements (j : json) : list json :=
  match j with
  | JNull => []
  | JArray l => l
  | JObject l => l.*2
  | v => [v]
  end.

Section numbers.
(** Conversions of a floating-point number are the library's. *)
Context (trunc_float : Z → Z).

(** [get<int>()] *)
Definition json_int (j : json) : outcome Z :=
  match j with
  | JInt z => Ret (i32 z)
  | JFloat b => Ret (trunc_float b)
  | JBool b => Ret (if b then 1 else 0)%Z
  | _ => Throw "type must be number"
  end.

(** [get<size_t>()] *)
Definition json_size (j : json) : outcome Z :=
  match j with
  | JInt z => Ret (u64 z)
  | JFloat b => Ret (u64 (trunc_float b))
  | JBool b => Ret (if b then 1 else 0)%Z
  | _ => Throw "type must be number"
  end.
End numbers.
