(* ===== verification/QdrantSink.v ===== *)
(** * [src/qdrant_sink.cpp]: the Qdrant sink

    Its [get_column], [is_toast], [prepare_upsert] and [call_batch] are those
    of [SinkBatch]; here are its writes, its startup check and the identity of
    its points.  SHA-1 UUIDs are libuuid's, the class [LibUuid]. *)

From S2P Require Import Prelude Event Config EmbeddingProvider SinkBatch Http.
From stdpp Require Import pretty.
From Stdlib Require Import Lia.

(** [uuid_generate_sha1] and [uuid_unparse_lower]; a UUID is 16 bytes. *)
Class LibUuid := {
  uuid_generate_sha1 : list Z → string → list Z;
  uuid_unparse_lower : list Z → string;
}.

(** The key a row is stored under: what [point_id_for] and Milvus's
    [composite_key] hash. *)
Definition composite_key (t : TableMapping) (source_id : string) : string :=
  if has_discriminator_ t then discriminator_label_ t +:+ ":" +:+ source_id else source_id.

Definition qdrant_namespace : list Z :=
  [0xbd; 0x18; 0x03; 0x45; 0xc3; 0xdb; 0x46; 0x86;
   0x86; 0x5f; 0xd7; 0x0b; 0x69; 0x49; 0xd8; 0xe1]%Z.

Definition point_id_for `{LibUuid} (t : TableMapping) (source_id : string) : string :=
  uuid_unparse_lower (uuid_generate_sha1 qdrant_namespace (composite_key t source_id)).

Record QdrantSinkConfig := {
  url : string;
  api_key : string;
  collection : string;
  mappings : list TableMapping;
}.

Definition qdrant_headers (c : QdrantSinkConfig) : list string :=
  if str_empty (api_key c) then [] else ["api-key: " +:+ api_key c].

(** [for (m : tm.columns) if metadata obj[m.sink_column] = metadata_values.at(mi++);] *)
Fixpoint set_metadata (cols : list ColumnMapping) (values : list string) (obj : json) : outcome json :=
  match cols with
  | [] => Ret obj
  | m :: cols =>
      match values with
      | [] => Throw "vector::_M_range_check"
      | v :: values => obj ← json_set (sink_column m) (JString v) obj; set_metadata cols values obj
      end
  end.

Definition json_vec (v : vec) : json := JArray (JFloat <$> v).

Section sink.
Context {P Net : Type} `{EmbeddingProvider P} `{Curl Net} `{JsonText} `{LibUuid}.
Context (trunc_float : Z → Z).

(** The client of the sink: [http_(/*timeout_secs=*/30)]. *)
Definition qdrant_http (has_curl : bool) : HttpClient := {| curl_ := has_curl; timeout_secs_ := 30 |}.

Definition status_2xx (resp : HttpResponse) : bool :=
  curl_ok resp && bool_decide (Z.quot (status_code resp) 100 = 2)%Z.

Definition qdrant_payload (t : TableMapping) (id_value embed_text : string)
    (metadata_values : list string) : outcome json :=
  p ← json_set (id_sink_ t) (JString id_value) JNull;
  p ← (if has_discriminator_ t
       then json_set (discriminator_sink_ t) (JString (discriminator_label_ t)) p else Ret p);
  p ← json_set (embed_sink_ t) (JString embed_text) p;
  set_metadata (metadata_columns t) metadata_values p.

Definition qdrant_upsert (c : QdrantSinkConfig) (h : HttpClient) (t : TableMapping)
    (id_value embed_text : string) (metadata_values : list string) (embedding : vec) : prog Net bool :=
  payload ← lift (qdrant_payload t id_value embed_text metadata_values);
  let point := JObject [("id", JString (point_id_for t id_value)); ("vector", json_vec embedding);
                        ("payload", payload)] in
  text ← lift (dump (JObject [("points", JArray [point])]));
  resp ← put_json h (url c +:+ "/collections/" +:+ collection c +:+ "/points?wait=true") text
           (qdrant_headers c);
  mret (status_2xx resp).

(** The delete request both [remove] and [truncate] send. *)
Definition qdrant_delete (c : QdrantSinkConfig) (h : HttpClient) (selector : json) : prog Net bool :=
  text ← lift (dump selector);
  resp ← post_json h (url c +:+ "/collections/" +:+ collection c +:+ "/points/delete?wait=true") text
           (qdrant_headers c);
  mret (status_2xx resp).

Definition qdrant_remove (c : QdrantSinkConfig) (h : HttpClient) (t : TableMapping)
    (id_value : string) : prog Net bool :=
  qdrant_delete c h (JObject [("points", JArray [JString (point_id_for t id_value)])]).

(** Without a discriminator [filter] stays the null value it starts as. *)
Definition qdrant_filter (t : TableMapping) : json :=
  if has_discriminator_ t then
    JObject [("must", JArray [JObject [("key", JString (discriminator_sink_ t));
      ("match", JObject [("value", JString (discriminator_label_ t))])]])]
  else JNull.

Definition qdrant_truncate (c : QdrantSinkConfig) (h : HttpClient) (t : TableMapping) : prog Net bool :=
  qdrant_delete c h (JObject [("filter", qdrant_filter t)]).

Definition qdrant_ops (c : QdrantSinkConfig) (h : HttpClient) : SinkOps Net :=
  {| upsert := qdrant_upsert c h; SinkBatch.remove := qdrant_remove c h;
     truncate := qdrant_truncate c h |}.

(** The class has its own copies of these three; they are the other sinks',
    statement by statement. *)
Definition qdrant_get_column : DecodedRow → string → string := get_column.
Definition qdrant_is_toast : DecodedRow → string → bool := is_toast.
Definition qdrant_prepare_upsert : TableMapping → ChangeEvent → option BatchEvent := prepare_upsert.

(** [QdrantSink::call_batch] *)
Definition qdrant_call_batch (c : QdrantSinkConfig) (h : HttpClient) (events : list ChangeEvent)
    : prog (P * Net) unit :=
  sink_call_batch (qdrant_ops c h) (mappings c) events.

Definition qdrant_call (c : QdrantSinkConfig) (h : HttpClient) (event : ChangeEvent) : prog (P * Net) unit :=
  qdrant_call_batch c h [event].

(** [j.at("result").at("config").at("params").at("vectors").at("size").get<int>()] *)
Definition vector_size (text : string) : outcome Z :=
  j ← parse_json text;
  j ← json_at "result" j; j ← json_at "config" j; j ← json_at "params" j;
  j ← json_at "vectors" j; j ← json_at "size" j;
  json_int trunc_float j.

Definition qdrant_init (c : QdrantSinkConfig) (h : HttpClient) : prog (P * Net) unit :=
  resp ← on_snd (get_json h (url c +:+ "/collections/" +:+ collection c) (qdrant_headers c));
  if negb (curl_ok resp) then
    throw ("QdrantSink: failed to reach " +:+ url c +:+ ": " +:+ curl_error resp)
  else if bool_decide (status_code resp = 404%Z) then
    throw ("QdrantSink: collection '" +:+ collection c +:+ "' does not exist at " +:+ url c +:+
           " — create it first (walkrie does not auto-create collections)")
  else if bool_decide (status_code resp ≠ 200%Z) then
    throw ("QdrantSink: unexpected response checking collection '" +:+ collection c +:+
           "' (HTTP " +:+ pretty (status_code resp) +:+ "): " +:+ body resp)
  else
    collection_dims ← try_catch (lift (vector_size (body resp))) (λ e,
      throw ("QdrantSink: couldn't read vector size from collection '" +:+ collection c +:+
             "' — named/multi-vector collections aren't supported yet: " +:+ e));
    provider_dims ← gets (λ w, prov_dimensions w.1);
    if bool_decide (collection_dims ≠ provider_dims) then
      throw ("QdrantSink: collection '" +:+ collection c +:+ "' vector size (" +:+
             pretty collection_dims +:+ ") does not match the embedding provider's " +:+
             pretty provider_dims +:+ " dimensions")
    else mret tt.
End sink.

(** ** Keys *)

(** No colon in the text. *)
Definition colon_free (s : string) : bool :=
  forallb (λ a, negb (Ascii.eqb a ":")) (bytes_of_string s).

Lemma split_at_colon l1 l2 s1 s2 :
  colon_free l1 = true → colon_free l2 = true →
  l1 +:+ ":" +:+ s1 = l2 +:+ ":" +:+ s2 → l1 = l2 ∧ s1 = s2.
Proof.
  unfold colon_free. revert l2. induction l1 as [|a l1 IH]; intros [|b l2]; simpl.
  - intros _ _ E. by injection E.
  - intros _ Hb E. by injection E as <- _.
  - intros Ha _ E. by injection E as -> _.
  - intros [Ha H1]%andb_true_iff [Hb H2]%andb_true_iff E. injection E as -> E.
    by destruct (IH l2 H1 H2 E) as [-> ->].
Qed.

(** Mappings that share a collection do not collide as long as no label
    contains a colon: the key a discriminated row is stored under determines
    its label and its source id. *)
Theorem composite_key_injective (t1 t2 : TableMapping) (id1 id2 : string) :
  has_discriminator_ t1 = true → has_discriminator_ t2 = true →
  colon_free (discriminator_label_ t1) = true → colon_free (discriminator_label_ t2) = true →
  composite_key t1 id1 = composite_key t2 id2 →
  discriminator_label_ t1 = discriminator_label_ t2 ∧ id1 = id2.
Proof. unfold composite_key. intros -> -> H1 H2. by apply split_at_colon. Qed.

Lemma composite_key_injective_witness :
  discriminator_label_ Sample.mapping = discriminator_label_ Sample.mapping ∧ "a:b" = "a:b".
Proof. apply (composite_key_injective Sample.mapping Sample.mapping); reflexivity. Defined.

Definition with_label (l : string) (t : TableMapping) : TableMapping :=
  {| source_table := source_table t; tm_columns := tm_columns t; id_source_ := id_source_ t;
     id_sink_ := id_sink_ t; embed_source_ := embed_source_ t; embed_sink_ := embed_sink_ t;
     has_discriminator_ := true; discriminator_sink_ := discriminator_sink_ t;
     discriminator_label_ := l |}.

(** In general they do collide: the separator is not escaped, so two
    valid mappings with the labels "a" and "a:b" store the ids "b:c" and "c"
    under one point, and a write through one overwrites or deletes the row of
    the other. *)
Theorem composite_key_collision `{LibUuid} (t : TableMapping) :
  discriminator_label_ (with_label "a" t) ≠ discriminator_label_ (with_label "a:b" t) ∧
  validate_mapping (with_label "a" t) = validate_mapping (with_label "a:b" t) ∧
  point_id_for (with_label "a" t) "b:c" = point_id_for (with_label "a:b" t) "c".
Proof. by repeat split. Qed.
