(* ===== verification/MilvusSink.v ===== *)
(** * [src/milvus_sink.cpp]: the Milvus sink

    Its [get_column], [is_toast], [prepare_upsert] and [call_batch] are those
    of [SinkBatch], its [composite_key] is the key of [QdrantSink]. *)

From S2P Require Import Prelude Event Config EmbeddingProvider SinkBatch Libpq Http QdrantSink.
From stdpp Require Import pretty.
From Stdlib Require Import Lia.

Definition milvus_namespace : list Z :=
  [0x4a; 0xe0; 0x9f; 0x2c; 0x1b; 0x77; 0x4d; 0x63;
   0x9b; 0x2e; 0x6d; 0x0c; 0x5a; 0x8f; 0x31; 0x77]%Z.

Definition uuid5_for `{LibUuid} (key : string) : string :=
  uuid_unparse_lower (uuid_generate_sha1 milvus_namespace key).

(** [memcpy(&v, out, 8)] on a little-endian machine. *)
Definition le_val (bs : list Z) : Z := foldr (λ b v, b + 256 * v)%Z 0%Z bs.

Definition int64_id_for `{LibUuid} (key : string) : Z :=
  let v := u64 (le_val (take 8 (uuid_generate_sha1 milvus_namespace key))) in
  i64 (Z.land v 0x7FFFFFFFFFFFFFFF).

Record MilvusSinkConfig := {
  mv_url : string;
  mv_token : string;
  mv_db_name : string;
  mv_collection : string;
  mv_mappings : list TableMapping;
}.

(** What [init()] learns of the collection. *)
Record MilvusFields := {
  pk_field_ : string;
  pk_is_varchar_ : bool;
  vector_field_ : string;
}.

Definition milvus_headers (c : MilvusSinkConfig) : list string :=
  if str_empty (mv_token c) then [] else ["Authorization: Bearer " +:+ mv_token c].

(** [std::stoi] *)
Definition stoi (s : string) : outcome Z :=
  let s := skip_spaces s in
  let digits := match s with String "-" r | String "+" r => r | _ => s end in
  match digits with
  | String a _ =>
      let d := (byte_val a - 48)%Z in
      if (0 <=? d)%Z && (d <=? 9)%Z then
        let v := atoi s in
        if (- 2 ^ 31 <=? v)%Z && (v <? 2 ^ 31)%Z then Ret v else Throw "stoi"
      else Throw "stoi"
  | EmptyString => Throw "stoi"
  end.

Section sink.
Context {P Net : Type} `{EmbeddingProvider P} `{Curl Net} `{JsonText} `{LibUuid}.
Context (trunc_float : Z → Z).

(** The members every request starts with. *)
Definition milvus_body (c : MilvusSinkConfig) : list (string * json) :=
  [("collectionName", JString (mv_collection c))] ++
  if str_empty (mv_db_name c) then [] else [("dbName", JString (mv_db_name c))].

Definition milvus_entity (f : MilvusFields) (t : TableMapping) (id_value embed_text : string)
    (metadata_values : list string) (embedding : vec) : outcome json :=
  let key := composite_key t id_value in
  e ← json_set (pk_field_ f)
        (if pk_is_varchar_ f then JString (uuid5_for key) else JInt (int64_id_for key)) JNull;
  e ← json_set (vector_field_ f) (json_vec embedding) e;
  e ← json_set (id_sink_ t) (JString id_value) e;
  e ← json_set (embed_sink_ t) (JString embed_text) e;
  e ← (if has_discriminator_ t
       then json_set (discriminator_sink_ t) (JString (discriminator_label_ t)) e else Ret e);
  set_metadata (metadata_columns t) metadata_values e.

(** [resp.curl_ok && status == 200], and the body says code 0. *)
Definition milvus_ok (resp : HttpResponse) : prog Net bool :=
  if curl_ok resp && bool_decide (status_code resp = 200%Z) then
    try_catch (code ← lift (j ← parse_json (body resp); j ← json_at "code" j; json_int trunc_float j);
               mret (bool_decide (code = 0%Z)))
              (λ _, mret false)
  else mret false.

Definition milvus_post (c : MilvusSinkConfig) (h : HttpClient) (path : string) (b : json)
    : prog Net bool :=
  text ← lift (dump b);
  resp ← post_json h (mv_url c +:+ path) text (milvus_headers c);
  milvus_ok resp.

Definition milvus_upsert (c : MilvusSinkConfig) (f : MilvusFields) (h : HttpClient)
    (t : TableMapping) (id_value embed_text : string) (metadata_values : list string)
    (embedding : vec) : prog Net bool :=
  entity ← lift (milvus_entity f t id_value embed_text metadata_values embedding);
  milvus_post c h "/v2/vectordb/entities/upsert"
    (JObject (milvus_body c ++ [("data", JArray [entity])])).

Definition quote : string := String "034" "".  (* a double quote *)

Definition milvus_remove (c : MilvusSinkConfig) (f : MilvusFields) (h : HttpClient)
    (t : TableMapping) (id_value : string) : prog Net bool :=
  let key := composite_key t id_value in
  let id_literal := if pk_is_varchar_ f then quote +:+ uuid5_for key +:+ quote
                    else pretty (int64_id_for key) in
  milvus_post c h "/v2/vectordb/entities/delete"
    (JObject (milvus_body c ++ [("filter", JString (pk_field_ f +:+ " == " +:+ id_literal))])).

Definition truncate_filter (f : MilvusFields) (t : TableMapping) : string :=
  if has_discriminator_ t
  then discriminator_sink_ t +:+ " == " +:+ quote +:+ discriminator_label_ t +:+ quote
  else if pk_is_varchar_ f then pk_field_ f +:+ " like " +:+ quote +:+ "%" +:+ quote
       else pk_field_ f +:+ " >= -9223372036854775808".

Definition milvus_truncate (c : MilvusSinkConfig) (f : MilvusFields) (h : HttpClient)
    (t : TableMapping) : prog Net bool :=
  milvus_post c h "/v2/vectordb/entities/delete"
    (JObject (milvus_body c ++ [("filter", JString (truncate_filter f t))])).

Definition milvus_ops (c : MilvusSinkConfig) (f : MilvusFields) (h : HttpClient) : SinkOps Net :=
  {| upsert := milvus_upsert c f h; SinkBatch.remove := milvus_remove c f h;
     truncate := milvus_truncate c f h |}.

(** The class has its own copies of these four; they are the other sinks',
    statement by statement. *)
Definition milvus_composite_key : TableMapping → string → string := composite_key.
Definition milvus_get_column : DecodedRow → string → string := get_column.
Definition milvus_is_toast : DecodedRow → string → bool := is_toast.
Definition milvus_prepare_upsert : TableMapping → ChangeEvent → option BatchEvent := prepare_upsert.

(** [MilvusSink::call_batch] *)
Definition milvus_call_batch (c : MilvusSinkConfig) (f : MilvusFields) (h : HttpClient)
    (events : list ChangeEvent) : prog (P * Net) unit :=
  sink_call_batch (milvus_ops c f h) (mv_mappings c) events.

Definition milvus_call (c : MilvusSinkConfig) (f : MilvusFields) (h : HttpClient) (event : ChangeEvent)
    : prog (P * Net) unit := milvus_call_batch c f h [event].

(** The search for the "dim" parameter of a vector field. *)
Definition read_dim (dims : outcome Z) (p : json) : outcome Z :=
  d ← dims;
  k ← json_at "key" p; k ← json_string k;
  if bool_decide (k = "dim")
  then v ← json_at "value" p; v ← json_string v; stoi v
  else Ret d.

(** One turn of the loop over the fields: primary key, vector field, dims. *)
Definition read_field (acc : outcome (MilvusFields * Z)) (fd : json) : outcome (MilvusFields * Z) :=
  a ← acc;
  let '(f, dims) := a in
  pk ← json_bool_value "primaryKey" false fd;
  f ← (if (pk : bool) then
         name ← json_at "name" fd; name ← json_string name;
         ty ← json_at "type" fd; ty ← json_string ty;
         Ret {| pk_field_ := name; pk_is_varchar_ := bool_decide (ty = "VarChar");
                vector_field_ := vector_field_ f |}
       else Ret f);
  ty ← json_at "type" fd; ty ← json_string ty;
  if bool_decide (ty = "FloatVector") then
    name ← json_at "name" fd; name ← json_string name;
    params ← json_at "params" fd;
    dims ← foldl read_dim (Ret dims) (json_elements params);
    Ret ({| pk_field_ := pk_field_ f; pk_is_varchar_ := pk_is_varchar_ f; vector_field_ := name |}, dims)
  else Ret (f, dims).

Definition no_fields : MilvusFields :=
  {| pk_field_ := ""; pk_is_varchar_ := false; vector_field_ := "" |}.

Definition read_schema (j : json) : outcome (MilvusFields * Z) :=
  data ← json_at "data" j; fields ← json_at "fields" data;
  foldl read_field (Ret (no_fields, (-1)%Z)) (json_elements fields).

(** The collision checks of the id and embed columns. *)
Definition check_collisions (c : MilvusSinkConfig) (f : MilvusFields) : outcome unit :=
  foldl (λ acc t, acc ;;
    if bool_decide (id_sink_ t = pk_field_ f ∨ id_sink_ t = vector_field_ f) then
      Throw ("MilvusSink: table_mapping for '" +:+ source_table t +:+ "' has id role sink_column='" +:+
             id_sink_ t +:+ "' which collides with collection '" +:+ mv_collection c +:+
             "'s auto-populated pk/vector field — pick a distinct scalar field to hold the readable source id")
    else if bool_decide (embed_sink_ t = pk_field_ f ∨ embed_sink_ t = vector_field_ f) then
      Throw ("MilvusSink: table_mapping for '" +:+ source_table t +:+ "' has embed role sink_column='" +:+
             embed_sink_ t +:+ "' which collides with collection '" +:+ mv_collection c +:+
             "'s auto-populated pk/vector field — pick a distinct scalar field to hold the source text")
    else Ret tt) (Ret tt) (mv_mappings c).

Definition milvus_init (c : MilvusSinkConfig) (h : HttpClient) : prog (P * Net) MilvusFields :=
  text ← lift (dump (JObject (milvus_body c)));
  resp ← on_snd (post_json h (mv_url c +:+ "/v2/vectordb/collections/describe") text (milvus_headers c));
  if negb (curl_ok resp) then
    throw ("MilvusSink: failed to reach " +:+ mv_url c +:+ ": " +:+ curl_error resp)
  else if bool_decide (status_code resp ≠ 200%Z) then
    throw ("MilvusSink: unexpected response checking collection '" +:+ mv_collection c +:+
           "' (HTTP " +:+ pretty (status_code resp) +:+ "): " +:+ body resp)
  else
    j ← try_catch (lift (parse_json (body resp))) (λ e,
          throw ("MilvusSink: couldn't parse describe-collection response: " +:+ e));
    code ← lift (k ← json_at "code" j; json_int trunc_float k);
    if bool_decide (code ≠ 0%Z) then
      msg ← lift (json_string_value "message" "" j);
      throw ("MilvusSink: collection '" +:+ mv_collection c +:+ "' does not exist at " +:+ mv_url c +:+
             " (" +:+ msg +:+ ") — create it first (walkrie does not auto-create collections)")
    else
      fd ← lift (read_schema j);
      let '(f, collection_dims) := (fd : MilvusFields * Z) in
      if str_empty (pk_field_ f) then
        throw ("MilvusSink: couldn't find a primary key field on collection '" +:+ mv_collection c +:+ "'")
      else if str_empty (vector_field_ f) || (collection_dims <? 0)%Z then
        throw ("MilvusSink: couldn't find a FloatVector field with a dim param on collection '" +:+
               mv_collection c +:+ "' — named/multi-vector collections aren't supported yet")
      else
        provider_dims ← gets (λ w, prov_dimensions w.1);
        if bool_decide (collection_dims ≠ provider_dims) then
          throw ("MilvusSink: collection '" +:+ mv_collection c +:+ "' vector field '" +:+
                 vector_field_ f +:+ "' dim (" +:+ pretty collection_dims +:+
                 ") does not match the embedding provider's " +:+ pretty provider_dims +:+ " dimensions")
        else lift (check_collisions c f) ;; mret f.
End sink.

(** ** Identity *)

(** The integer key of a row is a valid non-negative Int64. *)
Theorem int64_id_in_range `{LibUuid} (key : string) : (0 ≤ int64_id_for key < 2 ^ 63)%Z.
Proof.
  unfold int64_id_for. set (v := u64 _).
  assert (Z.land v 0x7FFFFFFFFFFFFFFF = v mod 2 ^ 63)%Z as ->
    by apply (Z.land_ones v 63 ltac:(lia)).
  pose proof (Z.mod_pos_bound v (2 ^ 63) ltac:(lia)).
  unfold i64. rewrite sint_small; lia.
Qed.

Lemma check_collisions_ok c f :
  check_collisions c f = Ret tt →
  ∀ t, t ∈ mv_mappings c →
    id_sink_ t ≠ pk_field_ f ∧ id_sink_ t ≠ vector_field_ f ∧
    embed_sink_ t ≠ pk_field_ f ∧ embed_sink_ t ≠ vector_field_ f.
Proof.
  unfold check_collisions. intros Hc t Ht. revert Hc.
  match goal with |- foldl ?g _ _ = _ → _ => set (go := g) end.
  assert (∀ ts acc, foldl go acc ts = Ret tt → acc = Ret tt) as Hacc.
  { induction ts as [|u ts IH]; intros acc Hf; [done|]. apply IH in Hf.
    unfold go in Hf. by destruct acc as [[]| | |]. }
  generalize (Ret tt : outcome unit) at 1. induction (mv_mappings c) as [|u ts IH];
    [by apply elem_of_nil in Ht|]. intros acc Hf. simpl in Hf.
  apply elem_of_cons in Ht as [->|Ht]; [|by eapply IH].
  apply Hacc in Hf. unfold go in Hf. destruct acc as [[]| | |]; try done. simpl in Hf.
  case_bool_decide; [done|]. case_bool_decide; [done|]. naive_solver.
Qed.

(** What [init] has checked when it returns. *)
Lemma milvus_init_ret {P Net} `{EmbeddingProvider P} `{Curl Net} `{JsonText} (trunc_float : Z → Z)
    (c : MilvusSinkConfig) (h : HttpClient) (w w' : P * Net) (f : MilvusFields) :
  milvus_init trunc_float c h w = (Ret f, w') →
  pk_field_ f ≠ "" ∧ vector_field_ f ≠ "" ∧ (0 ≤ prov_dimensions w.1)%Z ∧ check_collisions c f = Ret tt.
Proof.
  unfold milvus_init, mbind, prog_bind, lift, on_snd, try_catch, throw, gets, mret, prog_ret.
  destruct (dump _) as [text| | |]; try done.
  destruct (post_json _ _ _ _ _) as [[resp| | |] net1] eqn:Ep; try done. cbn [fst snd].
  destruct (negb _); [done|]. case_bool_decide; [done|].
  destruct (parse_json _) as [j| | |]; try done.
  destruct (outcome_bind _ _ _ _) as [code| | |]; try done.
  case_bool_decide.
  { by destruct (json_string_value _ _ _). }
  destruct (read_schema j) as [[f0 dims]| | |]; try done.
  destruct (str_empty (pk_field_ f0)) eqn:E1; [done|].
  destruct (_ || _) eqn:E2; [done|]. apply orb_false_iff in E2 as [E2 E3].
  case_bool_decide as Ed; [done|].
  destruct (check_collisions c f0) as [[]| | |] eqn:Ec; try done. intros [= <- <-].
  apply str_empty_false in E1, E2. apply Z.ltb_ge in E3. simpl in Ed.
  split_and!; [done|done|lia|done].
Qed.

(** A Milvus sink that starts has a usable target: [init] returns only
    when the collection has a named primary key and a named vector field, the
    provider's vectors have a width the check accepted, and no mapping puts its
    id or its text into one of the two fields. *)
Theorem milvus_init_sound {P Net} `{EmbeddingProvider P} `{Curl Net} `{JsonText}
    (trunc_float : Z → Z) (c : MilvusSinkConfig) (h : HttpClient) (p p' : P) (net net' : Net)
    (f : MilvusFields) :
  milvus_init trunc_float c h (p, net) = (Ret f, (p', net')) →
  pk_field_ f ≠ "" ∧ vector_field_ f ≠ "" ∧ (0 ≤ prov_dimensions p)%Z ∧
  ∀ t, t ∈ mv_mappings c →
    id_sink_ t ≠ pk_field_ f ∧ id_sink_ t ≠ vector_field_ f ∧
    embed_sink_ t ≠ pk_field_ f ∧ embed_sink_ t ≠ vector_field_ f.
Proof.
  intros Hi. apply milvus_init_ret in Hi as (? & ? & ? & ?).
  split_and!; [done|done|done|by apply check_collisions_ok].
Qed.

(** A collection with an integer key and one-dimensional vectors. *)
Module DemoMilvus.
Definition field (name type : string) (pk : bool) (params : list json) : json :=
  JObject [("name", JString name); ("type", JString type); ("primaryKey", JBool pk);
           ("params", JArray params)].
Definition described : json :=
  JObject [("code", JInt 0); ("data", JObject [("fields", JArray
    [field "pk" "Int64" true [];
     field "emb" "FloatVector" false [JObject [("key", JString "dim"); ("value", JString "1")]]])])].

Definition net : Curl unit := {| curl_perform := λ _ s, (inr 200%Z, ["{}"], s) |}.
Definition text : JsonText := {| dump := λ _, Ret "{}"; parse_json := λ _, Ret described |}.
Definition config : MilvusSinkConfig :=
  {| mv_url := "http://m"; mv_token := ""; mv_db_name := ""; mv_collection := "c";
     mv_mappings := [Sample.mapping] |}.
Definition fields : MilvusFields :=
  {| pk_field_ := "pk"; pk_is_varchar_ := false; vector_field_ := "emb" |}.
Definition uuid : LibUuid :=
  {| uuid_generate_sha1 := λ _ k, byte_val <$> bytes_of_string k; uuid_unparse_lower := λ _, "u" |}.
End DemoMilvus.

Lemma milvus_init_sound_witness :
  "pk" ≠ "" ∧ "emb" ≠ "" ∧ (0 ≤ 1)%Z ∧
  ∀ t, t ∈ [Sample.mapping] →
    id_sink_ t ≠ "pk" ∧ id_sink_ t ≠ "emb" ∧ embed_sink_ t ≠ "pk" ∧ embed_sink_ t ≠ "emb".
Proof.
  apply (milvus_init_sound (P := nat) (H := length_provider) (H0 := DemoMilvus.net) (H1 := DemoMilvus.text) id
    DemoMilvus.config {| curl_ := true; timeout_secs_ := 30 |} 0 0 tt tt DemoMilvus.fields).
  vm_compute. reflexivity.
Defined.

(** Assignments to other members leave a member alone. *)
Lemma set_metadata_get k cols vals l :
  length vals = length cols → k ∉ sink_column <$> cols →
  ∃ l', set_metadata cols vals (JObject l) = Ret (JObject l') ∧ member_get k l' = member_get k l.
Proof.
  revert vals l. induction cols as [|m cols IH]; intros [|v vals] l Hl Hk; try done; [by eauto|].
  simpl in *. apply not_elem_of_cons in Hk as [Hne Hk].
  destruct (IH vals (member_set (sink_column m) (JString v) l)) as (l' & -> & E);
    [by injection Hl|done|]. exists l'. split; [done|].
  by rewrite E, member_get_set, bool_decide_false.
Qed.

(** An upsert keeps the row's identity and its vector: when neither the
    id, the text, the discriminator nor a metadata column goes into the
    primary key or the vector field, the entity sent carries the hashed key
    and the embedding there. *)
Theorem milvus_entity_identity `{LibUuid} (f : MilvusFields) (t : TableMapping)
    (id text : string) (metas : list string) (v : vec) :
  pk_field_ f ≠ vector_field_ f → length metas = length (metadata_columns t) →
  (∀ k, k = pk_field_ f ∨ k = vector_field_ f →
     k ≠ id_sink_ t ∧ k ≠ embed_sink_ t ∧ k ≠ discriminator_sink_ t ∧
     k ∉ sink_column <$> metadata_columns t) →
  ∃ l, milvus_entity f t id text metas v = Ret (JObject l) ∧
    member_get (pk_field_ f) l =
      Some (if pk_is_varchar_ f then JString (uuid5_for (composite_key t id))
            else JInt (int64_id_for (composite_key t id))) ∧
    member_get (vector_field_ f) l = Some (json_vec v).
Proof.
  intros Hpv Hl Hk. unfold milvus_entity.
  assert (∀ k l0, k = pk_field_ f ∨ k = vector_field_ f → ∀ l',
    set_metadata (metadata_columns t) metas (JObject l0) = Ret (JObject l') →
    member_get k l' = member_get k l0) as Hmeta.
  { intros k l0 Hk0 l' E. destruct (set_metadata_get k (metadata_columns t) metas l0 Hl) as (l1 & E1 & E2);
      [by apply Hk|]. congruence. }
  destruct (Hk (pk_field_ f)) as (P1 & P2 & P3 & P4); [by left|].
  destruct (Hk (vector_field_ f)) as (V1 & V2 & V3 & V4); [by right|].
  do 5 (cbn [json_set]; run).
  destruct (has_discriminator_ t); do 2 (cbn [json_set]; run);
    match goal with |- context [set_metadata _ _ (JObject ?l0)] =>
      destruct (set_metadata_get (pk_field_ f) (metadata_columns t) metas l0 Hl P4) as (l & E & Epk)
    end; exists l; (split; [exact E|]); rewrite Epk, (Hmeta (vector_field_ f) _ (or_intror eq_refl) _ E);
    rewrite !member_get_set; rewrite !(bool_decide_false (_ = pk_field_ f)) by congruence;
    rewrite !(bool_decide_false (_ = vector_field_ f)) by congruence;
    simpl; rewrite !bool_decide_true by done; done.
Qed.

Lemma milvus_entity_identity_witness :
  ∃ l, milvus_entity (H2 := DemoMilvus.uuid) DemoMilvus.fields Sample.mapping "1" "one" ["en"] [float_one]
         = Ret (JObject l) ∧
    member_get "pk" l = Some (JInt (int64_id_for (H := DemoMilvus.uuid) "docs:1")) ∧
    member_get "emb" l = Some (json_vec [float_one]).
Proof.
  apply (milvus_entity_identity (H := DemoMilvus.uuid) DemoMilvus.fields Sample.mapping "1" "one" ["en"]).
  - discriminate.
  - reflexivity.
  - intros k [-> | ->]; vm_compute; (repeat split); try discriminate; set_solver.
Defined.

(** The mapping of the sample, with its metadata column stored in [emb]. *)
Definition clashing_mapping : TableMapping :=
  {| source_table := "docs";
     tm_columns := [Sample.col "id" "id"; Sample.col "body" "embed";
                    {| source_column := "lang"; sink_column := "emb"; role := "metadata" |}];
     id_source_ := "id"; id_sink_ := "id_s"; embed_source_ := "body"; embed_sink_ := "body_s";
     has_discriminator_ := true; discriminator_sink_ := "kind"; discriminator_label_ := "docs" |}.

Definition clashing_config : MilvusSinkConfig :=
  {| mv_url := "http://m"; mv_token := ""; mv_db_name := ""; mv_collection := "c";
     mv_mappings := [clashing_mapping] |}.

(** The startup check looks at the id and embed columns only: a mapping
    whose metadata column is stored in the vector field passes [init], and its
    upserts then send the metadata text in place of the embedding. *)
Theorem milvus_metadata_overwrites_vector :
  milvus_init (H := length_provider) (H0 := DemoMilvus.net) (H1 := DemoMilvus.text) id clashing_config
    {| curl_ := true; timeout_secs_ := 30 |} (0, tt) = (Ret DemoMilvus.fields, (0, tt)) ∧
  ∃ l, milvus_entity (H2 := DemoMilvus.uuid) DemoMilvus.fields clashing_mapping "1" "one" ["en"]
         [float_one] = Ret (JObject l) ∧
    member_get "emb" l = Some (JString "en").
Proof. split; [vm_compute; reflexivity|]. eexists. split; vm_compute; reflexivity. Qed.
