(* ===== verification/BackfillStore.v ===== *)
(** * [src/backfill_store.cpp]: the staging store of the initial scan

    One SQLite file per source.  Its two tables are finite maps keyed by their
    primary keys; a statement takes effect as a whole or fails as a whole, and
    [faults] scripts which statements fail (SQLITE_BUSY, a full disk, ...).
    Which rows a [LIMIT] picks is up to SQLite: the class [RowOrder]. *)

From S2P Require Import Prelude.
From stdpp Require Import sorting.
From Stdlib Require Import Lia.

Record RowRec := { row_data : string; row_status : string }.
Record TableRec := { dump_status : string; dumped_row_count : option Z }.

Abbreviation rowkey := (string * string)%type.

Record Store := {
  backfill_rows : gmap rowkey RowRec;
  backfill_tables : gmap string TableRec;
  faults : list (option string);
}.

Record ClaimedRow := { cr_source_table : string; cr_row_id : string; cr_row_data : string }.

(** The order in which SQLite visits rows: any. *)
Class RowOrder := {
  row_order : list (rowkey * RowRec) → list (rowkey * RowRec);
  row_order_perm : ∀ l, row_order l ≡ₚ l;
}.

Definition with_rows (m : gmap rowkey RowRec) (s : Store) : Store :=
  {| backfill_rows := m; backfill_tables := backfill_tables s; faults := faults s |}.
Definition with_tables (m : gmap string TableRec) (s : Store) : Store :=
  {| backfill_rows := backfill_rows s; backfill_tables := m; faults := faults s |}.
Definition with_faults (l : list (option string)) (s : Store) : Store :=
  {| backfill_rows := backfill_rows s; backfill_tables := backfill_tables s; faults := l |}.

(** Prepare, bind and step one statement: it fails and changes nothing, or it
    has its effect. *)
Definition statement {A} (what : string) (f : Store → A * Store) : prog Store A := λ s,
  match faults s with
  | Some err :: fs => (Throw ("BackfillStore: " +:+ what +:+ err), with_faults fs s)
  | None :: fs => let '(a, s') := f (with_faults fs s) in (Ret a, s')
  | [] => let '(a, s') := f s in (Ret a, s')
  end.

Definition key (source_table row_id : string) : rowkey := (c_str source_table, c_str row_id).

Definition pending_row (data : string) : RowRec := {| row_data := data; row_status := "pending" |}.

(** [open()]: the database, then the two tables if they are not there. *)
Definition store_open (db_path : string) : prog Store unit :=
  statement ("failed to open '" +:+ db_path +:+ "': ") (λ s, (tt, s)) ;;
  statement "" (λ s, (tt, s)) ;;
  statement "" (λ s, (tt, s)).

Definition store_reset : prog Store unit :=
  statement "" (λ s, (tt, with_rows ∅ s)) ;;
  statement "" (λ s, (tt, with_tables ∅ s)).

Definition unclaim (r : RowRec) : RowRec :=
  if bool_decide (row_status r = "claimed") then {| row_data := row_data r; row_status := "pending" |}
  else r.

Definition store_reset_stale_claims : prog Store unit :=
  statement "" (λ s, (tt, with_rows (unclaim <$> backfill_rows s) s)).

(** [INSERT OR IGNORE] *)
Definition insert_row (source_table row_id row_data_json : string) : prog Store unit :=
  statement "insert_row failed: " (λ s,
    let k := key source_table row_id in
    (tt, match backfill_rows s !! k with
         | Some _ => s
         | None => with_rows (<[k := pending_row (c_str row_data_json)]> (backfill_rows s)) s
         end)).

Definition mark_table_dump_started (source_table : string) : prog Store unit :=
  statement "mark_table_dump_started failed: " (λ s,
    let k := c_str source_table in
    (tt, match backfill_tables s !! k with
         | Some _ => s
         | None => with_tables
             (<[k := {| dump_status := "in_progress"; dumped_row_count := None |}]> (backfill_tables s)) s
         end)).

Definition mark_table_dumped (source_table : string) (row_count : Z) : prog Store unit :=
  statement "mark_table_dumped failed: " (λ s,
    (tt, with_tables (<[c_str source_table :=
                         {| dump_status := "complete"; dumped_row_count := Some row_count |}]>
                       (backfill_tables s)) s)).

Definition is_table_dumped (source_table : string) : prog Store bool :=
  statement "is_table_dumped failed: " (λ s,
    (match backfill_tables s !! c_str source_table with
     | Some t => bool_decide (dump_status t = "complete")
     | None => false
     end, s)).

Definition has_any_dump_state : prog Store bool :=
  statement "has_any_dump_state failed: " (λ s, (bool_decide (backfill_tables s ≠ ∅), s)).

Definition count_rows_for_table (source_table : string) : prog Store Z :=
  statement "count_rows_for_table failed: " (λ s,
    (i32 (Z.of_nat (size (filter (λ kr : rowkey * RowRec, kr.1.1 = c_str source_table) (backfill_rows s)))), s)).

Definition is_pending (kr : rowkey * RowRec) : Prop := row_status kr.2 = "pending".
#[export] Instance is_pending_dec kr : Decision (is_pending kr).
Proof. unfold is_pending. apply _. Defined.

Definition pending (s : Store) : gmap rowkey RowRec := filter is_pending (backfill_rows s).

Definition has_pending : prog Store bool :=
  statement "has_pending failed: " (λ s, (bool_decide (pending s ≠ ∅), s)).

Definition get_row_data (source_table row_id : string) : prog Store (option string) :=
  statement "get_row_data failed: " (λ s,
    (row_data <$> backfill_rows s !! key source_table row_id, s)).

(** [UPDATE ... WHERE source_table = ? AND row_id = ?]: whatever the status. *)
Definition update_row_data (source_table row_id row_data_json : string) : prog Store bool :=
  statement "update_row_data failed: " (λ s,
    let k := key source_table row_id in
    match backfill_rows s !! k with
    | Some r => (true, with_rows (<[k := {| row_data := c_str row_data_json;
                                            row_status := row_status r |}]> (backfill_rows s)) s)
    | None => (false, s)
    end).

(** The rows the inner [SELECT ... LIMIT ?] yields; a negative limit is none. *)
Definition select_pending `{RowOrder} (limit : Z) (s : Store) : list (rowkey * RowRec) :=
  let l := row_order (map_to_list (pending s)) in
  if (i64 limit <? 0)%Z then l else take (Z.to_nat (i64 limit)) l.

Definition claim (r : RowRec) : RowRec := {| row_data := row_data r; row_status := "claimed" |}.

Definition claim_pending `{RowOrder} (limit : Z) : prog Store (list ClaimedRow) :=
  statement "claim_pending failed: " (λ s,
    let l := select_pending limit s in
    ((λ kr : rowkey * RowRec, {| cr_source_table := kr.1.1; cr_row_id := kr.1.2; cr_row_data := row_data kr.2 |}) <$> l,
     with_rows (foldr (λ kr m, alter claim kr.1 m) (backfill_rows s) l) s)).

Definition mark_done (source_table row_id : string) : prog Store unit :=
  statement "mark_done failed: " (λ s,
    (tt, with_rows (delete (key source_table row_id) (backfill_rows s)) s)).

(** ** Claims *)

Definition row_key (r : ClaimedRow) : rowkey := (cr_source_table r, cr_row_id r).

Lemma claim_all_lookup (l : list (rowkey * RowRec)) (m : gmap rowkey RowRec) k :
  foldr (λ kr m, alter claim kr.1 m) m l !! k =
  if decide (k ∈ l.*1) then claim <$> m !! k else m !! k.
Proof.
  induction l as [|[k' r] l IH]; csimpl; [done|].
  destruct (decide (k = k')) as [->|Hne].
  - rewrite lookup_alter, decide_True by done. rewrite decide_True by by left.
    rewrite IH. case_decide; [|done]. by destruct (m !! k').
  - rewrite lookup_alter_ne by done. rewrite IH.
    destruct (decide (k ∈ l.*1)) as [Hin|Hni].
    + by rewrite decide_True by by right.
    + rewrite decide_False; [done|]. by intros [->|?]%elem_of_cons.
Qed.

Section claims.
Context `{RowOrder}.

Lemma select_pending_perm limit s :
  ∃ rest, select_pending limit s ++ rest ≡ₚ map_to_list (pending s).
Proof.
  unfold select_pending. destruct (_ <? _)%Z.
  - exists []. rewrite app_nil_r. apply row_order_perm.
  - exists (drop (Z.to_nat (i64 limit)) (row_order (map_to_list (pending s)))).
    rewrite take_drop. apply row_order_perm.
Qed.

Lemma select_pending_in limit s k r :
  (k, r) ∈ select_pending limit s → backfill_rows s !! k = Some r ∧ row_status r = "pending".
Proof.
  destruct (select_pending_perm limit s) as [rest Hp]. intros Hin.
  assert ((k, r) ∈ map_to_list (pending s)) as Hm by (rewrite <- Hp; set_solver).
  apply elem_of_map_to_list in Hm. unfold pending in Hm.
  by apply map_lookup_filter_Some in Hm as [? ?].
Qed.

Lemma select_pending_nodup limit s : NoDup (select_pending limit s).*1.
Proof.
  destruct (select_pending_perm limit s) as [rest Hp].
  pose proof (NoDup_fst_map_to_list (pending s)) as Hnd. rewrite <- Hp, fmap_app in Hnd.
  by apply NoDup_app in Hnd as (? & _ & _).
Qed.

(** A statement that succeeds runs on the store without its own script entry,
    one that fails only consumes the entry. *)
Lemma statement_inv {A} what (f : Store → A * Store) s r s' :
  statement what f s = (r, s') →
  (∃ e, r = Throw e ∧ s' = with_faults (tail (faults s)) s) ∨
  (∃ a, r = Ret a ∧ f (with_faults (tail (faults s)) s) = (a, s')).
Proof.
  unfold statement. destruct (faults s) as [|[e|] fs] eqn:Ef.
  - assert (with_faults [] s = s) as E by (destruct s; simpl in *; by subst).
    cbn [tail]. rewrite E. destruct (f s) as [a s1]. intros [= <- <-]. right. eauto.
  - intros [= <- <-]. left. eauto.
  - cbn [tail]. destruct (f (with_faults fs s)) as [a s1] eqn:E. intros [= <- <-]. right. eauto.
Qed.

Lemma claim_pending_inv limit s rs s' :
  claim_pending limit s = (Ret rs, s') →
  ∃ l, select_pending limit s = l ∧ row_key <$> rs = l.*1 ∧ cr_row_data <$> rs = row_data <$> l.*2 ∧
    backfill_rows s' = foldr (λ kr m, alter claim kr.1 m) (backfill_rows s) l ∧
    backfill_tables s' = backfill_tables s ∧ faults s' = tail (faults s).
Proof.
  intros [(e & ? & _)|(a & [= <-] & [= <- <-])]%statement_inv; [done|].
  assert (select_pending limit (with_faults (tail (faults s)) s) = select_pending limit s) as E by done.
  rewrite E. exists (select_pending limit s). split_and!; try done.
  - rewrite <- list_fmap_compose. apply list_fmap_ext. by intros ? [[]].
  - by rewrite <- !list_fmap_compose.
Qed.

(** Each row returned is one of the rows selected. *)
Lemma claim_pending_rows limit s rs s' r :
  claim_pending limit s = (Ret rs, s') → r ∈ rs →
  ∃ d, (row_key r, d) ∈ select_pending limit s ∧ row_data d = cr_row_data r ∧
    row_key r ∈ (select_pending limit s).*1.
Proof.
  intros (l & Hl & Hk & Hdat & _)%claim_pending_inv (i & Hi)%list_elem_of_lookup. rewrite Hl.
  assert (l.*1 !! i = Some (row_key r)) as H1 by by rewrite <- Hk, list_lookup_fmap, Hi.
  assert ((row_data <$> l.*2) !! i = Some (cr_row_data r)) as H2
    by by rewrite <- Hdat, list_lookup_fmap, Hi.
  pose proof (list_elem_of_lookup_2 _ _ _ H1).
  rewrite list_lookup_fmap in H1. rewrite <- list_fmap_compose, list_lookup_fmap in H2.
  destruct (l !! i) as [[k d]|] eqn:Eli; [|done]. simpl in *. injection H1 as ->. injection H2 as H2.
  exists d. split_and!; [by eapply list_elem_of_lookup_2|done|done].
Qed.

Lemma claim_pending_was limit s rs s' r :
  claim_pending limit s = (Ret rs, s') → r ∈ rs →
  backfill_rows s !! row_key r = Some (pending_row (cr_row_data r)) ∧
  backfill_rows s' !! row_key r = Some (claim (pending_row (cr_row_data r))).
Proof.
  intros Hc Hr. destruct (claim_pending_rows _ _ _ _ _ Hc Hr) as (d & Hin & Hd & Hkey).
  apply select_pending_in in Hin as [Hold Hst].
  assert (backfill_rows s !! row_key r = Some (pending_row (cr_row_data r))) as E
    by (rewrite Hold; destruct d; simpl in *; by subst).
  split; [done|]. apply claim_pending_inv in Hc as (l & <- & _ & _ & -> & _).
  by rewrite claim_all_lookup, decide_True, E.
Qed.

(** The operations other workers and the event loop may interleave. *)
Inductive store_op :=
| OInsert (t i d : string)
| OStarted (t : string)
| ODumped (t : string) (n : Z)
| OUpdate (t i d : string)
| OClaim (limit : Z)
| ODone (t i : string).

Definition run_op (o : store_op) : prog Store (list ClaimedRow) :=
  match o with
  | OInsert t i d => insert_row t i d ;; mret []
  | OStarted t => mark_table_dump_started t ;; mret []
  | ODumped t n => mark_table_dumped t n ;; mret []
  | OUpdate t i d => update_row_data t i d ;; mret []
  | OClaim limit => claim_pending limit
  | ODone t i => mark_done t i ;; mret []
  end.

(** All the rows the claims among the operations return; an operation that
    throws returns none, and its caller goes on. *)
Fixpoint run_ops (os : list store_op) (s : Store) : list ClaimedRow * Store :=
  match os with
  | [] => ([], s)
  | o :: os =>
      let '(r, s) := run_op o s in
      let '(rs, s) := run_ops os s in
      (match r with Ret l => l | _ => [] end ++ rs, s)
  end.

Definition claimed_at (k : rowkey) (s : Store) : Prop :=
  row_status <$> backfill_rows s !! k = Some "claimed".

Lemma run_op_claimed o s r s' k :
  claimed_at k s → (∀ t i, o = ODone t i → key t i ≠ k) → run_op o s = (r, s') →
  claimed_at k s' ∧ ∀ rs, r = Ret rs → k ∉ row_key <$> rs.
Proof.
  unfold claimed_at. intros Hk Hd Hr.
  assert (∀ (m : prog Store unit), (∀ r s1, m s = (r, s1) → row_status <$> backfill_rows s1 !! k = Some "claimed") →
    (m ;; mret []) s = (r, s') →
    row_status <$> backfill_rows s' !! k = Some "claimed" ∧ ∀ rs : list ClaimedRow, r = Ret rs → k ∉ row_key <$> rs)
    as Hunit.
  { intros m Hm. unfold mbind, prog_bind. destruct (m s) as [[| | |] s1] eqn:E; intros [= <- <-];
      (split; [by eapply Hm|]); intros rs [= <-]; set_solver. }
  destruct o as [t i d|t|t n|t i d|limit|t i]; simpl in Hr.
  - eapply Hunit, Hr. intros r1 s1 [(e & _ & ->)|(a & _ & E)]%statement_inv; [done|].
    cbn [with_faults backfill_rows] in E.
    destruct (backfill_rows s !! key t i) eqn:El; injection E as _ <-; [done|]. simpl.
    rewrite lookup_insert_ne; [done|]. intros <-. by rewrite El in Hk.
  - eapply Hunit, Hr. intros r1 s1 [(e & _ & ->)|(a & _ & E)]%statement_inv; [done|].
    cbv zeta in E. destruct (backfill_tables _ !! c_str t); injection E as _ <-; done.
  - eapply Hunit, Hr. intros r1 s1 [(e & _ & ->)|(a & _ & E)]%statement_inv; [done|]. by injection E as _ <-.
  - unfold mbind, prog_bind in Hr. destruct (update_row_data t i d s) as [r1 s1] eqn:E.
    assert (row_status <$> backfill_rows s1 !! k = Some "claimed") as H1.
    { apply statement_inv in E as [(e & _ & ->)|(a & _ & E)]; [done|].
      cbn [with_faults backfill_rows] in E.
      destruct (backfill_rows s !! key t i) as [r0|] eqn:El; injection E as _ <-; [|done]. simpl.
      destruct (decide (key t i = k)) as [<-|Hne]; [|by rewrite lookup_insert_ne].
      rewrite lookup_insert_eq. simpl. by rewrite El in Hk. }
    destruct r1; injection Hr as <- <-; (split; [done|]); intros rs [= <-]; set_solver.
  - destruct r as [rs| | |].
    + apply claim_pending_inv in Hr as (l & Hl & Hkeys & _ & Hrows & _).
      assert (k ∉ l.*1) as Hni.
      { intros ([k' r'] & -> & Hin)%list_elem_of_fmap. rewrite <- Hl in Hin.
        apply select_pending_in in Hin as [E1 E2]. simpl in *. rewrite E1 in Hk. simpl in Hk. congruence. }
      split; [by rewrite Hrows, claim_all_lookup, decide_False|].
      intros ? [= <-]. by rewrite Hkeys.
    + apply statement_inv in Hr as [(e & _ & ->)|(a & ? & _)]; done.
    + by apply statement_inv in Hr as [(e & ? & _)|(a & ? & _)].
    + by apply statement_inv in Hr as [(e & ? & _)|(a & ? & _)].
  - eapply Hunit, Hr. intros r1 s1 [(e & _ & ->)|(a & _ & E)]%statement_inv; [done|].
    injection E as _ <-. simpl. rewrite lookup_delete_ne; [done|]. by apply Hd.
Qed.

Lemma run_ops_claimed os s k :
  claimed_at k s → (∀ t i, ODone t i ∈ os → key t i ≠ k) →
  k ∉ row_key <$> (run_ops os s).1 ∧ claimed_at k (run_ops os s).2.
Proof.
  revert s. induction os as [|o os IH]; intros s Hk Hd; simpl; [split; [set_solver|done]|].
  destruct (run_op o s) as [r s1] eqn:E.
  destruct (run_op_claimed o s r s1 k Hk) as [Hk1 Hr]; [by intros t i ->; apply Hd; left|done|].
  destruct (IH s1 Hk1) as [Hni Hk2]; [by intros t i ?; apply Hd; right|].
  destruct (run_ops os s1) as [rs s2]. simpl in *. split; [|done].
  rewrite fmap_app, elem_of_app. intros [Hin|?]; [|done].
  destruct r as [l| | |]; try (by apply elem_of_nil in Hin). by eapply Hr.
Qed.
End claims.

(** A row is handed out once: the rows one [claim_pending] returns are
    distinct, were pending, and carry their stored data; and whatever
    operations follow (other claims, dumps, merged updates, rows marked done,
    any of them failing), no later claim returns such a row again unless that
    very row was marked done in between. *)
Theorem claims_are_exclusive `{RowOrder} (limit : Z) (s s1 : Store) (rs : list ClaimedRow)
    (os : list store_op) :
  claim_pending limit s = (Ret rs, s1) →
  NoDup (row_key <$> rs) ∧
  (∀ r, r ∈ rs → backfill_rows s !! row_key r = Some (pending_row (cr_row_data r))) ∧
  (∀ r, r ∈ rs → (∀ t i, ODone t i ∈ os → key t i ≠ row_key r) →
     row_key r ∉ row_key <$> (run_ops os s1).1).
Proof.
  intros Hc. split_and!.
  - pose proof Hc as (l & <- & -> & _)%claim_pending_inv. apply select_pending_nodup.
  - intros r Hr. by apply (claim_pending_was _ _ _ _ _ Hc Hr).
  - intros r Hr Hd. apply run_ops_claimed; [|done]. unfold claimed_at.
    by rewrite (proj2 (claim_pending_was _ _ _ _ _ Hc Hr)).
Qed.

#[export] Instance listed_order : RowOrder := {| row_order := id; row_order_perm := λ l, reflexivity l |}.

Definition two_rows : Store :=
  {| backfill_rows := {[("t", "1") := pending_row "a"; ("t", "2") := pending_row "b"]};
     backfill_tables := ∅; faults := [] |}.

Lemma claims_are_exclusive_witness :
  ∃ s1 rs, claim_pending 1 two_rows = (Ret rs, s1) ∧ length rs = 1 ∧
  (NoDup (row_key <$> rs) ∧
   (∀ r, r ∈ rs → backfill_rows two_rows !! row_key r = Some (pending_row (cr_row_data r))) ∧
   (∀ r, r ∈ rs → (∀ t i, ODone t i ∈ [OUpdate "t" "1" "c"; OClaim 5] → key t i ≠ row_key r) →
      row_key r ∉ row_key <$> (run_ops [OUpdate "t" "1" "c"; OClaim 5] s1).1)).
Proof.
  eexists _, _. split; [vm_compute; reflexivity|]. split; [reflexivity|].
  apply (claims_are_exclusive 1 two_rows). vm_compute. reflexivity.
Defined.

(** Every row is waiting or handed out. *)
Definition statuses_ok (s : Store) : Prop :=
  map_Forall (λ _ r, row_status r = "pending" ∨ row_status r = "claimed") (backfill_rows s).

(** A crash leaves nothing claimed for ever: after the stale claims are reset
    every row is pending again, with its data. *)
Lemma reset_stale_rows s :
  statuses_ok s → faults s = [] →
  ∃ s', store_reset_stale_claims s = (Ret tt, s') ∧ faults s' = [] ∧
    backfill_tables s' = backfill_tables s ∧
    backfill_rows s' = (λ r, pending_row (row_data r)) <$> backfill_rows s.
Proof.
  intros Hs Hf. unfold store_reset_stale_claims, statement. rewrite Hf. eexists. split; [done|].
  split_and!; [done|done|]. simpl. apply map_eq. intros k. rewrite !lookup_fmap.
  destruct (backfill_rows s !! k) as [r|] eqn:E; [|done]. simpl. f_equal.
  unfold unclaim, pending_row. destruct (Hs k r E) as [Hp|Hp]; rewrite Hp; [|done].
  destruct r. simpl in *. by subst.
Qed.
