(* ===== verification/Backfill.v ===== *)
(** * [src/backfill_util.cpp] and [src/backfill_worker.cpp]: the initial scan

    The source process dumps the rows that exist when its slot is created into
    the store ([dump_all]) and lets the store absorb live updates of rows that
    are still there ([absorb_event]); a worker process drains the store into
    the sinks ([run]). *)

From S2P Require Import Prelude Event Config SinkBatch Libpq Http BackfillStore Dispatcher.
From stdpp Require Import relations.
From Stdlib Require Import Lia.

(** ** [BackfillUtil] *)

Record BackfillUtil := {
  conninfo_ : string;
  table_mappings_ : list TableMapping;
  store_path_ : string;
  store_ : Store;
  bu_last_error_ : string;
}.

(** [BackfillUtil::find_mapping] and [BackfillUtil::get_column], which are those
    of the sinks statement by statement, and the constructor. *)
Definition util_find_mapping (u : BackfillUtil) (source_table : string) : option TableMapping :=
  find_mapping (table_mappings_ u) source_table.
Definition util_get_column : DecodedRow → string → string := get_column.
Definition make_util (conninfo : string) (table_mappings : list TableMapping) (store_path : string) (on_disk : Store) :
    BackfillUtil :=
  {| conninfo_ := conninfo; table_mappings_ := table_mappings; store_path_ := store_path; store_ := on_disk;
     bu_last_error_ := "" |}.

(** A call on [store_]. *)
Definition on_store {A} (m : prog Store A) : prog BackfillUtil A := λ u,
  let '(r, s) := m (store_ u) in
  (r, {| conninfo_ := conninfo_ u; table_mappings_ := table_mappings_ u;
         store_path_ := store_path_ u; store_ := s; bu_last_error_ := bu_last_error_ u |}).

Definition set_table_mappings (tms : list TableMapping) : prog BackfillUtil unit := modify (λ u,
  {| conninfo_ := conninfo_ u; table_mappings_ := tms; store_path_ := store_path_ u;
     store_ := store_ u; bu_last_error_ := bu_last_error_ u |}).

Definition set_bu_error (e : string) : prog BackfillUtil unit := modify (λ u,
  {| conninfo_ := conninfo_ u; table_mappings_ := table_mappings_ u; store_path_ := store_path_ u;
     store_ := store_ u; bu_last_error_ := e |}).

(** [open()]: [create_directories] on the parent of the path, which may throw. *)
Definition bu_open (create_parent : string → outcome unit) : prog BackfillUtil unit :=
  u ← gets id;
  lift (create_parent (store_path_ u)) ;;
  on_store (store_open (store_path_ u)).

Definition bu_reset : prog BackfillUtil unit := on_store store_reset.
Definition bu_reset_stale_claims : prog BackfillUtil unit := on_store store_reset_stale_claims.
Definition has_prior_dump_state : prog BackfillUtil bool := on_store has_any_dump_state.
Definition has_pending_work : prog BackfillUtil bool := on_store has_pending.

(** *** The dump *)

Definition select_cols (t : TableMapping) : list string :=
  [id_source_ t; embed_source_ t] ++ (source_column <$> metadata_columns t).

Definition select_sql (t : TableMapping) : string :=
  "SELECT " +:+ Prelude.join ", " (select_cols t) +:+ " FROM " +:+ source_table t.

(** The loop over the fields of a row: the row as JSON, and its id. *)
Fixpoint read_fields (id_col : string) (cols : list string) (cells : list (option string))
    (row_json : json) (row_id : string) : outcome (json * string) :=
  match cells with
  | [] => Ret (row_json, row_id)
  | cell :: cells =>
      match cols with
      | [] => UB "select_cols out of range"
      | col :: cols =>
          row_json ← json_set col (match cell with Some v => JString v | None => JNull end) row_json;
          read_fields id_col cols cells row_json
            (match cell with
             | Some v => if bool_decide (col = id_col) then v else row_id
             | None => row_id
             end)
      end
  end.

Section backfill.
Context {Srv : Type} `{Libpq Srv} `{JsonText}.

(** One row of a table's result: staged, or skipped for want of an id. *)
Definition stage_row (t : TableMapping) (cells : list (option string)) : prog BackfillUtil unit :=
  jr ← lift (read_fields (id_source_ t) (select_cols t) cells JNull "");
  let '(row_json, row_id) := (jr : json * string) in
  if str_empty row_id then mret tt
  else text ← lift (dump row_json); on_store (insert_row (source_table t) row_id text).

(** One turn of the loop over the mappings; [false] leaves the loop. *)
Definition dump_table (t : TableMapping) : prog (BackfillUtil * Srv) bool :=
  dumped ← on_fst (on_store (is_table_dumped (source_table t)));
  if (dumped : bool) then mret true
  else
    staged ← on_fst (on_store (count_rows_for_table (source_table t)));
    on_fst (on_store (mark_table_dump_started (source_table t))) ;;
    res ← on_snd (PQexec (select_sql t));
    match res with
    | TuplesOk rows =>
        on_fst (for_each rows (stage_row t)) ;;
        on_fst (on_store (mark_table_dumped (source_table t) (Z.of_nat (length rows)))) ;;
        mret true
    | res =>
        on_fst (set_bu_error ("backfill dump failed for '" +:+ source_table t +:+ "': " +:+ pq_error res)) ;;
        mret false
    end.

Fixpoint dump_tables (ts : list TableMapping) : prog (BackfillUtil * Srv) bool :=
  match ts with
  | [] => mret true
  | t :: ts => ok ← dump_table t; if (ok : bool) then dump_tables ts else mret false
  end.

Definition dump_all : prog (BackfillUtil * Srv) bool :=
  u ← gets fst;
  err ← on_snd (PQconnectdb (conninfo_ u));
  match err with
  | Some e => on_fst (set_bu_error e) ;; mret false
  | None => dump_tables (table_mappings_ u)
  end.

(** *** Live events *)

(** [set_json_column]: the first column of that name, unless unchanged. *)
Definition set_json_column (row : DecodedRow) (col_name : string) (j : json) : outcome json :=
  match find_column (columns row) col_name with
  | None => Ret j
  | Some col =>
      if is_unchanged_toast col then Ret j
      else json_set col_name (if is_null col then JNull else JString (text_value col)) j
  end.

Definition merge_known_columns (row : DecodedRow) (t : TableMapping) (merged : json) : outcome json :=
  j ← set_json_column row (id_source_ t) merged;
  j ← set_json_column row (embed_source_ t) j;
  foldl (λ acc m, j ← acc; set_json_column row (source_column m) j) (Ret j) (metadata_columns t).

Definition absorb_event (event : ChangeEvent) : prog BackfillUtil bool :=
  u ← gets id;
  match op event with
  | OpUpdate | OpDelete =>
      match util_find_mapping u (table_name event) with
      | None => mret false
      | Some t =>
          if bool_decide (op event = OpDelete) then
            match old_row event with
            | None => mret false
            | Some old =>
                let row_id := util_get_column old (id_source_ t) in
                if str_empty row_id then mret false
                else on_store (mark_done (source_table t) row_id) ;; mret false
            end
          else
            match new_row event with
            | None => mret false
            | Some new =>
                let row_id := util_get_column new (id_source_ t) in
                if str_empty row_id then mret false
                else
                  existing ← on_store (get_row_data (source_table t) row_id);
                  match existing with
                  | None => mret false
                  | Some data =>
                      j ← lift (parse_json data);
                      merged ← lift (merge_known_columns new t j);
                      text ← lift (dump merged);
                      on_store (update_row_data (source_table t) row_id text) ;;
                      mret true
                  end
            end
      end
  | _ => mret false
  end.

(** ** [BackfillWorker] *)

Fixpoint decode_members (l : list (string * json)) : outcome (list ColumnValue) :=
  match l with
  | [] => Ret []
  | (k, v) :: l =>
      c ← match v with
          | JNull => Ret {| cv_name := k; is_null := true; is_unchanged_toast := false; text_value := "" |}
          | v => s ← json_string v;
                 Ret {| cv_name := k; is_null := false; is_unchanged_toast := false; text_value := s |}
          end;
      cs ← decode_members l; Ret (c :: cs)
  end.

(** Iterating a value that is not an object: nothing for null, and [key()]
    throws on anything else. *)
Definition to_change_event (row : ClaimedRow) : outcome ChangeEvent :=
  j ← parse_json (cr_row_data row);
  cols ← match j with
         | JObject l => decode_members l
         | JNull | JArray [] => Ret []
         | _ => Throw "cannot use key() for non-object iterators"
         end;
  Ret {| op := OpInsert; schema_name := ""; table_name := cr_source_table row; old_row := None;
         new_row := Some {| row_schema := ""; row_table := cr_source_table row; row_kind := TInsert;
                            columns := cols |};
         commit_lsn := 0; commit_timestamp := 0 |}.

Fixpoint to_change_events (rows : list ClaimedRow) : outcome (list ChangeEvent) :=
  match rows with
  | [] => Ret []
  | r :: rows => e ← to_change_event r; es ← to_change_events rows; Ret (e :: es)
  end.

Context `{RowOrder} {W : Type} `{EventSink W}.

(** The [try] block of one batch: rehydrate, hand to every sink, mark done. *)
Definition drain_batch (sinks : list SinkRef) (claimed : list ClaimedRow) : prog (Store * W) unit :=
  events ← lift (to_change_events claimed);
  for_each sinks (λ k, on_snd (call_batch k events)) ;;
  for_each claimed (λ r, on_fst (mark_done (cr_source_table r) (cr_row_id r))).

(** The drain loop of [run]: [inl] is the error the worker stops with. *)
Fixpoint drain_loop (fuel : nat) (limit : Z) (sinks : list SinkRef) : prog (Store * W) (string + unit) :=
  match fuel with
  | O => λ w, (OutOfFuel, w)
  | S fuel =>
      c ← try_catch (l ← on_fst (claim_pending limit); mret (inr l))
                    (λ e, mret (inl ("claim_pending failed: " +:+ e)));
      match c with
      | inl e => mret (inl e)
      | inr [] => mret (inr tt)
      | inr claimed =>
          r ← try_catch (drain_batch sinks claimed ;; mret None)
                        (λ e, mret (Some ("batch processing failed: " +:+ e)));
          match r with
          | Some e => mret (inl e)
          | None => drain_loop fuel limit sinks
          end
      end
  end.

(** [BackfillWorker::run] after the configuration and the sinks are up: open
    the store and drain it. *)
Definition worker_run (fuel : nat) (store_path : string) (limit : Z) (sinks : list SinkRef)
    : prog (Store * W) (string + unit) :=
  o ← try_catch (on_fst (store_open store_path) ;; mret None)
                (λ e, mret (Some ("store open failed: " +:+ e)));
  match o with
  | Some e => mret (inl e)
  | None => drain_loop fuel limit sinks
  end.
End backfill.

(** ** The dump is complete and can be resumed *)

Section dump.
Context {Srv : Type} `{Libpq Srv} `{JsonText}.

(** Store operations of the dump only add rows, and never touch a fault-free
    script. *)
Definition grows (u u' : BackfillUtil) : Prop :=
  backfill_rows (store_ u) ⊆ backfill_rows (store_ u') ∧ faults (store_ u') = [] ∧
  table_mappings_ u' = table_mappings_ u ∧
  ∀ t, dump_status <$> backfill_tables (store_ u) !! t = Some "complete" →
       dump_status <$> backfill_tables (store_ u') !! t = Some "complete".

Lemma grows_refl u : faults (store_ u) = [] → grows u u.
Proof. by intros ?; repeat split. Qed.

Lemma grows_trans u1 u2 u3 : grows u1 u2 → grows u2 u3 → grows u1 u3.
Proof.
  intros (R1 & F1 & M1 & C1) (R2 & F2 & M2 & C2). split_and!; [by etrans|done|congruence|auto].
Qed.

Lemma on_store_statement {A} what (f : Store → A * Store) u :
  faults (store_ u) = [] →
  on_store (statement what f) u = (Ret (f (store_ u)).1,
    {| conninfo_ := conninfo_ u; table_mappings_ := table_mappings_ u;
       store_path_ := store_path_ u; store_ := (f (store_ u)).2; bu_last_error_ := bu_last_error_ u |}).
Proof.
  intros Hf. unfold on_store, statement. rewrite Hf. by destruct (f (store_ u)).
Qed.

Lemma insert_row_grows t i d u :
  faults (store_ u) = [] →
  ∃ u', on_store (insert_row t i d) u = (Ret tt, u') ∧ grows u u' ∧
    backfill_tables (store_ u') = backfill_tables (store_ u) ∧
    is_Some (backfill_rows (store_ u') !! key t i).
Proof.
  intros Hf. unfold insert_row. rewrite on_store_statement by done. eexists. split; [done|]. simpl.
  destruct (backfill_rows (store_ u) !! key t i) as [r|] eqn:E; simpl; rewrite ?E.
  - split_and!; [by repeat split|done|eauto].
  - split_and!; [|done|by rewrite lookup_insert_eq; eauto].
    repeat split; simpl; try done. by apply insert_subseteq.
Qed.

(** The JSON texts of rows can be written (their strings are UTF-8). *)
Context (Hdump : ∀ j, is_ret (dump j) = true).

Lemma stage_row_grows t cells j id u :
  faults (store_ u) = [] → read_fields (id_source_ t) (select_cols t) cells JNull "" = Ret (j, id) →
  ∃ u', stage_row t cells u = (Ret tt, u') ∧ grows u u' ∧
    backfill_tables (store_ u') = backfill_tables (store_ u) ∧
    (id ≠ "" → is_Some (backfill_rows (store_ u') !! key (source_table t) id)).
Proof.
  intros Hf Hr. unfold stage_row, mbind, prog_bind, lift. rewrite Hr.
  destruct (str_empty id) eqn:Ei.
  - apply str_empty_true in Ei. exists u. split_and!; [done|by apply grows_refl|done|done].
  - specialize (Hdump j). destruct (dump j) as [text| | |]; try done.
    destruct (insert_row_grows (source_table t) id text u Hf) as (u' & -> & Hg & Htb & Hk).
    by exists u'.
Qed.

(** Rows as the query for the mapping yields them: one cell per column. *)
Definition rows_ok (t : TableMapping) (rows : list (list (option string))) : Prop :=
  Forall (λ cells, length cells = length (select_cols t)) rows.

Lemma read_fields_total id_col cols cells j id :
  is_obj j = true → length cells = length cols →
  ∃ j' id', read_fields id_col cols cells j id = Ret (j', id').
Proof.
  revert cols j id. induction cells as [|c cells IH]; intros [|col cols] j id Hj Hl; try done; [by eauto|].
  simpl. rewrite json_set_obj by done. apply IH; [done|]. by injection Hl.
Qed.

(** The id under which a row of the result is staged. *)
Definition row_id_of (t : TableMapping) (cells : list (option string)) : string :=
  match read_fields (id_source_ t) (select_cols t) cells JNull "" with
  | Ret (_, id) => id
  | _ => ""
  end.

Lemma stage_rows_grow t rows u :
  faults (store_ u) = [] → rows_ok t rows →
  ∃ u', for_each rows (stage_row t) u = (Ret tt, u') ∧ grows u u' ∧
    backfill_tables (store_ u') = backfill_tables (store_ u) ∧
    ∀ cells, cells ∈ rows → row_id_of t cells ≠ "" →
      is_Some (backfill_rows (store_ u') !! key (source_table t) (row_id_of t cells)).
Proof.
  intros Hf Hok. revert u Hf. induction Hok as [|cells rows Hl Hok IH]; intros u Hf; cbn [for_each].
  { exists u. split_and!; [done|by apply grows_refl|done|]. by intros ? Hn%elem_of_nil. }
  destruct (read_fields_total (id_source_ t) (select_cols t) cells JNull "" eq_refl Hl) as (j & id & Hr).
  destruct (stage_row_grows t cells j id u Hf Hr) as (u1 & H1 & Hg1 & Ht1 & Hk1).
  destruct (IH u1) as (u2 & H2 & Hg2 & Ht2 & Hk2); [apply Hg1|].
  exists u2. rewrite (prog_bind_ret _ _ _ _ _ H1). split_and!; [done|by eapply grows_trans|congruence|].
  intros c [->|Hin]%elem_of_cons Hne; [|by apply Hk2].
  unfold row_id_of in *. rewrite Hr in Hne |- *.
  destruct (Hk1 Hne) as [r Hr1]. exists r. eapply lookup_weaken; [done|apply Hg2].
Qed.

Lemma on_fst_ret {P D A} (m : prog P A) p (d : D) a p' :
  m p = (Ret a, p') → on_fst m (p, d) = (Ret a, (p', d)).
Proof. intros E. unfold on_fst. simpl. by rewrite E. Qed.

(** While the dump runs the tables answer with [answer]. *)
Context (answer : TableMapping → list (list (option string))) (ts0 : list TableMapping).
Context (Hanswer : ∀ t s, t ∈ ts0 → pq_exec (c_str (select_sql t)) s = (TuplesOk (answer t), s)).
Context (Hrows : ∀ t, t ∈ ts0 → rows_ok t (answer t)).

(** A table is on record as dumped, with all its rows staged if it was not
    before. *)
Definition table_done (u0 u : BackfillUtil) (t : TableMapping) : Prop :=
  dump_status <$> backfill_tables (store_ u) !! c_str (source_table t) = Some "complete" ∧
  (dump_status <$> backfill_tables (store_ u0) !! c_str (source_table t) ≠ Some "complete" →
   ∀ cells, cells ∈ answer t → row_id_of t cells ≠ "" →
     is_Some (backfill_rows (store_ u) !! key (source_table t) (row_id_of t cells))).

Lemma table_done_grows u0 u u' t : table_done u0 u t → grows u u' → table_done u0 u' t.
Proof.
  intros [Hc Hr] (Hrows' & _ & _ & Hcomp). split; [auto|].
  intros Hn cells Hin Hne. destruct (Hr Hn cells Hin Hne) as [r ?]. exists r.
  by eapply lookup_weaken.
Qed.

Lemma started_grows t u :
  faults (store_ u) = [] →
  ∃ u', on_store (mark_table_dump_started t) u = (Ret tt, u') ∧ grows u u' ∧
    ∀ k, k ≠ c_str t → backfill_tables (store_ u') !! k = backfill_tables (store_ u) !! k.
Proof.
  intros Hf. unfold mark_table_dump_started. rewrite on_store_statement by done.
  eexists. split; [done|]. simpl. destruct (backfill_tables (store_ u) !! c_str t) eqn:E; simpl.
  - by repeat split.
  - split; [|by intros k Hk; rewrite lookup_insert_ne].
    repeat split; simpl; try done. intros t' Hc.
    rewrite lookup_insert_ne; [done|]. intros <-. by rewrite E in Hc.
Qed.

Lemma dumped_grows t n u :
  faults (store_ u) = [] →
  ∃ u', on_store (mark_table_dumped t n) u = (Ret tt, u') ∧ grows u u' ∧
    (∀ k, k ≠ c_str t → backfill_tables (store_ u') !! k = backfill_tables (store_ u) !! k) ∧
    dump_status <$> backfill_tables (store_ u') !! c_str t = Some "complete".
Proof.
  intros Hf. unfold mark_table_dumped. rewrite on_store_statement by done.
  eexists. split; [done|]. simpl. rewrite lookup_insert_eq.
  split_and!; [|by intros k Hk; rewrite lookup_insert_ne|done].
  repeat split; simpl; try done. intros t' Hc.
  destruct (decide (c_str t = t')) as [<-|Hne]; [by rewrite lookup_insert_eq|].
  by rewrite lookup_insert_ne.
Qed.

(** A query of the store leaves the object as it is. *)
Lemma on_store_query {A} what (g : Store → A) u :
  faults (store_ u) = [] → on_store (statement what (λ s, (g s, s))) u = (Ret (g (store_ u)), u).
Proof. intros Hf. rewrite on_store_statement by done. by destruct u. Qed.

Lemma dump_table_done t u0 u s :
  t ∈ ts0 → faults (store_ u) = [] →
  (dump_status <$> backfill_tables (store_ u) !! c_str (source_table t) = Some "complete" →
   table_done u0 u t) →
  ∃ u', dump_table t (u, s) = (Ret true, (u', s)) ∧ grows u u' ∧ table_done u0 u' t ∧
    ∀ k, k ≠ c_str (source_table t) →
      backfill_tables (store_ u') !! k = backfill_tables (store_ u) !! k.
Proof.
  intros Ht Hf Hpre. unfold dump_table, is_table_dumped, count_rows_for_table.
  rewrite (prog_bind_ret _ _ _ _ _ (on_fst_ret _ _ s _ _ (on_store_query _ _ _ Hf))).
  match goal with |- context [if ?c then _ else _] => destruct c eqn:Ed end.
  { exists u. split_and!; [done|by apply grows_refl| |done]. apply Hpre.
    destruct (backfill_tables (store_ u) !! _) as [tr|]; [|done].
    apply bool_decide_eq_true in Ed. simpl. by rewrite Ed. }
  rewrite (prog_bind_ret _ _ _ _ _ (on_fst_ret _ _ s _ _ (on_store_query _ _ _ Hf))).
  destruct (started_grows (source_table t) u Hf) as (u1 & H1 & Hg1 & Ht1).
  rewrite (prog_bind_ret _ _ _ _ _ (on_fst_ret _ _ s _ _ H1)).
  assert (on_snd (PQexec (select_sql t)) (u1, s) = (Ret (TuplesOk (answer t)), (u1, s))) as Hq
    by (unfold on_snd, PQexec, lib; cbn [fst snd]; by rewrite Hanswer).
  rewrite (prog_bind_ret _ _ _ _ _ Hq).
  destruct (stage_rows_grow t (answer t) u1) as (u2 & H2 & Hg2 & Ht2 & Hst); [apply Hg1|by apply Hrows|].
  rewrite (prog_bind_ret _ _ _ _ _ (on_fst_ret _ _ s _ _ H2)).
  destruct (dumped_grows (source_table t) (Z.of_nat (length (answer t))) u2) as (u3 & H3 & Hg3 & Ht3 & Hc);
    [apply Hg2|].
  rewrite (prog_bind_ret _ _ _ _ _ (on_fst_ret _ _ s _ _ H3)).
  exists u3. split_and!; [done|by eapply grows_trans, grows_trans| |].
  2: { intros k Hk. by rewrite Ht3, Ht2, Ht1. }
  split; [done|]. intros _ cells Hin Hne. destruct (Hst cells Hin Hne) as [r ?]. exists r.
  eapply lookup_weaken; [done|apply Hg3].
Qed.

Lemma dump_tables_done ts u0 u s :
  (∀ t, t ∈ ts → t ∈ ts0) → NoDup (c_str ∘ source_table <$> ts) → faults (store_ u) = [] →
  (∀ t, t ∈ ts → backfill_tables (store_ u) !! c_str (source_table t) =
                 backfill_tables (store_ u0) !! c_str (source_table t)) →
  ∃ u', dump_tables ts (u, s) = (Ret true, (u', s)) ∧ grows u u' ∧ ∀ t, t ∈ ts → table_done u0 u' t.
Proof.
  revert u. induction ts as [|t ts IH]; intros u Hin Hnd Hf Hsame; cbn [dump_tables].
  { exists u. split_and!; [done|by apply grows_refl|]. by intros ? Hn%elem_of_nil. }
  apply NoDup_cons in Hnd as [Hni Hnd].
  destruct (dump_table_done t u0 u s) as (u1 & H1 & Hg1 & Hd1 & Ht1); [by apply Hin; left|done| |].
  { intros Hc. split; [done|]. rewrite <- (Hsame t) by by left. by intros []. }
  destruct (IH u1) as (u2 & H2 & Hg2 & Hd2); [by intros; apply Hin; right|done|apply Hg1| |].
  { intros t' Ht'. rewrite Ht1; [by apply Hsame; right|]. intros E. apply Hni, list_elem_of_fmap.
    by exists t'. }
  exists u2. rewrite (prog_bind_ret _ _ _ _ _ H1). split_and!; [done|by eapply grows_trans|].
  intros t' [->|Ht']%elem_of_cons; [|by apply Hd2]. by eapply table_done_grows.
Qed.
End dump.


(** A source table with one row, and JSON texts that are all the same. *)
Module DemoBackfill.
Definition answer (t : TableMapping) : list (list (option string)) := [[Some "1"; Some "one"; None]].
Definition server : Libpq unit :=
  {| pq_connect := λ _ s, (None, s); pq_exec := λ _ s, (TuplesOk (answer Sample.mapping), s);
     pq_exec_params := λ _ _ s, (CommandOk, s) |}.
Definition text : JsonText := {| dump := λ _, Ret "{}"; parse_json := λ _, Ret (JObject []) |}.
Definition empty_store : Store := {| backfill_rows := ∅; backfill_tables := ∅; faults := [] |}.
Definition util : BackfillUtil :=
  {| conninfo_ := "dbname=x"; table_mappings_ := [Sample.mapping]; store_path_ := "s.sqlite3";
     store_ := empty_store; bu_last_error_ := "" |}.
End DemoBackfill.


(** Only the first mapping of a table is dumped.  The mappings of all
    sinks are handed to the scan as one list; for a second mapping of a table
    that is on record as complete nothing is queried, so the columns only that
    mapping reads are not in the staged rows. *)
Theorem second_mapping_not_dumped {Srv} `{Libpq Srv} `{JsonText} (t1 t2 : TableMapping)
    (u u' : BackfillUtil) (s s' : Srv) :
  source_table t1 = source_table t2 → faults (store_ u') = [] →
  dump_status <$> backfill_tables (store_ u') !! c_str (source_table t1) = Some "complete" →
  dump_tables [t1] (u, s) = (Ret true, (u', s')) →
  dump_tables [t1; t2] (u, s) = (Ret true, (u', s')).
Proof.
  intros Ht Hf Hc H1.
  assert (dump_table t1 (u, s) = (Ret true, (u', s'))) as E1.
  { revert H1. cbn [dump_tables]. unfold mbind, prog_bind.
    by destruct (dump_table t1 (u, s)) as [[[]| | |] ?]. }
  assert (dump_table t2 (u', s') = (Ret true, (u', s'))) as E2.
  { unfold dump_table, is_table_dumped.
    rewrite (prog_bind_ret _ _ _ _ _ (on_fst_ret _ _ s' _ _ (on_store_query _ _ _ Hf))). rewrite <- Ht.
    destruct (backfill_tables (store_ u') !! c_str (source_table t1)) as [tr|]; [|done].
    injection Hc as Hc. rewrite bool_decide_true by done. done. }
  cbn [dump_tables]. rewrite (prog_bind_ret _ _ _ _ _ E1), (prog_bind_ret _ _ _ _ _ E2). done.
Qed.

Lemma second_mapping_not_dumped_witness :
  ∃ u', dump_tables (H := DemoBackfill.server) (H0 := DemoBackfill.text) [Sample.mapping]
          (DemoBackfill.util, tt) = (Ret true, (u', tt)) ∧
    dump_tables (H := DemoBackfill.server) (H0 := DemoBackfill.text)
      [Sample.mapping; {| source_table := "docs"; tm_columns := []; id_source_ := "id"; id_sink_ := "id";
                          embed_source_ := "title"; embed_sink_ := "title"; has_discriminator_ := false;
                          discriminator_sink_ := ""; discriminator_label_ := "" |}]
      (DemoBackfill.util, tt) = (Ret true, (u', tt)).
Proof.
  eexists. split; [vm_compute; reflexivity|].
  apply (second_mapping_not_dumped (H := DemoBackfill.server) (H0 := DemoBackfill.text));
    vm_compute; reflexivity.
Defined.

(** ** Live updates of staged rows *)

Section absorb.
Context `{JsonText}.

Lemma set_json_column_obj row col l :
  ∃ l', set_json_column row col (JObject l) = Ret (JObject l').
Proof.
  unfold set_json_column. destruct (find_column _ _) as [c|]; [|by eauto].
  destruct (is_unchanged_toast c); [by eauto|]. simpl. eauto.
Qed.

Lemma merge_known_columns_obj row t l :
  ∃ l', merge_known_columns row t (JObject l) = Ret (JObject l').
Proof.
  unfold merge_known_columns, mbind, outcome_bind.
  destruct (set_json_column_obj row (id_source_ t) l) as [l1 ->].
  destruct (set_json_column_obj row (embed_source_ t) l1) as [l2 ->].
  generalize l2. induction (metadata_columns t) as [|m ms IH]; intros l3; simpl; [by eauto|].
  destruct (set_json_column_obj row (source_column m) l3) as [l4 ->]. apply IH.
Qed.

Definition with_store (s : Store) (u : BackfillUtil) : BackfillUtil :=
  {| conninfo_ := conninfo_ u; table_mappings_ := table_mappings_ u; store_path_ := store_path_ u;
     store_ := s; bu_last_error_ := bu_last_error_ u |}.

(** An update of a stored row is merged and suppressed, whatever the status of
    the row. *)
Lemma absorb_stored_update u event t new id r l :
  op event = OpUpdate → find_mapping (table_mappings_ u) (table_name event) = Some t →
  new_row event = Some new → get_column new (id_source_ t) = id → id ≠ "" →
  faults (store_ u) = [] → backfill_rows (store_ u) !! key (source_table t) id = Some r →
  parse_json (row_data r) = Ret (JObject l) → (∀ j, is_ret (dump j) = true) →
  ∃ u' j text, merge_known_columns new t (JObject l) = Ret j ∧ dump j = Ret text ∧
    absorb_event event u = (Ret true, u') ∧ faults (store_ u') = [] ∧
    backfill_rows (store_ u') =
      <[key (source_table t) id := {| row_data := c_str text; row_status := row_status r |}]>
        (backfill_rows (store_ u)).
Proof.
  intros Hop Hm Hn Hid Hne Hf Hr Hp Hd.
  destruct (merge_known_columns_obj new t l) as [l' Hmer].
  pose proof (Hd (JObject l')) as Hdump. destruct (dump (JObject l')) as [text| | |] eqn:Ed; try done.
  unfold absorb_event, util_find_mapping, util_get_column. rewrite (prog_bind_ret (gets _) _ u u u eq_refl), Hop, Hm.
  rewrite bool_decide_false by done. rewrite Hn, Hid, (proj2 (str_empty_false id) Hne).
  unfold get_row_data. rewrite (prog_bind_ret _ _ _ _ _ (on_store_query _ _ _ Hf)), Hr.
  cbn [fmap option_fmap option_map].
  rewrite (prog_bind_ret (lift _) _ u (JObject l) u) by (unfold lift; by rewrite Hp).
  rewrite (prog_bind_ret (lift _) _ u (JObject l') u) by (unfold lift; by rewrite Hmer).
  rewrite (prog_bind_ret (lift _) _ u text u) by (unfold lift; by rewrite Ed).
  unfold update_row_data. rewrite (prog_bind_ret _ _ _ _ _ (on_store_statement _ _ _ Hf)).
  cbv zeta. rewrite Hr. by eexists _, (JObject l'), text.
Qed.
End absorb.

(** An update of a row that a worker has claimed is lost.  [absorb_event]
    merges it into the stored row and suppresses its dispatch although the row
    is no longer pending; the worker, which works on the copy it claimed,
    delivers the old data and then deletes the row with the update in it: the
    change is neither dispatched nor stored. *)
Theorem update_of_claimed_row_lost `{JsonText} `{RowOrder} (u : BackfillUtil) (event : ChangeEvent)
    (t : TableMapping) (new : DecodedRow) (id : string) (limit : Z) (rs : list ClaimedRow) (s1 : Store)
    (r : ClaimedRow) (l : list (string * json)) :
  op event = OpUpdate → find_mapping (table_mappings_ u) (table_name event) = Some t →
  new_row event = Some new → get_column new (id_source_ t) = id → id ≠ "" →
  faults (store_ u) = [] → (∀ j, is_ret (dump j) = true) →
  claim_pending limit (store_ u) = (Ret rs, s1) → r ∈ rs → row_key r = key (source_table t) id →
  parse_json (cr_row_data r) = Ret (JObject l) →
  backfill_rows (store_ u) !! row_key r = Some (pending_row (cr_row_data r)) ∧
  ∃ u' s2,
    absorb_event event (with_store s1 u) = (Ret true, u') ∧
    mark_done (cr_source_table r) (cr_row_id r) (store_ u') = (Ret tt, s2) ∧
    backfill_rows s2 !! row_key r = None.
Proof.
  intros Hop Hm Hn Hid Hne Hf Hd Hc Hr Hk Hp.
  destruct (claim_pending_was _ _ _ _ _ Hc Hr) as [Hold Hcl]. split; [done|].
  apply claim_pending_inv in Hc as (_ & _ & _ & _ & _ & _ & Hf1). rewrite Hf in Hf1.
  rewrite Hk in Hcl.
  destruct (absorb_stored_update (with_store s1 u) event t new id _ l Hop Hm Hn Hid Hne Hf1 Hcl Hp Hd)
    as (u' & j & text & _ & _ & Habs & Hf' & _).
  exists u'. unfold mark_done, statement. rewrite Hf'. eexists. split_and!; [done|done|]. simpl.
  assert (key (cr_source_table r) (cr_row_id r) = row_key r) as ->.
  { unfold row_key, key in *. simpl in *. injection Hk as -> ->. by rewrite !c_str_idemp. }
  apply lookup_delete_eq.
Qed.

Definition one_row : Store :=
  {| backfill_rows := {[("docs", "1") := pending_row "{}"]}; backfill_tables := ∅; faults := [] |}.

Lemma update_of_claimed_row_lost_witness :
  ∃ s1, claim_pending 200 one_row =
      (Ret [{| cr_source_table := "docs"; cr_row_id := "1"; cr_row_data := "{}" |}], s1) ∧
    (backfill_rows one_row !! ("docs", "1") = Some (pending_row "{}") ∧
     ∃ u' s2,
       absorb_event (H0 := DemoBackfill.text)
         (Sample.event OpUpdate None (Some (Sample.row "1" "new" "en")))
         (with_store s1 (with_store one_row DemoBackfill.util)) = (Ret true, u') ∧
       mark_done "docs" "1" (store_ u') = (Ret tt, s2) ∧
       backfill_rows s2 !! ("docs", "1") = None).
Proof.
  eexists. split; [vm_compute; reflexivity|].
  apply (update_of_claimed_row_lost (H := DemoBackfill.text) (with_store one_row DemoBackfill.util)
    (Sample.event OpUpdate None (Some (Sample.row "1" "new" "en"))) Sample.mapping
    (Sample.row "1" "new" "en") "1" 200
    [{| cr_source_table := "docs"; cr_row_id := "1"; cr_row_data := "{}" |}] _
    {| cr_source_table := "docs"; cr_row_id := "1"; cr_row_data := "{}" |} []);
    try (vm_compute; reflexivity); try done. by left.
Defined.

(** ** The worker drains the store *)

Section drain.
Context `{JsonText} `{RowOrder} {W : Type} `{EventSink W}.

(** Rows are kept under keys without NUL bytes, as they are inserted. *)
Definition keys_ok (s : Store) : Prop := map_Forall (λ k _, key k.1 k.2 = k) (backfill_rows s).

(** Every waiting row can be turned back into an event. *)
Definition rehydrates (s : Store) : Prop :=
  map_Forall (λ k r, is_ret (to_change_event
    {| cr_source_table := k.1; cr_row_id := k.2; cr_row_data := row_data r |}) = true) (pending s).

Definition event_of (k : rowkey) (data : string) : option ChangeEvent :=
  match to_change_event {| cr_source_table := k.1; cr_row_id := k.2; cr_row_data := data |} with
  | Ret e => Some e
  | _ => None
  end.

Lemma to_change_events_ok rs :
  (∀ r, r ∈ rs → is_ret (to_change_event r) = true) →
  ∃ es, to_change_events rs = Ret es ∧
    (∀ r e, r ∈ rs → to_change_event r = Ret e → e ∈ es) ∧
    (∀ e, e ∈ es → ∃ r, r ∈ rs ∧ to_change_event r = Ret e).
Proof.
  induction rs as [|r rs IH]; intros Hr; simpl.
  { exists []. split_and!; [done|by intros ? ? ?%elem_of_nil|by intros ? ?%elem_of_nil]. }
  pose proof (Hr r ltac:(by left)) as Hr1. destruct (to_change_event r) as [e| | |] eqn:E; try done.
  destruct IH as (es & Hes & Hin & Hout); [by intros; apply Hr; right|]. simpl. rewrite Hes. simpl.
  eexists. split_and!; [done| |].
  - intros r' e' [->|Hr']%elem_of_cons He'; [|by right; eapply Hin].
    rewrite E in He'. injection He' as <-. by left.
  - intros e' [->|(r' & ? & ?)%Hout]%elem_of_cons; [exists r|exists r']; split; try done; by constructor.
Qed.

Lemma is_pending_lookup s k d :
  backfill_rows s !! k = Some (pending_row d) → pending s !! k = Some (pending_row d).
Proof. intros Hk. by apply map_lookup_filter_Some. Qed.

Lemma mark_done_all rs (s : Store) (w : W) :
  faults s = [] →
  ∃ s', for_each rs (λ r, on_fst (mark_done (cr_source_table r) (cr_row_id r))) (s, w) = (Ret tt, (s', w)) ∧
    faults s' = [] ∧ backfill_tables s' = backfill_tables s ∧
    (∀ k, k ∉ (λ r, key (cr_source_table r) (cr_row_id r)) <$> rs → backfill_rows s' !! k = backfill_rows s !! k) ∧
    (∀ k, k ∈ (λ r, key (cr_source_table r) (cr_row_id r)) <$> rs → backfill_rows s' !! k = None).
Proof.
  revert s. induction rs as [|r rs IH]; intros s Hf; cbn [for_each].
  { exists s. split_and!; try done. by intros k Hn%elem_of_nil. }
  set (s1 := with_rows (delete (key (cr_source_table r) (cr_row_id r)) (backfill_rows s)) s).
  destruct (IH s1 Hf) as (s2 & H2 & Hf2 & Ht2 & Hout & Hin).
  exists s2. split_and!; try done.
  - rewrite (prog_bind_ret _ _ (s, w) tt (s1, w)); [done|].
    unfold on_fst, mark_done, statement. simpl. by rewrite Hf.
  - intros k [Hne Hk]%not_elem_of_cons. rewrite Hout by done. simpl. by rewrite lookup_delete_ne.
  - intros k Hk. destruct (decide (k ∈ (λ r, key (cr_source_table r) (cr_row_id r)) <$> rs)) as [?|Hn];
      [by apply Hin|]. apply elem_of_cons in Hk as [->|?]; [|done].
    rewrite Hout by done. simpl. apply lookup_delete_eq.
Qed.

(** The sinks are up as long as [Good] holds, and take events [Ev]; [got k e w]
    says that sink [k] has taken [e]. *)
Context (sinks : list SinkRef) (Good : W → Prop) (Ev : ChangeEvent → Prop).
Context (got : SinkRef → ChangeEvent → W → Prop).
Definition sinks_take : Prop := ∀ k es w, k ∈ sinks → Forall Ev es → Good w →
  ∃ w', call_batch k es w = (Ret tt, w') ∧ Good w' ∧ (∀ e, e ∈ es → got k e w') ∧
        (∀ k' e, Ev e → got k' e w → got k' e w').
Context (Htake : sinks_take).

(** The events of the waiting rows. *)
Definition waiting (s : Store) : Prop :=
  ∀ k r e, pending s !! k = Some r → event_of k (row_data r) = Some e → Ev e.

Lemma sinks_call es (s : Store) ks w :
  (∀ k, k ∈ ks → k ∈ sinks) → Forall Ev es → Good w →
  ∃ w', for_each ks (λ k, on_snd (call_batch k es)) (s, w) = (Ret tt, (s, w')) ∧ Good w' ∧
    (∀ k e, k ∈ ks → e ∈ es → got k e w') ∧ (∀ k e, Ev e → got k e w → got k e w').
Proof.
  intros Hks Hev. revert w Hks. induction ks as [|k ks IH]; intros w Hks Hgood; cbn [for_each].
  { exists w. split_and!; try done. by intros ? ? Hn%elem_of_nil. }
  destruct (Htake k es w) as (w1 & Hc & Hg1 & Hg & Hm); [by apply Hks; left|done|done|].
  destruct (IH w1) as (w2 & H2 & Hg2' & Hg2 & Hm2); [by intros; apply Hks; right|done|].
  exists w2. split_and!.
  - rewrite (prog_bind_ret _ _ (s, w) tt (s, w1)); [done|]. unfold on_snd. simpl. by rewrite Hc.
  - done.
  - intros k' e [->|Hk']%elem_of_cons He; [|by apply Hg2].
    apply Hm2; [|by apply Hg]. by eapply Forall_forall in Hev.
  - auto.
Qed.

(** What is left of the store once the claimed rows are marked done. *)
Definition without (l : list rowkey) (s s' : Store) : Prop :=
  faults s' = [] ∧ ∀ k, backfill_rows s' !! k = if decide (k ∈ l) then None else backfill_rows s !! k.

(** One claimed batch: handed to every sink, then gone from the store. *)
Lemma drain_batch_ok limit (s s1 : Store) w rs :
  keys_ok s → rehydrates s → waiting s → Good w → faults s = [] → claim_pending limit s = (Ret rs, s1) →
  ∃ s2 w2, drain_batch sinks rs (s1, w) = (Ret tt, (s2, w2)) ∧ without (row_key <$> rs) s s2 ∧ Good w2 ∧
    (∀ r e k, r ∈ rs → to_change_event r = Ret e → k ∈ sinks → got k e w2) ∧
    (∀ k e, Ev e → got k e w → got k e w2).
Proof.
  intros Hko Hre Hwait Hgood Hf Hcp. pose proof Hcp as (l & Hl & Hk & Hdat & Hrows & Htab & Hf1)%claim_pending_inv.
  rewrite Hf in Hf1.
  destruct (to_change_events_ok rs) as (es & Hes & Hin & Hfrom).
  { intros r [Hd _]%(claim_pending_was _ _ _ _ _ Hcp). destruct r. apply (Hre _ _ (is_pending_lookup _ _ _ Hd)). }
  destruct (sinks_call es s1 sinks w) as (w2 & Hc & Hg2 & Hg & Hm); [done| |done|].
  { apply Forall_forall. intros e (r & Hr & He)%Hfrom. apply (claim_pending_was _ _ _ _ _ Hcp) in Hr as [Hd _].
    apply (Hwait _ _ _ (is_pending_lookup _ _ _ Hd)). destruct r as [t i d]. unfold event_of, row_key. cbn in *.
    by rewrite He. }
  destruct (mark_done_all rs s1 w2 Hf1) as (s2 & Hd & Hf2 & Ht2 & Hout & Hdone).
  assert ((λ r, key (cr_source_table r) (cr_row_id r)) <$> rs = row_key <$> rs) as Ekeys.
  { apply list_fmap_ext. intros i r Hi%list_elem_of_lookup_2.
    apply (claim_pending_was _ _ _ _ _ Hcp) in Hi as [Hd' _]. exact (Hko _ _ Hd'). }
  exists s2, w2. split_and!.
  - unfold drain_batch. rewrite (prog_bind_ret (lift _) _ (s1, w) es (s1, w)) by (unfold lift; by rewrite Hes).
    rewrite (prog_bind_ret _ _ _ _ _ Hc). exact Hd.
  - split; [done|]. intros k. rewrite Ekeys in Hout, Hdone. case_decide as Hin'; [by apply Hdone|].
    rewrite Hout by done. rewrite Hrows, claim_all_lookup, decide_False; [done|]. by rewrite <- Hk.
  - done.
  - intros r e k Hr He Hks. apply Hg; [done|]. by eapply Hin.
  - done.
Qed.

Lemma without_pending l s s2 k r :
  without l s s2 → pending s2 !! k = Some r ↔ pending s !! k = Some r ∧ k ∉ l.
Proof.
  intros [_ Hw]. unfold pending. rewrite !map_lookup_filter_Some, Hw.
  case_decide; naive_solver.
Qed.

Lemma select_nonempty limit s :
  (1 ≤ limit < 2 ^ 63)%Z → select_pending limit s = [] → pending s = ∅.
Proof.
  intros Hl. unfold select_pending. unfold i64. rewrite sint_small by lia.
  rewrite (proj2 (Z.ltb_ge _ _)) by lia.
  pose proof (row_order_perm (map_to_list (pending s))) as Hp.
  destruct (row_order (map_to_list (pending s))) as [|x l] eqn:E.
  - intros _. apply Permutation_nil_l in Hp. symmetry in Hp. by apply map_to_list_empty_iff.
  - destruct (Z.to_nat limit) eqn:En; [lia|done].
Qed.

Lemma drain_loop_ok fuel limit s w :
  (1 ≤ limit < 2 ^ 63)%Z → keys_ok s → rehydrates s → waiting s → Good w → faults s = [] →
  size (pending s) < fuel →
  ∃ s' w', drain_loop fuel limit sinks (s, w) = (Ret (inr tt), (s', w')) ∧ pending s' = ∅ ∧ Good w' ∧
    (∀ k r, backfill_rows s !! k = Some r → row_status r ≠ "pending" → backfill_rows s' !! k = Some r) ∧
    (∀ k r e sk, pending s !! k = Some r → event_of k (row_data r) = Some e → sk ∈ sinks → got sk e w') ∧
    (∀ k e, Ev e → got k e w → got k e w').
Proof.
  intros Hl. revert s w. induction fuel as [|fuel IH]; intros s w Hko Hre Hwait Hgood Hf Hsz; [lia|].
  cbn [drain_loop].
  destruct (claim_pending limit s) as [rr s1] eqn:Hc.
  assert (∃ rs, rr = Ret rs) as [rs ->].
  { unfold claim_pending, statement in Hc. rewrite Hf in Hc. injection Hc as <- _. eauto. }
  rewrite (prog_bind_ret _ _ (s, w) (inr rs) (s1, w)).
  2: { unfold try_catch, mbind, prog_bind, on_fst. cbn [fst snd]. by rewrite Hc. }
  pose proof Hc as (l & Hsel & Hkeys & _ & Hrows & _ & Hf1)%claim_pending_inv.
  destruct rs as [|r0 rs0] eqn:Ers.
  { assert (l = []) as -> by (destruct l; [done|by inversion Hkeys]).
    pose proof (select_nonempty limit s Hl Hsel) as Hpe. simpl in Hrows.
    exists s1, w. assert (pending s1 = ∅) as Hp1 by (unfold pending in *; by rewrite Hrows).
    split_and!; try done.
    - intros k r Hk _. by rewrite Hrows.
    - intros k r e sk Hk. by rewrite Hpe, lookup_empty in Hk. }
  rewrite <- Ers in *.
  destruct (drain_batch_ok limit s s1 w rs Hko Hre Hwait Hgood Hf Hc)
    as (s2 & w2 & Hb & Hwo & Hgood2 & Hgot & Hmono).
  rewrite (prog_bind_ret _ _ (s1, w) None (s2, w2)).
  2: { unfold try_catch. by rewrite (prog_bind_ret _ _ _ _ _ Hb). }
  assert (∀ r, r ∈ rs → pending s !! row_key r = Some (pending_row (cr_row_data r))) as Hrs
    by (intros r [? _]%(claim_pending_was _ _ _ _ _ Hc); by apply is_pending_lookup).
  assert (pending s2 ⊂ pending s) as Hsub.
  { split; [apply map_subseteq_spec; intros k r Hk; by eapply without_pending in Hk as [? _]|].
    intros Hsup. assert (r0 ∈ rs) as Hd%Hrs by (rewrite Ers; by left).
    pose proof (lookup_weaken _ _ _ _ Hd Hsup) as Hd2.
    apply (without_pending _ _ _ _ _ Hwo) in Hd2 as [_ Hn]. apply Hn.
    apply list_elem_of_fmap_2. rewrite Ers. by left. }
  destruct (IH s2 w2) as (s3 & w3 & H3 & Hpe & Hgood3 & Hkeep & Hdel & Hmono3).
  - intros k r Hk. apply (Hko k r). destruct Hwo as [_ Hw]. rewrite Hw in Hk. by case_decide.
  - intros k r Hk. apply Hre. by eapply without_pending in Hk as [? _].
  - intros k r e Hk. apply (Hwait k r e). by eapply without_pending in Hk as [? _].
  - done.
  - apply Hwo.
  - pose proof (map_subset_size _ _ Hsub). lia.
  - exists s3, w3. split_and!; [done|done|done| | |auto].
    + intros k r Hk Hst. apply Hkeep; [|done]. destruct Hwo as [_ Hw]. rewrite Hw, decide_False; [done|].
      intros (r' & -> & Hr'%Hrs)%list_elem_of_fmap.
      apply map_lookup_filter_Some in Hr' as [Hd Hp]. rewrite Hk in Hd. injection Hd as ->. done.
    + intros k r e sk Hk He Hsk. destruct (decide (k ∈ row_key <$> rs)) as [Hin|Hn].
      * apply list_elem_of_fmap in Hin as (r' & -> & Hr').
        rewrite (Hrs r' Hr') in Hk. injection Hk as <-.
        apply Hmono3; [by eapply (Hwait _ _ _ (Hrs r' Hr'))|].
        apply (Hgot r'); [done| |done]. unfold event_of in He.
        destruct r' as [tt ii dd]. simpl in *. by destruct (to_change_event _); simplify_eq.
      * apply (Hdel k r); [|done|done]. by apply (without_pending _ _ _ _ _ Hwo).
Qed.
End drain.

(** The loop reports success only when a claim has come back empty: nothing is
    pending then, whatever failed before. *)
Lemma drain_loop_success `{JsonText} `{RowOrder} {W} `{EventSink W} fuel limit sinks (w w' : Store * W) :
  (1 ≤ limit < 2 ^ 63)%Z → drain_loop fuel limit sinks w = (Ret (inr tt), w') → pending w'.1 = ∅.
Proof.
  intros Hl. revert w. induction fuel as [|fuel IH]; intros w Hd; [done|].
  apply prog_bind_inv in Hd as (c & w1 & Hc & Hd). destruct c as [e|[|r rs]]; [done| |].
  - injection Hd as <-. unfold try_catch in Hc.
    destruct ((l ← on_fst (claim_pending limit); mret (inr l)) w) as [[x| | |] v] eqn:E; try done.
    injection Hc as -> ->. apply prog_bind_inv in E as (l & v1 & Hcl & E). injection E as -> <-.
    unfold on_fst in Hcl. destruct (claim_pending limit w.1) as [r0 s1] eqn:Ecp. injection Hcl as -> <-.
    simpl. apply claim_pending_inv in Ecp as (l & Hsel & Hkeys & _ & Hrows & _).
    destruct l as [|x l]; [|done]. apply select_nonempty in Hsel; [|done].
    unfold pending in *. by rewrite Hrows.
  - apply prog_bind_inv in Hd as ([e|] & w2 & _ & Hd); [done|]. by eapply IH.
Qed.

(** The worker drains the store completely: with the sinks up, an
    error-free store and a batch size of at least one, the loop ends within
    one turn per waiting row and one more, reports success, no row is pending
    any more, every sink has taken the event of every row that was, and rows
    claimed by another worker are untouched. *)
Theorem worker_drains_store `{JsonText} `{RowOrder} {W} `{EventSink W} (sinks : list SinkRef)
    (Good : W → Prop) (Ev : ChangeEvent → Prop) (got : SinkRef → ChangeEvent → W → Prop)
    (limit : Z) (s : Store) (w : W) :
  sinks_take sinks Good Ev got → (1 ≤ limit < 2 ^ 63)%Z → keys_ok s → rehydrates s → waiting Ev s →
  Good w → faults s = [] →
  ∃ s' w', drain_loop (S (size (pending s))) limit sinks (s, w) = (Ret (inr tt), (s', w')) ∧
    pending s' = ∅ ∧ Good w' ∧
    (∀ k r, backfill_rows s !! k = Some r → row_status r ≠ "pending" → backfill_rows s' !! k = Some r) ∧
    (∀ k r e sk, pending s !! k = Some r → event_of k (row_data r) = Some e → sk ∈ sinks → got sk e w').
Proof.
  intros Ht Hl Hko Hre Hwait Hgood Hf.
  destruct (drain_loop_ok sinks Good Ev got Ht (S (size (pending s))) limit s w)
    as (s' & w' & ? & ? & ? & ? & ? & _); [done..|lia|]. by exists s', w'.
Qed.

(** A batch size of zero is accepted by the worker and drains nothing: it
    reports that the drain is complete while rows are pending. *)
Theorem zero_batch_size_drains_nothing `{JsonText} `{RowOrder} {W} `{EventSink W}
    (sinks : list SinkRef) (s : Store) (w : W) :
  faults s = [] →
  ∃ s', drain_loop 1 0 sinks (s, w) = (Ret (inr tt), (s', w)) ∧ pending s' = pending s.
Proof.
  intros Hf. cbn [drain_loop].
  assert (claim_pending 0 s = (Ret [], with_rows (backfill_rows s) s)) as Hc
    by (unfold claim_pending, statement; by rewrite Hf).
  rewrite (prog_bind_ret _ _ (s, w) (inr []) (with_rows (backfill_rows s) s, w)).
  2: { unfold try_catch, mbind, prog_bind, on_fst. cbn [fst snd]. by rewrite Hc. }
  by eexists.
Qed.

(** A sink that lists the events it was given. *)
Definition listing_sink : EventSink (list ChangeEvent) :=
  {| call_batch := λ _ es, modify (λ w, w ++ es); sink_default_required := λ _, true |}.

Lemma worker_drains_store_witness :
  ∃ s' w', drain_loop (H0 := DemoBackfill.text) (H2 := listing_sink) 2 200 [0] (one_row, [])
             = (Ret (inr tt), (s', w')) ∧
    pending s' = ∅ ∧ True ∧
    (∀ k r, backfill_rows one_row !! k = Some r → row_status r ≠ "pending" →
       backfill_rows s' !! k = Some r) ∧
    (∀ k r e sk, pending one_row !! k = Some r →
       event_of (H := DemoBackfill.text) k (row_data r) = Some e → sk ∈ [0] → e ∈ w').
Proof.
  apply (worker_drains_store (H := DemoBackfill.text) (H1 := listing_sink) [0] (λ _, True) (λ _, True)
    (λ _ e w, e ∈ w) 200 one_row []).
  - intros k es w _ _ _. eexists. split; [reflexivity|]. set_solver.
  - lia.
  - apply map_Forall_singleton. reflexivity.
  - intros k r. vm_compute. reflexivity.
  - by intros k r e _ _.
  - exact Logic.I.
  - reflexivity.
Defined.

Lemma zero_batch_size_drains_nothing_witness :
  ∃ s', drain_loop (H0 := DemoBackfill.text) (H2 := listing_sink) 1 0 [0] (one_row, [])
          = (Ret (inr tt), (s', [])) ∧
    pending s' = pending one_row.
Proof.
  apply (zero_batch_size_drains_nothing (H := DemoBackfill.text) (H1 := listing_sink) [0] one_row []).
  reflexivity.
Defined.
