(* ===== verification/ReplicationSource.v ===== *)
(** * [src/pgreplication_source.cpp]: a replication slot as a source of events

    The connection is a server state [Srv] with libpq's query functions
    ([Libpq]) and those of the copy stream, the event loop and the wall clock
    ([CopyStream]).  [handle_], the callback that posts an event to the
    dispatcher, appends to [handled]. *)

From S2P Require Import Prelude ByteUtils WalFrame Event PgOutputParser Config SinkBatch Libpq Http BackfillStore Backfill.
From stdpp Require Import pretty.
From Stdlib Require Import Lia.

(** ** LSNs as text *)

Definition hex_digit (d : Z) : ascii := byte_of (if (d <? 10)%Z then 48 + d else 55 + d)%Z.

(** [%X]: no leading zeros. *)
Fixpoint hex_digits (fuel : nat) (z : Z) (acc : string) : string :=
  match fuel with
  | O => acc
  | S fuel =>
      let acc := String (hex_digit (z mod 16)) acc in
      if (z / 16 =? 0)%Z then acc else hex_digits fuel (z / 16) acc
  end.

(** Eight digits are enough for 32 bits. *)
Definition show_hex32 (z : Z) : string := hex_digits 8 z "".

Definition format_lsn (lsn : Z) : string :=
  show_hex32 (u32 (Z.shiftr lsn 32)) +:+ "/" +:+ show_hex32 (u32 (Z.land lsn 0xFFFFFFFF)).

Definition hex_val (a : ascii) : option Z :=
  let b := byte_val a in
  if (48 <=? b)%Z && (b <=? 57)%Z then Some (b - 48)%Z
  else if (65 <=? b)%Z && (b <=? 70)%Z then Some (b - 55)%Z
  else if (97 <=? b)%Z && (b <=? 102)%Z then Some (b - 87)%Z
  else None.

(** The digits at the head of the text, most significant first; the value
    saturates at [ULONG_MAX]. *)
Fixpoint scan_digits (acc : Z) (s : string) : Z * string :=
  match s with
  | String a s' => match hex_val a with
                   | Some d => scan_digits (Z.min (acc * 16 + d) (2 ^ 64 - 1)) s'
                   | None => (acc, s)
                   end
  | EmptyString => (acc, s)
  end.

(** The subject of [strtoul] in base 16 after its sign: an optional [0x], then
    at least one digit. *)
Definition skip_0x (s : string) : string :=
  match s with
  | String "0" (String "x" r) | String "0" (String "X" r) => r
  | _ => s
  end.

Definition scan_magnitude (s : string) : option (Z * string) :=
  let s := skip_0x s in
  match s with
  | String a _ => match hex_val a with
                  | Some _ => Some (scan_digits 0 s)
                  | None => None
                  end
  | EmptyString => None
  end.

(** A [%X] conversion into a [uint32_t]; [None] when nothing matches. *)
Definition scan_hex (s : string) : option (Z * string) :=
  match skip_spaces s with
  | String "-" s => '(v, r) ← scan_magnitude s; Some (u32 (- v), r)
  | String "+" s => '(v, r) ← scan_magnitude s; Some (u32 v, r)
  | s => '(v, r) ← scan_magnitude s; Some (u32 v, r)
  end.

(** [sscanf(s, "%X/%X", &hi, &lo)] from zeros; then [(hi << 32) | lo]. *)
Definition parse_lsn (s : string) : Z :=
  let '(hi, lo) :=
    match scan_hex (c_str s) with
    | None => (0, 0)%Z
    | Some (hi, String "/" r) =>
        (hi, match scan_hex r with Some (lo, _) => lo | None => 0%Z end)
    | Some (hi, _) => (hi, 0)%Z
    end in
  Z.lor (u64 (Z.shiftl hi 32)) lo.

(** ** The source *)

Record PgReplicationConfig := {
  rc_host : string;
  rc_port : string;
  rc_dbname : string;
  rc_user : string;
  rc_password : string;
  slot_name : string;
  publication_name : string;
  rc_tls : TlsConfig;
  rc_backfill : bool;
  backfill_table_mappings : list TableMapping;
  backfill_store_path : string;
}.

Definition to_conninfo (c : PgReplicationConfig) : string :=
  "host=" +:+ rc_host c +:+ " port=" +:+ rc_port c +:+ " dbname=" +:+ rc_dbname c +:+
  " user=" +:+ rc_user c +:+
  (if str_empty (rc_password c) then "" else " password=" +:+ rc_password c) +:+
  to_conninfo_fragment (rc_tls c) +:+ " replication=database".

Record PgReplicationSource := {
  source_id : Z;
  config_ : PgReplicationConfig;
  conn_ : bool;                        (* whether there is a connection *)
  last_error_ : string;
  start_lsn_ : string;
  last_read_lsn_ : Z;
  confirmed_lsn_ : Z;
  last_status_update_ : Z;
  parser_ : PgOutputParser;
  handle_ : bool;                      (* whether the callback is set *)
  slot_freshly_created_ : bool;
  backfill_util_ : option BackfillUtil;
  read_event_ : option bool;           (* null, or whether the event is added to the loop *)
  timer_event_ : option bool;
  handled : list ChangeEvent;          (* the calls of handle_, in order *)
}.

(** The constructor; [disk] is what the SQLite file at the store's path holds. *)
Definition make_source (id : Z) (c : PgReplicationConfig) (disk : Store) : PgReplicationSource :=
  {| source_id := id; config_ := c; conn_ := false; last_error_ := ""; start_lsn_ := "0/0";
     last_read_lsn_ := 0; confirmed_lsn_ := 0; last_status_update_ := 0; parser_ := new_parser;
     handle_ := false; slot_freshly_created_ := false;
     backfill_util_ :=
       if rc_backfill c then
         Some (make_util (to_conninfo c) (backfill_table_mappings c) (backfill_store_path c) disk)
       else None;
     read_event_ := None; timer_event_ := None; handled := [] |}.

Inductive CopyResult := CopyNone | CopyEnd (err : string) | CopyData (b : byte) (rest : list byte).

Class CopyStream (S : Type) := {
  pq_consume : S → bool * S;                     (* PQconsumeInput *)
  pq_get_copy : S → CopyResult * S;              (* PQgetCopyData(async = 1) *)
  pq_put_copy : list byte → S → bool * S;        (* PQputCopyData > 0 *)
  pq_socket : S → Z;
  event_new : S → bool * S;                      (* not a null pointer *)
  event_add : S → bool * S;                      (* == 0 *)
  unix_time : S → Z * S;                         (* std::time *)
}.

(** *** Assignments *)

Abbreviation src := PgReplicationSource.

Definition upd (f : src → src) {Srv} : prog (src * Srv) unit := modify (λ w, (f w.1, w.2)).

Definition set_conn (b : bool) (s : src) : src :=
  {| source_id := source_id s; config_ := config_ s; conn_ := b; last_error_ := last_error_ s;
     start_lsn_ := start_lsn_ s; last_read_lsn_ := last_read_lsn_ s; confirmed_lsn_ := confirmed_lsn_ s;
     last_status_update_ := last_status_update_ s; parser_ := parser_ s; handle_ := handle_ s;
     slot_freshly_created_ := slot_freshly_created_ s; backfill_util_ := backfill_util_ s;
     read_event_ := read_event_ s; timer_event_ := timer_event_ s; handled := handled s |}.
Definition set_error (e : string) (s : src) : src :=
  {| source_id := source_id s; config_ := config_ s; conn_ := conn_ s; last_error_ := e;
     start_lsn_ := start_lsn_ s; last_read_lsn_ := last_read_lsn_ s; confirmed_lsn_ := confirmed_lsn_ s;
     last_status_update_ := last_status_update_ s; parser_ := parser_ s; handle_ := handle_ s;
     slot_freshly_created_ := slot_freshly_created_ s; backfill_util_ := backfill_util_ s;
     read_event_ := read_event_ s; timer_event_ := timer_event_ s; handled := handled s |}.
Definition set_start (l : string) (fresh : bool) (s : src) : src :=
  {| source_id := source_id s; config_ := config_ s; conn_ := conn_ s; last_error_ := last_error_ s;
     start_lsn_ := l; last_read_lsn_ := last_read_lsn_ s; confirmed_lsn_ := confirmed_lsn_ s;
     last_status_update_ := last_status_update_ s; parser_ := parser_ s; handle_ := handle_ s;
     slot_freshly_created_ := fresh; backfill_util_ := backfill_util_ s;
     read_event_ := read_event_ s; timer_event_ := timer_event_ s; handled := handled s |}.
Definition set_lsns (last confirmed : Z) (s : src) : src :=
  {| source_id := source_id s; config_ := config_ s; conn_ := conn_ s; last_error_ := last_error_ s;
     start_lsn_ := start_lsn_ s; last_read_lsn_ := last; confirmed_lsn_ := confirmed;
     last_status_update_ := last_status_update_ s; parser_ := parser_ s; handle_ := handle_ s;
     slot_freshly_created_ := slot_freshly_created_ s; backfill_util_ := backfill_util_ s;
     read_event_ := read_event_ s; timer_event_ := timer_event_ s; handled := handled s |}.
Definition set_status_time (t : Z) (s : src) : src :=
  {| source_id := source_id s; config_ := config_ s; conn_ := conn_ s; last_error_ := last_error_ s;
     start_lsn_ := start_lsn_ s; last_read_lsn_ := last_read_lsn_ s; confirmed_lsn_ := confirmed_lsn_ s;
     last_status_update_ := t; parser_ := parser_ s; handle_ := handle_ s;
     slot_freshly_created_ := slot_freshly_created_ s; backfill_util_ := backfill_util_ s;
     read_event_ := read_event_ s; timer_event_ := timer_event_ s; handled := handled s |}.
Definition set_parser (p : PgOutputParser) (s : src) : src :=
  {| source_id := source_id s; config_ := config_ s; conn_ := conn_ s; last_error_ := last_error_ s;
     start_lsn_ := start_lsn_ s; last_read_lsn_ := last_read_lsn_ s; confirmed_lsn_ := confirmed_lsn_ s;
     last_status_update_ := last_status_update_ s; parser_ := p; handle_ := handle_ s;
     slot_freshly_created_ := slot_freshly_created_ s; backfill_util_ := backfill_util_ s;
     read_event_ := read_event_ s; timer_event_ := timer_event_ s; handled := handled s |}.
Definition set_util (u : option BackfillUtil) (s : src) : src :=
  {| source_id := source_id s; config_ := config_ s; conn_ := conn_ s; last_error_ := last_error_ s;
     start_lsn_ := start_lsn_ s; last_read_lsn_ := last_read_lsn_ s; confirmed_lsn_ := confirmed_lsn_ s;
     last_status_update_ := last_status_update_ s; parser_ := parser_ s; handle_ := handle_ s;
     slot_freshly_created_ := slot_freshly_created_ s; backfill_util_ := u;
     read_event_ := read_event_ s; timer_event_ := timer_event_ s; handled := handled s |}.
Definition set_loop (h : bool) (r t : option bool) (s : src) : src :=
  {| source_id := source_id s; config_ := config_ s; conn_ := conn_ s; last_error_ := last_error_ s;
     start_lsn_ := start_lsn_ s; last_read_lsn_ := last_read_lsn_ s; confirmed_lsn_ := confirmed_lsn_ s;
     last_status_update_ := last_status_update_ s; parser_ := parser_ s; handle_ := h;
     slot_freshly_created_ := slot_freshly_created_ s; backfill_util_ := backfill_util_ s;
     read_event_ := r; timer_event_ := t; handled := handled s |}.
Definition set_handled (l : list ChangeEvent) (s : src) : src :=
  {| source_id := source_id s; config_ := config_ s; conn_ := conn_ s; last_error_ := last_error_ s;
     start_lsn_ := start_lsn_ s; last_read_lsn_ := last_read_lsn_ s; confirmed_lsn_ := confirmed_lsn_ s;
     last_status_update_ := last_status_update_ s; parser_ := parser_ s; handle_ := handle_ s;
     slot_freshly_created_ := slot_freshly_created_ s; backfill_util_ := backfill_util_ s;
     read_event_ := read_event_ s; timer_event_ := timer_event_ s; handled := l |}.

(** ** Operations *)

Section operations.
Context {Srv : Type} `{Libpq Srv} `{CopyStream Srv} `{JsonText}.
Abbreviation world := (src * Srv)%type.

Definition now : prog world Z := on_snd (lib unix_time).

(** A call on [*backfill_util_]. *)
Definition on_util {A} (m : prog BackfillUtil A) : prog world A := λ w,
  match backfill_util_ w.1 with
  | None => (UB "null backfill_util_", w)
  | Some u => let '(r, u) := m u in (r, (set_util (Some u) w.1, w.2))
  end.

(** The same for [dump_all], which opens a connection of its own. *)
Definition on_util_server {A} (m : prog (BackfillUtil * Srv) A) : prog world A := λ w,
  match backfill_util_ w.1 with
  | None => (UB "null backfill_util_", w)
  | Some u => let '(r, (u, srv)) := m (u, w.2) in (r, (set_util (Some u) w.1, srv))
  end.

Definition resume_slot : prog world unit :=
  s ← gets fst;
  if negb (conn_ s) then upd (set_start "0/0" (slot_freshly_created_ s))
  else
    res ← on_snd (PQexec ("SELECT confirmed_flush_lsn FROM pg_replication_slots WHERE slot_name = '" +:+
                          slot_name (config_ s) +:+ "'"));
    match res with
    | TuplesOk ((Some v :: _) :: _) => upd (set_start v (slot_freshly_created_ s))
    | _ => upd (set_start "0/0" (slot_freshly_created_ s))
    end.

Fixpoint first_column (rows : list (list (option string))) : outcome (list string) :=
  match rows with
  | [] => Ret []
  | r :: rows => v ← PQgetvalue [r] 0 0; vs ← first_column rows; Ret (v :: vs)
  end.

Definition filter_to_source_publication (mappings : list TableMapping) : prog world (list TableMapping) :=
  s ← gets fst;
  res ← on_snd (PQexec ("SELECT tablename FROM pg_publication_tables WHERE pubname = '" +:+
                        publication_name (config_ s) +:+ "'"));
  match res with
  | TuplesOk rows =>
      published_tables ← lift (first_column rows);
      mret (filter (λ t, source_table t ∈ published_tables) mappings)
  | res => throw ("failed to read publication membership for '" +:+ publication_name (config_ s) +:+
                  "': " +:+ pq_error res)
  end.

(** The [try] block of [connect]: open the store, narrow the mappings, start a
    new epoch or take back the claims of a worker that is gone. *)
Definition connect_backfill (create_parent : string → outcome unit) : prog world unit :=
  s ← gets fst;
  on_util (bu_open create_parent) ;;
  tms ← filter_to_source_publication (backfill_table_mappings (config_ s));
  on_util (set_table_mappings tms) ;;
  if slot_freshly_created_ s then on_util bu_reset else on_util bu_reset_stale_claims.

(** The end of [connect]. *)
Definition connect_finish : prog world bool :=
  s ← gets fst;
  let lsn := parse_lsn (start_lsn_ s) in
  upd (set_lsns lsn lsn) ;;
  t ← now;
  upd (set_status_time t) ;;
  mret true.

Definition connect (create_parent : string → outcome unit) : prog world bool :=
  s ← gets fst;
  err ← on_snd (PQconnectdb (to_conninfo (config_ s)));
  match err with
  | Some e => upd (set_error e) ;; upd (set_conn false) ;; mret false
  | None =>
      upd (set_conn true) ;;
      res ← on_snd (PQexec ("CREATE_REPLICATION_SLOT " +:+ slot_name (config_ s) +:+ " LOGICAL pgoutput"));
      match res with
      | TuplesOk ((_ :: _) as rows) =>
          point ← lift (PQgetvalue rows 0 1);
          upd (set_start point true)
      | _ => resume_slot
      end ;;
      s ← gets fst;
      match backfill_util_ s with
      | None => connect_finish
      | Some _ =>
          r ← try_catch (connect_backfill create_parent ;; mret None) (λ e, mret (Some e));
          match r with
          | Some e => upd (set_error ("backfill store open failed: " +:+ e)) ;; mret false
          | None => connect_finish
          end
      end
  end.

Definition run_backfill_dump_if_required : prog world bool :=
  s ← gets fst;
  match backfill_util_ s with
  | None => mret true
  | Some _ =>
      skip ← (if slot_freshly_created_ s then mret false
              else prior ← on_util has_prior_dump_state; mret (negb prior));
      if (skip : bool) then mret true
      else
        ok ← on_util_server dump_all;
        if (ok : bool) then mret true
        else
          s ← gets fst;
          upd (set_error (default "" (bu_last_error_ <$> backfill_util_ s))) ;; mret false
  end.

Definition has_pending_backfill_work : prog world bool :=
  s ← gets fst;
  match backfill_util_ s with
  | None => mret false
  | Some _ => try_catch (on_util has_pending_work) (λ _, mret false)
  end.

(** [confirmed_lsn_.store(lsn)] *)
Definition set_confirmed_lsn (lsn : Z) : prog world unit :=
  upd (λ s, set_lsns (last_read_lsn_ s) lsn s).

Definition start_streaming : prog world bool :=
  s ← gets fst;
  if negb (conn_ s) then
    upd (set_error "start_streaming() called before a successful connect()") ;; mret false
  else
    res ← on_snd (PQexec ("START_REPLICATION SLOT " +:+ slot_name (config_ s) +:+ " LOGICAL " +:+
      start_lsn_ s +:+ " (proto_version '1', publication_names '" +:+ publication_name (config_ s) +:+ "')"));
    match res with
    | CopyBoth => mret true
    | res => upd (set_error (pq_error res)) ;; mret false
    end.

(** *** The standby status update *)

(** [put_u64]: most significant byte first. *)
Definition put_u64 (v : Z) : list byte :=
  (λ i, byte_of (Z.land (Z.shiftr v (i * 8)) 0xFF)) <$> [7; 6; 5; 4; 3; 2; 1; 0]%Z.

Definition kPgEpochOffsetSecs : Z := 946684800.

Definition status_message (confirmed unix_secs : Z) : list byte :=
  let now_us := u64 ((u64 unix_secs - kPgEpochOffsetSecs) * 1000000) in
  ["r"%char] ++ put_u64 confirmed ++ put_u64 confirmed ++ put_u64 confirmed ++ put_u64 now_us ++ [byte_of 0].

Definition ping_update : prog world unit :=
  s ← gets fst;
  t ← now;
  ok ← on_snd (lib (pq_put_copy (status_message (confirmed_lsn_ s) t)));
  mret tt.

Definition flush_confirmed_lsn : prog world unit :=
  s ← gets fst;
  if negb (conn_ s) then mret tt else ping_update.

(** *** The stream *)

(** [handle_(event, id())]: an empty [std::function] throws. *)
Definition handle_event (event : ChangeEvent) : prog world unit :=
  s ← gets fst;
  if handle_ s then upd (λ s, set_handled (handled s ++ [event]) s) else throw "bad_function_call".

(** The body of the loop over the decoded events. *)
Definition forward_event (lsn : Z) (event : ChangeEvent) : prog world unit :=
  let event := set_commit_lsn lsn event in
  s ← gets fst;
  absorbed ← match backfill_util_ s with
             | Some _ => on_util (absorb_event event)
             | None => mret false
             end;
  if (absorbed : bool) then mret tt else handle_event event.

Definition on_parser {A} (m : prog PgOutputParser A) : prog world A := λ w,
  let '(r, p) := m (parser_ w.1) in (r, (set_parser p w.1, w.2)).

Definition process_xlogdata (h : XLogDataHeader) : prog world unit :=
  events ← on_parser (parse (payload h));
  match events with
  | Some events => for_each events (forward_event (wal_start h))
  | None => mret tt
  end.

(** One message out of the buffer.  After a truncated XLogData frame the
    optional header is empty and is dereferenced all the same. *)
Definition handle_message (b : byte) (rest : list byte) : prog world unit :=
  let buf := b :: rest in
  if bool_decide (b = "k"%char) then
    keepalive ← lift (parse_keepalive_message (Some buf));
    match keepalive with
    | None => mret tt
    | Some k =>
        if reply_requested k then ping_update ;; t ← now; upd (set_status_time t) else mret tt
    end
  else if bool_decide (b = "w"%char) then
    header ← lift (parse_xlogdata_header (Some buf));
    match header with
    | None => undefined "header->wal_start on an empty optional"
    | Some h =>
        try_catch (process_xlogdata h) (λ _, mret tt) ;;
        upd (λ s, set_lsns (wal_start h) (confirmed_lsn_ s) s)
    end
  else mret tt.

Fixpoint drain_loop (fuel : nat) : prog world unit :=
  match fuel with
  | O => λ w, (OutOfFuel, w)
  | S fuel =>
      m ← on_snd (lib pq_get_copy);
      match m with
      | CopyNone => mret tt
      | CopyEnd err =>
          upd (set_error err) ;;
          upd (λ s, set_loop (handle_ s) ((λ _, false) <$> read_event_ s)
                             ((λ _, false) <$> timer_event_ s) s)
      | CopyData b rest => handle_message b rest ;; drain_loop fuel
      end
  end.

Definition drain_available_messages (fuel : nat) : prog world unit :=
  _ ← on_snd (lib pq_consume);
  drain_loop fuel.

Definition register_event_loop : prog world bool :=
  s ← gets fst;
  if negb (conn_ s) then
    upd (set_error "register_event_loop() called before a successful connect()") ;; mret false
  else
    upd (λ s, set_loop true (read_event_ s) (timer_event_ s) s) ;;
    sock ← gets (λ w, pq_socket w.2);
    if (sock <? 0)%Z then upd (set_error "PQsocket() returned an invalid descriptor") ;; mret false
    else
      r ← on_snd (lib event_new);
      if negb r then
        upd (λ s, set_loop true None (timer_event_ s) s) ;;
        upd (set_error "event_new() failed for the replication socket") ;; mret false
      else
        upd (λ s, set_loop true (Some false) (timer_event_ s) s) ;;
        r ← on_snd (lib event_add);
        if negb r then upd (set_error "event_add() failed for the replication socket") ;; mret false
        else
          upd (λ s, set_loop true (Some true) (timer_event_ s) s) ;;
          r ← on_snd (lib event_new);
          if negb r then
            upd (λ s, set_loop true (Some true) None s) ;;
            upd (set_error "event_new() failed for the standby-status timer") ;; mret false
          else
            upd (λ s, set_loop true (Some true) (Some false) s) ;;
            r ← on_snd (lib event_add);
            if negb r then upd (set_error "event_add() failed for the standby-status timer") ;; mret false
            else upd (λ s, set_loop true (Some true) (Some true) s) ;; mret true.
End operations.

(** ** LSNs survive the text form *)

(** A property of the sixteen digits, digit by digit. *)
Lemma all_digits (P : Z → Prop) : Forall P (Z.of_nat <$> seq 0 16) → ∀ d, (0 ≤ d < 16)%Z → P d.
Proof.
  rewrite Forall_forall. intros HP d Hd. apply HP, list_elem_of_fmap.
  exists (Z.to_nat d). split; [lia|]. apply elem_of_seq. lia.
Qed.

Lemma hex_val_digit d : (0 ≤ d < 16)%Z → hex_val (hex_digit d) = Some d.
Proof. revert d. apply all_digits. vm_compute. repeat constructor. Qed.

(** The text is not the rest of a [0x] prefix. *)
Definition no_x (s : string) : Prop :=
  match s with String a _ => a ≠ "x"%char ∧ a ≠ "X"%char | EmptyString => True end.

Lemma no_x_digit d s : (0 ≤ d < 16)%Z → no_x (String (hex_digit d) s).
Proof. revert d. apply all_digits. vm_compute. repeat constructor; congruence. Qed.

Lemma scan_digits_cons v d s :
  (0 ≤ d < 16)%Z → (0 ≤ v < 2 ^ 60)%Z →
  scan_digits v (String (hex_digit d) s) = scan_digits (v * 16 + d) s.
Proof. intros Hd Hv. cbn [scan_digits]. rewrite hex_val_digit, Z.min_l by lia. done. Qed.

(** The printed number starts with a digit and reads back as the number. *)
Lemma hex_digits_scan fuel z acc :
  (0 ≤ z < 16 ^ Z.of_nat fuel)%Z → (z < 2 ^ 64)%Z → fuel ≠ 0 → no_x acc →
  scan_digits 0 (hex_digits fuel z acc) = scan_digits z acc ∧
  ∃ d r, hex_digits fuel z acc = String (hex_digit d) r ∧ (0 ≤ d < 16)%Z ∧ no_x r.
Proof.
  revert z acc. induction fuel as [|fuel IH]; intros z acc Hz Hb Hf Hx; [done|].
  pose proof (Z.mod_pos_bound z 16 eq_refl) as Hm. pose proof (Z.div_mod z 16 ltac:(lia)) as Hdm.
  cbn [hex_digits]. case_match eqn:E.
  - apply Z.eqb_eq in E. split; [|eauto].
    rewrite scan_digits_cons by lia. f_equal. lia.
  - apply Z.eqb_neq in E. rewrite Nat2Z.inj_succ, Z.pow_succ_r in Hz by lia.
    assert (0 ≤ z / 16 < 16 ^ Z.of_nat fuel)%Z as Hq.
    { split; [apply Z.div_pos; lia|]. apply Z.div_lt_upper_bound; lia. }
    destruct (IH (z / 16)%Z (String (hex_digit (z mod 16)) acc)) as [-> Hhd];
      [done|lia|intros ->; simpl in Hq; lia|by apply no_x_digit|].
    split; [|done]. rewrite scan_digits_cons by lia. f_equal. lia.
Qed.

Lemma skip_0x_digit d r : (0 ≤ d < 16)%Z → no_x r → skip_0x (String (hex_digit d) r) = String (hex_digit d) r.
Proof.
  intros Hd Hr. unfold skip_0x. split_cases; exfalso; by destruct Hr.
Qed.

Lemma scan_magnitude_digit d r : (0 ≤ d < 16)%Z → no_x r →
  scan_magnitude (String (hex_digit d) r) = Some (scan_digits 0 (String (hex_digit d) r)).
Proof. intros Hd Hr. unfold scan_magnitude. by rewrite skip_0x_digit, hex_val_digit. Qed.

Lemma scan_hex_digit d r : (0 ≤ d < 16)%Z → 
  scan_hex (String (hex_digit d) r) = ('(v, r) ← scan_magnitude (String (hex_digit d) r); Some (u32 v, r)).
Proof. revert d. apply all_digits. repeat constructor. Qed.

Lemma scan_show_hex32 z s :
  (0 ≤ z < 2 ^ 32)%Z → no_x s → (∀ v, scan_digits v s = (v, s)) →
  scan_hex (hex_digits 8 z s) = Some (z, s).
Proof.
  intros Hz Hx Hs.
  destruct (hex_digits_scan 8 z s) as [Hscan (d & r & E & Hd & Hr)]; [|lia|done|done|].
  { simpl Z.of_nat. lia. }
  rewrite E in *. rewrite scan_hex_digit, scan_magnitude_digit, Hscan, Hs by done.
  simpl. unfold u32. by rewrite Z.mod_small.
Qed.

Lemma hex_digits_app fuel z acc s : hex_digits fuel z acc +:+ s = hex_digits fuel z (acc +:+ s).
Proof.
  revert z acc. induction fuel as [|fuel IH]; intros z acc; [done|]. cbn [hex_digits].
  case_match; [done|]. by rewrite IH.
Qed.

Lemma hex_digits_nul_free fuel z acc :
  (0 ≤ z)%Z → nul_free acc = true → nul_free (hex_digits fuel z acc) = true.
Proof.
  assert (∀ d, (0 ≤ d < 16)%Z → is_nul (hex_digit d) = false) as Hd.
  { apply all_digits. vm_compute. repeat constructor. }
  revert z acc. induction fuel as [|fuel IH]; intros z acc Hz Hacc; [done|]. cbn [hex_digits].
  assert (nul_free (String (hex_digit (z mod 16)) acc) = true) as Hn.
  { unfold nul_free in *. simpl. rewrite Hd by (by apply Z.mod_pos_bound). done. }
  case_match; [done|]. apply IH; [by apply Z.div_pos|done].
Qed.

(** C38: the text of a position reads back as the position, for every 64-bit
    LSN: what the slot reports is what streaming resumes from. *)
Theorem lsn_text_roundtrip l : (0 ≤ l < 2 ^ 64)%Z → parse_lsn (format_lsn l) = l.
Proof.
  intros Hl. set (hi := (l / 2 ^ 32)%Z). set (lo := (l mod 2 ^ 32)%Z).
  assert (0 ≤ hi < 2 ^ 32)%Z as Hhi.
  { unfold hi. split; [apply Z.div_pos; lia|]. apply Z.div_lt_upper_bound; lia. }
  assert (0 ≤ lo < 2 ^ 32)%Z as Hlo by (unfold lo; by apply Z.mod_pos_bound).
  assert (format_lsn l = hex_digits 8 hi (String "/" (hex_digits 8 lo ""))) as ->.
  { unfold format_lsn, show_hex32, u32. change 0xFFFFFFFF%Z with (Z.ones 32).
    rewrite Z.land_ones, Z.shiftr_div_pow2 by lia. fold hi lo.
    rewrite !Z.mod_small by done. by rewrite hex_digits_app. }
  unfold parse_lsn. rewrite nul_free_c_str.
  2:{ apply hex_digits_nul_free; [lia|]. pose proof (hex_digits_nul_free 8 lo "" ltac:(lia) eq_refl).
      unfold nul_free in *. done. }
  rewrite scan_show_hex32 by done. rewrite scan_show_hex32 by done.
  rewrite u64_small by (rewrite Z.shiftl_mul_pow2 by lia; lia).
  rewrite lor_shiftl by lia. unfold hi, lo. pose proof (Z.div_mod l (2 ^ 32)). lia.
Qed.

Lemma lsn_text_roundtrip_witness : parse_lsn (format_lsn 0xA0016B3748) = 0xA0016B3748%Z.
Proof. apply lsn_text_roundtrip. lia. Defined.

(** ** What the server is told *)

Lemma byte_of_land x : byte_of (Z.land x 0xFF) = byte_of x.
Proof.
  unfold byte_of. change 0xFF%Z with (Z.ones 8). rewrite Z.land_ones by lia.
  change (2 ^ 8)%Z with 256%Z. by rewrite Z.mod_mod.
Qed.

#[local] Transparent be_bytes.
Lemma put_u64_be v : put_u64 v = be_bytes 8 v.
Proof.
  assert (be_bytes 8 v = byte_of <$> [v / 256 / 256 / 256 / 256 / 256 / 256 / 256;
    v / 256 / 256 / 256 / 256 / 256 / 256; v / 256 / 256 / 256 / 256 / 256;
    v / 256 / 256 / 256 / 256; v / 256 / 256 / 256; v / 256 / 256; v / 256; v]%Z) as -> by done.
  unfold put_u64. cbn [fmap list_fmap].
  rewrite !byte_of_land, !Z.shiftr_div_pow2, !Z.div_div by lia. cbn [Z.mul Pos.mul].
  by rewrite Z.div_1_r.
Qed.
#[local] Opaque be_bytes.

(** The fields of a standby status update, at their offsets. *)
Definition status_fields (msg : list byte) (written flushed applied sent : Z) : Prop :=
  length msg = 34 ∧ msg !! 0 = Some "r"%char ∧
  frame_read_u64 (drop 1 msg) = Ret written ∧ frame_read_u64 (drop 9 msg) = Ret flushed ∧
  frame_read_u64 (drop 17 msg) = Ret applied ∧ frame_read_u64 (drop 25 msg) = Ret sent ∧
  msg !! 33 = Some (byte_of 0).

Lemma fields_of_bytes (a b c d : list byte) (t e : byte) :
  length a = 8 → length b = 8 → length c = 8 → length d = 8 → e = byte_of 0 → t = "r"%char →
  status_fields (t :: a ++ b ++ c ++ d ++ [e]) (be_val a) (be_val b) (be_val c) (be_val d).
Proof.
  intros Ha Hb Hc Hd -> ->. unfold status_fields. split_and!; [|done|..].
  - cbn [length]. rewrite !length_app, Ha, Hb, Hc, Hd. done.
  - rewrite skipn_cons, drop_0. by apply frame_read_u64_be.
  - rewrite skipn_cons, (drop_app_length' a) by done. by apply frame_read_u64_be.
  - rewrite skipn_cons, app_assoc, (drop_app_length' (a ++ b)) by (rewrite length_app; lia).
    by apply frame_read_u64_be.
  - rewrite skipn_cons, !app_assoc, <- (app_assoc _ d), (drop_app_length' ((a ++ b) ++ c))
      by (rewrite !length_app; lia).
    by apply frame_read_u64_be.
  - rewrite !app_assoc, app_comm_cons. apply list_lookup_middle.
    cbn [length]. rewrite !length_app, Ha, Hb, Hc, Hd. done.
Qed.

Lemma status_message_fields confirmed t :
  (0 ≤ confirmed < 2 ^ 64)%Z →
  status_fields (status_message confirmed t) confirmed confirmed confirmed
    (u64 ((u64 t - kPgEpochOffsetSecs) * 1000000)).
Proof.
  intros Hc. unfold status_message. rewrite !put_u64_be.
  pose proof (u64_range ((u64 t - kPgEpochOffsetSecs) * 1000000)) as Ht.
  rewrite <- (be_val_u64 confirmed) at 4 5 6 by done.
  rewrite <- (be_val_u64 (u64 _)) at 2 by done.
  by apply fields_of_bytes; rewrite ?length_be_bytes.
Qed.

(** Every standby status update reports the confirmed position, and nothing
    else, as written, flushed and applied (34 bytes, big-endian, no reply asked
    for), so the server never discards WAL past what the sinks have accepted. *)
Theorem status_update_reports_confirmed {Srv} `{CopyStream Srv} (w : PgReplicationSource * Srv) :
  (0 ≤ confirmed_lsn_ w.1 < 2 ^ 64)%Z →
  ∃ t srv msg, unix_time w.2 = (t, srv) ∧
    ping_update w = (Ret tt, (w.1, (pq_put_copy msg srv).2)) ∧
    status_fields msg (confirmed_lsn_ w.1) (confirmed_lsn_ w.1) (confirmed_lsn_ w.1)
      (u64 ((u64 t - kPgEpochOffsetSecs) * 1000000)).
Proof.
  intros Hc. destruct (unix_time w.2) as [t srv] eqn:Ht.
  exists t, srv, (status_message (confirmed_lsn_ w.1) t).
  split; [done|]. split; [|by apply status_message_fields].
  unfold ping_update, now, on_snd, lib, gets, mbind, prog_bind. rewrite Ht. simpl.
  by destruct (pq_put_copy _ srv).
Qed.

(** A server with buffered frames that records the updates it is sent. *)
Module DemoStream.
Definition server : Type := list (byte * list byte) * list (list byte).
Definition get (s : server) : CopyResult * server :=
  match s.1 with
  | [] => (CopyNone, s)
  | (b, rest) :: q => (CopyData b rest, (q, s.2))
  end.
#[export] Instance stream : CopyStream server :=
  {| pq_consume s := (true, s); pq_get_copy := get; pq_put_copy m s := (true, (s.1, s.2 ++ [m]));
     pq_socket _ := 5%Z; event_new s := (true, s); event_add s := (true, s);
     unix_time s := (1700000000%Z, s) |}.

Definition config : PgReplicationConfig :=
  {| rc_host := "h"; rc_port := "5432"; rc_dbname := "d"; rc_user := "u"; rc_password := "";
     slot_name := "s"; publication_name := "p";
     rc_tls := {| sslmode := ""; sslrootcert := ""; sslcert := ""; sslkey := ""; sslpassword := "" |};
     rc_backfill := false; backfill_table_mappings := []; backfill_store_path := "" |}.

Definition source : PgReplicationSource :=
  set_loop true None None (make_source 0 config DemoBackfill.empty_store).
End DemoStream.
#[local] Existing Instance DemoStream.stream.

Lemma status_update_reports_confirmed_witness :
  ∃ t srv msg, unix_time (([], []) : DemoStream.server) = (t, srv) ∧
    ping_update (set_lsns 0 0x16B3748 DemoStream.source, ([], []) : DemoStream.server) =
      (Ret tt, (set_lsns 0 0x16B3748 DemoStream.source, (pq_put_copy msg srv).2)) ∧
    status_fields msg 0x16B3748 0x16B3748 0x16B3748 (u64 ((u64 t - kPgEpochOffsetSecs) * 1000000)).
Proof.
  apply (status_update_reports_confirmed (set_lsns 0 0x16B3748 DemoStream.source, ([], []) : DemoStream.server)).
  simpl. lia.
Defined.

(** ** Draining the stream *)

(** What the server sends: a decoded message in an XLogData frame, a keepalive,
    or a frame of a type the source ignores. *)
Inductive frame :=
| FXLog (start stop sent : Z) (m : lmsg)
| FKeepalive (stop sent : Z) (reply : byte)
| FOther (t : byte) (body : list byte).

Definition frame_bytes (f : frame) : byte * list byte :=
  match f with
  | FXLog ws we st m => ("w"%char, be_bytes 8 ws ++ be_bytes 8 we ++ be_bytes 8 st ++ encode_msg m)
  | FKeepalive we st r => ("k"%char, be_bytes 8 we ++ be_bytes 8 st ++ [r])
  | FOther t body => (t, body)
  end.

Definition wf_frame (f : frame) : bool :=
  match f with
  | FXLog ws we st m => fits 8 ws && wf_msg m
  | FKeepalive _ _ _ => true
  | FOther t _ => negb (bool_decide (t = "w"%char)) && negb (bool_decide (t = "k"%char))
  end.

(** The events a stream means, stamped with the position of their frame; a
    message about a relation that was never described is skipped. *)
Definition stamp (lsn : Z) (r : outcome (option (list ChangeEvent))) : list ChangeEvent :=
  match r with Ret (Some evs) => set_commit_lsn lsn <$> evs | _ => [] end.

Fixpoint spec_frames (p : PgOutputParser) (fs : list frame) : list ChangeEvent * PgOutputParser :=
  match fs with
  | [] => ([], p)
  | FXLog ws _ _ m :: fs =>
      let '(r, p) := spec_msg m p in
      let '(evs, p) := spec_frames p fs in (stamp ws r ++ evs, p)
  | _ :: fs => spec_frames p fs
  end.

(** The frames libpq has buffered, and what the calls of this component do to
    them: a read takes the first one, a write and the clock leave them alone. *)
Class BufferedStream (Srv : Type) `{CopyStream Srv} := {
  buffered : Srv → list (byte * list byte);
  buffered_empty s : buffered s = [] → pq_get_copy s = (CopyNone, s);
  buffered_next s b rest q : buffered s = (b, rest) :: q →
    ∃ s', pq_get_copy s = (CopyData b rest, s') ∧ buffered s' = q;
  buffered_put m s : buffered (pq_put_copy m s).2 = buffered s;
  buffered_time s : buffered (unix_time s).2 = buffered s;
}.

(** A source without a backfill whose callback is set. *)
Definition plain_source (s : PgReplicationSource) : Prop :=
  backfill_util_ s = None ∧ handle_ s = true.

Section drain.
Context {Srv : Type} `{BufferedStream Srv} `{JsonText}.
Implicit Types w : PgReplicationSource * Srv.

(** [w'] is [w] with more events handed over and another parser state; the
    confirmed position and the buffered frames are the ones given. *)
Definition advanced w w' (evs : list ChangeEvent) (p : PgOutputParser) (q : list (byte * list byte)) : Prop :=
  plain_source w'.1 ∧ handled w'.1 = handled w.1 ++ evs ∧ parser_ w'.1 = p ∧
  confirmed_lsn_ w'.1 = confirmed_lsn_ w.1 ∧ buffered w'.2 = q.

Lemma forward_events lsn evs w :
  plain_source w.1 →
  for_each evs (forward_event lsn) w =
    (Ret tt, (set_handled (handled w.1 ++ (set_commit_lsn lsn <$> evs)) w.1, w.2)).
Proof.
  destruct w as [s srv]. intros [Hb Hh]. simpl in Hb, Hh. revert s Hb Hh.
  induction evs as [|e evs IH]; intros s Hb Hh; csimpl.
  { rewrite app_nil_r. by destruct s. }
  unfold mbind at 1, prog_bind at 1. unfold forward_event at 1, gets, mbind, prog_bind. cbn [fst snd].
  rewrite Hb. cbn. unfold handle_event, gets, mbind, prog_bind. cbn [fst snd]. rewrite Hh.
  cbn. rewrite IH by done. cbn. by rewrite <- app_assoc.
Qed.

Lemma spec_msg_returns m p :
  (∃ o p', spec_msg m p = (Ret o, p')) ∨ (∃ e p', spec_msg m p = (Throw e, p')).
Proof. destruct m; simpl; unfold spec_event; split_cases; eauto. Qed.

(** A keepalive never disturbs the stream. *)
Lemma keepalive_frame we st (r : byte) w :
  plain_source w.1 →
  ∃ w', handle_message "k" (be_bytes 8 we ++ be_bytes 8 st ++ [r]) w = (Ret tt, w') ∧
        advanced w w' [] (parser_ w.1) (buffered w.2).
Proof.
  intros Hp. unfold handle_message. rewrite bool_decide_true by done.
  rewrite keepalive_fields by apply length_be_bytes.
  unfold lift, mbind, prog_bind. cbn [reply_requested]. destruct (negb _).
  - unfold ping_update, now, gets, on_snd, lib, mbind, prog_bind. cbn [fst snd].
    destruct (unix_time w.2) as [t srv] eqn:Et. cbn [fst snd].
    destruct (pq_put_copy (status_message (confirmed_lsn_ w.1) t) srv) as [ok srv'] eqn:Ep.
    cbn [mret prog_ret fst snd].
    destruct (unix_time srv') as [t' srv''] eqn:Et'. exists (set_status_time t' w.1, srv'').
    split; [done|].
    unfold advanced. cbn. split_and!; [done|by rewrite app_nil_r|done|done|].
    pose proof (buffered_time srv') as B1.
    pose proof (buffered_put (status_message (confirmed_lsn_ w.1) t) srv) as B2.
    pose proof (buffered_time w.2) as B3. rewrite Et', Ep, Et in *. simpl in *. congruence.
  - eexists. split; [done|]. unfold advanced. by rewrite app_nil_r.
Qed.

Lemma xlogdata_frame ws we st m w :
  plain_source w.1 → fits 8 ws = true → wf_msg m = true →
  ∃ w', handle_message "w" (be_bytes 8 ws ++ be_bytes 8 we ++ be_bytes 8 st ++ encode_msg m) w
          = (Ret tt, w') ∧
        advanced w w' (stamp ws (spec_msg m (parser_ w.1)).1) (spec_msg m (parser_ w.1)).2 (buffered w.2).
Proof.
  intros Hp Hws%fits_spec Hm. unfold handle_message.
  rewrite bool_decide_false, bool_decide_true by done.
  rewrite xlogdata_fields by apply length_be_bytes. rewrite be_val_u64 by exact Hws.
  unfold lift, mbind, prog_bind, try_catch, process_xlogdata, on_parser. cbn [payload wal_start].
  unfold mbind, prog_bind. rewrite parse_encode by done.
  destruct (spec_msg_returns m (parser_ w.1)) as [([evs|] & p & ->)|(e & p & ->)].
  - rewrite forward_events by done. eexists. by split.
  - eexists. split; [done|]. unfold advanced. cbn. by rewrite app_nil_r.
  - eexists. split; [done|]. unfold advanced. cbn. by rewrite app_nil_r.
Qed.

Lemma handle_frame f w :
  plain_source w.1 → wf_frame f = true →
  ∃ w', handle_message (frame_bytes f).1 (frame_bytes f).2 w = (Ret tt, w') ∧
        advanced w w' (spec_frames (parser_ w.1) [f]).1 (spec_frames (parser_ w.1) [f]).2 (buffered w.2).
Proof.
  intros Hp Hf. destruct f as [ws we st m|we st r|t body]; cbn [frame_bytes fst snd spec_frames].
  - apply andb_true_iff in Hf as [Hws Hm].
    destruct (xlogdata_frame ws we st m w Hp Hws Hm) as (w' & Hw & Ha).
    exists w'. split; [done|]. destruct (spec_msg _ _). by rewrite app_nil_r.
  - by apply keepalive_frame.
  - apply andb_true_iff in Hf as [Ht1 Ht2]. unfold handle_message.
    rewrite (bool_decide_false (t = "k"%char)), (bool_decide_false (t = "w"%char))
      by (by repeat case_bool_decide).
    exists w. split; [done|]. unfold advanced. by rewrite app_nil_r.
Qed.

Lemma spec_frames_cons p f fs :
  spec_frames p (f :: fs) =
    ((spec_frames p [f]).1 ++ (spec_frames (spec_frames p [f]).2 fs).1,
     (spec_frames (spec_frames p [f]).2 fs).2).
Proof.
  destruct f; simpl; [destruct (spec_msg m p); simpl|..]; destruct (spec_frames _ fs);
    by rewrite ?app_nil_r.
Qed.

Lemma drain_loop_spec fs fuel w :
  plain_source w.1 → forallb wf_frame fs = true → buffered w.2 = frame_bytes <$> fs → length fs < fuel →
  ∃ w', drain_loop fuel w = (Ret tt, w') ∧
        advanced w w' (spec_frames (parser_ w.1) fs).1 (spec_frames (parser_ w.1) fs).2 [].
Proof.
  revert fs w. induction fuel as [|fuel IH]; intros fs w Hp Hwf Hq Hlen; [lia|].
  cbn [drain_loop]. unfold mbind, prog_bind, on_snd, lib. destruct fs as [|f fs].
  - rewrite (buffered_empty w.2) by done. exists w. destruct w. split; [done|].
    unfold advanced. cbn in *. by rewrite app_nil_r.
  - apply andb_true_iff in Hwf as [Hf Hfs]. csimpl in Hq. destruct (frame_bytes f) as [b rest] eqn:Eb.
    destruct (buffered_next w.2 b rest _ Hq) as (srv & -> & Hsrv). cbn [fst snd].
    destruct (handle_frame f (w.1, srv) Hp Hf) as (w1 & Hw1 & (Hp1 & Hh1 & Hpar1 & Hc1 & Hb1)).
    rewrite Eb in Hw1. cbn [fst snd] in *. rewrite Hw1.
    destruct (IH fs w1 Hp1 Hfs ltac:(congruence) ltac:(simpl in Hlen; lia)) as (w2 & Hw2 & Ha2).
    exists w2. split; [done|]. rewrite spec_frames_cons.
    destruct Ha2 as (Hp2 & Hh2 & Hpar2 & Hc2 & Hb2). rewrite Hpar1 in *. unfold advanced. cbn [fst snd].
    split_and!; [done| |done|congruence|done]. by rewrite Hh2, Hh1, app_assoc.
Qed.
End drain.


#[export] Instance demo_buffered : BufferedStream DemoStream.server.
Proof.
  refine {| buffered := fst |}; simpl; [|intros [??] b rest q ?; simplify_eq/=; eauto|done|done].
  by intros [[|[]] ?] ?; simplify_eq/=.
Defined.

Definition demo_frames : list frame :=
  (FXLog 100 200 1 <$> demo_stream) ++ [FKeepalive 300 2 "001"; FOther "z" []; FXLog 300 300 3 (MCommit [])].


(** An XLogData frame shorter than its header is undefined behaviour: the
    code warns, then reads [wal_start] through the empty optional. *)
Theorem truncated_xlogdata_undefined {Srv} `{CopyStream Srv} `{JsonText} (rest : list byte)
    (w : PgReplicationSource * Srv) :
  length rest < 24 → ∃ why, handle_message "w" rest w = (UB why, w).
Proof.
  intros Hlen. eexists. unfold handle_message, parse_xlogdata_header.
  rewrite bool_decide_false, bool_decide_true by done.
  rewrite bool_decide_true by (unfold xlogdata_header_len; simpl; lia). reflexivity.
Qed.

Lemma truncated_xlogdata_undefined_witness :
  ∃ why, @handle_message _ DemoStream.stream DemoBackfill.text "w" ["B"%char] (DemoStream.source, ([], []))
         = (UB why, (DemoStream.source, ([], []))).
Proof. apply truncated_xlogdata_undefined. simpl. lia. Defined.
