(* ===== verification/JsonCodec.v ===== *)
(** * A text form of JSON documents

    An executable instance of [JsonText] that reads back what it writes, for
    the servers of the witnesses; its texts are not those of the library. *)

From S2P Require Import Prelude Event Http.
From stdpp Require Import countable.

Abbreviation leaf := (bool + Z + string)%type.
(** A document as a tree of leaves, and back. *)
Fixpoint json_to_tree (j : json) : gen_tree leaf :=
  match j with
  | JNull => GenNode 0 []
  | JBool b => GenLeaf (inl (inl b))
  | JInt z => GenLeaf (inl (inr z))
  | JFloat z => GenNode 1 [GenLeaf (inl (inr z))]
  | JString s => GenLeaf (inr s)
  | JArray l => GenNode 2 (json_to_tree <$> l)
  | JObject l => GenNode 3 ((λ kv, GenNode 4 [GenLeaf (inr kv.1); json_to_tree kv.2]) <$> l)
  end.

Fixpoint tree_to_json (t : gen_tree leaf) : json :=
  match t with
  | GenLeaf (inl (inl b)) => JBool b
  | GenLeaf (inl (inr z)) => JInt z
  | GenLeaf (inr s) => JString s
  | GenNode 1 [GenLeaf (inl (inr z))] => JFloat z
  | GenNode 2 l => JArray (tree_to_json <$> l)
  | GenNode 3 l => JObject ((λ m, match m with
                                  | GenNode _ [GenLeaf (inr k); v] => (k, tree_to_json v)
                                  | _ => ("", JNull)
                                  end) <$> l)
  | _ => JNull
  end.

Lemma tree_json j : tree_to_json (json_to_tree j) = j.
Proof.
  revert j. fix IH 1. intros [| | | | |l|l]; try reflexivity; simpl; f_equal.
  - induction l as [|x l IHl]; [reflexivity|]. simpl. f_equal; [apply IH|exact IHl].
  - induction l as [|[k x] l IHl]; [reflexivity|]. simpl. f_equal; [f_equal; apply IH|exact IHl].
Qed.

(** A number as a text of binary digits, and back. *)
Fixpoint pos_text (p : positive) : string :=
  match p with xH => "" | xO p => String "0" (pos_text p) | xI p => String "1" (pos_text p) end.

Fixpoint text_pos (s : string) : positive :=
  match s with "" => xH | String c s => if Ascii.eqb c "0" then xO (text_pos s) else xI (text_pos s) end.

Lemma text_pos_text p : text_pos (pos_text p) = p.
Proof. induction p; simpl; congruence. Qed.

Definition codec : JsonText :=
  {| dump j := Ret (pos_text (encode (json_to_tree j)));
     parse_json s := match decode (text_pos s) with
                     | Some t => Ret (tree_to_json t)
                     | None => Throw "parse error"
                     end |}.

(** What is written is read back. *)
Lemma codec_roundtrip j t : @dump codec j = Ret t → @parse_json codec t = Ret j.
Proof. intros [= <-]. simpl. by rewrite text_pos_text, decode_encode, tree_json. Qed.
