(* ===== verification/QdrantTable.v ===== *)
(** * The Qdrant collection as a table

    What the Qdrant sink's requests amount to on a server that answers them as
    documented: the collection is the one the changes define. *)

From S2P Require Import Prelude Event Config EmbeddingProvider SinkBatch Http JsonCodec QdrantSink.
From Stdlib Require Import Lia.

Section requests.
Context {Net : Type} `{Curl Net} `{JsonText} `{LibUuid}.
Context (c : QdrantSinkConfig) (h : HttpClient).

(** The requests of the sink, as libcurl gets them. *)
Definition points_request (method : HttpMethod) (path text : string) : Request :=
  {| rq_method := method; rq_url := c_str (url c +:+ "/collections/" +:+ collection c +:+ path);
     rq_headers := "Content-Type: application/json" :: (c_str <$> qdrant_headers c);
     rq_body := Some text; rq_timeout := timeout_secs_ h |}.

Definition points_doc (id : string) (payload : json) (v : vec) : json :=
  JObject [("points", JArray [JObject [("id", JString id); ("vector", json_vec v); ("payload", payload)]])].
Definition ids_doc (id : string) : json := JObject [("points", JArray [JString id])].
Definition filter_doc (key label : string) : json :=
  JObject [("filter", JObject [("must", JArray [JObject [("key", JString key);
    ("match", JObject [("value", JString label)])]])])].

(** A payload whose member [key] is the text [label]. *)
Definition payload_matches (key label : string) (payload : json) : bool :=
  match member_get key (members_of payload) with
  | Some (JString s) => bool_decide (s = label)
  | _ => false
  end.

(** What Qdrant documents of the three requests: a point is stored whole under
    its id, in place of the one there; a deletion takes away the points with
    the given id, or those whose payload satisfies the filter. *)
Class QdrantCollection (J : Net → Prop) (view : Net → gmap string (json * vec)) := {
  answers_upsert : ∀ n text id payload v, J n → dump (points_doc id payload v) = Ret text →
    ∃ chunks n', curl_perform (points_request Put "/points?wait=true" text) n = (inr 200%Z, chunks, n') ∧
      J n' ∧ view n' = <[id := (payload, v)]> (view n);
  answers_delete : ∀ n text id, J n → dump (ids_doc id) = Ret text →
    ∃ chunks n', curl_perform (points_request Post "/points/delete?wait=true" text) n = (inr 200%Z, chunks, n') ∧
      J n' ∧ view n' = delete id (view n);
  answers_filter : ∀ n text key label, J n → dump (filter_doc key label) = Ret text →
    ∃ chunks n', curl_perform (points_request Post "/points/delete?wait=true" text) n = (inr 200%Z, chunks, n') ∧
      J n' ∧ view n' = filter (λ kr, payload_matches key label kr.2.1 = false) (view n);
}.

(** The table: points by id; a later write replaces an earlier one. *)
Definition qdrant_row (t : TableMapping) (id text : string) (metas : list string) (v : vec) : json * vec :=
  (match qdrant_payload t id text metas with Ret p => p | _ => JNull end, v).
Definition replaces (new old : json * vec) : json * vec := new.
Definition qdrant_removed (t : TableMapping) (id : string) (kr : string * (json * vec)) : bool :=
  bool_decide (kr.1 = point_id_for t id).
Definition qdrant_truncated (t : TableMapping) (kr : string * (json * vec)) : bool :=
  payload_matches (discriminator_sink_ t) (discriminator_label_ t) kr.2.1.

Lemma set_metadata_total cols values j :
  is_obj j = true → length values = length cols → ∃ j', set_metadata cols values j = Ret j'.
Proof.
  revert values j. induction cols as [|m cols IH]; intros [|v values] j Hj Hl; try done; [by exists j|].
  cbn [set_metadata]. rewrite json_set_obj by done. run. apply IH; [done|]. by injection Hl.
Qed.

Lemma qdrant_payload_total t id text metas :
  length metas = length (metadata_columns t) → ∃ p, qdrant_payload t id text metas = Ret p.
Proof.
  intros Hl. unfold qdrant_payload. run. destruct (has_discriminator_ t); cbn [json_set]; run;
    by apply set_metadata_total.
Qed.

Context (J : Net → Prop) (view : Net → gmap string (json * vec)) `{!QdrantCollection J view}.
Context (Hcurl : curl_ h = true) (Hdump : ∀ j, is_ret (dump j) = true).

(** A document always has a text. *)
Lemma dump_text j : ∃ text, dump j = Ret text.
Proof. specialize (Hdump j). destruct (dump j); try done. eauto. Qed.

(** A request that is answered with 200 succeeds. *)
Lemma perform_ok method path text n chunks n' :
  method ≠ Get → curl_perform (points_request method path text) n = (inr 200%Z, chunks, n') →
  ∃ resp, perform h method (url c +:+ "/collections/" +:+ collection c +:+ path) text (qdrant_headers c) n
            = (Ret resp, n') ∧ status_2xx resp = true.
Proof.
  intros Hm Hp. unfold perform. rewrite Hcurl. cbn [negb]. unfold points_request in Hp.
  destruct method; try done; rewrite Hp; by eexists.
Qed.

Lemma qdrant_delete_ok selector text n chunks n' :
  dump selector = Ret text →
  curl_perform (points_request Post "/points/delete?wait=true" text) n = (inr 200%Z, chunks, n') →
  qdrant_delete c h selector n = (Ret true, n').
Proof.
  intros Ed Hp. destruct (perform_ok Post _ _ _ _ _ ltac:(done) Hp) as (resp & Hr & H2).
  unfold qdrant_delete, lift, mbind, prog_bind. rewrite Ed. unfold post_json. rewrite Hr. by rewrite H2.
Qed.

Lemma qdrant_store_ok (mappings : list TableMapping) :
  (∀ t, t ∈ mappings → has_discriminator_ t = true) →
  StoreOk (qdrant_ops c h) mappings J view point_id_for qdrant_row replaces qdrant_removed qdrant_truncated.
Proof.
  intros Hd. split.
  - intros t id tx ms v n Ht HJ Hid Hl. destruct (qdrant_payload_total t id tx ms Hl) as [p Hp].
    destruct (dump_text (points_doc (point_id_for t id) p v)) as [text Et].
    destruct (answers_upsert n text (point_id_for t id) p v HJ Et) as (chunks & n' & Hc & HJ' & Hv).
    destruct (perform_ok Put _ _ _ _ _ ltac:(done) Hc) as (resp & Hr & H2).
    exists n'. split_and!; [|done|].
    + cbn [upsert qdrant_ops]. unfold qdrant_upsert, lift, mbind, prog_bind. rewrite Hp.
      unfold points_doc in Et. rewrite Et. unfold put_json. rewrite Hr. by rewrite H2.
    + rewrite Hv. unfold qdrant_row. rewrite Hp. apply map_eq. intros k.
      destruct (decide (k = point_id_for t id)) as [->|Hk].
      * rewrite lookup_insert_eq, lookup_partial_alter_eq. by destruct (view n !! _).
      * by rewrite lookup_insert_ne, lookup_partial_alter_ne.
  - intros t id n Ht HJ Hid. destruct (dump_text (ids_doc (point_id_for t id))) as [text Et].
    destruct (answers_delete n text (point_id_for t id) HJ Et) as (chunks & n' & Hc & HJ' & Hv).
    exists n'. split_and!; [by eapply qdrant_delete_ok|done|]. rewrite Hv. apply map_eq. intros k.
    apply option_eq. intros r. rewrite lookup_delete_Some, map_lookup_filter_Some.
    unfold qdrant_removed. rewrite bool_decide_eq_false. naive_solver.
  - intros t n Ht HJ. cbn [truncate qdrant_ops]. unfold qdrant_truncate, qdrant_filter. rewrite (Hd t Ht).
    destruct (dump_text (filter_doc (discriminator_sink_ t) (discriminator_label_ t))) as [text Et].
    destruct (answers_filter n text _ _ HJ Et) as (chunks & n' & Hc & HJ' & Hv).
    exists n'. split_and!; [by eapply qdrant_delete_ok|done|done].
Qed.
End requests.


(** ** A server that reads the requests *)

Module DemoQdrant.
Abbreviation points := (gmap string (json * vec)).
#[export] Instance text : JsonText := codec.
Definition float_bits (j : json) : Z := match j with JFloat b => b | _ => 0%Z end.
Definition apply_request (doc : json) (m : points) : option points :=
  match doc with
  | JObject [("points", JArray [JObject [("id", JString id); ("vector", JArray fs); ("payload", p)]])] =>
      Some (<[id := (p, float_bits <$> fs)]> m)
  | JObject [("points", JArray [JString id])] => Some (base.delete id m)
  | JObject [("filter", JObject [("must", JArray [JObject [("key", JString key);
      ("match", JObject [("value", JString label)])]])])] =>
      Some (base.filter (λ kr, payload_matches key label kr.2.1 = false) m)
  | _ => None
  end.
(** The answer to the question about the collection: vectors of size 1. *)
Definition sized : json :=
  JObject [("result", JObject [("config", JObject [("params", JObject [("vectors", JObject [("size", JInt 1)])])])])].
#[export] Instance server : Curl points :=
  {| curl_perform rq m :=
       match rq_body rq with
       | Some t => match parse_json t with
                   | Ret doc => match apply_request doc m with
                                | Some m' => (inr 200%Z, [], m')
                                | None => (inr 400%Z, [], m)
                                end
                   | _ => (inr 400%Z, [], m)
                   end
       | None => (inr 200%Z, match dump sized with Ret t => [t] | _ => [] end, m)
       end |}.
Definition config : QdrantSinkConfig :=
  {| url := "http://q"; QdrantSink.api_key := ""; collection := "c"; QdrantSink.mappings := [Sample.mapping] |}.
Definition http : HttpClient := {| curl_ := true; timeout_secs_ := 30 |}.
Definition uuid : LibUuid :=
  {| uuid_generate_sha1 := λ _ s, Z.of_nat ∘ Ascii.nat_of_ascii <$> String.list_ascii_of_string s;
     uuid_unparse_lower := λ l, String.string_of_list_ascii (Ascii.ascii_of_nat ∘ Z.to_nat <$> l) |}.

Lemma answers rq text doc (m m' : points) :
  rq_body rq = Some text → dump doc = Ret text → apply_request doc m = Some m' →
  curl_perform rq m = (inr 200%Z, [], m').
Proof. intros Hb Hd Ha. cbn. rewrite Hb. setoid_rewrite (codec_roundtrip _ _ Hd). by rewrite Ha. Qed.

#[export] Instance collection_ok : QdrantCollection config http (λ _, True) id.
Proof.
  split.
  - intros m text pid p v _ Hd. eexists [], _. split_and!; [by eapply answers|done|].
    assert (float_bits <$> (JFloat <$> v) = v) as ->; [|done].
    rewrite <- list_fmap_compose. apply list_fmap_id.
  - intros m text id _ Hd. eexists [], _. split_and!; [by eapply answers|done|done].
  - intros m text key label _ Hd. eexists [], _. split_and!; [by eapply answers|done|done].
Qed.
End DemoQdrant.
#[local] Existing Instances DemoQdrant.text DemoQdrant.server DemoQdrant.uuid DemoQdrant.collection_ok.


Example demo_collection :
  (snd <$> map_to_list (qdrant_call_batch DemoQdrant.config DemoQdrant.http
     [Sample.insert "1" "one"; Sample.insert "2" "two"; Sample.delete "1"] (0, ∅)).2.2).*2 = [[3%Z]].
Proof. vm_compute. reflexivity. Qed.
