(* ===== verification/MilvusTable.v ===== *)
(** * The Milvus collection as a table

    What the Milvus sink's requests amount to on a server that answers them as
    documented.  Deletions are filter expressions in text; the expressions the
    sink writes are data here, with their text and their meaning. *)

From S2P Require Import Prelude Event Config EmbeddingProvider SinkBatch Http JsonCodec QdrantSink MilvusSink.
From stdpp Require Import pretty.
From Stdlib Require Import Lia.

(** ** Filter expressions *)

Inductive milvus_expr :=
| EqString (field text : string)
| EqInt (field : string) (z : Z)
| LikeAny (field : string)
| GeMin (field : string).

Definition expr_text (ex : milvus_expr) : string :=
  match ex with
  | EqString field text => field +:+ " == " +:+ quote +:+ text +:+ quote
  | EqInt field z => field +:+ " == " +:+ pretty z
  | LikeAny field => field +:+ " like " +:+ quote +:+ "%" +:+ quote
  | GeMin field => field +:+ " >= -9223372036854775808"
  end.

(** A text that can stand between quotes as it is. *)
Definition plain (s : string) : bool :=
  forallb (λ a, negb (Ascii.eqb a "034" || Ascii.eqb a "\")) (bytes_of_string s).
Definition expr_plain (ex : milvus_expr) : bool :=
  match ex with EqString _ text => plain text | _ => true end.

Definition member (field : string) (entity : json) : option json := member_get field (members_of entity).

Definition satisfies (ex : milvus_expr) (entity : json) : bool :=
  match ex with
  | EqString field text => match member field entity with
                           | Some (JString s) => bool_decide (s = text)
                           | _ => false
                           end
  | EqInt field z => match member field entity with Some (JInt x) => bool_decide (x = z) | _ => false end
  | LikeAny field => match member field entity with Some (JString _) => true | _ => false end
  | GeMin field => match member field entity with
                   | Some (JInt x) => bool_decide (- 2 ^ 63 ≤ x)%Z
                   | _ => false
                   end
  end.

Abbreviation mkey := (string + Z)%type.

Section requests.
Context {Net : Type} `{Curl Net} `{JsonText} `{LibUuid}.
Context (trunc_float : Z → Z) (c : MilvusSinkConfig) (f : MilvusFields) (h : HttpClient).

Definition entities_request (path text : string) : Request :=
  {| rq_method := Post; rq_url := c_str (MilvusSink.mv_url c +:+ path);
     rq_headers := "Content-Type: application/json" :: (c_str <$> milvus_headers c);
     rq_body := Some text; rq_timeout := timeout_secs_ h |}.

Definition upsert_doc (entity : json) : json := JObject (milvus_body c ++ [("data", JArray [entity])]).
Definition delete_doc (filter : string) : json := JObject (milvus_body c ++ [("filter", JString filter)]).

(** The key an entity is stored under. *)
Definition entity_key (entity : json) : option mkey :=
  match member (pk_field_ f) entity with
  | Some (JString s) => if pk_is_varchar_ f then Some (inl s) else None
  | Some (JInt z) => if pk_is_varchar_ f then None
                     else if bool_decide (- 2 ^ 63 ≤ z)%Z then Some (inr z) else None
  | _ => None
  end.

(** The answer of a request that was carried out. *)
Definition reports_ok (body : string) : Prop :=
  (j ← parse_json body; j ← json_at "code" j; json_int trunc_float j) = Ret 0%Z.

Definition accepted (rq : Request) (n n' : Net) : Prop :=
  ∃ chunks, curl_perform rq n = (inr 200%Z, chunks, n') ∧ reports_ok (foldl write_callback "" chunks).

(** The expressions the sink writes. *)
Definition id_expr (t : TableMapping) (id : string) : milvus_expr :=
  if pk_is_varchar_ f then EqString (pk_field_ f) (uuid5_for (composite_key t id))
  else EqInt (pk_field_ f) (int64_id_for (composite_key t id)).
Definition table_expr (t : TableMapping) : milvus_expr :=
  if has_discriminator_ t then EqString (discriminator_sink_ t) (discriminator_label_ t)
  else if pk_is_varchar_ f then LikeAny (pk_field_ f) else GeMin (pk_field_ f).

(** What Milvus documents of the two requests: an entity is stored whole under
    its primary key, in place of the one there; a deletion takes away the
    entities that satisfy the expression (asked of the expressions the sink
    writes only). *)
Class MilvusCollection (J : Net → Prop) (view : Net → gmap mkey json) := {
  stored_by_key : ∀ n k entity, J n → view n !! k = Some entity → entity_key entity = Some k;
  accepts_upsert : ∀ n text entity k, J n → entity_key entity = Some k → dump (upsert_doc entity) = Ret text →
    ∃ n', accepted (entities_request "/v2/vectordb/entities/upsert" text) n n' ∧ J n' ∧
      view n' = <[k := entity]> (view n);
  accepts_delete : ∀ n text ex t, J n → t ∈ mv_mappings c → (ex = table_expr t ∨ ∃ id, ex = id_expr t id) →
    expr_plain ex = true → dump (delete_doc (expr_text ex)) = Ret text →
    ∃ n', accepted (entities_request "/v2/vectordb/entities/delete" text) n n' ∧ J n' ∧
      view n' = filter (λ kr, satisfies ex kr.2 = false) (view n);
}.

(** ** The table *)

Definition milvus_key (t : TableMapping) (id : string) : mkey :=
  if pk_is_varchar_ f then inl (uuid5_for (composite_key t id)) else inr (int64_id_for (composite_key t id)).
Definition milvus_row (t : TableMapping) (id text : string) (metas : list string) (v : vec) : json :=
  match milvus_entity f t id text metas v with Ret e => e | _ => JNull end.
Definition overwrites (new old : json) : json := new.
Definition milvus_removed (t : TableMapping) (id : string) (kr : mkey * json) : bool :=
  bool_decide (kr.1 = milvus_key t id).
(** Without a discriminator a truncate takes everything. *)
Definition milvus_truncated (t : TableMapping) (kr : mkey * json) : bool :=
  if has_discriminator_ t then satisfies (EqString (discriminator_sink_ t) (discriminator_label_ t)) kr.2 else true.

(** No column of the mapping goes into the key or the vector, and its label
    can be quoted. *)
Definition fits (t : TableMapping) : Prop :=
  (∀ k, k = pk_field_ f ∨ k = vector_field_ f →
     k ≠ id_sink_ t ∧ k ≠ embed_sink_ t ∧ k ≠ discriminator_sink_ t ∧
     k ∉ sink_column <$> metadata_columns t) ∧
  plain (discriminator_label_ t) = true.

Lemma id_expr_satisfies t id k entity :
  entity_key entity = Some k → satisfies (id_expr t id) entity = milvus_removed t id (k, entity).
Proof.
  unfold entity_key, id_expr, milvus_removed, milvus_key, satisfies.
  destruct (pk_is_varchar_ f); destruct (member (pk_field_ f) entity) as [[]|]; try done.
  - intros [= <-]. simpl. apply bool_decide_ext. split; congruence.
  - case_bool_decide; [|done]. intros [= <-]. simpl. apply bool_decide_ext. split; congruence.
Qed.

Lemma table_expr_satisfies t k entity :
  entity_key entity = Some k → satisfies (table_expr t) entity = milvus_truncated t (k, entity).
Proof.
  unfold table_expr, milvus_truncated. destruct (has_discriminator_ t); [done|].
  unfold entity_key. destruct (pk_is_varchar_ f); cbn [satisfies];
    destruct (member (pk_field_ f) entity) as [[]|]; try done. by case_bool_decide.
Qed.

Context (J : Net → Prop) (view : Net → gmap mkey json) `{!MilvusCollection J view}.
Context (Hcurl : curl_ h = true) (Hdump : ∀ j, is_ret (dump j) = true).
Context (Hpk : pk_field_ f ≠ vector_field_ f) (Huuid : ∀ k, plain (uuid5_for k) = true).

(** A request that is carried out succeeds. *)
Lemma milvus_post_ok path doc text n n' :
  dump doc = Ret text → accepted (entities_request path text) n n' →
  milvus_post trunc_float c h path doc n = (Ret true, n').
Proof.
  intros Hd (chunks & Hp & Hr). unfold milvus_post, lift, mbind, prog_bind. rewrite Hd.
  unfold post_json, perform. rewrite Hcurl. cbn [negb]. unfold entities_request in Hp. rewrite Hp.
  unfold milvus_ok, try_catch, lift, mbind, prog_bind. cbn [curl_ok status_code body].
  rewrite bool_decide_true by done. cbn [andb]. unfold reports_ok, mbind in Hr. by rewrite Hr.
Qed.

Lemma delete_ok ex t n :
  J n → t ∈ mv_mappings c → (ex = table_expr t ∨ ∃ id, ex = id_expr t id) → expr_plain ex = true →
  ∃ n', milvus_post trunc_float c h "/v2/vectordb/entities/delete" (delete_doc (expr_text ex)) n = (Ret true, n') ∧
    J n' ∧ view n' = filter (λ kr, satisfies ex kr.2 = false) (view n).
Proof.
  intros HJ Hin Hex Hpl. pose proof (Hdump (delete_doc (expr_text ex))) as Ht.
  destruct (dump (delete_doc (expr_text ex))) as [text| | |] eqn:Et; try done.
  destruct (accepts_delete n text ex t HJ Hin Hex Hpl Et) as (n' & Ha & HJ' & Hv).
  exists n'. split_and!; [by eapply milvus_post_ok|done|done].
Qed.

(** Deleting by an expression or by what it means is the same on a view. *)
Lemma filter_view ex (p : mkey * json → bool) n :
  J n → (∀ k entity, entity_key entity = Some k → satisfies ex entity = p (k, entity)) →
  filter (λ kr : mkey * json, satisfies ex kr.2 = false) (view n) = filter (λ kr, p kr = false) (view n).
Proof.
  intros HJ Hp. apply map_filter_ext. intros k entity Hk. simpl.
  by rewrite (Hp k entity (stored_by_key n k entity HJ Hk)).
Qed.

Lemma milvus_entity_key t id tx ms v :
  fits t → length ms = length (metadata_columns t) →
  ∃ e, milvus_entity f t id tx ms v = Ret e ∧ entity_key e = Some (milvus_key t id).
Proof.
  intros [Hcol _] Hl. destruct (milvus_entity_identity f t id tx ms v Hpk Hl Hcol) as (l & He & Hk & _).
  exists (JObject l). split; [done|]. unfold entity_key, member, milvus_key. cbn [members_of]. rewrite Hk.
  destruct (pk_is_varchar_ f); [done|]. rewrite bool_decide_true; [done|].
  pose proof (int64_id_in_range (composite_key t id)). lia.
Qed.

Lemma milvus_store_ok :
  (∀ t, t ∈ mv_mappings c → fits t) →
  StoreOk (milvus_ops trunc_float c f h) (mv_mappings c) J view (milvus_key) (milvus_row) overwrites
    (milvus_removed) milvus_truncated.
Proof.
  intros Hfit. split.
  - intros t id tx ms v n Ht HJ Hid Hl.
    destruct (milvus_entity_key t id tx ms v (Hfit t Ht) Hl) as (e & He & Hk).
    pose proof (Hdump (upsert_doc e)) as Htx. destruct (dump (upsert_doc e)) as [text| | |] eqn:Et; try done.
    destruct (accepts_upsert n text e _ HJ Hk Et) as (n' & Ha & HJ' & Hv).
    exists n'. split_and!; [|done|].
    + cbn [upsert milvus_ops]. unfold milvus_upsert, lift, mbind, prog_bind. rewrite He.
      by eapply milvus_post_ok.
    + rewrite Hv. unfold milvus_row. rewrite He. apply map_eq. intros k.
      destruct (decide (k = milvus_key t id)) as [->|Hne].
      * rewrite lookup_insert_eq, lookup_partial_alter_eq. by destruct (view n !! _).
      * by rewrite lookup_insert_ne, lookup_partial_alter_ne.
  - intros t id n Ht HJ Hid. destruct (delete_ok (id_expr t id) t n HJ Ht) as (n' & Hp & HJ' & Hv); [by right; eexists| |].
    { unfold id_expr. destruct (pk_is_varchar_ f); [apply Huuid|done]. }
    exists n'. split_and!; [|done|].
    + cbn [SinkBatch.remove milvus_ops]. unfold milvus_remove. rewrite <- Hp. unfold delete_doc, id_expr.
      by destruct (pk_is_varchar_ f).
    + rewrite Hv. apply (filter_view _ (milvus_removed t id)); [done|]. intros; by apply id_expr_satisfies.
  - intros t n Ht HJ. destruct (delete_ok (table_expr t) t n HJ Ht) as (n' & Hp & HJ' & Hv); [by left| |].
    { unfold table_expr. destruct (has_discriminator_ t); [by apply Hfit|]. by destruct (pk_is_varchar_ f). }
    exists n'. split_and!; [|done|].
    + cbn [truncate milvus_ops]. unfold milvus_truncate. rewrite <- Hp. unfold delete_doc, truncate_filter, table_expr.
      destruct (has_discriminator_ t); [done|]. by destruct (pk_is_varchar_ f).
    + rewrite Hv. apply (filter_view _ (milvus_truncated t)); [done|]. intros; by eapply table_expr_satisfies.
Qed.
End requests.


(** ** A server that reads the requests *)

Module DemoEntities.
Abbreviation entities := (gmap (string + Z) json).
Abbreviation fields := DemoMilvus.fields.
#[export] Instance text : JsonText := codec.
Definition answer (code : Z) : list string :=
  match dump (JObject [("code", JInt code)]) with Ret t => [t] | _ => [] end.

(** An entity is deleted by the text of the table's expression or by the text
    of its own key. *)
Definition deletes (flt : string) (kr : (string + Z) * json) : bool :=
  if bool_decide (flt = expr_text (table_expr fields Sample.mapping))
  then satisfies (table_expr fields Sample.mapping) kr.2
  else match kr.1 with inr z => bool_decide (flt = expr_text (EqInt "pk" z)) | inl _ => false end.
Definition apply_request (doc : json) (m : entities) : option entities :=
  match doc with
  | JObject [_; ("data", JArray [entity])] =>
      k ← entity_key fields entity; Some (<[k := entity]> m)
  | JObject [_; ("filter", JString flt)] => Some (base.filter (λ kr, deletes flt kr = false) m)
  | _ => None
  end.
#[export] Instance server : Curl entities :=
  {| curl_perform rq m :=
       match (t ← rq_body rq; match parse_json t with Ret doc => Some doc | _ => None end) with
       | Some (JObject [_]) => (inr 200%Z, match dump DemoMilvus.described with Ret t => [t] | _ => [] end, m)
       | Some doc => match apply_request doc m with
                     | Some m' => (inr 200%Z, answer 0, m')
                     | None => (inr 200%Z, answer 1, m)
                     end
       | None => (inr 200%Z, answer 1, m)
       end |}.
Definition http : HttpClient := {| curl_ := true; timeout_secs_ := 30 |}.
Definition keyed (m : entities) : Prop := ∀ k entity, m !! k = Some entity → entity_key fields entity = Some k.

Lemma accepts (rq : Request) (t : string) (doc : json) (m m' : entities) :
  rq_body rq = Some t → dump doc = Ret t → apply_request doc m = Some m' → accepted id rq m m'.
Proof.
  intros Hb Hd Ha. exists (answer 0). split.
  - cbn [curl_perform server]. rewrite Hb. cbn [mbind option_bind].
    change (@parse_json text t) with (@parse_json codec t). rewrite (codec_roundtrip _ _ Hd).
    destruct doc as [| | | | | |[|? [|]]]; by rewrite ?Ha.
  - vm_compute. reflexivity.
Qed.

Lemma str_app_inj_l (a b c : string) : a +:+ b = a +:+ c → b = c.
Proof. induction a as [|x a IH]; [done|]. intros E. apply IH. by injection E. Qed.

Lemma deletes_id t id k entity :
  t = Sample.mapping → entity_key fields entity = Some k →
  deletes (expr_text (id_expr (H1 := DemoMilvus.uuid) fields t id)) (k, entity) =
  satisfies (id_expr (H1 := DemoMilvus.uuid) fields t id) entity.
Proof.
  intros -> Hk. unfold deletes. rewrite bool_decide_false by discriminate. revert Hk.
  unfold entity_key, id_expr. cbn [pk_is_varchar_ DemoMilvus.fields pk_field_ satisfies fst].
  destruct (member "pk" entity) as [[]|]; try done. case_bool_decide; [|done]. intros [= <-].
  apply bool_decide_ext. split; [|by intros ->]. intros E%str_app_inj_l%str_app_inj_l%(inj pretty). done.
Qed.

#[export] Instance collection_ok :
  MilvusCollection (H1 := DemoMilvus.uuid) id DemoMilvus.config fields http keyed id.
Proof.
  split.
  - intros m k entity HJ Hk. by apply HJ.
  - intros m t entity k HJ Hk Hd. exists (<[k := entity]> m). split_and!; [|..|done].
    + eapply accepts; [done|exact Hd|]. 
      change (entity_key fields entity ≫= (λ k, Some (<[k := entity]> m)) = Some (<[k := entity]> m)).
      by rewrite Hk.
    + intros k' e' [[<- <-]|[_ He]]%lookup_insert_Some; [done|by apply HJ].
  - intros m t ex tm HJ ->%list_elem_of_singleton Hex Hpl Hd.
    eexists. split_and!; [eapply accepts; [done|exact Hd|done]|..].
    + intros k entity [Hk _]%map_lookup_filter_Some. by apply HJ.
    + apply map_filter_ext. intros k entity Hk. simpl. destruct Hex as [->|[id ->]].
      * unfold deletes. by rewrite bool_decide_true.
      * by rewrite deletes_id by (done || by apply HJ).
Qed.
End DemoEntities.
#[local] Existing Instances DemoEntities.text DemoEntities.server DemoMilvus.uuid DemoEntities.collection_ok.

