(* ===== verification/JsonSink.v ===== *)
(** * [src/jsonsink_configuration.cpp]: events as lines of JSON

    The sink writes one line per event to a file or to standard output, or
    only serialises it.  The file system is the class [Files]; a file stream
    keeps what it was given in a buffer until the library writes it out, which
    the code never asks for. *)

From S2P Require Import Prelude Event Http.
From Stdlib Require Import Lia.

(** Opening for appending, and writing at the end of an open file: [false]
    when the operating system refuses.  [spills] is when the stream library
    writes its buffer out by itself. *)
Class Files (F : Type) := {
  file_open : string → F → bool * F;
  file_append : string → string → F → bool * F;
  spills : string → bool;
}.

(** A [std::ofstream]: its buffer and its error state. *)
Record OfStream := { os_buffer : string; os_bad : bool }.

Record JsonSinkObject := { target_ : string; file_ : OfStream }.

(** What the process writes to: the file system and standard output. *)
Record Outputs (F : Type) := { fsys : F; cout : string }.
Arguments fsys {F}. Arguments cout {F}.

Definition nl : string := String "010" "".

Section sink.
Context {F : Type} `{Files F} `{JsonText}.
Abbreviation world := (JsonSinkObject * Outputs F)%type.

(** Writing the whole buffer out; a refused write spoils the stream. *)
Definition write_out (text : string) (w : world) : world :=
  let '(ok, f) := file_append (c_str (target_ w.1)) text (fsys w.2) in
  ({| target_ := target_ w.1; file_ := {| os_buffer := ""; os_bad := negb ok |} |},
   {| fsys := f; cout := cout w.2 |}).

(** [file_ << text]: nothing on a spoilt stream, and never an exception. *)
Definition stream_put (text : string) : prog world unit := modify (λ w,
  if os_bad (file_ w.1) then w
  else
    let buffer := os_buffer (file_ w.1) +:+ text in
    if spills buffer then write_out buffer w
    else ({| target_ := target_ w.1; file_ := {| os_buffer := buffer; os_bad := false |} |}, w.2)).

(** The constructor *)
Definition make_json_sink (target : string) : prog (Outputs F) JsonSinkObject := λ o,
  let sink := {| target_ := target; file_ := {| os_buffer := ""; os_bad := false |} |} in
  if bool_decide (target ≠ "stdout") && bool_decide (target ≠ "discard") then
    let '(ok, f) := file_open (c_str target) (fsys o) in
    let o := {| fsys := f; cout := cout o |} in
    if (ok : bool) then (Ret sink, o)
    else (Throw ("JsonSink: failed to open output file: " +:+ target), o)
  else (Ret sink, o).

Definition json_call (event : ChangeEvent) : prog world unit :=
  j ← lift (event_to_json event);
  line ← lift (dump j);
  t ← gets (λ w, target_ w.1);
  if bool_decide (t = "discard") then mret tt
  else if bool_decide (t = "stdout") then
    modify (λ w, (w.1, {| fsys := fsys w.2; cout := cout w.2 +:+ line +:+ nl |}))
  else stream_put line ;; stream_put nl.

(** [EventSink::call_batch], the default: one call per event. *)
Definition json_call_batch (events : list ChangeEvent) : prog world unit :=
  for_each events json_call.

(** The destructor closes the stream, which writes the buffer out. *)
Definition destroy_json_sink (w : world) : Outputs F :=
  if bool_decide (target_ w.1 ≠ "stdout") && bool_decide (target_ w.1 ≠ "discard")
     && negb (os_bad (file_ w.1))
  then (write_out (os_buffer (file_ w.1)) w).2 else w.2.
End sink.

(** The target is set once. *)
Lemma json_batch_target {F} `{Files F} `{JsonText} events (w : JsonSinkObject * Outputs F) :
  target_ (json_call_batch events w).2.1 = target_ w.1.
Proof.
  revert w. change (keeps (λ w w' : JsonSinkObject * Outputs F, target_ w'.1 = target_ w.1)
                          (json_call_batch events)).
  assert (PreOrder (λ w w' : JsonSinkObject * Outputs F, target_ w'.1 = target_ w.1))
    by (split; [done|intros ???; congruence]).
  assert (∀ text, keeps (λ w w' : JsonSinkObject * Outputs F, target_ w'.1 = target_ w.1) (stream_put text)).
  { intros text w. unfold stream_put, modify, write_out. simpl. destruct (os_bad _); [done|].
    destruct (spills _); [|done]. by destruct (file_append _ _ _). }
  unfold json_call_batch, json_call. keep_going. by intros w.
Qed.

(** ** What a batch writes *)

(** A file system that takes every write, as long as [J] holds. *)
Class FilesOk {F} `{Files F} (J : F → Prop) (contents : F → string → string) := {
  append_ok : ∀ name text f, J f → ∃ f', file_append name text f = (true, f') ∧ J f' ∧
    contents f' name = contents f name +:+ text ∧
    ∀ other, other ≠ name → contents f' other = contents f other;
}.

Section lines.
Context `{JsonText}.

(** The line of an event, or why it has none. *)
Definition line_of (e : ChangeEvent) : outcome string :=
  j ← event_to_json e; line ← dump j; Ret (line +:+ nl).

(** The lines of a batch up to the first event that has none, and how the
    batch ends there. *)
Fixpoint batch_text (events : list ChangeEvent) : string * outcome unit :=
  match events with
  | [] => ("", Ret tt)
  | e :: events =>
      match line_of e with
      | Ret l => let '(t, r) := batch_text events in (l +:+ t, r)
      | Throw m => ("", Throw m)
      | UB m => ("", UB m)
      | OutOfFuel => ("", OutOfFuel)
      end
  end.
End lines.

Section written.
Context {F : Type} `{Files F} `{JsonText} (J : F → Prop) (contents : F → string → string) `{!FilesOk J contents}.
Abbreviation world := (JsonSinkObject * Outputs F)%type.

(** What a reader of the target gets once the stream is closed. *)
Definition text_of (w : world) : string :=
  if bool_decide (target_ w.1 = "stdout") then cout w.2
  else if bool_decide (target_ w.1 = "discard") then ""
  else contents (fsys w.2) (c_str (target_ w.1)) +:+ os_buffer (file_ w.1).

(** From [w] to [w'] the target has gained [text], and nothing else changed. *)
Definition wrote (text : string) (w w' : world) : Prop :=
  J (fsys w'.2) ∧ target_ w'.1 = target_ w.1 ∧ os_bad (file_ w'.1) = os_bad (file_ w.1) ∧
  text_of w' = text_of w +:+ (if bool_decide (target_ w.1 = "discard") then "" else text) ∧
  (target_ w.1 ≠ "stdout" → cout w'.2 = cout w.2) ∧
  ∀ other, other ≠ c_str (target_ w.1) → contents (fsys w'.2) other = contents (fsys w.2) other.

Lemma wrote_trans a b w1 w2 w3 : wrote a w1 w2 → wrote b w2 w3 → wrote (a +:+ b) w1 w3.
Proof.
  intros (J2 & T2 & B2 & X2 & C2 & O2) (J3 & T3 & B3 & X3 & C3 & O3).
  rewrite T2 in *. unfold wrote. rewrite T3, B3, X3, X2.
  split_and!; [done|done|done| | |].
  - case_bool_decide; by rewrite str_app_assoc.
  - intros Hs. by rewrite C3, C2.
  - intros o Ho. by rewrite O3, O2.
Qed.

Lemma wrote_nothing (w : world) : J (fsys w.2) → wrote "" w w.
Proof. intros HJ. unfold wrote. destruct (bool_decide _); rewrite str_app_nil; by split_and!. Qed.

Lemma write_out_wrote text (w : world) :
  J (fsys w.2) → target_ w.1 ≠ "stdout" → target_ w.1 ≠ "discard" → os_bad (file_ w.1) = false →
  wrote text w (write_out (os_buffer (file_ w.1) +:+ text) w) ∧
  os_buffer (file_ (write_out (os_buffer (file_ w.1) +:+ text) w).1) = "".
Proof.
  intros HJ Hs Hd Hb. unfold write_out, wrote, text_of.
  destruct (append_ok (c_str (target_ w.1)) (os_buffer (file_ w.1) +:+ text) (fsys w.2) HJ)
    as (f & -> & HJ' & Hc & Ho). simpl.
  rewrite (bool_decide_false (target_ w.1 = "stdout")), (bool_decide_false (target_ w.1 = "discard")) by done.
  rewrite Hc, str_app_nil, str_app_assoc. by rewrite Hb.
Qed.

Lemma stream_put_wrote text (w : world) :
  J (fsys w.2) → target_ w.1 ≠ "stdout" → target_ w.1 ≠ "discard" → os_bad (file_ w.1) = false →
  ∃ w', stream_put text w = (Ret tt, w') ∧ wrote text w w'.
Proof.
  intros HJ Hs Hd Hb. unfold stream_put, modify. rewrite Hb. destruct (spills _).
  - eexists. split; [done|]. by apply write_out_wrote.
  - eexists. split; [done|]. unfold wrote, text_of. simpl.
    rewrite (bool_decide_false (target_ w.1 = "stdout")), (bool_decide_false (target_ w.1 = "discard")) by done.
    by rewrite Hb, str_app_assoc.
Qed.

Lemma json_call_spec e (w : world) :
  J (fsys w.2) → os_bad (file_ w.1) = false →
  match line_of e with
  | Ret l => ∃ w', json_call e w = (Ret tt, w') ∧ wrote l w w'
  | Throw m => json_call e w = (Throw m, w)
  | UB m => json_call e w = (UB m, w)
  | OutOfFuel => json_call e w = (OutOfFuel, w)
  end.
Proof.
  intros HJ Hb. unfold line_of, json_call, lift, gets, mbind, prog_bind, outcome_bind.
  destruct (event_to_json e) as [j| | |]; try done. destruct (dump j) as [line| | |]; try done.
  case_bool_decide as Hd.
  - eexists. split; [done|]. unfold wrote. rewrite (bool_decide_true _ Hd), str_app_nil. by split_and!.
  - case_bool_decide as Hs.
    + eexists. split; [done|]. unfold wrote, text_of. simpl.
      rewrite (bool_decide_true _ Hs), (bool_decide_false _ Hd), ?str_app_assoc. by split_and!.
    + destruct (stream_put_wrote line w) as (w1 & -> & H1); [done..|].
      pose proof H1 as (J1 & T1 & B1 & _). rewrite <- T1 in Hd, Hs. rewrite <- B1 in Hb.
      destruct (stream_put_wrote nl w1) as (w2 & -> & H2); [done..|].
      eexists. split; [done|]. by eapply wrote_trans.
Qed.
End written.

(** The JSON sink writes a batch as lines, in the order of the events: its
    target gains exactly the lines up to the first event that cannot be
    serialised (an invalid UTF-8 text, for instance), whose exception ends the
    batch, and all of them if there is none; other files and, for a file
    target, standard output stay as they were.  Closing the sink brings all of
    it into the file. *)
Theorem json_batch_lines {F} `{Files F} `{JsonText} (J : F → Prop) (contents : F → string → string)
    `{!FilesOk J contents} (events : list ChangeEvent) (w : JsonSinkObject * Outputs F) :
  J (fsys w.2) → os_bad (file_ w.1) = false →
  ∃ w', json_call_batch events w = ((batch_text events).2, w') ∧
    wrote J contents (batch_text events).1 w w' ∧
    (target_ w.1 ≠ "stdout" → target_ w.1 ≠ "discard" →
     contents (fsys (destroy_json_sink w')) (c_str (target_ w.1)) = text_of contents w').
Proof.
  intros HJ Hb.
  assert (∃ w', json_call_batch events w = ((batch_text events).2, w') ∧
                wrote J contents (batch_text events).1 w w') as (w' & Hc & Hw).
  { revert w HJ Hb. unfold json_call_batch. induction events as [|e events IH]; intros w HJ Hb; simpl.
    { exists w. split; [done|]. by apply wrote_nothing. }
    pose proof (json_call_spec J contents e w HJ Hb) as Hc.
    destruct (line_of e) as [l|m|m|]; simpl; 
      [|by exists w; unfold mbind, prog_bind; rewrite Hc; split; [|apply wrote_nothing]..].
    destruct Hc as (w1 & Hc & H1). pose proof H1 as (J1 & _ & B1 & _).
    destruct (IH w1 J1) as (w2 & H2 & W2); [by rewrite B1|].
    rewrite (prog_bind_ret _ _ _ _ _ Hc), H2. destruct (batch_text events) as [t r].
    exists w2. split; [done|]. by eapply wrote_trans. }
  exists w'. split_and!; [done|done|]. intros Hs Hd. pose proof Hw as (J' & T & B & _).
  rewrite <- T in Hs, Hd |- *. unfold destroy_json_sink.
  rewrite !bool_decide_true by done. rewrite B, Hb. simpl.
  destruct (write_out_wrote J contents "" w' J' Hs Hd) as ((_ & T2 & _ & X2 & _) & E2); [by rewrite B|].
  rewrite str_app_nil in T2, X2, E2. unfold text_of in X2 at 1. rewrite T2, E2 in X2.
  rewrite !bool_decide_false in X2 by done. by rewrite !str_app_nil in X2.
Qed.

(** Files in memory, with the buffer of a usual implementation, and a text
    form that cannot express deletes. *)
Module DemoJson.
#[export] Instance files : Files (gmap string string) :=
  {| file_open := λ name f, (true, partial_alter (λ o, Some (default "" o)) name f);
     file_append := λ name text f, (true, partial_alter (λ o, Some (default "" o +:+ text)) name f);
     spills := λ b, bool_decide (8191 < String.length b) |}.
#[export] Instance files_ok : FilesOk (λ _, True) (λ f name, default "" (f !! name)).
Proof.
  split. intros name text f _. eexists. split_and!; [done|done| |].
  - by rewrite lookup_partial_alter_eq.
  - intros other Ho. by rewrite lookup_partial_alter_ne.
Qed.
Definition text : JsonText :=
  {| dump := λ j, match members_of j with
                  | (_, JString o) :: _ => if bool_decide (o = "delete") then Throw "invalid UTF-8 byte" else Ret o
                  | _ => Ret "{}"
                  end;
     parse_json := λ _, Ret JNull |}.
Definition event (o : Op) : ChangeEvent :=
  {| op := o; schema_name := "s"; table_name := "t"; old_row := None; new_row := None;
     commit_lsn := 0; commit_timestamp := 0 |}.
Definition sink : JsonSinkObject := {| target_ := "out"; file_ := {| os_buffer := ""; os_bad := false |} |}.
End DemoJson.
#[local] Existing Instances DemoJson.files DemoJson.files_ok DemoJson.text.

Lemma json_batch_lines_witness :
  ∃ w', json_call_batch [DemoJson.event OpInsert; DemoJson.event OpDelete; DemoJson.event OpInsert]
          (DemoJson.sink, {| fsys := ∅; cout := "" |}) = (Throw "invalid UTF-8 byte", w') ∧
    wrote (λ _, True) (λ f name, default "" (f !! name)) ("insert" +:+ nl)
      (DemoJson.sink, {| fsys := ∅; cout := "" |}) w' ∧
    ("out" ≠ "stdout" → "out" ≠ "discard" →
     default "" (fsys (destroy_json_sink w') !! "out")
       = text_of (λ f name, default "" (f !! name)) w').
Proof.
  pose proof (json_batch_lines (λ _, True) (λ (f : gmap string string) name, default "" (f !! name))
    [DemoJson.event OpInsert; DemoJson.event OpDelete; DemoJson.event OpInsert]
    (DemoJson.sink, {| fsys := ∅; cout := "" |}) Logic.I eq_refl) as Hw.
  assert (batch_text [DemoJson.event OpInsert; DemoJson.event OpDelete; DemoJson.event OpInsert]
    = ("insert" +:+ nl, Throw "invalid UTF-8 byte")) as E by (vm_compute; reflexivity).
  rewrite E in Hw. exact Hw.
Defined.

(** A batch is reported as taken while its lines are still in the buffer: a
    process that dies then has confirmed events the file does not hold. *)
Lemma json_taken_before_written :
  ∃ w', json_call_batch [DemoJson.event OpInsert] (DemoJson.sink, {| fsys := ∅; cout := "" |}) = (Ret tt, w') ∧
    fsys w'.2 = (∅ : gmap string string).
Proof. eexists. by vm_compute. Qed.
