(* ===== verification/OpenAI.v ===== *)
(** * [src/openai_provider.cpp]: embeddings from the OpenAI API

    A provider over the HTTP client: one POST per call, at most three for a
    batch.  The conversions of JSON numbers to [float] are the JSON library's
    and are parameters.  [slept] records the pauses between the attempts. *)

From S2P Require Import Prelude Event Config EmbeddingProvider Http.
From Stdlib Require Import Lia.

Definition kMaxRetries : nat := 2.
Definition kBaseBackoffMs : Z := 500.

Definition is_retryable (resp : HttpResponse) : bool :=
  if negb (curl_ok resp) then true
  else if bool_decide (status_code resp = 429%Z) then true
  else if (500 <=? status_code resp)%Z then true
  else false.

Record OpenAIProvider := {
  api_key_ : string;
  model_ : string;
  base_url_ : string;
  dimensions_ : Z;
  http_ : option HttpClient;      (* null before init() *)
}.

Definition resolve_api_key (configured : string) : string := configured.

Definition make_openai (cfg : EmbeddingConfig) : OpenAIProvider :=
  {| api_key_ := resolve_api_key (api_key cfg);
     model_ := if str_empty (model cfg) then "text-embedding-3-small" else model cfg;
     base_url_ := "https://api.openai.com/v1/embeddings";
     dimensions_ := dimensions cfg; http_ := None |}.

(** The provider with the network and the pauses it has made. *)
Record Session (Net : Type) := { prov : OpenAIProvider; net : Net; slept : list Z }.
Arguments prov {Net}. Arguments net {Net}. Arguments slept {Net}.

Section provider.
Context {Net : Type} `{Curl Net} `{JsonText}.
(** [static_cast<float>] of a JSON integer and of a JSON float, as bits. *)
Context (int_to_float double_to_float : Z → Z) (trunc_float : Z → Z).
Abbreviation world := (Session Net).

Definition on_net {A} (m : prog Net A) : prog world A := λ w,
  let '(r, n) := m (net w) in (r, {| prov := prov w; net := n; slept := slept w |}).

Definition sleep_ms (ms : Z) : prog world unit := modify (λ w,
  {| prov := prov w; net := net w; slept := slept w ++ [ms] |}).

(** [init()]; [has_curl] is whether [curl_easy_init] gave a handle. *)
Definition openai_init (has_curl : bool) : prog world unit :=
  w ← gets id;
  if str_empty (api_key_ (prov w)) then
    throw "OpenAIProvider: no API key configured. Set 'api_key' in [embedding] config."
  else modify (λ w, {| prov := {| api_key_ := api_key_ (prov w); model_ := model_ (prov w);
                                  base_url_ := base_url_ (prov w); dimensions_ := dimensions_ (prov w);
                                  http_ := Some {| curl_ := has_curl; timeout_secs_ := 30 |} |};
                       net := net w; slept := slept w |}).

(** [nlohmann::json] keeps its members sorted by key. *)
Definition request_body (o : OpenAIProvider) (input : json) : json :=
  JObject ((if (0 <? dimensions_ o)%Z then [("dimensions", JInt (dimensions_ o))] else []) ++
           [("input", input); ("model", JString (model_ o))]).

Definition openai_headers (o : OpenAIProvider) : list string := ["Authorization: Bearer " +:+ api_key_ o].

(** [get<float>()] and [get<std::vector<float>>()] *)
Definition json_float (j : json) : outcome Z :=
  match j with
  | JInt z => Ret (int_to_float z)
  | JFloat b => Ret (double_to_float b)
  | JBool b => Ret (int_to_float (if b then 1 else 0)%Z)
  | _ => Throw "type must be number"
  end.

Fixpoint json_floats (l : list json) : outcome vec :=
  match l with
  | [] => Ret []
  | j :: l => x ← json_float j; xs ← json_floats l; Ret (x :: xs)
  end.

Definition json_vector (j : json) : outcome vec :=
  match j with JArray l => json_floats l | _ => Throw "type must be array" end.

(** [parsed.at("data").at(0).at("embedding").get<std::vector<float>>()] *)
Definition read_embedding (text : string) : outcome vec :=
  j ← parse_json text;
  j ← json_at "data" j; j ← json_at_index 0 j; j ← json_at "embedding" j;
  json_vector j.

Definition openai_embed (text : string) : prog world vec :=
  w ← gets id;
  match http_ (prov w) with
  | None => mret []
  | Some http =>
      body_str ← lift (dump (request_body (prov w) (JString text)));
      resp ← on_net (post_json http (base_url_ (prov w)) body_str (openai_headers (prov w)));
      if negb (curl_ok resp) then mret []
      else if bool_decide (status_code resp ≠ 200%Z) then mret []
      else try_catch (lift (read_embedding (body resp))) (λ _, mret [])
  end.

(** The attempts of a batch, from number [attempt] on with [tries] of them
    allowed: [None] when the batch is given up. *)
Fixpoint attempts (tries attempt : nat) (http : HttpClient) (url body_str : string) (hs : list string)
    : prog world (option HttpResponse) :=
  match tries with
  | O => λ w, (OutOfFuel, w)
  | S tries =>
      resp ← on_net (post_json http url body_str hs);
      if curl_ok resp && bool_decide (status_code resp = 200%Z) then mret (Some resp)
      else if negb (is_retryable resp) || bool_decide (attempt = kMaxRetries) then mret None
      else
        sleep_ms (kBaseBackoffMs * 2 ^ Z.of_nat attempt) ;;
        attempts tries (S attempt) http url body_str hs
  end.

(** The loop over [data]: what is written before an exception stays. *)
Fixpoint place_items (items : list json) (results : list vec) : outcome unit * list vec :=
  match items with
  | [] => (Ret tt, results)
  | item :: items =>
      match (i ← json_at "index" item; json_size trunc_float i) with
      | Ret idx =>
          if (idx <? Z.of_nat (length results))%Z then
            match (e ← json_at "embedding" item; json_vector e) with
            | Ret v => place_items items (<[Z.to_nat idx := v]> results)
            | Throw e => (Throw e, results)
            | UB e => (UB e, results)
            | OutOfFuel => (OutOfFuel, results)
            end
          else place_items items results
      | Throw e => (Throw e, results)
      | UB e => (UB e, results)
      | OutOfFuel => (OutOfFuel, results)
      end
  end.

(** The last [try] block: exceptions are logged, the results so far returned. *)
Definition read_batch (text : string) (results : list vec) : outcome (list vec) :=
  match (j ← parse_json text; json_at "data" j) with
  | Ret data =>
      match place_items (json_elements data) results with
      | (Ret _, rs) | (Throw _, rs) => Ret rs
      | (UB e, _) => UB e
      | (OutOfFuel, _) => OutOfFuel
      end
  | Throw _ => Ret results
  | UB e => UB e
  | OutOfFuel => OutOfFuel
  end.

Definition openai_embed_batch (texts : list string) : prog world (list vec) :=
  w ← gets id;
  match http_ (prov w) with
  | None => mret (replicate (length texts) [])
  | Some http =>
      match texts with
      | [] => mret []
      | _ =>
          body_str ← lift (dump (request_body (prov w) (JArray (JString <$> texts))));
          r ← attempts (S kMaxRetries) 0 http (base_url_ (prov w)) body_str (openai_headers (prov w));
          match r with
          | None => mret (replicate (length texts) [])
          | Some resp => lift (read_batch (body resp) (replicate (length texts) []))
          end
      end
  end.

Definition openai_name (w : world) : string := "openai[" +:+ model_ (prov w) +:+ "]".
End provider.

(** ** One batch, at most three requests *)

Section batch.
Context {Net : Type} `{Curl Net} `{JsonText} (int_to_float double_to_float trunc_float : Z → Z).
Implicit Types w : Session Net.

(** What a request answers and the network after it. *)
Definition reply (http : HttpClient) (url body_str : string) (hs : list string) (n : Net) : HttpResponse :=
  match (post_json http url body_str hs n).1 with
  | Ret r => r
  | _ => {| status_code := 0; body := ""; curl_ok := false; curl_error := "" |}
  end.
Definition sent (http : HttpClient) (url body_str : string) (hs : list string) (n : Net) : Net :=
  (post_json http url body_str hs n).2.

Lemma post_json_reply http url body_str hs n :
  post_json http url body_str hs n = (Ret (reply http url body_str hs n), sent http url body_str hs n).
Proof.
  unfold reply, sent, post_json, perform. destruct (negb _); [done|].
  by destruct (curl_perform _ n) as [[[e|c] chunks] n'].
Qed.

Definition good (resp : HttpResponse) : bool :=
  curl_ok resp && bool_decide (status_code resp = 200%Z).

(** [k] more requests were made: all but the last failed in a way worth a
    retry, and the outcome is that of the last one. *)
Definition tried (k : nat) (http : HttpClient) (url body_str : string) (hs : list string)
    (n n' : Net) (r : option HttpResponse) : Prop :=
  let at_ i := reply http url body_str hs (Nat.iter i (sent http url body_str hs) n) in
  0 < k ∧ n' = Nat.iter k (sent http url body_str hs) n ∧
  (∀ i, S i < k → good (at_ i) = false ∧ is_retryable (at_ i) = true) ∧
  r = (if good (at_ (pred k)) then Some (at_ (pred k)) else None).

Lemma attempts_spec tries attempt http url body_str hs w :
  attempt + tries = S kMaxRetries → 0 < tries →
  ∃ k r w', attempts tries attempt http url body_str hs w = (Ret r, w') ∧ k ≤ tries ∧
    tried k http url body_str hs (net w) (net w') r ∧ prov w' = prov w ∧
    slept w' = slept w ++ ((λ i, kBaseBackoffMs * 2 ^ Z.of_nat i)%Z <$> seq attempt (pred k)).
Proof.
  revert attempt w. induction tries as [|tries IH]; intros attempt w Ha Hl; [lia|].
  cbn [attempts]. unfold mbind, prog_bind, on_net. rewrite post_json_reply. cbn [fst snd].
  set (resp := reply http url body_str hs (net w)).
  set (w1 := {| prov := prov w; net := sent http url body_str hs (net w); slept := slept w |}).
  assert (∀ r, r = (if good resp then Some resp else None) →
    ∃ k w', (Ret r, w1) = (Ret r, w') ∧ k ≤ S tries ∧ tried k http url body_str hs (net w) (net w') r ∧
      prov w' = prov w ∧ slept w' = slept w ++ ((λ i, kBaseBackoffMs * 2 ^ Z.of_nat i)%Z <$> seq attempt (pred k)))
    as Hstop.
  { intros r Hr. exists 1, w1. split; [done|]. split; [lia|]. split; [|by rewrite app_nil_r].
    split; [lia|]. split; [done|]. split; [lia|done]. }
  destruct (curl_ok resp && _) eqn:Eg; change (good resp = true) in Eg || change (good resp = false) in Eg.
  { destruct (Hstop (Some resp)) as (k & w' & E & Hk); [by rewrite Eg|]. exists k, (Some resp), w'.
    unfold mret, prog_ret. by rewrite E. }
  destruct (is_retryable resp) eqn:Er; cbn [negb orb].
  2:{ destruct (Hstop None) as (k & w' & E & Hk); [by rewrite Eg|]. exists k, None, w'.
      unfold mret, prog_ret. by rewrite E. }
  case_bool_decide as Hlast.
  { destruct (Hstop None) as (k & w' & E & Hk); [by rewrite Eg|]. exists k, None, w'.
    unfold mret, prog_ret. by rewrite E. }
  cbn [sleep_ms modify].
  destruct (IH (S attempt) {| prov := prov w1; net := net w1;
    slept := slept w1 ++ [kBaseBackoffMs * 2 ^ Z.of_nat attempt]%Z |}) as
    (k & r & w' & E & Hk & (Hk0 & Hn & Hf & Hr) & Hp & Hs); [lia|unfold kMaxRetries in *; lia|].
  exists (S k), r, w'. split; [exact E|]. split; [lia|]. cbn [net prov slept] in *.
  assert (∀ i, Nat.iter i (sent http url body_str hs) (net w1) =
               Nat.iter (S i) (sent http url body_str hs) (net w)) as Hiter.
  { intros i. by rewrite Nat.iter_succ_r. }
  split; [|split; [done|]].
  - split; [lia|]. split; [by rewrite Hn, Hiter|]. split.
    + intros [|i] Hi; [done|]. rewrite <- !Hiter. apply Hf. lia.
    + destruct k as [|k]; [lia|]. rewrite Hr. cbn [pred]. by rewrite Hiter.
  - destruct k as [|k]; [lia|]. rewrite Hs. csimpl. by rewrite <- app_assoc.
Qed.

(** The code returned or threw. *)
Definition defined {A} (o : outcome A) : Prop :=
  match o with Ret _ | Throw _ => True | _ => False end.

Lemma defined_bind {A B} (o : outcome A) (f : A → outcome B) :
  defined o → (∀ a, defined (f a)) → defined (o ≫= f).
Proof. destruct o; simpl; auto. Qed.

Lemma json_at_defined k j : defined (json_at k j).
Proof. unfold json_at. split_cases. Qed.

Lemma json_size_defined j : defined (json_size trunc_float j).
Proof. unfold json_size. split_cases. Qed.

Lemma json_vector_defined j : defined (json_vector int_to_float double_to_float j).
Proof.
  destruct j as [| | | | |l|]; simpl; try done. induction l as [|j l IH]; simpl; [done|].
  apply defined_bind; [by destruct j|]. intros a. by apply defined_bind.
Qed.

(** The loop over the items is defined and keeps the number of results. *)
Lemma place_items_ok items rs :
  defined (place_items int_to_float double_to_float trunc_float items rs).1 ∧
  length (place_items int_to_float double_to_float trunc_float items rs).2 = length rs.
Proof.
  revert rs. induction items as [|item items IH]; intros rs; cbn [place_items]; [done|].
  pose proof (defined_bind (json_at "index" item) (λ i, json_size trunc_float i) (json_at_defined _ _)
    json_size_defined) as Hi.
  pose proof (defined_bind (json_at "embedding" item) (λ e, json_vector int_to_float double_to_float e)
    (json_at_defined _ _) json_vector_defined) as He.
  destruct (json_at "index" item ≫= _) as [idx| | |]; try done.
  destruct (_ <? _)%Z; [|apply IH].
  destruct (json_at "embedding" item ≫= _) as [v| | |]; try done.
  destruct (IH (<[Z.to_nat idx := v]> rs)) as [H1 H2]. by rewrite length_insert in H2.
Qed.

Lemma read_batch_returns text rs :
  defined (parse_json text) →
  ∃ rs', read_batch int_to_float double_to_float trunc_float text rs = Ret rs' ∧ length rs' = length rs.
Proof.
  intros Hd. unfold read_batch.
  pose proof (defined_bind (parse_json text) (λ j, json_at "data" j) Hd (json_at_defined _)) as Hj.
  destruct (parse_json text ≫= _) as [data| | |]; try done; [|eauto].
  destruct (place_items_ok (json_elements data) rs) as [H1 H2].
  destruct (place_items _ _ _ _ rs) as [[]rs']; simpl in *; try done; eauto.
Qed.
End batch.


(** ** Answers are placed by index *)

Section by_index.
Context (int_to_float double_to_float trunc_float : Z → Z).

(** The item names position [p.1] and carries the vector [p.2]. *)
Definition answers (item : json) (p : nat * vec) : Prop :=
  (i ← json_at "index" item; json_size trunc_float i) = Ret (Z.of_nat p.1) ∧
  (e ← json_at "embedding" item; json_vector int_to_float double_to_float e) = Ret p.2.

Lemma place_items_places items l rs :
  Forall2 answers items l → (∀ p, p ∈ l → p.1 < length rs) →
  place_items int_to_float double_to_float trunc_float items rs = (Ret tt, foldl place rs l).
Proof.
  intros Hal. revert rs. induction Hal as [|item p items l [Hi He] _ IH]; intros rs Hr; simpl; [done|].
  assert (p.1 < length rs) as Hp by (apply Hr; set_solver).
  unfold mbind, outcome_bind in Hi, He |- *. rewrite Hi.
  rewrite (proj2 (Z.ltb_lt _ _)) by lia. rewrite He, Nat2Z.id. apply IH.
  intros q Hq. unfold place. rewrite length_insert. apply Hr. set_solver.
Qed.

(** Whatever the order of the items, each vector goes to its own position. *)
Lemma places_all (l : list (nat * vec)) vs rs :
  l ≡ₚ imap pair vs → length rs = length vs → foldl place rs l = vs.
Proof.
  intros Hl Hr.
  assert (NoDup l.*1) as Hnd.
  { rewrite Hl, fmap_imap. unfold compose. cbn [fst].
    replace (imap (λ n _, n) vs) with (seq 0 (length vs)); [apply NoDup_seq|].
    apply list_eq. intros i. rewrite list_lookup_imap.
    destruct (decide (i < length vs)) as [Hi|Hi].
    - rewrite lookup_seq_lt by done. by destruct (lookup_lt_is_Some_2 vs i Hi) as [v ->].
    - rewrite lookup_seq_ge, lookup_ge_None_2 by lia. done. }
  apply list_eq_same_length with (n := length vs); [done|by rewrite length_places|].
  intros i x y Hi Hx Hy. erewrite places_lookup in Hx; [|done| |by rewrite Hr].
  { by simplify_eq. }
  rewrite Hl. apply list_elem_of_lookup. exists i. by rewrite list_lookup_imap, Hy.
Qed.
End by_index.

(** C36: the vectors of a batch belong to their texts whatever the order of the
    answer: when the first request is answered with status 200 and an item for
    every position, [embed_batch] returns each item's vector at its item's
    position, after one request and no pause. *)
Theorem openai_batch_by_index {Net} `{Curl Net} `{JsonText} (int_to_float double_to_float trunc_float : Z → Z)
    (texts : list string) (w : Session Net) (http : HttpClient) (body_str : string)
    (j data : json) (l : list (nat * vec)) (vs : list vec) :
  let resp := reply http (base_url_ (prov w)) body_str (openai_headers (prov w)) (net w) in
  http_ (prov w) = Some http → texts ≠ [] → length vs = length texts →
  dump (request_body (prov w) (JArray (JString <$> texts))) = Ret body_str →
  good resp = true → parse_json (body resp) = Ret j → json_at "data" j = Ret data →
  Forall2 (answers int_to_float double_to_float trunc_float) (json_elements data) l →
  l ≡ₚ imap pair vs →
  openai_embed_batch int_to_float double_to_float trunc_float texts w =
    (Ret vs, {| prov := prov w;
                net := sent http (base_url_ (prov w)) body_str (openai_headers (prov w)) (net w);
                slept := slept w |}).
Proof.
  intros resp Hh Ht Hlen Hd Hg Hj Hdata Hal Hl.
  unfold openai_embed_batch, mbind, prog_bind, gets, lift. cbn [id]. rewrite Hh.
  destruct texts as [|t ts]; [done|]. rewrite Hd. cbn [attempts].
  unfold mbind, prog_bind, on_net. rewrite post_json_reply. fold resp. unfold good in Hg. rewrite Hg.
  cbn [mret prog_ret]. f_equal. unfold read_batch. unfold mbind, outcome_bind. rewrite Hj, Hdata.
  rewrite (place_items_places _ _ _ _ l) by (done || (intros p; rewrite Hl, list_elem_of_lookup;
    intros [i Hi]; rewrite list_lookup_imap in Hi; destruct (vs !! i) eqn:Ev; [|done];
    simplify_eq/=; apply lookup_lt_Some in Ev; rewrite length_replicate; simpl in *; lia)).
  by rewrite (places_all l vs) by (done || by rewrite length_replicate).
Qed.

(** ** A scripted network *)

Module DemoOpenAI.
(** The answers still to come. *)
Definition script : Type := list ((string + Z) * list string).
#[export] Instance network : Curl script :=
  {| curl_perform _ n := match n with [] => (inl "timeout", [], []) | a :: n => (a, n) end |}.

Definition item (i v : Z) : json := JObject [("index", JInt i); ("embedding", JArray [JInt v])].
#[export] Instance text : JsonText :=
  {| dump _ := Ret "{}"; parse_json _ := Ret (JObject [("data", JArray [item 1 8; item 0 7])]) |}.

Definition http : HttpClient := {| curl_ := true; timeout_secs_ := 30 |}.
Definition provider : OpenAIProvider :=
  {| api_key_ := "k"; model_ := "text-embedding-3-small"; base_url_ := "u"; dimensions_ := 1;
     http_ := Some http |}.
Definition session (n : script) : Session script := {| prov := provider; net := n; slept := [] |}.
End DemoOpenAI.
#[local] Existing Instances DemoOpenAI.network DemoOpenAI.text.


Lemma openai_batch_by_index_witness :
  openai_embed_batch id id id ["a"; "b"] (DemoOpenAI.session [(inr 200%Z, ["{}"])]) =
    (Ret [[7%Z]; [8%Z]], DemoOpenAI.session []).
Proof.
  etransitivity; [apply (openai_batch_by_index id id id ["a"; "b"] (DemoOpenAI.session [(inr 200%Z, ["{}"])])
    DemoOpenAI.http "{}" (JObject [("data", JArray [DemoOpenAI.item 1 8; DemoOpenAI.item 0 7])])
    (JArray [DemoOpenAI.item 1 8; DemoOpenAI.item 0 7]) [(1, [8%Z]); (0, [7%Z])] [[7%Z]; [8%Z]])
    |reflexivity]; try reflexivity; try discriminate.
  - repeat constructor.
  - simpl. apply perm_swap.
Defined.
