(* ===== verification/Llama.v ===== *)
(** * [src/llama_provider.cpp]: embeddings from a local model

    llama.cpp is the class [LlamaCpp] over the state [C] of a context; loading
    the model, the context and an adapter is the class [LlamaLoad].  The mutex
    around the context is taken by every call that uses it, so a call runs on
    its own. *)

From S2P Require Import Prelude Config EmbeddingProvider.
From Stdlib Require Import Lia.

Record LlamaTokenizedText := { tokens : list Z; original_index : nat; tok_ok : bool }.

(** One slot of a [llama_batch]: its token, the position within its sequence
    and its one sequence id (every slot asks for output). *)
Record BatchSlot := { bt_token : Z; bt_pos : Z; bt_seq : nat }.

Class LlamaCpp (C : Type) := {
  (* the number of tokens or a negative error, and the tokens written *)
  llama_tokenize : string → nat → C → Z * list Z;
  llama_memory_clear : C → C;
  llama_encode : list BatchSlot → C → Z * C;
  (* null, or n_embd floats *)
  llama_get_embeddings_seq : nat → C → option vec;
  llama_get_embeddings_ith : nat → C → option vec;
  llama_n_seq_max : C → Z;
  llama_n_batch : C → Z;
  llama_n_embd : C → Z;
}.

(** The parameters a context is created with. *)
Record ContextParams := {
  cp_n_ctx : Z; cp_n_batch : Z; cp_n_ubatch : Z; cp_n_seq_max : Z;
  cp_n_threads : Z; cp_n_threads_batch : Z; cp_embeddings : bool;
}.

Class LlamaLoad (C : Type) := {
  llama_supports_gpu_offload : bool;
  llama_model_load : string → Z → bool;
  llama_init_from_model : ContextParams → option C;
  llama_adapter_lora_init : string → bool;
  llama_set_adapters_lora : Z → C → Z * C;
  (* the length of the prefix and the buffer it was copied to *)
  llama_adapter_meta_prefix : Z * string;
}.

Record LlamaProvider := {
  model_path_ : string;
  lora_path_ : string;
  lora_scale_ : Z;
  text_prefix_ : string;
  n_threads_ : Z;
  n_ctx_ : Z;
  n_batch_ : Z;
  n_gpu_layers_ : Z;
}.

Definition make_llama (cfg : EmbeddingConfig) : LlamaProvider :=
  {| model_path_ := model_path cfg; lora_path_ := lora_path cfg; lora_scale_ := lora_scale cfg;
     text_prefix_ := ""; n_threads_ := n_threads cfg; n_ctx_ := n_ctx cfg;
     n_batch_ := max_batch_size cfg; n_gpu_layers_ := n_gpu_layers cfg |}.

Definition with_prefix (s : string) (p : LlamaProvider) : LlamaProvider :=
  {| model_path_ := model_path_ p; lora_path_ := lora_path_ p; lora_scale_ := lora_scale_ p;
     text_prefix_ := s; n_threads_ := n_threads_ p; n_ctx_ := n_ctx_ p; n_batch_ := n_batch_ p;
     n_gpu_layers_ := n_gpu_layers_ p |}.

(** ** [init()] *)

Section init.
Context {C : Type} `{LlamaLoad C}.

(** The layers asked of the loader: none without a GPU backend. *)
Definition gpu_layers (p : LlamaProvider) : Z :=
  if (0 <? n_gpu_layers_ p)%Z && negb llama_supports_gpu_offload then 0 else n_gpu_layers_ p.

(** Room for [n_batch_] sequences of a full context window each, in 32 bits. *)
Definition context_params (p : LlamaProvider) : ContextParams :=
  let n_seq_max := u32 (Z.max 1 (n_batch_ p)) in
  let n_batch := u32 (u32 (n_ctx_ p) * n_seq_max) in
  {| cp_n_ctx := u32 (n_ctx_ p); cp_n_batch := n_batch; cp_n_ubatch := n_batch;
     cp_n_seq_max := n_seq_max; cp_n_threads := u32 (n_threads_ p);
     cp_n_threads_batch := u32 (n_threads_ p); cp_embeddings := true |}.

Definition llama_init (p : LlamaProvider) : outcome (LlamaProvider * C) :=
  if negb (llama_model_load (c_str (model_path_ p)) (gpu_layers p)) then
    Throw ("LlamaProvider: failed to load model from '" +:+ model_path_ p +:+
           "' — check that the path exists and is a valid GGUF file")
  else
    match llama_init_from_model (context_params p) with
    | None => Throw "LlamaProvider: failed to create llama context"
    | Some ctx =>
        if str_empty (lora_path_ p) then Ret (p, ctx)
        else if negb (llama_adapter_lora_init (c_str (lora_path_ p))) then
          Throw ("LlamaProvider: failed to load LoRA adapter from '" +:+ lora_path_ p +:+
                 "' — check that the path exists, is a valid LoRA GGUF, and matches this model's architecture")
        else
          let '(rc, ctx) := llama_set_adapters_lora (lora_scale_ p) ctx in
          if bool_decide (rc ≠ 0%Z) then
            Throw ("LlamaProvider: failed to activate LoRA adapter '" +:+ lora_path_ p +:+
                   "' on the llama context")
          else
            let '(prefix_len, prefix_buf) := llama_adapter_meta_prefix in
            if (0 <? prefix_len)%Z then Ret (with_prefix (c_str prefix_buf) p, ctx) else Ret (p, ctx)
    end.
End init.

(** ** Embedding *)

Section provider.
Context {C : Type} `{LlamaCpp C}.
Abbreviation world := (LlamaProvider * C)%type.

(** [std::vector<llama_token> temp_tokens(n_ctx_)], filled and cut to [n]. *)
Definition token_buffer (size n : nat) (written : list Z) : list Z :=
  resize n 0%Z (resize size 0%Z written).

(** One turn of the loop of [tokenize_batch]; a negative [n_ctx_] is a length
    no vector has. *)
Definition tokenize_text (p : LlamaProvider) (c : C) (i : nat) (text : string) : outcome LlamaTokenizedText :=
  if (n_ctx_ p <? 0)%Z then Throw "cannot create std::vector larger than max_size()"
  else
    let '(n_tokens, written) := llama_tokenize (text_prefix_ p +:+ text) (Z.to_nat (n_ctx_ p)) c in
    if (n_tokens <? 0)%Z || (n_ctx_ p <? n_tokens)%Z
    then Ret {| tokens := []; original_index := i; tok_ok := false |}
    else Ret {| tokens := token_buffer (Z.to_nat (n_ctx_ p)) (Z.to_nat n_tokens) written;
                original_index := i; tok_ok := true |}.

Fixpoint tokenize_from (p : LlamaProvider) (c : C) (i : nat) (texts : list string)
    : outcome (list LlamaTokenizedText) :=
  match texts with
  | [] => Ret []
  | t :: texts => item ← tokenize_text p c i t; items ← tokenize_from p c (S i) texts; Ret (item :: items)
  end.

Definition tokenize_batch (texts : list string) : prog world (list LlamaTokenizedText) := λ w,
  (tokenize_from w.1 w.2 0 texts, w).

(** [if (!item.ok || item.tokens.empty()) continue;] *)
Definition has_tokens (item : LlamaTokenizedText) : bool :=
  tok_ok item && negb (bool_decide (tokens item = [])).

Definition slots_of (seq_id : nat) (item : LlamaTokenizedText) : list BatchSlot :=
  if has_tokens item
  then imap (λ pos t, {| bt_token := t; bt_pos := Z.of_nat pos; bt_seq := seq_id |}) (tokens item)
  else [].

(** [build_batch] into a batch with [alloc] slots: writing past them is undefined. *)
Definition build_batch (alloc : Z) (tokenized : list LlamaTokenizedText) : outcome (list BatchSlot) :=
  let slots := concat (imap slots_of tokenized) in
  if (alloc <? Z.of_nat (length slots))%Z then UB "write past the end of the batch" else Ret slots.

(** The fallback of [extract_embeddings]: the slot of the sequence's last token. *)
Fixpoint last_token_idx (i seq_id : nat) (last_pos : Z) (slots : list BatchSlot) : option nat :=
  match slots with
  | [] => None
  | b :: slots =>
      if bool_decide (bt_seq b = seq_id) && bool_decide (bt_pos b = last_pos) then Some i
      else last_token_idx (S i) seq_id last_pos slots
  end.

Definition extract_one (c : C) (slots : list BatchSlot) (seq_id : nat) (item : LlamaTokenizedText) : vec :=
  if negb (tok_ok item) then []
  else match llama_get_embeddings_seq seq_id c with
  | Some embd => embd
  | None =>
      match last_token_idx 0 seq_id (Z.of_nat (length (tokens item)) - 1) slots with
      | None => []
      | Some i => default [] (llama_get_embeddings_ith i c)
      end
  end.

Definition extract_embeddings (slots : list BatchSlot) (tokenized : list LlamaTokenizedText) (c : C) : list vec :=
  imap (extract_one c slots) tokenized.

Definition llama_embed (text : string) : prog world vec :=
  tokenized ← tokenize_batch [text];
  match tokenized with
  | [] => mret []
  | item :: _ =>
      if negb (tok_ok item) then mret []
      else
        on_snd (modify llama_memory_clear) ;;
        slots ← lift (build_batch (Z.of_nat (length (tokens item))) tokenized);
        rc ← on_snd (λ c, let '(rc, c) := llama_encode slots c in (Ret rc, c));
        if bool_decide (rc ≠ 0%Z) then mret []
        else
          c ← gets snd;
          mret (default [] (head (extract_embeddings slots tokenized c)))
  end.

(** *** Chunks *)

(** What the loop of [embed_batch] carries. *)
Record Chunking := { results : list vec; chunk : list LlamaTokenizedText; chunk_tokens : Z }.

(** [for (i : chunk) results[chunk[i].original_index] = chunk_results[i];] *)
Definition store_results (rs : list vec) (items : list LlamaTokenizedText) (vs : list vec) : list vec :=
  foldl (λ rs iv, <[original_index iv.1 := iv.2]> rs) rs (zip items vs).

Definition flush_chunk (s : Chunking) : prog world Chunking :=
  match chunk s with
  | [] => mret s
  | _ =>
      on_snd (modify llama_memory_clear) ;;
      slots ← lift (build_batch (chunk_tokens s) (chunk s));
      rc ← on_snd (λ c, let '(rc, c) := llama_encode slots c in (Ret rc, c));
      c ← gets snd;
      mret {| results := if bool_decide (rc ≠ 0%Z) then results s
                         else store_results (results s) (chunk s) (extract_embeddings slots (chunk s) c);
              chunk := []; chunk_tokens := 0 |}
  end.

(** One turn of the loop over the tokenized texts; the sum is an [int]. *)
Definition add_item (max_seq max_tokens : Z) (s : Chunking) (item : LlamaTokenizedText) : prog world Chunking :=
  if negb (has_tokens item) then mret s
  else
    let n_toks := Z.of_nat (length (tokens item)) in
    if (max_tokens <? n_toks)%Z then mret s
    else
      s ← (match chunk s with
           | [] => mret s
           | _ =>
               if (2 ^ 31 <=? chunk_tokens s + n_toks)%Z
               then undefined "signed overflow: chunk_tokens + n_toks"
               else if (max_tokens <? chunk_tokens s + n_toks)%Z || (max_seq <=? Z.of_nat (length (chunk s)))%Z
               then flush_chunk s else mret s
           end);
      mret {| results := results s; chunk := chunk s ++ [item]; chunk_tokens := chunk_tokens s + n_toks |}.

Fixpoint add_items (max_seq max_tokens : Z) (s : Chunking) (items : list LlamaTokenizedText) : prog world Chunking :=
  match items with
  | [] => mret s
  | item :: items => s ← add_item max_seq max_tokens s item; add_items max_seq max_tokens s items
  end.

Definition llama_embed_batch (texts : list string) : prog world (list vec) :=
  match texts with
  | [] => mret []
  | _ =>
      tokenized ← tokenize_batch texts;
      c ← gets snd;
      let max_seq := Z.max 1 (i32 (llama_n_seq_max c)) in
      let max_tokens := i32 (llama_n_batch c) in
      s ← add_items max_seq max_tokens
            {| results := replicate (length texts) []; chunk := []; chunk_tokens := 0 |} tokenized;
      s ← flush_chunk s;
      mret (results s)
  end.

Definition llama_dimensions (w : world) : Z := i32 (llama_n_embd w.2).
Definition llama_name (w : world) : string := "llama[" +:+ model_path_ w.1 +:+ "]".
End provider.

(** ** Chunking is invisible *)

(** The tokens a batch holds for one sequence. *)
Definition seq_tokens (s : nat) (b : list BatchSlot) : list Z :=
  bt_token <$> filter (λ x, bt_seq x = s) b.

(** A batch within a context's limits of [N] tokens and [M] sequences. *)
Definition batch_fits (N M : Z) (b : list BatchSlot) : Prop :=
  b ≠ [] ∧ (Z.of_nat (length b) ≤ N)%Z ∧ ∀ x, x ∈ b → (Z.of_nat (bt_seq x) < M)%Z.

(** What the provider relies on: the tokenizer is a function, the limits stay
    what they are, and encoding a batch within them after the memory was
    cleared succeeds and gives each sequence the embedding of its own tokens. *)
Class LlamaOk {C} `{LlamaCpp C} (I : C → Prop) (N M : Z) (tok : string → nat → Z * list Z)
    (f : list Z → vec) := {
  tokenize_fixed c s n : I c → llama_tokenize s n c = tok s n;
  limits_fixed c : I c → i32 (llama_n_batch c) = N ∧ Z.max 1 (i32 (llama_n_seq_max c)) = M;
  encode_ok c b : I c → batch_fits N M b →
    ∃ c', llama_encode b (llama_memory_clear c) = (0%Z, c') ∧ I c' ∧
      ∀ s, seq_tokens s b ≠ [] → llama_get_embeddings_seq s c' = Some (f (seq_tokens s b));
}.

(** The slots of texts from sequence [k] on. *)
Definition slots_from (k : nat) (items : list LlamaTokenizedText) : list BatchSlot :=
  concat (imap (λ i, slots_of (k + i)) items).

Lemma slots_from_cons k item items :
  slots_from k (item :: items) = slots_of k item ++ slots_from (S k) items.
Proof.
  unfold slots_from. rewrite imap_cons. cbn [concat]. rewrite Nat.add_0_r. f_equal. f_equal.
  apply imap_ext. intros i x _. unfold compose. f_equal. lia.
Qed.

Lemma slots_of_seq k item x : x ∈ slots_of k item → bt_seq x = k.
Proof.
  unfold slots_of. destruct (has_tokens item); [|set_solver].
  rewrite elem_of_lookup_imap. by intros (i & t & -> & _).
Qed.

Lemma slots_from_seq k items x :
  x ∈ slots_from k items → k ≤ bt_seq x < k + length items.
Proof.
  revert k. induction items as [|item items IH]; intros k; [set_solver|].
  rewrite slots_from_cons. intros [->%slots_of_seq|Hx%IH]%elem_of_app; simpl in *; lia.
Qed.

Lemma length_slots_from k items :
  Forall (λ it, has_tokens it = true) items →
  length (slots_from k items) = sum_list_with (λ it, length (tokens it)) items.
Proof.
  intros Hall. revert k. induction Hall as [|item items Hi _ IH]; intros k; [done|].
  rewrite slots_from_cons, length_app, IH. csimpl. f_equal.
  unfold slots_of. by rewrite Hi, length_imap.
Qed.

Lemma seq_tokens_app s b1 b2 : seq_tokens s (b1 ++ b2) = seq_tokens s b1 ++ seq_tokens s b2.
Proof. unfold seq_tokens. by rewrite filter_app, fmap_app. Qed.

Lemma seq_tokens_none s b : (∀ x, x ∈ b → bt_seq x ≠ s) → seq_tokens s b = [].
Proof.
  intros Hb. unfold seq_tokens. induction b as [|x b IH]; [done|].
  rewrite filter_cons_False by (apply Hb; set_solver). apply IH. set_solver.
Qed.

Lemma seq_tokens_slots_of k item :
  has_tokens item = true → seq_tokens k (slots_of k item) = tokens item.
Proof.
  intros Hi. unfold seq_tokens, slots_of. rewrite Hi. generalize 0 as off.
  assert (∀ (g : nat → Z) ts, bt_token <$> filter (λ x, bt_seq x = k)
    (imap (λ pos t, {| bt_token := t; bt_pos := g pos; bt_seq := k |}) ts) = ts) as Hg.
  { intros g ts. revert g. induction ts as [|t ts IH]; intros g; [done|].
    rewrite imap_cons, filter_cons_True by done. csimpl. f_equal. apply (IH (g ∘ S)). }
  intros _. apply Hg.
Qed.

(** In the batch of a chunk each sequence holds the tokens of its own text. *)
Lemma seq_tokens_slots k items i item :
  Forall (λ it, has_tokens it = true) items → items !! i = Some item →
  seq_tokens (k + i) (slots_from k items) = tokens item.
Proof.
  intros Hall. revert k i. induction Hall as [|it items Hi _ IH]; intros k i; [done|].
  rewrite slots_from_cons, seq_tokens_app. destruct i as [|i]; intros Hl; simpl in Hl.
  - simplify_eq. rewrite Nat.add_0_r, seq_tokens_slots_of by done.
    rewrite seq_tokens_none; [by rewrite app_nil_r|]. intros x Hx%slots_from_seq. lia.
  - rewrite (seq_tokens_none _ (slots_of k it)) by (intros x ->%slots_of_seq; lia).
    rewrite app_nil_l, <- Nat.add_succ_comm. by apply IH.
Qed.

Section chunks.
Context {C : Type} `{LlamaCpp C} (I : C → Prop) (N M : Z) (tok : string → nat → Z * list Z)
  (f : list Z → vec) `{!LlamaOk I N M tok f}.
Implicit Types (p : LlamaProvider) (c : C) (s : Chunking).

Definition n_toks (it : LlamaTokenizedText) : Z := Z.of_nat (length (tokens it)).

(** A text that can be embedded at all. *)
Definition usable_item (it : LlamaTokenizedText) : bool := has_tokens it && (n_toks it <=? N)%Z.

(** Each text's vector at its own place. *)
Definition place_of (it : LlamaTokenizedText) : nat * vec := (original_index it, f (tokens it)).
Definition place_all (rs : list vec) (items : list LlamaTokenizedText) : list vec :=
  foldl place rs (place_of <$> items).

(** The chunk being collected fits the context. *)
Definition chunk_ok s : Prop :=
  Forall (λ it, usable_item it = true) (chunk s) ∧ (chunk_tokens s ≤ N)%Z ∧
  chunk_tokens s = Z.of_nat (sum_list_with (λ it, length (tokens it)) (chunk s)) ∧
  (Z.of_nat (length (chunk s)) ≤ M)%Z.

Lemma usable_has_tokens items :
  Forall (λ it, usable_item it = true) items → Forall (λ it, has_tokens it = true) items.
Proof. intros Hi. eapply Forall_impl; [exact Hi|]. intros it [? _]%andb_true_iff. done. Qed.

Lemma has_tokens_nonempty it : has_tokens it = true → tokens it ≠ [] ∧ tok_ok it = true.
Proof. unfold has_tokens. intros [? Hn]%andb_true_iff. by case_bool_decide. Qed.

(** What an encoded chunk yields: every text's own vector. *)
Lemma extract_chunk items c' :
  Forall (λ it, has_tokens it = true) items →
  (∀ sq, seq_tokens sq (slots_from 0 items) ≠ [] →
     llama_get_embeddings_seq sq c' = Some (f (seq_tokens sq (slots_from 0 items)))) →
  extract_embeddings (slots_from 0 items) items c' = (λ it, f (tokens it)) <$> items.
Proof.
  intros Hall He. apply list_eq. intros i. unfold extract_embeddings.
  rewrite list_lookup_imap, list_lookup_fmap.
  destruct (items !! i) as [it|] eqn:Hi; [|done]. simpl. f_equal. unfold extract_one.
  pose proof (seq_tokens_slots 0 items i it Hall Hi) as Ht. simpl in Ht.
  rewrite Forall_lookup in Hall. destruct (has_tokens_nonempty it (Hall _ _ Hi)) as [Hne ->]. simpl.
  rewrite He by (rewrite Ht; done). by rewrite Ht.
Qed.

Lemma store_results_place items rs :
  store_results rs items ((λ it, f (tokens it)) <$> items) = place_all rs items.
Proof.
  unfold store_results, place_all. revert rs.
  induction items as [|it items IH]; intros rs; csimpl; [done|]. apply IH.
Qed.

Lemma flush_chunk_ok p c s :
  I c → chunk_ok s →
  ∃ c', flush_chunk s (p, c) =
      (Ret {| results := place_all (results s) (chunk s); chunk := []; chunk_tokens := 0 |}, (p, c')) ∧ I c'.
Proof.
  intros Hc (Hall & Hn & Hsum & Hm). unfold flush_chunk.
  destruct (chunk s) as [|it items] eqn:Ech.
  { exists c. split; [|done]. destruct s. simpl in *. by subst. }
  rewrite <- Ech in *.
  pose proof (usable_has_tokens _ Hall) as Hht.
  assert (length (slots_from 0 (chunk s)) = sum_list_with (λ it, length (tokens it)) (chunk s)) as Hlen
    by by apply length_slots_from.
  assert (batch_fits N M (slots_from 0 (chunk s))) as Hfit.
  { split_and!; [|lia|].
    - intros E. rewrite E in Hlen. rewrite Ech in Hlen, Hht. csimpl in Hlen.
      apply Forall_cons in Hht as [Hit _]. apply has_tokens_nonempty in Hit as [Hit _].
      destruct (tokens it); [done|simpl in Hlen; lia].
    - intros x Hx%slots_from_seq. lia. }
  destruct (encode_ok c _ Hc Hfit) as (c' & He & Hc' & Hseq). exists c'. split; [|done].
  unfold mbind, prog_bind, on_snd, modify, lift, build_batch. cbn [fst snd].
  change (concat (imap slots_of (chunk s))) with (slots_from 0 (chunk s)).
  rewrite (proj2 (Z.ltb_ge _ _)) by lia. cbn [fst snd]. rewrite He. cbn [fst snd gets mret prog_ret].
  rewrite bool_decide_false by (intros ?; done).
  by rewrite extract_chunk, store_results_place.
Qed.

Lemma place_all_app rs a b : place_all rs (a ++ b) = place_all (place_all rs a) b.
Proof. unfold place_all. by rewrite fmap_app, foldl_app. Qed.

Context (HN : (N < 2 ^ 30)%Z) (HM : (1 ≤ M)%Z).

(** Room is made for the next text: it fits after the chunk at hand, or after a flush. *)
Lemma make_room p c s n :
  I c → chunk_ok s → (0 ≤ n ≤ N)%Z →
  ∃ s' c',
    (match chunk s with
     | [] => mret s
     | _ =>
         if (2 ^ 31 <=? chunk_tokens s + n)%Z then undefined "signed overflow: chunk_tokens + n_toks"
         else if (N <? chunk_tokens s + n)%Z || (M <=? Z.of_nat (length (chunk s)))%Z
         then flush_chunk s else mret s
     end : prog (LlamaProvider * C) Chunking) (p, c) = (Ret s', (p, c')) ∧ I c' ∧ chunk_ok s' ∧
    (chunk_tokens s' + n ≤ N)%Z ∧ (Z.of_nat (length (chunk s')) + 1 ≤ M)%Z ∧
    place_all (results s') (chunk s') = place_all (results s) (chunk s).
Proof.
  intros Hc Hs Hn. pose proof Hs as (_ & Hle & Hsum & _).
  destruct (chunk s) as [|it items] eqn:Ech.
  { exists s, c. rewrite Ech. simpl in *. split_and!; try done; lia. }
  rewrite <- Ech in *. rewrite (proj2 (Z.leb_gt _ _)) by lia.
  destruct (_ || _) eqn:Eb.
  - destruct (flush_chunk_ok p c s Hc Hs) as (c' & -> & Hc'). do 2 eexists. split; [done|].
    split; [done|]. unfold chunk_ok. simpl. split_and!; try done; try lia.
  - apply orb_false_iff in Eb as [E1%Z.ltb_ge E2%Z.leb_gt]. exists s, c. split_and!; try done; lia.
Qed.

Lemma add_item_ok p c s it :
  I c → chunk_ok s →
  ∃ s' c', add_item M N s it (p, c) = (Ret s', (p, c')) ∧ I c' ∧ chunk_ok s' ∧
    place_all (results s') (chunk s') =
      place_all (place_all (results s) (chunk s)) (if usable_item it then [it] else []).
Proof.
  intros Hc Hs. unfold add_item. destruct (has_tokens it) eqn:Hht; simpl negb; cbn iota.
  2:{ exists s, c. unfold usable_item. by rewrite Hht. }
  fold (n_toks it). destruct (N <? n_toks it)%Z eqn:Hnt.
  { exists s, c. unfold usable_item. rewrite Hht.
    by rewrite (proj2 (Z.leb_gt _ _)) by (by apply Z.ltb_lt). }
  assert (usable_item it = true) as Hu.
  { unfold usable_item. rewrite Hht. by apply Z.leb_le, Z.ltb_ge. }
  destruct (make_room p c s (n_toks it) Hc Hs) as (s1 & c1 & E & Hc1 & (Hall & _ & Hsum & _) & Ht & Hm & Hp).
  { split; [unfold n_toks; lia|by apply Z.ltb_ge]. }
  cbn [negb]. rewrite (prog_bind_ret _ _ _ _ _ E). eexists _, c1. split; [done|]. split; [done|].
  split.
  - unfold chunk_ok. simpl. split_and!; [|done| |rewrite length_app; simpl; lia].
    + apply Forall_app. by split; [|apply Forall_singleton].
    + rewrite Hsum, sum_list_with_app. unfold n_toks. simpl. lia.
  - simpl. rewrite place_all_app, Hp. by rewrite Hu.
Qed.

Lemma add_items_ok p items c s :
  I c → chunk_ok s →
  ∃ s' c', add_items M N s items (p, c) = (Ret s', (p, c')) ∧ I c' ∧ chunk_ok s' ∧
    place_all (results s') (chunk s') =
      place_all (place_all (results s) (chunk s)) (filter (λ it, usable_item it = true) items).
Proof.
  revert c s. induction items as [|it items IH]; intros c s Hc Hs; [by exists s, c|].
  destruct (add_item_ok p c s it Hc Hs) as (s1 & c1 & E1 & Hc1 & Hs1 & Hp1).
  destruct (IH c1 s1 Hc1 Hs1) as (s2 & c2 & E2 & Hc2 & Hs2 & Hp2).
  exists s2, c2. cbn [add_items]. rewrite (prog_bind_ret _ _ _ _ _ E1). split_and!; try done.
  rewrite Hp2, Hp1. destruct (usable_item it) eqn:Hu.
  - by rewrite filter_cons_True by done.
  - by rewrite filter_cons_False by (by rewrite Hu).
Qed.

(** *** From texts to vectors *)

(** The text as the tokenizer sees it. *)
Definition item_of p (i : nat) (text : string) : LlamaTokenizedText :=
  let '(n_tokens, written) := tok (text_prefix_ p +:+ text) (Z.to_nat (n_ctx_ p)) in
  if (n_tokens <? 0)%Z || (n_ctx_ p <? n_tokens)%Z
  then {| tokens := []; original_index := i; tok_ok := false |}
  else {| tokens := token_buffer (Z.to_nat (n_ctx_ p)) (Z.to_nat n_tokens) written;
          original_index := i; tok_ok := true |}.

(** The embedding of a text: none when it cannot be tokenized within the
    context window or is too long for a batch. *)
Definition embedding p (text : string) : vec :=
  if usable_item (item_of p 0 text) then f (tokens (item_of p 0 text)) else [].

Lemma item_of_index p i text : original_index (item_of p i text) = i.
Proof. unfold item_of. destruct (tok _ _). by destruct (_ || _). Qed.

Lemma item_of_tokens p i j text :
  tokens (item_of p i text) = tokens (item_of p j text) ∧
  usable_item (item_of p i text) = usable_item (item_of p j text).
Proof. unfold item_of. destruct (tok _ _). by destruct (_ || _). Qed.

Lemma tokenize_from_ok p c i texts :
  I c → (0 ≤ n_ctx_ p)%Z → tokenize_from p c i texts = Ret (imap (λ k, item_of p (i + k)) texts).
Proof.
  intros Hc Hn. revert i. induction texts as [|t texts IH]; intros i; [done|].
  cbn [tokenize_from]. unfold tokenize_text. rewrite (proj2 (Z.ltb_ge _ _)) by lia.
  rewrite (tokenize_fixed c) by done. rewrite imap_cons, Nat.add_0_r. unfold item_of at 1.
  assert (imap ((λ k, item_of p (i + k)) ∘ S) texts = imap (λ k, item_of p (S i + k)) texts) as ->.
  { apply imap_ext. intros k x _. unfold compose. f_equal. lia. }
  destruct (tok _ _) as [n w]. destruct (_ || _); cbn; by rewrite IH.
Qed.

Lemma place_texts p texts :
  place_all (replicate (length texts) []) (filter (λ it, usable_item it = true) (imap (item_of p) texts))
  = embedding p <$> texts.
Proof.
  set (items := imap (item_of p) texts).
  set (l := place_of <$> filter (λ it, usable_item it = true) items).
  assert (∀ i it, items !! i = Some it → original_index it = i) as Hidx.
  { intros i it. unfold items. rewrite list_lookup_imap. destruct (texts !! i) as [t|]; [|done].
    intros [= <-]. apply item_of_index. }
  assert (original_index <$> items = seq 0 (length texts)) as Hseq.
  { apply list_eq. intros i. rewrite list_lookup_fmap. unfold items at 1. rewrite list_lookup_imap.
    destruct (texts !! i) as [t|] eqn:Et; simpl.
    - rewrite item_of_index, lookup_seq_lt; [done|by eapply lookup_lt_Some].
    - by rewrite lookup_seq_ge by by apply lookup_ge_None. }
  assert (l.*1 = original_index <$> filter (λ it, usable_item it = true) items) as Hl1.
  { unfold l. rewrite <- list_fmap_compose. done. }
  assert (NoDup l.*1) as Hnd.
  { rewrite Hl1. eapply sublist_NoDup; [apply (NoDup_seq 0 (length texts))|].
    rewrite <- Hseq. apply fmap_sublist, sublist_filter. }
  apply list_eq. intros i. unfold place_all. fold l. rewrite list_lookup_fmap.
  destruct (texts !! i) as [t|] eqn:Et; simpl.
  2:{ apply lookup_ge_None. rewrite length_places, length_replicate. by apply lookup_ge_None. }
  assert (items !! i = Some (item_of p i t)) as Hit.
  { unfold items. by rewrite list_lookup_imap, Et. }
  destruct (item_of_tokens p i 0 t) as [Htok Hus]. unfold embedding. rewrite <- Htok, <- Hus.
  pose proof (lookup_lt_Some _ _ _ Et) as Hi. destruct (usable_item (item_of p i t)) eqn:Hu.
  - apply places_lookup; [done| |by rewrite length_replicate].
    unfold l. apply list_elem_of_fmap. exists (item_of p i t). split.
    + unfold place_of. by rewrite item_of_index.
    + apply list_elem_of_filter. split; [done|]. by eapply list_elem_of_lookup_2.
  - rewrite places_other; [by apply lookup_replicate_2|].
    rewrite Hl1, list_elem_of_fmap. intros (it & Hi' & [Hit' [k Hk]%list_elem_of_lookup]%list_elem_of_filter).
    pose proof (Hidx _ _ Hk) as Hk'. rewrite <- Hi' in Hk'. subst. congruence.
Qed.
End chunks.

(** A text on its own is a chunk of one. *)
Lemma llama_embed_ok {C} `{LlamaCpp C} (I : C → Prop) (N M : Z) (tok : string → nat → Z * list Z)
    (f : list Z → vec) `{!LlamaOk I N M tok f} (t : string) (p : LlamaProvider) (c : C) :
  I c → (0 ≤ n_ctx_ p)%Z → (1 ≤ M)%Z → usable_item N (item_of tok p 0 t) = true →
  ∃ c', llama_embed t (p, c) = (Ret (embedding N tok f p t), (p, c')) ∧ I c'.
Proof.
  intros Hc Hn HM Hu. unfold embedding. rewrite Hu.
  pose proof Hu as [Hht Hle%Z.leb_le]%andb_true_iff. unfold n_toks in Hle.
  set (it := item_of tok p 0 t) in *. assert (Forall (λ it, has_tokens it = true) [it]) as Hall by by constructor.
  destruct (has_tokens_nonempty it Hht) as [Hne Hok].
  pose proof (length_slots_from 0 [it] Hall) as Hlen. simpl in Hlen. rewrite Nat.add_0_r in Hlen.
  destruct (encode_ok c (slots_from 0 [it]) Hc) as (c' & He & Hc' & Hseq).
  { split_and!; [|lia|].
    - intros E. rewrite E in Hlen. destruct (tokens it); [done|simpl in Hlen; lia].
    - intros x Hx%slots_from_seq. simpl in Hx. lia. }
  exists c'. split; [|done]. unfold llama_embed, tokenize_batch, mbind, prog_bind. cbn [fst snd].
  rewrite (tokenize_from_ok I N M tok f p c 0 [t] Hc Hn). cbn [imap Nat.add]. fold it. rewrite Hok.
  cbn [negb on_snd modify fst snd lift]. unfold build_batch.
  change (concat (imap slots_of [it])) with (slots_from 0 [it]).
  rewrite (proj2 (Z.ltb_ge _ _)) by lia. unfold on_snd. cbn [fst snd].
  rewrite He. cbn [fst snd]. rewrite bool_decide_false by (intros ?; done).
  cbn [gets snd mret prog_ret]. by rewrite (extract_chunk f [it] c' Hall Hseq).
Qed.

(** A whole batch, whatever the chunks it is cut into. *)
Lemma llama_embed_batch_ok {C} `{LlamaCpp C} (I : C → Prop) (N M : Z) (tok : string → nat → Z * list Z)
    (f : list Z → vec) `{!LlamaOk I N M tok f} (texts : list string) (p : LlamaProvider) (c : C) :
  I c → (0 ≤ n_ctx_ p)%Z → (0 ≤ N < 2 ^ 30)%Z →
  ∃ c', llama_embed_batch texts (p, c) = (Ret (embedding N tok f p <$> texts), (p, c')) ∧ I c'.
Proof.
  intros Hc Hn HN. destruct (limits_fixed c Hc) as [Hlim1 Hlim2]. assert (1 ≤ M)%Z as HM by lia.
  unfold llama_embed_batch. destruct (decide (texts = [])) as [->|Hne]; [by exists c|].
  assert (∀ (A : Type) (x y : A), match texts with [] => x | _ => y end = y) as ->
    by (intros; by destruct texts).
  unfold tokenize_batch, mbind, prog_bind, gets. cbn [fst snd].
  rewrite (tokenize_from_ok I N M tok f p c 0 texts Hc Hn), Hlim1, Hlim2.
  change (imap (λ k, item_of tok p (0 + k)) texts) with (imap (item_of tok p) texts).
  assert (chunk_ok N M {| results := replicate (length texts) []; chunk := []; chunk_tokens := 0 |}) as Hs0.
  { unfold chunk_ok. simpl. split_and!; try done; lia. }
  destruct (add_items_ok I N M tok f ltac:(lia) HM p (imap (item_of tok p) texts) c _ Hc Hs0)
    as (s1 & c1 & -> & Hc1 & Hs1 & Hp1).
  destruct (flush_chunk_ok I N M tok f p c1 s1 Hc1 Hs1) as (c2 & -> & Hc2).
  exists c2. split; [|done]. cbn [results]. rewrite Hp1. cbn [results chunk].
  by rewrite <- (place_texts N tok f p texts).
Qed.

(** On its own, a text that cannot be embedded gives an empty vector: when no
    text within the window is too long for a batch, and the library refuses an
    empty one. *)
Lemma llama_embed_total {C} `{LlamaCpp C} (I : C → Prop) (N M : Z) (tok : string → nat → Z * list Z)
    (f : list Z → vec) `{!LlamaOk I N M tok f} (t : string) (p : LlamaProvider) (c : C) :
  I c → (0 ≤ n_ctx_ p ≤ N)%Z →
  (∀ c, I c → ∃ rc c', llama_encode [] (llama_memory_clear c) = (rc, c') ∧ rc ≠ 0%Z ∧ I c') →
  ∃ c', llama_embed t (p, c) = (Ret (embedding N tok f p t), (p, c')) ∧ I c'.
Proof.
  intros Hc Hn Hempty. destruct (usable_item N (item_of tok p 0 t)) eqn:Hu.
  { apply (llama_embed_ok I N M tok f); [done|lia| |done]. destruct (limits_fixed c Hc). lia. }
  unfold embedding. rewrite Hu. unfold llama_embed, tokenize_batch, mbind, prog_bind. cbn [fst snd].
  rewrite (tokenize_from_ok I N M tok f p c 0 [t] Hc) by lia. cbn [imap Nat.add].
  destruct (tok_ok (item_of tok p 0 t)) eqn:Hok; [|by exists c].
  assert (tokens (item_of tok p 0 t) = []) as Htok.
  { revert Hu Hok. unfold usable_item, has_tokens, n_toks, item_of. destruct (tok _ _) as [n ws].
    destruct ((n <? 0)%Z || (n_ctx_ p <? n)%Z) eqn:E; [done|].
    apply orb_false_iff in E as [E1%Z.ltb_ge E2%Z.ltb_ge]. cbn [tokens tok_ok]. intros Hu _.
    destruct (token_buffer _ _ ws) as [|x l] eqn:Eb; [done|].
    assert (length (x :: l) = Z.to_nat n) as Hl by (rewrite <- Eb; apply length_resize).
    apply andb_false_iff in Hu as [?|?%Z.leb_gt]; [done|]. lia. }
  destruct (Hempty c Hc) as (rc & c' & He & Hrc & Hc'). exists c'.
  assert (build_batch (Z.of_nat (length (tokens (item_of tok p 0 t)))) [item_of tok p 0 t] = Ret []) as Hb.
  { unfold build_batch. cbn [imap concat]. unfold slots_of, has_tokens. by rewrite Htok, andb_false_r. }
  cbn [negb on_snd modify fst snd lift]. rewrite Hb. unfold on_snd. cbn [fst snd].
  rewrite He. by rewrite bool_decide_true.
Qed.


(** ** A context that remembers its last batch *)

Module DemoLlama.
Definition context : Type := list BatchSlot.
Definition tok (s : string) (n : nat) : Z * list Z :=
  let ts := byte_val <$> bytes_of_string s in
  if bool_decide (length ts ≤ n) then (Z.of_nat (length ts), ts) else ((- Z.of_nat (length ts))%Z, []).
Definition encode (ts : list Z) : vec := [Z.of_nat (length ts); foldr Z.add 0%Z ts].
#[export] Instance llama : LlamaCpp context :=
  {| llama_tokenize s n _ := tok s n; llama_memory_clear _ := [];
     llama_encode b _ := (0%Z, b);
     llama_get_embeddings_seq s c :=
       match seq_tokens s c with [] => None | ts => Some (encode ts) end;
     llama_get_embeddings_ith _ _ := None;
     llama_n_seq_max _ := 2%Z; llama_n_batch _ := 6%Z; llama_n_embd _ := 2%Z |}.
#[export] Instance llama_ok : LlamaOk (λ _, True) 6 2 tok encode.
Proof.
  split; [done|done|]. intros c b _ _. exists b. split; [done|]. split; [done|].
  intros s Hs. simpl. by destruct (seq_tokens s b).
Defined.

Definition provider : LlamaProvider :=
  {| model_path_ := "m.gguf"; lora_path_ := ""; lora_scale_ := 0; text_prefix_ := ""; n_threads_ := 4;
     n_ctx_ := 5; n_batch_ := 2; n_gpu_layers_ := 0 |}.
End DemoLlama.
#[local] Existing Instances DemoLlama.llama DemoLlama.llama_ok.


Example demo_embeddings :
  (llama_embed_batch ["ab"; "toolong"; "cde"; "f"; "gh"] (DemoLlama.provider, [])).1 =
  Ret [[2; 195]; []; [3; 300]; [1; 102]; [2; 207]]%Z.
Proof. vm_compute. reflexivity. Qed.
