(* ===== verification/Providers.v ===== *)
(** * [src/embedding_provider.cpp]: the providers the program builds

    The two providers as objects of the interface, the factory that chooses
    between them, and the cached, initialised provider the sinks share. *)

From S2P Require Import Prelude Event Config EmbeddingProvider Http OpenAI Llama.
From Stdlib Require Import Lia.

(** ** The providers as objects *)

Section objects.
Context {C : Type} `{LlamaCpp C} `{LlamaLoad C} {Net : Type} `{Curl Net} `{JsonText}.
Context (int_to_float double_to_float trunc_float : Z → Z) (has_curl : bool).

(** A llama object has no context before [init()]. *)
Abbreviation LlamaObject := (LlamaProvider * option C)%type.

Definition on_context {A} (m : prog (LlamaProvider * C) A) : prog LlamaObject A := λ w,
  match w.2 with
  | Some c => let '(r, (p, c)) := m (w.1, c) in (r, (p, Some c))
  | None => (UB "llama context is null", w)
  end.

Definition init_llama_object : prog LlamaObject unit := λ w,
  match llama_init w.1 with
  | Ret (p, c) => (Ret tt, (p, Some c))
  | Throw e => (Throw e, w)
  | UB e => (UB e, w)
  | OutOfFuel => (OutOfFuel, w)
  end.

Instance llama_object : EmbeddingProvider LlamaObject := {|
  prov_init := init_llama_object;
  embed t := on_context (llama_embed t);
  embed_batch ts := on_context (llama_embed_batch ts);
  prov_dimensions w := from_option (λ c, llama_dimensions (w.1, c)) 0%Z w.2;
  prov_name w := "llama[" +:+ model_path_ w.1 +:+ "]";
|}.

Instance openai_object : EmbeddingProvider (Session Net) := {|
  prov_init := openai_init has_curl;
  embed := openai_embed int_to_float double_to_float;
  embed_batch := openai_embed_batch int_to_float double_to_float trunc_float;
  prov_dimensions w := dimensions_ (prov w);
  prov_name := openai_name;
|}.
End objects.

(** A [std::shared_ptr<EmbeddingProvider>]: the calls go to the object's own
    class. *)
Definition on_left {A B R} (m : prog A R) (a : A) : outcome R * (A + B) :=
  let '(r, a) := m a in (r, inl a).
Definition on_right {A B R} (m : prog B R) (b : B) : outcome R * (A + B) :=
  let '(r, b) := m b in (r, inr b).

#[export] Instance virtual_provider {A B} `{EmbeddingProvider A} `{EmbeddingProvider B}
    : EmbeddingProvider (A + B) := {|
  prov_init := λ w, match w with inl a => on_left prov_init a | inr b => on_right prov_init b end;
  embed t := λ w, match w with inl a => on_left (embed t) a | inr b => on_right (embed t) b end;
  embed_batch ts := λ w, match w with
                         | inl a => on_left (embed_batch ts) a
                         | inr b => on_right (embed_batch ts) b
                         end;
  prov_dimensions w := match w with inl a => prov_dimensions a | inr b => prov_dimensions b end;
  prov_name w := match w with inl a => prov_name a | inr b => prov_name b end;
|}.

(** ** The factory *)

Section factory.
Context {C : Type} `{LlamaCpp C} `{LlamaLoad C} {Net : Type} `{Curl Net} `{JsonText}.
Context (int_to_float double_to_float trunc_float : Z → Z) (has_curl : bool).
#[local] Existing Instance llama_object.
#[local] Instance openai : EmbeddingProvider (Session Net) :=
  openai_object int_to_float double_to_float trunc_float has_curl.

Abbreviation Raw := ((LlamaProvider * option C) + Session Net)%type.

(** The network [n] is what the OpenAI client talks to. *)
Definition make_embedding_provider (cfg : EmbeddingConfig) (n : Net) : outcome Raw :=
  if bool_decide (provider cfg = "llama") then Ret (inl (make_llama cfg, None))
  else if bool_decide (provider cfg = "openai") then
    Ret (inr {| prov := make_openai cfg; net := n; slept := [] |})
  else Throw ("make_embedding_provider: unknown provider '" +:+ provider cfg +:+
              "' — valid values: 'llama', 'openai'").

(** [max_batch_size] is an [int], converted to [size_t] for the cache size. *)
Definition create_initialized_embedding_provider (fuel : nat) (cfg : EmbeddingConfig) (use_cached : bool)
    (n : Net) : outcome (Raw + Caching Raw) :=
  let body :=
    p ← make_embedding_provider cfg n;
    match prov_init p with
    | (Ret _, p) =>
        if use_cached then size ← cache_size_for_batch fuel (u64 (max_batch_size cfg));
                           Ret (inr (make_caching p size))
        else Ret (inl p)
    | (Throw e, _) => Throw e
    | (UB e, _) => UB e
    | (OutOfFuel, _) => OutOfFuel
    end in
  match body with
  | Throw _ => Throw "EmbeddingProvider: failed to create context"
  | r => r
  end.
End factory.

(** ** A provider as the sinks rely on it *)

(** A shared pointer keeps what its object promises. *)
#[export] Instance virtual_right_ok {A B} `{EmbeddingProvider A} `{EmbeddingProvider B} (I : B → Prop)
    (e : string → vec) `{!ProviderOk I e} :
  ProviderOk (λ w : A + B, match w with inl _ => False | inr b => I b end) e.
Proof.
  split.
  - intros t [?|b] Hb; [done|]. destruct (embed_ok t b Hb) as (b' & Hb' & HI). exists (inr b').
    cbn. unfold on_right. by rewrite Hb'.
  - intros ts [?|b] Hb; [done|]. destruct (embed_batch_ok ts b Hb) as (b' & Hb' & HI). exists (inr b').
    cbn. unfold on_right. by rewrite Hb'.
Qed.

#[export] Instance virtual_left_ok {A B} `{EmbeddingProvider A} `{EmbeddingProvider B} (I : A → Prop)
    (e : string → vec) `{!ProviderOk I e} :
  ProviderOk (λ w : A + B, match w with inl a => I a | inr _ => False end) e.
Proof.
  split.
  - intros t [a|?] Ha; [|done]. destruct (embed_ok t a Ha) as (a' & Ha' & HI). exists (inl a').
    cbn. unfold on_left. by rewrite Ha'.
  - intros ts [a|?] Ha; [|done]. destruct (embed_batch_ok ts a Ha) as (a' & Ha' & HI). exists (inl a').
    cbn. unfold on_left. by rewrite Ha'.
Qed.

Section llama_built.
Context {C : Type} `{LlamaCpp C} `{LlamaLoad C} (I : C → Prop) (N M : Z)
  (tok : string → nat → Z * list Z) (f : list Z → vec) `{!LlamaOk I N M tok f}.
Context (p : LlamaProvider) (Hn : (0 ≤ n_ctx_ p ≤ N)%Z) (HN : (N < 2 ^ 30)%Z).
Context (Hempty : ∀ c, I c → ∃ rc c', llama_encode [] (llama_memory_clear c) = (rc, c') ∧ rc ≠ 0%Z ∧ I c').
#[local] Existing Instance llama_object.

(** A loaded llama object: its own settings, over a context in order. *)
Definition loaded (w : LlamaProvider * option C) : Prop := w.1 = p ∧ from_option I False w.2.

Lemma llama_object_ok : ProviderOk loaded (embedding N tok f p).
Proof.
  split.
  - intros t [p' [c|]] [Ep Hc]; [|done]. simpl in Ep, Hc. subst p'.
    destruct (llama_embed_total I N M tok f t p c Hc Hn Hempty) as (c' & He & Hc').
    exists (p, Some c'). cbn. unfold on_context. cbn. by rewrite He.
  - intros ts [p' [c|]] [Ep Hc]; [|done]. simpl in Ep, Hc. subst p'.
    destruct (llama_embed_batch_ok I N M tok f ts p c Hc) as (c' & He & Hc'); [lia|lia|].
    exists (p, Some c'). cbn. unfold on_context. cbn. by rewrite He.
Qed.
End llama_built.


(** The context of [DemoLlama], which a load always gives; it refuses an empty
    batch. *)
Module DemoProvider.
#[export] Instance llama : LlamaCpp DemoLlama.context :=
  {| llama_tokenize := @llama_tokenize _ DemoLlama.llama; llama_memory_clear := @llama_memory_clear _ DemoLlama.llama;
     llama_encode b c := match b with [] => ((-1)%Z, c) | _ => (0%Z, b) end;
     llama_get_embeddings_seq := @llama_get_embeddings_seq _ DemoLlama.llama;
     llama_get_embeddings_ith := @llama_get_embeddings_ith _ DemoLlama.llama;
     llama_n_seq_max _ := 2%Z; llama_n_batch _ := 6%Z; llama_n_embd _ := 2%Z |}.
#[export] Instance llama_ok : LlamaOk (λ _, True) 6 2 DemoLlama.tok DemoLlama.encode.
Proof.
  split; [done|done|]. intros c b _ [Hb _]. exists b. split; [by destruct b|]. split; [done|].
  intros s Hs. simpl. by destruct (seq_tokens s b).
Qed.
#[export] Instance load : LlamaLoad DemoLlama.context :=
  {| llama_supports_gpu_offload := false; llama_model_load _ _ := true;
     llama_init_from_model _ := Some []; llama_adapter_lora_init _ := false;
     llama_set_adapters_lora _ c := (0%Z, c); llama_adapter_meta_prefix := (0%Z, "") |}.
#[export] Instance net : Curl unit := {| curl_perform := λ _ s, (inr 200%Z, ["{}"], s) |}.
#[export] Instance text : JsonText := {| dump := λ _, Ret "{}"; parse_json := λ _, Ret JNull |}.
Definition config : EmbeddingConfig :=
  {| provider := "llama"; model := ""; model_path := "m.gguf"; api_key := ""; lora_path := "";
     lora_scale := 0; dimensions := 2; n_threads := 4; n_ctx := 5; max_batch_size := 2;
     n_gpu_layers := 0; emb_validate := "none" |}.
End DemoProvider.
#[local] Existing Instances DemoProvider.llama DemoProvider.llama_ok DemoProvider.load DemoProvider.net DemoProvider.text.

