(* ===== verification/BackfillManager.v ===== *)
(** * [src/backfill_manager.cpp]: the worker processes of the initial scan

    Processes are the operating system's: a state [OS] with the calls of the
    class [Processes].  The manager forks one worker per source that has rows
    to drain, reaps finished workers on a timer, and waits for all of them when
    it is destroyed. *)

From S2P Require Import Prelude Event Config Libpq Http BackfillStore Backfill ReplicationSource.
From Stdlib Require Import Lia.

Record BackfillWorkerHandle := { w_pid : Z; w_slot_name : string }.

Inductive BackfillSpawnStatus := NoPendingWork | WorkerBinaryMissing | ForkFailed | Spawned.

Record BackfillManager := {
  config_path_ : string;
  worker_path_ : string;
  workers_ : list BackfillWorkerHandle;
  reap_timer_ : bool;
  initialized_ : bool;
}.

(** What a wait reports: the child still runs, the call failed (interrupted or
    otherwise), or a child ended with its wait status. *)
Inductive WaitResult :=
| WaitRunning
| WaitFailed (eintr : bool)
| WaitEnded (pid status : Z).

Class Processes (OS : Type) := {
  path_exists : string → OS → bool;
  (* fork, and execl with these arguments in the child: the parent's view *)
  fork_exec : list string → OS → Z * OS;
  waitpid_nohang : Z → OS → WaitResult * OS;
  wait_any : OS → WaitResult * OS;
}.

Definition set_workers (ws : list BackfillWorkerHandle) (m : BackfillManager) : BackfillManager :=
  {| config_path_ := config_path_ m; worker_path_ := worker_path_ m; workers_ := ws;
     reap_timer_ := reap_timer_ m; initialized_ := initialized_ m |}.

(** The constructor: a manager without workers, its timer in the loop. *)
Definition make_manager (config_path : string) : BackfillManager :=
  {| config_path_ := config_path; worker_path_ := ""; workers_ := []; reap_timer_ := true;
     initialized_ := false |}.

Definition set_worker_path (path : string) (m : BackfillManager) : BackfillManager :=
  {| config_path_ := config_path_ m; worker_path_ := path; workers_ := workers_ m;
     reap_timer_ := reap_timer_ m; initialized_ := true |}.

Definition has_running_workers (m : BackfillManager) : bool := negb (bool_decide (workers_ m = [])).

Section manager.
Context {OS : Type} `{Processes OS}.
Abbreviation world := (BackfillManager * OS)%type.

(** The command line of a worker. *)
Definition worker_argv (m : BackfillManager) (store_path slot : string) : list string :=
  c_str <$> [worker_path_ m; "-c"; config_path_ m; "--store"; store_path; "--slot"; slot].

(** [spawn_if_required(source)]: the source, the second component, answers
    whether rows are waiting. *)
Definition spawn_if_required {Srv} : prog (world * (PgReplicationSource * Srv)) BackfillSpawnStatus :=
  w ← gets fst;
  if negb (initialized_ w.1) then mret WorkerBinaryMissing
  else
    pending_work ← on_snd has_pending_backfill_work;
    if negb pending_work then mret NoPendingWork
    else if negb (path_exists (worker_path_ w.1) w.2) then mret WorkerBinaryMissing
    else
      src ← gets (λ w, config_ w.2.1);
      let slot := slot_name src in
      pid ← on_fst (on_snd (lib (fork_exec (worker_argv w.1 (backfill_store_path src) slot))));
      if (pid <? 0)%Z then mret ForkFailed
      else
        on_fst (on_fst (modify (λ m,
          set_workers (workers_ m ++ [{| w_pid := pid; w_slot_name := slot |}]) m))) ;;
        mret Spawned.

(** The loop of [remove_finished_workers]: the workers that are kept. *)
Fixpoint reap (ws : list BackfillWorkerHandle) (os : OS) : list BackfillWorkerHandle * OS :=
  match ws with
  | [] => ([], os)
  | h :: ws =>
      let '(r, os) := waitpid_nohang (w_pid h) os in
      let '(kept, os) := reap ws os in
      match r with
      | WaitRunning => (h :: kept, os)
      | _ => (kept, os)
      end
  end.

Definition remove_finished_workers : prog world unit := λ w,
  let '(kept, os) := reap (workers_ w.1) w.2 in (Ret tt, (set_workers kept w.1, os)).

Definition reap_finished_workers : prog world unit := remove_finished_workers.

(** The callback of the reap timer *)
Definition on_reap_timer : prog world unit := reap_finished_workers.

(** The search for the finished worker: the first with that pid is erased. *)
Fixpoint erase_pid (pid : Z) (ws : list BackfillWorkerHandle) : list BackfillWorkerHandle :=
  match ws with
  | [] => []
  | h :: ws => if bool_decide (w_pid h = pid) then ws else h :: erase_pid pid ws
  end.

(** The blocking loop; [WaitRunning] is no answer of a blocking [wait]. *)
Fixpoint wait_loop (fuel : nat) : prog world unit := λ w,
  match fuel with
  | O => (OutOfFuel, w)
  | S fuel =>
      let '(m, os) := w in
      match workers_ m with
      | [] => (Ret tt, w)
      | _ =>
          match wait_any os with
          | (WaitFailed true, os) => wait_loop fuel (m, os)
          | (WaitFailed false, os) => (Ret tt, (m, os))
          | (WaitRunning, os) => wait_loop fuel (m, os)
          | (WaitEnded pid status, os) => wait_loop fuel (set_workers (erase_pid pid (workers_ m)) m, os)
          end
      end
  end.

Definition wait_for_all_workers (fuel : nat) : prog world unit := wait_loop fuel.

(** The destructor: the timer is freed, then it waits. *)
Definition destroy_manager (fuel : nat) : prog world unit := λ w,
  let '(m, os) := w in
  wait_for_all_workers fuel
    ({| config_path_ := config_path_ m; worker_path_ := worker_path_ m; workers_ := workers_ m;
        reap_timer_ := false; initialized_ := initialized_ m |}, os).
End manager.

(** ** No worker is forgotten *)

(** What the manager relies on: [children] are the child processes not yet
    waited for, [interrupts] the signals still to interrupt a wait. *)
Class ProcessesOk (OS : Type) `{Processes OS} := {
  children : OS → list Z;
  interrupts : OS → nat;
  fork_ok argv os :
    let '(pid, os') := fork_exec argv os in
    if (pid <? 0)%Z then children os' = children os else children os' = pid :: children os;
  waitpid_ok pid os :
    let '(r, os') := waitpid_nohang pid os in
    match r with
    | WaitRunning => pid ∈ children os ∧ children os' = children os
    | WaitFailed _ => pid ∉ children os ∧ children os' = children os
    | WaitEnded p _ => p = pid ∧ children os ≡ₚ pid :: children os'
    end;
  wait_ok os :
    let '(r, os') := wait_any os in
    match r with
    | WaitRunning => False
    | WaitFailed true => children os' = children os ∧ interrupts os' < interrupts os
    | WaitFailed false => children os = []
    | WaitEnded p _ => children os ≡ₚ p :: children os' ∧ interrupts os' ≤ interrupts os
    end;
}.

Section tracking.
Context {OS : Type} `{ProcessesOk OS}.

(** The workers on record are the children of the process. *)
Definition tracked (w : BackfillManager * OS) : Prop := (w_pid <$> workers_ w.1) ≡ₚ children w.2.

Lemma reap_tracks ws os rest :
  children os ≡ₚ (w_pid <$> ws) ++ rest →
  children (reap ws os).2 ≡ₚ (w_pid <$> (reap ws os).1) ++ rest.
Proof.
  revert os rest. induction ws as [|h ws IH]; intros os rest Hc; [done|]. cbn [reap].
  pose proof (waitpid_ok (w_pid h) os) as Hw. destruct (waitpid_nohang (w_pid h) os) as [r os1].
  csimpl in Hc. destruct r as [|e|p st].
  - destruct Hw as [_ Hw]. specialize (IH os1 (w_pid h :: rest)).
    destruct (reap ws os1) as [kept os2]. csimpl in *. rewrite IH; [by rewrite Permutation_middle|].
    by rewrite Hw, Hc, Permutation_middle.
  - destruct Hw as [[] _]. rewrite Hc. set_solver.
  - destruct Hw as [-> Hw]. specialize (IH os1 rest).
    destruct (reap ws os1) as [kept os2]. apply IH.
    apply (Permutation_cons_inv (a := w_pid h)). by rewrite <- Hw, Hc.
Qed.

Lemma erase_pid_perm pid ws :
  pid ∈ w_pid <$> ws → w_pid <$> ws ≡ₚ pid :: (w_pid <$> erase_pid pid ws).
Proof.
  induction ws as [|h ws IH]; csimpl; [set_solver|]. case_bool_decide as Hp; [by rewrite Hp|].
  intros [->|Hin]%elem_of_cons; [done|]. csimpl. rewrite IH by done. apply perm_swap.
Qed.

Lemma wait_loop_ok fuel m os :
  tracked (m, os) → length (children os) + interrupts os < fuel →
  ∃ os', wait_loop fuel (m, os) = (Ret tt, (set_workers [] m, os')) ∧ children os' = [].
Proof.
  revert m os. induction fuel as [|fuel IH]; intros m os Ht Hf; [lia|]. cbn [wait_loop].
  unfold tracked in Ht. simpl in Ht. destruct (workers_ m) as [|h ws] eqn:Ew.
  { exists os. split; [destruct m; simpl in *; by subst|]. apply Permutation_nil_r. by symmetry. }
  rewrite <- Ew in *. pose proof (wait_ok os) as Hw. destruct (wait_any os) as [r os1].
  destruct r as [|[]|p st]; [done| | |].
  - destruct Hw as [Hc Hi]. apply IH; unfold tracked; simpl; rewrite Hc; [done|lia].
  - rewrite Hw, Ew in Ht. by apply Permutation_nil_r in Ht.
  - destruct Hw as [Hc Hi].
    assert (w_pid <$> workers_ m ≡ₚ p :: (w_pid <$> erase_pid p (workers_ m))) as He.
    { apply erase_pid_perm. rewrite Ht, Hc. set_solver. }
    destruct (IH (set_workers (erase_pid p (workers_ m)) m) os1) as (os' & -> & Hos'); [| |by exists os'].
    + unfold tracked. simpl. apply (Permutation_cons_inv (a := p)). by rewrite <- He, Ht.
    + rewrite Hc in Hf. simpl in Hf. lia.
Qed.

Lemma spawn_tracks {Srv} (m : BackfillManager) (os : OS) (src : PgReplicationSource * Srv) st w :
  tracked (m, os) → spawn_if_required ((m, os), src) = (Ret st, w) → tracked w.1.
Proof.
  intros Ht. unfold spawn_if_required, mret, prog_ret, mbind, prog_bind, gets, on_snd, on_fst, lib, modify. cbn [fst snd].
  destruct (negb (initialized_ m)); [by intros; simplify_eq/=|]. cbn [fst snd].
  destruct (has_pending_backfill_work src) as [[b| | |] src']; [|by intros..].
  destruct (negb b); [by intros; simplify_eq/=|].
  destruct (negb (path_exists _ _)); [by intros; simplify_eq/=|]. cbn [fst snd].
  match goal with |- context [fork_exec ?a os] => pose proof (fork_ok a os) as Hf;
    destruct (fork_exec a os) as [pid os'] end.
  cbn [fst snd]. unfold tracked in *. simpl in Ht. destruct (pid <? 0)%Z; intros; simplify_eq/=.
  - by rewrite Hf.
  - rewrite fmap_app, Hf, <- Ht. simpl. by rewrite Permutation_app_comm.
Qed.
End tracking.

(** C30: no worker process is forgotten and shutting down does not hang: the
    workers on record are exactly the unreaped children, spawning and the reap
    timer keep it so, and the destructor ends (after at most one wait per child
    and interruption, and one look more) with no worker on record and no child
    left behind. *)
Theorem manager_tracks_children {OS} `{ProcessesOk OS} (m : BackfillManager) (os : OS) (fuel : nat) :
  tracked (m, os) → length (children os) + interrupts os < fuel →
  (∀ Srv (src : PgReplicationSource * Srv) st w,
     spawn_if_required ((m, os), src) = (Ret st, w) → tracked w.1) ∧
  (∃ w, reap_finished_workers (m, os) = (Ret tt, w) ∧ tracked w) ∧
  (∃ m' os', destroy_manager fuel (m, os) = (Ret tt, (m', os')) ∧ workers_ m' = [] ∧ children os' = []).
Proof.
  intros Ht Hf. split; [intros Srv src st w; by apply spawn_tracks|]. split.
  - pose proof (reap_tracks (workers_ m) os []) as Hr. rewrite !app_nil_r in Hr.
    unfold reap_finished_workers, remove_finished_workers. cbn [fst snd].
    destruct (reap (workers_ m) os) as [kept os']. eexists. split; [done|].
    unfold tracked. simpl. symmetry. apply Hr. by symmetry.
  - unfold destroy_manager, wait_for_all_workers.
    match goal with |- context [wait_loop fuel (?m', os)] =>
      destruct (wait_loop_ok fuel m' os) as (os' & -> & Hos); [done|done|] end.
    by eexists _, os'.
Qed.

(** ** Processes for a concrete run *)

Module DemoProcesses.
(** The children, with a signal pending or not. *)
Definition os : Type := list Z * bool.
#[export] Instance calls : Processes os :=
  {| path_exists := λ _ _, true;
     fork_exec := λ _ (s : list Z * bool), let pid := (1 + foldr Z.max 0 s.1)%Z in (pid, (pid :: s.1, s.2));
     waitpid_nohang := λ pid (s : list Z * bool),
       match s.1 with
       | p :: l => if bool_decide (p = pid) then (WaitEnded pid 0, (l, s.2))
                   else if bool_decide (pid ∈ l) then (WaitRunning, s) else (WaitFailed false, s)
       | [] => (WaitFailed false, s)
       end;
     wait_any := λ s : list Z * bool,
       if s.2 then (WaitFailed true, (s.1, false))
       else match s.1 with [] => (WaitFailed false, s) | pid :: l => (WaitEnded pid 0, (l, false)) end |}.
#[export] Instance calls_ok : ProcessesOk os.
Proof.
  refine {| children := fst; interrupts := λ s : list Z * bool, if s.2 then 1 else 0 |}.
  - intros argv [l b]. simpl. rewrite (proj2 (Z.ltb_ge _ _)); [done|].
    induction l as [|z l IH]; simpl; lia.
  - intros pid [[|p l] b]; simpl; [by split; [apply not_elem_of_nil|]|].
    repeat case_bool_decide; simplify_eq; simpl; set_solver.
  - intros [[|p l] []]; simpl; try (split; [done|lia]); done.
Defined.

Definition handle (pid : Z) : BackfillWorkerHandle := {| w_pid := pid; w_slot_name := "s" |}.
Definition manager : BackfillManager := set_workers [handle 1; handle 2] (set_worker_path "w" (make_manager "c")).
End DemoProcesses.
#[local] Existing Instances DemoProcesses.calls DemoProcesses.calls_ok.

Lemma manager_tracks_children_witness :
  (∀ Srv (src : PgReplicationSource * Srv) st w,
     spawn_if_required ((DemoProcesses.manager, ([2; 1]%Z, true)), src) = (Ret st, w) → tracked w.1) ∧
  (∃ w, reap_finished_workers (DemoProcesses.manager, ([2; 1]%Z, true)) = (Ret tt, w) ∧ tracked w) ∧
  (∃ m' os', destroy_manager 4 (DemoProcesses.manager, ([2; 1]%Z, true)) = (Ret tt, (m', os')) ∧
     workers_ m' = [] ∧ children os' = []).
Proof.
  apply (manager_tracks_children DemoProcesses.manager ([2; 1]%Z, true) 4); [apply perm_swap|simpl; lia].
Defined.
