(* ===== verification/SpscQueue.v ===== *)
(** * [src/queue/readerwriterqueue.hpp]: the lock-free queue of the dispatcher

    The producer (the event loop) and the consumer (the dispatcher's worker)
    run [inner_enqueue] and [try_dequeue] at the same time.  Each is a state
    machine whose steps are the accesses to memory the other side may touch;
    reads and writes of variables that only one side uses are done together
    with the next such access.  Accesses interleave one at a time: the fences
    of the code are what makes this so, and weaker orders are not modelled.

    A block pointer is the block's number (blocks are never freed while the
    queue lives); a slot that holds no object is absent from [data]. *)

From S2P Require Import Prelude.
From stdpp Require Import functions.
From Stdlib Require Import Lia.

Section spsc.
Context {T : Type}.

Record Block := {
  front : Z;
  localTail : Z;            (* the consumer's copy of tail *)
  tail : Z;
  localFront : Z;           (* the producer's copy of front *)
  next : option nat;
  data : gmap Z T;
  sizeMask : Z;
}.

Record ReaderWriterQueue := {
  blocks : list Block;
  frontBlock : nat;
  tailBlock : nat;
  largestBlockSize : Z;
}.

Definition set_front (v : Z) (b : Block) : Block :=
  {| front := v; localTail := localTail b; tail := tail b; localFront := localFront b;
     next := next b; data := data b; sizeMask := sizeMask b |}.
Definition set_localTail (v : Z) (b : Block) : Block :=
  {| front := front b; localTail := v; tail := tail b; localFront := localFront b;
     next := next b; data := data b; sizeMask := sizeMask b |}.
Definition set_tail (v : Z) (b : Block) : Block :=
  {| front := front b; localTail := localTail b; tail := v; localFront := localFront b;
     next := next b; data := data b; sizeMask := sizeMask b |}.
Definition set_localFront (v : Z) (b : Block) : Block :=
  {| front := front b; localTail := localTail b; tail := tail b; localFront := v;
     next := next b; data := data b; sizeMask := sizeMask b |}.
Definition set_next (v : option nat) (b : Block) : Block :=
  {| front := front b; localTail := localTail b; tail := tail b; localFront := localFront b;
     next := v; data := data b; sizeMask := sizeMask b |}.
Definition set_data (v : gmap Z T) (b : Block) : Block :=
  {| front := front b; localTail := localTail b; tail := tail b; localFront := localFront b;
     next := next b; data := v; sizeMask := sizeMask b |}.

(** The constructor of [Block], as [make_block] calls it; [malloc] may fail. *)
Definition make_block (capacity : Z) : Block :=
  {| front := 0; localTail := 0; tail := 0; localFront := 0; next := None; data := ∅;
     sizeMask := capacity - 1 |}.

Definition ceilToPow2 (x : Z) : Z :=
  let x := u64 (x - 1) in
  let x := Z.lor x (Z.shiftr x 1) in
  let x := Z.lor x (Z.shiftr x 2) in
  let x := Z.lor x (Z.shiftr x 4) in
  let x := Z.lor x (Z.shiftr x 8) in
  let x := Z.lor x (Z.shiftr x 16) in
  let x := Z.lor x (Z.shiftr x 32) in
  u64 (x + 1).

(** The default of the template parameter. *)
Definition MAX_BLOCK_SIZE : Z := 512.

(** A ring of [n] blocks: each points to the next, the last to the first. *)
Definition ring (n : nat) (capacity : Z) : list Block :=
  (λ i, set_next (Some (if decide (S i = n) then 0 else S i)) (make_block capacity)) <$> seq 0 n.

(** The constructor, when the allocations succeed. *)
Definition make_queue (size : Z) : ReaderWriterQueue :=
  let largest := ceilToPow2 (u64 (size + 1)) in
  if (MAX_BLOCK_SIZE * 2 <? largest)%Z then
    let initialBlockCount := ((size + MAX_BLOCK_SIZE * 2 - 3) / (MAX_BLOCK_SIZE - 1))%Z in
    {| blocks := ring (Z.to_nat initialBlockCount) MAX_BLOCK_SIZE; frontBlock := 0; tailBlock := 0;
       largestBlockSize := MAX_BLOCK_SIZE |}
  else
    {| blocks := ring 1 largest; frontBlock := 0; tailBlock := 0; largestBlockSize := largest |}.

(** ** The two sides *)

Inductive AllocationMode := CanAlloc | CannotAlloc.

(** Where [inner_enqueue(x)] is; the arguments are its local variables. *)
Inductive ProducerPc :=
| PIdle
| PStart (x : T) (mode : AllocationMode)
| PFront (x : T) (mode : AllocationMode) (tailBlock_ : nat) (blockTail nextBlockTail : Z)
| PWrite (x : T) (tailBlock_ : nat) (blockTail nextBlockTail : Z)
| PTail (x : T) (tailBlock_ : nat) (nextBlockTail : Z)
| PNext (x : T) (mode : AllocationMode) (tailBlock_ : nat)
| PUse (x : T) (tailBlock_ : nat)
| PUseWrite (x : T) (tailBlockNext : nat) (nextBlockTail : Z)
| PUseTail (x : T) (tailBlockNext : nat) (nextBlockTail : Z)
| PAlloc (x : T) (tailBlock_ : nat)
| PLink (x : T) (tailBlock_ newBlock : nat)
| PPublish (x : T) (newTailBlock : nat)
| PDone (ok : bool).

(** Where [try_dequeue] is; [n] is the number of elements ever enqueued when
    it was called. *)
Inductive ConsumerPc :=
| CIdle
| CStart (n : nat)
| CTail (n : nat) (frontBlock_ : nat) (blockFront : Z)
| CTailBlock (n : nat) (frontBlock_ : nat)
| CRecheck
| CNext (frontBlock_ : nat)
| CNextTail (frontBlock_ nextBlock : nat)
| CAdvance (frontBlock_ nextBlock : nat) (nextBlockFront : Z)
| CMove (frontBlock_ : nat) (blockFront : Z)
| CStore (frontBlock_ : nat) (blockFront : Z) (v : T)
| CEmpty (n : nat)                            (* returned false *)
| CGot (v : T).                               (* returned true with v *)

(** The queue, both sides, and the history: the elements enqueued (an element
    counts once the consumer can find it) and those dequeued. *)
Record Spsc := {
  q : ReaderWriterQueue;
  pp : ProducerPc;
  cp : ConsumerPc;
  enqueued : list T;
  dequeued : list T;
}.

(** A step ends in a new state; or it is not possible; or it does something
    undefined, or an assertion fails. *)
Inductive step_result (S : Type) := Next (s : S) | Disabled | Fault (why : string).
#[global] Arguments Next {S} s.
#[global] Arguments Disabled {S}.
#[global] Arguments Fault {S} why.

Definition with_block (i : nat) (f : Block → Block) (k : ReaderWriterQueue) : ReaderWriterQueue :=
  {| blocks := alter f i (blocks k); frontBlock := frontBlock k; tailBlock := tailBlock k;
     largestBlockSize := largestBlockSize k |}.

Definition producer_to (pc : ProducerPc) (k : ReaderWriterQueue) (s : Spsc) : step_result Spsc :=
  Next {| q := k; pp := pc; cp := cp s; enqueued := enqueued s; dequeued := dequeued s |}.

(** The store that makes the element visible. *)
Definition producer_done (x : T) (k : ReaderWriterQueue) (s : Spsc) : step_result Spsc :=
  Next {| q := k; pp := PDone true; cp := cp s; enqueued := enqueued s ++ [x];
          dequeued := dequeued s |}.

Definition consumer_to (pc : ConsumerPc) (k : ReaderWriterQueue) (s : Spsc) : step_result Spsc :=
  Next {| q := k; pp := pp s; cp := pc; enqueued := enqueued s; dequeued := dequeued s |}.

Definition deref (i : nat) (s : Spsc) (f : Block → step_result Spsc) : step_result Spsc :=
  match blocks (q s) !! i with Some b => f b | None => Fault "dangling block" end.

(** Placement new: the slot must be one of the block and hold no object. *)
Definition construct (i : nat) (pos : Z) (x : T) (pc : ProducerPc) (s : Spsc) : step_result Spsc :=
  deref i s (λ b,
    if (0 <=? pos)%Z && (pos <=? sizeMask b)%Z && bool_decide (data b !! pos = None)
    then producer_to pc (with_block i (set_data (<[pos := x]> (data b))) (q s)) s
    else Fault "placement new outside the block or over an object").

(** ** [inner_enqueue] *)
Definition producer_step (malloc_ok : bool) (s : Spsc) : step_result Spsc :=
  match pp s with
  | PIdle | PDone _ => Disabled
  | PStart x mode =>
      let tb := tailBlock (q s) in
      deref tb s (λ b,
        let nbt := Z.land (tail b + 1) (sizeMask b) in
        if negb (nbt =? localFront b)%Z then producer_to (PWrite x tb (tail b) nbt) (q s) s
        else producer_to (PFront x mode tb (tail b) nbt) (q s) s)
  | PFront x mode tb bt nbt =>
      deref tb s (λ b,
        let k := with_block tb (set_localFront (front b)) (q s) in
        if negb (nbt =? front b)%Z then producer_to (PWrite x tb bt nbt) k s
        else producer_to (PNext x mode tb) k s)
  | PWrite x tb bt nbt => construct tb bt x (PTail x tb nbt) s
  | PTail x tb nbt => producer_done x (with_block tb (set_tail nbt) (q s)) s
  | PNext x mode tb =>
      deref tb s (λ b,
        if negb (bool_decide (next b = Some (frontBlock (q s)))) then producer_to (PUse x tb) (q s) s
        else match mode with
             | CanAlloc => producer_to (PAlloc x tb) (q s) s
             | CannotAlloc => producer_to (PDone false) (q s) s
             end)
  | PUse x tb =>
      deref tb s (λ b,
        match next b with
        | None => Fault "null block"
        | Some tbn =>
            deref tbn s (λ bn,
              if bool_decide (front bn = tail bn)
              then producer_to (PUseWrite x tbn (tail bn)) (with_block tbn (set_localFront (front bn)) (q s)) s
              else Fault "assertion: nextBlockFront == nextBlockTail")
        end)
  | PUseWrite x tbn nbt => construct tbn nbt x (PUseTail x tbn nbt) s
  | PUseTail x tbn nbt =>
      deref tbn s (λ bn,
        producer_to (PPublish x tbn) (with_block tbn (set_tail (Z.land (nbt + 1) (sizeMask bn))) (q s)) s)
  | PAlloc x tb =>
      if negb malloc_ok then producer_to (PDone false) (q s) s
      else
        deref tb s (λ b,
          let largest := largestBlockSize (q s) in
          let newBlockSize := if (MAX_BLOCK_SIZE <=? largest)%Z then largest else (largest * 2)%Z in
          let nb := set_next (next b) (set_localTail 1 (set_tail 1 (set_data {[0%Z := x]} (make_block newBlockSize)))) in
          producer_to (PLink x tb (length (blocks (q s))))
            {| blocks := blocks (q s) ++ [nb]; frontBlock := frontBlock (q s);
               tailBlock := tailBlock (q s); largestBlockSize := newBlockSize |} s)
  | PLink x tb nb => producer_to (PPublish x nb) (with_block tb (set_next (Some nb)) (q s)) s
  | PPublish x tbn =>
      producer_done x {| blocks := blocks (q s); frontBlock := frontBlock (q s); tailBlock := tbn;
                         largestBlockSize := largestBlockSize (q s) |} s
  end.

(** ** [try_dequeue] *)
Definition consumer_step (s : Spsc) : step_result Spsc :=
  match cp s with
  | CIdle | CEmpty _ | CGot _ => Disabled
  | CStart n =>
      let fb := frontBlock (q s) in
      deref fb s (λ b,
        if negb (front b =? localTail b)%Z then consumer_to (CMove fb (front b)) (q s) s
        else consumer_to (CTail n fb (front b)) (q s) s)
  | CTail n fb bf =>
      deref fb s (λ b,
        let k := with_block fb (set_localTail (tail b)) (q s) in
        if negb (bf =? tail b)%Z then consumer_to (CMove fb bf) k s
        else consumer_to (CTailBlock n fb) k s)
  | CTailBlock n fb =>
      if negb (bool_decide (fb = tailBlock (q s))) then consumer_to CRecheck (q s) s
      else consumer_to (CEmpty n) (q s) s
  | CRecheck =>
      let fb := frontBlock (q s) in
      deref fb s (λ b,
        let k := with_block fb (set_localTail (tail b)) (q s) in
        if negb (front b =? tail b)%Z then consumer_to (CMove fb (front b)) k s
        else consumer_to (CNext fb) k s)
  | CNext fb =>
      deref fb s (λ b,
        match next b with
        | None => Fault "null block"
        | Some nb => consumer_to (CNextTail fb nb) (q s) s
        end)
  | CNextTail fb nb =>
      deref nb s (λ b,
        if negb (front b =? tail b)%Z
        then consumer_to (CAdvance fb nb (front b)) (with_block nb (set_localTail (tail b)) (q s)) s
        else Fault "assertion: nextBlockFront != nextBlockTail")
  | CAdvance fb nb nf =>
      consumer_to (CMove nb nf)
        {| blocks := blocks (q s); frontBlock := nb; tailBlock := tailBlock (q s);
           largestBlockSize := largestBlockSize (q s) |} s
  | CMove fb bf =>
      deref fb s (λ b,
        match data b !! bf with
        | None => Fault "move out of a slot without an object"
        | Some v =>
            consumer_to (CStore fb (Z.land (bf + 1) (sizeMask b)) v)
              (with_block fb (set_data (delete bf (data b))) (q s)) s
        end)
  | CStore fb nf v =>
      Next {| q := with_block fb (set_front nf) (q s); pp := pp s; cp := CGot v;
              enqueued := enqueued s; dequeued := dequeued s ++ [v] |}
  end.

Inductive spsc_label :=
| LEnqueue (x : T) (mode : AllocationMode)   (* the producer calls inner_enqueue *)
| LProducer (malloc_ok : bool)
| LDequeue                                    (* the consumer calls try_dequeue *)
| LConsumer.

Definition spsc_step (l : spsc_label) (s : Spsc) : step_result Spsc :=
  match l with
  | LEnqueue x mode =>
      match pp s with PIdle | PDone _ => producer_to (PStart x mode) (q s) s | _ => Disabled end
  | LProducer malloc_ok => producer_step malloc_ok s
  | LDequeue =>
      match cp s with
      | CIdle | CEmpty _ | CGot _ => consumer_to (CStart (length (enqueued s))) (q s) s
      | _ => Disabled
      end
  | LConsumer => consumer_step s
  end.

Definition spsc_init (size : Z) : Spsc :=
  {| q := make_queue size; pp := PIdle; cp := CIdle; enqueued := []; dequeued := [] |}.

(** A run; a step that is not possible is skipped. *)
Fixpoint spsc_run (ls : list spsc_label) (s : Spsc) : step_result Spsc :=
  match ls with
  | [] => Next s
  | l :: ls =>
      match spsc_step l s with
      | Next s => spsc_run ls s
      | Disabled => spsc_run ls s
      | Fault e => Fault e
      end
  end.
End spsc.
#[global] Arguments Block : clear implicits.
#[global] Arguments ReaderWriterQueue : clear implicits.
#[global] Arguments Spsc : clear implicits.
#[global] Arguments ProducerPc : clear implicits.
#[global] Arguments ConsumerPc : clear implicits.
#[global] Arguments spsc_label : clear implicits.

(** ** A block as a circular buffer *)

Definition size {T} (b : Block T) : Z := sizeMask b + 1.
Abbreviation len l := (Z.of_nat (length l)).

(** [b] holds [items] between [front] and [tail], followed by the element
    [pend] the producer has written but not yet announced; with [hole], the
    first item has been moved out but [front] not yet advanced.  No other slot
    holds an object. *)
Record holds {T} (b : Block T) (hole : bool) (items pend : list T) : Prop := {
  h_pow : ∃ n, (1 ≤ n)%Z ∧ size b = (2 ^ n)%Z;
  h_front : (0 ≤ front b < size b)%Z;
  h_tail : tail b = ((front b + len items) mod size b)%Z;
  h_room : (len (items ++ pend) < size b)%Z;
  h_hole : hole = true → items ≠ [];
  h_slots : ∀ k : nat, (Z.of_nat k < size b)%Z →
    data b !! ((front b + Z.of_nat k) mod size b)%Z =
      if hole && bool_decide (k = 0) then None else (items ++ pend) !! k;
}.

Section block.
Context {T : Type} (b : Block T).
Implicit Types (items pend : list T) (hole : bool).

Lemma mod_add_inj (m f : Z) (i k : Z) :
  (0 ≤ i < m)%Z → (0 ≤ k < m)%Z → ((f + i) mod m = (f + k) mod m)%Z → i = k.
Proof.
  intros Hi Hk E.
  assert ((i - k) mod m = 0)%Z as Hd.
  { replace (i - k)%Z with ((f + i) - (f + k))%Z by lia.
    by rewrite Zminus_mod, E, Z.sub_diag, Z.mod_0_l by lia. }
  apply Z.mod_divide in Hd; [|lia]. destruct Hd as [c Hc].
  destruct (Z.lt_trichotomy c 0) as [?|[->|?]]; nia.
Qed.

(** Distinct slots are distinct. *)
Lemma slot_inj (m f : Z) (i k : nat) :
  (Z.of_nat i < m)%Z → (Z.of_nat k < m)%Z →
  ((f + Z.of_nat i) mod m = (f + Z.of_nat k) mod m)%Z → i = k.
Proof. intros Hi Hk E. apply Nat2Z.inj. by apply (mod_add_inj m f); [lia..|]. Qed.

(** Advancing an index: [(i + 1) & sizeMask]. *)
Lemma advance_index hole items pend i :
  holds b hole items pend → Z.land (i + 1) (sizeMask b) = ((i + 1) mod size b)%Z.
Proof.
  intros Hh. destruct (h_pow _ _ _ _ Hh) as (n & Hn & E). unfold size in *.
  rewrite E, <- Z.land_ones by lia. f_equal. rewrite Z.ones_equiv. lia.
Qed.

Lemma holds_empty hole items pend : holds b hole items pend → front b = tail b ↔ items = [].
Proof.
  intros [_ Hf Ht Hr _ _]. rewrite length_app in Hr. rewrite Ht.
  rewrite <- (Z.mod_small (front b) (size b)) at 1 by done. split.
  - intros E. apply (nil_length_inv items). apply Nat2Z.inj. symmetry.
    apply (mod_add_inj (size b) (front b)); [lia..|]. by rewrite Z.add_0_r.
  - intros ->. by rewrite Z.add_0_r.
Qed.

(** Fields the description does not speak of. *)
Lemma holds_localTail hole items pend v :
  holds b hole items pend → holds (set_localTail v b) hole items pend.
Proof. by intros []. Qed.
Lemma holds_localFront hole items pend v :
  holds b hole items pend → holds (set_localFront v b) hole items pend.
Proof. by intros []. Qed.
Lemma holds_next hole items pend v :
  holds b hole items pend → holds (set_next v b) hole items pend.
Proof. by intros []. Qed.

(** The producer writes the slot at [tail] ... *)
Lemma holds_write hole items x :
  holds b hole items [] → (len items + 1 < size b)%Z →
  (0 ≤ tail b ≤ sizeMask b)%Z ∧ data b !! tail b = None ∧
  holds (set_data (<[tail b := x]> (data b)) b) hole items [x].
Proof.
  intros [Hp Hf Ht Hr Hh Hs] Hlt. rewrite app_nil_r in *.
  pose proof (Z.mod_pos_bound (front b + len items) (size b)) as Hm.
  assert (¬ (hole = true ∧ length items = 0)) as Hno by (intros [? ?%nil_length_inv]; naive_solver).
  split; [rewrite Ht; unfold size in *; lia|]. split.
  - rewrite Ht, Hs by lia. rewrite lookup_ge_None_2 by done. by destruct (_ && _).
  - constructor; simpl; [done..|rewrite length_app; simpl; unfold size in *; simpl in *; lia|done|].
    intros k Hk. change (size _) with (size b) in Hk |- *.
    destruct (decide (k = length items)) as [->|Hne].
    + rewrite <- Ht, lookup_insert, decide_True by done.
      rewrite list_lookup_middle by done. destruct hole; [|done]. case_bool_decide; [|done]. naive_solver.
    + rewrite lookup_insert_ne; [|rewrite Ht; intros E%slot_inj; [done|lia..]].
      rewrite Hs by done. case_match; [done|].
      destruct (decide (k < length items)); [by rewrite lookup_app_l|].
      rewrite !lookup_ge_None_2; [done|rewrite length_app; simpl; lia|lia].
Qed.

(** ... and announces it. *)
Lemma holds_push hole items x :
  holds b hole items [x] → holds (set_tail (Z.land (tail b + 1) (sizeMask b)) b) hole (items ++ [x]) [].
Proof.
  intros Hb. rewrite (advance_index _ _ _ _ Hb). destruct Hb as [Hp Hf Ht Hr Hh Hs].
  constructor; simpl; [done..| |by rewrite app_nil_r|by intros _ [_ [=]]%app_nil|by rewrite app_nil_r].
  change (size _) with (size b). rewrite Ht, length_app, Zplus_mod_idemp_l. f_equal. simpl. lia.
Qed.

(** The consumer moves the first item out ... *)
Lemma holds_move v items pend :
  holds b false (v :: items) pend →
  data b !! front b = Some v ∧ holds (set_data (delete (front b) (data b)) b) true (v :: items) pend.
Proof.
  intros [Hp Hf Ht Hr Hh Hs]. split.
  - specialize (Hs 0 ltac:(lia)). by rewrite Z.add_0_r, Z.mod_small in Hs.
  - constructor; simpl; [done..|]. intros k Hk. change (size _) with (size b) in Hk |- *.
    case_bool_decide as E.
    + subst. rewrite Z.add_0_r, Z.mod_small by done. by rewrite lookup_delete, decide_True.
    + rewrite lookup_delete_ne; [by rewrite Hs by done|].
      rewrite <- (Z.mod_small (front b) (size b)) at 1 by done.
      rewrite <- (Z.add_0_r (front b)) at 1. intros E'. apply E.
      by apply (slot_inj (size b) (front b) 0) in E'; [|lia..].
Qed.

(** ... and gives its slot back. *)
Lemma holds_pop v items pend :
  holds b true (v :: items) pend → holds (set_front (Z.land (front b + 1) (sizeMask b)) b) false items pend.
Proof.
  intros Hb. rewrite (advance_index _ _ _ _ Hb). destruct Hb as [Hp Hf Ht Hr Hh Hs].
  assert (∀ z, ((front b + 1) mod size b + z) mod size b = (front b + (1 + z)) mod size b)%Z as Hsh.
  { intros z. rewrite Zplus_mod_idemp_l. f_equal. lia. }
  constructor; simpl; [done|change (size _) with (size b); apply Z.mod_pos_bound; lia| | |done|].
  - change (size _) with (size b). rewrite Ht, Hsh. do 2 f_equal. simpl. lia.
  - change (size _) with (size b). simpl in Hr. lia.
  - intros k Hk. change (size _) with (size b) in Hk |- *. rewrite Hsh.
    destruct (decide (Z.of_nat (S k) < size b)%Z) as [Hlt|Hge].
    + replace (1 + Z.of_nat k)%Z with (Z.of_nat (S k)) by lia. by rewrite Hs by done.
    + replace (front b + (1 + Z.of_nat k))%Z with (front b + Z.of_nat 0 + 1 * size b)%Z by lia.
      rewrite Z.mod_add, Hs by lia. symmetry. apply lookup_ge_None_2. simpl in Hr. lia.
Qed.
End block.

(** ** The invariant *)

Section inv.
Context {T : Type}.
Implicit Types (s : Spsc T) (A B : list nat) (its : nat → list T).

Definition next_is (bs : list (Block T)) (i j : nat) : Prop :=
  ∃ b, bs !! i = Some b ∧ next b = Some j.

(** The blocks [l] point to each other in this order, the last one to [e]. *)
Fixpoint chain (bs : list (Block T)) (l : list nat) (e : nat) : Prop :=
  match l with
  | [] => True
  | i :: l => next_is bs i (default e (head l)) ∧ chain bs l e
  end.

Lemma chain_app bs l1 l2 e :
  chain bs (l1 ++ l2) e ↔ chain bs l1 (default e (head l2)) ∧ chain bs l2 e.
Proof.
  induction l1 as [|i l1 IH]; simpl; [naive_solver|]. rewrite IH.
  destruct l1; simpl; naive_solver.
Qed.

Lemma chain_impl bs bs' l e :
  (∀ i j, i ∈ l → next_is bs i j → next_is bs' i j) → chain bs l e → chain bs' l e.
Proof. induction l as [|i l IH]; simpl; [done|]. set_solver. Qed.

Lemma next_is_alter bs f i j k :
  (∀ b, next (f b) = next b) → next_is bs j k → next_is (alter f i bs) j k.
Proof.
  intros Hf (b & Hb & Hn). destruct (decide (i = j)) as [->|].
  - exists (f b). by rewrite list_lookup_alter_eq, Hb, Hf.
  - exists b. by rewrite list_lookup_alter_ne.
Qed.

(** The element written but not announced, and the slot being vacated. *)
Definition pend_of (p : ProducerPc T) (i : nat) : list T :=
  match p with
  | PTail x tb _ => if decide (i = tb) then [x] else []
  | PUseTail x tbn _ => if decide (i = tbn) then [x] else []
  | _ => []
  end.

Definition hole_of (c : ConsumerPc T) (i : nat) : bool :=
  match c with CStore fb _ _ => bool_decide (i = fb) | _ => false end.

(** What a block behind the tail holds: nothing, or the element about to be
    published. *)
Definition free_items (p : ProducerPc T) (i : nat) : list T :=
  match p with
  | PPublish x tbn => if decide (i = tbn) then [x] else []
  | _ => []
  end.

(** [A] are the blocks from the front to the tail block, [B] the others of the
    ring, [its] the items of each. *)
Record core s A B its : Prop := {
  c_nodup : NoDup (A ++ B);
  c_chain : chain (blocks (q s)) (A ++ B) (frontBlock (q s));
  c_front : ∃ A1, A = frontBlock (q s) :: A1;
  c_tail : ∃ A0, A = A0 ++ [tailBlock (q s)];
  c_blocks : ∀ i, i ∈ A ++ B → ∃ b, blocks (q s) !! i = Some b ∧
    holds b (hole_of (cp s) i) (its i) (pend_of (pp s) i);
  c_full : ∀ i, i ∈ drop 1 A → its i ≠ [];
  c_free : ∀ i, i ∈ B → its i = free_items (pp s) i;
  c_content : enqueued s = dequeued s ++ concat (its <$> A);
  c_largest : ∃ n, (1 ≤ n)%Z ∧ largestBlockSize (q s) = (2 ^ n)%Z;
}.

(** The cached index of the consumer lies between front and tail. *)
Definition localTail_ok (b : Block T) (items : list T) : Prop :=
  ∃ j, (0 ≤ j ≤ len items)%Z ∧ localTail b = ((front b + j) mod size b)%Z.

(** The one of the producer is at most as far back as the free room allows;
    [claim] is the slot it has already set its mind on. *)
Definition localFront_ok (b : Block T) (items : list T) (claim : Z) : Prop :=
  (0 ≤ localFront b < size b)%Z ∧
  ∃ j, (0 ≤ j)%Z ∧ front b = ((localFront b + j) mod size b)%Z ∧ (j + len items + claim < size b)%Z.

Definition claim_of (p : ProducerPc T) : Z :=
  match p with PWrite _ _ _ _ | PTail _ _ _ => 1 | _ => 0 end%Z.

Definition block_at s (i : nat) (P : Block T → Prop) : Prop :=
  ∃ b, blocks (q s) !! i = Some b ∧ P b.

Definition producer_ok s A B : Prop :=
  match pp s with
  | PIdle | PDone _ | PStart _ _ => True
  | PFront _ _ tb bt nbt | PWrite _ tb bt nbt =>
      tb = tailBlock (q s) ∧
      block_at s tb (λ b, bt = tail b ∧ nbt = Z.land (tail b + 1) (sizeMask b))
  | PTail _ tb nbt =>
      tb = tailBlock (q s) ∧ block_at s tb (λ b, nbt = Z.land (tail b + 1) (sizeMask b))
  | PNext _ _ tb | PAlloc _ tb => tb = tailBlock (q s)
  | PUse _ tb => tb = tailBlock (q s) ∧ B ≠ []
  | PUseWrite _ tbn nbt | PUseTail _ tbn nbt =>
      head B = Some tbn ∧ block_at s tbn (λ b, nbt = tail b ∧ localFront b = front b)
  | PLink x tb nb =>
      tb = tailBlock (q s) ∧ nb ∉ A ++ B ∧
      block_at s nb (λ b, holds b false [x] [] ∧ localFront b = front b ∧
        block_at s tb (λ bt, next b = next bt))
  | PPublish _ tbn => head B = Some tbn ∧ block_at s tbn (λ b, localFront b = front b)
  end.

Definition consumer_ok s A its : Prop :=
  match cp s with
  | CIdle => True
  | CGot v => ∃ l, dequeued s = l ++ [v]
  | CStart n => n ≤ length (enqueued s)
  | CTail n fb bf => n ≤ length (enqueued s) ∧ fb = frontBlock (q s) ∧ block_at s fb (λ b, bf = front b)
  | CTailBlock n fb => fb = frontBlock (q s) ∧ (length (dequeued s) < n → 2 ≤ length A)
  | CRecheck => 2 ≤ length A
  | CNext fb => fb = frontBlock (q s) ∧ its fb = [] ∧ 2 ≤ length A
  | CNextTail fb nb => its fb = [] ∧ ∃ A', A = fb :: nb :: A'
  | CAdvance fb nb nf =>
      its fb = [] ∧ (∃ A', A = fb :: nb :: A') ∧
      block_at s nb (λ b, nf = front b ∧ front b ≠ localTail b ∧ localTail_ok b (its nb))
  | CMove fb bf =>
      fb = frontBlock (q s) ∧ its fb ≠ [] ∧ block_at s fb (λ b, bf = front b ∧ front b ≠ localTail b)
  | CStore fb nf v =>
      fb = frontBlock (q s) ∧ (∃ rest, its fb = v :: rest) ∧
      block_at s fb (λ b, nf = Z.land (front b + 1) (sizeMask b) ∧ front b ≠ localTail b)
  | CEmpty n => n ≤ length (dequeued s)
  end.

Record inv s A B its : Prop := {
  v_core : core s A B its;
  v_localTail : block_at s (frontBlock (q s)) (λ b, localTail_ok b (its (frontBlock (q s))));
  v_localFront : block_at s (tailBlock (q s))
    (λ b, localFront_ok b (its (tailBlock (q s))) (claim_of (pp s)));
  v_producer : producer_ok s A B;
  v_consumer : consumer_ok s A its;
}.

(** *** What one side's steps leave to the other *)

Record producer_frame s s' A A' its its' : Prop := {
  pf_cp : cp s' = cp s;
  pf_front : frontBlock (q s') = frontBlock (q s);
  pf_deq : dequeued s' = dequeued s;
  pf_enq : length (enqueued s) ≤ length (enqueued s');
  pf_A : A `prefix_of` A';
  pf_grow : ∀ i, i ∈ A → its i `prefix_of` its' i;
  pf_same : ∀ i, i ∈ A → i ≠ tailBlock (q s) → its' i = its i;
  pf_blocks : ∀ i b, blocks (q s) !! i = Some b → block_at s' i (λ b',
    front b' = front b ∧ localTail b' = localTail b ∧ sizeMask b' = sizeMask b);
}.

Record consumer_frame s s' A B A' B' its its' : Prop := {
  cf_pp : pp s' = pp s;
  cf_tail : tailBlock (q s') = tailBlock (q s);
  cf_B : B `prefix_of` B';
  cf_ring : A' ++ B' ≡ₚ A ++ B;
  cf_blocks : ∀ i b, blocks (q s) !! i = Some b → block_at s' i (λ b',
    tail b' = tail b ∧ localFront b' = localFront b ∧ next b' = next b ∧ sizeMask b' = sizeMask b ∧
    (i ∈ B → front b' = front b) ∧ (i ∉ A ++ B → b' = b) ∧
    (i = tailBlock (q s) →
       (front b' = front b ∧ its' i = its i) ∨
       (front b' = ((front b + 1) mod size b)%Z ∧ (len (its' i) + 1 = len (its i))%Z)));
}.

Lemma front_not_tail s A B its :
  core s A B its → 2 ≤ length A → frontBlock (q s) ≠ tailBlock (q s).
Proof.
  intros Hc Hl E. destruct (c_front _ _ _ _ Hc) as [A1 EA], (c_tail _ _ _ _ Hc) as [A0 EA'].
  pose proof (c_nodup _ _ _ _ Hc) as [Hn _]%list.NoDup_app.
  destruct A0 as [|a A0]; [rewrite EA' in Hl; simpl in Hl; lia|]. rewrite EA' in EA. injection EA as -> EA.
  rewrite EA', E in Hn. simpl in Hn. apply list.NoDup_cons in Hn as [Hn _]. set_solver.
Qed.

Lemma front_in s A B its : core s A B its → frontBlock (q s) ∈ A.
Proof. intros Hc. destruct (c_front _ _ _ _ Hc) as [A1 ->]. set_solver. Qed.
Lemma tail_in s A B its : core s A B its → tailBlock (q s) ∈ A.
Proof. intros Hc. destruct (c_tail _ _ _ _ Hc) as [A1 ->]. set_solver. Qed.

Lemma localTail_ok_frame b b' items items' :
  front b' = front b → localTail b' = localTail b → sizeMask b' = sizeMask b →
  items `prefix_of` items' → localTail_ok b items → localTail_ok b' items'.
Proof.
  intros E1 E2 E3 Hp%prefix_length (j & ? & Hj). exists j. unfold size in *. rewrite E1, E2, E3.
  split; [lia|done].
Qed.

Lemma consumer_rely s s' A B A' its its' :
  core s A B its → producer_frame s s' A A' its its' →
  block_at s (frontBlock (q s)) (λ b, localTail_ok b (its (frontBlock (q s)))) →
  consumer_ok s A its →
  block_at s' (frontBlock (q s')) (λ b, localTail_ok b (its' (frontBlock (q s')))) ∧
  consumer_ok s' A' its'.
Proof.
  intros Hc [Ecp Ef Ed Hen HA Hgrow Hsame Hbl] (b & Hb & Hlt) Hok.
  pose proof (front_in _ _ _ _ Hc) as Hin. pose proof (prefix_length _ _ HA) as Hlen.
  pose proof (front_not_tail _ _ _ _ Hc) as Hne.
  assert (∀ fb nb A1, A = fb :: nb :: A1 → its fb = [] → its' fb = [] ∧ ∃ A2, A' = fb :: nb :: A2) as Hadv.
  { intros fb nb A1 EA E. split; [|destruct HA as [A2 ->]; exists (A1 ++ A2); by subst].
    rewrite Hsame; [done|set_solver|]. destruct (c_front _ _ _ _ Hc) as [A3 EA3].
    rewrite EA in EA3, Hne. simplify_eq. apply Hne. simpl. lia. }
  split.
  - rewrite Ef. destruct (Hbl _ _ Hb) as (b' & Hb' & E1 & E2 & E3). exists b'. split; [done|].
    by eapply localTail_ok_frame; [done..|apply Hgrow|].
  - unfold consumer_ok in *. rewrite Ecp. destruct (cp s); try done; rewrite ?Ef, ?Ed; try done.
    + lia.
    + destruct Hok as (? & -> & b1 & Hb1 & ->). split_and!; [lia|done|].
      destruct (Hbl _ _ Hb1) as (b' & Hb' & E1 & _). by exists b'.
    + destruct Hok as [? Hok]. split; [done|]. intros. specialize (Hok ltac:(done)). lia.
    + lia.
    + destruct Hok as (-> & E & ?). split_and!; [done| |lia]. rewrite Hsame; [done..|]. by apply Hne.
    + destruct Hok as (E & A1 & EA). by eapply Hadv.
    + destruct Hok as (E & (A1 & EA) & b1 & Hb1 & -> & Hn & Hj). destruct (Hadv _ _ _ EA E) as [? ?].
      split_and!; [done..|]. destruct (Hbl _ _ Hb1) as (b' & Hb' & E1 & E2 & E3). exists b'.
      split_and!; [done|done|congruence|]. eapply localTail_ok_frame; [done..| |done]. apply Hgrow. set_solver.
    + destruct Hok as (-> & E & b1 & Hb1 & -> & Hn). split_and!; [done| |].
      * intros E'. apply E. specialize (Hgrow _ Hin). rewrite E' in Hgrow. by apply prefix_nil_inv in Hgrow.
      * destruct (Hbl _ _ Hb1) as (b' & Hb' & E1 & E2 & _). exists b'. split_and!; [done|done|congruence].
    + destruct Hok as (-> & (rest & E) & b1 & Hb1 & -> & Hn). split_and!; [done| |].
      * specialize (Hgrow _ Hin) as [l El]. rewrite E in El. by exists (rest ++ l).
      * destruct (Hbl _ _ Hb1) as (b' & Hb' & E1 & E2 & E3). exists b'. by rewrite E1, E2, E3.
Qed.

Lemma producer_rely s s' A B A' B' its its' :
  core s A B its → consumer_frame s s' A B A' B' its its' →
  block_at s (tailBlock (q s)) (λ b, localFront_ok b (its (tailBlock (q s))) (claim_of (pp s))) →
  producer_ok s A B →
  block_at s' (tailBlock (q s')) (λ b, localFront_ok b (its' (tailBlock (q s'))) (claim_of (pp s'))) ∧
  producer_ok s' A' B'.
Proof.
  intros Hc [Epp Et HB Hring Hbl] (b & Hb & Hr & j & Hj & Ej & Hlt) Hok.
  assert (∀ i, head B = Some i → head B' = Some i ∧ i ∈ B) as Hhead.
  { intros i Hi. destruct B; [done|]. destruct HB as [l ->]. simplify_eq/=. set_solver. }
  split.
  - rewrite Et, Epp. destruct (Hbl _ _ Hb) as (b' & Hb' & E1 & E2 & _ & E4 & _ & _ & Hd).
    exists b'. split; [done|]. unfold localFront_ok, size in *.
    rewrite E2, E4. split; [done|]. destruct (Hd eq_refl) as [[-> ->]|[Ed El]]; [by exists j|].
    exists (j + 1)%Z. split_and!; [lia| |lia].
    by rewrite Ed, Ej, Zplus_mod_idemp_l, Z.add_assoc.
  - unfold producer_ok in *. rewrite Epp. destruct (pp s); try done; rewrite ?Et; try done.
    + destruct Hok as (-> & b1 & Hb1 & -> & ->). split; [done|].
      destruct (Hbl _ _ Hb1) as (b' & Hb' & E1 & _ & _ & E4 & _). exists b'. by rewrite E1, E4.
    + destruct Hok as (-> & b1 & Hb1 & -> & ->). split; [done|].
      destruct (Hbl _ _ Hb1) as (b' & Hb' & E1 & _ & _ & E4 & _). exists b'. by rewrite E1, E4.
    + destruct Hok as (-> & b1 & Hb1 & ->). split; [done|].
      destruct (Hbl _ _ Hb1) as (b' & Hb' & E1 & _ & _ & E4 & _). exists b'. by rewrite E1, E4.
    + destruct Hok as (-> & HBn). split; [done|]. destruct HB as [l ->]. by destruct B.
    + destruct Hok as ([Hh Hin]%Hhead & b1 & Hb1 & -> & Ef). split; [done|].
      destruct (Hbl _ _ Hb1) as (b' & Hb' & E1 & E2 & _ & _ & E5 & _). exists b'.
      by rewrite E1, E2, (E5 Hin), Ef.
    + destruct Hok as ([Hh Hin]%Hhead & b1 & Hb1 & -> & Ef). split; [done|].
      destruct (Hbl _ _ Hb1) as (b' & Hb' & E1 & E2 & _ & _ & E5 & _). exists b'.
      by rewrite E1, E2, (E5 Hin), Ef.
    + destruct Hok as (-> & Hnb & b1 & Hb1 & Hh & Ef & b2 & Hb2 & En). split; [done|].
      split; [by rewrite Hring|]. destruct (Hbl _ _ Hb1) as (b' & Hb' & _ & _ & _ & _ & _ & E6 & _).
      rewrite (E6 Hnb) in Hb'. exists b1. split_and!; [done..|].
      destruct (Hbl _ _ Hb2) as (b2' & Hb2' & _ & _ & E3 & _). exists b2'. by rewrite E3.
    + destruct Hok as ([Hh Hin]%Hhead & b1 & Hb1 & Ef). split; [done|].
      destruct (Hbl _ _ Hb1) as (b' & Hb' & _ & E2 & _ & _ & E5 & _). exists b'.
      by rewrite E2, (E5 Hin), Ef.
Qed.

(** *** Steps that change one block, or no block at all *)

Lemma concat_insert its i l A :
  i ∉ A → concat (<[i := l]> its <$> A) = concat (its <$> A).
Proof.
  intros Hi. f_equal. apply list_fmap_ext. intros k j Hj. rewrite fn_lookup_insert_ne; [done|].
  intros ->. by apply Hi, list_elem_of_lookup_2 with k.
Qed.

Lemma core_pc s s' A B its :
  core s A B its → q s' = q s →
  (∀ i, hole_of (cp s') i = hole_of (cp s) i) → (∀ i, pend_of (pp s') i = pend_of (pp s) i) →
  (∀ i, free_items (pp s') i = free_items (pp s) i) →
  enqueued s' = enqueued s → dequeued s' = dequeued s → core s' A B its.
Proof.
  intros [] Eq Eh Ep Ef En Ed.
  constructor; rewrite ?Eq, ?En, ?Ed; try done.
  - intros i Hi. rewrite Eh, Ep. auto.
  - intros i Hi. rewrite Ef. auto.
Qed.

Lemma core_alter s s' A B its i f b l :
  core s A B its → i ∈ A ++ B → blocks (q s) !! i = Some b → q s' = with_block i f (q s) →
  (∀ b, next (f b) = next b) →
  holds (f b) (hole_of (cp s') i) l (pend_of (pp s') i) →
  (∀ j, j ≠ i → hole_of (cp s') j = hole_of (cp s) j ∧ pend_of (pp s') j = pend_of (pp s) j ∧
                free_items (pp s') j = free_items (pp s) j) →
  (i ∈ drop 1 A → l ≠ []) → (i ∈ B → l = free_items (pp s') i) →
  enqueued s' = dequeued s' ++ concat (<[i := l]> its <$> A) →
  core s' A B (<[i := l]> its).
Proof.
  intros [] Hi Hb Eq Hf Hh Hoth HA HB Hcon. constructor; rewrite ?Eq; simpl; try done.
  - eapply chain_impl; [|done]. intros j k _ Hn. by apply next_is_alter.
  - intros j Hj. destruct (decide (j = i)) as [->|Hne].
    + exists (f b). by rewrite list_lookup_alter_eq, Hb, fn_lookup_insert.
    + destruct (c_blocks0 j Hj) as (bj & Hbj & Hhj). exists bj.
      rewrite list_lookup_alter_ne, fn_lookup_insert_ne by done.
      destruct (Hoth j Hne) as (-> & -> & _). done.
  - intros j Hj. destruct (decide (j = i)) as [->|Hne]; [by rewrite fn_lookup_insert; auto|].
    rewrite fn_lookup_insert_ne by done. auto.
  - intros j Hj. destruct (decide (j = i)) as [->|Hne]; [by rewrite fn_lookup_insert; auto|].
    rewrite fn_lookup_insert_ne by done. destruct (Hoth j Hne) as (_ & _ & ->). auto.
Qed.

Lemma insert_id_its its (i : nat) (A : list nat) : (<[i := its i]> its <$> A) = (its <$> A).
Proof.
  apply list_fmap_ext. intros k j _. destruct (decide (j = i)) as [->|]; [by rewrite fn_lookup_insert|].
  by rewrite fn_lookup_insert_ne.
Qed.

Lemma block_alter s s' i f b (P : Block T → Prop) :
  blocks (q s) !! i = Some b → q s' = with_block i f (q s) → P (f b) → block_at s' i P.
Proof. intros Hb Eq HP. exists (f b). rewrite Eq. simpl. by rewrite list_lookup_alter_eq, Hb. Qed.

Lemma block_alter_ne s s' i j f (P : Block T → Prop) :
  i ≠ j → q s' = with_block i f (q s) → block_at s j P → block_at s' j P.
Proof. intros Hne Eq (b & Hb & HP). exists b. rewrite Eq. simpl. by rewrite list_lookup_alter_ne. Qed.

(** A step of the producer that changes fields of its own in one block. *)
Lemma producer_frame_alter s s' A its i f l :
  cp s' = cp s → q s' = with_block i f (q s) → dequeued s' = dequeued s →
  length (enqueued s) ≤ length (enqueued s') →
  (∀ b, front (f b) = front b ∧ localTail (f b) = localTail b ∧ sizeMask (f b) = sizeMask b) →
  (i ∈ A → its i `prefix_of` l ∧ (i ≠ tailBlock (q s) → l = its i)) →
  producer_frame s s' A A its (<[i := l]> its).
Proof.
  intros Ecp Eq Ed En Hf Hl. constructor; rewrite ?Eq; try done.
  - intros j Hj. destruct (decide (j = i)) as [->|]; [by rewrite fn_lookup_insert; apply Hl|].
    by rewrite fn_lookup_insert_ne.
  - intros j Hj Hne. destruct (decide (j = i)) as [->|]; [by rewrite fn_lookup_insert; apply Hl|].
    by rewrite fn_lookup_insert_ne.
  - intros j b Hb. destruct (decide (i = j)) as [->|Hne].
    + eapply block_alter; [done..|]. apply Hf.
    + eapply block_alter_ne; [done..|]. by exists b.
Qed.

Lemma producer_frame_pc s s' A its :
  cp s' = cp s → q s' = q s → dequeued s' = dequeued s → enqueued s' = enqueued s →
  producer_frame s s' A A its its.
Proof.
  intros Ecp Eq Ed En. constructor; rewrite ?Eq, ?En; try done.
  intros i b Hb. exists b. by rewrite Eq.
Qed.

Lemma consumer_frame_pc s s' A B its :
  pp s' = pp s → q s' = q s → consumer_frame s s' A B A B its its.
Proof.
  intros Epp Eq. constructor; rewrite ?Eq; try done. intros i b Hb. exists b. rewrite Eq.
  split_and!; try done. by left.
Qed.

(** A step of the consumer that changes fields of its own in one block, other
    than [front]. *)
Lemma consumer_frame_alter s s' A B its i f :
  pp s' = pp s → q s' = with_block i f (q s) → i ∈ A ++ B →
  (∀ b, tail (f b) = tail b ∧ localFront (f b) = localFront b ∧ next (f b) = next b ∧
        sizeMask (f b) = sizeMask b ∧ front (f b) = front b) →
  consumer_frame s s' A B A B its (<[i := its i]> its).
Proof.
  intros Epp Eq Hi Hf. constructor; rewrite ?Eq; try done. intros j b Hb.
  assert ((<[i := its i]> its) j = its j) as ->.
  { destruct (decide (j = i)) as [->|]; [by rewrite fn_lookup_insert|by rewrite fn_lookup_insert_ne]. }
  destruct (decide (i = j)) as [->|Hne].
  - eapply block_alter; [done..|]. destruct (Hf b) as (?&?&?&?&?). split_and!; try done. by left.
  - eapply block_alter_ne; [done..|]. exists b. split_and!; try done. by left.
Qed.

Lemma inv_by_producer s s' A B its A' B' its' :
  inv s A B its → core s' A' B' its' → producer_frame s s' A A' its its' →
  block_at s' (tailBlock (q s')) (λ b, localFront_ok b (its' (tailBlock (q s'))) (claim_of (pp s'))) →
  producer_ok s' A' B' → inv s' A' B' its'.
Proof.
  intros [Hc Hlt Hlf Hp Hk] Hc' Hf Hlf' Hp'.
  by destruct (consumer_rely _ _ _ _ _ _ _ Hc Hf Hlt Hk).
Qed.

Lemma inv_by_consumer s s' A B its A' B' its' :
  inv s A B its → core s' A' B' its' → consumer_frame s s' A B A' B' its its' →
  block_at s' (frontBlock (q s')) (λ b, localTail_ok b (its' (frontBlock (q s')))) →
  consumer_ok s' A' its' → inv s' A' B' its'.
Proof.
  intros [Hc Hlt Hlf Hp Hk] Hc' Hf Hlt' Hk'.
  by destruct (producer_rely _ _ _ _ _ _ _ _ Hc Hf Hlf Hp).
Qed.

(** A next index that has not caught up with the cached front means room. *)
Lemma claim_room b hole items :
  holds b hole items [] → localFront_ok b items 0 →
  Z.land (tail b + 1) (sizeMask b) ≠ localFront b → localFront_ok b items 1.
Proof.
  intros Hh (Hr & j & Hj & Ej & Hlt) Hne. split; [done|]. exists j. split_and!; [done..|].
  destruct (decide (j + len items + 1 = size b)%Z) as [E|]; [|lia]. destruct Hne.
  rewrite (advance_index _ _ _ _ _ Hh), (h_tail _ _ _ _ Hh), Zplus_mod_idemp_l, Ej.
  rewrite <- Z.add_assoc, Zplus_mod_idemp_l.
  replace (localFront b + j + (len items + 1))%Z with (localFront b + 1 * size b)%Z by lia.
  rewrite Z.mod_add by lia. by apply Z.mod_small.
Qed.

Lemma localFront_fresh b hole items :
  holds b hole items [] → localFront_ok (set_localFront (front b) b) items 0.
Proof.
  intros [_ Hf _ Hr _ _]. rewrite app_nil_r in Hr. split; [done|]. exists 0%Z. simpl.
  change (size _) with (size b). split_and!; [done|by rewrite Z.add_0_r, Z.mod_small|lia].
Qed.

(** The tail block of a queue that is not about to publish. *)
Lemma tail_block s A B its :
  core s A B its → ∃ b, blocks (q s) !! tailBlock (q s) = Some b ∧
    holds b (hole_of (cp s) (tailBlock (q s))) (its (tailBlock (q s))) (pend_of (pp s) (tailBlock (q s))).
Proof. intros Hc. apply (c_blocks _ _ _ _ Hc). apply elem_of_app. left. by eapply tail_in. Qed.

Lemma front_block s A B its :
  core s A B its → ∃ b, blocks (q s) !! frontBlock (q s) = Some b ∧
    holds b (hole_of (cp s) (frontBlock (q s))) (its (frontBlock (q s))) (pend_of (pp s) (frontBlock (q s))).
Proof. intros Hc. apply (c_blocks _ _ _ _ Hc). apply elem_of_app. left. by eapply front_in. Qed.

(** After a step the invariant holds again; it never faults. *)
Definition safe (r : step_result (Spsc T)) : Prop :=
  match r with
  | Next s => ∃ A B its, inv s A B its
  | Disabled => True
  | Fault _ => False
  end.

(** A step of the producer that only moves its program counter. *)
Lemma producer_pc s A B its pc :
  inv s A B its →
  (∀ i, pend_of pc i = pend_of (pp s) i) → (∀ i, free_items pc i = free_items (pp s) i) →
  block_at s (tailBlock (q s)) (λ b, localFront_ok b (its (tailBlock (q s))) (claim_of pc)) →
  (∀ s', q s' = q s → pp s' = pc → producer_ok s' A B) →
  safe (producer_to pc (q s) s).
Proof.
  intros Hi Hp Hf Hl Hok. exists A, B, its. eapply inv_by_producer; [done|..].
  - by eapply core_pc; [apply (v_core _ _ _ _ Hi)|..].
  - by apply producer_frame_pc.
  - done.
  - by apply Hok.
Qed.

(** One that changes the tail block, which keeps its items. *)
Lemma producer_tail_block s A B its pc f b :
  inv s A B its → blocks (q s) !! tailBlock (q s) = Some b →
  (∀ b, next (f b) = next b ∧ front (f b) = front b ∧ localTail (f b) = localTail b ∧
        sizeMask (f b) = sizeMask b) →
  holds (f b) (hole_of (cp s) (tailBlock (q s))) (its (tailBlock (q s))) (pend_of pc (tailBlock (q s))) →
  (∀ j, j ≠ tailBlock (q s) → pend_of pc j = pend_of (pp s) j ∧ free_items pc j = free_items (pp s) j) →
  localFront_ok (f b) (its (tailBlock (q s))) (claim_of pc) →
  (∀ s', q s' = with_block (tailBlock (q s)) f (q s) → pp s' = pc → producer_ok s' A B) →
  safe (producer_to pc (with_block (tailBlock (q s)) f (q s)) s).
Proof.
  intros Hi Hb Hf Hh Hoth Hl Hok. pose proof (v_core _ _ _ _ Hi) as Hc. pose proof (tail_in _ _ _ _ Hc) as Hin.
  assert (tailBlock (q s) ∉ B) as HB.
  { pose proof (c_nodup _ _ _ _ Hc) as (_ & Hd & _)%list.NoDup_app. by apply Hd. }
  exists A, B, (<[tailBlock (q s) := its (tailBlock (q s))]> its). eapply inv_by_producer; [done|..].
  - eapply core_alter; [done|by apply elem_of_app; left|done|done|apply Hf|done| | | |].
    + intros j Hj. destruct (Hoth j Hj). done.
    + by apply (c_full _ _ _ _ Hc).
    + done.
    + simpl. rewrite insert_id_its. apply (c_content _ _ _ _ Hc).
  - apply (producer_frame_alter _ _ _ _ _ f); try done. intros b'. by destruct (Hf b') as (_ & ? & ? & ?).
  - eapply block_alter; [done|done|]. simpl. by rewrite fn_lookup_insert.
  - by apply Hok.
Qed.

(** One that changes the free block after the tail block. *)
Lemma producer_free_block s A B its pc f b tbn l :
  inv s A B its → head B = Some tbn → blocks (q s) !! tbn = Some b →
  (∀ b, next (f b) = next b ∧ front (f b) = front b ∧ localTail (f b) = localTail b ∧
        sizeMask (f b) = sizeMask b) →
  holds (f b) false l (pend_of pc tbn) → l = free_items pc tbn →
  (∀ j, j ≠ tbn → pend_of pc j = pend_of (pp s) j ∧ free_items pc j = free_items (pp s) j) →
  claim_of pc = claim_of (pp s) →
  (∀ s', q s' = with_block tbn f (q s) → pp s' = pc → producer_ok s' A B) →
  safe (producer_to pc (with_block tbn f (q s)) s).
Proof.
  intros Hi HB Hb Hf Hh Hl Hoth Hcl Hok. pose proof (v_core _ _ _ _ Hi) as Hc.
  assert (tbn ∈ B) as HinB by (destruct B; simplify_eq/=; set_solver).
  assert (tbn ∉ A) as HninA.
  { pose proof (c_nodup _ _ _ _ Hc) as (_ & Hd & _)%list.NoDup_app. intros ?. by apply (Hd tbn). }
  assert (tbn ≠ tailBlock (q s)) as Hnt by (intros ->; by apply HninA; eapply tail_in).
  assert (hole_of (cp s) tbn = false) as Hhole.
  { pose proof (v_consumer _ _ _ _ Hi) as Hk. unfold consumer_ok, hole_of in *. destruct (cp s); try done.
    apply bool_decide_eq_false. intros ->. destruct Hk as (-> & _). by apply HninA; eapply front_in. }
  exists A, B, (<[tbn := l]> its). eapply inv_by_producer; [done|..].
  - eapply core_alter; [done|by apply elem_of_app; right|done|done|apply Hf| | | | |].
    + simpl. by rewrite Hhole.
    + intros j Hj. destruct (Hoth j Hj). done.
    + intros Hd. destruct HninA. destruct A; [done|]. set_solver.
    + done.
    + simpl. rewrite concat_insert by done. apply (c_content _ _ _ _ Hc).
  - apply (producer_frame_alter _ _ _ _ _ f); try done. intros b'. by destruct (Hf b') as (_ & ? & ? & ?).
  - simpl. rewrite fn_lookup_insert_ne by done. eapply block_alter_ne; [done|done|].
    rewrite Hcl. apply (v_localFront _ _ _ _ Hi).
  - by apply Hok.
Qed.

(** The block after the tail block: the first free one, or the front block. *)
Lemma next_of_tail s A B its b :
  core s A B its → blocks (q s) !! tailBlock (q s) = Some b →
  next b = Some (default (frontBlock (q s)) (head B)).
Proof.
  intros Hc Hb. destruct (c_tail _ _ _ _ Hc) as [A0 EA]. pose proof (c_chain _ _ _ _ Hc) as Hch.
  rewrite EA, <- app_assoc in Hch. apply chain_app in Hch as [_ [(b' & Hb' & Hn) _]]. simplify_eq/=. done.
Qed.

Lemma free_block s A B its tbn :
  core s A B its → head B = Some tbn → free_items (pp s) tbn = [] →
  consumer_ok s A its →
  ∃ b, blocks (q s) !! tbn = Some b ∧ holds b false [] (pend_of (pp s) tbn).
Proof.
  intros Hc HB Hfree Hk. assert (tbn ∈ B) as HinB by (destruct B; simplify_eq/=; set_solver).
  assert (tbn ∉ A) as HninA.
  { pose proof (c_nodup _ _ _ _ Hc) as (_ & Hd & _)%list.NoDup_app. intros ?. by apply (Hd tbn). }
  destruct (c_blocks _ _ _ _ Hc tbn) as (b & Hb & Hh); [set_solver|].
  rewrite (c_free _ _ _ _ Hc), Hfree in Hh by done. exists b. split; [done|].
  replace false with (hole_of (cp s) tbn); [done|].
  unfold consumer_ok, hole_of in *. destruct (cp s); try done.
  apply bool_decide_eq_false. intros ->. destruct Hk as (-> & _). by apply HninA; eapply front_in.
Qed.

(** *** The steps of [inner_enqueue] *)

Lemma producer_fill s A B its m x :
  inv s A B its →
  (∃ mode, pp s = PStart x mode) ∨ (∃ mode tb bt nbt, pp s = PFront x mode tb bt nbt) ∨
  (∃ tb bt nbt, pp s = PWrite x tb bt nbt) ∨ (∃ tb nbt, pp s = PTail x tb nbt) →
  safe (producer_step m s).
Proof.
  intros Hi Hpc. pose proof (v_core _ _ _ _ Hi) as Hc. pose proof (v_producer _ _ _ _ Hi) as Hp.
  destruct (tail_block _ _ _ _ Hc) as (b & Hb & Hh). destruct (v_localFront _ _ _ _ Hi) as (b' & Hb' & Hl).
  rewrite Hb in Hb'. injection Hb' as <-. unfold producer_ok in Hp.
  destruct Hpc as [(mode & E)|[(mode & tb & bt & nbt & E)|[(tb & bt & nbt & E)|(tb & nbt & E)]]];
    unfold producer_step; rewrite E in *; simpl in Hh, Hl.
  - unfold deref. rewrite Hb. destruct (_ =? _)%Z eqn:En; simpl.
    + apply (producer_pc _ A B its); rewrite ?E; try done; [by exists b|].
      intros s' Eq Ep. unfold producer_ok. rewrite Ep, Eq. split; [done|]. exists b. by rewrite Eq.
    + apply Z.eqb_neq in En. apply (producer_pc _ A B its); rewrite ?E; try done.
      * exists b. split; [done|]. by eapply claim_room.
      * intros s' Eq Ep. unfold producer_ok. rewrite Ep, Eq. split; [done|]. exists b. by rewrite Eq.
  - destruct Hp as (-> & b' & Hb' & -> & ->). rewrite Hb in Hb'. injection Hb' as <-. unfold deref. rewrite Hb.
    pose proof (localFront_fresh _ _ _ Hh) as Hfr. destruct (_ =? _)%Z eqn:En; simpl.
    + apply (producer_tail_block _ A B its _ _ b); rewrite ?E; try done.
      * by apply holds_localFront.
      * intros s' Eq Ep. unfold producer_ok. by rewrite Ep, Eq.
    + apply Z.eqb_neq in En. apply (producer_tail_block _ A B its _ _ b); rewrite ?E; try done.
      * by apply holds_localFront.
      * eapply claim_room; [by apply holds_localFront|done|done].
      * intros s' Eq Ep. unfold producer_ok. rewrite Ep, Eq. split; [done|].
        by eapply block_alter.
  - destruct Hp as (-> & b' & Hb' & -> & ->). rewrite Hb in Hb'. injection Hb' as <-. unfold construct, deref. rewrite Hb.
    pose proof Hl as (Hr & j & Hj & Ej & Hlt).
    destruct (holds_write _ _ _ x Hh) as (Hrange & Hnone & Hw); [lia|].
    rewrite (proj2 (Z.leb_le _ _)), (proj2 (Z.leb_le _ _)), bool_decide_true by (done || lia). simpl.
    apply (producer_tail_block _ A B its _ _ b); rewrite ?E; try done.
    + simpl. by rewrite decide_True.
    + intros j' Hj'. simpl. by rewrite decide_False.
    + intros s' Eq Ep. unfold producer_ok. rewrite Ep, Eq. split; [done|]. by eapply block_alter.
  - destruct Hp as (-> & b' & Hb' & ->). rewrite Hb in Hb'. injection Hb' as <-. rewrite decide_True in Hh by done.
    set (tb := tailBlock (q s)) in *. pose proof (tail_in _ _ _ _ Hc) as Hin.
    assert (tb ∉ B) as HB.
    { pose proof (c_nodup _ _ _ _ Hc) as (_ & Hd & _)%list.NoDup_app. by apply Hd. }
    exists A, B, (<[tb := its tb ++ [x]]> its). eapply inv_by_producer; [done|..].
    + eapply core_alter; [done|by apply elem_of_app; left|done|done|done| | | | |].
      * by apply holds_push.
      * intros j Hj. simpl. rewrite E. simpl. by rewrite decide_False.
      * by intros _ [_ [=]]%app_nil.
      * done.
      * simpl. destruct (c_tail _ _ _ _ Hc) as [A0 EA]. rewrite (c_content _ _ _ _ Hc), EA.
        pose proof (c_nodup _ _ _ _ Hc) as (Hd & _)%list.NoDup_app. rewrite EA in Hd.
        apply list.NoDup_app in Hd as (_ & Hd & _).
        rewrite !fmap_app, !concat_app, concat_insert by (intros ?%Hd; set_solver). simpl.
        fold tb. by rewrite fn_lookup_insert, !app_nil_r, !app_assoc.
    + apply (producer_frame_alter _ _ _ _ _ (set_tail (Z.land (tail b + 1) (sizeMask b)))); try done.
      * simpl. rewrite length_app. lia.
      * intros _. split; [by apply prefix_app_r|]. done.
    + eapply block_alter; [done|done|]. simpl. rewrite fn_lookup_insert.
      destruct Hl as (Hr & j & Hj & Ej & Hlt). split; [done|]. exists j. simpl.
      change (size _) with (size b). rewrite length_app. simpl. split_and!; [done..|lia].
    + done.
Qed.

Lemma producer_next s A B its m x mode tb :
  inv s A B its → pp s = PNext x mode tb → safe (producer_step m s).
Proof.
  intros Hi E. pose proof (v_core _ _ _ _ Hi) as Hc. pose proof (v_producer _ _ _ _ Hi) as Hp.
  pose proof (v_localFront _ _ _ _ Hi) as Hl. unfold producer_ok in Hp.
  destruct (tail_block _ _ _ _ Hc) as (b & Hb & Hh).
  unfold producer_step. rewrite E in *. subst tb. unfold deref. rewrite Hb.
  rewrite (next_of_tail _ _ _ _ _ Hc Hb). case_bool_decide as En; simpl.
  - destruct mode; apply (producer_pc _ A B its); rewrite ?E; try done;
      intros s' Eq Ep; unfold producer_ok; by rewrite Ep, ?Eq.
  - apply (producer_pc _ A B its); rewrite ?E; try done. intros s' Eq Ep. unfold producer_ok.
    rewrite Ep, Eq. split; [done|]. by intros ->.
Qed.

Lemma producer_use s A B its m x :
  inv s A B its →
  (∃ tb, pp s = PUse x tb) ∨ (∃ tbn nbt, pp s = PUseWrite x tbn nbt) ∨
  (∃ tbn nbt, pp s = PUseTail x tbn nbt) →
  safe (producer_step m s).
Proof.
  intros Hi Hpc. pose proof (v_core _ _ _ _ Hi) as Hc. pose proof (v_producer _ _ _ _ Hi) as Hp.
  pose proof (v_consumer _ _ _ _ Hi) as Hk. unfold producer_ok in Hp.
  destruct Hpc as [(tb & E)|[(tbn & nbt & E)|(tbn & nbt & E)]]; unfold producer_step; rewrite E in Hp |- *.
  - destruct Hp as [-> HB]. destruct (tail_block _ _ _ _ Hc) as (b & Hb & _).
    unfold deref at 1. rewrite Hb, (next_of_tail _ _ _ _ _ Hc Hb).
    destruct B as [|tbn B]; [done|]. simpl.
    destruct (free_block _ _ _ _ tbn Hc) as (bn & Hbn & Hhn); rewrite ?E; [done..|]. rewrite E in Hhn.
    unfold deref. rewrite Hbn. rewrite bool_decide_true by by eapply holds_empty.
    apply (producer_free_block _ A (tbn :: B) its _ _ bn _ []); rewrite ?E; try done.
    + by apply holds_localFront.
    + intros s' Eq Ep. unfold producer_ok. rewrite Ep. split; [done|]. by eapply block_alter.
  - destruct Hp as (HB & bn' & Hbn' & -> & Ef).
    destruct (free_block _ _ _ _ tbn Hc) as (bn & Hbn & Hhn); rewrite ?E; [done..|]. rewrite E in Hhn.
    rewrite Hbn in Hbn'. injection Hbn' as <-. unfold construct, deref. rewrite Hbn.
    destruct (holds_write _ _ _ x Hhn) as (Hrange & Hnone & Hw).
    { destruct (h_pow _ _ _ _ Hhn) as (n & Hn & ->). pose proof (Z.pow_le_mono_r 2 1 n). simpl. lia. }
    rewrite (proj2 (Z.leb_le _ _)), (proj2 (Z.leb_le _ _)), bool_decide_true by (done || lia). simpl.
    apply (producer_free_block _ A B its _ _ bn _ []); rewrite ?E; try done.
    + simpl. by rewrite decide_True.
    + intros j Hj. simpl. by rewrite decide_False.
    + intros s' Eq Ep. unfold producer_ok. rewrite Ep. split; [done|]. by eapply block_alter.
  - destruct Hp as (HB & bn' & Hbn' & -> & Ef).
    destruct (free_block _ _ _ _ tbn Hc) as (bn & Hbn & Hhn); rewrite ?E; [done..|]. rewrite E in Hhn.
    simpl in Hhn. rewrite decide_True in Hhn by done.
    rewrite Hbn in Hbn'. injection Hbn' as <-. unfold deref. rewrite Hbn.
    apply (producer_free_block _ A B its _ _ bn _ [x]); rewrite ?E; try done.
    + by apply (holds_push _ _ []).
    + simpl. by rewrite decide_True.
    + intros j Hj. simpl. by rewrite !decide_False.
    + intros s' Eq Ep. unfold producer_ok. rewrite Ep. split; [done|]. by eapply block_alter.
Qed.

(** A block of its own for the element: not in the ring yet. *)
Lemma producer_alloc s A B its m x tb :
  inv s A B its → pp s = PAlloc x tb → safe (producer_step m s).
Proof.
  intros Hi E. pose proof (v_core _ _ _ _ Hi) as Hc. pose proof (v_producer _ _ _ _ Hi) as Hp.
  pose proof (v_localFront _ _ _ _ Hi) as Hl. unfold producer_ok in Hp.
  destruct (tail_block _ _ _ _ Hc) as (b & Hb & Hh).
  unfold producer_step. rewrite E in Hp, Hl |- *. subst tb. destruct m; simpl; last first.
  { apply (producer_pc _ A B its); rewrite ?E; try done. intros s' Eq Ep. unfold producer_ok. by rewrite Ep. }
  unfold deref. rewrite Hb. set (sz := if (_ <=? _)%Z then _ else _).
  assert (∃ n, (1 ≤ n)%Z ∧ sz = (2 ^ n)%Z) as Hsz.
  { destruct (c_largest _ _ _ _ Hc) as (n & Hn & En). subst sz. rewrite En. destruct (_ <=? _)%Z; [by exists n|].
    exists (n + 1)%Z. split; [lia|]. rewrite Z.pow_add_r by lia. lia. }
  set (nb := set_next _ _).
  assert (holds nb false [x] []) as Hnb.
  { destruct Hsz as (n & Hn & En). pose proof (Z.pow_le_mono_r 2 1 n).
    assert (size nb = sz) as Es by (unfold size; simpl; lia). constructor; rewrite ?Es; try done.
    - by exists n.
    - simpl. lia.
    - simpl. rewrite Z.mod_small by lia. lia.
    - simpl. lia.
    - intros k Hk. simpl. rewrite Z.mod_small by lia. destruct k as [|k].
      + by rewrite lookup_singleton, decide_True.
      + by rewrite lookup_singleton_ne by lia. }
  assert (∀ i bi, blocks (q s) !! i = Some bi → (blocks (q s) ++ [nb]) !! i = Some bi) as Hold
    by (intros; by apply lookup_app_l_Some).
  destruct Hl as (b' & Hb' & Hl). exists A, B, its. eapply inv_by_producer; [done|..].
  - destruct Hc as [? Hch ? ? Hbl ? Hfree Hcon ?]. constructor; simpl; try done.
    + eapply chain_impl; [|done]. intros i j _ (bi & Hbi & Hn). exists bi. auto.
    + intros i Hin. destruct (Hbl i Hin) as (bi & Hbi & Hhi). rewrite E in Hhi. exists bi. auto.
    + intros i Hin. rewrite (Hfree i Hin), E. done.
  - constructor; try done. intros i bi Hbi. exists bi. simpl. auto.
  - exists b'. simpl. auto.
  - unfold producer_ok. simpl. split; [done|]. split.
    + intros Hin. destruct (c_blocks _ _ _ _ Hc _ Hin) as (bi & Hbi%lookup_lt_Some & _). lia.
    + exists nb. simpl. rewrite list_lookup_middle by done. split_and!; [done..|]. exists b. simpl. auto.
Qed.

(** It is linked in behind the tail block, ... *)
Lemma producer_link s A B its m x tb nb :
  inv s A B its → pp s = PLink x tb nb → safe (producer_step m s).
Proof.
  intros Hi E. pose proof (v_core _ _ _ _ Hi) as Hc. pose proof (v_producer _ _ _ _ Hi) as Hp.
  pose proof (v_localFront _ _ _ _ Hi) as Hl. pose proof (tail_in _ _ _ _ Hc) as Hin.
  unfold producer_ok in Hp. unfold producer_step. rewrite E in Hp, Hl |- *.
  destruct Hp as (-> & Hnb & bn & Hbn & Hhn & Ef & b & Hb & En).
  assert (nb ≠ tailBlock (q s)) as Hne by set_solver.
  assert (nb ∉ A) as HnA by set_solver.
  assert (hole_of (cp s) nb = false) as Hhole.
  { pose proof (v_consumer _ _ _ _ Hi) as Hk. unfold consumer_ok, hole_of in *. destruct (cp s); try done.
    apply bool_decide_eq_false. intros ->. destruct Hk as (-> & _). by apply HnA; eapply front_in. }
  exists A, (nb :: B), (<[nb := [x]]> its). eapply inv_by_producer; [done|..].
  - pose proof (next_of_tail _ _ _ _ _ Hc Hb) as Hnext. destruct Hc as [Hnd Hch ? [A0 EA] Hbl Hfull Hfree Hcon ?].
    constructor; simpl; try done.
    + rewrite <- Permutation_middle. by apply list.NoDup_cons.
    + rewrite EA, <- app_assoc in Hch |- *. simpl in *.
      apply chain_app in Hch as [H1 [_ H2]]. apply chain_app. simpl.
      assert (∀ l e, tailBlock (q s) ∉ l → chain (blocks (q s)) l e →
        chain (alter (set_next (Some nb)) (tailBlock (q s)) (blocks (q s))) l e) as Hkeep.
      { intros l e Hl'. apply chain_impl. intros i j Hil (bi & Hbi & Hni). exists bi.
        rewrite list_lookup_alter_ne by set_solver. done. }
      rewrite EA in Hnd. apply list.NoDup_app in Hnd as (Hnd1 & Hd & _).
      apply list.NoDup_app in Hnd1 as (_ & Hd1 & _).
      split_and!; [apply Hkeep; [intros ?%Hd1; set_solver|done]| | |apply Hkeep; [apply Hd; set_solver|done]].
      * exists (set_next (Some nb) b). by rewrite list_lookup_alter_eq, Hb.
      * exists bn. rewrite list_lookup_alter_ne by done. by rewrite Hbn, En.
    + by exists A0.
    + intros i Hi'. destruct (decide (i = nb)) as [->|Hni].
      * exists bn. rewrite list_lookup_alter_ne, fn_lookup_insert, Hhole by done. done.
      * destruct (Hbl i) as (bi & Hbi & Hhi); [set_solver|]. rewrite E in Hhi. rewrite fn_lookup_insert_ne by done.
        destruct (decide (i = tailBlock (q s))) as [->|Hnt].
        -- exists (set_next (Some nb) bi). rewrite list_lookup_alter_eq, Hbi. split; [done|]. by apply holds_next.
        -- exists bi. by rewrite list_lookup_alter_ne.
    + intros i Hi'. rewrite fn_lookup_insert_ne; [by apply Hfull|]. intros <-. apply HnA.
      destruct A; [done|]. set_solver.
    + intros i Hi'. destruct (decide (i = nb)) as [->|Hni]; [by rewrite fn_lookup_insert|].
      rewrite fn_lookup_insert_ne by done. rewrite Hfree, E by set_solver. done.
    + by rewrite concat_insert.
  - constructor; try done.
    + intros i Hi'. by rewrite fn_lookup_insert_ne by set_solver.
    + intros i Hi' _. by rewrite fn_lookup_insert_ne by set_solver.
    + intros i bi Hbi. destruct (decide (tailBlock (q s) = i)) as [<-|Hni].
      * by eapply block_alter.
      * eapply block_alter_ne; [done..|]. by exists bi.
  - simpl. rewrite fn_lookup_insert_ne by done. destruct Hl as (b' & Hb' & Hl). by eapply block_alter.
  - unfold producer_ok. simpl. split; [done|]. eapply block_alter_ne; [done..|]. by exists bn.
Qed.

(** ... and published. *)
Lemma producer_publish s A B its m x tbn :
  inv s A B its → pp s = PPublish x tbn → safe (producer_step m s).
Proof.
  intros Hi E. pose proof (v_core _ _ _ _ Hi) as Hc. pose proof (v_producer _ _ _ _ Hi) as Hp.
  unfold producer_ok in Hp. unfold producer_step. rewrite E in Hp |- *.
  destruct Hp as (HB & b & Hb & Ef). destruct B as [|tbn' B]; [done|]. simplify_eq/=.
  pose proof (c_free _ _ _ _ Hc tbn ltac:(set_solver)) as Hx. rewrite E in Hx. simpl in Hx.
  rewrite decide_True in Hx by done.
  assert (A ++ tbn :: B = (A ++ [tbn]) ++ B) as EAB by by rewrite <- app_assoc.
  destruct (c_blocks _ _ _ _ Hc tbn ltac:(set_solver)) as (b' & Hb' & Hh).
  rewrite Hb in Hb'. injection Hb' as <-. rewrite E, Hx in Hh. simpl in Hh.
  exists (A ++ [tbn]), B, its. eapply inv_by_producer; [done|..].
  - destruct Hc as [Hnd Hch [A1 EA1] ? Hbl Hfull Hfree Hcon ?]. rewrite EAB in *.
    constructor; simpl; try done.
    + exists (A1 ++ [tbn]). by rewrite EA1.
    + by eexists.
    + intros i Hi'. destruct (Hbl i Hi') as (bi & Hbi & Hhi). rewrite E in Hhi. eauto.
    + intros i. rewrite EA1. simpl. rewrite drop_0. intros [Hi'|Hi']%elem_of_app.
      * apply Hfull. by rewrite EA1.
      * apply list_elem_of_singleton in Hi' as ->. by rewrite Hx.
    + intros i Hi'. rewrite (Hfree i) by set_solver. rewrite E. simpl. rewrite decide_False; [done|].
      intros ->. rewrite <- app_assoc in Hnd. apply list.NoDup_app in Hnd as (_ & _ & Hnd).
      apply list.NoDup_cons in Hnd as [? _]. done.
    + rewrite Hcon, fmap_app, concat_app. simpl. by rewrite Hx, app_nil_r, app_assoc.
  - constructor; try done; simpl.
    + rewrite length_app. lia.
    + by apply prefix_app_r.
    + intros i bi Hbi. by exists bi.
  - exists b. split; [done|]. simpl. rewrite Hx. pose proof (h_front _ _ _ _ Hh) as Hfr.
    pose proof (h_room _ _ _ _ Hh) as Hro. simpl in Hro. split; [by rewrite Ef|]. exists 0%Z.
    rewrite Z.add_0_r, Ef, Z.mod_small by done. split_and!; [done..|simpl; lia].
  - done.
Qed.

Lemma producer_safe s A B its m : inv s A B its → safe (producer_step m s).
Proof.
  intros Hi. destruct (pp s) eqn:E.
  - unfold producer_step. by rewrite E.
  - by eapply producer_fill; eauto.
  - by eapply producer_fill; eauto 10.
  - by eapply producer_fill; eauto 10.
  - by eapply producer_fill; eauto 10.
  - by eapply producer_next.
  - by eapply producer_use; eauto.
  - by eapply producer_use; eauto.
  - by eapply producer_use; eauto 10.
  - by eapply producer_alloc.
  - by eapply producer_link.
  - by eapply producer_publish.
  - unfold producer_step. by rewrite E.
Qed.

(** *** The steps of [try_dequeue] *)

(** A step of the consumer that only moves its program counter. *)
Lemma consumer_pc s A B its pc :
  inv s A B its → (∀ i, hole_of pc i = hole_of (cp s) i) →
  (∀ s', q s' = q s → cp s' = pc → enqueued s' = enqueued s → dequeued s' = dequeued s →
     consumer_ok s' A its) →
  safe (consumer_to pc (q s) s).
Proof.
  intros Hi Hh Hok. exists A, B, its. eapply inv_by_consumer; [done|..].
  - by eapply core_pc; [apply (v_core _ _ _ _ Hi)|..].
  - by apply consumer_frame_pc.
  - apply (v_localTail _ _ _ _ Hi).
  - by apply Hok.
Qed.

Lemma insert_id_at its (i j : nat) : (<[i := its i]> its) j = its j.
Proof.
  destruct (decide (j = i)) as [->|]; [by rewrite fn_lookup_insert|by rewrite fn_lookup_insert_ne].
Qed.

Lemma localTail_fresh b hole items pend :
  holds b hole items pend → localTail_ok (set_localTail (tail b) b) items.
Proof. intros Hh. exists (len items). split; [lia|]. apply (h_tail _ _ _ _ Hh). Qed.

(** One that refreshes its copy of the tail of a block that is not being
    emptied. *)
Lemma consumer_refresh s A B its pc i b :
  inv s A B its → i ∈ A ++ B → blocks (q s) !! i = Some b →
  (∀ j, hole_of pc j = hole_of (cp s) j) →
  (∀ s', q s' = with_block i (set_localTail (tail b)) (q s) → cp s' = pc →
     enqueued s' = enqueued s → dequeued s' = dequeued s →
     consumer_ok s' A (<[i := its i]> its)) →
  safe (consumer_to pc (with_block i (set_localTail (tail b)) (q s)) s).
Proof.
  intros Hi Hin Hb Hh Hok. pose proof (v_core _ _ _ _ Hi) as Hc.
  destruct (c_blocks _ _ _ _ Hc i Hin) as (b' & Hb' & Hh'). rewrite Hb in Hb'. injection Hb' as <-.
  exists A, B, (<[i := its i]> its). eapply inv_by_consumer; [done|..].
  - eapply core_alter; [done|done|done|done|done| | | | |].
    + simpl. rewrite Hh. by apply holds_localTail.
    + intros j _. simpl. by rewrite Hh.
    + apply (c_full _ _ _ _ Hc).
    + apply (c_free _ _ _ _ Hc).
    + simpl. rewrite insert_id_its. apply (c_content _ _ _ _ Hc).
  - by eapply consumer_frame_alter.
  - destruct (v_localTail _ _ _ _ Hi) as (b1 & Hb1 & Hlt).
    destruct (decide (i = frontBlock (q s))) as [->|Hne].
    + eapply (block_alter _ _ _ _ b); [done..|]. simpl. rewrite insert_id_at. by eapply localTail_fresh.
    + eapply block_alter_ne; [done..|]. exists b1. simpl. by rewrite insert_id_at.
  - by apply Hok.
Qed.

(** The cached tail is still ahead after an item has been taken. *)
Lemma localTail_pop b hole v items pend :
  holds b hole (v :: items) pend → localTail_ok b (v :: items) → front b ≠ localTail b →
  localTail_ok (set_front (Z.land (front b + 1) (sizeMask b)) b) items.
Proof.
  intros Hh (j & Hj & E) Hne. rewrite (advance_index _ _ _ _ _ Hh).
  assert (j ≠ 0%Z) as Hj0.
  { intros ->. apply Hne. rewrite E, Z.add_0_r, Z.mod_small; [done|apply (h_front _ _ _ _ Hh)]. }
  exists (j - 1)%Z. simpl in *. change (size _) with (size b). split; [lia|].
  rewrite E, Zplus_mod_idemp_l. f_equal. lia.
Qed.

(** An index that has moved away from the cached tail means an item. *)
Lemma localTail_item b hole items pend :
  holds b hole items pend → localTail_ok b items → front b ≠ localTail b → items ≠ [].
Proof.
  intros Hh (j & Hj & E) Hne ->. simpl in Hj. assert (j = 0)%Z as -> by lia. apply Hne.
  rewrite E, Z.add_0_r, Z.mod_small; [done|apply (h_front _ _ _ _ Hh)].
Qed.

Lemma single_block s A B its :
  core s A B its → its (frontBlock (q s)) = [] → length (dequeued s) < length (enqueued s) → 2 ≤ length A.
Proof.
  intros Hc E Hlt. destruct (c_front _ _ _ _ Hc) as [[|a A1] EA]; [|rewrite EA; simpl; lia].
  rewrite (c_content _ _ _ _ Hc), EA, length_app in Hlt. simpl in Hlt. rewrite E in Hlt. simpl in Hlt. lia.
Qed.

Lemma consumer_look s A B its :
  inv s A B its →
  (∃ n, cp s = CStart n) ∨ (∃ n fb bf, cp s = CTail n fb bf) ∨ cp s = CRecheck →
  safe (consumer_step s).
Proof.
  intros Hi Hpc. pose proof (v_core _ _ _ _ Hi) as Hc. pose proof (v_consumer _ _ _ _ Hi) as Hk.
  pose proof (front_in _ _ _ _ Hc) as Hin. assert (frontBlock (q s) ∈ A ++ B) as Hin' by set_solver.
  destruct (front_block _ _ _ _ Hc) as (b & Hb & Hh). destruct (v_localTail _ _ _ _ Hi) as (b' & Hb' & Hl).
  rewrite Hb in Hb'. injection Hb' as <-. unfold consumer_ok in Hk.
  assert (∀ s' n, q s' = q s → enqueued s' = enqueued s → n ≤ length (enqueued s) →
    its (frontBlock (q s)) = [] → length (dequeued s) < n → 2 ≤ length A) as Hsingle.
  { intros. eapply single_block; [done..|lia]. }
  destruct Hpc as [(n & E)|[(n & fb & bf & E)|E]]; unfold consumer_step; rewrite E in Hk |- *.
  - unfold deref. rewrite Hb. destruct (_ =? _)%Z eqn:En; simpl.
    + apply (consumer_pc _ A B its); rewrite ?E; [done..|]. intros s' Eq Ep En' Ed. unfold consumer_ok.
      rewrite Ep, Eq, En'. split_and!; [done..|]. exists b. by rewrite Eq.
    + apply Z.eqb_neq in En. apply (consumer_pc _ A B its); rewrite ?E; [done..|].
      intros s' Eq Ep En' Ed. unfold consumer_ok. rewrite Ep, Eq. split_and!; [done| |].
      * by eapply localTail_item.
      * exists b. by rewrite Eq.
  - destruct Hk as (Hn & -> & b' & Hb' & ->). rewrite Hb in Hb'. injection Hb' as <-.
    unfold deref. rewrite Hb. destruct (_ =? _)%Z eqn:Ez; simpl.
    + apply Z.eqb_eq in Ez. apply (holds_empty _ _ _ _ Hh) in Ez.
      apply (consumer_refresh _ A B its); rewrite ?E; [done..|]. intros s' Eq Ep En Ed. unfold consumer_ok.
      rewrite Ep, Eq, Ed. split; [done|]. intros Hlt. by eapply Hsingle.
    + apply Z.eqb_neq in Ez. apply (consumer_refresh _ A B its); rewrite ?E; [done..|].
      intros s' Eq Ep En Ed. unfold consumer_ok. rewrite Ep, Eq, insert_id_at. split_and!; [done| |].
      * intros E'. by apply Ez, (holds_empty _ _ _ _ Hh).
      * by eapply block_alter.
  - unfold deref. rewrite Hb. destruct (_ =? _)%Z eqn:Ez; simpl.
    + apply Z.eqb_eq in Ez. apply (holds_empty _ _ _ _ Hh) in Ez.
      apply (consumer_refresh _ A B its); rewrite ?E; [done..|]. intros s' Eq Ep En Ed. unfold consumer_ok.
      rewrite Ep, Eq, insert_id_at. done.
    + apply Z.eqb_neq in Ez. apply (consumer_refresh _ A B its); rewrite ?E; [done..|].
      intros s' Eq Ep En Ed. unfold consumer_ok. rewrite Ep, Eq, insert_id_at. split_and!; [done| |].
      * intros E'. by apply Ez, (holds_empty _ _ _ _ Hh).
      * by eapply block_alter.
Qed.

Lemma consumer_tail_block s A B its n fb :
  inv s A B its → cp s = CTailBlock n fb → safe (consumer_step s).
Proof.
  intros Hi E. pose proof (v_core _ _ _ _ Hi) as Hc. pose proof (v_consumer _ _ _ _ Hi) as Hk.
  unfold consumer_ok in Hk. unfold consumer_step. rewrite E in Hk |- *. destruct Hk as [-> Hk].
  case_bool_decide as Ef; simpl; apply (consumer_pc _ A B its); rewrite ?E; try done;
    intros s' Eq Ep En Ed; unfold consumer_ok; rewrite Ep, ?Ed.
  - destruct (decide (n ≤ length (dequeued s))); [done|]. exfalso.
    by apply (front_not_tail _ _ _ _ Hc); [apply Hk; lia|].
  - destruct (c_front _ _ _ _ Hc) as [[|a A1] EA]; [|rewrite EA; simpl; lia]. destruct Ef.
    destruct (c_tail _ _ _ _ Hc) as [[|a A0] EA0]; [simpl in EA0; congruence|].
    rewrite EA in EA0. injection EA0 as _ EA0. by destruct A0.
Qed.

Lemma consumer_next s A B its :
  inv s A B its → (∃ fb, cp s = CNext fb) ∨ (∃ fb nb, cp s = CNextTail fb nb) → safe (consumer_step s).
Proof.
  intros Hi Hpc. pose proof (v_core _ _ _ _ Hi) as Hc. pose proof (v_consumer _ _ _ _ Hi) as Hk.
  unfold consumer_ok in Hk. unfold consumer_step.
  destruct Hpc as [(fb & E)|(fb & nb & E)]; rewrite E in Hk |- *.
  - destruct Hk as (-> & Ei & Hl). destruct (front_block _ _ _ _ Hc) as (b & Hb & _).
    destruct (c_front _ _ _ _ Hc) as [[|nb A1] EA]; [rewrite EA in Hl; simpl in Hl; lia|].
    pose proof (c_chain _ _ _ _ Hc) as Hch. rewrite EA in Hch. destruct Hch as [(b' & Hb' & Hn) _].
    rewrite Hb in Hb'. injection Hb' as <-. unfold deref. rewrite Hb, Hn. simpl.
    apply (consumer_pc _ A B its); rewrite ?E; [done..|]. intros s' Eq Ep _ _. unfold consumer_ok.
    rewrite Ep. eauto.
  - destruct Hk as (Ei & A1 & EA).
    assert (nb ∈ A ++ B) as Hin by (rewrite EA; set_solver).
    destruct (c_blocks _ _ _ _ Hc nb Hin) as (b & Hb & Hh).
    assert (its nb ≠ []) as Hne by (apply (c_full _ _ _ _ Hc); rewrite EA; simpl; set_solver).
    unfold deref. rewrite Hb. destruct (_ =? _)%Z eqn:Ez; simpl.
    { apply Z.eqb_eq in Ez. by apply (holds_empty _ _ _ _ Hh) in Ez. }
    apply (consumer_refresh _ A B its); rewrite ?E; [done..|]. intros s' Eq Ep _ _. unfold consumer_ok.
    rewrite Ep, insert_id_at. split_and!; [done|by eauto|].
    eapply block_alter; [done..|]. split_and!; [done|by apply Z.eqb_neq|]. simpl. rewrite insert_id_at.
    by eapply localTail_fresh.
Qed.

(** The front moves to the next block; the old one becomes free. *)
Lemma consumer_advance s A B its fb nb nf :
  inv s A B its → cp s = CAdvance fb nb nf → safe (consumer_step s).
Proof.
  intros Hi E. pose proof (v_core _ _ _ _ Hi) as Hc. pose proof (v_consumer _ _ _ _ Hi) as Hk.
  pose proof (v_producer _ _ _ _ Hi) as Hp.
  unfold consumer_ok in Hk. unfold consumer_step. rewrite E in Hk |- *.
  destruct Hk as (Ei & (A1 & EA) & b & Hb & -> & Hnt & Hl).
  assert (fb = frontBlock (q s)) as Efb by (destruct (c_front _ _ _ _ Hc) as [? EA']; congruence).
  assert (free_items (pp s) fb = []) as Hfree.
  { unfold producer_ok in Hp. destruct (pp s); try done. simpl. rewrite decide_False; [done|]. intros <-.
    destruct Hp as [HB _]. pose proof (c_nodup _ _ _ _ Hc) as (_ & Hd & _)%list.NoDup_app.
    apply (Hd fb); [rewrite EA; set_solver|]. destruct B; simplify_eq/=; set_solver. }
  assert ((nb :: A1) ++ B ++ [fb] ≡ₚ A ++ B) as Hperm by (rewrite EA; simpl; solve_Permutation).
  assert (its nb ≠ []) as Hne by (apply (c_full _ _ _ _ Hc); rewrite EA; simpl; set_solver).
  exists (nb :: A1), (B ++ [fb]), its. eapply inv_by_consumer; [done|..].
  - destruct Hc as [Hnd Hch ? [A0 EA0] Hbl Hfull Hfr Hcon ?]. constructor; simpl; try done.
    + by rewrite <- Hperm in Hnd.
    + rewrite EA in Hch. simpl in Hch. destruct Hch as (Hn & Hn' & Hch).
      split.
      * destruct A1; simpl in *; [|done]. destruct B; simpl in *; [|done]. by rewrite Efb.
      * rewrite app_assoc. apply chain_app. split; [by rewrite <- Efb in Hch|]. simpl. by split.
    + by exists A1.
    + exists (drop 1 A0). rewrite EA in EA0. destruct A0 as [|a A0]; simplify_eq/=. by rewrite drop_0.
    + intros i Hin. destruct (Hbl i) as (bi & Hbi & Hhi); [by rewrite <- Hperm|]. rewrite E in Hhi. eauto.
    + intros i Hin. apply Hfull. rewrite EA. simpl. set_solver.
    + intros i [Hin|Hin]%elem_of_app; [by apply Hfr|]. apply list_elem_of_singleton in Hin as ->. congruence.
    + rewrite Hcon, EA. simpl. by rewrite Ei.
  - constructor; try done.
    + by apply prefix_app_r.
    + intros i bi Hbi. exists bi. split; [done|]. split_and!; try done. by left.
  - simpl. exists b. by split.
  - unfold consumer_ok. simpl. split_and!; [done..|]. by exists b.
Qed.

Lemma front_block_pop its fb A1 v rest :
  NoDup (fb :: A1) → its fb = v :: rest →
  concat (its <$> fb :: A1) = v :: concat (<[fb := rest]> its <$> fb :: A1).
Proof.
  intros [Hn _]%list.NoDup_cons E. csimpl. rewrite E, fn_lookup_insert. simpl. by rewrite concat_insert.
Qed.

Lemma consumer_take s A B its :
  inv s A B its → (∃ fb bf, cp s = CMove fb bf) ∨ (∃ fb nf v, cp s = CStore fb nf v) →
  safe (consumer_step s).
Proof.
  intros Hi Hpc. pose proof (v_core _ _ _ _ Hi) as Hc. pose proof (v_consumer _ _ _ _ Hi) as Hk.
  pose proof (front_in _ _ _ _ Hc) as Hin. assert (frontBlock (q s) ∈ A ++ B) as Hin' by set_solver.
  pose proof (c_nodup _ _ _ _ Hc) as (HndA & Hdis & _)%list.NoDup_app.
  destruct (c_front _ _ _ _ Hc) as [A1 EA].
  assert (frontBlock (q s) ∉ drop 1 A) as Hnd1.
  { rewrite EA in HndA |- *. simpl. rewrite drop_0. by apply list.NoDup_cons in HndA as [? _]. }
  destruct (front_block _ _ _ _ Hc) as (b & Hb & Hh). destruct (v_localTail _ _ _ _ Hi) as (b' & Hb' & Hl).
  rewrite Hb in Hb'. injection Hb' as <-. unfold consumer_ok in Hk. unfold consumer_step.
  destruct Hpc as [(fb & bf & E)|(fb & nf & v & E)]; rewrite E in Hk, Hh |- *; simpl in Hh.
  - destruct Hk as (-> & Hne & b' & Hb' & -> & Hnt). rewrite Hb in Hb'. injection Hb' as <-.
    destruct (its (frontBlock (q s))) as [|v rest] eqn:Ei; [done|]. unfold deref. rewrite Hb.
    destruct (holds_move _ _ _ _ Hh) as [-> Hm].
    exists A, B, (<[frontBlock (q s) := its (frontBlock (q s))]> its). eapply inv_by_consumer; [done|..].
    + eapply core_alter; [done|done|done|done|done| | | | |].
      * simpl. by rewrite bool_decide_true, Ei.
      * intros j Hj. simpl. rewrite E. by rewrite bool_decide_false.
      * done.
      * intros ?. by destruct (Hdis _ Hin).
      * simpl. rewrite insert_id_its. apply (c_content _ _ _ _ Hc).
    + by eapply consumer_frame_alter.
    + eapply (block_alter _ _ _ _ b); [done..|]. simpl. by rewrite insert_id_at, Ei.
    + unfold consumer_ok. simpl. rewrite insert_id_at. split_and!; [done|by eauto|]. by eapply block_alter.
  - destruct Hk as (-> & (rest & Ei) & b' & Hb' & -> & Hnt). rewrite Hb in Hb'. injection Hb' as <-.
    rewrite bool_decide_true, Ei in Hh by done.
    exists A, B, (<[frontBlock (q s) := rest]> its). eapply inv_by_consumer; [done|..].
    + eapply core_alter; [done|done|done|done|done| | | | |].
      * by eapply holds_pop.
      * intros j Hj. simpl. rewrite E. simpl. by rewrite bool_decide_false.
      * done.
      * intros ?. by destruct (Hdis _ Hin).
      * simpl. rewrite (c_content _ _ _ _ Hc), EA, (front_block_pop _ _ _ v rest), <- app_assoc;
          [done|by rewrite <- EA|done].
    + constructor; try done. intros i bi Hbi. destruct (decide (frontBlock (q s) = i)) as [<-|Hni].
      * eapply block_alter; [done..|]. rewrite Hb in Hbi. injection Hbi as <-. split_and!; try done.
        -- intros ?. by destruct (Hdis _ Hin).
        -- intros _. right. simpl. rewrite fn_lookup_insert, Ei. split; [|simpl; lia].
           by eapply advance_index.
      * eapply block_alter_ne; [done..|]. exists bi. split; [done|]. split_and!; try done.
        left. by rewrite fn_lookup_insert_ne.
    + eapply (block_alter _ _ _ _ b); [done..|]. simpl. rewrite fn_lookup_insert. rewrite Ei in Hl.
      by eapply localTail_pop.
    + unfold consumer_ok. simpl. by eexists.
Qed.

Lemma consumer_safe s A B its : inv s A B its → safe (consumer_step s).
Proof.
  intros Hi. destruct (cp s) eqn:E.
  - unfold consumer_step. by rewrite E.
  - by eapply consumer_look; eauto.
  - by eapply consumer_look; eauto 10.
  - by eapply consumer_tail_block.
  - by eapply consumer_look; eauto.
  - by eapply consumer_next; eauto.
  - by eapply consumer_next; eauto.
  - by eapply consumer_advance.
  - by eapply consumer_take; eauto.
  - by eapply consumer_take; eauto 10.
  - unfold consumer_step. by rewrite E.
  - unfold consumer_step. by rewrite E.
Qed.
End inv.

(** ** The constructor *)

(** The top [k] of the bits up to [L] are set. *)
Definition top_ones (L k y : Z) : Prop :=
  (0 ≤ y < 2 ^ (L + 1))%Z ∧ ∀ i, (0 ≤ i ≤ L)%Z → (L - k < i)%Z → Z.testbit y i = true.

Lemma lor_lt_pow2 a b n :
  (0 ≤ a < 2 ^ n)%Z → (0 ≤ b < 2 ^ n)%Z → (0 ≤ Z.lor a b < 2 ^ n)%Z.
Proof.
  intros Ha Hb. assert (0 ≤ Z.lor a b)%Z by (apply Z.lor_nonneg; lia). split; [done|].
  destruct (decide (Z.lor a b = 0)%Z) as [->|]; [lia|].
  apply Z.log2_lt_pow2; [lia|]. rewrite Z.log2_lor by lia.
  apply Z.max_lub_lt.
  - destruct (decide (a = 0)%Z) as [->|]; [|apply Z.log2_lt_pow2; lia].
    simpl. destruct (decide (n ≤ 0)%Z); [|lia]. destruct (decide (n < 0)%Z).
    + rewrite Z.pow_neg_r in *; lia.
    + assert (n = 0)%Z as -> by lia. simpl in *. assert (b = 0)%Z as -> by lia. done.
  - destruct (decide (b = 0)%Z) as [->|]; [|apply Z.log2_lt_pow2; lia].
    simpl. destruct (decide (n ≤ 0)%Z); [|lia]. destruct (decide (n < 0)%Z).
    + rewrite Z.pow_neg_r in *; lia.
    + assert (n = 0)%Z as -> by lia. simpl in *. assert (a = 0)%Z as -> by lia. done.
Qed.

(** One line of the bit trick doubles the run of ones. *)
Lemma smear_step L k y :
  (0 < k)%Z → top_ones L k y → top_ones L (2 * k) (Z.lor y (Z.shiftr y k)).
Proof.
  intros Hk [Hy Hbits]. split.
  - apply lor_lt_pow2; [done|]. rewrite Z.shiftr_div_pow2 by lia. split.
    + apply Z.div_pos; [lia|]. by apply Z.pow_pos_nonneg; lia.
    + eapply Z.le_lt_trans; [|apply Hy]. apply Z.div_le_upper_bound; [apply Z.pow_pos_nonneg; lia|].
      pose proof (Z.pow_pos_nonneg 2 k ltac:(lia) ltac:(lia)). nia.
  - intros i Hi Hlo. rewrite Z.lor_spec. destruct (decide (L - k < i)%Z); [by rewrite Hbits|].
    rewrite Z.shiftr_spec, (Hbits (i + k)%Z) by lia. by rewrite orb_true_r.
Qed.

Lemma top_ones_all L k y : (L < k)%Z → (0 ≤ L)%Z → top_ones L k y → (y + 1 = 2 ^ (L + 1))%Z.
Proof.
  intros Hk HL [Hy Hbits]. enough (y = Z.ones (L + 1)) as -> by (rewrite Z.ones_equiv; lia).
  apply Z.bits_inj'. intros i Hi. destruct (decide (i ≤ L)%Z).
  - rewrite Hbits, Z.ones_spec_low by lia. done.
  - rewrite Z.ones_spec_high by lia. apply Z.testbit_false; [lia|].
    rewrite Z.div_small; [done|]. split; [lia|]. eapply Z.lt_le_trans; [apply Hy|].
    apply Z.pow_le_mono_r; lia.
Qed.

(** [ceilToPow2] computes the smallest power of two at or above its argument. *)
Lemma ceilToPow2_spec x :
  (1 ≤ x ≤ 2 ^ 63)%Z → ∃ n, (0 ≤ n)%Z ∧ ceilToPow2 x = (2 ^ n)%Z ∧ (x ≤ 2 ^ n < 2 * x)%Z.
Proof.
  intros Hx. unfold ceilToPow2. rewrite (u64_small (x - 1)) by lia.
  destruct (decide (x = 1)%Z) as [->|]; [exists 0%Z; by vm_compute|].
  set (L := Z.log2 (x - 1)). pose proof (Z.log2_spec (x - 1) ltac:(lia)) as HL. fold L in HL.
  pose proof (Z.log2_nonneg (x - 1)) as HL0. fold L in HL0.
  assert (L < 63)%Z as HL63 by (apply Z.log2_lt_pow2; lia).
  assert (top_ones L 1 (x - 1)) as Ht.
  { split; [rewrite Z.add_1_r; lia|]. intros i Hi ?. assert (i = L) as -> by lia.
    apply Z.bit_log2. lia. }
  do 6 (apply smear_step in Ht; [|lia]). cbv zeta.
  match goal with |- context [u64 (?y + 1)] => assert (y + 1 = 2 ^ (L + 1))%Z as -> end.
  { apply (top_ones_all L 64); [lia..|]. exact Ht. }
  rewrite <- Z.add_1_r in HL.
  exists (L + 1)%Z. split; [lia|]. rewrite u64_small.
  - split; [done|]. rewrite Z.pow_add_r in * by lia. lia.
  - split; [lia|]. apply Z.pow_lt_mono_r; lia.
Qed.

Section init.
Context {T : Type}.

Lemma ring_lookup n c i :
  i < n → ring (T := T) n c !! i = Some (set_next (Some (if decide (S i = n) then 0 else S i)) (make_block c)).
Proof. intros Hi. unfold ring. by rewrite list_lookup_fmap, lookup_seq_lt. Qed.

Lemma ring_chain n c k m : k + m = n → chain (ring (T := T) n c) (seq k m) 0.
Proof.
  revert k. induction m as [|m IH]; intros k Hk; simpl; [done|]. split; [|apply IH; lia].
  eexists. split; [apply ring_lookup; lia|]. simpl. f_equal.
  destruct m; simpl; case_decide; lia || done.
Qed.

Lemma fresh_block_holds n c nx :
  (1 ≤ n)%Z → c = (2 ^ n)%Z → holds (T := T) (set_next nx (make_block c)) false [] [].
Proof.
  intros Hn ->. pose proof (Z.pow_le_mono_r 2 1 n).
  assert (size (T := T) (set_next nx (make_block (2 ^ n))) = 2 ^ n)%Z as Es by (unfold size; simpl; lia).
  constructor; rewrite ?Es; try done.
  - by exists n.
  - simpl. lia.
  - simpl. lia.
Qed.

Lemma ring_inv (n : nat) (k : Z) :
  0 < n → (1 ≤ k)%Z →
  inv (T := T) {| q := {| blocks := ring n (2 ^ k); frontBlock := 0; tailBlock := 0;
                          largestBlockSize := 2 ^ k |};
                  pp := PIdle; cp := CIdle; enqueued := []; dequeued := [] |}
    [0] (seq 1 (n - 1)) (λ _, []).
Proof.
  intros Hn Hk.
  assert ([0] ++ seq 1 (n - 1) = seq 0 n) as Eseq by (destruct n; [lia|]; simpl; by rewrite Nat.sub_0_r).
  pose proof (Z.pow_le_mono_r 2 1 k).
  constructor; [constructor|..]; cbn [q blocks frontBlock tailBlock pp cp enqueued dequeued].
  - rewrite Eseq. apply NoDup_seq.
  - rewrite Eseq. by apply ring_chain.
  - by exists [].
  - by exists [].
  - intros i. rewrite Eseq, elem_of_seq. intros Hi. eexists. split; [apply ring_lookup; lia|].
    by eapply fresh_block_holds.
  - simpl. by intros i ?%elem_of_nil.
  - done.
  - done.
  - by exists k.
  - eexists. split; [by apply ring_lookup|]. exists 0%Z. simpl. split; [lia|]. by rewrite Z.mod_0_l by (unfold size; simpl; lia).
  - eexists. split; [by apply ring_lookup|]. unfold localFront_ok, size. simpl. split; [lia|].
    exists 0%Z. split_and!; [done|by rewrite Z.mod_0_l by lia|lia].
  - done.
  - done.
Qed.

Lemma init_inv (sz : Z) :
  (1 ≤ sz < 2 ^ 63)%Z → ∃ A B its, inv (T := T) (spsc_init sz) A B its.
Proof.
  intros Hsz. unfold spsc_init, make_queue. rewrite u64_small by lia.
  destruct (ceilToPow2_spec (sz + 1)) as (n & Hn & -> & Hb); [lia|].
  assert (1 ≤ n)%Z as Hn1.
  { destruct (decide (n = 0)%Z) as [->|]; [simpl in Hb; lia|lia]. }
  destruct (_ <? _)%Z eqn:E.
  - apply Z.ltb_lt in E. unfold MAX_BLOCK_SIZE in *. do 3 eexists.
    apply (ring_inv _ 9); [|lia]. apply Z2Nat.inj_lt with (n := 0%Z); [lia|apply Z.div_pos; lia|].
    apply Z.div_str_pos. lia.
  - do 3 eexists. apply (ring_inv 1 n); lia.
Qed.
End init.

(** ** What the queue guarantees *)

Section guarantee.
Context {T : Type}.

Lemma step_safe (l : spsc_label T) s A B its : inv s A B its → safe (spsc_step l s).
Proof.
  intros Hi. destruct l as [x mode|m| |]; simpl.
  - destruct (pp s) eqn:E; try done; apply (producer_pc _ A B its); rewrite ?E; try done.
    + pose proof (v_localFront _ _ _ _ Hi) as Hl. by rewrite E in Hl.
    + intros s' Eq Ep. unfold producer_ok. by rewrite Ep.
    + pose proof (v_localFront _ _ _ _ Hi) as Hl. by rewrite E in Hl.
    + intros s' Eq Ep. unfold producer_ok. by rewrite Ep.
  - by eapply producer_safe.
  - destruct (cp s) eqn:E; try done; apply (consumer_pc _ A B its); rewrite ?E; try done;
      intros s' Eq Ep En Ed; unfold consumer_ok; by rewrite Ep, En.
  - by eapply consumer_safe.
Qed.

Lemma run_safe (ls : list (spsc_label T)) s A B its :
  inv s A B its → ∃ s' A' B' its', spsc_run ls s = Next s' ∧ inv s' A' B' its'.
Proof.
  revert s A B its. induction ls as [|l ls IH]; intros s A B its Hi; simpl; [by eauto 10|].
  pose proof (step_safe l _ _ _ _ Hi) as Hs. destruct (spsc_step l s) as [s1| |]; [|by eauto|done].
  destruct Hs as (A1 & B1 & its1 & Hi1). by eapply IH.
Qed.

(** How many of its own steps an operation has left at most. *)
Definition producer_rank (p : ProducerPc T) : nat :=
  match p with
  | PIdle | PDone _ => 0
  | PPublish _ _ | PTail _ _ _ => 1
  | PWrite _ _ _ _ | PLink _ _ _ | PUseTail _ _ _ => 2
  | PAlloc _ _ | PUseWrite _ _ _ => 3
  | PUse _ _ => 4
  | PNext _ _ _ => 5
  | PFront _ _ _ _ _ => 6
  | PStart _ _ => 7
  end.

Definition consumer_rank (c : ConsumerPc T) : nat :=
  match c with
  | CIdle | CEmpty _ | CGot _ => 0
  | CStore _ _ _ => 1
  | CMove _ _ => 2
  | CAdvance _ _ _ => 3
  | CNextTail _ _ => 4
  | CNext _ => 5
  | CRecheck => 6
  | CTailBlock _ _ => 7
  | CTail _ _ _ => 8
  | CStart _ => 9
  end.

Lemma producer_step_rank m (s s' : Spsc T) :
  producer_step m s = Next s' → producer_rank (pp s') < producer_rank (pp s) ∧ cp s' = cp s.
Proof.
  unfold producer_step, construct, deref, producer_to, producer_done. intros.
  repeat (case_match; simplify_eq/=); (split; [lia|done]).
Qed.

Lemma consumer_step_rank (s s' : Spsc T) :
  consumer_step s = Next s' → consumer_rank (cp s') < consumer_rank (cp s) ∧ pp s' = pp s.
Proof.
  unfold consumer_step, deref, consumer_to. intros.
  repeat (case_match; simplify_eq/=); (split; [lia|done]).
Qed.

(** What the steps do to the history. *)
Definition finished (p : ProducerPc T) : nat := match p with PDone true => 1 | _ => 0 end.
Definition got (c : ConsumerPc T) : nat := match c with CGot _ => 1 | _ => 0 end.

(** The number of elements that had been enqueued when the call began. *)
Definition call_size (c : ConsumerPc T) : option nat :=
  match c with CStart n | CTail n _ _ | CTailBlock n _ | CEmpty n => Some n | _ => None end.

Lemma producer_step_history m (s s' : Spsc T) :
  producer_step m s = Next s' →
  dequeued s' = dequeued s ∧ length (enqueued s') = length (enqueued s) + finished (pp s').
Proof.
  unfold producer_step, construct, deref, producer_to, producer_done. intros.
  repeat (case_match; simplify_eq/=); (split; [done|rewrite ?length_app; simpl; lia]).
Qed.

Lemma consumer_step_history (s s' : Spsc T) :
  consumer_step s = Next s' →
  enqueued s' = enqueued s ∧ length (dequeued s') = length (dequeued s) + got (cp s') ∧
  (∀ n, call_size (cp s') = Some n → call_size (cp s) = Some n) ∧ cp s' ≠ CIdle.
Proof.
  unfold consumer_step, deref, consumer_to. intros.
  repeat (case_match; simplify_eq/=); (split_and!; [done|rewrite ?length_app; simpl; lia|naive_solver|done]).
Qed.

Definition is_consumer (l : spsc_label T) : bool := match l with LConsumer => true | _ => false end.
Definition is_producer (l : spsc_label T) : bool := match l with LProducer _ => true | _ => false end.
Definition is_dequeue (l : spsc_label T) : bool := match l with LDequeue => true | _ => false end.
Definition is_enqueue (l : spsc_label T) : bool := match l with LEnqueue _ _ => true | _ => false end.

(** How many labels of a kind a run has. *)
Fixpoint count (k : spsc_label T → bool) (ls : list (spsc_label T)) : nat :=
  match ls with
  | [] => 0
  | l :: ls => (if k l then 1 else 0) + count k ls
  end.

(** Neither side's steps move the other side's program counter. *)
Lemma step_ranks l (s s' : Spsc T) :
  spsc_step l s = Next s' →
  (is_dequeue l = false →
     consumer_rank (cp s') + (if is_consumer l then 1 else 0) ≤ consumer_rank (cp s)) ∧
  (is_enqueue l = false →
     producer_rank (pp s') + (if is_producer l then 1 else 0) ≤ producer_rank (pp s)).
Proof.
  destruct l as [x mode|m| |]; simpl; intros Hs.
  - unfold producer_to in Hs. split; [intros _|done]. destruct (pp s); simplify_eq/=; lia.
  - apply producer_step_rank in Hs as [? ->]. split; intros _; lia.
  - unfold consumer_to in Hs. split; [done|intros _]. destruct (cp s); simplify_eq/=; lia.
  - apply consumer_step_rank in Hs as [? ->]. split; intros _; lia.
Qed.

Lemma disabled_rank l (s : Spsc T) :
  spsc_step l s = Disabled →
  (is_consumer l = true → consumer_rank (cp s) = 0) ∧ (is_producer l = true → producer_rank (pp s) = 0).
Proof.
  destruct l as [x mode|m| |]; simpl; intros Hs; split; try done; intros _.
  - unfold producer_step, construct, deref, producer_to, producer_done in Hs.
    repeat (case_match; simplify_eq/=; try done).
  - unfold consumer_step, deref, consumer_to in Hs. repeat (case_match; simplify_eq/=; try done).
Qed.

Lemma run_ranks ls (s s' : Spsc T) :
  spsc_run ls s = Next s' →
  (count is_dequeue ls = 0 → consumer_rank (cp s') ≤ consumer_rank (cp s) - count is_consumer ls) ∧
  (count is_enqueue ls = 0 → producer_rank (pp s') ≤ producer_rank (pp s) - count is_producer ls).
Proof.
  revert s. induction ls as [|l ls IH]; intros s; simpl; [intros [= ->]; lia|].
  destruct (spsc_step l s) as [s1| |] eqn:E; [| |done]; intros Hr; apply IH in Hr as [IHc IHp].
  - apply step_ranks in E as [Hc Hp].
    split; intros Hz.
    + destruct (is_dequeue l); [done|]. specialize (IHc Hz). specialize (Hc eq_refl).
      destruct (is_consumer l); lia.
    + destruct (is_enqueue l); [done|]. specialize (IHp Hz). specialize (Hp eq_refl).
      destruct (is_producer l); lia.
  - apply disabled_rank in E as [Hc Hp]. split; intros Hz.
    + specialize (IHc ltac:(lia)). destruct (is_consumer l); [specialize (Hc eq_refl)|]; lia.
    + specialize (IHp ltac:(lia)). destruct (is_producer l); [specialize (Hp eq_refl)|]; lia.
Qed.
End guarantee.

(** C11: the queue is a FIFO for one producer and one consumer that work at the
    same time.  Whatever the interleaving of their memory accesses, and whether
    or not allocations succeed, no step reads or overwrites a wrong slot,
    follows a dangling block or fails an assertion; the elements dequeued are,
    in order, the first of those enqueued; [try_dequeue] hands out the element
    it removed, and it reports an empty queue only if everything enqueued before
    the call had been dequeued. *)
Theorem spsc_fifo {T} (sz : Z) (ls : list (spsc_label T)) :
  (1 ≤ sz < 2 ^ 63)%Z →
  ∃ s, spsc_run ls (spsc_init sz) = Next s ∧
    dequeued s `prefix_of` enqueued s ∧
    (∀ v, cp s = CGot v → ∃ l, dequeued s = l ++ [v]) ∧
    (∀ n, cp s = CEmpty n → n ≤ length (dequeued s)).
Proof.
  intros Hsz. destruct (init_inv (T := T) sz Hsz) as (A & B & its & Hi).
  destruct (run_safe ls _ _ _ _ Hi) as (s & A' & B' & its' & Hr & Hi'). exists s.
  pose proof (v_consumer _ _ _ _ Hi') as Hk. unfold consumer_ok in Hk. split_and!; [done|..].
  - rewrite (c_content _ _ _ _ (v_core _ _ _ _ Hi')). by apply prefix_app_r.
  - intros v E. by rewrite E in Hk.
  - intros n E. by rewrite E in Hk.
Qed.

(** C16: both operations are wait-free: from any state that can be reached, an
    [inner_enqueue] that is under way ends after at most seven steps of its own
    and a [try_dequeue] after at most nine, however many steps the other side
    makes in between. *)
Theorem spsc_wait_free {T} (sz : Z) (ls ls' : list (spsc_label T)) (s : Spsc T) :
  (1 ≤ sz < 2 ^ 63)%Z → spsc_run ls (spsc_init sz) = Next s →
  ∃ s', spsc_run ls' s = Next s' ∧
    (count is_dequeue ls' = 0 → 9 ≤ count is_consumer ls' → consumer_rank (cp s') = 0) ∧
    (count is_enqueue ls' = 0 → 7 ≤ count is_producer ls' → producer_rank (pp s') = 0).
Proof.
  intros Hsz Hr. destruct (init_inv (T := T) sz Hsz) as (A & B & its & Hi).
  destruct (run_safe ls _ _ _ _ Hi) as (s1 & A1 & B1 & its1 & Hr1 & Hi1).
  rewrite Hr in Hr1. injection Hr1 as <-.
  destruct (run_safe ls' _ _ _ _ Hi1) as (s' & A' & B' & its' & Hr' & _). exists s'.
  destruct (run_ranks _ _ _ Hr') as [Hc Hp]. split; [done|].
  assert (consumer_rank (cp s) ≤ 9) by (destruct (cp s); simpl; lia).
  assert (producer_rank (pp s) ≤ 7) by (destruct (pp s); simpl; lia).
  split; intros Hz Hn; [specialize (Hc Hz)|specialize (Hp Hz)]; lia.
Qed.

(** A small queue (one block of two slots) that has to grow while it is used. *)
Definition demo_enqueue (x : nat) : list (spsc_label nat) := LEnqueue x CanAlloc :: replicate 7 (LProducer true).
Definition demo_dequeue : list (spsc_label nat) := LDequeue :: replicate 9 LConsumer.
Definition demo_run : list (spsc_label nat) :=
  demo_enqueue 1 ++ demo_enqueue 2 ++ [LDequeue; LConsumer] ++ demo_enqueue 3 ++ replicate 9 LConsumer ++
  demo_dequeue ++ demo_dequeue ++ demo_dequeue.

Lemma spsc_fifo_witness :
  ∃ s, spsc_run demo_run (spsc_init 1) = Next s ∧ dequeued s = [1; 2; 3] ∧ cp s = CEmpty 3 ∧
    dequeued s `prefix_of` enqueued s ∧
    (∀ v, cp s = CGot v → ∃ l, dequeued s = l ++ [v]) ∧ (∀ n, cp s = CEmpty n → n ≤ length (dequeued s)).
Proof.
  destruct (spsc_fifo 1 demo_run) as (s & Hs & H1 & H2 & H3); [lia|]. exists s.
  split; [done|]. vm_compute in Hs. injection Hs as <-. done.
Defined.

Lemma spsc_wait_free_witness :
  ∃ s, spsc_run (demo_enqueue 1 ++ [LDequeue; LConsumer; LEnqueue 2 CanAlloc]) (spsc_init 1) = Next s ∧
  ∃ s', spsc_run (concat (replicate 9 [LConsumer; LProducer true])) s = Next s' ∧
    (0 = 0 → 9 ≤ 9 → consumer_rank (cp s') = 0) ∧ (0 = 0 → 7 ≤ 9 → producer_rank (pp s') = 0).
Proof.
  eexists. split; [vm_compute; reflexivity|].
  apply (spsc_wait_free 1 (demo_enqueue 1 ++ [LDequeue; LConsumer; LEnqueue 2 CanAlloc])
    (concat (replicate 9 [LConsumer; LProducer true]))); [lia|vm_compute; reflexivity].
Defined.
