(* ===== verification/QueueOps.v ===== *)
(** * The other operations of [ReaderWriterQueue]

    [src/queue/readerwriterqueue.hpp]: [pop] and [peek], which the consumer may
    call instead of [try_dequeue] while the producer is at work; the walks round
    the ring of blocks, [size_approx], [max_capacity] and the destructor; and
    moving a queue. *)

From S2P Require Import Prelude SpscQueue.
From Stdlib Require Import Lia.

(** ** [pop] and [peek] *)

(** A pointer to an element: its block and its slot. *)
Abbreviation pointer := (nat * Z)%type.

Section ops.
Context {T : Type}.

(** [pop]: the accesses of [try_dequeue]; the element is destroyed where it is
    (the element itself is kept for the history). *)
Definition pop_step (s : Spsc T) : step_result (Spsc T) :=
  match cp s with
  | CIdle | CEmpty _ | CGot _ => Disabled
  | CStart n =>
      let fb := frontBlock (q s) in
      deref fb s (λ b,
        if negb (front b =? localTail b)%Z then consumer_to (CMove fb (front b)) (q s) s
        else consumer_to (CTail n fb (front b)) (q s) s)
  | CTail n fb bf =>
      deref fb s (λ b,
        let k := with_block fb (set_localTail (tail b)) (q s) in
        if negb (bf =? tail b)%Z then consumer_to (CMove fb bf) k s
        else consumer_to (CTailBlock n fb) k s)
  | CTailBlock n fb =>
      if negb (bool_decide (fb = tailBlock (q s))) then consumer_to CRecheck (q s) s
      else consumer_to (CEmpty n) (q s) s
  | CRecheck =>
      let fb := frontBlock (q s) in
      deref fb s (λ b,
        let k := with_block fb (set_localTail (tail b)) (q s) in
        if negb (front b =? tail b)%Z then consumer_to (CMove fb (front b)) k s
        else consumer_to (CNext fb) k s)
  | CNext fb =>
      deref fb s (λ b,
        match next b with
        | None => Fault "null block"
        | Some nb => consumer_to (CNextTail fb nb) (q s) s
        end)
  | CNextTail fb nb =>
      deref nb s (λ b,
        if negb (front b =? tail b)%Z
        then consumer_to (CAdvance fb nb (front b)) (with_block nb (set_localTail (tail b)) (q s)) s
        else Fault "assertion: nextBlockFront != nextBlockTail")
  | CAdvance fb nb nf =>
      consumer_to (CMove nb nf)
        {| blocks := blocks (q s); frontBlock := nb; tailBlock := tailBlock (q s);
           largestBlockSize := largestBlockSize (q s) |} s
  | CMove fb bf =>
      deref fb s (λ b,
        match data b !! bf with
        | None => Fault "destroy in a slot without an object"
        | Some v =>
            consumer_to (CStore fb (Z.land (bf + 1) (sizeMask b)) v)
              (with_block fb (set_data (delete bf (data b))) (q s)) s
        end)
  | CStore fb nf v =>
      Next {| q := with_block fb (set_front nf) (q s); pp := pp s; cp := CGot v;
              enqueued := enqueued s; dequeued := dequeued s ++ [v] |}
  end.

(** [peek] goes on ([inl]), or returns a pointer or null ([inr]). *)
Definition peek_step (s : Spsc T) : step_result (Spsc T * option (option pointer)) :=
  let go pc k := Next ({| q := k; pp := pp s; cp := pc; enqueued := enqueued s; dequeued := dequeued s |}, None) in
  let return_ pc k p :=
    Next ({| q := k; pp := pp s; cp := pc; enqueued := enqueued s; dequeued := dequeued s |}, Some p) in
  match cp s with
  | CStart n =>
      let fb := frontBlock (q s) in
      match blocks (q s) !! fb with
      | None => Fault "dangling block"
      | Some b =>
          if negb (front b =? localTail b)%Z then return_ (CMove fb (front b)) (q s) (Some (fb, front b))
          else go (CTail n fb (front b)) (q s)
      end
  | CTail n fb bf =>
      match blocks (q s) !! fb with
      | None => Fault "dangling block"
      | Some b =>
          let k := with_block fb (set_localTail (tail b)) (q s) in
          if negb (bf =? tail b)%Z then return_ (CMove fb bf) k (Some (fb, bf)) else go (CTailBlock n fb) k
      end
  | CTailBlock n fb =>
      if negb (bool_decide (fb = tailBlock (q s))) then go CRecheck (q s)
      else return_ (CEmpty n) (q s) None
  | CRecheck =>
      let fb := frontBlock (q s) in
      match blocks (q s) !! fb with
      | None => Fault "dangling block"
      | Some b =>
          let k := with_block fb (set_localTail (tail b)) (q s) in
          if negb (front b =? tail b)%Z then return_ (CMove fb (front b)) k (Some (fb, front b))
          else go (CNext fb) k
      end
  | CNext fb =>
      match blocks (q s) !! fb with
      | None => Fault "dangling block"
      | Some b =>
          match next b with
          | None => Fault "null block"
          | Some nb => go (CNextTail fb nb) (q s)
          end
      end
  | CNextTail fb nb =>
      match blocks (q s) !! nb with
      | None => Fault "dangling block"
      | Some b =>
          if negb (front b =? tail b)%Z then return_ (CNextTail fb nb) (q s) (Some (nb, front b))
          else Fault "assertion: nextBlockFront != nextBlock->tail"
      end
  | _ => Disabled
  end.

(** The operation the consumer is in; after a [peek], what it returned (the
    program counter stays where it returned). *)
Inductive ConsumerCall := InDequeue | InPop | InPeek | Peeked (p : option pointer).

Record Queue := { qs : Spsc T; call : ConsumerCall }.

Definition consumer_idle (k : Queue) : bool :=
  match call k with
  | InDequeue | InPop => match cp (qs k) with CIdle | CEmpty _ | CGot _ => true | _ => false end
  | InPeek => false
  | Peeked _ => true
  end.

Inductive queue_label :=
| QEnqueue (x : T) (mode : AllocationMode)
| QProducer (malloc_ok : bool)
| QCall (c : ConsumerCall)                   (* the consumer calls an operation *)
| QConsumer.

Definition lift_queue (c : ConsumerCall) (r : step_result (Spsc T)) : step_result Queue :=
  match r with
  | Next s => Next {| qs := s; call := c |}
  | Disabled => Disabled
  | Fault e => Fault e
  end.

Definition queue_step (l : queue_label) (k : Queue) : step_result Queue :=
  match l with
  | QEnqueue x mode => lift_queue (call k) (spsc_step (LEnqueue x mode) (qs k))
  | QProducer malloc_ok => lift_queue (call k) (spsc_step (LProducer malloc_ok) (qs k))
  | QCall (Peeked _) => Disabled
  | QCall c =>
      if consumer_idle k then lift_queue c (consumer_to (CStart (length (enqueued (qs k)))) (q (qs k)) (qs k))
      else Disabled
  | QConsumer =>
      match call k with
      | InDequeue => lift_queue InDequeue (consumer_step (qs k))
      | InPop => lift_queue InPop (pop_step (qs k))
      | InPeek =>
          match peek_step (qs k) with
          | Next (s, r) => Next {| qs := s; call := match r with Some p => Peeked p | None => InPeek end |}
          | Disabled => Disabled
          | Fault e => Fault e
          end
      | Peeked _ => Disabled
      end
  end.

Definition queue_init (size : Z) : Queue := {| qs := spsc_init size; call := InDequeue |}.

Fixpoint queue_run (ls : list queue_label) (k : Queue) : step_result Queue :=
  match ls with
  | [] => Next k
  | l :: ls =>
      match queue_step l k with
      | Next k => queue_run ls k
      | Disabled => queue_run ls k
      | Fault e => Fault e
      end
  end.
End ops.
#[global] Arguments Queue : clear implicits.
#[global] Arguments queue_label : clear implicits.

Section ops_inv.
Context {T : Type}.
Implicit Types (s : Spsc T) (k : Queue T).

(** [pop] is [try_dequeue] without its result. *)
Lemma pop_is_dequeue s s' : pop_step s = Next s' ↔ consumer_step s = Next s'.
Proof. unfold pop_step, consumer_step, deref. destruct (cp s); try done. repeat case_match; done. Qed.

Lemma pop_faults s e : pop_step s = Fault e → ∃ e', consumer_step s = Fault e'.
Proof.
  unfold pop_step, consumer_step, deref, consumer_to. destruct (cp s); try done; intros; repeat case_match;
    simplify_eq; eauto.
Qed.

(** [peek] takes the steps of [try_dequeue] until it returns. *)
Lemma peek_goes_on s s' : peek_step s = Next (s', None) → consumer_step s = Next s'.
Proof.
  unfold peek_step, consumer_step, deref, consumer_to. destruct (cp s); try done; intros;
    repeat case_match; simplify_eq; try done.
Qed.
Lemma peek_faults s e : peek_step s = Fault e → ∃ e', consumer_step s = Fault e'.
Proof.
  unfold peek_step, consumer_step, deref, consumer_to. destruct (cp s); try done; intros;
    repeat case_match; simplify_eq; eauto.
Qed.

(** Where a [peek] can be, and where it has returned. *)
Definition peeking (c : ConsumerPc T) : Prop :=
  match c with
  | CStart _ | CTail _ _ _ | CTailBlock _ _ | CRecheck | CNext _ | CNextTail _ _ => True
  | _ => False
  end.

Definition peeked s (p : option pointer) : Prop :=
  match p with
  | None => ∃ n, cp s = CEmpty n
  | Some (i, pos) => cp s = CMove i pos ∨ ∃ fb, cp s = CNextTail fb i ∧ block_at s i (λ b, front b = pos)
  end.

Lemma peek_returns s s' p :
  peek_step s = Next (s', Some p) →
  peeked s' p ∧ (consumer_step s = Next s' ∨ s' = s).
Proof.
  unfold peek_step, consumer_step, deref, consumer_to. destruct s as [q0 pp0 [] en de]; cbn [cp q];
    try done; intros; repeat case_match; simplify_eq; simpl; (split; [|by auto]); eauto.
  right. eexists. split; [done|]. by eexists.
Qed.

Lemma peek_stays s s' : peek_step s = Next (s', None) → peeking (cp s').
Proof. unfold peek_step. destruct (cp s); try done; intros; repeat case_match; by simplify_eq. Qed.

Definition call_ok k : Prop :=
  match call k with
  | InDequeue | InPop => True
  | InPeek => peeking (cp (qs k))
  | Peeked p => peeked (qs k) p
  end.

Definition queue_inv k : Prop := (∃ A B its, inv (qs k) A B its) ∧ call_ok k.

(** The producer leaves the fronts alone. *)
Lemma producer_keeps_front m s s' i b :
  producer_step m s = Next s' → blocks (q s) !! i = Some b →
  ∃ b', blocks (q s') !! i = Some b' ∧ front b' = front b.
Proof.
  intros Hs Hb.
  assert (∀ j f, (∀ b, front (f b) = front b) →
    ∃ b', alter f j (blocks (q s)) !! i = Some b' ∧ front b' = front b) as Halter.
  { intros j f Hf. destruct (decide (j = i)) as [->|].
    - exists (f b). by rewrite list_lookup_alter_eq, Hb.
    - exists b. by rewrite list_lookup_alter_ne. }
  unfold producer_step, construct, deref, producer_to, producer_done in Hs.
  repeat (case_match; simplify_eq/=); try (by eexists); try (by apply Halter).
  all: try (exists b; by rewrite (lookup_app_l_Some _ _ _ _ Hb)).
Qed.

Lemma call_ok_producer k s' c m :
  producer_step m (qs k) = Next s' → call k = c → call_ok k → call_ok {| qs := s'; call := c |}.
Proof.
  intros Hs <- Hok. pose proof (producer_step_rank _ _ _ Hs) as [_ Ecp].
  unfold call_ok in *. cbn [call qs]. destruct (call k) as [| | |[[i pos]|]]; simpl in *; rewrite ?Ecp; try done.
  destruct Hok as [?|(fb & ? & b & Hb & Hf)]; [by left|]. right. exists fb. split; [done|].
  destruct (producer_keeps_front _ _ _ _ _ Hs Hb) as (b' & Hb' & Hf'). exists b'. split; [done|congruence].
Qed.

Definition queue_safe (r : step_result (Queue T)) : Prop :=
  match r with
  | Next k => queue_inv k
  | Disabled => True
  | Fault _ => False
  end.

Lemma queue_step_safe l k : queue_inv k → queue_safe (queue_step l k).
Proof.
  intros [(A & B & its & Hi) Hok]. pose proof (consumer_safe _ _ _ _ Hi) as Hcs.
  assert (∀ c s', (∃ A B its, inv s' A B its) → call_ok {| qs := s'; call := c |} →
    queue_inv {| qs := s'; call := c |}) as Hnew by done.
  destruct l as [x mode|m|c|]; simpl.
  - pose proof (step_safe (LEnqueue x mode) _ _ _ _ Hi) as Hs. simpl in Hs.
    destruct (pp (qs k)) eqn:E; try done; (split; [exact Hs|]); unfold call_ok in *; simpl;
      destruct (call k) as [| | |[[]|]]; done.
  - pose proof (producer_safe _ _ _ _ m Hi) as Hs. destruct (producer_step m (qs k)) as [s'| |] eqn:E; try done.
    split; [exact Hs|]. by eapply call_ok_producer.
  - assert (∀ c, match c with Peeked _ => False | _ => True end →
      consumer_idle k = true → queue_safe (lift_queue c (consumer_to (CStart (length (enqueued (qs k)))) (q (qs k)) (qs k))))
      as Hcall.
    { intros c' Hc' Hidle. split; [|unfold call_ok; by destruct c'].
      apply (consumer_pc _ A B its); [done| |].
      - intros i. unfold consumer_idle, call_ok in *.
        destruct (call k) as [| | |[[j pos]|]]; try (by destruct (cp (qs k))); simpl in Hok.
        + by destruct Hok as [->|(fb & -> & _)].
        + by destruct Hok as [n ->].
      - intros s' Eq Ep En Ed. unfold consumer_ok. by rewrite Ep, En. }
    destruct c as [| | |p]; try done; (destruct (consumer_idle k) eqn:E; [|done]); by apply Hcall.
  - destruct (call k) as [| | |p] eqn:Ec; [| | |done].
    + by destruct (consumer_step (qs k)) as [s'| |].
    + destruct (pop_step (qs k)) as [s'| |e] eqn:E; [|done|].
      * apply pop_is_dequeue in E. by rewrite E in Hcs.
      * apply pop_faults in E as [e' E]. by rewrite E in Hcs.
    + destruct (peek_step (qs k)) as [[s' [p|]]| |e] eqn:E; [| |done|].
      * apply peek_returns in E as [Hp [E| ->]]; [rewrite E in Hcs|]; (split; [|done]); [done|by eauto].
      * pose proof (peek_stays _ _ E) as Hp. apply peek_goes_on in E. by rewrite E in Hcs.
      * apply peek_faults in E as [e' E]. by rewrite E in Hcs.
Qed.

Lemma queue_run_safe ls k : queue_inv k → ∃ k', queue_run ls k = Next k' ∧ queue_inv k'.
Proof.
  revert k. induction ls as [|l ls IH]; intros k Hk; simpl; [by eauto|].
  pose proof (queue_step_safe l _ Hk) as Hs. destruct (queue_step l k) as [k1| |]; [|by eauto|done].
  by apply IH.
Qed.

(** A pointer that [peek] returned is to the next element. *)
Lemma peeked_next k i pos :
  queue_inv k → call k = Peeked (Some (i, pos)) →
  ∃ b v rest, blocks (q (qs k)) !! i = Some b ∧ data b !! pos = Some v ∧
    enqueued (qs k) = dequeued (qs k) ++ v :: rest.
Proof.
  intros [(A & B & its & Hi) Hok] Ec. unfold call_ok in Hok. rewrite Ec in Hok.
  pose proof (v_core _ _ _ _ Hi) as Hc. pose proof (v_consumer _ _ _ _ Hi) as Hk. unfold consumer_ok in Hk.
  destruct Hok as [E|(fb & E & b1 & Hb1 & <-)]; rewrite E in Hk.
  - destruct Hk as (-> & Hne & b & Hb & -> & _). destruct (front_block _ _ _ _ Hc) as (b' & Hb' & Hh).
    rewrite Hb in Hb'. injection Hb' as <-. rewrite E in Hh. simpl in Hh.
    destruct (its (frontBlock (q (qs k)))) as [|v rest] eqn:Ei; [done|]. destruct (c_front _ _ _ _ Hc) as [A1 EA].
    exists b, v, (rest ++ concat (its <$> A1)). split_and!; [done|by apply (holds_move _ _ _ _ Hh)|].
    rewrite (c_content _ _ _ _ Hc), EA. csimpl. by rewrite Ei.
  - destruct Hk as (Ei & A1 & EA). assert (i ∈ A ++ B) as Hin by (rewrite EA; set_solver).
    destruct (c_blocks _ _ _ _ Hc i Hin) as (b & Hb & Hh). rewrite Hb1 in Hb. injection Hb as <-.
    assert (its i ≠ []) as Hne by (apply (c_full _ _ _ _ Hc); rewrite EA; simpl; set_solver).
    rewrite E in Hh. simpl in Hh. destruct (its i) as [|v rest] eqn:Ev; [done|].
    exists b1, v, (rest ++ concat (its <$> A1)). split_and!; [done|by apply (holds_move _ _ _ _ Hh)|].
    rewrite (c_content _ _ _ _ Hc), EA. csimpl. by rewrite Ei, Ev.
Qed.
End ops_inv.

(** C19: [pop] and [peek] work beside the producer.  Whatever the consumer
    calls ([try_dequeue], [pop] or [peek]) and however the accesses of the two
    sides interleave, nothing undefined happens and elements leave in the order
    they came; a pointer that [peek] returned stays, until the consumer's next
    call, a pointer to a live element, the very one that is removed next;
    [peek] returns null, and [pop] false, only if everything enqueued before
    the call had been removed; and [pop] removes one element otherwise. *)
Theorem peek_pop_fifo {T} (sz : Z) (ls : list (queue_label T)) :
  (1 ≤ sz < 2 ^ 63)%Z →
  ∃ k, queue_run ls (queue_init sz) = Next k ∧
    dequeued (qs k) `prefix_of` enqueued (qs k) ∧
    (∀ i pos, call k = Peeked (Some (i, pos)) →
       ∃ b v rest, blocks (q (qs k)) !! i = Some b ∧ data b !! pos = Some v ∧
         enqueued (qs k) = dequeued (qs k) ++ v :: rest) ∧
    (call k = Peeked None → ∃ n, cp (qs k) = CEmpty n ∧ n ≤ length (dequeued (qs k))) ∧
    (∀ n, cp (qs k) = CEmpty n → n ≤ length (dequeued (qs k))) ∧
    (∀ v, cp (qs k) = CGot v → ∃ l, dequeued (qs k) = l ++ [v]).
Proof.
  intros Hsz. assert (queue_inv (queue_init (T := T) sz)) as H0 by (split; [by apply init_inv|done]).
  destruct (queue_run_safe ls _ H0) as (k & Hr & Hk). exists k.
  pose proof Hk as [(A & B & its & Hi) Hok]. pose proof (v_consumer _ _ _ _ Hi) as Hc. unfold consumer_ok in Hc.
  split_and!; [done|..].
  - rewrite (c_content _ _ _ _ (v_core _ _ _ _ Hi)). by apply prefix_app_r.
  - intros i pos E. by apply peeked_next.
  - intros E. unfold call_ok in Hok. rewrite E in Hok. destruct Hok as [n En]. exists n. by rewrite En in Hc.
  - intros n E. by rewrite E in Hc.
  - intros v E. by rewrite E in Hc.
Qed.

(** Two elements: the second in a block of its own; [peek] past the first
    block, which [pop] has emptied. *)
Definition peek_run : list (queue_label nat) :=
  (QEnqueue 7 CanAlloc :: replicate 7 (QProducer true)) ++ [QCall InPeek; QConsumer] ++
  (QEnqueue 8 CanAlloc :: replicate 7 (QProducer true)) ++ [QConsumer; QCall InPop] ++ replicate 9 QConsumer ++
  QCall InPeek :: replicate 6 QConsumer ++ [QEnqueue 9 CanAlloc; QProducer true].

Lemma peek_pop_fifo_witness :
  ∃ k, queue_run peek_run (queue_init 1) = Next k ∧
    dequeued (qs k) = [7] ∧ call k = Peeked (Some (1, 0%Z)) ∧
    dequeued (qs k) `prefix_of` enqueued (qs k) ∧
    (∀ i pos, call k = Peeked (Some (i, pos)) →
       ∃ b v rest, blocks (q (qs k)) !! i = Some b ∧ data b !! pos = Some v ∧
         enqueued (qs k) = dequeued (qs k) ++ v :: rest).
Proof.
  destruct (peek_pop_fifo 1 peek_run) as (k & Hk & H1 & H2 & _); [lia|]. exists k.
  split; [done|]. vm_compute in Hk. injection Hk as <-. done.
Defined.

(** ** The ring holds every block *)

Section ring.
Context {T : Type}.
Implicit Types (s : Spsc T) (A B : list nat) (bs : list (Block T)).

Definition closed bs (C : list nat) : Prop := ∀ i j, i ∈ C → next_is bs i j → j ∈ C.

(** Along a chain a closed set goes on to the end. *)
Lemma closed_chain bs C l e x :
  chain bs l e → closed bs C → x ∈ l → x ∈ C → e ∈ C.
Proof.
  intros Hch Hcl. revert x. induction l as [|i l IH]; intros x Hx HC; [by apply elem_of_nil in Hx|].
  simpl in Hch. destruct Hch as [Hn Hch]. apply elem_of_cons in Hx as [->|Hx]; [|by eapply IH].
  apply (Hcl _ _ HC) in Hn. destruct l as [|j l]; [done|]. by apply (IH Hch j); [left|].
Qed.

Lemma closed_from_head bs C l e :
  chain bs l e → closed bs C → (∀ x, head l = Some x → x ∈ C) → ∀ x, x ∈ l → x ∈ C.
Proof.
  intros Hch Hcl. induction l as [|i l IH]; intros Hh x Hx; [by apply elem_of_nil in Hx|].
  simpl in Hch. destruct Hch as [Hn Hch]. pose proof (Hh i eq_refl) as Hi.
  apply elem_of_cons in Hx as [->|Hx]; [done|]. apply (IH Hch); [|done]. intros y Hy.
  destruct l as [|j l]; [done|]. injection Hy as <-. by eapply Hcl.
Qed.

(** A ring has no smaller closed part. *)
Lemma closed_ring bs C l e x :
  chain bs l e → head l = Some e → closed bs C → x ∈ l → x ∈ C → ∀ y, y ∈ l → y ∈ C.
Proof.
  intros Hch He Hcl Hx HC. apply (closed_from_head bs C l e Hch Hcl). intros y Hy.
  rewrite He in Hy. injection Hy as <-. by eapply closed_chain.
Qed.

Lemma ring_closed bs l e : chain bs l e → head l = Some e → closed bs l.
Proof.
  intros Hch He i j Hi (b & Hb & Hn). apply list_elem_of_split in Hi as (l1 & l2 & ->).
  apply chain_app in Hch as [_ [(b' & Hb' & Hn') _]]. rewrite Hb in Hb'. injection Hb' as <-.
  rewrite Hn in Hn'. injection Hn' as ->. destruct l2; simpl; [|set_solver].
  destruct l1; simpl in *; simplify_eq; set_solver.
Qed.

(** Every block is on the ring, or is the one about to be linked in. *)
Definition covers s A B : Prop :=
  ∀ i, is_Some (blocks (q s) !! i) → i ∈ A ++ B ∨ ∃ x tb, pp s = PLink x tb i.

Lemma inv_ring s A B its :
  inv s A B its → chain (blocks (q s)) (A ++ B) (frontBlock (q s)) ∧ head (A ++ B) = Some (frontBlock (q s)).
Proof.
  intros [Hc _ _ _ _]. split; [apply (c_chain _ _ _ _ Hc)|]. by destruct (c_front _ _ _ _ Hc) as [A1 ->].
Qed.

(** What the steps do to the links. *)
Lemma alter_next f j bs i k : (∀ b, next (f b) = next b) → next_is bs i k → next_is (alter f j bs) i k.
Proof. apply next_is_alter. Qed.

Lemma producer_links m s s' :
  producer_step m s = Next s' →
  (∃ x tb nb, pp s = PLink x tb nb ∧ s' = {| q := with_block tb (set_next (Some nb)) (q s); pp := PPublish x nb;
                                             cp := cp s; enqueued := enqueued s; dequeued := dequeued s |}) ∨
  ((∀ i j, next_is (blocks (q s)) i j → next_is (blocks (q s')) i j) ∧ frontBlock (q s') = frontBlock (q s) ∧
   (∀ x tb nb, pp s ≠ PLink x tb nb) ∧
   (length (blocks (q s')) = length (blocks (q s)) ∨
    length (blocks (q s')) = S (length (blocks (q s))) ∧ ∃ x tb, pp s' = PLink x tb (length (blocks (q s))))).
Proof.
  unfold producer_step, construct, deref, producer_to, producer_done. intros Hs.
  repeat (case_match; simplify_eq/=); try (left; by eauto 10); right; split_and!; try done;
    rewrite ?length_alter, ?length_app; eauto; try (intros i j; by apply alter_next).
  all: first [intros i j (b' & Hb' & Hn); exists b'; by rewrite (lookup_app_l_Some _ _ _ _ Hb')
             |right; simpl; split; [lia|]; eauto].
Qed.

Lemma consumer_links s s' :
  consumer_step s = Next s' →
  (∀ i j, next_is (blocks (q s)) i j → next_is (blocks (q s')) i j) ∧ pp s' = pp s ∧
  length (blocks (q s')) = length (blocks (q s)) ∧
  (frontBlock (q s') = frontBlock (q s) ∨ ∃ fb nf, cp s = CAdvance fb (frontBlock (q s')) nf).
Proof.
  unfold consumer_step, deref, consumer_to. intros Hs.
  repeat (case_match; simplify_eq/=); split_and!; try done; rewrite ?length_alter; eauto;
    intros i j; by apply alter_next.
Qed.

(** Steps that keep the links. *)
Lemma covers_keep s s' A B its A' B' its' :
  inv s A B its → covers s A B → inv s' A' B' its' →
  (∀ i j, next_is (blocks (q s)) i j → next_is (blocks (q s')) i j) →
  frontBlock (q s') ∈ A ++ B → ∀ i, i ∈ A ++ B → i ∈ A' ++ B'.
Proof.
  intros Hi Hcov Hi' Hnext Hfront. destruct (inv_ring _ _ _ _ Hi) as [Hch He], (inv_ring _ _ _ _ Hi') as [Hch' He'].
  pose proof (ring_closed _ _ _ Hch' He') as Hcl.
  apply (closed_ring (blocks (q s)) (A' ++ B') _ _ (frontBlock (q s')) Hch He); [|done|].
  - intros i j Hin Hn. by apply (Hcl i j), Hnext.
  - destruct (A' ++ B'); [done|]. injection He' as ->. by left.
Qed.

Lemma link_covers s s' A B its A' B' its' x tb nb :
  inv s A B its → covers s A B → pp s = PLink x tb nb →
  q s' = with_block tb (set_next (Some nb)) (q s) → inv s' A' B' its' → covers s' A' B'.
Proof.
  intros Hi Hcov Ep Eq Hi'. destruct (inv_ring _ _ _ _ Hi) as [Hch He], (inv_ring _ _ _ _ Hi') as [Hch' He'].
  pose proof (ring_closed _ _ _ Hch' He') as Hcl. pose proof (v_core _ _ _ _ Hi) as Hc.
  pose proof (v_producer _ _ _ _ Hi) as Hp. unfold producer_ok in Hp. rewrite Ep in Hp.
  destruct Hp as (-> & Hnb & bn & Hbn & _ & _ & bt & Hbt & En).
  set (tb := tailBlock (q s)) in *.
  assert (tb ∈ A ++ B) as Htb by (apply elem_of_app; left; by eapply tail_in).
  assert (nb ≠ tb) as Hne by (intros ->; done).
  assert (next_is (blocks (q s')) tb nb) as Htn.
  { rewrite Eq. exists (set_next (Some nb) bt). simpl. by rewrite list_lookup_alter_eq, Hbt. }
  assert (∀ i, i ∈ A ++ B → i ∈ A' ++ B') as Hall.
  { apply (closed_ring (blocks (q s)) (A' ++ B') _ _ (frontBlock (q s)) Hch He).
    - intros i j Hin (b & Hb & Hn). destruct (decide (i = tb)) as [->|Hit].
      + rewrite Hbt in Hb. injection Hb as <-. apply (Hcl nb); [by apply (Hcl tb)|].
        exists bn. rewrite Eq. simpl. rewrite list_lookup_alter_ne by done. by rewrite En.
      + apply (Hcl i j Hin). exists b. rewrite Eq. simpl. by rewrite list_lookup_alter_ne.
    - apply elem_of_app. left. by eapply front_in.
    - rewrite Eq in He'. simpl in He'. destruct (A' ++ B'); [done|]. injection He' as ->. by left. }
  intros i [b Hb]. left. rewrite Eq in Hb. simpl in Hb.
  assert (is_Some (blocks (q s) !! i)) as Hold.
  { apply lookup_lt_Some in Hb. rewrite length_alter in Hb. by apply lookup_lt_is_Some. }
  destruct (Hcov i Hold) as [?|(x' & tb' & E)]; [by apply Hall|]. rewrite Ep in E. injection E as <- <- <-.
  apply (Hcl tb); [by apply Hall|done].
Qed.

Lemma step_covers l s s' A B its A' B' its' :
  inv s A B its → covers s A B → spsc_step l s = Next s' → inv s' A' B' its' → covers s' A' B'.
Proof.
  intros Hi Hcov Hs Hi'. pose proof (v_core _ _ _ _ Hi) as Hc.
  assert (frontBlock (q s) ∈ A ++ B) as Hf by (apply elem_of_app; left; by eapply front_in).
  assert (q s' = q s → (∀ x tb i, pp s ≠ PLink x tb i ∨ pp s' = pp s) → covers s' A' B') as Hsame.
  { intros Eq Hpp i Hs'. rewrite Eq in Hs'. destruct (Hcov i Hs') as [Hin|(x & tb & E)].
    - left. eapply (covers_keep s s'); [done..| |by rewrite Eq|done]. by rewrite Eq.
    - right. destruct (Hpp x tb i) as [Hn|Epp]; [by apply Hn in E|]. rewrite Epp. eauto. }
  destruct l as [x mode|m| |]; cbn [spsc_step] in Hs.
  - apply Hsame; destruct (pp s); try done; injection Hs as <-; eauto.
  - apply producer_links in Hs as [(x & tb & nb & Ep & ->)|(Hn & Ef & Hnl & Hlen)].
    { eapply (link_covers s); [exact Hi|exact Hcov|exact Ep|reflexivity|exact Hi']. }
    intros i Hi1. destruct (decide (i < length (blocks (q s)))) as [Hlt|Hge].
    + left. destruct (Hcov i) as [Hin|(x & tb & E)]; [by apply lookup_lt_is_Some| |by apply Hnl in E].
      eapply (covers_keep s s'); [done..|by rewrite Ef|done].
    + right. apply lookup_lt_is_Some in Hi1. destruct Hlen as [Hlen|(Hlen & x & tb & Ep)]; [lia|].
      exists x, tb. rewrite Ep. f_equal. lia.
  - apply Hsame; destruct (cp s); try done; injection Hs as <-; eauto.
  - apply consumer_links in Hs as (Hn & Epp & Hlen & Hfr). intros i Hi1.
    assert (frontBlock (q s') ∈ A ++ B) as Hf'.
    { destruct Hfr as [->|(fb & nf & E)]; [done|]. pose proof (v_consumer _ _ _ _ Hi) as Hk. unfold consumer_ok in Hk.
      rewrite E in Hk. destruct Hk as (_ & (A1 & EA) & _). rewrite EA. set_solver. }
    destruct (Hcov i) as [Hin|?]; [|left; by eapply (covers_keep s s')|right; by rewrite Epp].
    apply lookup_lt_is_Some. apply lookup_lt_is_Some in Hi1. lia.
Qed.

Lemma init_covers (sz : Z) :
  (1 ≤ sz < 2 ^ 63)%Z → ∃ A B its, inv (spsc_init (T := T) sz) A B its ∧ covers (spsc_init sz) A B.
Proof.
  intros Hsz. destruct (init_inv (T := T) sz Hsz) as (A & B & its & Hi). exists A, B, its. split; [done|].
  destruct (inv_ring _ _ _ _ Hi) as [Hch He]. pose proof (ring_closed _ _ _ Hch He) as Hcl.
  assert (∃ n c, blocks (q (spsc_init (T := T) sz)) = ring n c ∧ frontBlock (q (spsc_init (T := T) sz)) = 0)
    as (n & c & Eb & Ef) by (unfold spsc_init, make_queue; simpl; destruct (_ <? _)%Z; eauto).
  intros i. rewrite Eb, Ef in *. intros Hs. left. apply lookup_lt_is_Some in Hs. unfold ring in Hs.
  rewrite length_fmap, length_seq in Hs. induction i as [|i IH].
  - destruct (A ++ B); [done|]. injection He as ->. by left.
  - apply (Hcl i); [apply IH; lia|]. eexists. split; [apply ring_lookup; lia|]. simpl. by rewrite decide_False by lia.
Qed.

(** Whatever run, the invariant, and every block on the ring. *)
Lemma run_covers ls s A B its :
  inv s A B its → covers s A B →
  ∃ s' A' B' its', spsc_run ls s = Next s' ∧ inv s' A' B' its' ∧ covers s' A' B'.
Proof.
  revert s A B its. induction ls as [|l ls IH]; intros s A B its Hi Hcov; simpl; [by eauto 10|].
  pose proof (step_safe l _ _ _ _ Hi) as Hs. destruct (spsc_step l s) as [s1| |] eqn:E; [|by eauto|done].
  destruct Hs as (A1 & B1 & its1 & Hi1). eapply IH; [done|]. by eapply (step_covers l s s1).
Qed.
End ring.
