(* ===== verification/QueueWalk.v ===== *)
(** * Walks round the ring of [ReaderWriterQueue]

    [src/queue/readerwriterqueue.hpp]: [size_approx], [max_capacity] and the
    destructor go once round the ring of blocks in a do-while loop.  The loop
    has the number of blocks as fuel, and a walk that ran out of it, or that
    followed a dangling pointer or destroyed in an empty slot, gives [None]. *)

From S2P Require Import Prelude SpscQueue QueueOps.
From Stdlib Require Import Lia.

Section walk.
Context {T : Type}.
Implicit Types (k : ReaderWriterQueue T) (b : Block T) (bs : list (Block T)).

(** [do { ...; block = block->next; } while (block != frontBlock_);] *)
Fixpoint ring_walk {A} (fuel : nat) (body : nat → Block T → A → option A) bs (frontBlock_ block : nat)
    (acc : A) : option A :=
  match fuel with
  | O => None
  | S fuel =>
      b ← bs !! block;
      acc ← body block b acc;
      nextBlock ← next b;
      if decide (nextBlock = frontBlock_) then Some acc
      else ring_walk fuel body bs frontBlock_ nextBlock acc
  end.

Definition walk {A} (body : nat → Block T → A → option A) k : A → option A :=
  ring_walk (length (blocks k)) body (blocks k) (frontBlock k) (frontBlock k).

Definition size_approx k : option Z :=
  walk (λ _ b result, Some (u64 (result + Z.land (u64 (tail b - front b)) (sizeMask b)))) k 0%Z.

Definition max_capacity k : option Z :=
  walk (λ _ b result, Some (u64 (result + sizeMask b))) k 0%Z.

(** The destructor's inner loop: destroy the objects between [i] and the tail;
    what it returns is the objects destroyed and what is left in the block. *)
Fixpoint destroy_items (fuel : nat) (sizeMask blockTail i : Z) (slots : gmap Z T) : option (list T * gmap Z T) :=
  if (i =? blockTail)%Z then Some ([], slots)
  else match fuel with
       | O => None
       | S fuel =>
           v ← slots !! i;
           '(vs, slots) ← destroy_items fuel sizeMask blockTail (Z.land (i + 1) sizeMask) (delete i slots);
           Some (v :: vs, slots)
       end.

(** What the destructor has done: the objects it destroyed, the blocks it
    freed, and the memory of these as it was then. *)
Record Destroyed := { objects : list T; freed : list nat; remains : list (gmap Z T) }.

Definition destructor k : option Destroyed :=
  walk (λ i b d,
    '(vs, slots) ← destroy_items (Z.to_nat (sizeMask b + 1)) (sizeMask b) (tail b) (front b) (data b);
    Some {| objects := objects d ++ vs; freed := freed d ++ [i]; remains := remains d ++ [slots] |})
  k {| objects := []; freed := []; remains := [] |}.

(** The move constructor: the new queue, and what is left of the other. *)
Definition move_construct (other : ReaderWriterQueue T) : ReaderWriterQueue T * ReaderWriterQueue T :=
  (other, {| blocks := ring 1 32; frontBlock := 0; tailBlock := 0; largestBlockSize := 32 |}).

(** Move assignment swaps. *)
Definition move_assign (this other : ReaderWriterQueue T) : ReaderWriterQueue T * ReaderWriterQueue T :=
  (other, this).

(** ** A walk visits the ring *)

Fixpoint visit {A} (body : nat → Block T → A → option A) bs (l : list nat) (acc : A) : option A :=
  match l with
  | [] => Some acc
  | i :: l => b ← bs !! i; acc ← body i b acc; visit body bs l acc
  end.

Lemma ring_walk_visits {A} (body : nat → Block T → A → option A) bs e i l fuel acc :
  chain bs (i :: l) e → e ∉ l → length (i :: l) ≤ fuel →
  ring_walk fuel body bs e i acc = visit body bs (i :: l) acc.
Proof.
  revert i fuel acc. induction l as [|j l IH]; intros i fuel acc Hch He Hf;
    (destruct fuel as [|fuel]; [simpl in Hf; lia|]); destruct Hch as [(b & Hb & Hn) Hch];
    cbn [ring_walk visit]; rewrite Hb; simpl; destruct (body i b acc) as [acc'|]; try done; simpl;
    rewrite Hn; simpl.
  - by rewrite decide_True.
  - rewrite decide_False by set_solver. apply IH; [done|set_solver|simpl in *; lia].
Qed.

Lemma ring_length (s : Spsc T) A B its : inv s A B its → length (A ++ B) ≤ length (blocks (q s)).
Proof.
  intros Hi. pose proof (v_core _ _ _ _ Hi) as Hc.
  rewrite <- (length_seq (length (blocks (q s))) 0). apply submseteq_length, NoDup_submseteq.
  - apply (c_nodup _ _ _ _ Hc).
  - intros i Hin. apply elem_of_seq. destruct (c_blocks _ _ _ _ Hc i Hin) as (b & Hb%lookup_lt_Some & _). lia.
Qed.

Lemma walk_visits {A} (body : nat → Block T → A → option A) (s : Spsc T) Al Bl its acc :
  inv s Al Bl its → walk body (q s) acc = visit body (blocks (q s)) (Al ++ Bl) acc.
Proof.
  intros Hi. pose proof (ring_length _ _ _ _ Hi) as Hlen. destruct (inv_ring _ _ _ _ Hi) as [Hch He].
  pose proof (c_nodup _ _ _ _ (v_core _ _ _ _ Hi)) as Hnd. unfold walk.
  destruct (Al ++ Bl) as [|i l]; [done|]. injection He as ->. apply list.NoDup_cons in Hnd as [Hnd _].
  by apply ring_walk_visits.
Qed.

(** A body that adds up a number for each block. *)
Lemma visit_sum (g : Block T → Z) bs l acc :
  (∀ i, i ∈ l → is_Some (bs !! i)) →
  visit (λ _ b r, Some (u64 (r + g b))) bs l (u64 acc) =
  Some (u64 (acc + foldr Z.add 0%Z ((λ i, from_option g 0%Z (bs !! i)) <$> l))).
Proof.
  revert acc. induction l as [|i l IH]; intros acc Hl; csimpl; [by rewrite Z.add_0_r|].
  destruct (Hl i) as [b Hb]; [by left|]. rewrite Hb. simpl.
  assert (u64 (u64 acc + g b) = u64 (acc + g b)) as ->
    by (unfold u64; by rewrite Zplus_mod_idemp_l).
  rewrite IH by (intros; apply Hl; by right). do 2 f_equal. lia.
Qed.
End walk.
#[global] Arguments Destroyed : clear implicits.

(** ** Sizes *)

Section sizes.
Context {T : Type}.
Implicit Types (s : Spsc T) (b : Block T).

(** Blocks have at most twice [MAX_BLOCK_SIZE] slots. *)
Definition small_blocks s : Prop :=
  (largestBlockSize (q s) ≤ 1024)%Z ∧ Forall (λ b, (sizeMask b < 1024)%Z) (blocks (q s)).

Lemma Forall_alter_mask (f : Block T → Block T) i bs :
  (∀ b, sizeMask (f b) = sizeMask b) → Forall (λ b, (sizeMask b < 1024)%Z) bs →
  Forall (λ b, (sizeMask b < 1024)%Z) (alter f i bs).
Proof. intros Hf Hb. apply Forall_alter; [done|]. intros b _ ?. by rewrite Hf. Qed.

Lemma step_small l s s' : small_blocks s → spsc_step l s = Next s' → small_blocks s'.
Proof.
  intros [Hl Hb] Hs. unfold small_blocks.
  destruct l as [x mode|m| |]; cbn [spsc_step] in Hs.
  - destruct (pp s); try done; by injection Hs as <-.
  - unfold producer_step, construct, deref, producer_to, producer_done, MAX_BLOCK_SIZE in Hs.
    repeat (case_match; simplify_eq/=); try (by split); try (split; [done|by apply Forall_alter_mask]);
      (split; [lia|]); (apply Forall_app; split; [done|]); (apply Forall_singleton; simpl; lia).
  - destruct (cp s); try done; by injection Hs as <-.
  - unfold consumer_step, deref, consumer_to in Hs.
    repeat (case_match; simplify_eq/=); try (by split); (split; [done|by apply Forall_alter_mask]).
Qed.

Lemma init_small sz : (1 ≤ sz < 2 ^ 63)%Z → small_blocks (spsc_init (T := T) sz).
Proof.
  intros Hsz. unfold small_blocks, spsc_init, make_queue, ring, MAX_BLOCK_SIZE. simpl.
  destruct (_ <? _)%Z eqn:E; simpl.
  - split; [lia|]. apply Forall_fmap, Forall_forall. intros i _. simpl. lia.
  - split; [lia|]. apply Forall_singleton. simpl. lia.
Qed.

(** What the two indices of a block tell. *)
Lemma block_length b hole items pend :
  holds b hole items pend → (sizeMask b < 1024)%Z →
  Z.land (u64 (tail b - front b)) (sizeMask b) = len items.
Proof.
  intros Hh Hm. destruct (h_pow _ _ _ _ Hh) as (n & Hn & En). pose proof (h_room _ _ _ _ Hh) as Hr.
  rewrite length_app in Hr. assert (n ≤ 10)%Z as Hn10.
  { destruct (decide (n ≤ 10)%Z); [done|]. exfalso. unfold size in En.
    pose proof (Z.pow_le_mono_r 2 11 n ltac:(lia) ltac:(lia)). lia. }
  replace (sizeMask b) with (Z.ones n) by (rewrite Z.ones_equiv; unfold size in En; lia).
  rewrite Z.land_ones by lia. rewrite <- En. unfold u64.
  replace (2 ^ 64)%Z with (size b * 2 ^ (64 - n))%Z by (rewrite En, <- Z.pow_add_r by lia; f_equal; lia).
  rewrite Z.rem_mul_r by (rewrite ?En; try apply Z.pow_nonzero; try apply Z.pow_pos_nonneg; lia).
  rewrite Z.mul_comm, Z.mod_add, Zmod_mod by lia.
  rewrite (h_tail _ _ _ _ Hh), Zminus_mod_idemp_l.
  replace (front b + len items - front b)%Z with (len items) by lia. apply Z.mod_small. lia.
Qed.

Definition publishing s : Z := match pp s with PPublish _ _ => 1 | _ => 0 end%Z.

Lemma sum_lengths (its : nat → list T) l :
  foldr Z.add 0%Z ((λ i, len (its i)) <$> l) = len (concat (its <$> l)).
Proof. induction l as [|i l IH]; csimpl; [done|]. rewrite IH, length_app. lia. Qed.

Lemma foldr_add_app (l1 l2 : list Z) :
  foldr Z.add 0%Z (l1 ++ l2) = (foldr Z.add 0 l1 + foldr Z.add 0 l2)%Z.
Proof. induction l1 as [|z l1 IH]; simpl; lia. Qed.

(** The elements in the free blocks: only the one about to be published. *)
Lemma free_count s A B its : inv s A B its → len (concat (its <$> B)) = publishing s.
Proof.
  intros Hi. pose proof (v_core _ _ _ _ Hi) as Hc. pose proof (v_producer _ _ _ _ Hi) as Hp.
  pose proof (c_nodup _ _ _ _ Hc) as (_ & _ & Hnd)%list.NoDup_app.
  assert (its <$> B = free_items (pp s) <$> B) as ->.
  { apply list_fmap_ext. intros j i Hj. by apply (c_free _ _ _ _ Hc), list_elem_of_lookup_2 with j. }
  unfold publishing, producer_ok in *.
  assert ((∀ i, free_items (pp s) i = []) → len (concat (free_items (pp s) <$> B)) = 0%Z) as Hnone.
  { intros Hf. clear -Hf. induction B as [|i B IH]; csimpl; [done|]. by rewrite Hf. }
  destruct (pp s) as [| | | | | | | | | | |x tbn|] eqn:Ep; try (by apply Hnone).
  destruct Hp as [Hh _]. destruct B as [|i B]; [done|]. injection Hh as ->. apply list.NoDup_cons in Hnd as [Hni Hnd].
  assert (concat (free_items (PPublish x tbn) <$> B) = []) as E.
  { clear -Hni. induction B as [|i B IH]; csimpl; [done|]. rewrite decide_False by set_solver.
    apply IH. set_solver. }
  rewrite fmap_cons. simpl. rewrite decide_True by done. simpl in E |- *. by rewrite E.
Qed.

Lemma size_counts s A B its :
  inv s A B its → small_blocks s →
  size_approx (q s) = Some (u64 (len (enqueued s) - len (dequeued s) + publishing s)).
Proof.
  intros Hi [_ Hsm]. pose proof (v_core _ _ _ _ Hi) as Hc. unfold size_approx.
  rewrite (walk_visits _ _ _ _ _ _ Hi). change 0%Z with (u64 0) at 1.
  rewrite (visit_sum (λ b, Z.land (u64 (tail b - front b)) (sizeMask b))).
  2: { intros i Hin. destruct (c_blocks _ _ _ _ Hc i Hin) as (b & -> & _). by eexists. }
  rewrite (list_fmap_ext _ (λ i, len (its i))).
  2: { intros j i Hj%list_elem_of_lookup_2. destruct (c_blocks _ _ _ _ Hc i Hj) as (b & Hb & Hh). rewrite Hb. simpl.
       eapply block_length; [done|]. by eapply Forall_lookup_1 in Hsm. }
  rewrite sum_lengths, fmap_app, concat_app, length_app, Nat2Z.inj_add, (free_count _ _ _ _ Hi).
  rewrite (c_content _ _ _ _ Hc), length_app. do 2 f_equal. lia.
Qed.
End sizes.

(** ** The destructor *)

Section destroy.
Context {T : Type}.
Implicit Types (s : Spsc T) (b : Block T) (d : Destroyed T).

Lemma destroy_holds fuel b items :
  holds b false items [] → length items ≤ fuel →
  ∃ slots, destroy_items fuel (sizeMask b) (tail b) (front b) (data b) = Some (items, slots) ∧
    ∀ pos, (0 ≤ pos ≤ sizeMask b)%Z → slots !! pos = None.
Proof.
  revert b items. induction fuel as [|fuel IH]; intros b items Hh Hf.
  - destruct items as [|v items]; [|simpl in Hf; lia]. exists (data b). simpl.
    rewrite (proj2 (Z.eqb_eq _ _)) by (by eapply holds_empty). split; [done|]. intros pos Hpos.
    pose proof (h_front _ _ _ _ Hh) as Hfr. unfold size in Hfr.
    pose proof (h_slots _ _ _ _ Hh (Z.to_nat ((pos - front b) mod size b))) as Hs. unfold size in *.
    rewrite Z2Nat.id in Hs by (apply Z.mod_pos_bound; lia). simpl in Hs.
    rewrite Zplus_mod_idemp_r in Hs. replace (front b + (pos - front b))%Z with pos in Hs by lia.
    rewrite (Z.mod_small pos) in Hs by lia. rewrite Hs by (apply Z.mod_pos_bound; lia). done.
  - destruct items as [|v items].
    { destruct (IH b [] Hh) as (slots & E & Hn); [simpl; lia|]. exists slots. split; [|done]. simpl.
      rewrite (proj2 (Z.eqb_eq _ _)) by (by eapply holds_empty).
      assert (front b = tail b) as Eft by (by eapply holds_empty). destruct fuel; simpl in E;
        rewrite (proj2 (Z.eqb_eq _ _)) in E by done; done. }
    simpl. rewrite (proj2 (Z.eqb_neq _ _)) by (intros E%(holds_empty _ _ _ _ Hh); done).
    destruct (holds_move _ _ _ _ Hh) as [-> Hm]. apply holds_pop in Hm. simpl in Hm, Hf.
    destruct (IH _ _ Hm) as (slots & E & Hn); [lia|]. exists slots. simpl in E, Hn |- *.
    rewrite E. done.
Qed.

(** Nobody is at work on the queue. *)
Definition quiescent s : Prop := producer_rank (pp s) = 0 ∧ consumer_rank (cp s) = 0.

Lemma quiescent_block s A B its i :
  inv s A B its → quiescent s → i ∈ A ++ B →
  ∃ b, blocks (q s) !! i = Some b ∧ holds b false (its i) [].
Proof.
  intros Hi [Hp Hc] Hin. destruct (c_blocks _ _ _ _ (v_core _ _ _ _ Hi) i Hin) as (b & Hb & Hh). exists b.
  split; [done|]. by destruct (pp s); try done; destruct (cp s).
Qed.

Definition emptied (bs : list (Block T)) (i : nat) (slots : gmap Z T) : Prop :=
  ∃ b, bs !! i = Some b ∧ ∀ pos, (0 ≤ pos ≤ sizeMask b)%Z → slots !! pos = None.

Lemma visit_destroys bs (its : nat → list T) l d :
  (∀ i, i ∈ l → ∃ b, bs !! i = Some b ∧ holds b false (its i) []) →
  Forall2 (emptied bs) (freed d) (remains d) →
  ∃ d', visit (λ i b d,
      '(vs, slots) ← destroy_items (Z.to_nat (sizeMask b + 1)) (sizeMask b) (tail b) (front b) (data b);
      Some {| objects := objects d ++ vs; freed := freed d ++ [i]; remains := remains d ++ [slots] |}) bs l d = Some d' ∧
    objects d' = objects d ++ concat (its <$> l) ∧ freed d' = freed d ++ l ∧
    Forall2 (emptied bs) (freed d') (remains d').
Proof.
  revert d. induction l as [|i l IH]; intros d Hl Hd; csimpl; [exists d; by rewrite !app_nil_r|].
  destruct (Hl i) as (b & Hb & Hh); [by left|]. rewrite Hb. simpl.
  destruct (destroy_holds (Z.to_nat (sizeMask b + 1)) b (its i) Hh) as (slots & E & Hn).
  { pose proof (h_room _ _ _ _ Hh) as Hr. rewrite app_nil_r in Hr. unfold size in Hr. lia. }
  rewrite E. simpl.
  destruct (IH {| objects := objects d ++ its i; freed := freed d ++ [i]; remains := remains d ++ [slots] |})
    as (d' & Hv & Ho & Hf & Hr).
  - intros j Hj. apply Hl. by right.
  - simpl. apply Forall2_app; [done|]. constructor; [by exists b|constructor].
  - exists d'. split_and!; [done|by rewrite Ho; simpl; rewrite app_assoc|by rewrite Hf; simpl; rewrite <- app_assoc|done].
Qed.

(** With nobody about to link a block in, the ring is all the blocks. *)
Lemma ring_is_all s A B its :
  inv s A B its → covers s A B → producer_rank (pp s) = 0 → A ++ B ≡ₚ seq 0 (length (blocks (q s))).
Proof.
  intros Hi Hcov Hp. pose proof (v_core _ _ _ _ Hi) as Hc.
  apply NoDup_Permutation; [apply (c_nodup _ _ _ _ Hc)|apply NoDup_seq|]. intros i. rewrite elem_of_seq. split.
  - intros Hin. destruct (c_blocks _ _ _ _ Hc i Hin) as (b & Hb%lookup_lt_Some & _). lia.
  - intros [_ Hlt]. destruct (Hcov i) as [?|(x & tb & E)]; [by apply lookup_lt_is_Some|done|]. by rewrite E in Hp.
Qed.

Lemma run_small ls s s' : small_blocks s → spsc_run ls s = Next s' → small_blocks s'.
Proof.
  revert s. induction ls as [|l ls IH]; intros s Hs; simpl; [by intros [= <-]|].
  destruct (spsc_step l s) as [s1| |] eqn:E; [|by apply IH|done]. apply IH. by eapply step_small.
Qed.

(** What is known of a state that a run from the constructor reaches. *)
Lemma reached ls sz s :
  (1 ≤ sz < 2 ^ 63)%Z → spsc_run ls (spsc_init sz) = Next s →
  ∃ A B its, inv s A B its ∧ covers s A B ∧ small_blocks s.
Proof.
  intros Hsz Hr. destruct (init_covers (T := T) sz Hsz) as (A & B & its & Hi & Hcov).
  destruct (run_covers ls _ _ _ _ Hi Hcov) as (s1 & A1 & B1 & its1 & Hr1 & Hi1 & Hcov1).
  rewrite Hr in Hr1. injection Hr1 as <-. exists A1, B1, its1. split_and!; [done..|].
  eapply run_small; [|done]. by apply init_small.
Qed.
End destroy.

(** C20: destroying the queue leaks nothing and destroys nothing twice.  From
    any state that can be reached in which neither side is at work, the
    destructor ends, follows no dangling pointer and destroys exactly the
    elements that were enqueued and not dequeued, oldest first; every block
    that was ever allocated is freed, each once, and no slot of it still holds
    an object.  Before it, [size_approx] is the number of these elements. *)
Theorem destructor_destroys_all {T} (sz : Z) (ls : list (spsc_label T)) (s : Spsc T) :
  (1 ≤ sz < 2 ^ 63)%Z → spsc_run ls (spsc_init sz) = Next s → quiescent s →
  ∃ d, destructor (q s) = Some d ∧
    enqueued s = dequeued s ++ objects d ∧
    freed d ≡ₚ seq 0 (length (blocks (q s))) ∧
    Forall2 (emptied (blocks (q s))) (freed d) (remains d) ∧
    size_approx (q s) = Some (u64 (Z.of_nat (length (objects d)))).
Proof.
  intros Hsz Hr Hq. destruct (reached ls sz s Hsz Hr) as (A & B & its & Hi & Hcov & Hsm).
  pose proof (v_core _ _ _ _ Hi) as Hc.
  destruct (visit_destroys (blocks (q s)) its (A ++ B) {| objects := []; freed := []; remains := [] |})
    as (d & Hd & Ho & Hf & Hrem); [by intros i; eapply quiescent_block|constructor|].
  simpl in Ho, Hf. exists d.
  assert (concat (its <$> B) = []) as HB.
  { apply nil_length_inv. pose proof (free_count _ _ _ _ Hi) as Hfc. unfold publishing in Hfc.
    destruct Hq as [Hq _]. destruct (pp s); try done; lia. }
  assert (enqueued s = dequeued s ++ objects d) as He
    by (by rewrite Ho, fmap_app, concat_app, HB, app_nil_r, (c_content _ _ _ _ Hc)).
  split_and!; [|done|by rewrite Hf; eapply ring_is_all, Hq|done|].
  - unfold destructor. rewrite (walk_visits _ _ _ _ _ _ Hi). exact Hd.
  - rewrite (size_counts _ _ _ _ Hi Hsm), He, length_app. do 2 f_equal. unfold publishing.
    destruct Hq as [Hq _]. destruct (pp s); try done; lia.
Qed.

Lemma destructor_destroys_all_witness :
  ∃ s, spsc_run (demo_enqueue 1 ++ demo_enqueue 2 ++ demo_enqueue 3 ++ demo_dequeue) (spsc_init 1) = Next s ∧
    length (blocks (q s)) = 2 ∧
    ∃ d, destructor (q s) = Some d ∧ enqueued s = dequeued s ++ objects d ∧
      freed d ≡ₚ seq 0 (length (blocks (q s))) ∧
      Forall2 (emptied (blocks (q s))) (freed d) (remains d) ∧
      size_approx (q s) = Some (u64 (Z.of_nat (length (objects d)))).
Proof.
  eexists. split; [vm_compute; reflexivity|]. split; [vm_compute; reflexivity|].
  eapply (destructor_destroys_all 1 (demo_enqueue 1 ++ demo_enqueue 2 ++ demo_enqueue 3 ++ demo_dequeue));
    [lia|vm_compute; reflexivity|vm_compute; by split].
Defined.

Lemma sum_perm (l l' : list Z) : l ≡ₚ l' → foldr Z.add 0%Z l = foldr Z.add 0%Z l'.
Proof. induction 1; simpl; lia. Qed.

(** [max_capacity] adds up all the blocks. *)
Lemma max_capacity_sum {T} (sz : Z) (ls : list (spsc_label T)) (s : Spsc T) :
  (1 ≤ sz < 2 ^ 63)%Z → spsc_run ls (spsc_init sz) = Next s → producer_rank (pp s) = 0 →
  max_capacity (q s) = Some (u64 (foldr Z.add 0%Z (sizeMask <$> blocks (q s)))).
Proof.
  intros Hsz Hr Hp. destruct (reached ls sz s Hsz Hr) as (A & B & its & Hi & Hcov & _).
  pose proof (v_core _ _ _ _ Hi) as Hc. unfold max_capacity. rewrite (walk_visits _ _ _ _ _ _ Hi).
  change 0%Z with (u64 0) at 1. rewrite visit_sum.
  2: { intros i Hin. destruct (c_blocks _ _ _ _ Hc i Hin) as (b & -> & _). by eexists. }
  rewrite Z.add_0_l. do 2 f_equal. rewrite (sum_perm _
    ((λ i, from_option sizeMask 0%Z (blocks (q s) !! i)) <$> seq 0 (length (blocks (q s))))).
  - f_equal. apply list_eq. intros i. rewrite !list_lookup_fmap.
    destruct (decide (i < length (blocks (q s)))) as [Hlt|Hge].
    + rewrite lookup_seq_lt by done. destruct (lookup_lt_is_Some_2 _ _ Hlt) as [b Hb]. simpl. by rewrite Hb.
    + rewrite lookup_seq_ge, lookup_ge_None_2 by lia. done.
  - by apply fmap_Permutation, (ring_is_all _ _ _ its).
Qed.

(** For more than [MAX_BLOCK_SIZE] elements there may still be a single block,
    up to twice that size; and a block that is added is twice the last one. *)
Example one_block_for_600 :
  sizeMask <$> blocks (make_queue (T := nat) 600) = [1023%Z].
Proof. vm_compute. reflexivity. Qed.

Example added_block_is_larger :
  match spsc_run (demo_enqueue 1 ++ demo_enqueue 2 ++ demo_enqueue 3 ++ demo_enqueue 4) (spsc_init 3) with
  | Next s => (λ b, sizeMask b + 1)%Z <$> blocks (q s)
  | _ => []
  end = [4; 8]%Z.
Proof. vm_compute. reflexivity. Qed.
