(* ===== verification/BlockingQueue.v ===== *)
(** * [BlockingReaderWriterQueue] and [LightweightSemaphore]

    [src/queue/readerwriterqueue.hpp] and [src/queue/atomicops.hpp]: the queue
    of [SpscQueue] with a semaphore that counts its elements.  The operating
    system's semaphore is its count [m_sema]; a wait on it takes one unit when
    there is one, or fails (a timeout, an error).  Steps are accesses to shared
    memory, as in [SpscQueue]. *)

From S2P Require Import Prelude SpscQueue QueueOps QueueWalk.
From Stdlib Require Import Lia.

Section blocking.
Context {T : Type}.

(** Where [enqueue] or [try_enqueue] is: inside the inner operation, in [sema->signal()] before the
    count is raised or before the semaphore is posted, or done. *)
Inductive BProducerPc := BIdle | BEnqueue | BSignal | BPost | BDone (ok : bool).

(** Which operation the consumer runs: [try_dequeue], [pop], or
    [wait_dequeue_timed(timeout_usecs)] (a negative timeout waits for ever). *)
Inductive ConsumerOp := OpTry | OpPop | OpTimed (timeout_usecs : Z).

(** Where it is: in [tryWait] before the load or the decrement, in the loops of
    [waitWithPartialSpinning], inside [inner.try_dequeue], or done. *)
Inductive BConsumerPc :=
| WIdle
| WTry (op : ConsumerOp)
| WDec
| WSpin (spin : nat) (timeout_usecs : Z)
| WBlock (timeout_usecs : Z)
| WWait (timeout_usecs : Z)
| WRestore
| WRetry
| WTryWait
| WInner
| WFalse (signalled_then : nat)
| WGot (v : T).

(** [signalled] counts the raised counts, [taken] the successful waits;
    [inner_call] is the operation of the inner queue that the call ends in. *)
Record Blocking := {
  inner : Spsc T;
  m_count : Z;
  m_sema : nat;
  bp : BProducerPc;
  bc : BConsumerPc;
  inner_call : ConsumerCall;
  signalled : nat;
  taken : nat;
}.

Definition bp_to (pc : BProducerPc) (s : Blocking) : Blocking :=
  {| inner := inner s; m_count := m_count s; m_sema := m_sema s; bp := pc; bc := bc s; inner_call := inner_call s;
     signalled := signalled s; taken := taken s |}.
Definition bc_to (pc : BConsumerPc) (s : Blocking) : Blocking :=
  {| inner := inner s; m_count := m_count s; m_sema := m_sema s; bp := bp s; bc := pc; inner_call := inner_call s;
     signalled := signalled s; taken := taken s |}.
Definition set_inner (i : Spsc T) (s : Blocking) : Blocking :=
  {| inner := i; m_count := m_count s; m_sema := m_sema s; bp := bp s; bc := bc s; inner_call := inner_call s;
     signalled := signalled s; taken := taken s |}.
Definition add_count (d : Z) (s : Blocking) : Blocking :=
  {| inner := inner s; m_count := m_count s + d; m_sema := m_sema s; bp := bp s; bc := bc s; inner_call := inner_call s;
     signalled := signalled s; taken := taken s |}.
Definition set_sema (n : nat) (s : Blocking) : Blocking :=
  {| inner := inner s; m_count := m_count s; m_sema := n; bp := bp s; bc := bc s; inner_call := inner_call s;
     signalled := signalled s; taken := taken s |}.
Definition calls (op : ConsumerOp) (s : Blocking) : Blocking :=
  {| inner := inner s; m_count := m_count s; m_sema := m_sema s; bp := bp s; bc := WTry op;
     inner_call := match op with OpPop => InPop | _ => InDequeue end;
     signalled := signalled s; taken := taken s |}.
Definition note_signal (s : Blocking) : Blocking :=
  {| inner := inner s; m_count := m_count s; m_sema := m_sema s; bp := bp s; bc := bc s; inner_call := inner_call s;
     signalled := S (signalled s); taken := taken s |}.

(** The wait returned true: the consumer goes on to the inner queue. *)
Definition acquired (s : Blocking) : Blocking :=
  {| inner := inner s; m_count := m_count s; m_sema := m_sema s; bp := bp s; bc := WInner; inner_call := inner_call s;
     signalled := signalled s; taken := S (taken s) |}.

Definition lift_inner (r : step_result (Spsc T)) (s : Blocking) : step_result Blocking :=
  match r with
  | Next i => Next (set_inner i s)
  | Disabled => Disabled
  | Fault e => Fault e
  end.

(** [enqueue] and [signal] *)
Definition bproducer_step (malloc_ok : bool) (s : Blocking) : step_result Blocking :=
  match bp s with
  | BIdle | BDone _ => Disabled
  | BEnqueue =>
      match pp (inner s) with
      | PDone ok => Next (bp_to (if (ok : bool) then BSignal else BDone false) s)
      | _ => lift_inner (spsc_step (LProducer malloc_ok) (inner s)) s
      end
  | BSignal =>
      let oldCount := m_count s in
      if (oldCount <? -1)%Z then Fault "assertion: oldCount >= -1"
      else Next (bp_to (if (oldCount <? 0)%Z then BPost else BDone true) (note_signal (add_count 1 s)))
  | BPost => Next (bp_to (BDone true) (set_sema (S (m_sema s)) s))
  end.

(** A step of [inner.try_dequeue] or of [inner.pop]. *)
Definition inner_step (s : Blocking) : step_result (Spsc T) :=
  match inner_call s with InPop => pop_step (inner s) | _ => consumer_step (inner s) end.

(** [try_dequeue], [pop], [wait_dequeue_timed], [tryWait] and
    [waitWithPartialSpinning]; [took] is whether a wait on the operating
    system's semaphore takes a unit or fails. *)
Definition bconsumer_step (took : bool) (s : Blocking) : step_result Blocking :=
  match bc s with
  | WIdle | WFalse _ | WGot _ => Disabled
  | WTry op =>
      if (0 <? m_count s)%Z then Next (bc_to WDec s)
      else Next (bc_to match op with
                       | OpTry | OpPop => WFalse (signalled s)
                       | OpTimed timeout_usecs => WSpin 1024 timeout_usecs
                       end s)
  | WDec => Next (acquired (add_count (-1) s))
  | WSpin O timeout_usecs => Next (bc_to (WBlock timeout_usecs) s)
  | WSpin (S spin) timeout_usecs =>
      if (0 <? m_count s)%Z then Next (bc_to WDec s) else Next (bc_to (WSpin spin timeout_usecs) s)
  | WBlock timeout_usecs =>
      let oldCount := m_count s in
      let s := add_count (-1) s in
      if (0 <? oldCount)%Z then Next (acquired s) else Next (bc_to (WWait timeout_usecs) s)
  | WWait timeout_usecs =>
      if took then
        if (timeout_usecs =? 0)%Z then Disabled
        else match m_sema s with
             | O => Disabled
             | S n => Next (acquired (set_sema n s))
             end
      else Next (bc_to WRestore s)
  | WRestore =>
      let oldCount := m_count s in
      let s := add_count 1 s in
      if (oldCount <? 0)%Z then Next (bc_to (WFalse (signalled s)) s) else Next (bc_to WRetry s)
  | WRetry =>
      let oldCount := m_count s in
      let s := add_count (-1) s in
      if (0 <? oldCount)%Z then Next (bc_to WTryWait s) else Next (bc_to WRestore s)
  | WTryWait =>
      if took then
        match m_sema s with
        | O => Disabled
        | S n => Next (acquired (set_sema n s))
        end
      else Next (bc_to WRestore s)
  | WInner =>
      match cp (inner s) with
      | CGot v => Next (bc_to (WGot v) s)
      | CEmpty _ => Fault "assertion: success"
      | _ => lift_inner (inner_step s) s
      end
  end.

Inductive blocking_label :=
| BLEnqueue (x : T) (mode : AllocationMode)   (* the producer calls enqueue or try_enqueue *)
| BLProducer (malloc_ok : bool)
| BLConsume (op : ConsumerOp)       (* the consumer calls an operation *)
| BLConsumer (took : bool).

(** Entering [inner.try_dequeue] or [inner.pop] is part of the step that acquired. *)
Definition enter_inner (r : step_result Blocking) : step_result Blocking :=
  match r with
  | Next s =>
      match bc s, cp (inner s) with
      | WInner, (CIdle | CEmpty _ | CGot _) => lift_inner (spsc_step LDequeue (inner s)) s
      | _, _ => Next s
      end
  | r => r
  end.

Definition blocking_step (l : blocking_label) (s : Blocking) : step_result Blocking :=
  match l with
  | BLEnqueue x mode =>
      match bp s with
      | BIdle | BDone _ => lift_inner (spsc_step (LEnqueue x mode) (inner s)) (bp_to BEnqueue s)
      | _ => Disabled
      end
  | BLProducer malloc_ok => bproducer_step malloc_ok s
  | BLConsume op =>
      match bc s with WIdle | WFalse _ | WGot _ => Next (calls op s) | _ => Disabled end
  | BLConsumer took =>
      match bc s with
      | WInner => bconsumer_step took s
      | _ => enter_inner (bconsumer_step took s)
      end
  end.

Definition blocking_init (size : Z) : Blocking :=
  {| inner := spsc_init size; m_count := 0; m_sema := 0; bp := BIdle; bc := WIdle; inner_call := InDequeue;
     signalled := 0; taken := 0 |}.

(** [size_approx] is [availableApprox]. *)
Definition availableApprox (s : Blocking) : Z := if (0 <? m_count s)%Z then u64 (m_count s) else 0.

(** [wait_dequeue]: what it does next, until it has an element
    ([while (!sema->wait());] waits without a timeout again and again). *)
Definition wait_dequeue_next (took : bool) (s : Blocking) : option blocking_label :=
  match bc s with
  | WGot _ => None
  | WIdle | WFalse _ => Some (BLConsume (OpTimed (-1)))
  | _ => Some (BLConsumer took)
  end.

Fixpoint blocking_run (ls : list blocking_label) (s : Blocking) : step_result Blocking :=
  match ls with
  | [] => Next s
  | l :: ls =>
      match blocking_step l s with
      | Next s => blocking_run ls s
      | Disabled => blocking_run ls s
      | Fault e => Fault e
      end
  end.
End blocking.
#[global] Arguments Blocking : clear implicits.
#[global] Arguments blocking_label : clear implicits.
#[global] Arguments BConsumerPc : clear implicits.

(** ** The invariant *)

Section inv.
Context {T : Type}.
Implicit Types s : Blocking T.

(** The semaphore's unit that the producer is about to post. *)
Definition posting s : nat := match bp s with BPost => 1 | _ => 0 end.

(** The units not yet taken, against the two counts. *)
Definition sema_ok s : Prop :=
  let free := (Z.of_nat (signalled s) - Z.of_nat (taken s))%Z in
  match bc s with
  | WWait _ | WRestore =>
      m_count s = (free - 1)%Z ∧ (-1 ≤ m_count s)%Z ∧
      m_sema s + posting s = if (0 <=? m_count s)%Z then 1 else 0
  | WTryWait => m_count s = (free - 1)%Z ∧ (0 ≤ m_count s)%Z ∧ m_sema s + posting s = 1
  | WRetry => m_count s = free ∧ (1 ≤ m_count s)%Z ∧ m_sema s + posting s = 1
  | WDec => m_count s = free ∧ (1 ≤ m_count s)%Z ∧ m_sema s + posting s = 0
  | _ => m_count s = free ∧ (0 ≤ m_count s)%Z ∧ m_sema s + posting s = 0
  end.

(** Elements enqueued whose signal is still to come. *)
Definition unsignalled s : nat :=
  match bp s with
  | BSignal => 1
  | BEnqueue => finished (pp (inner s))
  | _ => 0
  end.

(** The consumer inside [inner.try_dequeue]: one unit taken, the element not
    yet removed, and enough elements for the call to find one. *)
Definition inside s : Prop :=
  length (dequeued (inner s)) + 1 = taken s + got (cp (inner s)) ∧
  (∀ n, call_size (cp (inner s)) = Some n → taken s ≤ n) ∧ cp (inner s) ≠ CIdle.

Definition outside s : Prop :=
  length (dequeued (inner s)) = taken s ∧ consumer_rank (cp (inner s)) = 0.

Record blocking_inv s : Prop := {
  b_inner : ∃ A B its, inv (inner s) A B its;
  b_sema : sema_ok s;
  b_enqueued : length (enqueued (inner s)) = signalled s + unsignalled s;
  b_consumer : match bc s with
               | WInner => inside s
               | WGot v => outside s ∧ cp (inner s) = CGot v
               | WFalse e => outside s ∧ e = taken s
               | _ => outside s
               end;
}.

Definition bsafe (r : step_result (Blocking T)) : Prop :=
  match r with
  | Next s => blocking_inv s
  | Disabled => True
  | Fault _ => False
  end.

Lemma taken_le s : blocking_inv s → taken s ≤ signalled s ∧ signalled s ≤ length (enqueued (inner s)).
Proof.
  intros [_ Hs He _]. split; [|lia]. unfold sema_ok in Hs. destruct (bc s); lia.
Qed.

(** *** The producer *)

Lemma bproducer_safe m s : blocking_inv s → bsafe (bproducer_step m s).
Proof.
  intros Hi. destruct Hi as [(A & B & its & Hin) Hs He Hc]. unfold bproducer_step. destruct (bp s) eqn:Ep; try done.
  - assert (∀ i, spsc_step (LProducer m) (inner s) = Next i → blocking_inv (set_inner i s)) as Hstep.
    { intros i Ei. pose proof (step_safe (LProducer m) _ _ _ _ Hin) as Hsafe. rewrite Ei in Hsafe.
      simpl in Ei. pose proof (producer_step_history _ _ _ Ei) as [Ed Ee].
      pose proof (producer_step_rank _ _ _ Ei) as [Hr Ec].
      constructor; [done|done| |].
      - simpl. rewrite Ee, He. unfold unsignalled. simpl. rewrite Ep.
        destruct (pp (inner s)); simpl in *; lia.
      - simpl. unfold inside, outside in *. simpl. by rewrite Ed, Ec. }
    assert (bsafe (lift_inner (spsc_step (LProducer m) (inner s)) s)) as Hgo.
    { pose proof (step_safe (LProducer m) _ _ _ _ Hin) as Hsafe.
      destruct (spsc_step _ _) as [i| |] eqn:Ei; simpl; [by apply Hstep|done|done]. }
    destruct (pp (inner s)) eqn:Epp; try done. constructor; simpl; [by eauto| | |done].
    + unfold sema_ok, posting in *. simpl. rewrite Ep in Hs. by destruct ok.
    + rewrite He. unfold unsignalled. simpl. rewrite Ep, Epp. by destruct ok.
  - unfold sema_ok, posting in Hs. rewrite Ep in Hs.
    assert (unsignalled s = 1) as Hu by (unfold unsignalled; by rewrite Ep).
    destruct (m_count s <? -1)%Z eqn:E1.
    { apply Z.ltb_lt in E1. simpl. destruct (bc s); lia. }
    apply Z.ltb_ge in E1. simpl. constructor; simpl; [by eauto| | |done].
    + unfold sema_ok, posting. simpl. destruct (m_count s <? 0)%Z eqn:E2.
      * apply Z.ltb_lt in E2. destruct (bc s); try lia; destruct Hs as (? & ? & Hs);
          rewrite (proj2 (Z.leb_gt _ _)) in Hs by lia; rewrite (proj2 (Z.leb_le _ _)) by lia; lia.
      * apply Z.ltb_ge in E2. destruct (bc s); try lia; destruct Hs as (? & ? & Hs);
          rewrite (proj2 (Z.leb_le _ _)) in Hs by lia; rewrite (proj2 (Z.leb_le _ _)) by lia; lia.
    + rewrite He, Hu. unfold unsignalled. simpl. destruct (m_count s <? 0)%Z; lia.
  - assert (unsignalled s = 0) as Hu by (unfold unsignalled; by rewrite Ep).
    constructor; simpl; [by eauto| |by rewrite He, Hu|done].
    unfold sema_ok, posting in *. simpl. rewrite Ep in Hs.
    destruct (bc s); destruct Hs as (? & ? & ?); split_and!; try done; try lia.
Qed.

(** *** The consumer *)

(** [pop] takes the steps of [try_dequeue]. *)
Lemma inner_step_spec s :
  match inner_step s with
  | Next i => consumer_step (inner s) = Next i
  | Disabled => True
  | Fault _ => ∃ e, consumer_step (inner s) = Fault e
  end.
Proof.
  unfold inner_step.
  assert (match consumer_step (inner s) with Fault _ => ∃ e, consumer_step (inner s) = Fault e | _ => True end)
    by (destruct (consumer_step (inner s)); eauto).
  destruct (inner_call s); try (by destruct (consumer_step (inner s))).
  destruct (pop_step (inner s)) eqn:E; [by apply pop_is_dequeue|done|by eapply pop_faults].
Qed.

(** A wait that succeeds enters the inner queue with a call that will find an
    element. *)
Lemma acquire_safe s :
  (∃ A B its, inv (inner s) A B its) → outside s →
  length (enqueued (inner s)) = signalled s + unsignalled s →
  m_count s = (Z.of_nat (signalled s) - Z.of_nat (S (taken s)))%Z → (0 ≤ m_count s)%Z →
  m_sema s + posting s = 0 →
  bsafe (enter_inner (Next (acquired s))).
Proof.
  intros (A & B & its & Hin) [Hd Hr] He Hm Hm0 Hp. cbn [enter_inner acquired bc inner].
  pose proof (step_safe LDequeue _ _ _ _ Hin) as Hsafe. simpl in Hsafe |- *.
  destruct (cp (inner s)) eqn:Ec; simpl in Hr; try done;
    (constructor; simpl; [done| |done|]; [unfold sema_ok; simpl; split_and!; [lia|lia|done]|];
     split_and!; simpl; [lia| |done]; intros n' [= <-]; lia).
Qed.

Lemma bconsumer_safe took s : blocking_inv s → bsafe (blocking_step (BLConsumer took) s).
Proof.
  intros Hi. pose proof (taken_le _ Hi) as [Hle _]. destruct Hi as [(A & B & its & Hin) Hs He Hc].
  assert (∀ pc, match pc with WInner | WGot _ | WFalse _ => False | _ => True end →
    outside s → sema_ok (bc_to pc s) → bsafe (enter_inner (Next (bc_to pc s)))) as Hmove.
  { intros pc Hpc Ho Hs'. cbn [enter_inner bc_to bc inner]. destruct pc; try done; simpl; by constructor; eauto. }
  cbn [blocking_step]. unfold sema_ok in Hs. unfold bconsumer_step. destruct (bc s) eqn:Eb; try done.
  - destruct (0 <? m_count s)%Z eqn:E.
    + apply Z.ltb_lt in E. apply Hmove; [done..|]. unfold sema_ok. simpl. unfold posting in *. simpl. lia.
    + apply Z.ltb_ge in E. destruct op; [| |apply Hmove; [done..|]; unfold sema_ok, posting in *; simpl; lia].
      all: simpl; constructor; simpl; [by eauto|unfold sema_ok, posting in *; simpl; lia|done|]; split; [done|lia].
  - apply acquire_safe; simpl; [by eauto|done|done|lia..|]. unfold posting in *. simpl. lia.
  - destruct spin; [apply Hmove; [done..|]; unfold sema_ok, posting in *; simpl; lia|].
    destruct (0 <? m_count s)%Z eqn:E.
    + apply Z.ltb_lt in E. apply Hmove; [done..|]. unfold sema_ok, posting in *. simpl. lia.
    + apply Hmove; [done..|]. unfold sema_ok, posting in *. simpl. lia.
  - destruct (0 <? m_count s)%Z eqn:E.
    + apply Z.ltb_lt in E. apply acquire_safe; simpl; [by eauto|done|done|lia..|]. unfold posting in *. simpl. lia.
    + apply Z.ltb_ge in E. simpl. constructor; simpl; [by eauto| |done|done].
      unfold sema_ok, posting in *. simpl. assert (m_count s = 0)%Z as -> by lia. simpl. lia.
  - destruct took; [|apply Hmove; [done..|]; by unfold sema_ok, posting in *].
    destruct (timeout_usecs =? 0)%Z; [done|]. destruct (m_sema s) as [|n] eqn:Es; [done|].
    destruct Hs as (? & ? & Hs). destruct (0 <=? m_count s)%Z eqn:E; [|lia]. apply Z.leb_le in E.
    apply acquire_safe; simpl; [by eauto|done|done|lia..|]. unfold posting in *. simpl. lia.
  - destruct Hs as (Hm & Hm1 & Hs). destruct (m_count s <? 0)%Z eqn:E; simpl.
    + apply Z.ltb_lt in E. rewrite (proj2 (Z.leb_gt _ _)) in Hs by lia.
      constructor; simpl; [by eauto|unfold sema_ok, posting in *; simpl; lia|done|]. split; [done|lia].
    + apply Z.ltb_ge in E. rewrite (proj2 (Z.leb_le _ _)) in Hs by lia.
      constructor; simpl; [by eauto|unfold sema_ok, posting in *; simpl; lia|done|done].
  - destruct (0 <? m_count s)%Z eqn:E; [|apply Z.ltb_ge in E; lia].
    constructor; simpl; [by eauto|unfold sema_ok, posting in *; simpl; lia|done|done].
  - destruct Hs as (Hm & Hm1 & Hs). destruct took; last first.
    + apply Hmove; [done..|]. unfold sema_ok, posting in *. simpl.
      rewrite (proj2 (Z.leb_le _ _)) by lia. lia.
    + destruct (m_sema s) as [|n] eqn:Es; [done|]. apply acquire_safe; simpl; [by eauto|done|done|lia..|]. unfold posting in *. simpl. lia.
  - destruct Hc as (Hd & Hn & Hni). pose proof (v_consumer _ _ _ _ Hin) as Hk. unfold consumer_ok in Hk.
    assert (bsafe (lift_inner (inner_step s) s) ∨ consumer_rank (cp (inner s)) = 0) as Hgo.
    { destruct (decide (consumer_rank (cp (inner s)) = 0)) as [?|Hr]; [by right|left].
      pose proof (step_safe LConsumer _ _ _ _ Hin) as Hsafe. simpl in Hsafe. pose proof (inner_step_spec s) as Ei.
      destruct (inner_step s) as [i| |]; simpl; [|done|by destruct Ei as [e Ei]; rewrite Ei in Hsafe].
      rewrite Ei in Hsafe.
      destruct (consumer_step_history _ _ Ei) as (Ee & Ed & Hcs & Hni').
      pose proof (consumer_step_rank _ _ Ei) as [_ Ep].
      constructor; [done|by unfold sema_ok, posting in *; simpl; rewrite Eb| |]; simpl.
      - rewrite Ee, He. unfold unsignalled. simpl. by rewrite Ep.
      - rewrite Eb. split_and!; simpl; [|intros n Hn'; apply Hn; auto|done].
        rewrite Ed. destruct (cp (inner s)); simpl in *; lia. }
    destruct (cp (inner s)) eqn:Ecp; simpl in Hgo; try (destruct Hgo as [Hgo|Hgo]; [exact Hgo|done]).
    + specialize (Hn n eq_refl). simpl in Hd. lia.
    + simpl. constructor; simpl; [by eauto|by unfold sema_ok, posting in *|done|].
      simpl in Hd. split; [split; simpl; [lia|by rewrite Ecp]|done].
Qed.

Lemma blocking_safe (l : blocking_label T) s : blocking_inv s → bsafe (blocking_step l s).
Proof.
  intros Hi. destruct l as [x mode|m|op|took].
  - destruct Hi as [(A & B & its & Hin) Hs He Hc]. cbn [blocking_step].
    pose proof (step_safe (LEnqueue x mode) _ _ _ _ Hin) as Hsafe. simpl in Hsafe |- *.
    assert (∀ p, posting s = 0 → unsignalled s = 0 → safe (producer_to (PStart x mode) p (inner s)) →
      blocking_inv (set_inner {| q := p; pp := PStart x mode; cp := cp (inner s);
        enqueued := enqueued (inner s); dequeued := dequeued (inner s) |} (bp_to BEnqueue s))) as Hgo.
    { intros p Hp Hu Hsf. constructor; [done| | |done].
      - unfold sema_ok in *. rewrite Hp in Hs. done.
      - simpl. by rewrite He, Hu. }
    destruct (bp s) eqn:Ep; try done; destruct (pp (inner s)) eqn:Epp; try done; simpl;
      apply Hgo; try done; unfold posting, unsignalled; by rewrite Ep.
  - by apply bproducer_safe.
  - simpl. pose proof (b_sema _ Hi) as Hs. destruct Hi as [Hin _ He Hc]. unfold sema_ok in Hs.
    destruct (bc s) eqn:Eb; try done; (constructor; simpl; [done|done|done|]); by try destruct Hc.
  - by apply bconsumer_safe.
Qed.

Lemma blocking_run_safe (ls : list (blocking_label T)) s :
  blocking_inv s → ∃ s', blocking_run ls s = Next s' ∧ blocking_inv s'.
Proof.
  revert s. induction ls as [|l ls IH]; intros s Hi; simpl; [by eauto|].
  pose proof (blocking_safe l _ Hi) as Hs. destruct (blocking_step l s); [by apply IH|by apply IH|done].
Qed.

Lemma blocking_init_inv sz : (1 ≤ sz < 2 ^ 63)%Z → blocking_inv (blocking_init sz).
Proof. intros Hsz. constructor; [by apply init_inv|done..]. Qed.

Lemma dequeued_prefix s : blocking_inv s → dequeued (inner s) `prefix_of` enqueued (inner s).
Proof.
  intros [(A & B & its & Hin) _ _ _]. rewrite (c_content _ _ _ _ (v_core _ _ _ _ Hin)).
  by apply prefix_app_r.
Qed.

(** What the operation that is done returned. *)
Lemma got_element s v :
  blocking_inv s → bc s = WGot v → 0 < taken s ∧ enqueued (inner s) !! (taken s - 1) = Some v.
Proof.
  intros Hi E. pose proof (dequeued_prefix _ Hi) as Hp. destruct Hi as [(A & B & its & Hin) _ _ Hc].
  rewrite E in Hc. destruct Hc as [[Hd _] Ec]. pose proof (v_consumer _ _ _ _ Hin) as Hk.
  unfold consumer_ok in Hk. rewrite Ec in Hk. destruct Hk as [l El].
  rewrite El, length_app in Hd. simpl in Hd. split; [lia|].
  eapply prefix_lookup_Some; [|exact Hp]. rewrite El. apply list_lookup_middle. lia.
Qed.

(** *** An element that has been signalled is handed out *)

(** The consumer is on its way to the element number [k]. *)
Definition on_its_way (k : nat) s : Prop :=
  match bc s with
  | WTry _ | WDec => taken s = k ∧ k < signalled s
  | WInner | WGot _ => taken s = S k
  | _ => False
  end.

Definition steps_left s : nat :=
  match bc s with
  | WTry _ => 12
  | WDec => 11
  | WInner => 1 + consumer_rank (cp (inner s))
  | _ => 0
  end.

Definition is_call (l : blocking_label T) : bool := match l with BLConsume _ => true | _ => false end.
Definition is_step (l : blocking_label T) : bool := match l with BLConsumer _ => true | _ => false end.

(** The producer leaves the consumer's side alone. *)
Lemma producer_label l s s' :
  is_call l = false → is_step l = false → blocking_step l s = Next s' →
  bc s' = bc s ∧ taken s' = taken s ∧ signalled s ≤ signalled s' ∧ cp (inner s') = cp (inner s).
Proof.
  destruct l as [x mode|m|op|took]; try done; intros _ _; simpl.
  - unfold lift_inner, producer_to. intros.
    repeat (case_match; simplify_eq/=; try done).
  - unfold bproducer_step, lift_inner. intros Hs.
    destruct (bp s); try done.
    + destruct (pp (inner s)) eqn:Ep; simplify_eq/=; try done;
        (destruct (producer_step m (inner s)) as [i| |] eqn:Ei; simplify_eq/=;
         apply producer_step_rank in Ei as [_ ->]; done).
    + case_match; simplify_eq/=. split_and!; try done. lia.
    + by simplify_eq/=.
Qed.

Lemma on_its_way_step l s s' k :
  blocking_inv s → on_its_way k s → is_call l = false → blocking_step l s = Next s' →
  on_its_way k s' ∧ steps_left s' + (if is_step l then 1 else 0) ≤ steps_left s.
Proof.
  intros Hi Hw Hcall Hs. destruct (is_step l) eqn:Hstep; last first.
  { destruct (producer_label _ _ _ Hcall Hstep Hs) as (Eb & Et & Hsig & Ec).
    unfold on_its_way, steps_left in *. rewrite Eb, Et, Ec. split; [|lia]. destruct (bc s); try done; lia. }
  destruct l as [| | |took]; try done. pose proof (b_sema _ Hi) as Hsem. pose proof (b_consumer _ Hi) as Hc.
  unfold on_its_way, steps_left, sema_ok, blocking_step, bconsumer_step in *.
  destruct (bc s) eqn:Eb; try done.
  - rewrite (proj2 (Z.ltb_lt _ _)) in Hs by lia. simpl in Hs. simplify_eq/=. lia.
  - destruct Hc as [_ Hr]. simpl in Hs. destruct (cp (inner s)); simplify_eq/=; lia.
  - pose proof (inner_step_spec s) as Ei.
    unfold lift_inner in Hs. destruct (cp (inner s)) eqn:Ec; simplify_eq/=; try lia;
      (destruct (inner_step s) as [i| |]; simplify_eq/=;
       apply consumer_step_rank in Ei as [Hr _]; rewrite Ec in Hr; simpl in *; rewrite Eb; lia).
Qed.

Lemma on_its_way_disabled took s k :
  blocking_inv s → on_its_way k s → blocking_step (BLConsumer took) s = Disabled → steps_left s = 0.
Proof.
  intros Hi Hw Hs. pose proof (b_consumer _ Hi) as Hc.
  unfold on_its_way, steps_left, blocking_step, bconsumer_step in *. destruct (bc s) eqn:Eb; try done.
  - by destruct (0 <? m_count s)%Z; destruct op.
  - destruct Hc as [_ Hr]. simpl in Hs. by destruct (cp (inner s)).
  - destruct Hc as (_ & _ & Hni). unfold lift_inner in Hs. simpl in Hs.
    destruct (cp (inner s)) eqn:Ec; try done; destruct (inner_step s) eqn:Ei; try done;
      unfold inner_step, pop_step, consumer_step, deref, consumer_to in Ei; rewrite Ec in Ei; try done; repeat (case_match; try done).
Qed.

Fixpoint bcount (k : blocking_label T → bool) (ls : list (blocking_label T)) : nat :=
  match ls with
  | [] => 0
  | l :: ls => (if k l then 1 else 0) + bcount k ls
  end.

Lemma on_its_way_run ls s s' k :
  blocking_inv s → on_its_way k s → bcount is_call ls = 0 → blocking_run ls s = Next s' →
  on_its_way k s' ∧ steps_left s' ≤ steps_left s - bcount is_step ls.
Proof.
  revert s. induction ls as [|l ls IH]; intros s Hi Hw Hcall; simpl; [intros [= <-]; split; [done|lia]|].
  simpl in Hcall. pose proof (blocking_safe l _ Hi) as Hsafe.
  assert (is_call l = false) as Hl by (destruct (is_call l); [lia|done]). rewrite Hl in Hcall.
  destruct (blocking_step l s) as [s1| |] eqn:E; [| |done]; intros Hr.
  - destruct (on_its_way_step _ _ _ _ Hi Hw Hl E) as [Hw1 Hle].
    destruct (IH s1) as [? ?]; [done..|]. split; [done|]. lia.
  - destruct (IH s) as [? ?]; [done..|]. split; [done|]. destruct (is_step l) eqn:El; [|lia].
    destruct l as [| | |took]; try done. pose proof (on_its_way_disabled _ _ _ Hi Hw E). lia.
Qed.

(** The size that is reported is never more than there are elements; it is
    their number when neither side is in an operation. *)
Lemma availableApprox_bound s :
  blocking_inv s → (Z.of_nat (length (enqueued (inner s))) < 2 ^ 64)%Z →
  let n := (Z.of_nat (length (enqueued (inner s))) - Z.of_nat (length (dequeued (inner s))))%Z in
  (0 ≤ availableApprox s ≤ n)%Z ∧
  (match bp s with BIdle | BDone _ => True | _ => False end →
   match bc s with WIdle | WFalse _ | WGot _ => True | _ => False end → availableApprox s = n).
Proof.
  intros Hi Hlt. pose proof (taken_le _ Hi) as [Hle1 Hle2]. destruct Hi as [_ Hs He Hc].
  assert (length (dequeued (inner s)) ≤ taken s) as Hd.
  { unfold inside, outside in Hc. destruct (bc s); try (by destruct Hc; lia); try (by destruct Hc as [[? _] _]; lia).
    destruct Hc as (Hc & _ & _). unfold got in Hc. destruct (cp (inner s)); lia. }
  unfold availableApprox, sema_ok in *. cbv zeta in *. split.
  - destruct (0 <? m_count s)%Z eqn:E; [|lia]. apply Z.ltb_lt in E.
    rewrite u64_small by (destruct (bc s); lia). destruct (bc s); lia.
  - intros Hp Hb. assert (unsignalled s = 0) as Hu by (unfold unsignalled; by destruct (bp s)).
    assert (length (dequeued (inner s)) = taken s) as Ed.
    { unfold outside in Hc. destruct (bc s); try done; [by destruct Hc|by destruct Hc as [[? _] _]..]. }
    destruct (bc s); try done; (destruct (0 <? m_count s)%Z eqn:E;
      [rewrite u64_small by lia; lia|apply Z.ltb_ge in E; lia]).
Qed.
End inv.

(** C12: the queue the dispatcher uses is a FIFO with exact bookkeeping: whatever
    the interleaving of the producer's and the consumer's memory accesses, of
    successful, failed and timed-out waits and of allocations, no assertion
    fails (a wait that succeeded always finds its element, and the count never
    drops below -1) and no step faults; elements come out in the order in which
    they went in, each once; an operation that returned [v] returned the next
    element in line ([pop], which returns only true, took it out); and one that
    returned false had found every element whose signal had been given already
    handed out. *)
Theorem blocking_queue_fifo {T} (sz : Z) (ls : list (blocking_label T)) :
  (1 ≤ sz < 2 ^ 63)%Z →
  ∃ s, blocking_run ls (blocking_init sz) = Next s ∧
    dequeued (inner s) `prefix_of` enqueued (inner s) ∧
    taken s ≤ signalled s ≤ length (enqueued (inner s)) ∧
    (∀ v, bc s = WGot v → 0 < taken s ∧ enqueued (inner s) !! (taken s - 1) = Some v) ∧
    (∀ e, bc s = WFalse e → e = taken s).
Proof.
  intros Hsz. destruct (blocking_run_safe ls _ (blocking_init_inv (T := T) sz Hsz)) as (s & Hr & Hi).
  exists s. pose proof (taken_le _ Hi). split_and!; [done|by apply dequeued_prefix|lia|lia| |].
  - intros v E. by apply got_element.
  - intros e E. pose proof (b_consumer _ Hi) as Hc. rewrite E in Hc. by destruct Hc.
Qed.

(** C13: an element that has been signalled is not missed: a [try_dequeue],
    [pop] or [wait_dequeue_timed] called when the [k]-th element (and possibly more) is
    there returns exactly that element, after at most twelve steps of its own,
    whatever the producer does meanwhile and without waiting. *)
Theorem blocking_queue_delivers {T} (sz : Z) (ls ls' : list (blocking_label T)) (s : Blocking T)
    (op : ConsumerOp) :
  (1 ≤ sz < 2 ^ 63)%Z → blocking_run ls (blocking_init sz) = Next s →
  bc s = WTry op → taken s < signalled s →
  bcount is_call ls' = 0 → 12 ≤ bcount is_step ls' →
  ∃ s' v, blocking_run ls' s = Next s' ∧ bc s' = WGot v ∧
    enqueued (inner s') !! taken s = Some v.
Proof.
  intros Hsz Hr Hb Hlt Hcall Hn.
  destruct (blocking_run_safe ls _ (blocking_init_inv (T := T) sz Hsz)) as (s1 & Hr1 & Hi).
  rewrite Hr in Hr1. injection Hr1 as <-.
  destruct (blocking_run_safe ls' _ Hi) as (s' & Hr' & Hi').
  destruct (on_its_way_run ls' s s' (taken s) Hi) as [Hw Hle]; [unfold on_its_way; by rewrite Hb|done|done|].
  unfold steps_left in Hle. rewrite Hb in Hle. unfold on_its_way in Hw.
  destruct (bc s') eqn:E; try done; try lia.
  exists s', v. split_and!; [done|done|]. destruct (got_element _ _ Hi' E) as [_ Hv].
  by replace (taken s) with (taken s' - 1) by lia.
Qed.

(** The consumer times out just as the producer signals, and gets the element
    from the semaphore after all. *)
Module DemoQueue.
Definition enqueue (x : nat) : list (blocking_label nat) := BLEnqueue x CanAlloc :: replicate 10 (BLProducer true).
Definition race : list (blocking_label nat) :=
  [BLConsume (OpTimed 200000); BLConsumer true] ++ replicate 1026 (BLConsumer true) ++ (* spin, then wait *)
  BLEnqueue 7 CanAlloc :: replicate 5 (BLProducer true) ++      (* enqueued and counted, not posted *)
  replicate 4 (BLConsumer false) ++                    (* timed out; the count is restored and taken again *)
  [BLProducer true] ++ replicate 20 (BLConsumer true).
End DemoQueue.

Lemma blocking_queue_fifo_witness :
  ∃ s, blocking_run (DemoQueue.race ++ DemoQueue.enqueue 8) (blocking_init 15) = Next s ∧
    dequeued (inner s) `prefix_of` enqueued (inner s) ∧
    taken s ≤ signalled s ≤ length (enqueued (inner s)) ∧
    (∀ v, bc s = WGot v → 0 < taken s ∧ enqueued (inner s) !! (taken s - 1) = Some v) ∧
    (∀ e, bc s = WFalse e → e = taken s) ∧ bc s = WGot 7 ∧ signalled s = 2.
Proof.
  destruct (blocking_queue_fifo 15 (DemoQueue.race ++ DemoQueue.enqueue 8)) as (s & Hs & H1 & H2 & H3 & H4); [lia|].
  exists s. split_and!; [done|done|lia|lia|done|done|..].
  - vm_compute in Hs. by injection Hs as <-.
  - vm_compute in Hs. by injection Hs as <-.
Defined.

Lemma blocking_queue_delivers_witness :
  ∃ s, blocking_run (DemoQueue.enqueue 5 ++ [BLConsume OpTry]) (blocking_init 15) = Next s ∧
  ∃ s' v, blocking_run (replicate 12 (BLConsumer true)) s = Next s' ∧ bc s' = WGot v ∧
    enqueued (inner s') !! taken s = Some v.
Proof.
  eexists. split; [vm_compute; reflexivity|].
  eapply (blocking_queue_delivers 15 (DemoQueue.enqueue 5 ++ [BLConsume OpTry])
    (replicate 12 (BLConsumer true)) _ OpTry); [lia|vm_compute; reflexivity|reflexivity|vm_compute; lia|
    reflexivity|vm_compute; lia].
Defined.
