(* ===== verification/Semaphores.v ===== *)
(** * The semaphores of [atomicops.hpp]

    [src/queue/atomicops.hpp]: the class [Semaphore] in its four forms (POSIX,
    Win32, Mach, FreeRTOS) and the counter [weak_atomic<ssize_t>].  The queue
    of [BlockingQueue] has the operating system's semaphore as a count; here
    each platform's class is shown to be one, over the documented behaviour of
    the system calls it makes. *)

From S2P Require Import Prelude SpscQueue BlockingQueue.
From Stdlib Require Import Lia.

(** ** The interface the queue uses *)

(** What has happened to a semaphore so far. *)
Class SemHistory (W : Type) := { posted : W → nat; given : W → nat }.

Section history.
Context {W : Type} `{SemHistory W}.

(** A call that took a unit, one that did not, and one that posted [n]; the
    other thread may have posted or taken meanwhile. *)
Definition took_one (w w' : W) : Prop :=
  given w' = S (given w) ∧ posted w ≤ posted w' ∧ given w' ≤ posted w'.
Definition took_none (w w' : W) : Prop := given w' = given w ∧ posted w ≤ posted w'.
Definition waited (r : bool) (w w' : W) : Prop := if r then took_one w w' else took_none w w'.
Definition did_post (n : nat) (w w' : W) : Prop := posted w' = posted w + n ∧ given w ≤ given w'.

Definition units (w : W) : Z := (Z.of_nat (posted w) - Z.of_nat (given w))%Z.

Lemma took_none_trans w1 w2 w3 r : took_none w1 w2 → waited r w2 w3 → waited r w1 w3.
Proof. unfold waited, took_none, took_one. destruct r; lia. Qed.

Lemma did_post_trans m n w1 w2 w3 : did_post m w1 w2 → did_post n w2 w3 → did_post (m + n) w1 w3.
Proof. unfold did_post. lia. Qed.
End history.

(** The class [Semaphore]; loops take fuel. *)
Class Semaphore (W : Type) := {
  wait : nat → prog W bool;
  try_wait : nat → prog W bool;
  timed_wait : nat → Z → prog W bool;
  signal : nat → Z → prog W unit;
}.

(** What the queue relies on: waits come back with a unit or without one, and
    [signal(1)] posts one unit (there is room for [room] of them). *)
Class SemaphoreOk (W : Type) `{SemHistory W} `{Semaphore W} (budget : W → nat) (room : Z) : Prop := {
  wait_ok fuel w : budget w < fuel → ∃ r w', wait fuel w = (Ret r, w') ∧ waited r w w';
  try_wait_ok fuel w : budget w < fuel → ∃ r w', try_wait fuel w = (Ret r, w') ∧ waited r w w';
  timed_wait_ok fuel usecs w : budget w < fuel →
    ∃ r w', timed_wait fuel usecs w = (Ret r, w') ∧ waited r w w';
  signal_ok fuel w : 1 < fuel → (units w < room)%Z →
    ∃ w', signal fuel 1 w = (Ret tt, w') ∧ did_post 1 w w';
}.

(** [while (count-- > 0) body;] *)
Fixpoint count_down {W} (fuel : nat) (count : Z) (body : prog W unit) : prog W unit :=
  match fuel with
  | O => λ w, (OutOfFuel, w)
  | S fuel => if (0 <? count)%Z then body ;; count_down fuel (count - 1) body else mret tt
  end.

Lemma count_down_one {W} fuel (body : prog W unit) w w' :
  1 < fuel → body w = (Ret tt, w') → count_down fuel 1 body w = (Ret tt, w').
Proof. intros Hf Hb. destruct fuel as [|[|fuel]]; [lia|lia|]. simpl. unfold mbind, prog_bind. by rewrite Hb. Qed.

(** ** POSIX *)

Inductive Errno := EINTR | EAGAIN | ETIMEDOUT | EINVAL | EOVERFLOW.
#[export] Instance Errno_eq_dec : EqDecision Errno.
Proof. solve_decision. Defined.

Record timespec := { tv_sec : Z; tv_nsec : Z }.

Definition nanos (ts : timespec) : Z := (tv_sec ts * 1000000000 + tv_nsec ts)%Z.
Definition valid_timespec (ts : timespec) : Prop := (0 ≤ tv_nsec ts < 1000000000)%Z.

(** [<semaphore.h>] and the clock: what a call returns and, for -1, [errno]. *)
Class Posix (W : Type) := {
  sem_wait : W → (Z * Errno) * W;
  sem_trywait : W → (Z * Errno) * W;
  sem_timedwait : timespec → W → (Z * Errno) * W;
  sem_post : W → (Z * Errno) * W;
  clock_realtime : W → timespec;
}.

Module Posix.
Section posix.
Context {W : Type} `{Posix W}.

(** [do { rc = call; } while (rc == -1 && errno == EINTR); return rc == 0;] *)
Fixpoint eintr_loop (call : W → (Z * Errno) * W) (fuel : nat) : prog W bool := λ w,
  match fuel with
  | O => (OutOfFuel, w)
  | S fuel =>
      let '((rc, errno), w) := call w in
      if (rc =? -1)%Z && bool_decide (errno = EINTR) then eintr_loop call fuel w
      else (Ret (rc =? 0)%Z, w)
  end.

(** The time at which [timed_wait] gives up. *)
Definition deadline (usecs : Z) (now : timespec) : timespec :=
  let sec := i64 (tv_sec now + i64 (usecs / 1000000)) in
  let nsec := i64 (tv_nsec now + i64 (usecs mod 1000000) * 1000) in
  if (1000000000 <=? nsec)%Z then {| tv_sec := i64 (sec + 1); tv_nsec := (nsec - 1000000000)%Z |}
  else {| tv_sec := sec; tv_nsec := nsec |}.

Definition timed_wait (fuel : nat) (usecs : Z) : prog W bool := λ w,
  eintr_loop (sem_timedwait (deadline (u64 usecs) (clock_realtime w))) fuel w.

(** [while (sem_post(&m_sema) == -1);] *)
Fixpoint signal (fuel : nat) : prog W unit := λ w,
  match fuel with
  | O => (OutOfFuel, w)
  | S fuel => let '((rc, _), w) := sem_post w in if (rc =? -1)%Z then signal fuel w else (Ret tt, w)
  end.

Definition signal_count (fuel : nat) (count : Z) : prog W unit := count_down fuel count (signal fuel).
End posix.
End Posix.

#[export] Instance posix_semaphore `{Posix W} : Semaphore W :=
  {| wait := Posix.eintr_loop sem_wait; try_wait := Posix.eintr_loop sem_trywait;
     timed_wait := Posix.timed_wait; signal := Posix.signal_count |}.

(** The manual pages, for a valid semaphore: 0 and a unit, or -1 and nothing;
    [EINTR] is one of the [signals] still to be delivered; [sem_timedwait] fails
    otherwise only past its deadline, if that is a valid time; [sem_post] fails
    only at the largest value. *)
Class PosixOk (W : Type) `{SemHistory W} `{Posix W} (signals : W → nat) (SEM_VALUE_MAX : Z) : Prop := {
  call_law w rc errno w' (call : W → (Z * Errno) * W) :
    call = sem_wait ∨ call = sem_trywait ∨ (∃ ts, call = sem_timedwait ts) →
    call w = ((rc, errno), w') →
    (rc = 0 ∧ took_one w w' ∨ rc = -1 ∧ took_none w w')%Z ∧ signals w' ≤ signals w ∧
    (rc = (-1)%Z → errno = EINTR → signals w' < signals w);
  timedwait_law w ts errno w' : valid_timespec ts → sem_timedwait ts w = (((-1)%Z, errno), w') →
    errno = EINTR ∨ (nanos ts ≤ nanos (clock_realtime w'))%Z;
  post_law w : (units w < SEM_VALUE_MAX)%Z → ∃ errno w', sem_post w = ((0%Z, errno), w') ∧ did_post 1 w w';
}.

Section posix_ok.
Context {W : Type} `{SemHistory W} `{Posix W} (signals : W → nat) (SEM_VALUE_MAX : Z).
Context `{!PosixOk W signals SEM_VALUE_MAX}.

(** The loop ends, with a unit or with an error other than [EINTR]. *)
Lemma eintr_loop_ok (call : W → (Z * Errno) * W) fuel w :
  call = sem_wait ∨ call = sem_trywait ∨ (∃ ts, call = sem_timedwait ts) → signals w < fuel →
  ∃ r w', Posix.eintr_loop call fuel w = (Ret r, w') ∧ waited r w w' ∧
    (r = false → ∃ w1 errno, errno ≠ EINTR ∧ call w1 = (((-1)%Z, errno), w')).
Proof.
  intros Hc. revert w. induction fuel as [|fuel IH]; intros w Hf; [lia|]. simpl.
  destruct (call w) as [[rc e] w1] eqn:E.
  destruct (call_law w rc e w1 call Hc E) as (Hrc & Hle & Hlt).
  destruct Hrc as [[-> Ht]|[-> Ht]]; simpl.
  - exists true, w1. split_and!; [done|exact Ht|done].
  - case_bool_decide as He.
    + destruct (IH w1) as (r & w' & Hr & Hw & Hx); [specialize (Hlt eq_refl He); lia|].
      exists r, w'. split_and!; [done|by eapply took_none_trans|done].
    + exists false, w1. split_and!; [done|exact Ht|]. intros _. by exists w, e.
Qed.

Lemma posix_signal_ok fuel w :
  1 < fuel → (units w < SEM_VALUE_MAX)%Z → ∃ w', signal fuel 1 w = (Ret tt, w') ∧ did_post 1 w w'.
Proof.
  intros Hf Hu. destruct (post_law w Hu) as (e & w' & E & Hp). exists w'. split; [|done].
  apply count_down_one; [done|]. destruct fuel; [lia|]. simpl. by rewrite E.
Qed.

#[export] Instance posix_semaphore_ok : SemaphoreOk W signals SEM_VALUE_MAX.
Proof.
  split.
  - intros fuel w Hf. destruct (eintr_loop_ok sem_wait fuel w) as (r & w' & ? & ? & _); eauto.
  - intros fuel w Hf. destruct (eintr_loop_ok sem_trywait fuel w) as (r & w' & ? & ? & _); eauto.
  - intros fuel usecs w Hf.
    destruct (eintr_loop_ok (sem_timedwait (Posix.deadline (u64 usecs) (clock_realtime w))) fuel w)
      as (r & w' & ? & ? & _); eauto.
  - intros fuel w. apply posix_signal_ok.
Qed.
End posix_ok.

(** The carry is right: the deadline is a time, and it is [usecs] away. *)
Lemma deadline_exact usecs now :
  (0 ≤ usecs < 2 ^ 64)%Z → valid_timespec now → (0 ≤ tv_sec now < 2 ^ 62)%Z →
  valid_timespec (Posix.deadline usecs now) ∧
  nanos (Posix.deadline usecs now) = (nanos now + usecs * 1000)%Z.
Proof.
  intros Hu Hn Hs. unfold valid_timespec in Hn.
  pose proof (Z.div_mod usecs 1000000 ltac:(lia)) as Hd.
  pose proof (Z.mod_pos_bound usecs 1000000 ltac:(lia)) as Hm.
  assert (0 ≤ usecs / 1000000 < 2 ^ 62)%Z as Hq.
  { split; [apply Z.div_pos; lia|apply Z.div_lt_upper_bound; lia]. }
  unfold Posix.deadline, i64.
  rewrite (sint_small 64 (usecs / 1000000)), (sint_small 64 (usecs mod 1000000)) by lia.
  rewrite (sint_small 64 (_ + _ / _)), (sint_small 64 (_ + _ * 1000)) by lia.
  unfold valid_timespec, nanos. destruct (1000000000 <=? _)%Z eqn:E;
    [apply Z.leb_le in E; simpl; rewrite sint_small by lia|apply Z.leb_gt in E; simpl]; lia.
Qed.

(** ** Win32 *)

Class Win32 (W : Type) := {
  WaitForSingleObject : Z → W → Z * W;
  ReleaseSemaphore : Z → W → bool * W;
}.

Module Win32.
Section win32.
Context {W : Type} `{Win32 W}.

Definition infinite : Z := 0xffffffff.
Definition maxLong : Z := 0x7fffffff.

Definition wait_for (dwMilliseconds : Z) : prog W bool := λ w,
  let '(r, w) := WaitForSingleObject dwMilliseconds w in (Ret (r =? 0)%Z, w).

Definition timeout_ms (usecs : Z) : Z := u32 (usecs / 1000).
Definition timed_wait (usecs : Z) : prog W bool := wait_for (timeout_ms (u64 usecs)).

(** [while (!ReleaseSemaphore(m_hSema, count, nullptr));] *)
Fixpoint signal (fuel : nat) (count : Z) : prog W unit := λ w,
  match fuel with
  | O => (OutOfFuel, w)
  | S fuel => let '(ok, w) := ReleaseSemaphore count w in if (ok : bool) then (Ret tt, w) else signal fuel count w
  end.
End win32.
End Win32.

#[local] Instance win32_semaphore `{Win32 W} : Semaphore W :=
  {| wait := λ _, Win32.wait_for Win32.infinite; try_wait := λ _, Win32.wait_for 0;
     timed_wait := λ _, Win32.timed_wait; signal := Win32.signal |}.

(** A wait that returns [WAIT_OBJECT_0] took a unit, any other took none;
    [ReleaseSemaphore] fails only beyond the maximum count. *)
Class Win32Ok (W : Type) `{SemHistory W} `{Win32 W} : Prop := {
  wait_for_law ms w r w' : WaitForSingleObject ms w = (r, w') → waited (r =? 0)%Z w w';
  release_law n w : (0 < n)%Z → (units w + n ≤ Win32.maxLong)%Z →
    ∃ w', ReleaseSemaphore n w = (true, w') ∧ did_post (Z.to_nat n) w w';
}.

Section win32_ok.
Context {W : Type} `{SemHistory W} `{Win32 W} `{!Win32Ok W}.

Lemma wait_for_ok ms w : ∃ r w', Win32.wait_for ms w = (Ret r, w') ∧ waited r w w'.
Proof.
  unfold Win32.wait_for. destruct (WaitForSingleObject ms w) as [r w'] eqn:E.
  eexists _, w'. split; [done|]. by eapply wait_for_law.
Qed.

Lemma win32_semaphore_ok : SemaphoreOk W (λ _, 0) Win32.maxLong.
Proof.
  split; try (intros; apply wait_for_ok).
  intros fuel w Hf Hu. destruct (release_law 1 w) as (w' & E & Hp); [lia|lia|].
  exists w'. split; [|done]. destruct fuel; [lia|]. simpl. by rewrite E.
Qed.
End win32_ok.

(** ** Mach *)

Class Mach (W : Type) := {
  semaphore_wait : W → Z * W;
  semaphore_timedwait : Z * Z → W → Z * W;
  semaphore_signal : W → Z * W;
}.

Module Mach.
Section mach.
Context {W : Type} `{Mach W}.

Definition KERN_SUCCESS : Z := 0.

Definition succeeds (call : W → Z * W) : prog W bool := λ w,
  let '(rc, w) := call w in (Ret (rc =? KERN_SUCCESS)%Z, w).

(** The [mach_timespec_t]: [unsigned int] seconds, [int] nanoseconds. *)
Definition timeout_ts (timeout_usecs : Z) : Z * Z :=
  (u32 (timeout_usecs / 1000000), i32 (u64 (timeout_usecs mod 1000000 * 1000))).

Definition timed_wait (timeout_usecs : Z) : prog W bool :=
  succeeds (semaphore_timedwait (timeout_ts (u64 timeout_usecs))).

(** [while (semaphore_signal(m_sema) != KERN_SUCCESS);] *)
Fixpoint signal (fuel : nat) : prog W unit := λ w,
  match fuel with
  | O => (OutOfFuel, w)
  | S fuel =>
      let '(rc, w) := semaphore_signal w in
      if negb (rc =? KERN_SUCCESS)%Z then signal fuel w else (Ret tt, w)
  end.

Definition signal_count (fuel : nat) (count : Z) : prog W unit := count_down fuel count (signal fuel).
End mach.
End Mach.

#[local] Instance mach_semaphore `{Mach W} : Semaphore W :=
  {| wait := λ _, Mach.succeeds semaphore_wait; try_wait := λ _, Mach.timed_wait 0;
     timed_wait := λ _, Mach.timed_wait; signal := Mach.signal_count |}.

(** A wait that returns [KERN_SUCCESS] took a unit, any other took none; a
    semaphore that exists can be signalled. *)
Class MachOk (W : Type) `{SemHistory W} `{Mach W} : Prop := {
  mach_wait_law (call : W → Z * W) w rc w' :
    call = semaphore_wait ∨ (∃ ts, call = semaphore_timedwait ts) → call w = (rc, w') →
    waited (rc =? Mach.KERN_SUCCESS)%Z w w';
  mach_signal_law w : ∃ w', semaphore_signal w = (Mach.KERN_SUCCESS, w') ∧ did_post 1 w w';
}.

Section mach_ok.
Context {W : Type} `{SemHistory W} `{Mach W} `{!MachOk W}.

Lemma succeeds_ok (call : W → Z * W) w :
  call = semaphore_wait ∨ (∃ ts, call = semaphore_timedwait ts) →
  ∃ r w', Mach.succeeds call w = (Ret r, w') ∧ waited r w w'.
Proof.
  intros Hc. unfold Mach.succeeds. destruct (call w) as [rc w'] eqn:E.
  eexists _, w'. split; [done|]. by eapply mach_wait_law.
Qed.

Lemma mach_semaphore_ok room : SemaphoreOk W (λ _, 0) room.
Proof.
  split; try (intros; apply succeeds_ok; eauto).
  intros fuel w Hf _. destruct (mach_signal_law w) as (w' & E & Hp). exists w'. split; [|done].
  apply count_down_one; [done|]. destruct fuel; [lia|]. simpl. by rewrite E.
Qed.
End mach_ok.

(** ** FreeRTOS *)

(** [TickType_t] has [tick_bits] bits; a call may come from an interrupt. *)
Class FreeRTOS (W : Type) := {
  xPortIsInsideInterrupt : W → bool;
  xSemaphoreTake : Z → W → bool * W;
  xSemaphoreTakeFromISR : W → bool * W;
  xSemaphoreGive : W → bool * W;
  xSemaphoreGiveFromISR : W → bool * W;
  portTICK_PERIOD_MS : Z;
  tick_bits : Z;
}.

Module FreeRTOS.
Section freertos.
Context {W : Type} `{FreeRTOS W}.

Definition tick_type (z : Z) : Z := (z mod 2 ^ tick_bits)%Z.
Definition portMAX_DELAY : Z := (2 ^ tick_bits - 1)%Z.

Definition take (ticks : Z) : prog W bool := λ w, let '(r, w) := xSemaphoreTake ticks w in (Ret r, w).

Definition try_wait : prog W bool := λ w,
  if xPortIsInsideInterrupt w then let '(r, w) := xSemaphoreTakeFromISR w in (Ret r, w)
  else take 0 w.

Definition timeout_ticks (usecs : Z) : Z :=
  let msecs := (usecs / 1000)%Z in tick_type (msecs / portTICK_PERIOD_MS).

Definition timed_wait (usecs : Z) : prog W bool :=
  let ticks := timeout_ticks (u64 usecs) in
  if (ticks =? 0)%Z then try_wait else take ticks.

Definition signal : prog W unit := λ w,
  let '(rc, w) := if xPortIsInsideInterrupt w then xSemaphoreGiveFromISR w else xSemaphoreGive w in
  if (rc : bool) then (Ret tt, w) else (UB "assertion: rc == pdTRUE", w).

Definition signal_count (fuel : nat) (count : Z) : prog W unit := count_down fuel count signal.
End freertos.
End FreeRTOS.

#[local] Instance freertos_semaphore `{FreeRTOS W} : Semaphore W :=
  {| wait := λ _, FreeRTOS.take FreeRTOS.portMAX_DELAY; try_wait := λ _, FreeRTOS.try_wait;
     timed_wait := λ _, FreeRTOS.timed_wait; signal := FreeRTOS.signal_count |}.

(** [pdTRUE] is a unit, [pdFALSE] none; a give fails only at the largest count. *)
Class FreeRTOSOk (W : Type) `{SemHistory W} `{FreeRTOS W} (max_count : Z) : Prop := {
  take_law t w r w' : xSemaphoreTake t w = (r, w') → waited r w w';
  take_isr_law w r w' : xSemaphoreTakeFromISR w = (r, w') → waited r w w';
  give_law w : (units w < max_count)%Z →
    (∃ w', xSemaphoreGive w = (true, w') ∧ did_post 1 w w') ∧
    (∃ w', xSemaphoreGiveFromISR w = (true, w') ∧ did_post 1 w w');
}.

Section freertos_ok.
Context {W : Type} `{SemHistory W} `{FreeRTOS W} (max_count : Z) `{!FreeRTOSOk W max_count}.

Lemma take_ok t w : ∃ r w', FreeRTOS.take t w = (Ret r, w') ∧ waited r w w'.
Proof.
  unfold FreeRTOS.take. destruct (xSemaphoreTake t w) as [r w'] eqn:E.
  exists r, w'. split; [done|]. by eapply take_law.
Qed.

Lemma freertos_try_wait_ok w : ∃ r w', FreeRTOS.try_wait w = (Ret r, w') ∧ waited r w w'.
Proof.
  unfold FreeRTOS.try_wait. destruct (xPortIsInsideInterrupt w); [|apply take_ok].
  destruct (xSemaphoreTakeFromISR w) as [r w'] eqn:E. exists r, w'. split; [done|]. by eapply take_isr_law.
Qed.

Lemma freertos_semaphore_ok : SemaphoreOk W (λ _, 0) max_count.
Proof.
  split.
  - intros. apply take_ok.
  - intros. apply freertos_try_wait_ok.
  - intros fuel usecs w _. simpl. unfold FreeRTOS.timed_wait.
    destruct (_ =? 0)%Z; [apply freertos_try_wait_ok|apply take_ok].
  - intros fuel w Hf Hu. destruct (give_law w Hu) as [(w1 & E1 & H1) (w2 & E2 & H2)].
    destruct (xPortIsInsideInterrupt w) eqn:Ei; [exists w2|exists w1]; (split; [|done]);
      (apply count_down_one; [done|]); unfold FreeRTOS.signal; rewrite Ei; by rewrite ?E1, ?E2.
Qed.
End freertos_ok.

(** ** Timeouts *)

(** What the other platforms make of [usecs] microseconds: Mach is exact up to
    [2^32] seconds, Win32 rounds down to milliseconds up to 49 days, FreeRTOS
    to ticks as far as [TickType_t] goes. *)
Lemma platform_timeouts `{FreeRTOS W} usecs :
  (0 ≤ usecs < 2 ^ 64)%Z → (0 < portTICK_PERIOD_MS)%Z →
  ((usecs < 2 ^ 32 * 1000000)%Z →
     let '(s, ns) := Mach.timeout_ts usecs in
     (0 ≤ ns < 1000000000 ∧ s * 1000000000 + ns = usecs * 1000)%Z) ∧
  ((usecs < Win32.infinite * 1000)%Z →
     (Win32.timeout_ms usecs < Win32.infinite)%Z ∧
     (Win32.timeout_ms usecs * 1000 ≤ usecs < Win32.timeout_ms usecs * 1000 + 1000)%Z) ∧
  ((usecs < portTICK_PERIOD_MS * 1000 * 2 ^ tick_bits)%Z →
     let us := (FreeRTOS.timeout_ticks usecs * portTICK_PERIOD_MS * 1000)%Z in
     (us ≤ usecs < us + portTICK_PERIOD_MS * 1000)%Z).
Proof.
  intros Hu Hp. split_and!.
  - intros Hlt. simpl.
    pose proof (Z.div_mod usecs 1000000 ltac:(lia)). pose proof (Z.mod_pos_bound usecs 1000000 ltac:(lia)).
    unfold u32, i32. rewrite (u64_small (_ * _)) by lia. rewrite sint_small by lia.
    rewrite (Z.mod_small (usecs / 1000000)) by (split; [apply Z.div_pos|apply Z.div_lt_upper_bound]; lia). lia.
  - unfold Win32.infinite. intros Hlt. unfold Win32.timeout_ms, u32.
    pose proof (Z.div_mod usecs 1000 ltac:(lia)). pose proof (Z.mod_pos_bound usecs 1000 ltac:(lia)).
    rewrite Z.mod_small by (split; [apply Z.div_pos|apply Z.div_lt_upper_bound]; lia). lia.
  - intros Hlt. simpl. unfold FreeRTOS.timeout_ticks, FreeRTOS.tick_type.
    rewrite Z.div_div by lia. set (d := (1000 * portTICK_PERIOD_MS)%Z).
    pose proof (Z.div_mod usecs d ltac:(lia)). pose proof (Z.mod_pos_bound usecs d ltac:(lia)).
    rewrite Z.mod_small by (split; [apply Z.div_pos|apply Z.div_lt_upper_bound]; lia). lia.
Qed.

(** Beyond that the timeout means something else: on Win32 there are finite
    timeouts that wait for ever. *)
Lemma win32_infinite_timeout : Win32.timeout_ms (Win32.infinite * 1000) = Win32.infinite.
Proof. reflexivity. Qed.

(** C15: [timed_wait] waits as long as it was asked to: on POSIX, from any valid
    time of the clock and for any 64-bit number of microseconds, the deadline is
    a valid time; the call comes back however often it is interrupted by
    signals, and it comes back either with exactly one unit of the semaphore,
    or with none and the clock at or past the time of the call plus [usecs]. *)
Theorem posix_timed_wait_deadline {W} `{SemHistory W} `{Posix W} (signals : W → nat) (vmax : Z)
    `{!PosixOk W signals vmax} (fuel : nat) (usecs : Z) (w : W) :
  (0 ≤ usecs < 2 ^ 64)%Z → valid_timespec (clock_realtime w) → (0 ≤ tv_sec (clock_realtime w) < 2 ^ 62)%Z →
  signals w < fuel →
  ∃ r w', Posix.timed_wait fuel usecs w = (Ret r, w') ∧ waited r w w' ∧
    (r = false → (nanos (clock_realtime w) + usecs * 1000 ≤ nanos (clock_realtime w'))%Z).
Proof.
  intros Hu Hv Hs Hf. unfold Posix.timed_wait. rewrite u64_small by done.
  destruct (deadline_exact usecs _ Hu Hv Hs) as [Hdv <-].
  set (ts := Posix.deadline _ _) in *.
  destruct (eintr_loop_ok signals vmax (sem_timedwait ts) fuel w) as (r & w' & Hr & Hw & Hx); [by eauto|done|].
  exists r, w'. split_and!; [done|done|]. intros (w1 & e & He & E)%Hx.
  by destruct (timedwait_law w1 ts e w' Hdv E).
Qed.

(** ** The count of the queue's model *)

(** The call that [waitWithPartialSpinning] makes for its timeout. *)
Definition sema_wait `{Semaphore W} (fuel : nat) (timeout_usecs : Z) : prog W bool :=
  if (timeout_usecs <? 0)%Z then wait fuel else timed_wait fuel timeout_usecs.

(** A wait of the model, with the result of a wait of the system. *)
Lemma model_waits {T W} `{SemHistory W} (b : Blocking T) r w w' :
  Z.of_nat (m_sema b) = units w → waited r w w' →
  (∃ t, bc b = WWait t ∧ t ≠ 0%Z) ∨ bc b = WTryWait →
  ∃ b', bconsumer_step r (set_sema (m_sema b + (posted w' - posted w)) b) = Next b' ∧
    Z.of_nat (m_sema b') = units w'.
Proof.
  unfold units, waited, took_one, took_none. intros Hm Hw Hb. unfold bconsumer_step. cbn [bc set_sema m_sema].
  assert (r = true → ∃ n, m_sema b + (posted w' - posted w) = S n ∧
    Z.of_nat n = (Z.of_nat (posted w') - Z.of_nat (given w'))%Z) as Hn.
  { intros ->. exists (m_sema b + (posted w' - posted w) - 1). lia. }
  destruct Hb as [(t & -> & Ht)| ->]; [rewrite (proj2 (Z.eqb_neq _ _) Ht)|];
    (destruct r; [destruct (Hn eq_refl) as (n & -> & ?)|]; eexists; (split; [done|]); simpl; lia).
Qed.


(** ** The counter [weak_atomic<ssize_t>]

    With [std::atomic]: a [fetch_add] that overflows wraps round. *)

Record weak_atomic := { value : Z }.

Definition weak_load (a : weak_atomic) : Z := value a.
Definition weak_store (x : Z) (a : weak_atomic) : weak_atomic := {| value := x |}.
Definition weak_assign (this other : weak_atomic) : weak_atomic := weak_store (weak_load other) this.
Definition fetch_add_acquire (increment : Z) (a : weak_atomic) : Z * weak_atomic :=
  (value a, {| value := i64 (value a + increment) |}).
Definition fetch_add_release (increment : Z) (a : weak_atomic) : Z * weak_atomic :=
  (value a, {| value := i64 (value a + increment) |}).

(** The counter as the queue's model has it. *)
Definition count_of {T} (s : Blocking T) : weak_atomic := {| value := m_count s |}.

Lemma count_range {T} (s : Blocking T) :
  blocking_inv s → (-1 ≤ m_count s ≤ Z.of_nat (length (enqueued (inner s))))%Z.
Proof.
  intros Hi. pose proof (taken_le _ Hi). pose proof (b_sema _ Hi) as Hs.
  unfold sema_ok in Hs. destruct (bc s); lia.
Qed.

(** The semaphore's counter never wraps: in every state that a queue can
    reach while fewer than [2^63 - 1] elements have been enqueued, and so as
    long as any machine can run it, each [fetch_add] of the semaphore is the
    addition that the model of the queue has in its place, in both directions,
    and what it returns is the model's count. *)
Theorem semaphore_count_exact {T} (sz : Z) (ls : list (blocking_label T)) (s : Blocking T) :
  (1 ≤ sz < 2 ^ 63)%Z → blocking_run ls (blocking_init sz) = Next s →
  (Z.of_nat (length (enqueued (inner s))) < 2 ^ 63 - 1)%Z →
  fetch_add_acquire (-1) (count_of s) = (m_count s, count_of (add_count (-1) s)) ∧
  fetch_add_release 1 (count_of s) = (m_count s, count_of (add_count 1 s)).
Proof.
  intros Hsz Hr Hlen. destruct (blocking_run_safe ls _ (blocking_init_inv (T := T) sz Hsz)) as (s1 & Hr1 & Hi).
  rewrite Hr in Hr1. injection Hr1 as <-. pose proof (count_range s Hi).
  unfold fetch_add_acquire, fetch_add_release, count_of, i64. simpl.
  by rewrite !sint_small by lia.
Qed.

(** ** A machine with a semaphore *)

(** [wait] is answered by a post; a signal comes first, if one is due. *)
Module DemoSem.
Record machine := { posts : nat; gone : nat; due : nat; now : timespec }.
#[export] Instance history : SemHistory machine := {| posted := posts; given := gone |}.

Definition interrupt (m : machine) : machine :=
  {| posts := posts m; gone := gone m; due := Nat.pred (due m); now := now m |}.
Definition unit_taken (arrived : nat) (m : machine) : machine :=
  {| posts := posts m + arrived; gone := S (gone m); due := due m; now := now m |}.
Definition passes (ts : timespec) (m : machine) : machine :=
  {| posts := posts m; gone := gone m; due := due m;
     now := if (nanos (now m) <? nanos ts)%Z then ts else now m |}.

Definition answer (empty : machine → (Z * Errno) * machine) (m : machine) : (Z * Errno) * machine :=
  if decide (due m = 0)
  then if decide (gone m < posts m) then ((0%Z, EINVAL), unit_taken 0 m) else empty m
  else (((-1)%Z, EINTR), interrupt m).

#[export] Instance posix : Posix machine :=
  {| sem_wait := answer (λ m, ((0%Z, EINVAL), unit_taken (S (gone m) - posts m) m));
     sem_trywait := answer (λ m, (((-1)%Z, EAGAIN), m));
     sem_timedwait := λ ts, answer (λ m, (((-1)%Z, ETIMEDOUT), passes ts m));
     sem_post := λ m, ((0%Z, EINVAL), {| posts := S (posts m); gone := gone m; due := due m; now := now m |});
     clock_realtime := now |}.

#[export] Instance posix_ok : PosixOk machine due 100.
Proof.
  split.
  - intros w rc e w' call Hc E.
    assert (∃ empty, call = answer empty ∧ ∀ m rc e m', empty m = ((rc, e), m') →
      due m' = due m ∧ e ≠ EINTR ∧ (rc = 0 ∧ took_one m m' ∨ rc = -1 ∧ took_none m m')%Z) as (empty & -> & Hx).
    { destruct Hc as [->|[->|[ts ->]]]; eexists; (split; [reflexivity|]); intros m rc0 e0 m' [= <- <- <-];
        unfold took_one, took_none; simpl; split_and!; try done; [left|right|right]; lia. }
    unfold answer in E. destruct (decide (due w = 0)) as [Ed|Ed].
    + destruct (decide (gone w < posts w)).
      * injection E as <- <- <-. unfold took_one. simpl. split_and!; [left|..]; try done; lia.
      * destruct (Hx _ _ _ _ E) as (? & ? & ?). split_and!; [done|lia|done].
    + injection E as <- <- <-. unfold took_none. simpl. split_and!; [right|..]; try done; lia.
  - intros w ts e w' _ E. simpl in E. unfold answer in E.
    destruct (decide (due w = 0)); [|injection E as <- <-; by left].
    destruct (decide (gone w < posts w)); [done|]. injection E as <- <-. right. simpl.
    destruct (_ <? _)%Z eqn:El; [lia|apply Z.ltb_ge in El; lia].
  - intros w _. eexists _, _. split; [done|]. unfold did_post. simpl. lia.
Qed.

(** Two signals are due, the semaphore is empty, half a second before the turn
    of a second. *)
Definition start : machine := {| posts := 0; gone := 0; due := 2; now := {| tv_sec := 100; tv_nsec := 999500000 |} |}.
End DemoSem.
#[local] Existing Instances DemoSem.history DemoSem.posix DemoSem.posix_ok.

Lemma posix_timed_wait_deadline_witness :
  ∃ r w', Posix.timed_wait 3 200000 DemoSem.start = (Ret r, w') ∧ waited r DemoSem.start w' ∧
    (r = false → (100999500000 + 200000 * 1000 ≤ nanos (DemoSem.now w'))%Z) ∧
    r = false ∧ DemoSem.now w' = {| tv_sec := 101; tv_nsec := 199500000 |}.
Proof.
  destruct (posix_timed_wait_deadline DemoSem.due 100 3 200000 DemoSem.start) as (r & w' & E & Hw & Hd);
    [lia|vm_compute; split; done|vm_compute; split; done|simpl; lia|].
  exists r, w'. split_and!; [done|done|exact Hd|..]; vm_compute in E; by injection E as <- <-.
Defined.


Lemma semaphore_count_exact_witness :
  ∃ s, blocking_run DemoQueue.race (blocking_init 15) = Next s ∧
    fetch_add_acquire (-1) (count_of s) = (m_count s, count_of (add_count (-1) s)) ∧
    fetch_add_release 1 (count_of s) = (m_count s, count_of (add_count 1 s)).
Proof.
  eexists. split; [vm_compute; reflexivity|].
  apply (semaphore_count_exact 15 DemoQueue.race); [lia|vm_compute; reflexivity|vm_compute; reflexivity].
Defined.
