(* ===== verification/QueueMoves.v ===== *)
(** * Moving a [BlockingReaderWriterQueue]

    [src/queue/readerwriterqueue.hpp]: the move constructor and the move
    assignment, of the blocking queue and of the one inside, when the
    allocation they make succeeds and when it fails. *)

From S2P Require Import Prelude SpscQueue QueueOps QueueWalk BlockingQueue.
From Stdlib Require Import Lia.

Section moves.
Context {T : Type}.

(** The move constructor of the inner queue; [make_block] may fail. *)
Definition try_move_construct (malloc_ok : bool) (other : ReaderWriterQueue T) :
    outcome (ReaderWriterQueue T) * ReaderWriterQueue T :=
  if malloc_ok then let '(this, other) := move_construct other in (Ret this, other)
  else (Throw "std::bad_alloc",
        {| blocks := blocks other; frontBlock := frontBlock other; tailBlock := tailBlock other;
           largestBlockSize := 32 |}).

(** [std::swap]: one construction, two assignments and one destruction. *)
Definition swap_inner (malloc_ok : bool) : prog (ReaderWriterQueue T * ReaderWriterQueue T) unit := λ '(a, b),
  match try_move_construct malloc_ok a with
  | (Ret tmp, a) =>
      let '(a, b) := move_assign a b in
      let '(b, tmp) := move_assign b tmp in
      match destructor tmp with
      | Some _ => (Ret tt, (a, b))
      | None => (UB "dangling block", (a, b))
      end
  | (Throw e, a) => (Throw e, (a, b))
  | (UB e, a) => (UB e, (a, b))
  | (OutOfFuel, a) => (OutOfFuel, (a, b))
  end.

(** The object: the queue, and the semaphore with its two counts behind a
    [unique_ptr]. *)
Record BlockingObject := { queue_ : ReaderWriterQueue T; sema : option (Z * nat) }.

Definition blocking_move_construct (malloc_ok : bool) (other : BlockingObject) :
    outcome BlockingObject * BlockingObject :=
  match try_move_construct malloc_ok (queue_ other) with
  | (Ret this, k) =>
      (Ret {| queue_ := this; sema := sema other |}, {| queue_ := k; sema := None |})
  | (Throw e, k) => (Throw e, {| queue_ := k; sema := sema other |})
  | (UB e, k) => (UB e, {| queue_ := k; sema := sema other |})
  | (OutOfFuel, k) => (OutOfFuel, {| queue_ := k; sema := sema other |})
  end.

Definition blocking_move_assign (malloc_ok : bool) : prog (BlockingObject * BlockingObject) unit :=
  λ '(this, other),
  let '(s1, s2) := (sema other, sema this) in
  let '(r, (k1, k2)) := swap_inner malloc_ok (queue_ this, queue_ other) in
  (r, ({| queue_ := k1; sema := s1 |}, {| queue_ := k2; sema := s2 |})).

(** The object of a queue that nobody works on, and a queue that goes on from
    an object (with the elements that are in it as its history). *)
Definition object_of (s : Blocking T) : BlockingObject :=
  {| queue_ := q (inner s); sema := Some (m_count s, m_sema s) |}.

Definition resume (o : BlockingObject) (content : list T) : option (Blocking T) :=
  '(count, units) ← sema o;
  Some {| inner := {| q := queue_ o; pp := PIdle; cp := CIdle; enqueued := content; dequeued := [] |};
          m_count := count; m_sema := units; bp := BIdle; bc := WIdle; inner_call := InDequeue;
          signalled := Z.to_nat count; taken := 0 |}.

Lemma destroy_fresh : ∃ d, destructor {| blocks := ring (T := T) 1 32; frontBlock := 0; tailBlock := 0;
  largestBlockSize := 32 |} = Some d ∧ objects d = [].
Proof. by eexists. Qed.

(** Moving with memory: assignment swaps the objects, construction takes the
    other's queue and semaphore and leaves an empty queue without one. *)
Lemma moves_with_memory (this other : BlockingObject) :
  blocking_move_assign true (this, other) = (Ret tt, (other, this)) ∧
  ∃ k, blocking_move_construct true other = (Ret other, {| queue_ := k; sema := None |}) ∧
    ∃ d, destructor k = Some d ∧ objects d = [].
Proof.
  destruct destroy_fresh as (d & Hd & Ho). destruct this, other. split.
  - unfold blocking_move_assign, swap_inner. cbn [try_move_construct move_construct move_assign queue_ sema].
    by rewrite Hd.
  - eexists. split; [done|]. by exists d.
Qed.

(** Without memory: construction changes nothing but the size of the next
    block; assignment has already exchanged the semaphores. *)
Lemma moves_without_memory (this other : BlockingObject) :
  ∃ k, blocks k = blocks (queue_ this) ∧ frontBlock k = frontBlock (queue_ this) ∧
    tailBlock k = tailBlock (queue_ this) ∧
    blocking_move_assign false (this, other) =
      (Throw "std::bad_alloc", ({| queue_ := k; sema := sema other |}, {| queue_ := queue_ other; sema := sema this |})).
Proof. eexists. split_and!; cycle 3; [reflexivity|done..]. Qed.
End moves.
#[global] Arguments BlockingObject : clear implicits.

(** A queue goes on where it was moved to: the content of a queue at rest is
    what the one that took its object has in store. *)
Lemma moved_queue_goes_on {T} (s : Blocking T) (content : list T) :
  blocking_inv s → enqueued (inner s) = dequeued (inner s) ++ content →
  quiescent (inner s) → bp s = BIdle → bc s = WIdle →
  ∃ s', resume (object_of s) content = Some s' ∧
    m_count s' = Z.of_nat (length content) ∧ m_sema s' = 0 ∧
    availableApprox s' = availableApprox s.
Proof.
  intros Hi Hc Hq Ep Eb. eexists. split; [done|]. simpl. pose proof (b_sema _ Hi) as Hs.
  pose proof (b_enqueued _ Hi) as He. pose proof (b_consumer _ Hi) as Hk.
  unfold sema_ok, posting, unsignalled, outside in *. rewrite Ep, Eb in *.
  rewrite Hc, length_app in He. split_and!; [lia|lia|done].
Qed.

(** A failed assignment between a queue with an element and an empty one: the
    empty one has the count of the other, and its next [try_dequeue] runs into
    the assertion that a wait which succeeded finds an element. *)
Module DemoMove.
Definition one : Blocking nat := match blocking_run (DemoQueue.enqueue 5) (blocking_init 15) with Next s => s | _ => blocking_init 15 end.
Definition after : BlockingObject nat * BlockingObject nat :=
  (blocking_move_assign false (object_of (blocking_init 15), object_of one)).2.
Definition dequeue : list (blocking_label nat) := BLConsume OpTry :: replicate 12 (BLConsumer true).
End DemoMove.

Lemma failed_move_breaks :
  (∃ s, resume DemoMove.after.1 [] = Some s ∧
     blocking_run DemoMove.dequeue s = Fault "assertion: success") ∧
  (∃ s s', resume DemoMove.after.2 [5] = Some s ∧ blocking_run DemoMove.dequeue s = Next s' ∧
     bc s' = WFalse 0 ∧ dequeued (inner s') = []).
Proof.
  split.
  - eexists. split; [vm_compute; reflexivity|]. vm_compute. reflexivity.
  - eexists _, _. split; [vm_compute; reflexivity|]. split; [vm_compute; reflexivity|]. by split.
Qed.
