(* ===== verification/QueueCapacity.v ===== *)
(** * The capacity the constructor of [ReaderWriterQueue] promises

    [src/queue/readerwriterqueue.hpp]: a queue constructed for [size] elements
    holds at least [size] of them without a further allocation, whatever the
    consumer does meanwhile.  Blocks strictly between the front and the tail
    block are full, and so is the tail block when the producer leaves it. *)

From S2P Require Import Prelude SpscQueue QueueOps QueueWalk.
From Stdlib Require Import Lia.

(** The side conditions of the lemmas on [packed]. *)
Ltac packed_side := simpl; solve [done | by auto | intros ? [] | intros [] | intros ? ? [] | intros _; by left | intros; by split].

Section capacity.
Context {T : Type}.
Implicit Types (s : Spsc T) (b : Block T) (A B : list nat).

Definition full (b : Block T) : Prop := Z.land (tail b + 1) (sizeMask b) = front b.

Lemma full_length b hole items pend : holds b hole items pend → full b → (len items + 1 = size b)%Z.
Proof.
  intros Hh Hf. unfold full in Hf. rewrite (advance_index _ _ _ _ _ Hh), (h_tail _ _ _ _ Hh) in Hf.
  rewrite Zplus_mod_idemp_l in Hf. pose proof (h_front _ _ _ _ Hh) as Hfr. pose proof (h_room _ _ _ _ Hh) as Hr.
  rewrite length_app in Hr. destruct (decide (len items + 1 = size b)%Z) as [|Hne]; [done|]. exfalso.
  assert (len items + 1 = 0)%Z; [|lia].
  apply (mod_add_inj (size b) (front b)); [lia..|].
  rewrite Z.add_assoc, Hf, Z.add_0_r, Z.mod_small; done.
Qed.

(** The block the producer has prepared and not yet published. *)
Definition fresh_block (p : ProducerPc T) (i : nat) : Prop :=
  match p with PLink _ _ nb => i = nb | PPublish _ tbn => i = tbn | _ => False end.

(** The producer has found the tail block full and is going past it. *)
Definition leaving (p : ProducerPc T) : Prop :=
  match p with
  | PNext _ _ _ | PUse _ _ | PUseWrite _ _ _ | PUseTail _ _ _ | PAlloc _ _ | PLink _ _ _ | PPublish _ _ => True
  | _ => False
  end.

Record packed s : Prop := {
  k_middle : ∀ i b, blocks (q s) !! i = Some b → i ≠ tailBlock (q s) → i ≠ frontBlock (q s) →
    ¬ fresh_block (pp s) i → front b = tail b ∨ full b;
  k_tail : leaving (pp s) → ∀ b, blocks (q s) !! tailBlock (q s) = Some b →
    tailBlock (q s) = frontBlock (q s) ∨ full b;
}.

Lemma lookup_with_block i j f (k : ReaderWriterQueue T) b :
  blocks (with_block i f k) !! j = Some b →
  ∃ b0, blocks k !! j = Some b0 ∧ b = if decide (i = j) then f b0 else b0.
Proof.
  simpl. destruct (decide (i = j)) as [<-|Hne].
  - rewrite list_lookup_alter_eq. intros (b0 & Hb0 & ->)%fmap_Some. eauto.
  - rewrite list_lookup_alter_ne by done. eauto.
Qed.

(** A step that keeps the indices of the blocks. *)
Lemma packed_keep s s' :
  packed s →
  (∀ i b, blocks (q s') !! i = Some b → ∃ b0, blocks (q s) !! i = Some b0 ∧
     front b = front b0 ∧ tail b = tail b0 ∧ sizeMask b = sizeMask b0) →
  frontBlock (q s') = frontBlock (q s) → tailBlock (q s') = tailBlock (q s) →
  (∀ i, fresh_block (pp s) i → fresh_block (pp s') i) →
  (leaving (pp s') → leaving (pp s) ∨
     ∀ b, blocks (q s) !! tailBlock (q s) = Some b → full b) →
  packed s'.
Proof.
  intros [Hm Ht] Hb Ef Et Hfr Hle. split; rewrite ?Ef, ?Et.
  - intros i b Hi H1 H2 Hnf. destruct (Hb i b Hi) as (b0 & Hb0 & E1 & E2 & E3). unfold full.
    rewrite E1, E2, E3. apply (Hm i); [done..|]. by intros ?%Hfr.
  - intros Hl b Hi. destruct (Hb _ _ Hi) as (b0 & Hb0 & E1 & E2 & E3). unfold full. rewrite E1, E2, E3.
    destruct (Hle Hl) as [Hl'|Hful]; [by apply Ht|right; by apply Hful].
Qed.

Lemma packed_keep_pc s s' :
  packed s → q s' = q s → (∀ i, fresh_block (pp s) i → fresh_block (pp s') i) →
  (leaving (pp s') → leaving (pp s)) → packed s'.
Proof.
  intros Hp Eq Hf Hl. apply (packed_keep s); rewrite ?Eq; [done| |done|done|done|by auto].
  intros i b Hb. by exists b.
Qed.

Lemma packed_keep_block s s' i f :
  packed s → q s' = with_block i f (q s) →
  (∀ b, front (f b) = front b ∧ tail (f b) = tail b ∧ sizeMask (f b) = sizeMask b) →
  (∀ i, fresh_block (pp s) i → fresh_block (pp s') i) →
  (leaving (pp s') → leaving (pp s) ∨
     ∀ b, blocks (q s) !! tailBlock (q s) = Some b → full b) →
  packed s'.
Proof.
  intros Hp Eq Hf Hfr Hl. eapply packed_keep; [done| |by rewrite Eq|by rewrite Eq|done|done].
  intros j b. rewrite Eq. intros (b0 & Hb0 & ->)%lookup_with_block. exists b0. split; [done|].
  by case_decide; [apply Hf|].
Qed.

(** A change in a block that is exempt before and after. *)
Lemma packed_exempt s s' i f :
  packed s → q s' = with_block i f (q s) → (∀ j, j ≠ i → fresh_block (pp s) j → fresh_block (pp s') j) →
  i = frontBlock (q s) ∨ i = tailBlock (q s) ∨ fresh_block (pp s') i →
  (leaving (pp s') → leaving (pp s) ∧ (i = tailBlock (q s) → i = frontBlock (q s))) → packed s'.
Proof.
  intros [Hm Ht] Eq Hfr Hi Hl. split; rewrite Eq; cbn [tailBlock frontBlock with_block].
  - intros j b (b0 & Hb0 & ->)%lookup_with_block H1 H2 Hnf. case_decide as E; [subst j; naive_solver|].
    apply (Hm j); [done..|]. intros ?%Hfr; [done|congruence].
  - intros Hl' b (b0 & Hb0 & ->)%lookup_with_block. destruct (Hl Hl') as [Hl1 Hl2].
    case_decide as E; [left; rewrite <- E; by apply Hl2|by apply Ht].
Qed.

Lemma producer_packed m s s' A B its :
  inv s A B its → packed s → producer_step m s = Next s' → packed s'.
Proof.
  intros Hi Hk Hs. pose proof (v_producer _ _ _ _ Hi) as Hp. pose proof (v_core _ _ _ _ Hi) as Hc.
  unfold producer_ok in Hp. unfold producer_step, construct, deref, producer_to, producer_done in Hs.
  destruct (pp s) as [|x mode|x mode tb bt nbt|x tb bt nbt|x tb nbt|x mode tb|x tb|x tbn nbt|x tbn nbt
    |x tb|x tb nb|x tbn|ok] eqn:Ep; try done.
  - repeat case_match; simplify_eq; eapply packed_keep_pc; rewrite ?Ep; done.
  - destruct Hp as (-> & b & Hb & -> & ->). rewrite Hb in Hs.
    destruct (_ =? _)%Z eqn:E; simplify_eq/=; (eapply (packed_keep_block s); rewrite ?Ep; [done|done|done|packed_side|]); simpl; [|intros []].
    intros _. right. intros b' Hb'. rewrite Hb in Hb'. injection Hb' as <-. by apply Z.eqb_eq.
  - repeat case_match; simplify_eq. eapply (packed_keep_block s); rewrite ?Ep; packed_side.
  - destruct Hp as (-> & _). simplify_eq. eapply (packed_exempt s); rewrite ?Ep; packed_side.
  - repeat case_match; simplify_eq; (apply (packed_keep_pc s); rewrite ?Ep; packed_side).
  - repeat case_match; simplify_eq. eapply (packed_keep_block s); rewrite ?Ep; packed_side.
  - repeat case_match; simplify_eq. eapply (packed_keep_block s); rewrite ?Ep; packed_side.
  - destruct Hp as [Hh _]. repeat case_match; simplify_eq.
    eapply (packed_exempt s); rewrite ?Ep; [packed_side..|].
    intros _. split; [done|]. intros ->. exfalso. pose proof (c_nodup _ _ _ _ Hc) as (_ & Hd & _)%list.NoDup_app.
    apply (Hd (tailBlock (q s))); [by eapply tail_in|]. destruct B; simplify_eq/=; set_solver.
  - destruct m; simpl in Hs; [|simplify_eq; apply (packed_keep_pc s); rewrite ?Ep; packed_side].
    repeat case_match; simplify_eq; (destruct Hk as [Hm Ht]; rewrite Ep in Hm, Ht; split; simpl).
    all: try (intros i b' Hb' H1 H2 Hnf; apply (Hm i); [|done|done|intros []];
      apply lookup_app_Some in Hb' as [?|[Hge Hb']]; [done|]; destruct Hnf; apply list_lookup_singleton_Some in Hb'; lia).
    all: intros _ b' Hb'; apply (Ht I); apply lookup_app_Some in Hb' as [?|[Hge Hb']]; [done|];
      destruct (tail_block _ _ _ _ Hc) as (bt & Hbt%lookup_lt_Some & _); lia.
  - simplify_eq. eapply (packed_keep_block s); rewrite ?Ep; packed_side.
  - simplify_eq. destruct Hk as [Hm Ht]. rewrite Ep in Hm, Ht. split; simpl; [|done].
    intros i b Hb H1 H2 _. destruct (decide (i = tailBlock (q s))) as [->|Hne]; [|by apply (Hm i)].
    right. by destruct (Ht I b Hb).
Qed.

Lemma consumer_packed s s' A B its :
  inv s A B its → packed s → consumer_step s = Next s' → packed s'.
Proof.
  intros Hi Hk Hs. pose proof (v_consumer _ _ _ _ Hi) as Hp. pose proof (v_core _ _ _ _ Hi) as Hc.
  unfold consumer_ok in Hp. unfold consumer_step, deref, consumer_to in Hs.
  destruct (cp s) as [|n|n fb bf|n fb| |fb|fb nb|fb nb nf|fb bf|fb nf v|n|v] eqn:Ep; try done.
  - repeat case_match; simplify_eq; apply (packed_keep_pc s); packed_side.
  - repeat case_match; simplify_eq; (eapply (packed_keep_block s); packed_side).
  - repeat case_match; simplify_eq; apply (packed_keep_pc s); packed_side.
  - repeat case_match; simplify_eq; (eapply (packed_keep_block s); packed_side).
  - repeat case_match; simplify_eq; apply (packed_keep_pc s); packed_side.
  - repeat case_match; simplify_eq; (eapply (packed_keep_block s); packed_side).
  - simplify_eq. destruct Hp as (Ei & (A1 & EA) & _).
    assert (fb = frontBlock (q s)) as -> by (destruct (c_front _ _ _ _ Hc) as [? EA']; congruence).
    assert (frontBlock (q s) ≠ tailBlock (q s)) as Hnt by (eapply front_not_tail; [done|rewrite EA; simpl; lia]).
    destruct Hk as [Hm Ht]. split; simpl.
    + intros i b Hb H1 H2 Hnf. destruct (decide (i = frontBlock (q s))) as [->|]; [|by apply (Hm i)].
      left. destruct (front_block _ _ _ _ Hc) as (b' & Hb' & Hh). rewrite Hb in Hb'. injection Hb' as <-.
      by apply (holds_empty _ _ _ _ Hh).
    + intros Hl b Hb. destruct (Ht Hl b Hb) as [?|?]; [congruence|by right].
  - repeat case_match; simplify_eq; (eapply (packed_keep_block s); packed_side).
  - destruct Hp as (-> & _). simplify_eq. eapply (packed_exempt s); packed_side.
Qed.
End capacity.

(** ** A refused element *)

Section refused.
Context {T : Type} (sz : Z) (n0 : nat) (m0 : Z).
Implicit Types (s : Spsc T) (b : Block T) (A B : list nat).

(** At least [n0] blocks of at least [m0] elements each. *)
Record reserved s : Prop := {
  r_count : n0 ≤ length (blocks (q s));
  r_largest : (m0 < largestBlockSize (q s))%Z;
  r_masks : Forall (λ b, (m0 ≤ sizeMask b)%Z) (blocks (q s));
}.

Lemma reserved_alter s s' i f :
  reserved s → q s' = with_block i f (q s) → (∀ b, sizeMask (f b) = sizeMask b) → reserved s'.
Proof.
  intros [Hc Hl Hm] Eq Hf. split; rewrite Eq; simpl; [by rewrite length_alter|done|].
  apply Forall_alter; [done|]. intros b _ ?. by rewrite Hf.
Qed.

Lemma reserved_same s s' :
  reserved s → blocks (q s') = blocks (q s) → largestBlockSize (q s') = largestBlockSize (q s) → reserved s'.
Proof. intros [Hc Hl Hm] Eb El. split; by rewrite ?Eb, ?El. Qed.

Hypothesis Hm0 : (0 ≤ m0)%Z.

Lemma step_reserved l s s' : reserved s → spsc_step l s = Next s' → reserved s'.
Proof.
  intros Hr Hs. destruct l as [x mode|m| |]; cbn [spsc_step] in Hs.
  - destruct (pp s); try done; injection Hs as <-; by apply (reserved_same s).
  - unfold producer_step, construct, deref, producer_to, producer_done in Hs.
    repeat (case_match; simplify_eq); try (by apply (reserved_same s)); try (by eapply (reserved_alter s));
      destruct Hr as [Hc Hl Hm]; (split; simpl; [rewrite length_app; lia|lia|]);
      (apply Forall_app; split; [done|]); (apply Forall_singleton; simpl; lia).
  - destruct (cp s); try done; injection Hs as <-; by apply (reserved_same s).
  - unfold consumer_step, deref, consumer_to in Hs.
    repeat (case_match; simplify_eq); try (by apply (reserved_same s)); by eapply (reserved_alter s).
Qed.

Definition good s : Prop := ∃ A B its, inv s A B its ∧ covers s A B ∧ packed s ∧ reserved s.

Lemma step_keeps_good l s s' : good s → spsc_step l s = Next s' → good s'.
Proof.
  intros (A & B & its & Hi & Hcov & Hk & Hr) Hs. pose proof (step_safe l _ _ _ _ Hi) as Hsafe.
  rewrite Hs in Hsafe. destruct Hsafe as (A' & B' & its' & Hi'). exists A', B', its'.
  split_and!; [done|by eapply (step_covers l s s')| |by eapply step_reserved].
  destruct l as [x mode|m| |]; cbn [spsc_step] in Hs.
  - destruct (pp s) eqn:Ep; try done; injection Hs as <-; apply (packed_keep_pc s); rewrite ?Ep; packed_side.
  - eapply producer_packed; [exact Hi|exact Hk|exact Hs].
  - destruct (cp s); try done; injection Hs as <-; apply (packed_keep_pc s); packed_side.
  - eapply consumer_packed; [exact Hi|exact Hk|exact Hs].
Qed.

Lemma run_keeps_good ls s s' : good s → spsc_run ls s = Next s' → good s'.
Proof.
  revert s. induction ls as [|l ls IH]; intros s Hg; simpl; [by intros [= <-]|].
  destruct (spsc_step l s) as [s1| |] eqn:E; [|by apply IH|done]. apply IH. by eapply step_keeps_good.
Qed.

(** The number of elements in the queue reaches what was asked for. *)
Definition crowded s : Prop := (sz ≤ len (enqueued s) - len (dequeued s))%Z.

Lemma count_at_least (its : nat → list T) l (m : Z) :
  (∀ i, i ∈ l → (m ≤ len (its i))%Z) → (len l * m ≤ len (concat (its <$> l)))%Z.
Proof.
  induction l as [|i l IH]; intros Hl; csimpl; [lia|]. rewrite length_app.
  pose proof (Hl i ltac:(left)). assert (∀ j, j ∈ l → (m ≤ len (its j))%Z) as Hl' by (intros; apply Hl; by right).
  specialize (IH Hl'). lia.
Qed.

Hypothesis Henough : ((sz ≤ m0)%Z ∧ n0 = 1) ∨ (sz ≤ (Z.of_nat n0 - 1) * m0)%Z.

(** The producer gives up only when the ring is used up: crowded, if there are
    several blocks. *)
Lemma give_up_crowded s x b :
  good s → pp s = PNext x CannotAlloc (tailBlock (q s)) → blocks (q s) !! tailBlock (q s) = Some b →
  next b = Some (frontBlock (q s)) → 2 ≤ length (blocks (q s)) → crowded s.
Proof.
  intros (A & B & its & Hi & Hcov & Hk & Hr) Ep Hb Hn Hlen. pose proof (v_core _ _ _ _ Hi) as Hc.
  pose proof (next_of_tail _ _ _ _ _ Hc Hb) as Hn'. rewrite Hn in Hn'. injection Hn' as Hn'.
  pose proof (c_nodup _ _ _ _ Hc) as (_ & Hd & _)%list.NoDup_app.
  assert (B = []) as ->.
  { destruct B as [|i B]; [done|]. simpl in Hn'. destruct (Hd i); [|by left]. rewrite <- Hn'. by eapply front_in. }
  assert (Z.of_nat (length A) = len (blocks (q s))) as HlenA.
  { f_equal. assert (A ++ [] ≡ₚ seq 0 (length (blocks (q s)))) as Hp.
    { pose proof (c_nodup _ _ _ _ Hc) as Hnd. apply NoDup_Permutation; [done|apply NoDup_seq|].
      intros i. rewrite elem_of_seq. split.
      - intros Hin. destruct (c_blocks _ _ _ _ Hc i Hin) as (bi & Hbi%lookup_lt_Some & _). lia.
      - intros [_ Hlt]. destruct (Hcov i) as [?|(x' & tb & E)]; [by apply lookup_lt_is_Some|done|].
        rewrite Ep in E. done. }
    rewrite app_nil_r in Hp. by rewrite Hp, length_seq. }
  destruct (c_front _ _ _ _ Hc) as [A1 EA].
  assert (frontBlock (q s) ≠ tailBlock (q s)) as Hft by (eapply front_not_tail; [done|lia]).
  assert (∀ i, i ∈ A1 → (m0 ≤ len (its i))%Z) as Hfull.
  { intros i Hin. destruct (c_blocks _ _ _ _ Hc i) as (bi & Hbi & Hh); [rewrite EA; set_solver|].
    rewrite Ep in Hh. simpl in Hh.
    assert (its i ≠ []) as Hne by (apply (c_full _ _ _ _ Hc); rewrite EA; simpl; by rewrite drop_0).
    assert (i ≠ frontBlock (q s)) as Hif.
    { intros ->. pose proof (c_nodup _ _ _ _ Hc) as Hnd. rewrite app_nil_r, EA in Hnd.
      by apply list.NoDup_cons in Hnd as [? _]. }
    assert (full bi) as Hf.
    { destruct (decide (i = tailBlock (q s))) as [->|Hit].
      - destruct (k_tail _ Hk) with bi as [?|?]; [by rewrite Ep|done|congruence|done].
      - destruct (k_middle _ Hk i bi) as [E|?]; [done..|by rewrite Ep; intros []| |done].
        by apply (holds_empty _ _ _ _ Hh) in E. }
    pose proof (full_length _ _ _ _ Hh Hf) as Hlen'. unfold size in Hlen'.
    pose proof (Forall_lookup_1 _ _ _ _ (r_masks _ Hr) Hbi) as Hmask. simpl in Hmask. lia. }
  unfold crowded. rewrite (c_content _ _ _ _ Hc), length_app, EA. csimpl. rewrite length_app.
  apply count_at_least in Hfull. rewrite EA in HlenA. simpl in HlenA. pose proof (r_count _ Hr) as Hcount.
  destruct Henough as [[? ?]|?]; nia.
Qed.

(** It finds the tail block full only when that block is. *)
Lemma found_full_crowded s s' x mode tb bt nbt m :
  good s → pp s = PFront x mode tb bt nbt → producer_step m s = Next s' → pp s' = PNext x mode tb →
  length (blocks (q s)) = 1 → crowded s.
Proof.
  intros (A & B & its & Hi & Hcov & Hk & Hr) Ep Hs Ep' Hlen. pose proof (v_core _ _ _ _ Hi) as Hc.
  pose proof (v_producer _ _ _ _ Hi) as Hp. unfold producer_ok in Hp. rewrite Ep in Hp.
  destruct Hp as (-> & b & Hb & -> & ->). unfold producer_step, deref, producer_to in Hs. rewrite Ep, Hb in Hs.
  destruct (_ =? _)%Z eqn:E; [|simpl in Hs; by injection Hs as <-]. apply Z.eqb_eq in E.
  destruct (tail_block _ _ _ _ Hc) as (b' & Hb' & Hh). rewrite Hb in Hb'. injection Hb' as <-.
  pose proof (full_length _ _ _ _ Hh E) as Hfl. unfold size in Hfl.
  pose proof (Forall_lookup_1 _ _ _ _ (r_masks _ Hr) Hb) as Hmask. simpl in Hmask.
  assert (len (its (tailBlock (q s))) ≤ len (concat (its <$> A)))%Z as Hin.
  { destruct (c_tail _ _ _ _ Hc) as [A0 ->]. rewrite fmap_app, concat_app, length_app. simpl.
    rewrite app_nil_r. lia. }
  unfold crowded. rewrite (c_content _ _ _ _ Hc), length_app. pose proof (r_count _ Hr) as Hcount.
  destruct Henough as [[? ?]|?]; nia.
Qed.

(** A call of [try_enqueue] that can still fail, and one that cannot. *)
Definition trying (p : ProducerPc T) : Prop :=
  match p with
  | PStart _ CannotAlloc | PFront _ CannotAlloc _ _ _ | PNext _ CannotAlloc _ => True
  | _ => False
  end.
Definition wins (p : ProducerPc T) : Prop :=
  match p with
  | PWrite _ _ _ _ | PTail _ _ _ | PUse _ _ | PUseWrite _ _ _ | PUseTail _ _ _ | PPublish _ _ | PDone true => True
  | _ => False
  end.

Lemma consumer_keeps l s s' :
  spsc_step l s = Next s' → is_enqueue l = false → is_producer l = false →
  pp s' = pp s ∧ length (blocks (q s')) = length (blocks (q s)).
Proof.
  intros Hs He Hp. destruct l as [x mode|m| |]; try done; cbn [spsc_step] in Hs.
  - destruct (cp s); try done; by injection Hs as <-.
  - by apply consumer_links in Hs as (_ & -> & -> & _).
Qed.

Lemma wins_step l s s' : is_enqueue l = false → spsc_step l s = Next s' → wins (pp s) → wins (pp s').
Proof.
  intros He Hs Hw. destruct (is_producer l) eqn:Hp; [|by destruct (consumer_keeps l s s') as [-> _]].
  destruct l as [|m| |]; try done. cbn [spsc_step] in Hs.
  unfold producer_step, construct, deref, producer_to, producer_done in Hs.
  repeat (case_match; simplify_eq/=); done.
Qed.

Lemma wins_run ls s s' : count is_enqueue ls = 0 → spsc_run ls s = Next s' → wins (pp s) → wins (pp s').
Proof.
  revert s. induction ls as [|l ls IH]; intros s Hn; simpl in *; [by intros [= <-]|].
  destruct (is_enqueue l) eqn:He; [lia|].
  destruct (spsc_step l s) as [s1| |] eqn:E; [|by apply IH|done]. intros Hr Hw. eapply IH; [done..|]. by eapply wins_step.
Qed.

(** What one step of the producer makes of a call that can still fail. *)
Lemma trying_step m s s' :
  good s → trying (pp s) → producer_step m s = Next s' →
  wins (pp s') ∨
  (trying (pp s') ∧ length (blocks (q s')) = length (blocks (q s)) ∧
   (∀ x tb, pp s' = PNext x CannotAlloc tb → ∃ bt nbt, pp s = PFront x CannotAlloc tb bt nbt)) ∨
  (pp s' = PDone false ∧ ∃ x b, pp s = PNext x CannotAlloc (tailBlock (q s)) ∧
     blocks (q s) !! tailBlock (q s) = Some b ∧ next b = Some (frontBlock (q s))).
Proof.
  intros (A & B & its & Hi & _) Ht Hs. pose proof (v_producer _ _ _ _ Hi) as Hp. unfold producer_ok in Hp.
  unfold producer_step, deref, producer_to in Hs.
  destruct (pp s) as [|x [|]|x [|] tb bt nbt| | |x [|] tb| | | | | | |] eqn:Ep; simpl in Ht; try done.
  - case_match; [|done]. destruct (_ =? _)%Z; simplify_eq/=; [right; left|by left]. by split_and!.
  - case_match; [|done]. destruct (_ =? _)%Z; simplify_eq/=; [right; left|by left].
    rewrite length_alter. split_and!; [done..|]. intros x' tb' [= <- <-]. eauto.
  - subst tb. destruct (blocks (q s) !! tailBlock (q s)) as [b|] eqn:Hb; [|done].
    case_bool_decide as En; simplify_eq/=; [right; right|by left]. split; [done|]. by exists x, b.
Qed.

Definition crowded_during (ls : list (spsc_label T)) s : Prop :=
  ∃ ls1 ls2 s1, ls = ls1 ++ ls2 ∧ spsc_run ls1 s = Next s1 ∧ crowded s1.

Lemma crowded_now ls s : crowded s → crowded_during ls s.
Proof. by exists [], ls, s. Qed.

Lemma crowded_later l ls s s1 :
  spsc_step l s = Next s1 → crowded_during ls s1 → crowded_during (l :: ls) s.
Proof. intros Hs (ls1 & ls2 & s2 & -> & Hr & Hc). exists (l :: ls1), ls2, s2. simpl. by rewrite Hs. Qed.

Lemma refused_crowded ls s s' :
  good s → count is_enqueue ls = 0 → spsc_run ls s = Next s' → trying (pp s) → pp s' = PDone false →
  crowded_during ls s ∨ ((∃ x tb, pp s = PNext x CannotAlloc tb) ∧ length (blocks (q s)) = 1).
Proof.
  intros Hg Hn Hr Ht Hd. revert s Hg Hr Ht. induction ls as [|l ls IH]; intros s Hg Hr Ht; simpl in *.
  { injection Hr as ->. by rewrite Hd in Ht. }
  destruct (is_enqueue l) eqn:He; [lia|]. specialize (IH Hn).
  destruct (spsc_step l s) as [s1| |] eqn:E; [| |done].
  2:{ destruct (IH s Hg Hr Ht) as [(ls1 & ls2 & s2 & -> & Hr1 & Hc)|?]; [left|by right].
      exists (l :: ls1), ls2, s2. simpl. by rewrite E. }
  pose proof (step_keeps_good _ _ _ Hg E) as Hg1. destruct (is_producer l) eqn:Hp.
  2:{ destruct (consumer_keeps l s s1 E He Hp) as [Epp El]. rewrite <- Epp, <- El.
      destruct (IH s1 Hg1 Hr) as [?|?]; [by rewrite Epp|left; by eapply crowded_later|by right]. }
  destruct l as [|m| |]; try done. cbn [spsc_step] in E.
  destruct (trying_step _ _ _ Hg Ht E) as [Hw|[(Ht1 & El & Hpn)|(_ & x & b & Ep & Hb & Hnx)]].
  - apply (wins_run _ _ _ Hn Hr) in Hw. by rewrite Hd in Hw.
  - destruct (IH s1 Hg1 Hr Ht1) as [?|[(x & tb & Ep1) Hlen]]; [left; by eapply (crowded_later (LProducer m))|].
    left. destruct (Hpn _ _ Ep1) as (bt & nbt & Ep). apply crowded_now.
    eapply found_full_crowded; [done|exact Ep|exact E|exact Ep1|lia].
  - destruct (decide (length (blocks (q s)) = 1)) as [Hlen|Hlen]; [right; eauto|left].
    apply crowded_now. eapply give_up_crowded; [done|exact Ep|exact Hb|exact Hnx|].
    apply lookup_lt_Some in Hb. lia.
Qed.
End refused.

(** ** The constructor's promise *)

Lemma init_good {T} (sz : Z) :
  (1 ≤ sz < 2 ^ 63)%Z →
  ∃ n0 m0, (0 ≤ m0)%Z ∧ (((sz ≤ m0)%Z ∧ n0 = 1) ∨ (sz ≤ (Z.of_nat n0 - 1) * m0)%Z) ∧
    good n0 m0 (spsc_init (T := T) sz) ∧ n0 = length (blocks (make_queue (T := T) sz)).
Proof.
  intros Hsz. destruct (init_covers (T := T) sz Hsz) as (A & B & its & Hi & Hcov).
  assert (packed (spsc_init (T := T) sz)) as Hk.
  { split; [|by intros []]. intros i b Hb _ _ _. left. revert Hb. unfold spsc_init, make_queue, ring. simpl.
    destruct (_ <? _)%Z; simpl; [rewrite list_lookup_fmap; intros (j & _ & ->)%fmap_Some; done|].
    by intros [_ <-]%list_lookup_singleton_Some. }
  destruct (ceilToPow2_spec (sz + 1)) as (n & Hn & En & Hb); [lia|].
  assert (u64 (sz + 1) = (sz + 1)%Z) as Eu by (apply u64_small; lia).
  destruct (MAX_BLOCK_SIZE * 2 <? 2 ^ n)%Z eqn:E.
  - exists (Z.to_nat ((sz + MAX_BLOCK_SIZE * 2 - 3) / (MAX_BLOCK_SIZE - 1))), 511%Z.
    unfold make_queue. rewrite Eu, En, E. unfold MAX_BLOCK_SIZE. simpl blocks. unfold ring.
    rewrite length_fmap, length_seq. split_and!; [lia| | |done].
    + right. pose proof (Z.div_mod (sz + 512 * 2 - 3) (512 - 1) ltac:(lia)) as Hdm.
      pose proof (Z.mod_pos_bound (sz + 512 * 2 - 3) (512 - 1) ltac:(lia)) as Hmp.
      rewrite Z2Nat.id by (apply Z.div_pos; lia). lia.
    + exists A, B, its. split_and!; [done..|]. unfold spsc_init, make_queue. rewrite Eu, En, E.
      unfold MAX_BLOCK_SIZE, ring. split; simpl; [by rewrite length_fmap, length_seq|lia|].
      apply Forall_fmap, Forall_forall. intros i _. simpl. lia.
  - exists 1, (2 ^ n - 1)%Z. unfold make_queue. rewrite Eu, En, E.
    split_and!; [lia|left; split; [lia|done]| |done].
    exists A, B, its. split_and!; [done..|]. unfold spsc_init, make_queue. rewrite Eu, En, E.
    split; simpl; [done|lia|]. apply Forall_singleton. simpl. lia.
Qed.

(** C18: a queue constructed for [size] elements takes that many without a
    further allocation.  Whatever has happened on the queue before, and
    whatever the consumer does during the call, [try_enqueue] (which does not
    allocate) refuses an element only if at some moment of the call at least
    [size] elements were in the queue. *)
Theorem constructor_capacity {T} (sz : Z) (ls ls' : list (spsc_label T)) (x : T) (s s' : Spsc T) :
  (1 ≤ sz < 2 ^ 63)%Z → spsc_run ls (spsc_init sz) = Next s → producer_rank (pp s) = 0 →
  spsc_run (LEnqueue x CannotAlloc :: ls') s = Next s' → count is_enqueue ls' = 0 → pp s' = PDone false →
  ∃ ls1 ls2 s1, ls' = ls1 ++ ls2 ∧ spsc_run (LEnqueue x CannotAlloc :: ls1) s = Next s1 ∧
    crowded sz s1.
Proof.
  intros Hsz Hr Hp Hr' Hn Hd. destruct (init_good (T := T) sz Hsz) as (n0 & m0 & Hm & He & Hg & _).
  pose proof (run_keeps_good n0 m0 Hm _ _ _ Hg Hr) as Hgs.
  assert (∃ s1, spsc_step (LEnqueue x CannotAlloc) s = Next s1 ∧ pp s1 = PStart x CannotAlloc) as (s1 & Es & Ep)
    by (simpl; destruct (pp s); try done; by eexists).
  cbn [spsc_run] in Hr' |- *. rewrite Es in Hr' |- *.
  destruct (refused_crowded sz n0 m0 Hm He ls' s1 s') as [(l1 & l2 & s2 & ? & ? & ?)|[(y & tb & E) _]].
  - by eapply (step_keeps_good n0 m0 Hm).
  - done.
  - done.
  - by rewrite Ep.
  - done.
  - by exists l1, l2, s2.
  - by rewrite Ep in E.
Qed.

(** A queue for one element refuses the second. *)
Lemma constructor_capacity_witness :
  ∃ s s', spsc_run (demo_enqueue 1) (spsc_init 1) = Next s ∧
    spsc_run (LEnqueue 2 CannotAlloc :: replicate 7 (LProducer true)) s = Next s' ∧ pp s' = PDone false ∧
    ∃ ls1 ls2 s1, replicate 7 (LProducer true) = ls1 ++ ls2 ∧
      spsc_run (LEnqueue 2 CannotAlloc :: ls1) s = Next s1 ∧
      crowded 1 s1.
Proof.
  eexists _, _. split; [vm_compute; reflexivity|]. split; [vm_compute; reflexivity|]. split; [reflexivity|].
  eapply (constructor_capacity 1 (demo_enqueue 1) (replicate 7 (LProducer true)) 2);
    [lia|vm_compute; reflexivity|vm_compute; reflexivity|vm_compute; reflexivity|reflexivity|reflexivity].
Defined.
