(* ===== verification/QueueMemory.v ===== *)
(** * The memory of a block of [ReaderWriterQueue]

    [src/queue/readerwriterqueue.hpp]: a block and the array of its elements are
    one allocation, in which [make_block] places both with [align_for].  The
    model of the queue takes the array as a map from indices; here are the
    addresses.  A pointer is its address, and arithmetic on it and on [size_t]
    wraps at 64 bits. *)

From S2P Require Import Prelude SpscQueue QueueOps QueueWalk.
From Stdlib Require Import Lia.

(** [sizeof] and [alignof] of a type. *)
Record Layout := { size_of : Z; alignment : Z }.

(** What the language promises of them. *)
Definition layout_ok (t : Layout) : Prop :=
  (0 < alignment t ∧ 0 < size_of t ∧ size_of t mod alignment t = 0)%Z.

Section memory.
Context (block elem : Layout).           (* [Block] and [T] *)

Definition align_for (u : Layout) (ptr : Z) : Z :=
  u64 (ptr + (alignment u - ptr mod alignment u) mod alignment u).

(** The number of bytes asked of [malloc]. *)
Definition block_bytes (capacity : Z) : Z :=
  let size := u64 (size_of block + alignment block - 1) in
  u64 (size + u64 (u64 (size_of elem * capacity) + alignment elem - 1)).

(** Where the block and its [data] are in the memory that [malloc] returned. *)
Definition place_block (newBlockRaw : Z) : Z * Z :=
  let newBlockAligned := align_for block newBlockRaw in
  let newBlockData := align_for elem (u64 (newBlockAligned + size_of block)) in
  (newBlockAligned, newBlockData).

(** [block->data + i * sizeof(T)] *)
Definition element_address (data i : Z) : Z := u64 (data + u64 (i * size_of elem)).

Lemma align_for_spec u ptr :
  (0 < alignment u)%Z → (0 ≤ ptr)%Z → (ptr + alignment u ≤ 2 ^ 64)%Z →
  (align_for u ptr mod alignment u = 0 ∧ ptr ≤ align_for u ptr < ptr + alignment u)%Z.
Proof.
  intros Ha Hp Hm. unfold align_for. set (a := alignment u) in *. set (pad := ((a - ptr mod a) mod a)%Z).
  assert (0 ≤ pad < a)%Z as Hpad by (apply Z.mod_pos_bound; lia).
  unfold u64. rewrite (Z.mod_small (ptr + pad)) by lia. split; [|lia].
  subst pad. rewrite Zplus_mod_idemp_r. replace (ptr + (a - ptr mod a))%Z with ((ptr / a + 1) * a)%Z.
  - by apply Z.mod_mul; lia.
  - pose proof (Z.div_mod ptr a). lia.
Qed.

Lemma element_aligned (d k : Z) :
  layout_ok elem → (d mod alignment elem = 0)%Z → ((d + k * size_of elem) mod alignment elem = 0)%Z.
Proof.
  intros (Ha & _ & Hm) Hd. apply Z.mod_divide in Hm as [c ->]; [|lia]. by rewrite Z.mul_assoc, Z.mod_add by lia.
Qed.

Lemma element_address_exact (d k mask : Z) :
  (0 < size_of elem)%Z → (0 ≤ d)%Z → (d + size_of elem * (mask + 1) ≤ 2 ^ 64)%Z → (0 ≤ k ≤ mask)%Z →
  element_address d k = (d + k * size_of elem)%Z ∧ (d ≤ d + k * size_of elem)%Z ∧
  (d + k * size_of elem + size_of elem ≤ d + size_of elem * (mask + 1))%Z.
Proof.
  intros Hs Hd Hm Hk. unfold element_address. set (n := size_of elem) in *.
  assert (0 ≤ k * n ∧ k * n + n ≤ n * (mask + 1))%Z as [H1 H2] by (clear Hm; nia).
  rewrite (u64_small (k * n)), u64_small by lia. lia.
Qed.

Lemma elements_apart (d k k' : Z) :
  (0 < size_of elem)%Z → k' ≠ k →
  (d + k * size_of elem + size_of elem ≤ d + k' * size_of elem ∨
   d + k' * size_of elem + size_of elem ≤ d + k * size_of elem)%Z.
Proof. intros Hs Hne. destruct (Z.lt_total k k') as [|[|]]; [left; nia|done|right; nia]. Qed.

Lemma block_bytes_exact capacity :
  layout_ok block → layout_ok elem → (0 ≤ capacity)%Z →
  (size_of block + alignment block + size_of elem * capacity + alignment elem ≤ 2 ^ 64)%Z →
  block_bytes capacity = (size_of block + alignment block - 1 + (size_of elem * capacity + alignment elem - 1))%Z.
Proof.
  intros (? & ? & _) (? & ? & _) Hc Hm. unfold block_bytes.
  assert (0 ≤ size_of elem * capacity)%Z by (apply Z.mul_nonneg_nonneg; lia).
  rewrite (u64_small (size_of block + _ - _)), (u64_small (size_of elem * _)) by lia.
  by rewrite !u64_small by (rewrite ?u64_small; lia).
Qed.
End memory.

(** ** The objects of a queue in memory *)

Section in_place.
Context {T : Type}.
Implicit Types (s : Spsc T) (b : Block T).

(** The slots of a block are those of its array. *)
Definition slots_in_array b : Prop :=
  (0 ≤ sizeMask b < 1024)%Z ∧ ∀ k, is_Some (data b !! k) → (0 ≤ k ≤ sizeMask b)%Z.

Definition in_place s : Prop :=
  (1 ≤ largestBlockSize (q s) ≤ 1024)%Z ∧ Forall slots_in_array (blocks (q s)).

Lemma in_place_alter (f : Block T → Block T) i bs :
  (∀ b, sizeMask (f b) = sizeMask b ∧ data (f b) = data b) →
  Forall slots_in_array bs → Forall slots_in_array (alter f i bs).
Proof.
  intros Hf Hb. apply Forall_alter; [done|]. intros b _ [Hm Hk]. destruct (Hf b) as [Em Ed].
  unfold slots_in_array. by rewrite Em, Ed.
Qed.

Lemma in_place_insert i b pos (x : T) bs :
  bs !! i = Some b → (0 <=? pos)%Z && (pos <=? sizeMask b)%Z = true →
  Forall slots_in_array bs → Forall slots_in_array (alter (set_data (<[pos := x]> (data b))) i bs).
Proof.
  intros Hi [H0 Hm]%andb_prop Hb. apply Z.leb_le in H0, Hm. apply Forall_alter; [done|].
  intros b' Hb' [Hs Hk]. rewrite Hi in Hb'. injection Hb' as <-. split; [done|]. simpl.
  intros k [v [[<- _]|[_ Hv]]%lookup_insert_Some]; [done|]. by apply Hk.
Qed.

Lemma in_place_delete i b pos bs :
  bs !! i = Some b → Forall slots_in_array bs → Forall slots_in_array (alter (set_data (delete pos (data b))) i bs).
Proof.
  intros Hi Hb. apply Forall_alter; [done|].
  intros b' Hb' [Hs Hk]. rewrite Hi in Hb'. injection Hb' as <-. split; [done|]. simpl.
  intros k [v [_ Hv]%lookup_delete_Some]. by apply Hk.
Qed.

#[local] Hint Resolve in_place_alter in_place_delete : core.

Lemma step_in_place l s s' : in_place s → spsc_step l s = Next s' → in_place s'.
Proof.
  intros [Hl Hb] Hs. unfold in_place.
  destruct l as [x mode|m| |]; cbn [spsc_step] in Hs.
  - destruct (pp s); try done; by injection Hs as <-.
  - unfold producer_step, construct, deref, producer_to, producer_done, MAX_BLOCK_SIZE in Hs.
    repeat (case_match; simplify_eq/=); try (by split); try (split; [done|]; by eauto);
      try (match goal with H : _ && bool_decide _ = true |- _ => apply andb_prop in H as [H _] end;
           split; [done|]; by apply in_place_insert);
      (split; [lia|]); (apply Forall_app; split; [done|]); apply Forall_singleton; (split; [simpl; lia|]);
      simpl; intros k [v [<- _]%lookup_singleton_Some]; lia.
  - destruct (cp s); try done; by injection Hs as <-.
  - unfold consumer_step, deref, consumer_to in Hs.
    repeat (case_match; simplify_eq/=); try (by split); (split; [done|]; by eauto).
Qed.

Lemma init_in_place sz : (1 ≤ sz < 2 ^ 63)%Z → in_place (spsc_init (T := T) sz).
Proof.
  intros Hsz. destruct (init_covers (T := T) sz Hsz) as (A & B & its & Hi & _).
  destruct (c_largest _ _ _ _ (v_core _ _ _ _ Hi)) as (n & Hn & En).
  pose proof (Z.pow_pos_nonneg 2 n). destruct (init_small (T := T) sz Hsz) as [Hl Hb]. split; [lia|].
  revert En Hl Hb. unfold spsc_init, make_queue, ring. simpl. destruct (_ <? _)%Z; simpl; intros En Hl Hb.
  - apply Forall_fmap, Forall_forall. intros i _. split; [simpl; unfold MAX_BLOCK_SIZE; lia|by intros k []].
  - apply Forall_singleton. split; [simpl; lia|by intros k []].
Qed.

Lemma run_in_place ls s s' : in_place s → spsc_run ls s = Next s' → in_place s'.
Proof.
  revert s. induction ls as [|l ls IH]; intros s Hp; simpl; [by intros [= <-]|].
  destruct (spsc_step l s) as [s1| |] eqn:E; [|by apply IH|done]. apply IH. by eapply step_in_place.
Qed.
End in_place.

(** C17: every object of the queue is where it may be.  Take any run of the queue,
    one of its blocks and an address that [malloc] may have returned for it (the
    memory does not wrap, and 1024 elements and a block fit the address space).
    Then the block lies aligned in this memory, and every element that the block
    holds lies in it too, aligned, behind the block itself, and apart from every
    other element. *)
Theorem queue_memory_safe {T} (block elem : Layout) (sz : Z) (ls : list (spsc_label T)) (s : Spsc T)
    (i : nat) (b : Block T) (raw : Z) :
  layout_ok block → layout_ok elem →
  (size_of block + alignment block + size_of elem * 1024 + alignment elem ≤ 2 ^ 64)%Z →
  (1 ≤ sz < 2 ^ 63)%Z → spsc_run ls (spsc_init sz) = Next s → blocks (q s) !! i = Some b →
  let bytes := block_bytes block elem (sizeMask b + 1) in
  (0 ≤ raw)%Z → (raw + bytes ≤ 2 ^ 64)%Z →
  let '(at_, data_) := place_block block elem raw in
  (at_ mod alignment block = 0 ∧ raw ≤ at_ ∧ at_ + size_of block ≤ raw + bytes)%Z ∧
  ∀ k, is_Some (data b !! k) →
    let p := element_address elem data_ k in
    (p mod alignment elem = 0 ∧ at_ + size_of block ≤ p ∧ p + size_of elem ≤ raw + bytes)%Z ∧
    ∀ k', is_Some (data b !! k') → k' ≠ k →
      let p' := element_address elem data_ k' in (p + size_of elem ≤ p' ∨ p' + size_of elem ≤ p)%Z.
Proof.
  intros Hb He Hfit Hsz Hr Hi bytes H0 Hraw.
  destruct (run_in_place ls _ _ (init_in_place sz Hsz) Hr) as [_ Hall].
  destruct (Forall_lookup_1 _ _ _ _ Hall Hi) as [Hmask Hslots].
  pose proof Hb as (Hba & Hbs & _). pose proof He as (Hea & Hes & _).
  assert (size_of elem ≤ size_of elem * (sizeMask b + 1) ≤ size_of elem * 1024)%Z as Hcap by nia.
  assert (bytes = size_of block + alignment block - 1 + (size_of elem * (sizeMask b + 1) + alignment elem - 1))%Z
    as Ebytes by (apply block_bytes_exact; try done; lia). clearbody bytes.
  unfold place_block. destruct (align_for_spec block raw) as [Hal1 Hr1]; [lia..|].
  set (at_ := align_for block raw) in *. rewrite (u64_small (at_ + size_of block)) by lia.
  destruct (align_for_spec elem (at_ + size_of block)) as [Hal2 Hr2]; [lia..|].
  set (d := align_for elem (at_ + size_of block)) in *. split; [lia|].
  assert (0 ≤ d ∧ d + size_of elem * (sizeMask b + 1) ≤ raw + bytes)%Z as [Hd0 Hdend] by (clear Hfit; lia).
  intros k Hk%Hslots.
  destruct (element_address_exact elem d k (sizeMask b)) as (-> & Hlo & Hend); [clear Hfit Hcap Hr1 Hr2; lia..|].
  split; [split_and!; [by apply element_aligned|clear Hfit Hcap; lia..]|].
  intros k' Hk'%Hslots Hne.
  destruct (element_address_exact elem d k' (sizeMask b)) as (-> & _ & _); [clear Hfit Hcap Hr1 Hr2; lia..|].
  by apply elements_apart.
Qed.

(** Two elements of 32 bytes in the first block of a queue for 3. *)
Module DemoMemory.
Definition block : Layout := {| size_of := 192; alignment := 64 |}.
Definition elem : Layout := {| size_of := 32; alignment := 16 |}.
Definition labels : list (spsc_label nat) :=
  [LEnqueue 7 CanAlloc] ++ replicate 4 (LProducer true) ++ [LEnqueue 8 CanAlloc] ++ replicate 4 (LProducer true).
Definition filled : Block nat :=
  match spsc_run labels (spsc_init 3) with
  | Next s => default (make_block 0) (blocks (q s) !! 0)
  | _ => make_block 0
  end.
End DemoMemory.

Lemma queue_memory_safe_witness :
  let bytes := block_bytes DemoMemory.block DemoMemory.elem (sizeMask DemoMemory.filled + 1) in
  data DemoMemory.filled = {[ 0%Z := 7; 1%Z := 8 ]} ∧
  let '(at_, data_) := place_block DemoMemory.block DemoMemory.elem 1008 in
  (at_ mod alignment DemoMemory.block = 0 ∧ 1008 ≤ at_ ∧ at_ + size_of DemoMemory.block ≤ 1008 + bytes)%Z ∧
  ∀ k, is_Some (data DemoMemory.filled !! k) →
    let p := element_address DemoMemory.elem data_ k in
    (p mod alignment DemoMemory.elem = 0 ∧ at_ + size_of DemoMemory.block ≤ p ∧
     p + size_of DemoMemory.elem ≤ 1008 + bytes)%Z ∧
    ∀ k', is_Some (data DemoMemory.filled !! k') → k' ≠ k →
      let p' := element_address DemoMemory.elem data_ k' in
      (p + size_of DemoMemory.elem ≤ p' ∨ p' + size_of DemoMemory.elem ≤ p)%Z.
Proof.
  split; [vm_compute; reflexivity|].
  eapply (queue_memory_safe DemoMemory.block DemoMemory.elem 3 DemoMemory.labels _ 0 DemoMemory.filled 1008).
  - repeat split.
  - repeat split.
  - simpl. lia.
  - lia.
  - vm_compute. reflexivity.
  - vm_compute. reflexivity.
  - lia.
  - vm_compute. intros E. discriminate E.
Defined.
