(* ===== verification/Handles.v ===== *)
(** * Handles of the client libraries

    The objects that own a handle of a C library and release it in their
    destructor: [BackfillStore] (sqlite3), [PgEmbeddingSink] (libpq),
    [HttpClient] (libcurl) and [LlamaProvider] (model, context and adapter of
    llama.cpp).  The libraries are seen here only as what hands out and takes
    back handles; what else their calls do is in the components' own files.
    Which call fails is given by the arguments. *)

From S2P Require Import Prelude.
From Stdlib Require Import Lia.

(** The handles that have been given out and not yet taken back. *)
Record Heap := { live : gset nat; fresh : nat }.

Definition heap_ok (h : Heap) : Prop := ∀ x, x ∈ live h → x < fresh h.

Section heap.
Context {O : Type}.
Abbreviation obj := (O * Heap)%type.

Definition acquire : prog obj nat := λ '(o, h),
  (Ret (fresh h), (o, {| live := {[fresh h]} ∪ live h; fresh := S (fresh h) |})).
Definition release (x : nat) : prog obj unit := λ '(o, h),
  if decide (x ∈ live h) then (Ret tt, (o, {| live := live h ∖ {[x]}; fresh := fresh h |}))
  else (UB "handle released twice", (o, h)).

(** A use of a handle that has been released is undefined too. *)
Definition use (x : nat) : prog obj unit := λ '(o, h),
  if decide (x ∈ live h) then (Ret tt, (o, h)) else (UB "handle used after its release", (o, h)).

Definition set_obj (f : O → O) : prog obj unit := λ '(o, h), (Ret tt, (f o, h)).
Definition get_obj {A} (f : O → A) : prog obj A := λ '(o, h), (Ret (f o), (o, h)).

(** [if (p) { free(p); }] *)
Definition release_opt (p : option nat) : prog obj unit :=
  match p with Some x => release x | None => mret tt end.
End heap.

(** ** [BackfillStore] *)
Module StoreHandle.
Record Obj := { db_ : option nat }.
Definition construct : Obj := {| db_ := None |}.
Definition set_db (d : option nat) (o : Obj) : Obj := {| db_ := d |}.

(** [sqlite3_open] gives a handle also when it fails; [tables] is how many of
    the two statements succeed. *)
Definition open (opened : bool) (tables : nat) : prog (Obj * Heap) unit :=
  x ← acquire; set_obj (set_db (Some x)) ;;
  if negb opened then
    use x ;; release x ;; set_obj (set_db None) ;; throw "BackfillStore: failed to open"
  else
    use x ;;
    if decide (tables < 2) then throw "BackfillStore: exec failed" else mret tt.

Definition destroy : prog (Obj * Heap) unit :=
  d ← get_obj db_;
  match d with Some x => release x ;; set_obj (set_db None) | None => mret tt end.
End StoreHandle.

(** ** [PgEmbeddingSink] *)
Module PgHandle.
Record Obj := { pg_ : option nat }.
Definition construct : Obj := {| pg_ := None |}.
Definition set_pg (d : option nat) (o : Obj) : Obj := {| pg_ := d |}.

(** [checked]: the extension is there and [verify] does not throw. *)
Definition init (connected checked : bool) : prog (Obj * Heap) unit :=
  x ← acquire; set_obj (set_pg (Some x)) ;;
  if negb connected then
    use x ;; release x ;; set_obj (set_pg None) ;; throw "EmbeddingSink: pg connection failed"
  else
    use x ;;
    if (checked : bool) then mret tt else throw "EmbeddingSink: pgvector extension not installed in target db".

Definition destroy : prog (Obj * Heap) unit :=
  d ← get_obj pg_;
  match d with Some x => release x ;; set_obj (set_pg None) | None => mret tt end.
End PgHandle.

(** ** [HttpClient] *)
Module CurlHandle.
Record Obj := { curl_ : option nat }.
Definition set_curl (d : option nat) (o : Obj) : Obj := {| curl_ := d |}.

(** The constructor goes on without a handle when there is none. *)
Definition construct (easy_init : bool) : prog (Obj * Heap) unit :=
  if (easy_init : bool) then x ← acquire; set_obj (set_curl (Some x)) else set_obj (set_curl None).

Definition destroy : prog (Obj * Heap) unit :=
  d ← get_obj curl_;
  match d with Some x => release x ;; set_obj (set_curl None) | None => mret tt end.
End CurlHandle.

(** ** [LlamaProvider] *)
Module LlamaHandle.
(** [backend] is the number of [llama_backend_init] less that of
    [llama_backend_free]. *)
Record Obj := { model_ : option nat; ctx_ : option nat; lora_ : option nat; backend : Z }.
Definition construct : Obj := {| model_ := None; ctx_ := None; lora_ := None; backend := 0 |}.
Definition set_model (d : option nat) (o : Obj) : Obj :=
  {| model_ := d; ctx_ := ctx_ o; lora_ := lora_ o; backend := backend o |}.
Definition set_ctx (d : option nat) (o : Obj) : Obj :=
  {| model_ := model_ o; ctx_ := d; lora_ := lora_ o; backend := backend o |}.
Definition set_lora (d : option nat) (o : Obj) : Obj :=
  {| model_ := model_ o; ctx_ := ctx_ o; lora_ := d; backend := backend o |}.
Definition add_backend (n : Z) (o : Obj) : Obj :=
  {| model_ := model_ o; ctx_ := ctx_ o; lora_ := lora_ o; backend := (backend o + n)%Z |}.

(** What goes well; [adapter] is whether a LoRA path is configured. *)
Record Luck := { loaded : bool; context : bool; adapter : bool; lora_loaded : bool; activated : bool }.

Definition init (l : Luck) : prog (Obj * Heap) unit :=
  set_obj (add_backend 1) ;;
  if negb (loaded l) then set_obj (set_model None) ;; throw "LlamaProvider: failed to load model"
  else
    m ← acquire; set_obj (set_model (Some m)) ;;
    use m ;;
    if negb (context l) then
      release m ;; set_obj (set_model None) ;; throw "LlamaProvider: failed to create llama context"
    else
      c ← acquire; set_obj (set_ctx (Some c)) ;;
      (if negb (adapter l) then mret tt
       else
         use m ;;
         if negb (lora_loaded l) then throw "LlamaProvider: failed to load LoRA adapter"
         else
           a ← acquire; set_obj (set_lora (Some a)) ;;
           use c ;; use a ;;
           if negb (activated l) then throw "LlamaProvider: failed to activate LoRA adapter" else use a) ;;
      use m ;; use c.

Definition destroy : prog (Obj * Heap) unit :=
  a ← get_obj lora_; release_opt a ;;
  c ← get_obj ctx_; release_opt c ;;
  m ← get_obj model_; release_opt m ;;
  set_obj (add_backend (-1)).
End LlamaHandle.

(** ** Whatever fails, the destructor leaves nothing behind *)

(** An initialisation that returned or threw, and the destructor after it: no
    handle is lost, none is used or released after its release. *)
Definition cleans_up {O} (init destroy : prog (O * Heap) unit) (o : O) : Prop :=
  ∀ h, heap_ok h →
    ∃ r o1 h1 o2 h2, init (o, h) = (r, (o1, h1)) ∧ (r = Ret tt ∨ ∃ e, r = Throw e) ∧
      destroy (o1, h1) = (Ret tt, (o2, h2)) ∧ live h2 = live h.

Ltac handles :=
  repeat first [progress (unfold mbind, prog_bind, acquire, release, use, set_obj, get_obj, release_opt, throw,
                            mret, prog_ret; simpl)
               | rewrite decide_True by set_solver].

Lemma fresh_not_live h :
  heap_ok h →
  (fresh h ∉ live h ∧ S (fresh h) ∉ live h ∧ S (S (fresh h)) ∉ live h) ∧
  fresh h ≠ S (fresh h) ∧ fresh h ≠ S (S (fresh h)) ∧ S (fresh h) ≠ S (S (fresh h)).
Proof. intros Hh. split; [split_and!; intros Hin%Hh; lia|lia]. Qed.

Ltac finish_handles :=
  handles; (split; [first [by left | right; by eexists]|]); handles; (split; [reflexivity|]);
  simpl; apply leibniz_equiv; set_solver.

(** No library handle is leaked, released twice or used after its release:
    for the store, the PostgreSQL sink, the HTTP client and the llama provider,
    whichever call of their initialisation fails or whether all succeed, the
    initialisation returns or throws an exception, and the destructor that
    follows releases exactly the handles that are still held. *)
Theorem handles_released :
  (∀ opened tables, cleans_up (StoreHandle.open opened tables) StoreHandle.destroy StoreHandle.construct) ∧
  (∀ connected checked, cleans_up (PgHandle.init connected checked) PgHandle.destroy PgHandle.construct) ∧
  (∀ easy_init o, cleans_up (CurlHandle.construct easy_init) CurlHandle.destroy o) ∧
  (∀ luck, cleans_up (LlamaHandle.init luck) LlamaHandle.destroy LlamaHandle.construct).
Proof.
  split_and!.
  - intros opened tables h ((Hf & _ & _) & _)%fresh_not_live. unfold StoreHandle.open, StoreHandle.destroy.
    destruct opened; [destruct (decide (tables < 2))|]; do 5 eexists; (split; [handles; reflexivity|]); finish_handles.
  - intros connected checked h ((Hf & _ & _) & _)%fresh_not_live. unfold PgHandle.init, PgHandle.destroy.
    destruct connected, checked; do 5 eexists; (split; [handles; reflexivity|]); finish_handles.
  - intros easy o h ((Hf & _ & _) & _)%fresh_not_live. unfold CurlHandle.construct, CurlHandle.destroy.
    destruct easy; do 5 eexists; (split; [handles; reflexivity|]); finish_handles.
  - intros [lo co ad ll ac] h ((Hf & Hf1 & Hf2) & Hn1 & Hn2 & Hn3)%fresh_not_live. unfold LlamaHandle.init, LlamaHandle.destroy. simpl.
    destruct lo, co, ad, ll, ac; do 5 eexists; (split; [handles; reflexivity|]); finish_handles.
Qed.

(** A second [open] of the same store loses the first handle. *)
Lemma reopened_store_leaks :
  ∃ o1 h1 o2 h2,
    (StoreHandle.open true 2 ;; StoreHandle.open true 2) (StoreHandle.construct, {| live := ∅; fresh := 0 |})
      = (Ret tt, (o1, h1)) ∧
    StoreHandle.destroy (o1, h1) = (Ret tt, (o2, h2)) ∧ live h2 = {[0]}.
Proof. do 4 eexists. split; [vm_compute; reflexivity|]. split; [vm_compute; reflexivity|]. vm_compute. reflexivity. Qed.
