(* ===== verification/Logger.v ===== *)
(** * [init_logger] of [src/main.cpp]

    What [main] asks of spdlog after it has become a daemon: a rotating file
    whose limits are unsigned 64-bit conversions of [int] settings, and what is
    left when spdlog refuses.  spdlog is the class [Spdlog]. *)

From S2P Require Import Prelude Config.
From Stdlib Require Import Lia.

(** The registry of spdlog as the process sees it. *)
Class Spdlog (W : Type) := {
  create_rotating : string → string → Z → Z → W → option string * W;   (* an error is a [spdlog_ex] *)
  set_default_logger : string → W → W;
  set_level : string → W → W;
  set_pattern : string → W → W;
  flush_every : Z → W → W;
}.

Section logger.
Context {W : Type} `{Spdlog W}.

(** [static_cast<size_t>(settings.log_max_size_mb) * 1024 * 1024] and
    [static_cast<size_t>(settings.log_max_files)] *)
Definition max_size_bytes (s : AppSettings) : Z := u64 (u64 (u64 (log_max_size_mb s) * 1024) * 1024).
Definition max_files (s : AppSettings) : Z := u64 (log_max_files s).

(** Whether the file logger is in place afterwards; a refusal is only printed. *)
Definition init_logger (s : AppSettings) : prog W bool := λ w,
  let '(err, w) := create_rotating "walkrie" (log_file s) (max_size_bytes s) (max_files s) w in
  match err with
  | Some _ => (Ret false, w)
  | None =>
      let w := set_default_logger "walkrie" w in
      let w := set_level (log_level s) w in
      let w := set_pattern "[%Y-%m-%d %H:%M:%S.%e] [%t] [%l] %v" w in
      let w := flush_every 3 w in
      (Ret true, w)
  end.
End logger.

(** Settings that make sense keep their meaning... *)
Lemma logger_limits (s : AppSettings) :
  (0 ≤ log_max_size_mb s < 2 ^ 31)%Z → (0 ≤ log_max_files s < 2 ^ 31)%Z →
  max_size_bytes s = (log_max_size_mb s * 1048576)%Z ∧ max_files s = log_max_files s.
Proof.
  intros Hs Hf. unfold max_size_bytes, max_files. rewrite (u64_small (log_max_size_mb s)), (u64_small (log_max_files s)) by lia.
  rewrite (u64_small (log_max_size_mb s * 1024)), u64_small by lia. lia.
Qed.

(** ... and negative ones, which nothing checks, become huge. *)
Lemma logger_negative_limits (s : AppSettings) :
  (- 2 ^ 31 ≤ log_max_files s < 0)%Z → (2 ^ 64 - 2 ^ 31 ≤ max_files s)%Z.
Proof.
  intros Hf. unfold max_files, u64.
  rewrite <- (Z_mod_plus_full _ 1), Z.mod_small by lia. lia.
Qed.

(** With a library that refuses more than 200000 files the program goes on, as
    a daemon without output, with no log at all. *)
Lemma logger_refused `{Spdlog W} (s : AppSettings) (w : W) :
  (∀ name file size files w, (200000 < files)%Z → ∃ e w', create_rotating name file size files w = (Some e, w')) →
  (- 2 ^ 31 ≤ log_max_files s < 0)%Z → ∃ w', init_logger s w = (Ret false, w').
Proof.
  intros Hlaw Hf. pose proof (logger_negative_limits s Hf). unfold init_logger.
  destruct (Hlaw "walkrie" (log_file s) (max_size_bytes s) (max_files s) w) as (e & w' & ->); [lia|]. by exists w'.
Qed.
