(* ===== verification/Pipeline.v ===== *)
(** * [src/main.cpp]: the whole process

    What [main] builds from the configuration, how it starts the sources, and
    how the event loop, the dispatcher's worker thread and the callbacks
    between them run together once it has.  The end-to-end guarantee of the
    program is stated here: what a status update tells PostgreSQL it may forget
    has reached every required sink. *)

From S2P Require Import Prelude ByteUtils WalFrame Event PgOutputParser Config Dispatcher SinkBatch Libpq Http BackfillStore Backfill ReplicationSource BackfillManager.
From stdpp Require Import relations.
From Stdlib Require Import Lia.

Abbreviation src := PgReplicationSource.
Abbreviation id_of := ReplicationSource.source_id.

(** ** What [main] builds *)

(** The union of all sinks' mappings. *)
Definition backfill_mappings (cfg : AppConfig) : list TableMapping :=
  concat (sink_mappings <$> sinks cfg).

Definition source_config (cfg : AppConfig) (s : SourceConfig) : PgReplicationConfig :=
  {| rc_host := src_host s; rc_port := src_port s; rc_dbname := src_dbname s;
     rc_user := src_user s; rc_password := src_password s; slot_name := src_slot_name s;
     publication_name := src_publication s; rc_tls := src_tls s; rc_backfill := src_backfill s;
     backfill_table_mappings := if src_backfill s then backfill_mappings cfg else [];
     backfill_store_path :=
       if src_backfill s
       then backfill_dir (settings cfg) +:+ "/" +:+ src_slot_name s +:+ ".sqlite3" else "" |}.

(** Ids are handed out from 1; [disk] is what the files hold. *)
Definition make_sources (cfg : AppConfig) (disk : string → Store) : list src :=
  imap (λ i s, let c := source_config cfg s in
               make_source (Z.of_nat (S i)) c (disk (backfill_store_path c))) (sources cfg).

Definition required_override (c : SinkConfiguration) : option bool :=
  match c with
  | PgSink c => pg_required_override c
  | JsonSink c => js_required_override c
  | QdrantSink c => qd_required_override c
  | MilvusSink c => mv_required_override c
  end.

(** The sink created from the [i]-th configuration is object [i]. *)
Definition make_handles `{EventSink W} (cfg : AppConfig) : list SinkHandle :=
  imap (λ i c, handle_with i (default (sink_default_required i) (required_override c))) (sinks cfg).

Definition make_dispatcher (cfg : AppConfig) : DispatcherConfig :=
  main_dispatcher (batch_size (settings cfg)) (batch_timeout_ms (settings cfg)).

(** The lambda [dispatch_handle], up to the call of [post_job]. *)
Definition make_job (sinks : list SinkHandle) (source_id : Z) (event : ChangeEvent) : EventJob :=
  {| ev := event; Dispatcher.source_id := source_id; job_sinks := sinks |}.

(** ** Starting the sources *)

Section start.
Context {Srv : Type} `{Libpq Srv} `{CopyStream Srv} `{JsonText} {OS : Type} `{Processes OS}.
Context (create_parent : string → outcome unit).

(** The body of the loop; a status other than [Spawned] is only logged. *)
Definition start_source : prog ((BackfillManager * OS) * (src * Srv)) bool :=
  ok ← on_snd (connect create_parent);
  if negb ok then mret false
  else
    ok ← on_snd run_backfill_dump_if_required;
    if negb ok then mret false
    else
      _ ← spawn_if_required;
      ok ← on_snd start_streaming;
      if negb ok then mret false else on_snd register_event_loop.

(** The loop: [main] returns at the first source that fails. *)
Fixpoint start_sources (ws : list (src * Srv)) : prog (BackfillManager * OS) (bool * list (src * Srv)) :=
  λ m, match ws with
       | [] => (Ret (true, []), m)
       | w :: ws =>
           match start_source (m, w) with
           | (Ret true, (m, w)) => ('(ok, ws) ← start_sources ws; mret (ok, w :: ws)) m
           | (Ret false, (m, w)) => (Ret (false, w :: ws), m)
           | (Throw e, (m, w)) => (Throw e, m)
           | (UB e, (m, w)) => (UB e, m)
           | (OutOfFuel, (m, w)) => (OutOfFuel, m)
           end
       end.
End start.

(** ** The running process *)

(** A connection together with the status updates sent on it. *)
#[export] Instance logged_stream `{CopyStream Srv} : CopyStream (Srv * list (list byte)) :=
  {| pq_consume := λ s, let '(r, srv) := pq_consume s.1 in (r, (srv, s.2));
     pq_get_copy := λ s, let '(r, srv) := pq_get_copy s.1 in (r, (srv, s.2));
     pq_put_copy := λ m s, let '(r, srv) := pq_put_copy m s.1 in (r, (srv, s.2 ++ [m]));
     pq_socket := λ s, pq_socket s.1;
     event_new := λ s, let '(r, srv) := event_new s.1 in (r, (srv, s.2));
     event_add := λ s, let '(r, srv) := event_add s.1 in (r, (srv, s.2));
     unix_time := λ s, let '(r, srv) := unix_time s.1 in (r, (srv, s.2)) |}.

Section read.
Context {Srv : Type} `{CopyStream Srv} `{JsonText}.

(** One turn of the loop of [drain_available_messages]: whether it goes on. *)
Definition read_message : prog (src * Srv) bool :=
  m ← on_snd (lib pq_get_copy);
  match m with
  | CopyNone => mret false
  | CopyEnd err =>
      upd (set_error err) ;;
      upd (λ s, set_loop (handle_ s) ((λ _, false) <$> read_event_ s)
                         ((λ _, false) <$> timer_event_ s) s) ;;
      mret false
  | CopyData b rest => handle_message b rest ;; mret true
  end.

(** The loop is a sequence of such turns. *)
Lemma drain_loop_turns fuel w :
  drain_loop (S fuel) w = (go ← read_message; if (go : bool) then drain_loop fuel else mret tt) w.
Proof.
  cbn [drain_loop]. unfold read_message, mbind, prog_bind.
  destruct (on_snd (lib pq_get_copy) w) as [[[|err|b rest]| | |] w1]; try done.
  by destruct (handle_message b rest w1) as [[[]| | |] ?].
Qed.
End read.

Inductive event_label :=
| OnConsume (id : Z)     (* PQconsumeInput at the start of on_read *)
| OnMessage (id : Z)     (* one turn of the drain loop *)
| OnTimer (id : Z)       (* on_timer *)
| OnPost                 (* the next call of post_job *)
| OnStop                 (* the loop is broken: the dispatcher is destroyed *)
| OnWork                 (* a step of the worker thread *)
| OnConfirm              (* the worker's next call of on_confirmed_ *)
| OnFlush (id : Z).      (* flush_confirmed_lsn after the worker was joined *)

Section process.
Context {W : Type} `{EventSink W} {Srv : Type} `{CopyStream Srv} `{JsonText}.
Context (cfg : AppConfig) (jitter : nat → Z) (fuel : nat).

(** [outbox]: events handed to [dispatch_handle] whose [post_job] is still to
    run; [applied]: how many of the worker's confirmations have been made. *)
Record Process := {
  sys : @System W;
  source_by_id : gmap Z (src * (Srv * list (list byte)));
  outbox : list EventJob;
  applied : nat;
}.

(** A callback of the event loop on a source. *)
Definition on_source {A} (id : Z) (m : prog (src * (Srv * list (list byte))) A) (p : Process)
    : option Process :=
  w ← source_by_id p !! id;
  match m w with
  | (Ret _, w') =>
      let events := drop (length (handled w.1)) (handled w'.1) in
      Some {| sys := sys p; source_by_id := <[id := w']> (source_by_id p);
              outbox := outbox p ++ (make_job (make_handles cfg) (id_of w.1) <$> events);
              applied := applied p |}
  | _ => None
  end.

Definition with_sys (st : System) (p : Process) : Process :=
  {| sys := st; source_by_id := source_by_id p; outbox := outbox p; applied := applied p |}.

Definition all_applied (p : Process) : bool :=
  bool_decide (applied p = length (confirm_calls (disp_of (sys p)))).

(** The callback of [set_on_confirmed]. *)
Definition on_confirm (id lsn : Z) (p : Process) : Process :=
  {| sys := sys p;
     source_by_id := alter (λ w, (set_confirmed_lsn lsn w).2) id (source_by_id p);
     outbox := outbox p; applied := S (applied p) |}.

(** The event loop runs one callback at a time; the worker's steps and
    callbacks come in between. *)
Definition process_step (l : event_label) (p : Process) : option Process :=
  match l with
  | OnPost => match outbox p with
              | [] => None
              | j :: js => Some {| sys := post_job j (sys p); source_by_id := source_by_id p;
                                   outbox := js; applied := applied p |}
              end
  | OnWork => if all_applied p
              then st ← worker_step (make_dispatcher cfg) jitter fuel (sys p); Some (with_sys st p)
              else None
  | OnConfirm => '(id, lsn) ← confirm_calls (disp_of (sys p)) !! applied p;
                 Some (on_confirm id lsn p)
  | OnConsume id => if bool_decide (outbox p = []) then on_source id (on_snd (lib pq_consume)) p else None
  | OnMessage id => if bool_decide (outbox p = []) then on_source id read_message p else None
  | OnTimer id => if bool_decide (outbox p = []) then on_source id ping_update p else None
  | OnStop => if bool_decide (outbox p = []) then Some (with_sys (request_stop (sys p)) p) else None
  | OnFlush id =>
      match pc (sys p) with
      | Exited => if bool_decide (outbox p = []) && all_applied p
                  then on_source id flush_confirmed_lsn p else None
      | _ => None
      end
  end.

Fixpoint process_run (ls : list event_label) (p : Process) : option Process :=
  match ls with
  | [] => Some p
  | l :: ls => p ← process_step l p; process_run ls p
  end.

(** The process when [event_base_dispatch] starts. *)
Definition boot (w : W) (t : Z) (ws : list (src * Srv)) : Process :=
  {| sys := initial w t;
     source_by_id := list_to_map ((λ w, (id_of w.1, (w.1, (w.2, [])))) <$> ws);
     outbox := []; applied := 0 |}.
End process.
Arguments Process _ _ : clear implicits.

(** ** What the callbacks do to a source *)

Lemma parse_xlogdata_start buf h :
  parse_xlogdata_header (Some buf) = Ret (Some h) → (0 ≤ wal_start h < 2 ^ 64)%Z.
Proof.
  unfold parse_xlogdata_header. case_bool_decide as Hlen; [done|]. unfold xlogdata_header_len in Hlen.
  destruct (frame_read_u64_defined (drop 1 buf)) as (v & Ev & Hv); [rewrite length_drop; lia|].
  rewrite Ev. unfold mbind, outcome_bind.
  do 2 (case_match; [|done..]). by intros [= <-].
Qed.

Section moved.
Context {Srv : Type} `{CopyStream Srv} `{JsonText}.
Abbreviation world := (src * (Srv * list (list byte)))%type.

(** The empty extension of a list. *)
Ltac nothing_more := exists []; split; [by rewrite app_nil_r|apply Forall_nil; done].

(** More events handed over, all at 64-bit positions; more status updates
    sent, all reporting the confirmed position; identity, start and confirmed
    position as they were. *)
Definition moved (w w' : world) : Prop :=
  id_of w'.1 = id_of w.1 ∧ start_lsn_ w'.1 = start_lsn_ w.1 ∧
  confirmed_lsn_ w'.1 = confirmed_lsn_ w.1 ∧
  (∃ evs, handled w'.1 = handled w.1 ++ evs ∧ Forall (λ e, 0 ≤ commit_lsn e < 2 ^ 64)%Z evs) ∧
  (∃ msgs, w'.2.2 = w.2.2 ++ msgs ∧
     Forall (λ m, ∃ t, m = status_message (confirmed_lsn_ w.1) t) msgs).

#[export] Instance moved_preorder : PreOrder moved.
Proof.
  split.
  - intros w. split_and!; [done..| |]; nothing_more.
  - intros w1 w2 w3 (?&?&Ec&(e1&E1&F1)&m1&M1&G1) (?&?&?&(e2&E2&F2)&m2&M2&G2). split_and!; try congruence.
    + exists (e1 ++ e2). rewrite E2, E1, app_assoc. split; [done|]. by apply Forall_app.
    + exists (m1 ++ m2). rewrite M2, M1, app_assoc. split; [done|]. rewrite Ec in G2. by apply Forall_app.
Qed.

(** Nothing of all this changes. *)
Lemma moved_still (w w' : world) :
  id_of w'.1 = id_of w.1 → start_lsn_ w'.1 = start_lsn_ w.1 →
  confirmed_lsn_ w'.1 = confirmed_lsn_ w.1 → handled w'.1 = handled w.1 → w'.2.2 = w.2.2 → moved w w'.
Proof.
  intros ? ? ? Eh El. unfold moved.
  split_and!; [done..| |]; nothing_more.
Qed.

Lemma moved_upd f :
  (∀ s, id_of (f s) = id_of s ∧ start_lsn_ (f s) = start_lsn_ s ∧
        confirmed_lsn_ (f s) = confirmed_lsn_ s ∧ handled (f s) = handled s) →
  keeps moved (upd f).
Proof. intros Hf w. destruct (Hf w.1) as (?&?&?&?). by apply moved_still. Qed.

(** A library call that sends nothing. *)
Lemma moved_lib {A} (f : Srv * list (list byte) → A * (Srv * list (list byte))) :
  (∀ s, (f s).2.2 = s.2) → keeps moved (on_snd (lib f)).
Proof.
  intros Hf w. specialize (Hf w.2). unfold on_snd, lib.
  destruct (f w.2) as [a s]. by apply moved_still.
Qed.

Lemma moved_now : keeps moved now.
Proof. apply moved_lib. intros [s l]. simpl. by destruct (unix_time s). Qed.

Lemma moved_util {A} (m : prog BackfillUtil A) : keeps moved (on_util m).
Proof.
  intros w. unfold on_util. destruct (backfill_util_ w.1); [|done].
  destruct (m b). by apply moved_still.
Qed.

Lemma moved_parser {A} (m : prog PgOutputParser A) : keeps moved (on_parser m).
Proof. intros w. unfold on_parser. destruct (m (parser_ w.1)). by apply moved_still. Qed.

#[local] Hint Resolve moved_now moved_util moved_parser : keeps.

Lemma moved_ping : keeps moved ping_update.
Proof.
  intros w. unfold ping_update, now, gets, on_snd, lib, mbind, prog_bind. cbn [fst snd].
  destruct w as [s [srv log]]. simpl. destruct (unix_time srv) as [t srv1]. simpl.
  destruct (pq_put_copy (status_message (confirmed_lsn_ s) t) srv1) as [ok srv2].
  unfold moved. split_and!; [done..|nothing_more|]. eexists. split; [done|].
  apply Forall_singleton. eauto.
Qed.
#[local] Hint Resolve moved_ping : keeps.

Lemma moved_handle_event e : (0 ≤ commit_lsn e < 2 ^ 64)%Z → keeps moved (handle_event e).
Proof.
  intros He. apply keeps_bind; [exact _|auto with keeps typeclass_instances|intros s].
  destruct (handle_ s); [|auto with keeps typeclass_instances].
  intros w. unfold moved. split_and!; [done..| |nothing_more].
  exists [e]. split; [done|]. by apply Forall_singleton.
Qed.

Lemma moved_forward lsn e : (0 ≤ lsn < 2 ^ 64)%Z → keeps moved (forward_event lsn e).
Proof.
  intros Hl. assert (keeps moved (handle_event (set_commit_lsn lsn e))) by by apply moved_handle_event.
  unfold forward_event. keep_going.
Qed.

Lemma moved_message b rest : keeps moved (handle_message b rest).
Proof.
  assert (∀ t, keeps moved (upd (set_status_time t))) by by intros; apply moved_upd.
  unfold handle_message. case_bool_decide; [keep_going|]. case_bool_decide; [|keep_going].
  unfold lift. intros w. unfold mbind at 1, prog_bind at 1.
  destruct (parse_xlogdata_header _) as [[h|]| | |] eqn:Eh; try done.
  pose proof (parse_xlogdata_start _ _ Eh) as Hs. revert w.
  assert (∀ e, keeps moved (forward_event (wal_start h) e)) by by intros; apply moved_forward.
  assert (keeps moved (upd (λ s, set_lsns (wal_start h) (confirmed_lsn_ s) s))) by by apply moved_upd.
  change (keeps moved (try_catch (process_xlogdata h) (λ _, mret tt) ;;
    upd (λ s, set_lsns (wal_start h) (confirmed_lsn_ s) s))).
  unfold process_xlogdata. keep_going.
Qed.

Lemma moved_read : keeps moved read_message.
Proof.
  assert (keeps moved (on_snd (lib pq_get_copy))).
  { apply moved_lib. intros [s l]. simpl. by destruct (pq_get_copy s). }
  assert (∀ f, (∀ s, id_of (f s) = id_of s ∧ start_lsn_ (f s) = start_lsn_ s ∧
    confirmed_lsn_ (f s) = confirmed_lsn_ s ∧ handled (f s) = handled s) → keeps moved (upd f))
    by apply moved_upd.
  pose proof moved_message. unfold read_message. keep_going; try by apply moved_upd.
Qed.

Lemma moved_consume : keeps moved (on_snd (lib pq_consume)).
Proof. apply moved_lib. intros [s l]. simpl. by destruct (pq_consume s). Qed.

Lemma moved_flush : keeps moved flush_confirmed_lsn.
Proof. unfold flush_confirmed_lsn. keep_going. Qed.
End moved.

(** ** What starting a source leaves *)

(** A postcondition of the normal return, whatever the state before. *)
Definition returns {W A} (m : prog W A) (P : A → W → Prop) : Prop :=
  ∀ w a w', m w = (Ret a, w') → P a w'.

Lemma returns_bind {W A B} (m : prog W A) (f : A → prog W B) P :
  (∀ a, returns (f a) P) → returns (m ≫= f) P.
Proof.
  intros Hf w b w'. unfold mbind, prog_bind. destruct (m w) as [[a| | |] w1]; [|done..]. apply Hf.
Qed.

Lemma returns_ret {W A} (a : A) (P : A → W → Prop) : (∀ w, P a w) → returns (mret a) P.
Proof. by intros HP w b w' [= <- <-]. Qed.

Section started.
Context {Srv : Type} `{Libpq Srv} `{CopyStream Srv} `{JsonText} {OS : Type} `{Processes OS}.

(** Two sources that agree on the fields [f] reads. *)
Definition same_on {B} (f : src → B) (w w' : src * Srv) : Prop := f w'.1 = f w.1.

#[export] Instance same_on_preorder {B} (f : src → B) : PreOrder (same_on f).
Proof. split; [done|]. intros w1 w2 w3 E1 E2. by etrans. Qed.

Section same.
Context {B : Type} (f : src → B).

Lemma same_upd g : (∀ s, f (g s) = f s) → keeps (same_on f) (upd g).
Proof. intros Hg w. apply Hg. Qed.

Lemma same_server {A} (m : prog Srv A) : keeps (same_on f) (on_snd m).
Proof. intros w. unfold on_snd. by destruct (m w.2). Qed.

Context (Hutil : ∀ u s, f (set_util u s) = f s).

Lemma same_util {A} (m : prog BackfillUtil A) : keeps (same_on f) (on_util m).
Proof using Hutil.
  intros w. unfold on_util. destruct (backfill_util_ w.1); [|done].
  destruct (m b). apply Hutil.
Qed.

Lemma same_util_server {A} (m : prog (BackfillUtil * Srv) A) : keeps (same_on f) (on_util_server m).
Proof using Hutil.
  intros w. unfold on_util_server. destruct (backfill_util_ w.1); [|done].
  destruct (m (b, w.2)) as [r [u srv]]. apply Hutil.
Qed.
End same.

Definition basics (s : src) : Z * list ChangeEvent := (id_of s, handled s).
Definition basics_lsn (s : src) : Z * list ChangeEvent * string * Z :=
  (id_of s, handled s, start_lsn_ s, confirmed_lsn_ s).

#[local] Hint Extern 1 (keeps (same_on _) (upd _)) => apply same_upd; done : keeps.
#[local] Hint Extern 1 (keeps (same_on _) (on_util _)) => apply same_util; done : keeps.
#[local] Hint Extern 1 (keeps (same_on _) (on_util_server _)) => apply same_util_server; done : keeps.
#[local] Hint Resolve same_server : keeps.

Lemma connect_basics create_parent : keeps (same_on basics) (connect create_parent).
Proof.
  assert (keeps (same_on basics) connect_finish) by (unfold connect_finish, now; keep_going).
  assert (keeps (same_on basics) resume_slot) by (unfold resume_slot; keep_going).
  assert (∀ tms, keeps (same_on basics) (filter_to_source_publication tms))
    by (intros; unfold filter_to_source_publication; keep_going).
  assert (keeps (same_on basics) (connect_backfill create_parent))
    by (unfold connect_backfill; keep_going).
  unfold connect. keep_going.
Qed.

Lemma connect_positions create_parent :
  returns (connect create_parent)
    (λ ok w, ok = true → confirmed_lsn_ w.1 = parse_lsn (start_lsn_ w.1)).
Proof.
  assert (returns connect_finish (λ ok w, ok = true → confirmed_lsn_ w.1 = parse_lsn (start_lsn_ w.1)))
    as Hf.
  { intros w ok w'. unfold connect_finish, now, upd, on_snd, lib, gets, modify, mbind, prog_bind.
    cbn [fst snd]. destruct (unix_time _) as [t srv]. cbn. by intros [= <- <-]. }
  unfold connect.
  repeat first [ progress intros | exact Hf | apply returns_bind | by apply returns_ret
               | match goal with |- returns (match ?x with _ => _ end) _ => destruct x end ].
Qed.

Lemma run_backfill_basics : keeps (same_on basics_lsn) run_backfill_dump_if_required.
Proof. unfold run_backfill_dump_if_required. keep_going. Qed.

Lemma start_streaming_basics : keeps (same_on basics_lsn) start_streaming.
Proof. unfold start_streaming. keep_going. Qed.

Lemma register_basics : keeps (same_on basics_lsn) register_event_loop.
Proof. unfold register_event_loop. keep_going. Qed.

Lemma pending_work_basics : keeps (same_on basics_lsn) has_pending_backfill_work.
Proof. unfold has_pending_backfill_work. keep_going. Qed.

(** The same with the manager beside the source. *)
Definition beside {D} (w w' : D * (src * Srv)) : Prop := same_on basics_lsn w.2 w'.2.

#[export] Instance beside_preorder {D} : PreOrder (@beside D).
Proof. split; [done|]. intros w1 w2 w3 E1 E2. unfold beside in *. by etrans. Qed.

Lemma beside_source {D A} (m : prog (src * Srv) A) :
  keeps (same_on basics_lsn) m → keeps (@beside D) (on_snd m).
Proof. intros Hm w. specialize (Hm w.2). unfold on_snd. by destruct (m w.2). Qed.

Lemma beside_manager {D A} (m : prog D A) : keeps (@beside D) (on_fst m).
Proof. intros w. unfold on_fst. by destruct (m w.1). Qed.

#[local] Hint Resolve beside_source beside_manager pending_work_basics run_backfill_basics
  start_streaming_basics register_basics : keeps.

Lemma spawn_basics : keeps beside (@spawn_if_required OS _ Srv).
Proof. unfold spawn_if_required. keep_going. Qed.
#[local] Hint Resolve spawn_basics : keeps.

(** A source that is ready to run: as constructed but for what [connect] and
    the registration set, and with the start position confirmed. *)
Definition ready (s : src) : Prop :=
  handled s = [] ∧ confirmed_lsn_ s = parse_lsn (start_lsn_ s).

Lemma start_source_ready create_parent (m m' : BackfillManager * OS) (w w' : src * Srv) :
  handled w.1 = [] → start_source create_parent (m, w) = (Ret true, (m', w')) →
  ready w'.1 ∧ id_of w'.1 = id_of w.1.
Proof.
  intros Hh. unfold start_source. unfold mbind at 1, prog_bind at 1. unfold on_snd at 1. cbn [fst snd].
  pose proof (connect_basics create_parent w) as Hb.
  pose proof (connect_positions create_parent w) as Hp.
  destruct (connect create_parent w) as [[[]| | |] w1] eqn:Ec; cbn [negb]; try done.
  specialize (Hp true w1 eq_refl eq_refl). injection Hb as Hid Hh1. cbn [snd] in *. intros Hrun.
  match type of Hrun with ?p _ = _ => assert (keeps beside p) as Hk by keep_going end.
  specialize (Hk (m, w1)). rewrite Hrun in Hk. injection Hk as Hid' Hh' Hs' Hc'. cbn [snd] in *.
  unfold ready. by rewrite Hh', Hc', Hs', Hid', Hh1.
Qed.

Lemma start_sources_ready create_parent (ws ws' : list (src * Srv)) (m m' : BackfillManager * OS) :
  Forall (λ w, handled w.1 = []) ws →
  start_sources create_parent ws m = (Ret (true, ws'), m') →
  Forall (λ w, ready w.1) ws' ∧ (id_of ∘ fst <$> ws') = (id_of ∘ fst <$> ws).
Proof.
  revert ws' m. induction ws as [|w ws IH]; intros ws' m; [by intros _ [= <- _]|].
  intros [Hw Hws]%Forall_cons. cbn [start_sources].
  destruct (start_source create_parent (m, w)) as [[[]| | |] [m1 w1]] eqn:E1; try done.
  unfold mbind, prog_bind. destruct (start_sources create_parent ws m1) as [[[ok ws1]| | |] m2] eqn:E2; [|done..].
  intros [= -> <- <-]. apply start_source_ready in E1 as [Hr Hid]; [|done].
  destruct (IH _ _ Hws E2) as [Hrs Hids]. split; [by constructor|]. csimpl. by rewrite Hids, Hid.
Qed.
End started.

(** The sources [main] constructs have handed nothing over yet. *)
Lemma fresh_sources {Srv} (cfg : AppConfig) (disk : string → Store) (srvs : list Srv) :
  Forall (λ w, handled w.1 = []) (zip (make_sources cfg disk) srvs).
Proof.
  apply Forall_forall. intros [s srv] Hin%elem_of_zip_l. unfold make_sources in Hin.
  by apply elem_of_lookup_imap_1 in Hin as (i & sc & -> & _).
Qed.

(** ** The invariant of the running process *)

Section process_inv.
Context {W : Type} `{EventSink W} {Srv : Type} `{CopyStream Srv} `{JsonText}.
Context (cfg : AppConfig) (jitter : nat → Z) (fuel : nat).
Abbreviation SL := (make_handles cfg).
Abbreviation process := (Process W Srv).

(** A position that may be reported for the source [id]: where it started, or
    one the dispatcher has confirmed. *)
Definition acked (st : @System W) (id : Z) (s : src) (c : Z) : Prop :=
  c = parse_lsn (start_lsn_ s) ∨ (id, c) ∈ confirm_calls (disp_of st).

Definition jobs_of (id : Z) (js : list EventJob) : list EventJob :=
  filter (λ j, Dispatcher.source_id j = id) js.

(** What has been posted or waits to be is what the source handed over. *)
Definition source_inv (p : process) (id : Z) (w : src * (Srv * list (list byte))) : Prop :=
  id_of w.1 = id ∧
  make_job SL id <$> handled w.1 = jobs_of id (posted (sys p) ++ outbox p) ∧
  acked (sys p) id w.1 (confirmed_lsn_ w.1) ∧
  Forall (λ m, ∃ c t, m = status_message c t ∧ acked (sys p) id w.1 c) w.2.2.

Record process_inv (p : process) : Prop := {
  pi_dispatcher : inv (make_dispatcher cfg) SL (sys p);
  pi_jobs : Forall (job_ok SL) (posted (sys p) ++ outbox p);
  pi_sources : ∀ id w, source_by_id p !! id = Some w → source_inv p id w;
}.

Lemma jobs_of_app id js js' : jobs_of id (js ++ js') = jobs_of id js ++ jobs_of id js'.
Proof. apply filter_app. Qed.

Lemma jobs_of_same id evs : jobs_of id (make_job SL id <$> evs) = make_job SL id <$> evs.
Proof.
  induction evs as [|e evs IH]; [done|]. csimpl. unfold jobs_of in *.
  by rewrite filter_cons_True, IH.
Qed.

Lemma jobs_of_other id id' evs : id' ≠ id → jobs_of id (make_job SL id' <$> evs) = [].
Proof. intros Hne. induction evs as [|e evs IH]; [done|]. csimpl. unfold jobs_of in *. by rewrite filter_cons_False. Qed.

(** The dispatcher moved on: nothing it confirmed is taken back. *)
Lemma source_inv_sys (p p' : process) id w :
  source_inv p id w →
  posted (sys p') ++ outbox p' = posted (sys p) ++ outbox p →
  confirm_calls (disp_of (sys p)) `prefix_of` confirm_calls (disp_of (sys p')) →
  source_inv p' id w.
Proof.
  intros (Hid & Hj & Ha & Hl) Ep Hpre.
  assert (∀ c, acked (sys p) id w.1 c → acked (sys p') id w.1 c) as Hmono.
  { intros c [?|?]; [by left|right]. by eapply elem_of_prefix. }
  split_and!; [done|by rewrite Ep|by apply Hmono|].
  eapply Forall_impl; [exact Hl|]. intros m (c & t & -> & ?). eauto.
Qed.

Lemma process_inv_sys (p p' : process) :
  process_inv p → inv (make_dispatcher cfg) SL (sys p') → source_by_id p' = source_by_id p →
  posted (sys p') ++ outbox p' = posted (sys p) ++ outbox p →
  confirm_calls (disp_of (sys p)) `prefix_of` confirm_calls (disp_of (sys p')) → process_inv p'.
Proof.
  intros [Hd Hj Hs] Hd' Es Ep Hpre. constructor; [done|by rewrite Ep|].
  rewrite Es. intros id w Hw. by eapply source_inv_sys; [by apply Hs|..].
Qed.

(** A callback of the event loop. *)
Lemma process_inv_source {A} id (m : prog (src * (Srv * list (list byte))) A) (p p' : process) :
  keeps moved m → process_inv p → on_source cfg id m p = Some p' → process_inv p'.
Proof.
  intros Hm [Hd Hj Hs] (w & Hw & Hr)%bind_Some. specialize (Hm w).
  destruct (m w) as [[a| | |] w'] eqn:Em; simplify_eq/=.
  destruct Hm as (Eid & Estart & Ec & (evs & Eh & He) & msgs & El & Hmsgs).
  rewrite Eh, drop_app_length. destruct (Hs _ _ Hw) as (Hid & Hjs & Ha & Hl).
  constructor; simpl; [done| |].
  - rewrite app_assoc. apply Forall_app. split; [done|]. apply Forall_fmap.
    eapply Forall_impl; [exact He|]. intros e [He' _]. by split.
  - intros id' w2. rewrite lookup_insert_Some. intros [[<- <-]|[Hne Hw2]].
    + unfold source_inv. cbn [sys outbox posted]. rewrite Eid, Eh, Ec, El, fmap_app, Hjs.
      split_and!; [done| | |].
      * by rewrite Hid, app_assoc, !jobs_of_app, jobs_of_same.
      * unfold acked in *. by rewrite Estart.
      * apply Forall_app. unfold acked in *. rewrite Estart. split; [done|].
        eapply Forall_impl; [exact Hmsgs|]. intros m' [t ->]. eauto.
    + destruct (Hs _ _ Hw2) as (? & Hjs2 & ? & ?). split_and!; [done| |done|done].
      cbn [sys outbox]. rewrite app_assoc, jobs_of_app, jobs_of_other by congruence.
      by rewrite app_nil_r.
Qed.

(** The callback of the dispatcher. *)
Lemma process_inv_confirm (p : process) id lsn :
  process_inv p → (id, lsn) ∈ confirm_calls (disp_of (sys p)) → process_inv (on_confirm id lsn p).
Proof.
  intros [Hd Hj Hs] Hin. constructor; [done..|]. intros id' w. cbn [source_by_id on_confirm].
  rewrite lookup_alter_Some. intros [(<- & w1 & Hw1 & ->)|[_ Hw]]; [|by apply Hs].
  destruct (Hs _ _ Hw1) as (? & ? & ? & ?). split_and!; [done|done|by right|done].
Qed.

Lemma process_inv_step l (p p' : process) :
  process_inv p → process_step cfg jitter fuel l p = Some p' → process_inv p'.
Proof.
  intros Hp. pose proof (pi_dispatcher _ Hp) as Hd.
  assert (Forall (job_ok SL) (posted (sys p))) as Hall
    by (pose proof (pi_jobs _ Hp) as Hj; by apply Forall_app in Hj as [? _]).
  destruct l; cbn [process_step];
    try (case_bool_decide; [|done]; apply process_inv_source; [|done]).
  - apply moved_consume.
  - apply moved_read.
  - apply moved_ping.
  - destruct (outbox p) as [|j js] eqn:Eo; [done|]. intros [= <-].
    assert (Forall (job_ok SL) (posted (sys p) ++ [j])) as Hall'.
    { pose proof (pi_jobs _ Hp) as Hj. rewrite Eo in Hj.
      apply Forall_app in Hj as [? [??]%Forall_cons]. apply Forall_app. by rewrite Forall_singleton. }
    eapply process_inv_sys; [done|by eapply (inv_step (make_dispatcher cfg) jitter SL eq_refl fuel); [constructor|..]|done| |done].
    simpl. by rewrite Eo, <- app_assoc.
  - case_bool_decide; [|done]. intros [= <-].
    eapply process_inv_sys; [done| |done..]. by eapply (inv_step (make_dispatcher cfg) jitter SL eq_refl fuel); [constructor|..].
  - destruct (all_applied p); [|done]. intros (st & Hst & [= <-])%bind_Some.
    assert (inv (make_dispatcher cfg) SL st) by by eapply (inv_worker_step (make_dispatcher cfg) jitter SL eq_refl).
    eapply process_inv_sys; [done|done|done| |].
    + simpl. by rewrite (worker_step_posted _ _ _ _ _ Hst).
    + by eapply worker_step_confirms.
  - intros ([id lsn] & Hl & [= <-])%bind_Some. apply process_inv_confirm; [done|].
    by eapply list_elem_of_lookup_2.
  - destruct (pc (sys p)); try done. destruct (_ && _); [|done].
    apply process_inv_source; [apply moved_flush|done].
Qed.

Lemma process_inv_run ls (p p' : process) :
  process_inv p → process_run cfg jitter fuel ls p = Some p' → process_inv p'.
Proof.
  revert p. induction ls as [|l ls IH]; intros p Hp; simpl; [by intros [= <-]|].
  intros (p1 & Hp1 & Hrun)%bind_Some. eapply IH; [|done]. by eapply process_inv_step.
Qed.

Lemma process_inv_boot w t (ws : list (src * Srv)) :
  Forall (λ w, ready w.1) ws → process_inv (boot w t ws).
Proof.
  intros Hr. constructor; [|done|].
  - by eapply (inv_reachable (make_dispatcher cfg) jitter SL eq_refl fuel w t); [apply rtc_refl|].
  - intros id [s [srv log]] Hin%elem_of_list_to_map_2. apply list_elem_of_fmap in Hin as (w' & [= -> -> -> ->] & Hin).
    rewrite Forall_forall in Hr. destruct (Hr _ Hin) as [Eh Ec].
    split_and!; [done| |by left|done]. simpl. by rewrite Eh.
Qed.
End process_inv.

(** ** The guarantee *)

(** How PostgreSQL streams to a source that started at [start]: transaction by
    transaction in the order of the commit positions [txn_end], only those that
    committed after [start]; a change carries a position before its
    transaction's commit, and only the last message of a transaction carries
    the commit position itself. *)
Definition streamed (start : Z) (evs : list ChangeEvent) (txn_end : nat → Z) : Prop :=
  (∀ i e, evs !! i = Some e → start < txn_end i ∧ commit_lsn e ≤ txn_end i)%Z ∧
  (∀ i k ei ek, evs !! i = Some ei → evs !! k = Some ek → i < k →
     (txn_end i ≤ txn_end k ∧ (commit_lsn ei = txn_end i → txn_end i < txn_end k))%Z).

Section guarantee.
Context {W : Type} `{EventSink W} {Srv : Type} `{CopyStream Srv} `{JsonText}.
Context (cfg : AppConfig).
Abbreviation SL := (make_handles cfg).

(** The event has been part of a batch that every required sink took. *)
Definition durable (st : @System W) (id : Z) (e : ChangeEvent) : Prop :=
  ∃ js, js ∈ delivered st ∧ make_job SL id e ∈ js ∧ all_required_took (disp_of st) SL (ev <$> js).

Lemma acked_durable (p : Process W Srv) id w txn_end c i e :
  process_inv cfg p → source_by_id p !! id = Some w →
  streamed (parse_lsn (start_lsn_ w.1)) (handled w.1) txn_end →
  acked (sys p) id w.1 c → handled w.1 !! i = Some e → (txn_end i ≤ c)%Z → durable (sys p) id e.
Proof.
  intros Hp Hw [Hle Hord] Hc Hi Hend. destruct (Hle _ _ Hi) as [Hstart _].
  destruct Hc as [->|Hc]; [lia|].
  pose proof (pi_dispatcher _ _ Hp) as Hd. destruct (pi_sources _ _ Hp _ _ Hw) as (_ & Hjs & _).
  assert (Forall (job_ok SL) (posted (sys p))) as Hall
    by (pose proof (pi_jobs _ _ Hp) as Hj; by apply Forall_app in Hj as [? _]).
  destruct (confirmed_delivered _ _ _ _ _ Hd Hall Hc) as (jk & Hjk & Hks & Hkl).
  rewrite (inv_fifo _ _ _ Hd), <- app_assoc, jobs_of_app in Hjs.
  assert (jk ∈ jobs_of id (concat (delivered (sys p)))) as [k Hk]%list_elem_of_lookup
    by by apply list_elem_of_filter.
  pose proof (lookup_app_l_Some _ (jobs_of id ((failed (sys p) ++ in_hand (sys p) ++ queue_ (sys p)) ++ outbox p))
    _ _ Hk) as Hk'. rewrite <- Hjs in Hk'.
  rewrite list_lookup_fmap in Hk'. apply fmap_Some in Hk' as (ek & Hek & ->). simpl in Hkl.
  assert ((make_job SL id <$> handled w.1) !! i = Some (make_job SL id e)) as Hi'
    by by rewrite list_lookup_fmap, Hi.
  rewrite Hjs in Hi'. apply lookup_app_Some in Hi' as [Hin|[Hge _]].
  - apply list_elem_of_lookup_2, list_elem_of_filter in Hin as [_ Hin].
    by apply (delivered_took _ _ _ _ Hd).
  - apply lookup_lt_Some in Hk. destruct (Hord k i ek e Hek Hi ltac:(lia)) as [? Hstrict].
    destruct (Hle _ _ Hek). lia.
Qed.
End guarantee.

(** C1: the end-to-end guarantee.  Start the process that [main] builds from
    any configuration, and let the event loop, the worker thread and their
    callbacks run in any order: whenever a source has told PostgreSQL, in a
    standby status update, that it may forget everything up to [c], every event
    the source has handed over whose transaction committed at or before [c] has
    been part of a batch that each required sink took without an exception, so
    a crash at any moment loses nothing that is not sent again. *)
Theorem acknowledged_is_durable {W} `{EventSink W} {Srv} `{Libpq Srv} `{CopyStream Srv} `{JsonText}
    {OS} `{Processes OS} (cfg : AppConfig) (disk : string → Store)
    (create_parent : string → outcome unit) (srvs : list Srv) (m m' : BackfillManager * OS)
    (ws : list (src * Srv)) (w : W) (t : Z) (jitter : nat → Z) (fuel : nat)
    (ls : list event_label) (p : Process W Srv) (id : Z) (s : src) (srv : Srv)
    (log : list (list byte)) (txn_end : nat → Z) (msg : list byte) :
  start_sources create_parent (zip (make_sources cfg disk) srvs) m = (Ret (true, ws), m') →
  process_run cfg jitter fuel ls (boot w t ws) = Some p →
  source_by_id p !! id = Some (s, (srv, log)) →
  streamed (parse_lsn (start_lsn_ s)) (handled s) txn_end →
  msg ∈ log →
  ∃ c now, msg = status_message c now ∧
    ∀ i e, handled s !! i = Some e → (txn_end i ≤ c)%Z → durable cfg (sys p) id e.
Proof.
  intros Hst Hrun Hs Hord Hmsg.
  assert (process_inv cfg p) as Hp.
  { eapply process_inv_run; [|done]. apply process_inv_boot; [done..|].
    eapply start_sources_ready; [apply fresh_sources|done]. }
  destruct (pi_sources _ _ Hp _ _ Hs) as (_ & _ & _ & Hlog). rewrite Forall_forall in Hlog.
  destruct (Hlog _ Hmsg) as (c & now & -> & Hc). exists c, now. split; [done|].
  intros i e Hi He. by eapply acked_durable.
Qed.

(** A process for a concrete run: one source, one required sink, one
    transaction that commits at 40. *)
Module DemoProcess.
Definition server : Type := list (byte * list byte).
Definition queries : Libpq server :=
  {| pq_connect := λ _ s, (None, s);
     pq_exec := λ sql s, (if String.prefix "START" sql then CopyBoth
                          else TuplesOk [[Some "slot"; Some "0/A"]], s);
     pq_exec_params := λ _ _ s, (CommandOk, s) |}.
Definition stream : CopyStream server :=
  {| pq_consume := λ s, (true, s);
     pq_get_copy := λ s, match s with [] => (CopyNone, s) | (b, r) :: q => (CopyData b r, q) end;
     pq_put_copy := λ _ s, (true, s); pq_socket := λ _, 5%Z; event_new := λ s, (true, s);
     event_add := λ s, (true, s); unix_time := λ s, (1700000000%Z, s) |}.
Definition no_tls : TlsConfig :=
  {| sslmode := ""; sslrootcert := ""; sslcert := ""; sslkey := ""; sslpassword := "" |}.
Definition config : AppConfig :=
  {| settings := default_settings;
     sources := [{| src_host := "h"; src_port := "5432"; src_dbname := "d"; src_user := "u";
                    src_password := ""; src_slot_name := "slot"; src_publication := "p";
                    src_backfill := false; src_tls := no_tls |}];
     sinks := [JsonSink {| output_target := "stdout"; js_required_override := Some true |}];
     embedding := {| provider := "llama"; model := ""; model_path := ""; api_key := ""; lora_path := "";
                     lora_scale := 0; dimensions := 0; n_threads := 0; n_ctx := 0;
                     Config.max_batch_size := 0; n_gpu_layers := 0; emb_validate := "" |} |}.
Definition frames : list frame :=
  [FXLog 20 20 1 (MBegin 100 5 7);
   FXLog 20 20 1 (MRelation 16385 "public" "items" "f"
     [{| rc_flags := "001"; rc_name := "id"; rc_oid := 23; rc_mod := 0xFFFFFFFF |}]);
   FXLog 20 20 1 (MInsert 16385 [TCText "1"]); FXLog 40 40 1 (MCommit [])].
Definition disk : string → Store := λ _, DemoBackfill.empty_store.
Definition manager : BackfillManager * DemoProcesses.os := (make_manager "c", ([], false)).
Definition started :=
  @start_sources _ queries stream DemoBackfill.text _ DemoProcesses.calls (λ _, Ret tt)
    (zip (make_sources config disk) [frame_bytes <$> frames]) manager.

(** The insert and the commit go through one by one; after each the position
    is confirmed, and the timer fires at the end. *)
Definition labels : list event_label :=
  [OnConsume 1] ++ replicate 3 (OnMessage 1) ++ [OnPost; OnMessage 1; OnPost] ++
  [OnWork; OnWork; OnWork; OnConfirm; OnTimer 1; OnWork; OnWork; OnWork; OnConfirm; OnTimer 1].
Definition run (ws : list (src * server)) : option (Process (list (list ChangeEvent)) server) :=
  @process_run _ Demo.store_sink _ stream DemoBackfill.text config (λ _, 25000%Z) 49 labels
    (boot [] 0 ws).
End DemoProcess.

(** Both status updates of the run report what the sink has: the second one
    the whole transaction. *)
Lemma acknowledged_is_durable_witness :
  ∃ ws m' p s srv log,
    DemoProcess.started = (Ret (true, ws), m') ∧ DemoProcess.run ws = Some p ∧
    source_by_id p !! 1%Z = Some (s, (srv, log)) ∧ length (handled s) = 2 ∧
    status_message 40 1700000000 ∈ log ∧
    ∃ c now, status_message 40 1700000000 = status_message c now ∧
      ∀ i e, handled s !! i = Some e → (40 ≤ c)%Z →
        durable (H := Demo.store_sink) DemoProcess.config (sys p) 1 e.
Proof.
  eexists _, _, _, _, _, _. split; [vm_compute; reflexivity|]. split; [vm_compute; reflexivity|].
  split; [vm_compute; reflexivity|]. split; [vm_compute; reflexivity|].
  split; [vm_compute; right; left|].
  eapply (@acknowledged_is_durable _ Demo.store_sink _ DemoProcess.queries DemoProcess.stream
    DemoBackfill.text _ DemoProcesses.calls DemoProcess.config DemoProcess.disk (λ _, Ret tt)
    [frame_bytes <$> DemoProcess.frames] DemoProcess.manager _ _ [] 0%Z (λ _, 25000%Z) 49
    DemoProcess.labels _ 1 _ _ _ (λ _, 40%Z)).
  - vm_compute. reflexivity.
  - vm_compute. reflexivity.
  - vm_compute. reflexivity.
  - split.
    + intros i e Hi. do 2 (destruct i as [|i]; [injection Hi as <-; vm_compute; split; done|]). done.
    + intros i k ei ek Hi Hk Hlt.
      do 2 (destruct i as [|i]; [injection Hi as <-; do 2 (destruct k as [|k];
        [first [lia|injection Hk as <-; vm_compute; split; done]|]); done|]). done.
  - vm_compute. right. left.
Defined.
