(* ===== verification/Sinks.v ===== *)
(** * The sinks the configuration describes

    [create_sink] of the four configuration classes, the loop that builds all
    sinks at start-up (the same in [main] and in the worker), and the objects
    as the event dispatcher and the worker see them: an instance of
    [EventSink], whose [call_batch] goes to the class of the object. *)

From S2P Require Import Prelude Event Config EmbeddingProvider SinkBatch Libpq SqlBuilder PgSink Http QdrantSink MilvusSink JsonSink Dispatcher.
From Stdlib Require Import Lia.

Inductive SinkObject :=
| PgObject (k : PgEmbeddingSink)
| QdrantObject (c : QdrantSinkConfig) (h : HttpClient)
| MilvusObject (c : MilvusSinkConfig) (f : MilvusFields) (h : HttpClient)
| JsonObject (j : JsonSinkObject).

(** [host=... port=... ...] of [PgSinkConfiguration::create_sink] *)
Definition pg_sink_conninfo (c : PgSinkConfiguration) : string :=
  "host=" +:+ pg_host c +:+ " port=" +:+ pg_port c +:+ " dbname=" +:+ pg_dbname c +:+
  " user=" +:+ pg_user c +:+ " password=" +:+ pg_password c +:+ to_conninfo_fragment (pg_tls c).

Definition pg_sink_config (c : PgSinkConfiguration) : PgEmbeddingSinkConfig :=
  {| pg_conninfo := pg_sink_conninfo c; sink_table := pg_table c;
     sink_vec_column := pg_embedding_column c; PgSink.mappings := pg_table_mappings c |}.

Definition qdrant_sink_config (c : QdrantSinkConfiguration) : QdrantSinkConfig :=
  {| QdrantSink.url := qd_url c; QdrantSink.api_key := qd_api_key c;
     QdrantSink.collection := qd_collection c; QdrantSink.mappings := qd_table_mappings c |}.

Definition milvus_sink_config (c : MilvusSinkConfiguration) : MilvusSinkConfig :=
  {| MilvusSink.mv_url := Config.mv_url c; MilvusSink.mv_token := Config.mv_token c;
     MilvusSink.mv_db_name := Config.mv_db_name c; MilvusSink.mv_collection := Config.mv_collection c;
     mv_mappings := mv_table_mappings c |}.

(** [default_required()] of the class a configuration creates. *)
Definition class_required (c : SinkConfiguration) : bool :=
  match c with JsonSink _ => false | _ => true end.

Section sinks.
Context {P Srv Net F : Type} `{EmbeddingProvider P} `{Curl Net} `{JsonText} `{LibUuid} `{Files F}.
(** Each PostgreSQL sink has a connection of its own to the servers [Srv]. *)
Context (conn : SinkRef → Libpq Srv) (trunc_float : Z → Z) (has_curl : bool).

(** The objects in the order of the configuration, the provider they share,
    and what they write to. *)
Record SinkWorld := {
  shared_provider : option P;
  db : Srv;
  web : Net;
  outs : Outputs F;
  objects : list SinkObject;
}.

Definition set_provider (p : P) (w : SinkWorld) : SinkWorld :=
  {| shared_provider := Some p; db := db w; web := web w; outs := outs w; objects := objects w |}.
Definition set_db (s : Srv) (w : SinkWorld) : SinkWorld :=
  {| shared_provider := shared_provider w; db := s; web := web w; outs := outs w; objects := objects w |}.
Definition set_web (n : Net) (w : SinkWorld) : SinkWorld :=
  {| shared_provider := shared_provider w; db := db w; web := n; outs := outs w; objects := objects w |}.
Definition set_outs (o : Outputs F) (w : SinkWorld) : SinkWorld :=
  {| shared_provider := shared_provider w; db := db w; web := web w; outs := o; objects := objects w |}.
Definition set_objects (l : list SinkObject) (w : SinkWorld) : SinkWorld :=
  {| shared_provider := shared_provider w; db := db w; web := web w; outs := outs w; objects := l |}.

(** Code that uses the provider and one more part of the world. *)
Definition with_shared {D A} (part : SinkWorld → D) (set_part : D → SinkWorld → SinkWorld)
    (m : prog (P * D) A) : prog SinkWorld A := λ w,
  match shared_provider w with
  | None => (UB "embedding provider is null", w)
  | Some p => let '(r, (p, d)) := m (p, part w) in (r, set_part d (set_provider p w))
  end.

Definition on_outs {A} (m : prog (Outputs F) A) : prog SinkWorld A := λ w,
  let '(r, o) := m (outs w) in (r, set_outs o w).

(** [create_sink] of each class; a PostgreSQL object is number [i]. *)
Definition pg_create_sink (i : SinkRef) (c : PgSinkConfiguration) : prog SinkWorld SinkObject :=
  k ← with_shared db set_db (let _ := conn i in pg_sink_init (pg_sink_config c));
  mret (PgObject k).

Definition qdrant_create_sink (c : QdrantSinkConfiguration) : prog SinkWorld SinkObject :=
  let h := qdrant_http has_curl in
  with_shared web set_web (qdrant_init trunc_float (qdrant_sink_config c) h) ;;
  mret (QdrantObject (qdrant_sink_config c) h).

Definition milvus_create_sink (c : MilvusSinkConfiguration) : prog SinkWorld SinkObject :=
  let h := qdrant_http has_curl in
  f ← with_shared web set_web (milvus_init trunc_float (milvus_sink_config c) h);
  mret (MilvusObject (milvus_sink_config c) f h).

Definition json_create_sink (c : JsonSinkConfiguration) : prog SinkWorld SinkObject :=
  j ← on_outs (make_json_sink (output_target c)); mret (JsonObject j).

Definition create_sink (i : SinkRef) (c : SinkConfiguration) : prog SinkWorld SinkObject :=
  match c with
  | PgSink c => pg_create_sink i c
  | QdrantSink c => qdrant_create_sink c
  | MilvusSink c => milvus_create_sink c
  | JsonSink c => json_create_sink c
  end.

(** The loop over [cfg.sinks]. *)
Fixpoint create_sinks (cs : list SinkConfiguration) : prog SinkWorld unit :=
  match cs with
  | [] => mret tt
  | c :: cs =>
      i ← gets (λ w, length (objects w));
      o ← create_sink i c;
      modify (λ w, set_objects (objects w ++ [o]) w) ;;
      create_sinks cs
  end.

(** The body of the [try] block of [main] and of the worker. *)
Definition init_sinks (make_provider : EmbeddingConfig → outcome P) (cfg : AppConfig) : prog SinkWorld unit :=
  (if any_sink_needs_provider cfg
   then p ← lift (make_provider (embedding cfg)); modify (set_provider p)
   else mret tt) ;;
  create_sinks (sinks cfg).

(** ** The sinks as the dispatcher calls them *)

Definition object_call_batch (i : SinkRef) (events : list ChangeEvent) : prog SinkWorld unit := λ w,
  match objects w !! i with
  | None => (UB "no such sink", w)
  | Some (PgObject k) => with_shared db set_db (let _ := conn i in pg_call_batch k events) w
  | Some (QdrantObject c h) => with_shared web set_web (qdrant_call_batch c h events) w
  | Some (MilvusObject c f h) => with_shared web set_web (milvus_call_batch trunc_float c f h events) w
  | Some (JsonObject j) =>
      let '(r, (j, o)) := json_call_batch events (j, outs w) in
      (r, set_objects (<[i := JsonObject j]> (objects w)) (set_outs o w))
  end.

Definition sink_objects (cs : list SinkConfiguration) : EventSink SinkWorld :=
  {| call_batch := object_call_batch;
     sink_default_required := λ i, from_option class_required true (cs !! i) |}.
End sinks.
Arguments SinkWorld _ _ _ _ : clear implicits.

(** ** Every sink is what its configuration says *)

(** The object a configuration creates. *)
Definition object_of (c : SinkConfiguration) (o : SinkObject) : Prop :=
  match c, o with
  | PgSink c, PgObject k => k = prepare_statements (pg_sink_config c)
  | QdrantSink c, QdrantObject c' _ => c' = qdrant_sink_config c
  | MilvusSink c, MilvusObject c' f _ =>
      c' = milvus_sink_config c ∧ pk_field_ f ≠ "" ∧ vector_field_ f ≠ ""
  | JsonSink c, JsonObject j => target_ j = output_target c
  | _, _ => False
  end.

Section typed.
Context {P Srv Net F : Type} `{EmbeddingProvider P} `{Curl Net} `{JsonText} `{LibUuid} `{Files F}.
Context (conn : SinkRef → Libpq Srv) (trunc_float : Z → Z) (has_curl : bool).
Abbreviation world := (SinkWorld P Srv Net F).

(** One object per configuration, of its class, and a provider if any of them
    needs one. *)
Definition typed (cs : list SinkConfiguration) (w : world) : Prop :=
  Forall2 object_of cs (objects w) ∧
  (existsb needs_embedding_provider cs = true → is_Some (shared_provider w)).

(** A step that keeps the objects and does not lose the provider. *)
Definition same_sinks (w w' : world) : Prop :=
  objects w' = objects w ∧ (is_Some (shared_provider w) → is_Some (shared_provider w')).

#[export] Instance same_sinks_preorder : PreOrder same_sinks.
Proof. split; [done|]. intros w1 w2 w3 [E1 P1] [E2 P2]. split; [congruence|auto]. Qed.

Lemma with_shared_same {D A} part set_part (m : prog (P * D) A) :
  (∀ d w, same_sinks w (set_part d w)) → keeps same_sinks (with_shared part set_part m).
Proof.
  intros Hset w. unfold with_shared. destruct (shared_provider w) as [p|]; [|done].
  destruct (m (p, part w)) as [r [p' d]]. simpl. transitivity (set_provider p' w); [|apply Hset]. done.
Qed.

Lemma set_db_same s (w : world) : same_sinks w (set_db s w).
Proof. done. Qed.
Lemma set_web_same n (w : world) : same_sinks w (set_web n w).
Proof. done. Qed.

Lemma on_outs_same {A} (m : prog (Outputs F) A) : keeps same_sinks (on_outs m : prog world A).
Proof. intros w. unfold on_outs. by destruct (m (outs w)). Qed.

#[local] Hint Resolve on_outs_same : keeps.
#[local] Hint Extern 1 (keeps same_sinks (with_shared _ _ _)) =>
  apply with_shared_same; first [exact set_db_same | exact set_web_same] : keeps.

Lemma create_sink_same i c : keeps same_sinks (create_sink conn trunc_float has_curl i c : prog world _).
Proof.
  unfold create_sink, pg_create_sink, qdrant_create_sink, milvus_create_sink, json_create_sink.
  destruct c; keep_going.
Qed.

Lemma with_shared_ret {D A} part set_part (m : prog (P * D) A) (w w' : world) a :
  with_shared part set_part m w = (Ret a, w') → ∃ v v', m v = (Ret a, v').
Proof.
  unfold with_shared. destruct (shared_provider w) as [p|]; [|done].
  destruct (m (p, part w)) as [r [p' d]] eqn:Em. intros [= -> _]. eauto.
Qed.

Lemma pg_sink_init_ret `{Libpq Srv} c (v v' : P * Srv) k :
  pg_sink_init c v = (Ret k, v') → k = prepare_statements c.
Proof.
  unfold pg_sink_init. intros ([e|] & v1 & _ & Hi)%prog_bind_inv; [done|].
  apply prog_bind_inv in Hi as (res & v2 & _ & Hi). destruct res as [[|r rows]| | |]; try done.
  apply prog_bind_inv in Hi as (? & v3 & _ & Hi). apply prog_bind_inv in Hi as (? & v4 & _ & Hi).
  by injection Hi as <- <-.
Qed.

Lemma create_sink_object i c (w w' : world) o :
  create_sink conn trunc_float has_curl i c w = (Ret o, w') → object_of c o.
Proof.
  unfold create_sink. destruct c as [c|c|c|c]; intros Hc; apply prog_bind_inv in Hc as (a & w1 & Ha & Ho);
    injection Ho as <- <-; simpl.
  - apply with_shared_ret in Ha as (v & v' & Ha). by eapply pg_sink_init_ret.
  - unfold on_outs, make_json_sink in Ha. destruct (bool_decide _ && bool_decide _).
    + destruct (file_open _ _) as [[] f]; simplify_eq/=; done.
    + by simplify_eq/=.
  - done.
  - apply with_shared_ret in Ha as (v & v' & Ha). by apply milvus_init_ret in Ha as (? & ? & _).
Qed.

(** The loop appends one object of the right class per configuration. *)
Lemma create_sinks_typed cs (w w' : world) :
  create_sinks conn trunc_float has_curl cs w = (Ret tt, w') →
  (is_Some (shared_provider w) → is_Some (shared_provider w')) ∧
  ∃ os, objects w' = objects w ++ os ∧ Forall2 object_of cs os.
Proof.
  revert w. induction cs as [|c cs IH]; intros w Hc.
  { injection Hc as <-. split; [done|]. exists []. by rewrite app_nil_r. }
  apply prog_bind_inv in Hc as (i & w0 & Hi & Hc). injection Hi as <- <-.
  apply prog_bind_inv in Hc as (o & w1 & Ho & Hc). apply prog_bind_inv in Hc as ([] & w2 & Hm & Hc).
  injection Hm as <-. destruct (IH _ Hc) as (Hp & os & Eos & Fos).
  pose proof (create_sink_same (length (objects w)) c w) as [E1 P1]. rewrite Ho in E1, P1. simpl in *.
  split; [auto|]. exists (o :: os). rewrite Eos, E1, <- app_assoc. split; [done|].
  constructor; [|done]. by eapply create_sink_object.
Qed.

Lemma call_batch_typed cs i events (w : world) :
  typed cs w → typed cs (object_call_batch conn trunc_float i events w).2.
Proof.
  intros [Hos Hp]. unfold object_call_batch.
  assert (∀ w', same_sinks w w' → typed cs w') as Hsame.
  { intros w' [E P']. split; [by rewrite E|auto]. }
  destruct (objects w !! i) as [[k|c h|c f h|j]|] eqn:Eo; [apply Hsame; by apply with_shared_same..| |done].
  destruct (Forall2_lookup_r _ _ _ _ _ Hos Eo) as (c & Ec & Hc).
  destruct (json_call_batch events (j, outs w)) as [r [j' o']] eqn:Ej. split; [|done]. simpl.
  pose proof (json_batch_target events (j, outs w)) as Et. rewrite Ej in Et. simpl in Et.
  rewrite <- (list_insert_id cs i c Ec). apply Forall2_insert; [done|].
  destruct c; try done. simpl in *. congruence.
Qed.
End typed.


(** ** A file and a PostgreSQL table for the witnesses *)

Module DemoSinks.
(** The server of [DemoServer], which also answers the checks of [init]. *)
#[export] Instance server : Libpq DemoServer.table :=
  {| pq_connect := λ _ s, (None, s);
     pq_exec := λ _ s, (TuplesOk [[Some "1"]], s);
     pq_exec_params := λ sql ps s,
       match @pq_exec_params _ DemoServer.demo_server sql ps s with
       | (Failed _, s) => (TuplesOk [[Some "1"]], s)
       | r => r
       end |}.
Definition pg : PgSinkConfiguration :=
  {| pg_host := "h"; pg_port := "5432"; pg_dbname := "x"; pg_user := "u"; pg_password := "";
     pg_table := "emb"; pg_embedding_column := "vec"; pg_table_mappings := [Sample.mapping];
     pg_tls := default_tls; pg_required_override := None |}.
Definition config : AppConfig :=
  {| settings := default_settings; sources := [];
     sinks := [JsonSink {| output_target := "out"; js_required_override := None |}; PgSink pg];
     embedding := default_embedding |}.
#[export] Instance table : PgTable (pg_sink_config pg) (λ _, True) id.
Proof.
  pose proof DemoServer.demo_table as T.
  split; intros t ps s Ht HJ Hl; cbn [pq_exec_params server];
    change (builder_of (pg_sink_config pg)) with (builder_of DemoServer.config).
  - destruct (@exec_upsert _ _ _ _ _ T t ps s Ht HJ Hl) as (s' & E & ?). exists s'. by rewrite E.
  - destruct (@exec_delete _ _ _ _ _ T t ps s Ht HJ Hl) as (s' & E & ?). exists s'. by rewrite E.
  - destruct (@exec_truncate _ _ _ _ _ T t ps s Ht HJ Hl) as (s' & E & ?). exists s'. by rewrite E.
Qed.
Definition net : Curl unit := {| curl_perform := λ _ s, (inr 200%Z, ["{}"], s) |}.
Definition start : SinkWorld nat DemoServer.table unit (gmap string string) :=
  {| shared_provider := None; db := ∅; web := tt; outs := {| fsys := ∅; cout := "" |}; objects := [] |}.
Definition ready : SinkWorld nat DemoServer.table unit (gmap string string) :=
  {| shared_provider := Some 0; db := ∅; web := tt;
     outs := {| fsys := {[ "out" := "" ]}; cout := "" |};
     objects := [JsonObject DemoJson.sink; PgObject (prepare_statements (pg_sink_config pg))] |}.
End DemoSinks.
#[local] Existing Instances DemoSinks.server DemoSinks.net DemoJson.files DemoJson.text DemoMilvus.uuid.

