(* ===== verification/Gguf.v ===== *)
(** * [src/model/gguf_metadata_reader.cpp]: what a model file says of itself

    The gguf library is the class [GgufLib]; the reader asks it for the
    architecture and then for the size of its embeddings.  The configuration
    check uses the reader through its view of the file system. *)

From S2P Require Import Prelude Config.
From Stdlib Require Import Lia.

Inductive gguf_type :=
| GGUF_TYPE_UINT32 | GGUF_TYPE_INT32 | GGUF_TYPE_UINT64 | GGUF_TYPE_INT64 | GGUF_TYPE_STRING
| GGUF_TYPE_OTHER.

Class GgufLib (G : Type) := {
  gguf_init_from_file : string → option G;      (* with no_alloc *)
  gguf_find_key : G → string → Z;               (* negative: no such key *)
  gguf_get_kv_type : G → Z → gguf_type;
  gguf_get_val_u32 : G → Z → Z;
  gguf_get_val_i32 : G → Z → Z;
  gguf_get_val_u64 : G → Z → Z;
  gguf_get_val_i64 : G → Z → Z;
  gguf_get_val_str : G → Z → string;
}.

Record ModelMetadata := { meta_parsed : bool; embedding_dimensions : option Z }.

Section reader.
Context {G : Type} `{GgufLib G}.

Definition read_int_kv (ctx : G) (key : string) : option Z :=
  let key_id := gguf_find_key ctx (c_str key) in
  if (key_id <? 0)%Z then None
  else match gguf_get_kv_type ctx key_id with
       | GGUF_TYPE_UINT32 => Some (gguf_get_val_u32 ctx key_id)
       | GGUF_TYPE_INT32 => Some (gguf_get_val_i32 ctx key_id)
       | GGUF_TYPE_UINT64 => Some (i64 (gguf_get_val_u64 ctx key_id))
       | GGUF_TYPE_INT64 => Some (gguf_get_val_i64 ctx key_id)
       | _ => None
       end.

Definition gguf_read (model_path : string) : ModelMetadata :=
  match gguf_init_from_file (c_str model_path) with
  | None => {| meta_parsed := false; embedding_dimensions := None |}
  | Some ctx =>
      let arch_key := gguf_find_key ctx "general.architecture" in
      if (arch_key <? 0)%Z then {| meta_parsed := true; embedding_dimensions := None |}
      else match gguf_get_kv_type ctx arch_key with
           | GGUF_TYPE_STRING =>
               let arch := c_str (gguf_get_val_str ctx arch_key) in
               {| meta_parsed := true;
                  embedding_dimensions :=
                    match read_int_kv ctx (arch +:+ ".embedding_length_out") with
                    | Some d => Some d
                    | None => read_int_kv ctx (arch +:+ ".embedding_length")
                    end |}
           | _ => {| meta_parsed := true; embedding_dimensions := None |}
           end
  end.

(** The view the configuration check has of the disk, with this reader. *)
Definition fs_with_gguf (fs : fs_view) : fs_view :=
  {| fs_exists := fs_exists fs; fs_is_regular := fs_is_regular fs; fs_readable := fs_readable fs;
     fs_size := fs_size fs; gguf_parsed := λ p, meta_parsed (gguf_read p);
     gguf_dimensions := λ p, embedding_dimensions (gguf_read p) |}.
End reader.

Section checked.
Context {G : Type} `{GgufLib G}.

(** The file names its architecture and declares an embedding size for it:
    the projected one if there is one, otherwise the plain one. *)
Definition declares (ctx : G) (d : Z) : Prop :=
  ∃ arch, (0 ≤ gguf_find_key ctx "general.architecture")%Z ∧
    gguf_get_kv_type ctx (gguf_find_key ctx "general.architecture") = GGUF_TYPE_STRING ∧
    arch = c_str (gguf_get_val_str ctx (gguf_find_key ctx "general.architecture")) ∧
    (read_int_kv ctx (arch +:+ ".embedding_length_out") = Some d ∨
     read_int_kv ctx (arch +:+ ".embedding_length_out") = None ∧
     read_int_kv ctx (arch +:+ ".embedding_length") = Some d).

Lemma gguf_read_spec path :
  meta_parsed (gguf_read path) = bool_decide (is_Some (gguf_init_from_file (c_str path))) ∧
  ∀ ctx, gguf_init_from_file (c_str path) = Some ctx →
    ∀ d, declares ctx d → embedding_dimensions (gguf_read path) = Some d.
Proof.
  unfold gguf_read. destruct (gguf_init_from_file (c_str path)) as [ctx|]; [|by split].
  split; [|intros ? [= <-] d (arch & Hk & Ht & Ha & Hd)].
  - rewrite bool_decide_true by eauto. destruct (_ <? 0)%Z; [done|]. by destruct (gguf_get_kv_type _ _).
  - rewrite (proj2 (Z.ltb_ge _ _)) by done. rewrite Ht, <- Ha. simpl.
    by destruct Hd as [->|[-> ->]].
Qed.
End checked.

(** A forced model check has teeth: a llama configuration with
    [validate = "force"] that passes the start-up checks names a file the gguf
    library can read, and if that file declares the size of its embeddings the
    configured dimensions are exactly that size. *)
Theorem forced_model_check {G} `{GgufLib G} (fs : fs_view) (c : AppConfig) :
  validate (fs_with_gguf fs) c = [] → provider (embedding c) = "llama" →
  emb_validate (embedding c) = "force" →
  ∃ ctx, gguf_init_from_file (c_str (model_path (embedding c))) = Some ctx ∧
    (0 < dimensions (embedding c))%Z ∧ ∀ d, declares ctx d → d = dimensions (embedding c).
Proof.
  intros Hv Hp Hf. unfold validate, validate_embedding in Hv. rewrite !app_nil in Hv.
  destruct Hv as (_ & _ & _ & (_ & _ & Hv & _) & _). rewrite (bool_decide_true _ Hp) in Hv.
  unfold validate_llama in Hv. rewrite !app_nil, err_nil in Hv. destruct Hv as (Hm & _ & Hd%Z.leb_gt).
  destruct (str_empty _); [done|]. unfold check_model_file in Hm.
  do 4 (case_match; [done|]).
  rewrite (bool_decide_true (emb_validate _ ≠ "none")), (bool_decide_true _ Hf), andb_true_r in Hm by congruence.
  apply err_nil, negb_false_iff, str_empty_true in Hm. unfold gguf_message in Hm. cbn in Hm.
  destruct (gguf_read_spec (model_path (embedding c))) as [Hparse Hdim]. rewrite Hparse in Hm.
  case_bool_decide as Hi; [|done]. destruct Hi as [ctx Hi]. exists ctx. split_and!; [done|done|].
  intros d Hdec. rewrite (Hdim ctx Hi d Hdec) in Hm. destruct (Z.eqb_spec d (dimensions (embedding c))); [done|].
  done.
Qed.

(** A model of architecture "bert" whose projection layer has 1024 outputs. *)
Module DemoGguf.
Definition lib : GgufLib unit :=
  {| gguf_init_from_file := λ p, if bool_decide (p = "/m.gguf") then Some tt else None;
     gguf_find_key := λ _ k, if bool_decide (k = "general.architecture") then 0%Z
                             else if bool_decide (k = "bert.embedding_length_out") then 1%Z
                             else if bool_decide (k = "bert.embedding_length") then 2%Z else (-1)%Z;
     gguf_get_kv_type := λ _ i, if bool_decide (i = 0%Z) then GGUF_TYPE_STRING else GGUF_TYPE_UINT32;
     gguf_get_val_u32 := λ _ i, if bool_decide (i = 1%Z) then 1024%Z else 768%Z;
     gguf_get_val_i32 := λ _ _, 0%Z; gguf_get_val_u64 := λ _ _, 0%Z; gguf_get_val_i64 := λ _ _, 0%Z;
     gguf_get_val_str := λ _ _, "bert" |}.
Definition config : AppConfig :=
  {| settings := settings demo_config; sources := sources demo_config; sinks := sinks demo_config;
     embedding := load_embedding id [("model_path", TString "/m.gguf"); ("validate", TString "force");
                                     ("dimensions", TInt 1024)] 8 |}.
End DemoGguf.
#[local] Existing Instance DemoGguf.lib.

Lemma forced_model_check_witness :
  ∃ ctx, gguf_init_from_file (c_str "/m.gguf") = Some ctx ∧ (0 < 1024)%Z ∧
    ∀ d, declares ctx d → d = 1024%Z.
Proof.
  apply (forced_model_check demo_fs DemoGguf.config); [vm_compute; reflexivity|reflexivity|reflexivity].
Defined.

Example demo_read :
  embedding_dimensions (gguf_read "/m.gguf") = Some 1024%Z ∧ meta_parsed (gguf_read "/other") = false.
Proof. by vm_compute. Qed.
