(* ===== verification/Entry.v ===== *)
(** * [src/main.cpp], [src/walkrie_worker_main.cpp], [src/daemon_utils.cpp]: the two programs

    Command lines, becoming a daemon, and the two [main] functions with their
    exit codes: what is built in which order, and what is left behind when a
    step fails.  What runs once the sources are started is in the file about
    the whole process. *)

From S2P Require Import Prelude Event Config Dispatcher EmbeddingProvider SinkBatch Libpq SqlBuilder PgSink Http QdrantSink MilvusSink JsonSink Sinks BackfillStore Backfill ReplicationSource BackfillManager Pipeline.
From Stdlib Require Import Lia.

(** ** [getopt_long] *)

Record LongOption := { lo_name : string; lo_arg : bool; lo_val : byte }.

(** The options of a program: the short ones with whether they take an
    argument, and the long ones. *)
Record OptionTable := { short_opts : list (byte * bool); long_opts : list LongOption }.

(** What a call returns: the option's letter and [optarg]; ['?'] for a bad one. *)
Abbreviation parsed := (byte * option string)%type.
Definition bad_option : parsed := ("?"%char, None).

Definition find_short (t : OptionTable) (c : byte) : option bool :=
  snd <$> head (filter (λ o, o.1 = c) (short_opts t)).

(** A long option by its name, or by a prefix of it that no other one has. *)
Definition find_long (t : OptionTable) (name : string) : option LongOption :=
  match filter (λ o, lo_name o = name) (long_opts t) with
  | o :: _ => Some o
  | [] => match filter (λ o, String.prefix name (lo_name o) = true) (long_opts t) with
          | [o] => Some o
          | _ => None
          end
  end.

(** [name=value] *)
Fixpoint split_eq (s : string) : string * option string :=
  match s with
  | EmptyString => ("", None)
  | String c s =>
      if bool_decide (c = "="%char) then ("", Some s)
      else let '(n, v) := split_eq s in (String c n, v)
  end.

(** The letters behind one dash; whether the next argument was taken. *)
Fixpoint short_cluster (t : OptionTable) (letters : string) (next : list string) : list parsed * bool :=
  match letters with
  | EmptyString => ([], false)
  | String c rest =>
      match find_short t c with
      | Some true =>
          match rest, next with
          | String _ _, _ => ([(c, Some rest)], false)
          | EmptyString, a :: _ => ([(c, Some a)], true)
          | EmptyString, [] => ([bad_option], false)
          end
      | o => let '(l, took) := short_cluster t rest next in
             ((if o then (c, None) else bad_option) :: l, took)
      end
  end.

(** The sequence of results of the calls on the arguments after the program
    name; arguments that are no options are passed over. *)
Fixpoint getopt_long (t : OptionTable) (args : list string) : list parsed :=
  match args with
  | [] => []
  | arg :: rest =>
      match arg with
      | String "-" (String "-" EmptyString) => []
      | String "-" (String "-" body) =>
          let '(name, value) := split_eq body in
          match find_long t name with
          | None => bad_option :: getopt_long t rest
          | Some o =>
              if lo_arg o then
                match value, rest with
                | Some v, _ => (lo_val o, Some v) :: getopt_long t rest
                | None, v :: rest => (lo_val o, Some v) :: getopt_long t rest
                | None, [] => [bad_option]
                end
              else match value with
                   | Some _ => bad_option :: getopt_long t rest
                   | None => (lo_val o, None) :: getopt_long t rest
                   end
          end
      | String "-" ((String _ _) as letters) =>
          let '(l, took) := short_cluster t letters rest in
          match took, rest with
          | true, _ :: rest => l ++ getopt_long t rest
          | _, _ => l ++ getopt_long t rest
          end
      | _ => getopt_long t rest
      end
  end.

(** [std::stoul]: blanks, a sign and digits; a negative number wraps. *)
Definition stoul (s : string) : outcome Z :=
  let s := skip_spaces s in
  let digits := match s with String "-" r | String "+" r => r | _ => s end in
  match digits with
  | String a _ =>
      let d := (byte_val a - 48)%Z in
      if (0 <=? d)%Z && (d <=? 9)%Z then
        let v := atoi s in
        if (Z.abs v <? 2 ^ 64)%Z then Ret (u64 v) else Throw "stoul"
      else Throw "stoul"
  | EmptyString => Throw "stoul"
  end.

(** ** The worker program *)

Record WorkerOptions := {
  wo_config_path : string;
  wo_store_path : string;
  wo_slot_name : string;
  wo_batch_size : Z;
  wo_show_help : bool;
}.

Definition default_worker_options : WorkerOptions :=
  {| wo_config_path := ""; wo_store_path := ""; wo_slot_name := ""; wo_batch_size := 200;
     wo_show_help := false |}.

Definition worker_table : OptionTable :=
  {| short_opts := [("c"%char, true); ("h"%char, false)];
     long_opts := [{| lo_name := "config"; lo_arg := true; lo_val := "c" |};
                   {| lo_name := "store"; lo_arg := true; lo_val := "s" |};
                   {| lo_name := "slot"; lo_arg := true; lo_val := "n" |};
                   {| lo_name := "batch-size"; lo_arg := true; lo_val := "b" |};
                   {| lo_name := "help"; lo_arg := false; lo_val := "h" |}] |}.

(** One turn of the loop: the new options, or the code of [std::exit]. *)
Definition worker_option (o : WorkerOptions) (r : parsed) : outcome (WorkerOptions + Z) :=
  let arg := default "" r.2 in
  match r.1 with
  | "c"%char => Ret (inl {| wo_config_path := arg; wo_store_path := wo_store_path o;
      wo_slot_name := wo_slot_name o; wo_batch_size := wo_batch_size o; wo_show_help := wo_show_help o |})
  | "s"%char => Ret (inl {| wo_config_path := wo_config_path o; wo_store_path := arg;
      wo_slot_name := wo_slot_name o; wo_batch_size := wo_batch_size o; wo_show_help := wo_show_help o |})
  | "n"%char => Ret (inl {| wo_config_path := wo_config_path o; wo_store_path := wo_store_path o;
      wo_slot_name := arg; wo_batch_size := wo_batch_size o; wo_show_help := wo_show_help o |})
  | "b"%char =>
      n ← stoul arg;
      Ret (inl {| wo_config_path := wo_config_path o; wo_store_path := wo_store_path o;
        wo_slot_name := wo_slot_name o; wo_batch_size := n; wo_show_help := wo_show_help o |})
  | "h"%char => Ret (inl {| wo_config_path := wo_config_path o; wo_store_path := wo_store_path o;
      wo_slot_name := wo_slot_name o; wo_batch_size := wo_batch_size o; wo_show_help := true |})
  | _ => Ret (inr 1%Z)
  end.

(** The loop of [parse_args], of either program. *)
Fixpoint fold_options {O} (turn : O → parsed → outcome (O + Z)) (o : O) (rs : list parsed) : outcome (O + Z) :=
  match rs with
  | [] => Ret (inl o)
  | r :: rs => x ← turn o r;
               match x with inl o => fold_options turn o rs | inr code => Ret (inr code) end
  end.

Definition worker_parse_args (argv : list string) : outcome (WorkerOptions + Z) :=
  fold_options worker_option default_worker_options (getopt_long worker_table (tail argv)).

(** ** The options of the main program *)

Record MainOptions := { mo_config_path : string; mo_pid_file : string; mo_foreground : bool; mo_show_help : bool }.

Definition default_main_options : MainOptions :=
  {| mo_config_path := ""; mo_pid_file := "/run/walkrie/walkrie.pid"; mo_foreground := false; mo_show_help := false |}.

Definition main_table : OptionTable :=
  {| short_opts := [("c"%char, true); ("f"%char, false); ("h"%char, false)];
     long_opts := [{| lo_name := "config"; lo_arg := true; lo_val := "c" |};
                   {| lo_name := "foreground"; lo_arg := false; lo_val := "f" |};
                   {| lo_name := "pid-file"; lo_arg := true; lo_val := "p" |};
                   {| lo_name := "help"; lo_arg := false; lo_val := "h" |}] |}.

Definition main_option (o : MainOptions) (r : parsed) : outcome (MainOptions + Z) :=
  let arg := default "" r.2 in
  match r.1 with
  | "c"%char => Ret (inl {| mo_config_path := arg; mo_pid_file := mo_pid_file o;
                            mo_foreground := mo_foreground o; mo_show_help := mo_show_help o |})
  | "f"%char => Ret (inl {| mo_config_path := mo_config_path o; mo_pid_file := mo_pid_file o;
                            mo_foreground := true; mo_show_help := mo_show_help o |})
  | "p"%char => Ret (inl {| mo_config_path := mo_config_path o; mo_pid_file := arg;
                            mo_foreground := mo_foreground o; mo_show_help := mo_show_help o |})
  | "h"%char => Ret (inl {| mo_config_path := mo_config_path o; mo_pid_file := mo_pid_file o;
                            mo_foreground := mo_foreground o; mo_show_help := true |})
  | _ => Ret (inr 1%Z)
  end.

Definition main_parse_args (argv : list string) : outcome (MainOptions + Z) :=
  fold_options main_option default_main_options (getopt_long main_table (tail argv)).

(** ** The worker's command line *)

(** The worker reads back the command line the manager gives it: whatever
    the paths and the slot name (empty, blank, or looking like options
    themselves), the child process sees exactly the manager's configuration
    path, the source's store path and slot name, and the default batch size. *)
Theorem worker_command_line_roundtrip (m : BackfillManager) (store_path slot : string) :
  worker_parse_args (worker_argv m store_path slot) =
  Ret (inl {| wo_config_path := c_str (config_path_ m); wo_store_path := c_str store_path;
              wo_slot_name := c_str slot; wo_batch_size := 200; wo_show_help := false |}).
Proof. reflexivity. Qed.

(** ** [BackfillWorker::run] and the worker's [main] *)

Section worker.
Context {P Srv Net F : Type} `{EmbeddingProvider P} `{Curl Net} `{JsonText} `{LibUuid} `{Files F} `{RowOrder}.
Context (conn : SinkRef → Libpq Srv) (trunc_float : Z → Z) (has_curl : bool).
Context (to_float : Z → Z) (parse_file : string → outcome toml_table).
Context (make_provider : EmbeddingConfig → outcome P).
Abbreviation world := (SinkWorld P Srv Net F).

(** The whole of [run]: [inl] is [last_error()] of a failed run. *)
Definition backfill_worker_run (fuel : nat) (config_path store_path : string) (claim_batch_size : Z)
    : prog (Store * world) (string + unit) := λ w,
  match load_config to_float parse_file config_path with
  | Throw e => (Ret (inl ("config load failed: " +:+ e)), w)
  | UB e => (UB e, w)
  | OutOfFuel => (OutOfFuel, w)
  | Ret cfg =>
      let _ := sink_objects conn trunc_float (sinks cfg) in
      (r ← try_catch (on_snd (init_sinks conn trunc_float has_curl make_provider cfg) ;; mret None)
                     (λ e, mret (Some ("sink init failed: " +:+ e)));
       match r with
       | Some e => mret (inl e)
       | None => worker_run fuel store_path claim_batch_size (seq 0 (length (sinks cfg)))
       end) w
  end.

(** [main]: the exit code. *)
Definition worker_main (fuel : nat) (argv : list string) : prog (Store * world) Z :=
  o ← lift (worker_parse_args argv);
  match o with
  | inr code => mret code
  | inl o =>
      if wo_show_help o || str_empty (wo_config_path o) || str_empty (wo_store_path o)
      then mret (if wo_show_help o then 0 else 1)%Z
      else
        r ← backfill_worker_run fuel (wo_config_path o) (wo_store_path o) (wo_batch_size o);
        mret (match r with inl _ => 1 | inr _ => 0 end)%Z
  end.
End worker.

(** ** Becoming a daemon *)

(** The process as the kernel sees it; the results of system calls to come are
    given in advance. *)
Record Machine := {
  cwd : string;
  pid_files : gset string;
  forks : list Z;
  setsid_ok : bool;
  chdir_ok : bool;
  can_create : string → bool;
  base_ok : bool;             (* whether event_base_new gives a base *)
}.

Definition set_forks (l : list Z) (m : Machine) : Machine :=
  {| cwd := cwd m; pid_files := pid_files m; forks := l; setsid_ok := setsid_ok m;
     chdir_ok := chdir_ok m; can_create := can_create m; base_ok := base_ok m |}.
Definition set_cwd (d : string) (m : Machine) : Machine :=
  {| cwd := d; pid_files := pid_files m; forks := forks m; setsid_ok := setsid_ok m;
     chdir_ok := chdir_ok m; can_create := can_create m; base_ok := base_ok m |}.
Definition set_pid_files (l : gset string) (m : Machine) : Machine :=
  {| cwd := cwd m; pid_files := l; forks := forks m; setsid_ok := setsid_ok m;
     chdir_ok := chdir_ok m; can_create := can_create m; base_ok := base_ok m |}.

(** A path as the kernel resolves it. *)
Definition resolve (m : Machine) (path : string) : string :=
  match c_str path with
  | String "/" _ as p => p
  | p => cwd m +:+ "/" +:+ p
  end.

(** What [fork] returns in the process that is followed. *)
Definition fork : prog Machine Z := λ m,
  match forks m with
  | [] => (Ret (-1)%Z, m)
  | r :: l => (Ret r, set_forks l m)
  end.

Definition write_pid_file (path : string) : prog Machine bool := λ m,
  if can_create m (resolve m path)
  then (Ret true, set_pid_files ({[ resolve m path ]} ∪ pid_files m) m) else (Ret false, m).

Definition remove_pid_file (path : string) : prog Machine unit := λ m,
  if str_empty path then (Ret tt, m)
  else (Ret tt, set_pid_files (pid_files m ∖ {[ resolve m path ]}) m).

(** [Some code] when this process ends in [std::exit]. *)
Definition daemonize (pid_file_path : string) : prog Machine (option Z) :=
  pid ← fork;
  if (pid <? 0)%Z then mret (Some 1%Z)
  else if (0 <? pid)%Z then mret (Some 0%Z)
  else
    m ← gets id;
    if negb (setsid_ok m) then mret (Some 1%Z)
    else
      pid ← fork;
      if (pid <? 0)%Z then mret (Some 1%Z)
      else if (0 <? pid)%Z then mret (Some 0%Z)
      else
        modify (λ m, if chdir_ok m then set_cwd "/" m else m) ;;
        (if str_empty pid_file_path then mret tt else write_pid_file pid_file_path ;; mret tt) ;;
        mret None.

(** ** The main program *)

(** [std::filesystem::path]: [parent_path()] and [operator/]. *)
Fixpoint drop_trailing_slashes (l : list byte) : list byte :=      (* of a reversed path *)
  match l with
  | "/"%char :: l => drop_trailing_slashes l
  | _ => l
  end.

Fixpoint drop_name (l : list byte) : list byte :=
  match l with
  | [] => []
  | "/"%char :: _ => l
  | _ :: l => drop_name l
  end.

Definition parent_path (p : string) : string :=
  let l := drop_name (reverse (bytes_of_string p)) in
  match l, drop_trailing_slashes l with
  | _ :: _, [] => "/"
  | _, l => string_of_bytes (reverse l)
  end.

Definition path_join (p q : string) : string :=
  match reverse (bytes_of_string p) with
  | [] => q
  | "/"%char :: _ => p +:+ q
  | _ => p +:+ "/" +:+ q
  end.

(** [self_exe] is what [canonical("/proc/self/exe")] gives. *)
Definition resolve_backfill_worker_path (self_exe : option string) (argv0 : string) : string :=
  path_join (parent_path (default argv0 self_exe)) "walkrie_worker".

(** The destructor of a source frees its events, which belong to the base. *)
Definition destroy_source (base_alive : bool) (s : src) : outcome unit :=
  match read_event_ s, timer_event_ s with
  | None, None => Ret tt
  | _, _ => if base_alive then Ret tt else UB "event_free after event_base_free"
  end.

Fixpoint destroy_sources (base_alive : bool) (ss : list src) : outcome unit :=
  match ss with
  | [] => Ret tt
  | s :: ss => _ ← destroy_source base_alive s; destroy_sources base_alive ss
  end.

Section main.
Context {P Srv Net F OS : Type} `{EmbeddingProvider P} `{Curl Net} `{JsonText} `{LibUuid} `{Files F}.
Context `{Libpq Srv} `{CopyStream Srv} `{Processes OS}.
Context (conn : SinkRef → Libpq Srv) (trunc_float : Z → Z) (has_curl : bool).
Context (to_float : Z → Z) (parse_file : string → outcome toml_table) (fs : Machine → fs_view).
Context (make_provider : EmbeddingConfig → outcome P) (create_parent : string → outcome unit).
Context (self_exe : option string).
Abbreviation sinks_world := (SinkWorld P Srv Net F).

(** Up to the daemon: the exit code, or the options and the configuration. *)
Definition main_configure (argv : list string) : prog Machine (Z + (MainOptions * AppConfig)) :=
  r ← lift (main_parse_args argv);
  match r with
  | inr code => mret (inl code)
  | inl o =>
      if mo_show_help o || str_empty (mo_config_path o)
      then mret (inl (if mo_show_help o then 0 else 1)%Z)
      else
        m ← gets id;
        c ← try_catch (c ← lift (load_config to_float (λ p, parse_file (resolve m p)) (mo_config_path o));
                       mret (Some c)) (λ _, mret None);
        match c with
        | None => mret (inl 1%Z)
        | Some cfg =>
            match validate (fs m) cfg with
            | [] =>
                d ← (if mo_foreground o then mret None else daemonize (mo_pid_file o));
                match d with
                | Some code => mret (inl code)
                | None => mret (inr (o, cfg))
                end
            | _ => mret (inl 1%Z)
            end
        end
  end.

(** The event base, the provider and the sinks: [Some code] when [main]
    returns. *)
Definition main_build (o : MainOptions) (cfg : AppConfig) : prog (Machine * sinks_world) (option Z) :=
  m ← gets fst;
  if negb (base_ok m) then mret (Some 1%Z)
  else
    r ← try_catch (on_snd (init_sinks conn trunc_float has_curl make_provider cfg) ;; mret true)
                  (λ _, mret false);
    if (r : bool) then mret None
    else (if mo_foreground o then mret tt else on_fst (remove_pid_file (mo_pid_file o))) ;; mret (Some 1%Z).

(** The sources; when one fails the manager and the base are freed, and the
    sources with the other locals of [main]. *)
Definition main_sources (fuel : nat) (argv0 : string) (o : MainOptions) (ws : list (src * Srv))
    : prog OS (Z + (BackfillManager * list (src * Srv))) := λ os,
  let mgr := set_worker_path (resolve_backfill_worker_path self_exe argv0) (make_manager (mo_config_path o)) in
  let '(r, (mgr, os)) :=
    ('(ok, ws) ← start_sources create_parent ws;
     if (ok : bool) then mgr ← gets fst; mret (inr (mgr, ws))
     else destroy_manager fuel ;; _ ← lift (destroy_sources false ws.*1); mret (inl 1%Z)) (mgr, os) in
  (r, os).

(** After the event loop. *)
Definition main_finish (fuel : nat) (o : MainOptions) (ws : list (src * Srv))
    : prog (Machine * (BackfillManager * OS)) Z :=
  on_snd (wait_for_all_workers fuel) ;;
  on_snd (destroy_manager fuel) ;;
  _ ← lift (destroy_sources true ws.*1);
  (if mo_foreground o then mret tt else on_fst (remove_pid_file (mo_pid_file o))) ;;
  mret 0%Z.

(** The whole of [main] up to the event loop. *)
Definition main_start (fuel : nat) (argv : list string) (disk : string → Store) (servers : list Srv)
    : prog ((Machine * sinks_world) * OS) (Z + (MainOptions * AppConfig * BackfillManager * list (src * Srv))) :=
  c ← on_fst (on_fst (main_configure argv));
  match c with
  | inl code => mret (inl code)
  | inr (o, cfg) =>
      b ← on_fst (main_build o cfg);
      match b with
      | Some code => mret (inl code)
      | None =>
          r ← on_snd (main_sources fuel (default "" (head argv)) o (zip (make_sources cfg disk) servers));
          match r with
          | inl code => mret (inl code)
          | inr (mgr, ws) => mret (inr (o, cfg, mgr, ws))
          end
      end
  end.
End main.

(** ** What the worker's exit code says *)

(** Where [run] can end: before the store is opened, or in the drain. *)
Lemma backfill_worker_run_inv {P Srv Net F} `{EmbeddingProvider P} `{Curl Net} `{JsonText} `{LibUuid} `{Files F}
    `{RowOrder} (conn : SinkRef → Libpq Srv) trunc_float has_curl to_float parse_file
    (make_provider : EmbeddingConfig → outcome P) fuel config_path store_path limit
    (w w' : Store * SinkWorld P Srv Net F) r :
  backfill_worker_run conn trunc_float has_curl to_float parse_file make_provider fuel
    config_path store_path limit w = (Ret r, w') →
  (∃ e, r = inl e ∧ w'.1 = w.1) ∨
  (∃ cfg w1, load_config to_float parse_file config_path = Ret cfg ∧ w1.1 = w.1 ∧
     init_sinks conn trunc_float has_curl make_provider cfg w.2 = (Ret tt, w1.2) ∧
     let _ := sink_objects conn trunc_float (sinks cfg) in
     worker_run fuel store_path limit (seq 0 (length (sinks cfg))) w1 = (Ret r, w')).
Proof.
  unfold backfill_worker_run. destruct (load_config _ _ _) as [cfg|e| |] eqn:El; try done.
  2:{ intros [= <- <-]. left. eauto. }
  intros Hr. apply prog_bind_inv in Hr as (o & w1 & Ho & Hr).
  assert (w1.1 = w.1 ∧ (o = None → init_sinks conn trunc_float has_curl make_provider cfg w.2 = (Ret tt, w1.2)))
    as [E1 E2].
  { unfold try_catch, mbind, prog_bind, on_snd, mret, prog_ret in Ho.
    destruct (init_sinks _ _ _ _ cfg w.2) as [[[]|e| |] v]; simplify_eq/=; done. }
  destruct o as [e|]; [injection Hr as <- <-; left; eauto|].
  right. exists cfg, w1. by split_and!; [|..|apply E2|].
Qed.

(** C27: an exit code of 0 means drained: when the worker is run for a store
    (not for its help text) with a batch size of at least one and exits with
    0, no row of the store is pending, whatever went wrong on the way; and
    when it fails before it starts to drain (a bad configuration, a provider or
    sink that cannot be built) the store is exactly as it was. *)
Theorem worker_exit_zero_drained {P Srv Net F} `{EmbeddingProvider P} `{Curl Net} `{JsonText} `{LibUuid}
    `{Files F} `{RowOrder} (conn : SinkRef → Libpq Srv) (trunc_float : Z → Z) (has_curl : bool)
    (to_float : Z → Z) (parse_file : string → outcome toml_table)
    (make_provider : EmbeddingConfig → outcome P) (fuel : nat) (argv : list string) (o : WorkerOptions)
    (w w' : Store * SinkWorld P Srv Net F) (code : Z) :
  worker_parse_args argv = Ret (inl o) → wo_show_help o = false → (1 ≤ wo_batch_size o < 2 ^ 63)%Z →
  worker_main conn trunc_float has_curl to_float parse_file make_provider fuel argv w = (Ret code, w') →
  (code = 0%Z → pending w'.1 = ∅) ∧
  ((∀ cfg v, load_config to_float parse_file (wo_config_path o) = Ret cfg →
             init_sinks conn trunc_float has_curl make_provider cfg w.2 ≠ (Ret tt, v)) →
   code = 1%Z ∧ w'.1 = w.1).
Proof.
  intros Hp Hh Hl. unfold worker_main. rewrite Hp.
  intros Hm. apply prog_bind_inv in Hm as (x & w0 & Hx & Hm). injection Hx as <- <-.
  rewrite Hh in Hm. cbn [orb] in Hm.
  destruct (str_empty (wo_config_path o) || str_empty (wo_store_path o)).
  { injection Hm as <- <-. done. }
  apply prog_bind_inv in Hm as (r & w1 & Hr & Hm). injection Hm as <- <-.
  apply backfill_worker_run_inv in Hr as [(e & -> & E)|(cfg & w2 & El & E2 & Hi & Hw)]; [done|].
  split; [|by intros Hno; destruct (Hno cfg w2.2 El)].
  destruct r as [e|[]]; [done|intros _].
  apply prog_bind_inv in Hw as ([e|] & w3 & _ & Hw); [done|]. by eapply drain_loop_success.
Qed.

(** ** The pid file *)

Lemma remove_pid_file_removes path m :
  path ≠ "" → remove_pid_file path m = (Ret tt, set_pid_files (pid_files m ∖ {[ resolve m path ]}) m).
Proof. intros Hp. unfold remove_pid_file. by rewrite (proj2 (str_empty_false _) Hp). Qed.

(** Becoming a daemon succeeds in one way only. *)
Lemma daemonize_none path m m' :
  path ≠ "" → daemonize path m = (Ret None, m') →
  pid_files m' = (if can_create m (resolve m' path) then {[ resolve m' path ]} else ∅) ∪ pid_files m ∧
  base_ok m' = base_ok m.
Proof.
  intros Hp Hd. unfold daemonize in Hd. apply prog_bind_inv in Hd as (p1 & m1 & H1 & Hd).
  destruct (p1 <? 0)%Z; [done|]. destruct (0 <? p1)%Z; [done|].
  apply prog_bind_inv in Hd as (x & ? & [= <- <-] & Hd). simpl in Hd. destruct (setsid_ok m1); [|done].
  apply prog_bind_inv in Hd as (p2 & m2 & H2 & Hd).
  destruct (p2 <? 0)%Z; [done|]. destruct (0 <? p2)%Z; [done|].
  apply prog_bind_inv in Hd as ([] & m3 & [= <-] & Hd).
  rewrite (proj2 (str_empty_false _) Hp) in Hd.
  apply prog_bind_inv in Hd as ([] & m4 & Hw & [= <-]).
  apply prog_bind_inv in Hw as (ok & m5 & Hw & [= <-]).
  assert (∀ m p m', fork m = (Ret p, m') → pid_files m' = pid_files m ∧ can_create m' = can_create m ∧
    base_ok m' = base_ok m) as Hfork.
  { intros ? ? ? Hf. unfold fork in Hf. destruct (forks _); by injection Hf as _ <-. }
  apply Hfork in H1 as (E1 & C1 & B1), H2 as (E2 & C2 & B2). unfold write_pid_file in Hw.
  set (m3 := if chdir_ok m2 then set_cwd "/" m2 else m2) in *.
  assert (can_create m3 = can_create m ∧ pid_files m3 = pid_files m ∧ base_ok m3 = base_ok m) as (C3 & E3 & B3).
  { unfold m3. destruct (chdir_ok m2); simpl; split_and!; congruence. }
  destruct (can_create m3 (resolve m3 path)) eqn:Ec; injection Hw as _ <-.
  - change (resolve (set_pid_files _ m3) path) with (resolve m3 path). rewrite <- C3, Ec. simpl.
    by rewrite E3.
  - rewrite <- C3, Ec. by rewrite union_empty_l_L.
Qed.

(** What the parts of [main] do to the machine. *)
Lemma on_snd_fst {A B R} (f : prog B R) (w w' : A * B) r : on_snd f w = (r, w') → w'.1 = w.1.
Proof. unfold on_snd. destruct (f w.2). by intros [= _ <-]. Qed.

Lemma main_build_machine {P Srv Net F} `{EmbeddingProvider P} `{Curl Net} `{JsonText} `{LibUuid} `{Files F}
    (conn : SinkRef → Libpq Srv) trunc_float has_curl make_provider o cfg m (sw sw' : SinkWorld P Srv Net F) r m' :
  mo_foreground o = false → mo_pid_file o ≠ "" → base_ok m = true →
  main_build conn trunc_float has_curl make_provider o cfg (m, sw) = (Ret r, (m', sw')) →
  match r with
  | Some code => code = 1%Z ∧ pid_files m' = pid_files m ∖ {[ resolve m (mo_pid_file o) ]}
  | None => m' = m
  end.
Proof.
  intros Hfg Hp Hb. unfold main_build, mbind, prog_bind, gets, try_catch, on_snd, mret, prog_ret.
  cbn [fst snd]. rewrite Hb, Hfg. cbn [negb fst snd].
  destruct (init_sinks conn trunc_float has_curl make_provider cfg sw) as [[[]|e| |] sw1]; cbn;
    [by intros ?; simplify_eq/=| |done|done].
  unfold on_fst. cbn [fst snd]. rewrite remove_pid_file_removes by done. by intros ?; simplify_eq/=.
Qed.

Lemma main_finish_machine {Srv OS} `{Processes OS} fuel o (ws : list (src * Srv)) m (mo mo' : BackfillManager * OS) m' code :
  mo_foreground o = false → mo_pid_file o ≠ "" →
  main_finish fuel o ws (m, mo) = (Ret code, (m', mo')) →
  code = 0%Z ∧ pid_files m' = pid_files m ∖ {[ resolve m (mo_pid_file o) ]}.
Proof.
  intros Hfg Hp Hf. unfold main_finish in Hf. rewrite Hfg in Hf.
  apply prog_bind_inv in Hf as ([] & w1 & E1%on_snd_fst & Hf).
  apply prog_bind_inv in Hf as ([] & w2 & E2%on_snd_fst & Hf).
  apply prog_bind_inv in Hf as ([] & w3 & H3 & Hf). apply prog_bind_inv in Hf as ([] & w4 & H4 & [= <- Ew]).
  assert (w3 = w2) as -> by by injection H3.
  unfold on_fst in H4. rewrite remove_pid_file_removes in H4 by done. injection H4 as <-.
  injection Ew as <- _. simpl in *. by rewrite E2, E1.
Qed.

(** C33: the life of the pid file of a daemon that could create it: it is there
    once [daemonize] returns; a provider or sink that cannot be built makes
    [main] return 1 and take the file away; a regular shutdown returns 0 and
    takes it away; but once the sinks are built it stays there however the
    start of the sources ends, so a source that fails to start leaves it. *)
Theorem pid_file_lifecycle {P Srv Net F OS} `{EmbeddingProvider P} `{Curl Net} `{JsonText} `{LibUuid} `{Files F}
    `{Libpq Srv} `{CopyStream Srv} `{Processes OS} (conn : SinkRef → Libpq Srv) (trunc_float : Z → Z)
    (has_curl : bool) (to_float : Z → Z) (parse_file : string → outcome toml_table) (fs : Machine → fs_view)
    (make_provider : EmbeddingConfig → outcome P) (create_parent : string → outcome unit)
    (self_exe : option string) (o : MainOptions) (cfg : AppConfig) (m m1 : Machine) :
  mo_foreground o = false → mo_pid_file o ≠ "" → daemonize (mo_pid_file o) m = (Ret None, m1) →
  base_ok m = true → can_create m (resolve m1 (mo_pid_file o)) = true →
  let path := resolve m1 (mo_pid_file o) in
  let build := main_build conn trunc_float has_curl make_provider o cfg in
  path ∈ pid_files m1 ∧
  (∀ (sw sw' : SinkWorld P Srv Net F) m2 code, build (m1, sw) = (Ret (Some code), (m2, sw')) →
     code = 1%Z ∧ pid_files m2 = pid_files m ∖ {[ path ]}) ∧
  (∀ fuel ws (mo mo' : BackfillManager * OS) m2 code,
     main_finish fuel o (ws : list (src * Srv)) (m1, mo) = (Ret code, (m2, mo')) →
     code = 0%Z ∧ pid_files m2 = pid_files m ∖ {[ path ]}) ∧
  (∀ fuel argv disk servers (sw sw' : SinkWorld P Srv Net F) m2 (os : OS) r w',
     main_configure to_float parse_file fs argv m = (Ret (inr (o, cfg)), m1) →
     build (m1, sw) = (Ret None, (m2, sw')) →
     main_start conn trunc_float has_curl to_float parse_file fs make_provider create_parent self_exe
       fuel argv disk servers ((m, sw), os) = (Ret r, w') →
     path ∈ pid_files w'.1.1).
Proof.
  intros Hfg Hpath Hd Hbase Hcan path build. apply daemonize_none in Hd as [Hfiles Hbase1]; [|done].
  rewrite Hcan in Hfiles. fold path in Hfiles.
  assert (path ∈ pid_files m1) as Hin by set_solver.
  assert ((pid_files m1 ∖ {[ path ]} : gset string) = pid_files m ∖ {[ path ]}) as Hout
    by (rewrite Hfiles; set_solver).
  split_and!; [done| | |].
  - intros sw sw' m2 code Hb. eapply main_build_machine in Hb as [? ->]; [done..|congruence].
  - intros fuel ws mo mo' m2 code Hf. by apply main_finish_machine in Hf as [? ->].
  - intros fuel argv disk servers sw sw' m2 os r w' Hc Hb Hs. unfold main_start in Hs.
    apply prog_bind_inv in Hs as (c & w1 & H1' & Hs). unfold on_fst in H1'. cbn [fst snd] in H1'.
    rewrite Hc in H1'. injection H1' as <- <-.
    apply prog_bind_inv in Hs as (b & w2 & H2' & Hs). unfold on_fst in H2'. cbn [fst snd] in H2'.
    fold build in H2'. rewrite Hb in H2'. injection H2' as <- <-.
    apply main_build_machine in Hb as ->; [|done|done|congruence].
    apply prog_bind_inv in Hs as (x & w3 & E3%on_snd_fst & Hs).
    destruct x as [?|[mgr ws]]; injection Hs as _ <-; by rewrite E3.
Qed.

(** ** Sources that outlive the event base *)

Lemma destroy_sources_dead (ss : list src) :
  Exists (λ s, read_event_ s ≠ None) ss → destroy_sources false ss = UB "event_free after event_base_free".
Proof.
  induction ss as [|s ss IH]; intros He; [by apply Exists_nil in He|]. cbn [destroy_sources].
  unfold destroy_source. apply Exists_cons in He as [He|He].
  - by destruct (read_event_ s).
  - destruct (read_event_ s), (timer_event_ s); try done. by apply IH.
Qed.

(** When a source fails to start after another one was registered with the
    event loop, [main] frees the event base first and the sources, whose
    destructors free their events in it, only when it returns: undefined
    behaviour instead of the exit code 1. *)
Theorem failed_source_uses_freed_base {Srv OS} `{Libpq Srv} `{CopyStream Srv} `{JsonText} `{Processes OS}
    (create_parent : string → outcome unit) (self_exe : option string) (fuel : nat) (argv0 : string)
    (o : MainOptions) (ws ws' : list (src * Srv)) (os : OS) (w1 w2 : BackfillManager * OS) :
  start_sources create_parent ws
    (set_worker_path (resolve_backfill_worker_path self_exe argv0) (make_manager (mo_config_path o)), os)
    = (Ret (false, ws'), w1) →
  destroy_manager fuel w1 = (Ret tt, w2) →
  Exists (λ w, read_event_ w.1 ≠ None) ws' →
  main_sources create_parent self_exe fuel argv0 o ws os = (UB "event_free after event_base_free", w2.2).
Proof.
  intros Hs Hd He. unfold main_sources. rewrite (prog_bind_ret _ _ _ _ _ Hs).
  rewrite (prog_bind_ret _ _ _ _ _ Hd). unfold lift, mbind, prog_bind.
  rewrite destroy_sources_dead; [by destruct w2|]. by apply Exists_fmap.
Qed.

(** ** A worker for the witnesses: one row, one JSON sink *)

Module DemoWorker.
Definition document : toml_table :=
  [("sink", TArray [TTable [("type", TString "json-output"); ("output_target", TString "out")]])].
Definition parse_file (path : string) : outcome toml_table :=
  if bool_decide (path = "c.toml") then Ret document else Throw "no such file".
Definition argv : list string := ["walkrie_worker"; "-c"; "c.toml"; "--store"; "s.db"; "--batch-size=5"].
Definition options : WorkerOptions :=
  {| wo_config_path := "c.toml"; wo_store_path := "s.db"; wo_slot_name := ""; wo_batch_size := 5;
     wo_show_help := false |}.
Definition run : outcome Z * (Store * SinkWorld nat DemoServer.table unit (gmap string string)) :=
  let _ := DemoBackfill.text in let _ := DemoMilvus.uuid in let _ := DemoSinks.net in let _ := DemoJson.files in
  worker_main (λ _, DemoSinks.server) id true id parse_file (λ _, Ret 0) 9 argv (one_row, DemoSinks.start).
End DemoWorker.
#[local] Existing Instances DemoBackfill.text DemoMilvus.uuid DemoSinks.net DemoJson.files.

Lemma worker_exit_zero_drained_witness :
  (0%Z = 0%Z → pending DemoWorker.run.2.1 = ∅) ∧
  ((∀ cfg v, load_config id DemoWorker.parse_file "c.toml" = Ret cfg →
      init_sinks (λ _, DemoSinks.server) id true (λ _, Ret 0) cfg DemoSinks.start ≠ (Ret tt, v)) →
   0%Z = 1%Z ∧ DemoWorker.run.2.1 = one_row).
Proof.
  apply (worker_exit_zero_drained (λ _, DemoSinks.server) id true id DemoWorker.parse_file (λ _, Ret 0) 9
    DemoWorker.argv DemoWorker.options (one_row, DemoSinks.start) DemoWorker.run.2 0).
  - reflexivity.
  - reflexivity.
  - simpl. lia.
  - vm_compute. reflexivity.
Defined.

Module DemoDaemon.
Definition machine : Machine :=
  {| cwd := "/home/u"; pid_files := ∅; forks := [0%Z; 0%Z]; setsid_ok := true; chdir_ok := true;
     can_create := λ _, true; base_ok := true |}.
Definition options : MainOptions :=
  {| mo_config_path := "c.toml"; mo_pid_file := "w.pid"; mo_foreground := false; mo_show_help := false |}.
Definition daemon : Machine := set_pid_files {[ "//w.pid" ]} (set_cwd "/" (set_forks [] machine)).
End DemoDaemon.

Lemma pid_file_lifecycle_witness :
  let _ := DemoProcess.queries in let _ := DemoProcess.stream in let _ := DemoProcesses.calls in
  let build := main_build (λ _, DemoProcess.queries) id true (λ _, Ret 0) DemoDaemon.options DemoSinks.config in
  "//w.pid" ∈ pid_files DemoDaemon.daemon ∧
  (∀ (sw sw' : SinkWorld nat DemoProcess.server unit (gmap string string)) m2 code,
     build (DemoDaemon.daemon, sw) = (Ret (Some code), (m2, sw')) →
     code = 1%Z ∧ pid_files m2 = pid_files DemoDaemon.machine ∖ {[ "//w.pid" ]}) ∧
  (∀ fuel ws (mo mo' : BackfillManager * DemoProcesses.os) m2 code,
     main_finish fuel DemoDaemon.options (ws : list (src * DemoProcess.server)) (DemoDaemon.daemon, mo)
       = (Ret code, (m2, mo')) →
     code = 0%Z ∧ pid_files m2 = pid_files DemoDaemon.machine ∖ {[ "//w.pid" ]}) ∧
  (∀ fuel argv disk servers (sw sw' : SinkWorld nat DemoProcess.server unit (gmap string string)) m2
       (os : DemoProcesses.os) r w',
     main_configure id DemoWorker.parse_file (λ _, demo_fs) argv DemoDaemon.machine
       = (Ret (inr (DemoDaemon.options, DemoSinks.config)), DemoDaemon.daemon) →
     build (DemoDaemon.daemon, sw) = (Ret None, (m2, sw')) →
     main_start (λ _, DemoProcess.queries) id true id DemoWorker.parse_file (λ _, demo_fs) (λ _, Ret 0)
       (λ _, Ret tt) None fuel argv disk servers ((DemoDaemon.machine, sw), os) = (Ret r, w') →
     "//w.pid" ∈ pid_files w'.1.1).
Proof.
  intros q st pr.
  apply (pid_file_lifecycle (λ _, DemoProcess.queries) id true id DemoWorker.parse_file (λ _, demo_fs)
    (λ _, Ret 0) (λ _, Ret tt) None DemoDaemon.options DemoSinks.config DemoDaemon.machine DemoDaemon.daemon).
  - reflexivity.
  - done.
  - vm_compute. reflexivity.
  - reflexivity.
  - reflexivity.
Defined.

(** Two sources, the second of which is refused. *)
Module DemoSources.
Definition queries : Libpq DemoProcess.server :=
  {| pq_connect := λ _ s, (match s with [] => Some "connection refused" | _ => None end, s);
     pq_exec := @pq_exec _ DemoProcess.queries; pq_exec_params := @pq_exec_params _ DemoProcess.queries |}.
Definition config : AppConfig :=
  {| settings := default_settings;
     sources := sources DemoProcess.config ++ sources DemoProcess.config;
     sinks := sinks DemoProcess.config; embedding := embedding DemoProcess.config |}.
Definition worlds : list (src * DemoProcess.server) :=
  zip (make_sources config DemoProcess.disk) [[("k"%char, [])]; []].
End DemoSources.

Lemma failed_source_uses_freed_base_witness :
  let _ := DemoSources.queries in let _ := DemoProcess.stream in let _ := DemoProcesses.calls in
  main_sources (λ _, Ret tt) None 9 "walkrie" DemoDaemon.options DemoSources.worlds ([], false)
  = (UB "event_free after event_base_free", ([], false)).
Proof.
  intros q st pr.
  eapply (failed_source_uses_freed_base (λ _, Ret tt) None 9 "walkrie" DemoDaemon.options
    DemoSources.worlds _ ([], false) _ (_, ([], false))).
  - vm_compute. reflexivity.
  - vm_compute. reflexivity.
  - left. vm_compute. discriminate.
Defined.

(** A relative configuration path names another file once the daemon has
    changed its directory, where its workers start too. *)
Example daemon_moves_relative_config :
  resolve DemoDaemon.machine "c.toml" = "/home/u/c.toml" ∧
  daemonize "w.pid" DemoDaemon.machine = (Ret None, DemoDaemon.daemon) ∧
  resolve DemoDaemon.daemon "c.toml" = "//c.toml".
Proof. by vm_compute. Qed.
