(* ===== verification/BackfillToTable.v ===== *)
(** * From the backfill store to the sink's table

    The worker program with a PostgreSQL sink, end to end: the components are
    put together through the interfaces they were proved against (the provider
    as [ProviderOk], the server as [PgTable], the sinks as [sinks_take]). *)

From S2P Require Import Prelude Event Config Dispatcher EmbeddingProvider SinkBatch Libpq SqlBuilder PgSink Http QdrantSink MilvusSink JsonSink Sinks BackfillStore Backfill ReplicationSource BackfillManager Pipeline Entry.
From Stdlib Require Import Lia.

(** Rehydrated rows are inserts. *)
Lemma rehydrated_insert `{JsonText} k d ev : event_of k d = Some ev → op ev = OpInsert.
Proof.
  unfold event_of, to_change_event. destruct (parse_json _) as [j| | |]; try done. run.
  destruct j as [| | | | |[]|l]; try done; run; try by intros [= <-].
  destruct (decode_members l); try done. run. by intros [= <-].
Qed.

Lemma insert_prepares ms ev be : op ev = OpInsert → prepare ms ev = Some be → kind be = Upsert.
Proof.
  intros Ho. unfold prepare, prepare_upsert. rewrite Ho. case_bool_decide; [done|].
  destruct (find_mapping _ _); [|done]. destruct (new_row ev); [|done]. destruct (_ && _); [done|].
  destruct (_ || _); [done|]. by intros [= <-].
Qed.

Section table.
Context {K R : Type} `{Countable K} (mappings : list TableMapping) (e : string → vec).
Context (key_of : TableMapping → string → K).
Context (row_of : TableMapping → string → string → list string → vec → R) (merge : R → R → R).
Context (removed : TableMapping → string → K * R → bool) (truncated : TableMapping → K * R → bool).

(** [kept r row]: the stored [row] still has what was written as [r]. *)
Context (kept : R → R → Prop) (Hrefl : ∀ r, kept r r) (Hmerge : ∀ r old, kept r (merge r old)).
Abbreviation step := (table_step mappings e key_of row_of merge removed truncated).
Abbreviation table := (gmap K R).

Definition row_for (be : BatchEvent) : R :=
  row_of (tm be) (id_val be) (embed_val be) (meta_vals be) (e (embed_val be)).

(** The table holds what the event wrote: nothing is asked of an event that
    no mapping takes or whose text has no embedding. *)
Definition holds_row (m : table) (ev : ChangeEvent) : Prop :=
  ∀ be, prepare mappings ev = Some be → e (embed_val be) ≠ [] →
  ∃ row, m !! key_of (tm be) (id_val be) = Some row ∧ kept (row_for be) row.

(** Events that write the same row write the same thing. *)
Definition one_row_per_key (Ev : ChangeEvent → Prop) : Prop :=
  ∀ ev1 ev2 be1 be2, Ev ev1 → Ev ev2 →
    prepare mappings ev1 = Some be1 → prepare mappings ev2 = Some be2 →
    key_of (tm be1) (id_val be1) = key_of (tm be2) (id_val be2) → row_for be1 = row_for be2.

Context (Ev : ChangeEvent → Prop) (Hins : ∀ ev, Ev ev → op ev = OpInsert) (Hone : one_row_per_key Ev).

Lemma step_insert (m : table) ev :
  Ev ev →
  step m ev = match prepare mappings ev with
              | Some be => if decide (e (embed_val be) = []) then m
                           else partial_alter (λ o, Some (from_option (merge (row_for be)) (row_for be) o))
                                  (key_of (tm be) (id_val be)) m
              | None => m
              end.
Proof.
  intros He. unfold table_step. destruct (prepare _ ev) as [be|] eqn:Ep; [|done].
  rewrite (insert_prepares _ _ _ (Hins _ He) Ep). unfold row_for.
  destruct (e (embed_val be)); by case_decide.
Qed.

(** An insert leaves its own row behind and keeps the others'. *)
Lemma step_holds (m : table) ev ev' :
  Ev ev → Ev ev' → (ev' = ev ∨ holds_row m ev') → holds_row (step m ev) ev'.
Proof.
  intros He He' Hor be' Hp' Hne'. rewrite step_insert by done.
  destruct (prepare mappings ev) as [be|] eqn:Hp.
  2:{ destruct Hor as [->|Hh]; [by rewrite Hp in Hp'|by apply Hh]. }
  case_decide as Hv.
  { destruct Hor as [->|Hh]; [by simplify_eq|by apply Hh]. }
  destruct (decide (key_of (tm be) (id_val be) = key_of (tm be') (id_val be'))) as [Ek|Hk].
  - rewrite <- Ek, lookup_partial_alter_eq. eexists. split; [done|].
    rewrite <- (Hone ev ev' be be' He He' Hp Hp' Ek). destruct (m !! _); simpl; auto.
  - rewrite lookup_partial_alter_ne by done. destruct Hor as [->|Hh]; [by simplify_eq|by apply Hh].
Qed.

Lemma steps_hold (evs : list ChangeEvent) (m : table) ev' :
  Forall Ev evs → Ev ev' → (ev' ∈ evs ∨ holds_row m ev') → holds_row (foldl step m evs) ev'.
Proof.
  intros Hevs He'. revert m. induction Hevs as [|ev evs He Hevs IH]; intros m Hor; simpl.
  - by destruct Hor as [?%elem_of_nil|?].
  - apply IH. destruct Hor as [[->|?]%elem_of_cons|Hh]; [right|by left|right]; apply step_holds; auto.
Qed.
End table.

(** ** One sink, its provider and its store *)

Section take.
Context {P Srv Net F : Type} `{EmbeddingProvider P} `{Curl Net} `{JsonText} `{LibUuid} `{Files F}.
Context (conn : SinkRef → Libpq Srv) (trunc_float : Z → Z).
Context (I : P → Prop) (e : string → vec) `{!ProviderOk I e}.
Abbreviation world := (SinkWorld P Srv Net F).

(** The object [o] writes to the part [part] of the world, by [ops]. *)
Context {D K R : Type} `{Countable K} (o : SinkObject) (part : world → D) (set_part : D → world → world).
Context (Hget : ∀ d w, part (set_part d w) = d).
Context (Hset : ∀ d w, objects (set_part d w) = objects w ∧ shared_provider (set_part d w) = shared_provider w).
Context (ops : SinkOps D) (mappings : list TableMapping) (J : D → Prop) (view : D → gmap K R).
Context (key_of : TableMapping → string → K).
Context (row_of : TableMapping → string → string → list string → vec → R) (merge : R → R → R).
Context (removed : TableMapping → string → K * R → bool) (truncated : TableMapping → K * R → bool).
Context (kept : R → R → Prop) (Hrefl : ∀ r, kept r r) (Hmerge : ∀ r old, kept r (merge r old)).
Context (Hcall : ∀ es w, objects w = [o] →
  object_call_batch conn trunc_float 0 es w = with_shared part set_part (sink_call_batch ops mappings es) w).

Definition sink_ready (w : world) : Prop :=
  objects w = [o] ∧ (∃ p, shared_provider w = Some p ∧ I p) ∧ J (part w).

(** Whatever keeps a table discharges what the worker asks of its sinks. *)
Lemma store_sink_takes (cs : list SinkConfiguration) (Ev : ChangeEvent → Prop) :
  StoreOk ops mappings J view key_of row_of merge removed truncated →
  (∀ ev, Ev ev → op ev = OpInsert) → one_row_per_key mappings e key_of row_of Ev →
  sinks_take (H1 := sink_objects conn trunc_float cs) [0] sink_ready Ev
    (λ _ ev w, Ev ev → holds_row mappings e key_of row_of kept (view (part w)) ev).
Proof.
  intros Hok Hins Hone k es w ->%list_elem_of_singleton Hes (Ho & (p & Hp & HI) & HJ).
  cbn [call_batch sink_objects]. rewrite (Hcall es w Ho). unfold with_shared. rewrite Hp.
  destruct (call_batch_store mappings e key_of row_of merge removed truncated I
    ops J view es p (part w) HI HJ) as (p' & d' & -> & HI' & HJ' & Hv).
  destruct (Hset d' (set_provider p' w)) as [E1 E2].
  eexists. split; [done|]. split_and!.
  - split_and!; [by rewrite E1|rewrite E2; by exists p'|by rewrite Hget].
  - intros ev Hin He. rewrite Hget, Hv. eapply steps_hold; eauto.
  - intros _ ev He Hh _. rewrite Hget, Hv. eapply steps_hold; eauto.
Qed.
End take.

(** The store opens without an error. *)
Lemma worker_run_opens `{JsonText} `{RowOrder} {W} `{EventSink W} (fuel : nat) (path : string) (limit : Z)
    (ks : list SinkRef) (s : Store) (w : W) :
  faults s = [] → worker_run fuel path limit ks (s, w) = Backfill.drain_loop fuel limit ks (s, w).
Proof.
  intros Hf. assert (store_open path s = (Ret tt, s)) as Ho
    by (unfold store_open, statement, mbind, prog_bind; by rewrite !Hf).
  unfold worker_run. rewrite (prog_bind_ret _ _ (s, w) None (s, w)); [reflexivity|].
  unfold try_catch, on_fst, mbind, prog_bind. cbn [fst snd]. by rewrite Ho.
Qed.

(** The rows that wait in a store, as events. *)
Definition staged `{JsonText} (s : Store) (ev : ChangeEvent) : Prop :=
  ∃ k r, pending s !! k = Some r ∧ event_of k (row_data r) = Some ev.

Lemma staged_inserts `{JsonText} (s : Store) ev : staged s ev → op ev = OpInsert.
Proof. by intros (k & r & _ & ?%rehydrated_insert). Qed.

(** The worker with sinks that take the staged rows. *)
Lemma backfill_reaches_all {P Srv Net F} `{EmbeddingProvider P} `{Curl Net} `{JsonText} `{LibUuid}
    `{Files F} `{RowOrder} (conn : SinkRef → Libpq Srv) (trunc_float : Z → Z) (has_curl : bool)
    (to_float : Z → Z) (parse_file : string → outcome toml_table)
    (make_provider : EmbeddingConfig → outcome P) (cfg : AppConfig) (ks : list SinkConfiguration)
    (Good : SinkWorld P Srv Net F → Prop) (Got : SinkRef → SinkWorld P Srv Net F → ChangeEvent → Prop)
    (config_path store_path : string) (limit : Z) (s : Store) (w w1 : SinkWorld P Srv Net F) :
  sinks_take (H1 := sink_objects conn trunc_float ks) (seq 0 (length ks)) Good (staged s)
    (λ i ev w, staged s ev → Got i w ev) →
  load_config to_float parse_file config_path = Ret cfg → sinks cfg = ks →
  init_sinks conn trunc_float has_curl make_provider cfg w = (Ret tt, w1) → Good w1 →
  (1 ≤ limit < 2 ^ 63)%Z → keys_ok s → rehydrates s → faults s = [] →
  ∃ s' w', backfill_worker_run conn trunc_float has_curl to_float parse_file make_provider
             (S (size (pending s))) config_path store_path limit (s, w) = (Ret (inr tt), (s', w')) ∧
    pending s' = ∅ ∧ ∀ ev i, staged s ev → i < length ks → Got i w' ev.
Proof.
  intros Htake Hload Hsinks Hinit Hready Hl Hko Hre Hf.
  destruct (drain_loop_ok (seq 0 (length ks)) _ (staged s) _ Htake (S (size (pending s))) limit s w1)
    as (s' & w' & Hrun & Hpe & _ & _ & Hgot & _); [done..| |done|done|lia|].
  { intros i r ev Hi Hev. by exists i, r. }
  exists s', w'. split_and!; [|done|].
  - unfold backfill_worker_run. rewrite Hload.
    rewrite (prog_bind_ret _ _ (s, w) None (s, w1)).
    + rewrite Hsinks. by rewrite worker_run_opens.
    + unfold try_catch, on_snd, mbind, prog_bind. cbn [fst snd]. by rewrite Hinit.
  - intros ev j (i & r & Hi & Hev) Hj. apply (Hgot i r ev j); [done|done|apply elem_of_seq; lia|]. by exists i, r.
Qed.

(** One sink. *)
Lemma backfill_reaches {P Srv Net F} `{EmbeddingProvider P} `{Curl Net} `{JsonText} `{LibUuid}
    `{Files F} `{RowOrder} (conn : SinkRef → Libpq Srv) (trunc_float : Z → Z) (has_curl : bool)
    (to_float : Z → Z) (parse_file : string → outcome toml_table)
    (make_provider : EmbeddingConfig → outcome P) (cfg : AppConfig) (k : SinkConfiguration)
    (Good : SinkWorld P Srv Net F → Prop) (Got : SinkWorld P Srv Net F → ChangeEvent → Prop)
    (config_path store_path : string) (limit : Z) (s : Store) (w w1 : SinkWorld P Srv Net F) :
  sinks_take (H1 := sink_objects conn trunc_float [k]) [0] Good (staged s) (λ _ ev w, staged s ev → Got w ev) →
  load_config to_float parse_file config_path = Ret cfg → sinks cfg = [k] →
  init_sinks conn trunc_float has_curl make_provider cfg w = (Ret tt, w1) → Good w1 →
  (1 ≤ limit < 2 ^ 63)%Z → keys_ok s → rehydrates s → faults s = [] →
  ∃ s' w', backfill_worker_run conn trunc_float has_curl to_float parse_file make_provider
             (S (size (pending s))) config_path store_path limit (s, w) = (Ret (inr tt), (s', w')) ∧
    pending s' = ∅ ∧ ∀ ev, staged s ev → Got w' ev.
Proof.
  intros Htake Hload Hsinks Hinit Hready Hl Hko Hre Hf.
  destruct (backfill_reaches_all conn trunc_float has_curl to_float parse_file make_provider cfg [k] Good
    (λ _, Got) config_path store_path limit s w w1) as (s' & w' & ? & ? & Hgot); [done..|].
  exists s', w'. split_and!; [done|done|]. intros ev Hev. apply (Hgot ev 0); [done|simpl; lia].
Qed.

(** ** A PostgreSQL sink *)

(** Its object, its provider and its table in order. *)
Definition pg_ready {P Srv Net F} (I : P → Prop) (c : PgSinkConfiguration) (J : Srv → Prop) :
    SinkWorld P Srv Net F → Prop :=
  sink_ready I (PgObject (prepare_statements (pg_sink_config c))) db J.

(** What was written survives next to whatever other columns the row has. *)
Definition pg_holds_row (c : PgEmbeddingSinkConfig) (e : string → vec) :
    gmap (string * option string) pgrow → ChangeEvent → Prop :=
  holds_row (PgSink.mappings c) e pg_key (pg_row c) (⊆).

(** The backfill reaches the table: a worker whose configuration has one
    PostgreSQL sink that can be built runs to the end on an error-free store
    and reports success; nothing is pending afterwards, and for every row that
    was, the sink's table holds a row under the source row's id (and the
    mapping's discriminator) with exactly the columns, the text and the
    embedding of that row, whatever other columns it may have had before. *)
Theorem backfill_reaches_table {P Srv Net F} `{EmbeddingProvider P} `{Curl Net} `{JsonText} `{LibUuid}
    `{Files F} `{RowOrder} (conn : SinkRef → Libpq Srv) (trunc_float : Z → Z) (has_curl : bool)
    (to_float : Z → Z) (parse_file : string → outcome toml_table)
    (make_provider : EmbeddingConfig → outcome P) (I : P → Prop) (e : string → vec) `{!ProviderOk I e}
    (cfg : AppConfig) (c : PgSinkConfiguration) (J : Srv → Prop)
    (view : Srv → gmap (string * option string) pgrow)
    (config_path store_path : string) (limit : Z) (s : Store) (w w1 : SinkWorld P Srv Net F) :
  PgTable (H := conn 0) (pg_sink_config c) J view →
  NoDup (source_table <$> pg_table_mappings c) →
  (∀ t, t ∈ pg_table_mappings c → NoDup (sink_cols (builder_of (pg_sink_config c)) t)) →
  load_config to_float parse_file config_path = Ret cfg → sinks cfg = [PgSink c] →
  init_sinks conn trunc_float has_curl make_provider cfg w = (Ret tt, w1) → pg_ready I c J w1 →
  (1 ≤ limit < 2 ^ 63)%Z → keys_ok s → rehydrates s → faults s = [] →
  one_row_per_key (pg_table_mappings c) e pg_key (pg_row (pg_sink_config c)) (staged s) →
  ∃ s' w', backfill_worker_run conn trunc_float has_curl to_float parse_file make_provider
             (S (size (pending s))) config_path store_path limit (s, w) = (Ret (inr tt), (s', w')) ∧
    pending s' = ∅ ∧ ∀ ev, staged s ev → pg_holds_row (pg_sink_config c) e (view (db w')) ev.
Proof.
  intros Htable Htables Hcols Hload Hsinks Hinit Hready Hl Hko Hre Hf Hone.
  eapply backfill_reaches; [|done|exact Hsinks|exact Hinit|exact Hready|done..].
  pose proof (pg_store_ok (H := conn 0) (pg_sink_config c) J view Htables Hcols) as Hok.
  eapply (store_sink_takes conn trunc_float I e _ db set_db); eauto using staged_inserts.
  - intros r old. apply map_union_subseteq_l.
  - intros es w0 Ho. unfold object_call_batch. by rewrite Ho.
Qed.

(** ** One staged row, through to the table *)

Module DemoRun.
Definition column (n r : string) : toml :=
  TTable [("source_column", TString n); ("sink_column", TString (n +:+ "_s")); ("role", TString r)].
Definition document : toml_table :=
  [("sink", TArray [TTable
     [("type", TString "pgvector"); ("host", TString "h"); ("dbname", TString "x"); ("user", TString "u");
      ("table", TString "emb"); ("embed_column", TString "vec");
      ("table_mapping", TArray [TTable
         [("source_table", TString "docs");
          ("columns", TArray [column "id" "id"; column "body" "embed"; column "lang" "metadata"]);
          ("discriminator_column", TString "kind"); ("discriminator_label", TString "docs")]])]])].
Definition parse_file (_ : string) : outcome toml_table := Ret document.
Definition config : AppConfig :=
  {| settings := default_settings; sources := []; sinks := [PgSink DemoSinks.pg];
     embedding := load_embedding id [] (i32 (batch_size default_settings)) |}.
Definition text : JsonText :=
  {| dump := λ _, Ret "{}";
     parse_json := λ _, Ret (JObject [("id", JString "1"); ("body", JString "one"); ("lang", JNull)]) |}.
Definition ready : SinkWorld nat DemoServer.table unit (gmap string string) :=
  set_objects [PgObject (prepare_statements (pg_sink_config DemoSinks.pg))]
    (set_provider 0 DemoSinks.start).
End DemoRun.
#[local] Existing Instances DemoRun.text DemoMilvus.uuid DemoSinks.net DemoJson.files.

Lemma backfill_reaches_table_witness :
  ∃ s' (w' : SinkWorld nat DemoServer.table unit (gmap string string)),
    backfill_worker_run (λ _, DemoSinks.server) id true id DemoRun.parse_file (λ _, Ret 0) 2
      "c.toml" "s.db" 200 (one_row, DemoSinks.start) = (Ret (inr tt), (s', w')) ∧
    pending s' = ∅ ∧
    ∀ ev, staged one_row ev → pg_holds_row (pg_sink_config DemoSinks.pg) length_vec (db w') ev.
Proof.
  apply (backfill_reaches_table (λ _, DemoSinks.server) id true id DemoRun.parse_file (λ _, Ret 0)
    (λ _ : nat, True) length_vec DemoRun.config DemoSinks.pg (λ _, True) id "c.toml" "s.db" 200 one_row
    DemoSinks.start DemoRun.ready).
  - exact DemoSinks.table.
  - exact DemoServer.distinct_tables.
  - exact DemoServer.distinct_columns.
  - vm_compute. reflexivity.
  - reflexivity.
  - vm_compute. reflexivity.
  - split_and!; [reflexivity|by exists 0|done].
  - lia.
  - apply map_Forall_singleton. reflexivity.
  - intros k r. vm_compute. reflexivity.
  - reflexivity.
  - intros ev1 ev2 be1 be2 (k1 & r1 & Hk1 & E1) (k2 & r2 & Hk2 & E2) P1 P2 _.
    apply map_lookup_filter_Some in Hk1 as [Hk1 _], Hk2 as [Hk2 _]. cbn [one_row backfill_rows] in Hk1, Hk2.
    apply lookup_singleton_Some in Hk1 as [<- <-], Hk2 as [<- <-]. congruence.
Defined.
