(* ===== verification/BackfillToVectors.v ===== *)
(** * From the backfill store to a Qdrant or a Milvus collection

    The worker program with one of the two HTTP sinks, end to end, as the file
    about the PostgreSQL table has it for the third. *)

From S2P Require Import Prelude Event Config Dispatcher EmbeddingProvider SinkBatch Libpq Http QdrantSink MilvusSink JsonSink Sinks BackfillStore Backfill JsonCodec QdrantTable MilvusTable Entry BackfillToTable.
From Stdlib Require Import Lia.

(** The backfill reaches a Qdrant collection: a worker whose configuration
    has one Qdrant sink that can be built (all of its mappings with a
    discriminator) runs to the end on an error-free store and reports success;
    nothing is pending afterwards, and for every row that was, the collection
    has the point of that row, with exactly its payload and its vector. *)
Theorem backfill_reaches_qdrant {P Srv Net F} `{EmbeddingProvider P} `{Curl Net} `{JsonText} `{LibUuid}
    `{Files F} `{RowOrder} (conn : SinkRef → Libpq Srv) (trunc_float : Z → Z)
    (to_float : Z → Z) (parse_file : string → outcome toml_table)
    (make_provider : EmbeddingConfig → outcome P) (I : P → Prop) (e : string → vec) `{!ProviderOk I e}
    (cfg : AppConfig) (c : QdrantSinkConfiguration) (J : Net → Prop) (view : Net → gmap string (json * vec))
    (config_path store_path : string) (limit : Z) (s : Store) (w w1 : SinkWorld P Srv Net F) :
  QdrantCollection (qdrant_sink_config c) (qdrant_http true) J view → (∀ j, is_ret (dump j) = true) →
  (∀ t, t ∈ qd_table_mappings c → has_discriminator_ t = true) →
  load_config to_float parse_file config_path = Ret cfg → sinks cfg = [Config.QdrantSink c] →
  init_sinks conn trunc_float true make_provider cfg w = (Ret tt, w1) →
  sink_ready I (QdrantObject (qdrant_sink_config c) (qdrant_http true)) web J w1 →
  (1 ≤ limit < 2 ^ 63)%Z → keys_ok s → rehydrates s → faults s = [] →
  one_row_per_key (qd_table_mappings c) e point_id_for qdrant_row (staged s) →
  ∃ s' w', backfill_worker_run conn trunc_float true to_float parse_file make_provider
             (S (size (pending s))) config_path store_path limit (s, w) = (Ret (inr tt), (s', w')) ∧
    pending s' = ∅ ∧
    ∀ ev, staged s ev → holds_row (qd_table_mappings c) e point_id_for qdrant_row eq (view (web w')) ev.
Proof.
  intros Hcoll Hdump Hd Hload Hsinks Hinit Hready Hl Hko Hre Hf Hone.
  eapply backfill_reaches; [|done|exact Hsinks|exact Hinit|exact Hready|done..].
  pose proof (qdrant_store_ok (qdrant_sink_config c) (qdrant_http true) J view eq_refl Hdump _ Hd) as Hok.
  eapply (store_sink_takes conn trunc_float I e _ web set_web); eauto using staged_inserts.
  intros es w0 Ho. unfold object_call_batch. by rewrite Ho.
Qed.

(** The backfill reaches a Milvus collection, in the same way: for every
    row that was pending, the entity under the key derived from it is exactly
    the one of that row, whether the primary key is a string or an integer. *)
Theorem backfill_reaches_milvus {P Srv Net F} `{EmbeddingProvider P} `{Curl Net} `{JsonText} `{LibUuid}
    `{Files F} `{RowOrder} (conn : SinkRef → Libpq Srv) (trunc_float : Z → Z)
    (to_float : Z → Z) (parse_file : string → outcome toml_table)
    (make_provider : EmbeddingConfig → outcome P) (I : P → Prop) (e : string → vec) `{!ProviderOk I e}
    (cfg : AppConfig) (c : MilvusSinkConfiguration) (f : MilvusFields)
    (J : Net → Prop) (view : Net → gmap (string + Z) json)
    (config_path store_path : string) (limit : Z) (s : Store) (w w1 : SinkWorld P Srv Net F) :
  MilvusCollection trunc_float (milvus_sink_config c) f (qdrant_http true) J view →
  (∀ j, is_ret (dump j) = true) → pk_field_ f ≠ vector_field_ f → (∀ k, plain (uuid5_for k) = true) →
  (∀ t, t ∈ mv_table_mappings c → fits f t) →
  load_config to_float parse_file config_path = Ret cfg → sinks cfg = [Config.MilvusSink c] →
  init_sinks conn trunc_float true make_provider cfg w = (Ret tt, w1) →
  sink_ready I (MilvusObject (milvus_sink_config c) f (qdrant_http true)) web J w1 →
  (1 ≤ limit < 2 ^ 63)%Z → keys_ok s → rehydrates s → faults s = [] →
  one_row_per_key (mv_table_mappings c) e (milvus_key f) (milvus_row f) (staged s) →
  ∃ s' w', backfill_worker_run conn trunc_float true to_float parse_file make_provider
             (S (size (pending s))) config_path store_path limit (s, w) = (Ret (inr tt), (s', w')) ∧
    pending s' = ∅ ∧
    ∀ ev, staged s ev → holds_row (mv_table_mappings c) e (milvus_key f) (milvus_row f) eq (view (web w')) ev.
Proof.
  intros Hcoll Hdump Hpk Huuid Hfit Hload Hsinks Hinit Hready Hl Hko Hre Hf Hone.
  eapply backfill_reaches; [|done|exact Hsinks|exact Hinit|exact Hready|done..].
  pose proof (milvus_store_ok trunc_float (milvus_sink_config c) f (qdrant_http true) J view
                eq_refl Hdump Hpk Huuid Hfit) as Hok.
  eapply (store_sink_takes conn trunc_float I e _ web set_web); eauto using staged_inserts.
  intros es w0 Ho. unfold object_call_batch. by rewrite Ho.
Qed.

(** ** One staged row, through to the collections *)

Module DemoVectors.
Definition document (type url : string) : toml_table :=
  [("sink", TArray [TTable
     [("type", TString type); ("url", TString url); ("collection", TString "c");
      ("table_mapping", TArray [TTable
         [("source_table", TString "docs");
          ("columns", TArray [DemoRun.column "id" "id"; DemoRun.column "body" "embed"; DemoRun.column "lang" "metadata"]);
          ("discriminator_column", TString "kind"); ("discriminator_label", TString "docs")]])]])].
Definition parse_file (type url : string) (_ : string) : outcome toml_table := Ret (document type url).
Definition qdrant : QdrantSinkConfiguration :=
  {| qd_url := "http://q"; qd_api_key := ""; qd_collection := "c"; qd_table_mappings := [Sample.mapping];
     qd_required_override := None |}.
Definition milvus : MilvusSinkConfiguration :=
  {| Config.mv_url := "http://m"; Config.mv_token := ""; Config.mv_db_name := ""; Config.mv_collection := "c";
     mv_table_mappings := [Sample.mapping]; mv_required_override := None |}.
Definition config (k : SinkConfiguration) : AppConfig :=
  {| settings := default_settings; sources := []; sinks := [k];
     embedding := load_embedding id [] (i32 (batch_size default_settings)) |}.

(** A store with one row, in the text form of [codec]. *)
Definition row_text : string :=
  match @dump codec (JObject [("id", JString "1"); ("body", JString "one"); ("lang", JNull)]) with
  | Ret t => t
  | _ => ""
  end.
Definition store : Store :=
  {| backfill_rows := {[("docs", "1") := pending_row row_text]}; backfill_tables := ∅; faults := [] |}.
Definition start {N} (n : N) : SinkWorld nat unit N (gmap string string) :=
  {| shared_provider := None; db := tt; web := n; outs := {| fsys := ∅; cout := "" |}; objects := [] |}.
Definition ready {N} (n : N) (o : SinkObject) : SinkWorld nat unit N (gmap string string) :=
  set_objects [o] (set_provider 0 (start n)).
Definition no_server : Libpq unit :=
  {| pq_connect := λ _ s, (None, s); pq_exec := λ _ s, (CommandOk, s); pq_exec_params := λ _ _ s, (CommandOk, s) |}.

Lemma one_row_per_key_single {K R} (ms : list TableMapping) (e : string → vec) (key_of : TableMapping → string → K)
    (row_of : TableMapping → string → string → list string → vec → R) :
  one_row_per_key ms e key_of row_of (staged (H := codec) store).
Proof.
  intros ev1 ev2 be1 be2 (k1 & r1 & Hk1 & E1) (k2 & r2 & Hk2 & E2) P1 P2 _.
  apply map_lookup_filter_Some in Hk1 as [Hk1 _], Hk2 as [Hk2 _]. cbn [store backfill_rows] in Hk1, Hk2.
  apply lookup_singleton_Some in Hk1 as [<- <-], Hk2 as [<- <-]. congruence.
Qed.
End DemoVectors.
#[local] Existing Instances DemoMilvus.uuid DemoJson.files.

Lemma backfill_reaches_qdrant_witness :
  ∃ s' (w' : SinkWorld nat unit DemoQdrant.points (gmap string string)),
    backfill_worker_run (H0 := DemoQdrant.server) (H1 := codec) (λ _, DemoVectors.no_server) id true id
      (DemoVectors.parse_file "qdrant" "http://q") (λ _, Ret 0) 2 "c.toml" "s.db" 200
      (DemoVectors.store, DemoVectors.start ∅) = (Ret (inr tt), (s', w')) ∧
    pending s' = ∅ ∧
    ∀ ev, staged (H := codec) DemoVectors.store ev →
      holds_row [Sample.mapping] length_vec point_id_for qdrant_row eq (web w') ev.
Proof.
  apply (backfill_reaches_qdrant (H0 := DemoQdrant.server) (H1 := codec) (λ _, DemoVectors.no_server) id id
    (DemoVectors.parse_file "qdrant" "http://q") (λ _, Ret 0) (λ _ : nat, True) length_vec
    (DemoVectors.config (Config.QdrantSink DemoVectors.qdrant)) DemoVectors.qdrant (λ _, True) id "c.toml" "s.db" 200
    DemoVectors.store (DemoVectors.start ∅)
    (DemoVectors.ready ∅ (QdrantObject (qdrant_sink_config DemoVectors.qdrant) (qdrant_http true)))).
  - exact DemoQdrant.collection_ok.
  - done.
  - by intros t ->%list_elem_of_singleton.
  - vm_compute. reflexivity.
  - reflexivity.
  - vm_compute. reflexivity.
  - split_and!; [reflexivity|by exists 0|done].
  - lia.
  - apply map_Forall_singleton. reflexivity.
  - intros k r [Hk _]%map_lookup_filter_Some. cbn [DemoVectors.store backfill_rows] in Hk.
    apply lookup_singleton_Some in Hk as [<- <-]. vm_compute. reflexivity.
  - reflexivity.
  - apply DemoVectors.one_row_per_key_single.
Defined.

Lemma backfill_reaches_milvus_witness :
  ∃ s' (w' : SinkWorld nat unit DemoEntities.entities (gmap string string)),
    backfill_worker_run (H0 := DemoEntities.server) (H1 := codec) (λ _, DemoVectors.no_server) id true id
      (DemoVectors.parse_file "milvus" "http://m") (λ _, Ret 0) 2 "c.toml" "s.db" 200
      (DemoVectors.store, DemoVectors.start ∅) = (Ret (inr tt), (s', w')) ∧
    pending s' = ∅ ∧
    ∀ ev, staged (H := codec) DemoVectors.store ev →
      holds_row [Sample.mapping] length_vec (milvus_key DemoMilvus.fields) (milvus_row DemoMilvus.fields) eq (web w') ev.
Proof.
  apply (backfill_reaches_milvus (H0 := DemoEntities.server) (H1 := codec) (λ _, DemoVectors.no_server) id id
    (DemoVectors.parse_file "milvus" "http://m") (λ _, Ret 0) (λ _ : nat, True) length_vec
    (DemoVectors.config (Config.MilvusSink DemoVectors.milvus)) DemoVectors.milvus DemoMilvus.fields
    DemoEntities.keyed id "c.toml" "s.db" 200 DemoVectors.store (DemoVectors.start ∅)
    (DemoVectors.ready ∅ (MilvusObject (milvus_sink_config DemoVectors.milvus) DemoMilvus.fields (qdrant_http true)))).
  - exact DemoEntities.collection_ok.
  - done.
  - discriminate.
  - reflexivity.
  - intros t ->%list_elem_of_singleton. split; [|reflexivity].
    intros k [-> | ->]; vm_compute; (repeat split); try discriminate; set_solver.
  - vm_compute. reflexivity.
  - reflexivity.
  - vm_compute. reflexivity.
  - split_and!; [reflexivity|by exists 0|]. by intros k entity Hk.
  - lia.
  - apply map_Forall_singleton. reflexivity.
  - intros k r [Hk _]%map_lookup_filter_Some. cbn [DemoVectors.store backfill_rows] in Hk.
    apply lookup_singleton_Some in Hk as [<- <-]. vm_compute. reflexivity.
  - reflexivity.
  - apply DemoVectors.one_row_per_key_single.
Defined.
