(* ===== verification/BackfillToSinks.v ===== *)
(** * From the backfill store to every sink

    The worker program with any number of sinks of any kind, each with a store
    of its own: PostgreSQL tables behind their connections, Qdrant and Milvus
    collections behind one network, files.  What a sink's server promises holds
    with what the other sinks have stored as part of its invariant; that is all
    that keeps the sinks apart. *)

From S2P Require Import Prelude Event Config Dispatcher EmbeddingProvider SinkBatch Libpq SqlBuilder PgSink Http QdrantSink MilvusSink JsonSink Sinks BackfillStore Backfill JsonCodec QdrantTable MilvusTable Entry BackfillToTable BackfillToVectors.
From Stdlib Require Import Lia.

(** ** The stores *)

Section stores.
Context {P Srv Net F : Type} `{EmbeddingProvider P} `{Curl Net} `{JsonText} `{LibUuid} `{Files F}.
Context (conn : SinkRef → Libpq Srv) (trunc_float : Z → Z).
Context (I : P → Prop) (e : string → vec) `{!ProviderOk I e}.
Context (Jf : F → Prop) (contents : F → string → string).
Abbreviation world := (SinkWorld P Srv Net F).

(** A configured sink, the states in which its server works for it, and what
    the server has stored. *)
Inductive StoreSpec :=
| PgStore (c : PgSinkConfiguration) (J : Srv → Prop) (view : Srv → gmap (string * option string) pgrow)
| QdrantStore (c : QdrantSinkConfiguration) (J : Net → Prop) (view : Net → gmap string (json * vec))
| MilvusStore (c : MilvusSinkConfiguration) (f : MilvusFields) (J : Net → Prop) (view : Net → gmap (string + Z) json)
| JsonStore (c : JsonSinkConfiguration).
Implicit Types spec : StoreSpec.

Definition config_of spec : SinkConfiguration :=
  match spec with
  | PgStore c _ _ => PgSink c
  | QdrantStore c _ _ => Config.QdrantSink c
  | MilvusStore c _ _ _ => Config.MilvusSink c
  | JsonStore c => Config.JsonSink c
  end.

(** The server of sink [i] works as documented, and does not touch [Q] (of the
    databases) and [Qn] (of the network) in doing so. *)
Definition answers (i : SinkRef) spec (Q : Srv → Prop) (Qn : Net → Prop) : Prop :=
  match spec with
  | PgStore c J view => PgTable (H := conn i) (pg_sink_config c) (λ d, J d ∧ Q d) view
  | QdrantStore c J view => QdrantCollection (qdrant_sink_config c) (qdrant_http true) (λ n, J n ∧ Qn n) view
  | MilvusStore c f J view =>
      MilvusCollection trunc_float (milvus_sink_config c) f (qdrant_http true) (λ n, J n ∧ Qn n) view
  | JsonStore _ => FilesOk Jf contents
  end.

(** What a sink has stored, as a fact about its server. *)
Inductive stored : StoreSpec → (Srv → Prop) → (Net → Prop) → Prop :=
| stored_pg c J view V : stored (PgStore c J view) (λ d, J d ∧ view d = V) (λ _, True)
| stored_qdrant c J view V : stored (QdrantStore c J view) (λ _, True) (λ n, J n ∧ view n = V)
| stored_milvus c f J view V : stored (MilvusStore c f J view) (λ _, True) (λ n, J n ∧ view n = V).

(** Two JSON sinks have different targets. *)
Definition other_target spec spec' : Prop :=
  match spec, spec' with
  | JsonStore c, JsonStore c' => c_str (output_target c) ≠ c_str (output_target c')
  | _, _ => True
  end.

(** What the sink's class asks of its mappings and of the events. *)
Definition suits spec (Ev : ChangeEvent → Prop) : Prop :=
  match spec with
  | PgStore c _ _ =>
      NoDup (source_table <$> pg_table_mappings c) ∧
      (∀ t, t ∈ pg_table_mappings c → NoDup (sink_cols (builder_of (pg_sink_config c)) t)) ∧
      one_row_per_key (pg_table_mappings c) e pg_key (pg_row (pg_sink_config c)) Ev
  | QdrantStore c _ _ =>
      (∀ j, is_ret (dump j) = true) ∧
      (∀ t, t ∈ qd_table_mappings c → has_discriminator_ t = true) ∧
      one_row_per_key (qd_table_mappings c) e point_id_for qdrant_row Ev
  | MilvusStore c f _ _ =>
      (∀ j, is_ret (dump j) = true) ∧ pk_field_ f ≠ vector_field_ f ∧ (∀ k, plain (uuid5_for k) = true) ∧
      (∀ t, t ∈ mv_table_mappings c → fits f t) ∧
      one_row_per_key (mv_table_mappings c) e (milvus_key f) (milvus_row f) Ev
  | JsonStore c =>
      output_target c ≠ "discard" ∧
      ∀ ev, Ev ev → is_ret (line_of ev) = true
  end.

(** Sink [i] is built and its server works. *)
Definition ready (i : SinkRef) spec (w : world) : Prop :=
  match spec with
  | PgStore c J _ => objects w !! i = Some (PgObject (prepare_statements (pg_sink_config c))) ∧ J (db w)
  | QdrantStore c J _ => objects w !! i = Some (QdrantObject (qdrant_sink_config c) (qdrant_http true)) ∧ J (web w)
  | MilvusStore c f J _ => objects w !! i = Some (MilvusObject (milvus_sink_config c) f (qdrant_http true)) ∧ J (web w)
  | JsonStore c => ∃ j, objects w !! i = Some (JsonObject j) ∧ target_ j = output_target c ∧
      os_bad (file_ j) = false ∧ Jf (fsys (outs w))
  end.

(** The store of sink [i] has the event: as a row, as a point, as an entity,
    or as a line of the text that its target gets. *)
Definition holds (i : SinkRef) spec (w : world) (ev : ChangeEvent) : Prop :=
  match spec with
  | PgStore c _ view => pg_holds_row (pg_sink_config c) e (view (db w)) ev
  | QdrantStore c _ view => holds_row (qd_table_mappings c) e point_id_for qdrant_row eq (view (web w)) ev
  | MilvusStore c f _ view => holds_row (mv_table_mappings c) e (milvus_key f) (milvus_row f) eq (view (web w)) ev
  | JsonStore _ => ∀ l, line_of ev = Ret l → ∃ j a b,
      objects w !! i = Some (JsonObject j) ∧ text_of contents (j, outs w) = a +:+ l +:+ b
  end.

Definition provider_ready (w : world) : Prop := ∃ p, shared_provider w = Some p ∧ I p.

(** ** Leaving a sink alone *)

Definition untouched (i : SinkRef) spec (w w' : world) : Prop :=
  objects w' !! i = objects w !! i ∧
  match spec with
  | PgStore _ J view => J (db w) → J (db w') ∧ view (db w') = view (db w)
  | QdrantStore _ J view => J (web w) → J (web w') ∧ view (web w') = view (web w)
  | MilvusStore _ _ J view => J (web w) → J (web w') ∧ view (web w') = view (web w)
  | JsonStore c => (Jf (fsys (outs w)) → Jf (fsys (outs w'))) ∧
      (output_target c = "stdout" → cout (outs w') = cout (outs w)) ∧
      contents (fsys (outs w')) (c_str (output_target c)) = contents (fsys (outs w)) (c_str (output_target c))
  end.

Lemma untouched_ready i spec w w' : untouched i spec w w' → ready i spec w → ready i spec w'.
Proof.
  unfold untouched, ready. destruct spec as [c J view|c J view|c f J view|c]; intros [-> Hu]; [naive_solver..|].
  intros (j & Ho & Ht & Hb & Hj). destruct Hu as (Hj' & _). exists j. by auto.
Qed.

Lemma untouched_holds i spec w w' ev :
  ready i spec w → untouched i spec w w' → holds i spec w ev → holds i spec w' ev.
Proof.
  unfold untouched, ready, holds. destruct spec as [c J view|c J view|c f J view|c].
  1-3: by intros [_ HJ] [_ [_ ->]%(λ f, f HJ)].
  intros (j & Ho & Ht & _) [Ho' (_ & Hc & Hf)] Hh l Hl. destruct (Hh l Hl) as (j' & a & b & Ej & Et).
  rewrite Ho in Ej. injection Ej as <-. exists j, a, b. rewrite Ho'. split; [done|]. rewrite <- Et.
  unfold text_of. cbn [fst snd]. rewrite Ht, Hf. case_bool_decide; [by apply Hc|done].
Qed.

(** ** One call *)

(** A call on a store, for any invariant for which the store keeps its laws. *)
Lemma store_call {D K R} `{Countable K} (i : SinkRef) (part : world → D) (set_part : D → world → world)
    (ops : SinkOps D) (mappings : list TableMapping) (J : D → Prop) (view : D → gmap K R)
    (key_of : TableMapping → string → K) (row_of : TableMapping → string → string → list string → vec → R)
    (merge : R → R → R) (removed : TableMapping → string → K * R → bool) (truncated : TableMapping → K * R → bool)
    (es : list ChangeEvent) (w : world) :
  StoreOk ops mappings J view key_of row_of merge removed truncated →
  object_call_batch conn trunc_float i es w = with_shared part set_part (sink_call_batch ops mappings es) w →
  provider_ready w → J (part w) →
  ∃ p' d', object_call_batch conn trunc_float i es w = (Ret tt, set_part d' (set_provider p' w)) ∧ I p' ∧ J d' ∧
    view d' = foldl (table_step mappings e key_of row_of merge removed truncated) (view (part w)) es.
Proof.
  intros Hok Hcall (p & Hp & HI) HJ.
  destruct (call_batch_store mappings e key_of row_of merge removed truncated I ops J view es p (part w) HI HJ)
    as (p' & d' & E & HI' & HJ' & Hv).
  exists p', d'. rewrite Hcall. unfold with_shared. rewrite Hp, E. done.
Qed.

(** What one call of sink [i] does: it succeeds, its own store gains the
    events and loses none, the others are untouched. *)
Definition call_works (specs : list StoreSpec) (Ev : ChangeEvent → Prop) (i : SinkRef) spec
    (es : list ChangeEvent) (w : world) : Prop :=
  ∃ w', object_call_batch conn trunc_float i es w = (Ret tt, w') ∧ (provider_ready w → provider_ready w') ∧ ready i spec w' ∧
    (∀ ev, Ev ev → ev ∈ es ∨ holds i spec w ev → holds i spec w' ev) ∧
    (∀ j spec', specs !! j = Some spec' → j ≠ i → ready j spec' w → untouched j spec' w w').

(** A call on a store that keeps its laws next to every fact of [Fact]. *)
Lemma store_works {D K R} `{Countable K} (Ev : ChangeEvent → Prop) (i : SinkRef) (part : world → D)
    (set_part : D → world → world) (ops : SinkOps D) (mappings : list TableMapping) (J : D → Prop)
    (view : D → gmap K R) (key_of : TableMapping → string → K)
    (row_of : TableMapping → string → string → list string → vec → R) (merge : R → R → R)
    (removed : TableMapping → string → K * R → bool) (truncated : TableMapping → K * R → bool)
    (kept : R → R → Prop) (Fact : (D → Prop) → Prop) (es : list ChangeEvent) (w : world) :
  (∀ Q, Fact Q → StoreOk ops mappings (λ d, J d ∧ Q d) view key_of row_of merge removed truncated) →
  Fact (λ _, True) → (∀ d w, part (set_part d w) = d) → (∀ r, kept r r) → (∀ r old, kept r (merge r old)) →
  object_call_batch conn trunc_float i es w = with_shared part set_part (sink_call_batch ops mappings es) w →
  (∀ ev, Ev ev → op ev = OpInsert) → one_row_per_key mappings e key_of row_of Ev →
  Forall Ev es → provider_ready w → J (part w) →
  ∃ p' d', object_call_batch conn trunc_float i es w = (Ret tt, set_part d' (set_provider p' w)) ∧ I p' ∧ J d' ∧
    (∀ ev, Ev ev → ev ∈ es ∨ holds_row mappings e key_of row_of kept (view (part w)) ev →
           holds_row mappings e key_of row_of kept (view d') ev) ∧
    (∀ Q, Fact Q → Q (part w) → Q d').
Proof.
  intros Hok HT Hget Hrefl Hmerge Hcall Hins Hone Hes Hp HJ.
  destruct (store_call i part set_part ops mappings _ view key_of row_of merge removed truncated es w
    (Hok _ HT) Hcall Hp) as (p' & d' & E & HI & [HJ' _] & Hv); [done|].
  exists p', d'. split_and!; [done..| |].
  - intros ev Hev Hor. rewrite Hv. eapply steps_hold; eauto.
  - intros Q HQ Hq. destruct (store_call i part set_part ops mappings _ view key_of row_of merge removed truncated es w
      (Hok _ HQ) Hcall Hp) as (p2 & d2 & E2 & _ & [_ Hq'] & Hv2); [done|].
    rewrite E in E2. injection E2 as E2. apply (f_equal part) in E2. rewrite !Hget in E2. by rewrite E2.
Qed.

(** *** Each kind *)

Context (specs : list (StoreSpec)) (Ev : ChangeEvent → Prop) (Hins : ∀ ev, Ev ev → op ev = OpInsert).

(** The server of [i] works, next to what any other sink has stored. *)
Definition apart (i : SinkRef) (spec : StoreSpec) : Prop :=
  answers i spec (λ _, True) (λ _, True) ∧
  ∀ j spec', specs !! j = Some spec' → j ≠ i →
    other_target spec spec' ∧ ∀ Q Qn, stored spec' Q Qn → answers i spec Q Qn.

(** The facts of the databases and of the network next to which it works. *)
Definition db_fact (i : SinkRef) (Q : Srv → Prop) : Prop :=
  Q = (λ _, True) ∨ ∃ j c J view V, specs !! j = Some (PgStore c J view) ∧ j ≠ i ∧ Q = (λ d, J d ∧ view d = V).
Definition web_fact (i : SinkRef) (Q : Net → Prop) : Prop :=
  Q = (λ _, True) ∨
  (∃ j c J view V, specs !! j = Some (QdrantStore c J view) ∧ j ≠ i ∧ Q = (λ n, J n ∧ view n = V)) ∨
  (∃ j c f J view V, specs !! j = Some (MilvusStore c f J view) ∧ j ≠ i ∧ Q = (λ n, J n ∧ view n = V)).

Lemma apart_db i spec Q : apart i spec → db_fact i Q → ∃ Qn, answers i spec Q Qn.
Proof.
  intros [Ht Ha] [->|(j & c & J & view & V & Hj & Hne & ->)]; [by eexists|].
  destruct (Ha j _ Hj Hne) as [_ Hs]. eexists. apply Hs. constructor.
Qed.

Lemma apart_web i spec Qn : apart i spec → web_fact i Qn → ∃ Q, answers i spec Q Qn.
Proof.
  intros [Ht Ha] [->|[(j & c & J & view & V & Hj & Hne & ->)|(j & c & f & J & view & V & Hj & Hne & ->)]];
    [by eexists|..]; destruct (Ha j _ Hj Hne) as [_ Hs]; eexists; apply Hs; constructor.
Qed.

(** A call that changes the databases only, or the network only. *)
Lemma untouched_db i d' p' w :
  (∀ Q, db_fact i Q → Q (db w) → Q d') →
  ∀ j spec', specs !! j = Some spec' → j ≠ i → untouched j spec' w (set_db d' (set_provider p' w)).
Proof.
  intros HQ j spec' Hj Hne. split; [done|]. destruct spec' as [c J view|c J view|c f J view|c]; try done.
  intros HJ. by apply (HQ (λ d, J d ∧ view d = view (db w))); [right; eauto 10|].
Qed.

Lemma untouched_web i n' p' w :
  (∀ Q, web_fact i Q → Q (web w) → Q n') →
  ∀ j spec', specs !! j = Some spec' → j ≠ i → untouched j spec' w (set_web n' (set_provider p' w)).
Proof.
  intros HQ j spec' Hj Hne. split; [done|]. destruct spec' as [c J view|c J view|c f J view|c]; try done.
  - intros HJ. by apply (HQ (λ n, J n ∧ view n = view (web w))); [right; left; eauto 10|].
  - intros HJ. by apply (HQ (λ n, J n ∧ view n = view (web w))); [right; right; eauto 12|].
Qed.

Lemma pg_works i c J view es w :
  let spec := PgStore c J view in
  apart i spec → suits spec Ev → Forall Ev es → provider_ready w → ready i spec w →
  call_works specs Ev i spec es w.
Proof.
  intros spec Hap (Htab & Hcol & Hone) Hes Hp [Ho HJ].
  destruct (store_works Ev i db set_db (let _ := conn i in pg_ops (prepare_statements (pg_sink_config c)))
    (PgSink.mappings (pg_sink_config c)) J view pg_key (pg_row (pg_sink_config c)) union pg_removed pg_truncated
    (⊆) (db_fact i) es w) as (p' & d' & E & HI & HJ' & Hh & HQ); try done.
  - intros Q HQ. destruct (apart_db i spec Q Hap HQ) as [Qn Ha]. by apply pg_store_ok.
  - by left.
  - intros r old. apply map_union_subseteq_l.
  - unfold object_call_batch. by rewrite Ho.
  - exists (set_db d' (set_provider p' w)). split_and!; [done|by intros _; exists p'|done|done|].
    intros j spec' Hj Hne _. by apply (untouched_db i).
Qed.

Lemma qdrant_works i c J view es w :
  let spec := QdrantStore c J view in
  apart i spec → suits spec Ev → Forall Ev es → provider_ready w → ready i spec w →
  call_works specs Ev i spec es w.
Proof.
  intros spec Hap (Hdump & Hd & Hone) Hes Hp [Ho HJ].
  destruct (store_works Ev i web set_web (qdrant_ops (qdrant_sink_config c) (qdrant_http true))
    (qd_table_mappings c) J view point_id_for qdrant_row replaces qdrant_removed qdrant_truncated
    eq (web_fact i) es w) as (p' & n' & E & HI & HJ' & Hh & HQ); try done.
  - intros Q HQ. destruct (apart_web i spec Q Hap HQ) as [Qn Ha]. by apply qdrant_store_ok.
  - by left.
  - unfold object_call_batch. by rewrite Ho.
  - exists (set_web n' (set_provider p' w)). split_and!; [done|by intros _; exists p'|done|done|].
    intros j spec' Hj Hne _. by apply (untouched_web i).
Qed.

Lemma milvus_works i c f J view es w :
  let spec := MilvusStore c f J view in
  apart i spec → suits spec Ev → Forall Ev es → provider_ready w → ready i spec w →
  call_works specs Ev i spec es w.
Proof.
  intros spec Hap (Hdump & Hpk & Huuid & Hfit & Hone) Hes Hp [Ho HJ].
  destruct (store_works Ev i web set_web (milvus_ops trunc_float (milvus_sink_config c) f (qdrant_http true))
    (mv_table_mappings c) J view (milvus_key f) (milvus_row f) overwrites (milvus_removed f) milvus_truncated
    eq (web_fact i) es w) as (p' & n' & E & HI & HJ' & Hh & HQ); try done.
  - intros Q HQ. destruct (apart_web i spec Q Hap HQ) as [Qn Ha]. by apply milvus_store_ok.
  - by left.
  - unfold object_call_batch. by rewrite Ho.
  - exists (set_web n' (set_provider p' w)). split_and!; [done|by intros _; exists p'|done|done|].
    intros j spec' Hj Hne _. by apply (untouched_web i).
Qed.
(** A JSON sink *)

Lemma batch_text_all es :
  Forall (λ ev, is_ret (line_of ev) = true) es →
  (batch_text es).2 = Ret tt ∧
  ∀ ev l, ev ∈ es → line_of ev = Ret l → ∃ a b, (batch_text es).1 = a +:+ l +:+ b.
Proof.
  induction 1 as [|ev es Hev Hes [IH1 IH2]]; [by split; [|intros ? ? ?%elem_of_nil]|]. simpl.
  destruct (line_of ev) as [l0| | |] eqn:El; try done. destruct (batch_text es) as [t r]. simpl in *.
  split; [done|]. intros ev' l [->|Hin]%elem_of_cons Hl.
  - exists "", t. by rewrite El in Hl; simplify_eq.
  - destruct (IH2 ev' l Hin Hl) as (a & b & ->). exists (l0 +:+ a), b. by rewrite str_app_assoc.
Qed.

Lemma json_works i c es w :
  let spec := JsonStore c in
  apart i spec → suits spec Ev → Forall Ev es → ready i spec w →
  call_works specs Ev i spec es w.
Proof.
  intros spec [Hf Hap] (Hnd & Hline) Hes (j & Ho & Ht & Hb & HJ). cbn in Hf.
  destruct (batch_text_all es) as [Hr Htext]; [by eapply Forall_impl; [exact Hes|exact Hline]|].
  destruct (json_batch_lines Jf contents es (j, outs w) HJ Hb) as ([j' o'] & E & Hw & _).
  pose proof Hw as (HJ' & Ht' & Hb' & Hx & Hc & Hoth). cbn [fst snd] in *.
  rewrite Ht in Hx, Hc, Hoth. rewrite (bool_decide_false _ Hnd) in Hx.
  exists (set_objects (<[i := JsonObject j']> (objects w)) (set_outs o' w)).
  assert (objects (set_objects (<[i:=JsonObject j']> (objects w)) (set_outs o' w)) !! i = Some (JsonObject j')) as Hi.
  { simpl. apply list_lookup_insert_eq. by eapply lookup_lt_Some. }
  split_and!; [|done| | |].
  - unfold object_call_batch. rewrite Ho, E. by rewrite Hr.
  - exists j'. by rewrite Ht', Hb', Hb.
  - intros ev Hev Hor l Hl. destruct Hor as [Hin|Hh].
    + destruct (Htext ev l Hin Hl) as (a & b & Et). exists j', (text_of contents (j, outs w) +:+ a), b.
      split; [done|]. rewrite str_app_assoc, <- Et. exact Hx.
    + destruct (Hh l Hl) as (j0 & a & b & Ej & Et). rewrite Ho in Ej. injection Ej as <-.
      exists j', a, (b +:+ (batch_text es).1). split; [done|].
      change (text_of contents (j', o') = a +:+ l +:+ b +:+ (batch_text es).1). by rewrite Hx, Et, !str_app_assoc.
  - intros k spec' Hk Hne _. split; [simpl; by rewrite list_lookup_insert_ne|].
    destruct (Hap k spec' Hk Hne) as [Hot _]. destruct spec' as [c' J view|c' J view|c' f J view|c']; try done.
    split_and!; [done| |].
    + intros Es. apply Hc. intros Es'. apply Hot. by rewrite Es, Es'.
    + apply Hoth. simpl in Hot. congruence.
Qed.

Lemma sink_works i spec es w :
  apart i spec → suits spec Ev → Forall Ev es →
  (needs_embedding_provider (config_of spec) = true → provider_ready w) → ready i spec w →
  call_works specs Ev i spec es w.
Proof.
  intros ? ? ? Hp ?.
  destruct spec; [apply pg_works|apply qdrant_works|apply milvus_works|apply json_works]; auto.
Qed.

(** ** All of them *)

Definition all_ready (w : world) : Prop :=
  (existsb needs_embedding_provider (config_of <$> specs) = true → provider_ready w) ∧
  ∀ i spec, specs !! i = Some spec → ready i spec w.

Definition got_all (i : SinkRef) (w : world) (ev : ChangeEvent) : Prop :=
  all_ready w ∧ ∀ spec, specs !! i = Some spec → holds i spec w ev.

Lemma specs_take (cs : list SinkConfiguration) :
  (∀ i spec, specs !! i = Some spec → apart i spec ∧ suits spec Ev) →
  sinks_take (H1 := sink_objects conn trunc_float cs) (seq 0 (length specs)) all_ready Ev
    (λ i ev w, Ev ev → got_all i w ev).
Proof.
  intros Hall i es w [_ Hi]%elem_of_seq Hes Hr. pose proof Hr as [Hp Hready].
  destruct (lookup_lt_is_Some_2 specs i) as [spec Hs]; [lia|]. destruct (Hall i spec Hs) as [Hap Hsu].
  destruct (sink_works i spec es w Hap Hsu Hes) as (w' & E & Hp' & Hr' & Hh & Hu); [|by auto|].
  { intros Hn. apply Hp, existsb_exists. exists (config_of spec). split; [|done].
    apply list_elem_of_In, list_elem_of_fmap. exists spec. split; [done|]. by eapply list_elem_of_lookup_2. }
  assert (all_ready w') as Ha.
  { split; [by auto|]. intros j spec' Hj. destruct (decide (j = i)) as [->|Hne]; [by simplify_eq|].
    eapply untouched_ready; eauto. }
  assert (∀ k ev, Ev ev → (k = i ∧ ev ∈ es) ∨ got_all k w ev → got_all k w' ev) as Hgot.
  { intros k ev Hev Hor. split; [done|]. intros spec' Hk. destruct (decide (k = i)) as [->|Hne].
    - simplify_eq. apply Hh; [done|]. destruct Hor as [[_ ?]|[_ Hg]]; auto.
    - destruct Hor as [[? _]|[_ Hg]]; [done|]. eapply (untouched_holds _ _ w); eauto. }
  exists w'. split_and!; [done|done| |].
  - intros ev Hin Hev. apply Hgot; [done|]. by left.
  - intros k ev Hev Hg _. apply Hgot; [done|]. right. by apply Hg.
Qed.
End stores.
Arguments StoreSpec _ _ : clear implicits.


(** ** One staged row, into two tables and a file *)

#[local] Existing Instances DemoMilvus.uuid DemoSinks.net DemoJson.files DemoJson.files_ok.

Module DemoEvery.
Abbreviation servers := (DemoServer.table * DemoServer.table)%type.

(** The connection of the first sink reaches the first server, the others the
    second. *)
Definition side (i : SinkRef) (d : servers) : DemoServer.table := if decide (i = 0) then d.1 else d.2.
Definition set_side (i : SinkRef) (t : DemoServer.table) (d : servers) : servers :=
  if decide (i = 0) then (t, d.2) else (d.1, t).
Definition on_side {A} (i : SinkRef) (f : DemoServer.table → A * DemoServer.table) (d : servers) : A * servers :=
  let '(a, t) := f (side i d) in (a, set_side i t d).
Definition conn (i : SinkRef) : Libpq servers :=
  {| pq_connect := λ c, on_side i (@pq_connect _ DemoSinks.server c);
     pq_exec := λ q, on_side i (@pq_exec _ DemoSinks.server q);
     pq_exec_params := λ q ps, on_side i (@pq_exec_params _ DemoSinks.server q ps) |}.

Lemma side_set i t d : side i (set_side i t d) = t.
Proof. unfold side, set_side. by case_decide. Qed.

Lemma table_side (i : SinkRef) (Q : servers → Prop) :
  (∀ t d, Q d → Q (set_side i t d)) →
  PgTable (H := conn i) (pg_sink_config DemoSinks.pg) (λ d, True ∧ Q d) (side i).
Proof.
  intros HQ. pose proof DemoSinks.table as T.
  split; intros t ps d Ht [_ Hq] Hl; cbn [pq_exec_params conn]; unfold on_side.
  - destruct (@exec_upsert _ _ _ _ _ T t ps (side i d) Ht Logic.I Hl) as (s' & -> & _ & Hv).
    eexists. split_and!; [done|done|by apply HQ|]. by rewrite side_set.
  - destruct (@exec_delete _ _ _ _ _ T t ps (side i d) Ht Logic.I Hl) as (s' & -> & _ & Hv).
    eexists. split_and!; [done|done|by apply HQ|]. by rewrite side_set.
  - destruct (@exec_truncate _ _ _ _ _ T t ps (side i d) Ht Logic.I Hl) as (s' & -> & _ & Hv).
    eexists. split_and!; [done|done|by apply HQ|]. by rewrite side_set.
Qed.

Definition json : JsonSinkConfiguration := {| output_target := "out"; js_required_override := None |}.
Definition specs : list (StoreSpec servers unit) :=
  [PgStore DemoSinks.pg (λ _, True) (side 0); JsonStore json; PgStore DemoSinks.pg (λ _, True) (side 2)].

(** The servers of the two tables do not disturb each other. *)
Lemma tables_apart i j :
  (i = 0 ∧ j = 2 ∨ i = 2 ∧ j = 0) → ∀ V,
  PgTable (H := conn i) (pg_sink_config DemoSinks.pg) (λ d, True ∧ True ∧ side j d = V) (side i).
Proof. intros [[-> ->]|[-> ->]] V; by apply table_side. Qed.

Lemma specs_apart i spec :
  specs !! i = Some spec →
  apart (H1 := codec) conn id (λ _, True) (λ (f : gmap string string) name, default "" (f !! name)) specs i spec.
Proof.
  intros Hi. split.
  - revert Hi. destruct i as [|[|[|i]]]; intros [= <-]; [by apply (table_side 0)|exact DemoJson.files_ok|by apply (table_side 2)].
  - intros j spec' Hj Hne.
    revert Hi Hj. destruct i as [|[|[|i]]]; intros [= <-]; destruct j as [|[|[|j]]]; intros [= <-]; try done;
      (split; [done|]); intros Q Qn Hs; inversion Hs; try exact DemoJson.files_ok; apply tables_apart; auto.
Qed.

Lemma specs_suit i spec : specs !! i = Some spec → suits (H1 := codec) length_vec spec (staged (H := codec) DemoVectors.store).
Proof.
  destruct i as [|[|[|i]]]; intros [= <-].
  2:{ split; [done|]. intros ev (k & r & [Hk _]%map_lookup_filter_Some & Hev).
      cbn [DemoVectors.store backfill_rows] in Hk. apply lookup_singleton_Some in Hk as [<- <-].
      vm_compute in Hev. injection Hev as <-. reflexivity. }
  all: split_and!; [exact DemoServer.distinct_tables|exact DemoServer.distinct_columns|].
  all: apply DemoVectors.one_row_per_key_single.
Qed.

Definition document : toml_table :=
  match DemoRun.document with
  | [(_, TArray [pg])] =>
      [("sink", TArray [pg; TTable [("type", TString "json-output"); ("output_target", TString "out")]; pg])]
  | d => d
  end.
Definition parse_file (_ : string) : outcome toml_table := Ret document.
Definition config : AppConfig :=
  {| settings := default_settings; sources := []; sinks := config_of <$> specs;
     embedding := load_embedding id [] (i32 (batch_size default_settings)) |}.
Definition start : SinkWorld nat servers unit (gmap string string) :=
  {| shared_provider := None; db := (∅, ∅); web := tt; outs := {| fsys := ∅; cout := "" |}; objects := [] |}.
Definition built : SinkWorld nat servers unit (gmap string string) :=
  {| shared_provider := Some 0; db := (∅, ∅); web := tt; outs := {| fsys := {["out" := ""]}; cout := "" |};
     objects := [PgObject (prepare_statements (pg_sink_config DemoSinks.pg)); JsonObject DemoJson.sink;
                 PgObject (prepare_statements (pg_sink_config DemoSinks.pg))] |}.
End DemoEvery.

