(* ===== verification/Progress.v ===== *)
(** * Systems that take labelled steps

    Several components are state machines whose steps are chosen by a
    scheduler: [step l s] is what the step [l] does, [None] when it is not
    possible.  This file has what they share: runs, and the liveness statement
    [inevitable], that a state is reached whatever the scheduler chooses. *)

From S2P Require Import Prelude.
From Stdlib Require Import Wellfounded Relation_Operators Lia.

Section progress.
Context {S L : Type} (step : L → S → option S).
Implicit Types (P Q I : S → Prop) (s : S).

Fixpoint run_labels (ls : list L) (s : S) : option S :=
  match ls with
  | [] => Some s
  | l :: ls => s ← step l s; run_labels ls s
  end.

(** An invariant that the steps keep holds along a run. *)
Lemma run_labels_inv I ls s s' :
  (∀ l s s', I s → step l s = Some s' → I s') → I s → run_labels ls s = Some s' → I s'.
Proof.
  intros Hstep. revert s. induction ls as [|l ls IH]; intros s Hs; simpl; [by intros [= <-]|].
  intros (s1 & H1 & H2)%bind_Some. eapply IH; [|done]. by eapply Hstep.
Qed.

Lemma run_labels_app ls1 ls2 s :
  run_labels (ls1 ++ ls2) s = run_labels ls1 s ≫= run_labels ls2.
Proof.
  revert s. induction ls1 as [|l ls1 IH]; intros s; simpl; [done|].
  destruct (step l s) as [s1|]; simpl; [apply IH|done].
Qed.

(** Whichever steps are taken, [P] comes to hold after finitely many, and
    until then there is always a step to take. *)
Inductive inevitable P s : Prop :=
| inevitable_now : P s → inevitable P s
| inevitable_step :
    (∃ l s', step l s = Some s') → (∀ l s', step l s = Some s' → inevitable P s') → inevitable P s.

Lemma inevitable_mono P Q s : (∀ s, P s → Q s) → inevitable P s → inevitable Q s.
Proof. intros HPQ. induction 1; [by left; auto|by right]. Qed.

(** In particular a run gets there. *)
Lemma inevitable_reached P s : inevitable P s → ∃ ls s', run_labels ls s = Some s' ∧ P s'.
Proof.
  induction 1 as [s Hs|s (l & s1 & H1) _ IH]; [by exists [], s|].
  destruct (IH _ _ H1) as (ls & s' & Hr & Hp). exists (l :: ls), s'. simpl. by rewrite H1.
Qed.

(** By an invariant and a measure that every step decreases. *)
Lemma inevitable_measure {M} (R : relation M) (m : S → M) I P s :
  well_founded R →
  (∀ s, I s → P s ∨ ((∃ l s', step l s = Some s') ∧
                     ∀ l s', step l s = Some s' → I s' ∧ R (m s') (m s))) →
  I s → inevitable P s.
Proof.
  intros Hwf Hstep. remember (m s) as x eqn:Ex. revert s Ex.
  induction (Hwf x) as [x _ IH]. intros s -> Hs. destruct (Hstep s Hs) as [?|[He Hd]]; [by left|].
  right; [done|]. intros l s' Hl. destruct (Hd _ _ Hl) as [Hi Hr]. by eapply IH.
Qed.
End progress.

(** Pairs of numbers, the first of which matters most. *)
Definition lex_lt : relation (nat * nat) := slexprod nat nat lt lt.

Lemma lex_lt_wf : well_founded lex_lt.
Proof. apply wf_slexprod; apply lt_wf. Qed.

Lemma lex_lt_alt a b a' b' : a < a' ∨ (a = a' ∧ b < b') → lex_lt (a, b) (a', b').
Proof. intros [?|[-> ?]]; [by apply left_slex|by apply right_slex]. Qed.
