(* ===== verification/Shutdown.v ===== *)
(** * [src/main.cpp]: how the running process comes to its end

    The event loop runs until a signal or the poll of the fatal flag breaks it;
    [main] then waits for the backfill workers, destroys the dispatcher (which
    joins its thread), has every source send its last status update, frees
    everything and returns.  The dispatcher's thread goes on working at the
    same time.  The steps of the process itself are those of the file about the
    whole process; here they are put together with what surrounds them. *)

From S2P Require Import Prelude Progress Event Config Dispatcher Libpq Http BackfillStore Backfill ReplicationSource BackfillManager Pipeline Sinks Entry.
From Stdlib Require Import Lia.

(** Where the main thread is: in [event_base_dispatch] (with the loop broken or
    not), or at one of the statements after it. *)
Inductive MainPhase :=
| InLoop (broken : bool)
| Waiting                      (* wait_for_all_workers, backfill_manager.reset() *)
| Stopping                     (* dispatcher.reset(): running_ = false *)
| Joining                      (* ... and the join *)
| Flushing (rest : list Z)     (* the sources still to flush *)
| Returned (code : Z).

Section shutdown.
Context {W : Type} `{EventSink W} {Srv : Type} `{CopyStream Srv} `{JsonText} {OS : Type} `{Processes OS}.
Context (cfg : AppConfig) (jitter : nat → Z) (fuel : nat).
Context (o : MainOptions) (wait_fuel : nat) (ids : list Z).

(** [terminate] is the flag that [SignalHandle] points to. *)
Record Running := {
  proc : Process W Srv;
  terminate : bool;
  manager : BackfillManager * OS;
  machine : Machine;
  phase : MainPhase;
}.

Definition set_proc (p : Process W Srv) (r : Running) : Running :=
  {| proc := p; terminate := terminate r; manager := manager r; machine := machine r; phase := phase r |}.
Definition set_phase (ph : MainPhase) (r : Running) : Running :=
  {| proc := proc r; terminate := terminate r; manager := manager r; machine := machine r; phase := ph |}.

(** [event_base_loopbreak]: the loop ends when the callback returns. *)
Definition loopbreak (r : Running) : Running := set_phase (InLoop true) r.

Definition on_shutdown_signal (r : Running) : Running := loopbreak r.

Definition on_terminate_poll (r : Running) : Running :=
  if terminate r then loopbreak r else r.

(** The callback of [set_on_fatal], when the dispatcher makes the call. *)
Definition on_fatal (p p' : Process W Srv) (terminate : bool) : bool :=
  terminate || (fatal_calls (disp_of (sys p)) <? fatal_calls (disp_of (sys p'))).

(** The worker waits for a job; the time-outs of the wait change nothing. *)
Definition worker_waits (st : @System W) : bool :=
  match pc st with
  | Looping => running_ st && bool_decide (queue_ st = [])
  | _ => false
  end.

(** The statements after [event_base_dispatch]; [None] while one waits. *)
Definition main_step (r : Running) : option Running :=
  match phase r with
  | InLoop false => None
  | InLoop true => Some (set_phase Waiting r)
  | Waiting =>
      match (wait_for_all_workers wait_fuel ;; destroy_manager wait_fuel) (manager r) with
      | (Ret _, m) => Some {| proc := proc r; terminate := terminate r; manager := m;
                              machine := machine r; phase := Stopping |}
      | _ => None
      end
  | Stopping => p ← process_step cfg jitter fuel OnStop (proc r); Some (set_phase Joining (set_proc p r))
  | Joining =>
      match pc (sys (proc r)) with
      | Exited => if all_applied (proc r) then Some (set_phase (Flushing ids) r) else None
      | _ => None
      end
  | Flushing (id :: rest) =>
      p ← process_step cfg jitter fuel (OnFlush id) (proc r); Some (set_phase (Flushing rest) (set_proc p r))
  | Flushing [] =>
      match destroy_sources true (omap (λ id, fst <$> source_by_id (proc r) !! id) ids) with
      | Ret _ =>
          let m := if mo_foreground o then machine r else (remove_pid_file (mo_pid_file o) (machine r)).2 in
          Some {| proc := proc r; terminate := terminate r; manager := manager r; machine := m;
                  phase := Returned 0 |}
      | _ => None
      end
  | Returned _ => None
  end.

Inductive run_label :=
| RConsume (id : Z) | RMessage (id : Z) | RTimer (id : Z) | RPost   (* callbacks of a source *)
| RReap                        (* on_reap_timer *)
| RSignal                      (* on_shutdown_signal *)
| RPoll                        (* on_terminate_poll *)
| RWorker                      (* a step of the worker thread *)
| RConfirm                     (* its next call of on_confirmed_ *)
| RMain.                       (* the next statement of main *)

(** A callback of a source, while the loop runs. *)
Definition source_callback (l : event_label) (r : Running) : option Running :=
  match phase r with
  | InLoop false => p ← process_step cfg jitter fuel l (proc r); Some (set_proc p r)
  | _ => None
  end.

(** Another callback, when none is under way. *)
Definition other_callback (f : Running → Running) (r : Running) : option Running :=
  match phase r with
  | InLoop false => if bool_decide (outbox (proc r) = []) then Some (f r) else None
  | _ => None
  end.

Definition run_step (l : run_label) (r : Running) : option Running :=
  match l with
  | RConsume id => source_callback (OnConsume id) r
  | RMessage id => source_callback (OnMessage id) r
  | RTimer id => source_callback (OnTimer id) r
  | RPost => source_callback OnPost r
  | RReap => other_callback (λ r, {| proc := proc r; terminate := terminate r;
                                     manager := (reap_finished_workers (manager r)).2;
                                     machine := machine r; phase := phase r |}) r
  | RSignal => other_callback on_shutdown_signal r
  | RPoll => other_callback on_terminate_poll r
  | RWorker =>
      if worker_waits (sys (proc r)) then None
      else p ← process_step cfg jitter fuel OnWork (proc r);
           Some {| proc := p; terminate := on_fatal (proc r) p (terminate r); manager := manager r;
                   machine := machine r; phase := phase r |}
  | RConfirm => p ← process_step cfg jitter fuel OnConfirm (proc r); Some (set_proc p r)
  | RMain => main_step r
  end.

(** The process when [event_base_dispatch] starts. *)
Definition launch (w : W) (t : Z) (ws : list (src * Srv)) (m : BackfillManager * OS) (mc : Machine) : Running :=
  {| proc := boot w t ws; terminate := false; manager := m; machine := mc; phase := InLoop false |}.
End shutdown.
Arguments Running _ _ _ : clear implicits.

(** ** The worker thread *)

Section worker.
Context {W : Type} `{EventSink W} (cfg : DispatcherConfig) (jitter : nat → Z) (SL : list SinkHandle).
Context (Hof : on_fatal_ cfg = true).
Implicit Types st : @System W.
#[local] Arguments dispatch : simpl never.

(** Unless it gave up, the worker leaves its loop only when it is told to, and
    the thread only with the queue empty. *)
Definition settled (st : @System W) : Prop :=
  fatal_calls (disp_of st) = 1 ∨
  match pc st with
  | Draining _ _ _ => running_ st = false
  | Exited => running_ st = false ∧ queue_ st = []
  | _ => True
  end.

Lemma dispatch_gave_up fuel b sinks d d' :
  fatal_triggered_ d = false → fatal_calls d = 0 →
  dispatch cfg jitter fuel b sinks d = (Ret false, d') → fatal_calls d' = 1 ∧ fatal_triggered_ d' = true.
Proof.
  intros Hf Hc (_ & _ & Hd)%dispatch_false. rewrite Hof, Hf, Hc in Hd. by destruct Hd.
Qed.

(** How far the worker is from its end. *)
Definition worker_rank (st : @System W) : nat :=
  4 * length (queue_ st) +
  match pc st with
  | Filling _ _ _ _ => 4
  | Dispatching _ _ _ => 3
  | Looping => 2
  | Draining _ _ _ => 1
  | Exited => 0
  end.

Lemma worker_step_settled fuel st st' :
  inv cfg SL st → settled st → worker_step cfg jitter fuel st = Some st' → settled st'.
Proof using Hof.
  intros Hi Hs Hw. unfold settled in *.
  destruct (decide (fatal_calls (disp_of st) = 1)) as [E|Hnf].
  { pose proof (inv_live _ _ _ Hi E) as Ep. unfold worker_step in Hw. by rewrite Ep in Hw. }
  destruct Hs as [|Hs]; [done|]. pose proof (inv_once _ _ _ Hi). pose proof (inv_fatal _ _ _ Hi) as Hft.
  rewrite bool_decide_false in Hft by done. assert (fatal_calls (disp_of st) = 0) as Hf0 by lia.
  unfold worker_step, poll, fill, dispatch_batch, drain, flush, exit_loop, set_pc, set_disp, settle in Hw.
  repeat (case_match; simplify_eq/=); try (by right); left;
    by eapply dispatch_gave_up in Hft; [apply Hft|..].
Qed.

Lemma worker_step_rank fuel st st' :
  worker_waits st = false → worker_step cfg jitter fuel st = Some st' → worker_rank st' < worker_rank st.
Proof.
  unfold worker_waits, worker_step, worker_rank, poll, fill, dispatch_batch, drain, flush, exit_loop,
    set_pc, set_disp, settle.
  intros Hw Hs. repeat (case_match; simplify_eq/=); lia.
Qed.

Lemma worker_step_running fuel st st' :
  worker_step cfg jitter fuel st = Some st' → running_ st' = running_ st.
Proof.
  unfold worker_step, poll, fill, dispatch_batch, drain, flush, set_pc, set_disp, settle.
  intros. repeat (case_match; simplify_eq/=; try done).
Qed.

(** The sinks return or throw, and the retries come to an end: [g] is the least
    the clock moves on between two readings, [k] the doublings of the backoff
    until it reaches the ceiling, [m] the turns without sleep. *)
Record retries_end (k m : nat) (g : Z) : Prop := {
  re_sinks : ∀ h, h ∈ SL → sink_defined (sink h);
  re_clock : (1 ≤ g)%Z ∧ (∀ n, g ≤ jitter n)%Z;
  re_turns : (ns_per_ms ≤ Z.of_nat m * g)%Z;
  re_backoff : (0 < required_retry_initial_backoff_ cfg)%Z;
  re_ceiling : (required_retry_ceiling_ cfg ≤ required_retry_initial_backoff_ cfg * (2 ^ Z.of_nat k - 1))%Z;
  re_width : (required_retry_initial_backoff_ cfg * 2 ^ Z.of_nat (k + S m) < 2 ^ 63)%Z;
}.

Context (k m : nat) (g : Z) (Hre : retries_end k m g).

Lemma dispatch_ends b sinks d :
  sinks ⊆ SL → ∃ ok d', dispatch cfg jitter (S (k + S m)) b sinks d = (Ret ok, d').
Proof using Hre.
  clear Hof. revert d. induction sinks as [|h sinks IH]; intros d Hsub; [by eexists _, _|].
  destruct (dispatch_with_retry_ends cfg jitter h b d k m g) as (ok & d' & E).
  1: apply (re_sinks _ _ _ Hre); set_solver.
  1-6: apply Hre.
  change (dispatch cfg jitter (S (k + S m)) b (h :: sinks) d) with
    ((ok ← dispatch_with_retry cfg jitter (S (k + S m)) h b;
      if (ok : bool) then dispatch cfg jitter (S (k + S m)) b sinks
      else trigger_fatal cfg ;; mret false) d).
  rewrite (prog_bind_ret _ _ _ _ _ E). destruct ok; [apply IH; set_solver|]. by eexists _, _.
Qed.

(** Until it has ended, the worker has a next step. *)
Lemma worker_step_enabled st :
  inv cfg SL st → Forall (job_ok SL) (posted st) → pc st ≠ Exited →
  ∃ st', worker_step cfg jitter (S (k + S m)) st = Some st'.
Proof using Hre.
  clear Hof. intros Hi Hall Hne. pose proof (inv_pc _ _ _ Hi) as Hp. unfold pc_ok in Hp.
  assert (∀ b lsns sinks again st0, (sinks = [] ∨ sinks = SL) →
    ∃ st', flush cfg jitter (S (k + S m)) b lsns sinks again Exited st0 = Some st') as Hflush.
  { intros b lsns sinks again st0 Hs. unfold flush. destruct b as [|e b]; [by eexists|].
    destruct (dispatch_ends (e :: b) sinks (disp_of st0)) as ([] & d' & ->); [|by eexists..].
    destruct Hs as [-> | ->]; set_solver. }
  unfold worker_step. destruct (pc st) as [|b lsns sinks dl|b lsns sinks|b lsns sinks|] eqn:Ep;
    [by eexists..| | |done].
  - destruct Hp as ((_ & _ & Hs) & Hin & _). unfold dispatch_batch.
    destruct (dispatch_ends b sinks (disp_of st)) as ([] & d' & ->); [|by eexists..].
    by rewrite (Hs Hin).
  - destruct Hp as (_ & Hs & _). unfold drain. destruct (queue_ st) as [|j q] eqn:Eq; [by apply Hflush|].
    destruct (_ <=? _)%Z; [|by eexists]. apply Hflush.
    destruct (posted_job_ok _ _ _ _ _ Hi Hall Eq) as [-> _]. by destruct sinks, Hs; auto.
Qed.
End worker.

(** ** The invariant of the process *)

Section process_more.
Context {W : Type} `{EventSink W} {Srv : Type} `{CopyStream Srv} `{JsonText}.
Context (cfg : AppConfig) (jitter : nat → Z) (fuel : nat) (ids : list Z).
Abbreviation process := (Process W Srv).
Implicit Types p : process.

(** The last position confirmed for the source [id] by the first [n] calls. *)
Definition last_confirmed (st : @System W) (n : nat) (id : Z) : option Z :=
  last (snd <$> filter (λ c, c.1 = id) (take n (confirm_calls (disp_of st)))).

(** The source reports the last confirmation, or where it started. *)
Definition up_to_date (p : process) (id : Z) (s : src) : Prop :=
  confirmed_lsn_ s = default (parse_lsn (start_lsn_ s)) (last_confirmed (sys p) (applied p) id).

Record process_inv' (p : process) : Prop := {
  px_inv : process_inv cfg p;
  px_latest : ∀ id w, source_by_id p !! id = Some w → up_to_date p id w.1;
  px_applied : applied p ≤ length (confirm_calls (disp_of (sys p)));
  px_settled : settled (sys p);
  px_ids : ∀ id, is_Some (source_by_id p !! id) ↔ id ∈ ids;
}.

Lemma px_jobs p : process_inv cfg p → Forall (job_ok (make_handles cfg)) (posted (sys p)).
Proof. intros Hp. pose proof (pi_jobs _ _ Hp) as Hj. by apply Forall_app in Hj as [? _]. Qed.

(** A callback changes one source, and neither what it has confirmed nor the
    dispatcher. *)
Lemma on_source_frame {A} id (m : prog (src * (Srv * list (list byte))) A) p p' :
  keeps moved m → on_source cfg id m p = Some p' →
  ∃ w w', source_by_id p !! id = Some w ∧ m w = ((m w).1, w') ∧ moved w w' ∧
    source_by_id p' = <[id := w']> (source_by_id p) ∧ sys p' = sys p ∧ applied p' = applied p ∧
    outbox p' = outbox p ++ (make_job (make_handles cfg) (id_of w.1) <$> drop (length (handled w.1)) (handled w'.1)).
Proof.
  intros Hm (w & Hw & Hr)%bind_Some. specialize (Hm w).
  destruct (m w) as [[a| | |] w'] eqn:Em; simplify_eq/=. exists w, w'. by rewrite Em.
Qed.

Lemma source_step_more {A} id (m : prog (src * (Srv * list (list byte))) A) p p' :
  keeps moved m → process_inv' p → on_source cfg id m p = Some p' → process_inv' p'.
Proof.
  intros Hm [Hi Hl Ha Hs Hd] Hp. pose proof (process_inv_source _ _ _ _ _ Hm Hi Hp) as Hi'.
  destruct (on_source_frame _ _ _ _ Hm Hp) as (w & w' & Hw & _ & (_ & Es & Ec & _) & Esrc & Esys & Eapp & _).
  constructor; rewrite ?Esys, ?Eapp; [done| |done..|].
  - intros id' w1. unfold up_to_date. rewrite Esrc, Esys, Eapp.
    intros [[<- <-]|[_ Hw1]]%lookup_insert_Some; [|by apply Hl].
    rewrite Ec, Es. by apply (Hl id).
  - intros id'. rewrite Esrc, lookup_insert_is_Some'. rewrite Hd. split; [|by right].
    intros [<-|?]; [|done]. apply Hd. by eexists.
Qed.

(** A step of the dispatcher that makes no confirmation. *)
Lemma sys_step_more p st :
  process_inv' p → process_inv cfg (with_sys st p) → settled st →
  confirm_calls (disp_of (sys p)) `prefix_of` confirm_calls (disp_of st) →
  process_inv' (with_sys st p).
Proof.
  intros [Hi Hl Ha Hs Hd] Hi' Hs' [l El]. constructor; [done| | |done|done]; cbn [with_sys sys applied source_by_id].
  - intros id w Hw. unfold up_to_date, last_confirmed. cbn [with_sys sys applied].
    rewrite El, take_app_le by done. by apply Hl.
  - rewrite El, length_app. lia.
Qed.

Lemma process_step_more l p p' :
  (l = OnPost → running_ (sys p) = true) →
  process_inv' p → process_step cfg jitter fuel l p = Some p' → process_inv' p'.
Proof.
  intros Hrun Hp Hst. pose proof (px_inv _ Hp) as Hi.
  pose proof (process_inv_step _ _ _ _ _ _ Hi Hst) as Hi'.
  destruct l; cbn [process_step] in Hst;
    try (case_bool_decide; [|done]; revert Hst; apply source_step_more; [|done]).
  - apply moved_consume.
  - apply moved_read.
  - apply moved_ping.
  - destruct (outbox p) as [|j js]; [done|]. injection Hst as <-. destruct Hp as [_ Hl Ha Hs Hd].
    constructor; try done. destruct Hs as [Hs|Hs]; [by left|]. specialize (Hrun eq_refl).
    unfold settled. simpl. destruct (pc (sys p)); try (by right).
    destruct Hs. congruence.
  - case_bool_decide; [|done]. injection Hst as <-. apply sys_step_more; [done..| |done].
    destruct (px_settled _ Hp) as [Hs|Hs]; [by left|right]. simpl. destruct (pc (sys p)); try done.
    by destruct Hs.
  - destruct (all_applied p); [|done]. apply bind_Some in Hst as (st & Hw & [= <-]).
    apply sys_step_more; [done|done| |].
    + eapply (worker_step_settled (make_dispatcher cfg) jitter (make_handles cfg)); [done|apply (pi_dispatcher _ _ Hi)|apply Hp|done].
    + eapply worker_step_confirms; [apply (pi_dispatcher _ _ Hi)|apply (pi_dispatcher _ _ Hi')|done].
  - apply bind_Some in Hst as ([id lsn] & Hc & [= <-]). destruct Hp as [_ Hl Ha Hs Hd].
    constructor; try done; cbn [on_confirm source_by_id applied sys].
    + intros id' w. unfold up_to_date, last_confirmed. cbn [on_confirm sys applied].
      rewrite (take_S_r _ _ _ Hc), filter_app, fmap_app.
      intros [(<- & w1 & Hw1 & ->)|[Hne Hw]]%lookup_alter_Some.
      * rewrite filter_cons_True, filter_nil by done. csimpl. by rewrite last_snoc.
      * rewrite filter_cons_False, filter_nil, app_nil_r by (simpl; congruence). by apply Hl.
    + apply lookup_lt_Some in Hc. lia.
    + intros id'. rewrite <- Hd. by rewrite lookup_alter_is_Some.
  - destruct (pc (sys p)); try done. destruct (_ && _); [|done]. revert Hst.
    apply source_step_more; [apply moved_flush|done].
Qed.
End process_more.

(** ** The invariant of the whole run *)

Section run_inv.
Context {W : Type} `{EventSink W} {Srv : Type} `{CopyStream Srv} `{JsonText} {OS : Type} `{ProcessesOk OS}.
Context (cfg : AppConfig) (jitter : nat → Z) (fuel : nat).
Context (o : MainOptions) (wait_fuel : nat) (ids : list Z).
Abbreviation running := (Running W Srv OS).
Abbreviation step := (run_step cfg jitter fuel o wait_fuel ids).
Implicit Types r : running.

(** No worker process is on record, and none is left. *)
Definition reaped (r : running) : Prop := workers_ (manager r).1 = [] ∧ children (manager r).2 = [].

(** The last status update of a connected source reports what it has
    confirmed. *)
Definition flushed (w : src * (Srv * list (list byte))) : Prop :=
  conn_ w.1 = true → ∃ t, last w.2.2 = Some (status_message (confirmed_lsn_ w.1) t).

Definition all_done (p : Process W Srv) : Prop := pc (sys p) = Exited ∧ all_applied p = true.

Definition pid_file_gone (r : running) : Prop :=
  mo_foreground o = false → mo_pid_file o ≠ "" →
  resolve (machine r) (mo_pid_file o) ∉ pid_files (machine r).

Definition phase_ok (r : running) : Prop :=
  let p := proc r in
  match phase r with
  | InLoop b => running_ (sys p) = true ∧ (b = true → outbox p = [])
  | Waiting => running_ (sys p) = true ∧ outbox p = []
  | Stopping => running_ (sys p) = true ∧ outbox p = [] ∧ reaped r
  | Joining => running_ (sys p) = false ∧ outbox p = [] ∧ reaped r
  | Flushing rest =>
      outbox p = [] ∧ reaped r ∧ all_done p ∧ rest `suffix_of` ids ∧
      ∀ id w, source_by_id p !! id = Some w → id ∉ rest → flushed w
  | Returned code =>
      code = 0%Z ∧ outbox p = [] ∧ reaped r ∧ all_done p ∧ pid_file_gone r ∧
      ∀ id w, source_by_id p !! id = Some w → flushed w
  end.

Record run_inv (r : running) : Prop := {
  ri_process : process_inv' cfg ids (proc r);
  ri_tracked : tracked (manager r);
  ri_terminate : terminate r = bool_decide (fatal_calls (disp_of (sys (proc r))) = 1);
  ri_phase : phase_ok r;
}.

(** A source's callback leaves the dispatcher alone. *)
Lemma source_label_frame l (p p' : Process W Srv) :
  match l with OnConsume _ | OnMessage _ | OnTimer _ | OnPost | OnFlush _ | OnConfirm | OnStop => True | _ => False end →
  process_step cfg jitter fuel l p = Some p' →
  fatal_calls (disp_of (sys p')) = fatal_calls (disp_of (sys p)) ∧
  running_ (sys p') = match l with OnStop => false | _ => running_ (sys p) end.
Proof.
  intros Hl Hst. destruct l; cbn [process_step] in Hst; try done;
    try (case_bool_decide; [|done]; apply on_source_frame in Hst as (w & w' & _ & _ & _ & _ & -> & _); done || auto).
  - apply moved_consume.
  - apply moved_read.
  - apply moved_ping.
  - destruct (outbox p); [done|]. by injection Hst as <-.
  - case_bool_decide; [|done]. by injection Hst as <-.
  - apply bind_Some in Hst as ([id lsn] & Hc & [= <-]). done.
  - destruct (pc (sys p)); try done. destruct (_ && _); [|done].
    apply on_source_frame in Hst as (w & w' & _ & _ & _ & _ & -> & _); [done|apply moved_flush].
Qed.

(** Steps of the worker thread leave the rest alone. *)
Lemma worker_label_frame l (p p' : Process W Srv) :
  match l with OnWork | OnConfirm => True | _ => False end →
  process_step cfg jitter fuel l p = Some p' →
  outbox p' = outbox p ∧ running_ (sys p') = running_ (sys p) ∧
  (pc (sys p) = Exited → all_applied p = true → False).
Proof.
  intros Hl Hst. destruct l; try done; cbn [process_step] in Hst.
  - destruct (all_applied p) eqn:Ea; [|done]. apply bind_Some in Hst as (st & Hw & [= <-]).
    split_and!; [done|by eapply worker_step_running|]. intros Ep. unfold worker_step in Hw. by rewrite Ep in Hw.
  - apply bind_Some in Hst as ([id lsn] & Hc & [= <-]). split_and!; [done..|].
    intros _ Ha%bool_decide_eq_true. apply lookup_lt_Some in Hc. lia.
Qed.
(** However the wait ends, it ends with every worker reaped. *)
Lemma wait_loop_reaps n (m m' : BackfillManager) (os os' : OS) :
  tracked (m, os) → wait_loop n (m, os) = (Ret tt, (m', os')) →
  workers_ m' = [] ∧ children os' = [] ∧ tracked (m', os').
Proof.
  revert m os. induction n as [|n IH]; intros m os Ht; cbn [wait_loop]; [done|].
  unfold tracked in *. cbn [fst snd] in *. destruct (workers_ m) as [|h ws] eqn:Ew.
  { intros [= <- <-]. rewrite Ew in *. simpl in *. apply Permutation_nil_l in Ht. by rewrite Ht. }
  rewrite <- Ew in *. pose proof (wait_ok os) as Hw. destruct (wait_any os) as [[|[]|p st] os1]; [done| | |].
  - destruct Hw as [Hc _]. apply IH. by rewrite Hc.
  - rewrite Hw, Ew in Ht. by apply Permutation_nil_r in Ht.
  - destruct Hw as [Hc _]. apply IH. cbn [set_workers workers_].
    apply (Permutation_cons_inv (a := p)). rewrite <- Hc, <- Ht. symmetry. apply erase_pid_perm.
    rewrite Ht, Hc. set_solver.
Qed.

Lemma wait_and_destroy n (w w' : BackfillManager * OS) :
  tracked w → (wait_for_all_workers n ;; destroy_manager n) w = (Ret tt, w') →
  workers_ w'.1 = [] ∧ children w'.2 = [] ∧ tracked w'.
Proof.
  destruct w as [m os], w' as [m' os']. intros Ht Hd. apply prog_bind_inv in Hd as ([] & [m1 os1] & H1' & H2').
  apply wait_loop_reaps in H1' as (_ & _ & Ht1); [|done]. unfold destroy_manager in H2'.
  by apply wait_loop_reaps in H2'.
Qed.

Lemma reap_keeps_tracked (w : BackfillManager * OS) : tracked w → tracked (reap_finished_workers w).2.
Proof.
  intros Ht. pose proof (reap_tracks (workers_ w.1) w.2 []) as Hr. rewrite !app_nil_r in Hr.
  unfold reap_finished_workers, remove_finished_workers. destruct (reap (workers_ w.1) w.2) as [kept os'].
  unfold tracked. simpl. symmetry. apply Hr. by symmetry.
Qed.

Lemma run_inv_callback l r r' :
  run_inv r → match l with OnConsume _ | OnMessage _ | OnTimer _ | OnPost => True | _ => False end →
  source_callback cfg jitter fuel l r = Some r' → run_inv r'.
Proof.
  intros [Hp Ht Hf Hph] Hl. unfold source_callback. destruct (phase r) as [[]| | | | |] eqn:Eph; try done.
  intros (p & Hst & [= <-])%bind_Some. unfold phase_ok in Hph. rewrite Eph in Hph. destruct Hph as [Hrun _].
  destruct (source_label_frame l _ _ ltac:(by destruct l) Hst) as [Ef Er].
  constructor; cbn [set_proc proc manager terminate]; [by eapply process_step_more|done|by rewrite Ef|].
  unfold phase_ok. cbn [set_proc phase proc]. rewrite Eph. split; [|done]. by destruct l; rewrite Er.
Qed.

Lemma run_inv_worker l r p t :
  run_inv r → match l with OnWork | OnConfirm => True | _ => False end →
  process_step cfg jitter fuel l (proc r) = Some p →
  t = bool_decide (fatal_calls (disp_of (sys p)) = 1) →
  run_inv {| proc := p; terminate := t; manager := manager r; machine := machine r; phase := phase r |}.
Proof.
  intros [Hp Ht Hf Hph] Hl Hst Et. destruct (worker_label_frame _ _ _ Hl Hst) as (Eo & Er & Hex).
  constructor; [by eapply (process_step_more cfg jitter fuel ids l); [destruct l|..]|done|done|].
  unfold phase_ok in *. cbn [phase proc]. rewrite Eo, Er.
  destruct (phase r); [done..|exfalso|exfalso]; unfold all_done in Hph; by destruct_and! Hph; apply Hex.
Qed.

Lemma worker_raises r p :
  run_inv r → process_step cfg jitter fuel OnWork (proc r) = Some p →
  on_fatal (proc r) p (terminate r) = bool_decide (fatal_calls (disp_of (sys p)) = 1).
Proof.
  intros Hr Hst. pose proof (px_inv _ _ _ (ri_process _ Hr)) as Hi.
  pose proof (process_inv_step _ _ _ _ _ _ Hi Hst) as Hi'. rewrite <- !(inv_fatal _ _ _ (pi_dispatcher _ _ Hi')).
  pose proof (pi_dispatcher _ _ Hi) as Hd. pose proof (pi_dispatcher _ _ Hi') as Hd'.
  cbn [process_step] in Hst. destruct (all_applied (proc r)); [|done].
  apply bind_Some in Hst as (st & Hw & [= <-]). cbn [with_sys sys] in *.
  assert (fatal_calls (disp_of (sys (proc r))) ≠ 1) as Hn1.
  { intros E%(inv_live _ _ _ Hd). unfold worker_step in Hw. by rewrite E in Hw. }
  unfold on_fatal. rewrite (ri_terminate _ Hr), bool_decide_false by done. cbn [orb with_sys sys].
  rewrite (inv_fatal _ _ _ Hd'). pose proof (inv_once _ _ _ Hd). pose proof (inv_once _ _ _ Hd').
  replace (fatal_calls (disp_of (sys (proc r)))) with 0 by lia.
  case_bool_decide as E; [by rewrite E|]. apply Nat.ltb_ge. lia.
Qed.
(** Sending the last status update of one source. *)
Lemma flush_one id p p' :
  process_step cfg jitter fuel (OnFlush id) p = Some p' →
  outbox p' = [] ∧ sys p' = sys p ∧ applied p' = applied p ∧
  ∃ w', source_by_id p' = <[id := w']> (source_by_id p) ∧ flushed w'.
Proof.
  cbn [process_step]. destruct (pc (sys p)); try done.
  destruct (bool_decide (outbox p = [])) eqn:Eo; [|done]. destruct (all_applied p); [|done].
  apply bool_decide_eq_true in Eo. intros Hst.
  destruct (on_source_frame _ _ _ _ _ moved_flush Hst) as (w & w' & Hw & Em & Hm & Es & Esys & Eapp & Eob).
  destruct w as [s [srv log]].
  assert (handled w'.1 = handled s ∧ flushed w') as [Eh Hfl].
  { revert Em. unfold flush_confirmed_lsn, ping_update, now, gets, on_snd, lib, mbind, prog_bind. cbn [fst snd].
    destruct (conn_ s) eqn:Ec; cbn [negb fst snd].
    2:{ intros [= <-]. split; [done|]. unfold flushed. cbn [fst]. by rewrite Ec. }
    cbn [unix_time logged_stream]. destruct (unix_time (srv, log).1) as [t srv1]. cbn [fst snd].
    cbn [pq_put_copy logged_stream]. destruct (pq_put_copy _ _) as [ok srv2]. intros [= <-].
    split; [done|]. intros _. exists t. cbn [fst snd]. by rewrite last_snoc. }
  split_and!; [|done..|by exists w'].
  rewrite Eob, Eo. cbn [fst]. by rewrite Eh, drop_all.
Qed.

Lemma run_inv_main r r' :
  run_inv r → main_step cfg jitter fuel o wait_fuel ids r = Some r' → run_inv r'.
Proof.
  intros Hr. destruct (Hr) as [Hp Ht Hf Hph]. unfold main_step, phase_ok in *.
  destruct (phase r) as [[]| | | |[|id rest]|code] eqn:Eph; cbv zeta in Hph.
  - intros [= <-]. destruct Hph as [? Ho]. constructor; [done..|]. split; [done|]. by apply Ho.
  - done.
  - match goal with |- context [match ?x with _ => _ end] => destruct x as [[[]| | |] m] eqn:Em end; [|done..].
    intros [= <-]. apply wait_and_destroy in Em as (? & ? & ?); [|done]. destruct Hph. by constructor.
  - intros (p & Hst & [= <-])%bind_Some. destruct (source_label_frame OnStop _ _ I Hst) as [Ef Er].
    destruct Hph as (_ & Eo & ?). constructor; [by eapply (process_step_more _ _ _ _ OnStop)|done|by simpl; rewrite Ef|].
    split_and!; [done| |done]. cbn [process_step] in Hst. rewrite bool_decide_true in Hst by done.
    by injection Hst as <-.
  - destruct (pc (sys (proc r))) eqn:Ep; try done. destruct (all_applied (proc r)) eqn:Ea; [|done].
    intros [= <-]. destruct Hph as (_ & ? & ?). constructor; [done..|]. split_and!; [done..|].
    intros id w Hw []. apply (px_ids _ _ _ Hp). by eexists.
  - destruct (destroy_sources _ _) as [[]| | |]; [|done..]. intros [= <-].
    destruct Hph as (? & ? & ? & _ & Hfl). constructor; [done..|]. cbn [phase_ok phase]. split_and!; [done..| |].
    + intros Hfg Hne. cbn [machine]. rewrite Hfg. rewrite remove_pid_file_removes by done.
      cbn [snd set_pid_files pid_files]. change (resolve (set_pid_files _ _) ?x) with (resolve (machine r) x).
      set_solver.
    + intros id w Hw. eapply Hfl; [done|set_solver].
  - intros (p & Hst & [= <-])%bind_Some. destruct (source_label_frame (OnFlush id) _ _ I Hst) as [Ef _].
    destruct (flush_one _ _ _ Hst) as (Eo & Es & Ea & w' & Esrc & Hw').
    destruct Hph as (_ & ? & [? ?] & Hsuf & Hfl). constructor; [by eapply (process_step_more _ _ _ _ (OnFlush id))|done|by simpl; rewrite Ef|].
    unfold phase_ok, all_done, all_applied. cbn [set_phase set_proc proc phase].
    rewrite Eo, Es, Ea. split_and!; [done..| |].
    + etrans; [|done]. by exists [id].
    + intros id' w. rewrite Esrc. intros [[<- <-]|[Hne Hw]]%lookup_insert_Some Hn; [done|].
      eapply Hfl; [done|set_solver].
  - done.
Qed.

Lemma other_callback_inv f r r' :
  other_callback f r = Some r' → phase r = InLoop false ∧ outbox (proc r) = [] ∧ r' = f r.
Proof.
  unfold other_callback. destruct (phase r) as [[]| | | | |]; try done. case_bool_decide; [|done].
  by intros [= <-].
Qed.

Lemma run_inv_break r : run_inv r → phase r = InLoop false → outbox (proc r) = [] → run_inv (loopbreak r).
Proof.
  intros [Hp Ht Hf Hph] Eph Eo. unfold phase_ok in Hph. rewrite Eph in Hph. destruct Hph. by constructor.
Qed.

Lemma run_inv_step l r r' : run_inv r → step l r = Some r' → run_inv r'.
Proof.
  intros Hr. destruct l; cbn [run_step].
  - by apply run_inv_callback.
  - by apply run_inv_callback.
  - by apply run_inv_callback.
  - by apply run_inv_callback.
  - intros (Eph & _ & ->)%other_callback_inv. destruct Hr as [Hp Ht Hf Hph].
    constructor; [done|by apply reap_keeps_tracked|done|]. unfold phase_ok in *. cbn [phase]. by rewrite Eph in *.
  - intros (Eph & Eo & ->)%other_callback_inv. by apply run_inv_break.
  - intros (Eph & Eo & ->)%other_callback_inv. unfold on_terminate_poll.
    destruct (terminate r); [by apply run_inv_break|done].
  - destruct (worker_waits _); [done|]. intros (p & Hst & [= <-])%bind_Some.
    eapply (run_inv_worker OnWork); [done|exact I|done|by apply worker_raises].
  - intros (p & Hst & [= <-])%bind_Some. destruct (source_label_frame OnConfirm _ _ I Hst) as [Ef _].
    eapply (run_inv_worker OnConfirm); [done|exact I|done|]. by rewrite Ef, (ri_terminate _ Hr).
  - by apply run_inv_main.
Qed.
End run_inv.

(** ** Starting *)

Section launch.
Context {W : Type} `{EventSink W} {Srv : Type} `{Libpq Srv} `{CopyStream Srv} `{JsonText} {OS : Type} `{ProcessesOk OS}.

Lemma start_source_tracks create_parent (w w' : (BackfillManager * OS) * (src * Srv)) b :
  tracked w.1 → start_source create_parent w = (Ret b, w') → tracked w'.1.
Proof.
  intros Ht Hs. unfold start_source in Hs.
  apply prog_bind_inv in Hs as ([] & w1 & E1%on_snd_fst & Hs); cbn [negb] in Hs;
    [|injection Hs as _ <-; by rewrite E1].
  apply prog_bind_inv in Hs as ([] & w2 & E2%on_snd_fst & Hs); cbn [negb] in Hs;
    [|injection Hs as _ <-; by rewrite E2, E1].
  apply prog_bind_inv in Hs as (st & w3 & Hsp & Hs). rewrite <- E1, <- E2 in Ht.
  destruct w2 as [[mg os] s2]. apply spawn_tracks in Hsp; [|done].
  apply prog_bind_inv in Hs as ([] & w4 & E4%on_snd_fst & Hs); cbn [negb] in Hs.
  - apply on_snd_fst in Hs. by rewrite Hs, E4.
  - injection Hs as _ <-. by rewrite E4.
Qed.

Lemma start_sources_tracks create_parent (ws ws' : list (src * Srv)) (m m' : BackfillManager * OS) b :
  tracked m → start_sources create_parent ws m = (Ret (b, ws'), m') → tracked m'.
Proof.
  revert ws' m. induction ws as [|w ws IH]; intros ws' m Ht; cbn [start_sources]; [by intros [= _ _ <-]|].
  destruct (start_source create_parent (m, w)) as [[[]| | |] [m1 w1]] eqn:E1; try done;
    apply start_source_tracks in E1; try done.
  - intros Hs. apply prog_bind_inv in Hs as ([ok ws1] & m2 & Hs & [= <- _ <-]). by eapply IH.
  - by intros [= _ _ <-].
Qed.

Lemma run_inv_launch cfg o (w : W) t (ws : list (src * Srv)) (m : BackfillManager * OS) mc ids :
  Forall (λ w, ready w.1) ws → tracked m → ids = id_of ∘ fst <$> ws →
  run_inv cfg o ids (launch w t ws m mc).
Proof.
  intros Hr Ht ->. constructor; [|done..|by split].
  constructor; cbn [launch proc boot sys applied source_by_id].
  - by apply (process_inv_boot cfg (λ _, 0%Z) 0).
  - intros id [s [srv log]] Hin%elem_of_list_to_map_2.
    apply list_elem_of_fmap in Hin as (w' & [= -> -> -> ->] & Hin).
    rewrite Forall_forall in Hr. by destruct (Hr _ Hin) as [_ Ec].
  - simpl. lia.
  - by right.
  - intros id. by rewrite <- (elem_of_dom (D := gset Z)), dom_list_to_map_L, elem_of_list_to_set, <- list_fmap_compose.
Qed.
End launch.

(** ** The end is inevitable *)

Section inevitable.
Context {W : Type} `{EventSink W} {Srv : Type} `{CopyStream Srv} `{JsonText} {OS : Type} `{ProcessesOk OS}.
Context (cfg : AppConfig) (jitter : nat → Z) (o : MainOptions) (wait_fuel : nat) (ids : list Z).
Abbreviation running := (Running W Srv OS).
Abbreviation step := (run_step cfg jitter 49 o wait_fuel ids).
Implicit Types r : running.

(** How [main] leaves the world: code 0 and nothing left running; unless the
    dispatcher gave up, every event handed over has gone through every required
    sink; the last status update of each connected source reports the last
    position the dispatcher confirmed for it, or where it started. *)
Record finished (r : running) : Prop := {
  fin_code : phase r = Returned 0;
  fin_joined : pc (sys (proc r)) = Exited;
  fin_reaped : reaped r;
  fin_pid_file : pid_file_gone o r;
  fin_events : ∀ id w, source_by_id (proc r) !! id = Some w →
    make_job (make_handles cfg) id <$> handled w.1 = jobs_of id (posted (sys (proc r)));
  fin_delivered : if terminate r then failed (sys (proc r)) ≠ []
                  else posted (sys (proc r)) = concat (delivered (sys (proc r)));
  fin_reported : ∀ id w, source_by_id (proc r) !! id = Some w → conn_ w.1 = true →
    ∃ t, last w.2.2 = Some (status_message (default (parse_lsn (start_lsn_ w.1))
      (last (snd <$> filter (λ c, c.1 = id) (confirm_calls (disp_of (sys (proc r))))))) t);
}.

Lemma run_inv_finished r : run_inv cfg o ids r → (∃ c, phase r = Returned c) → finished r.
Proof.
  intros [Hp Ht Hf Hph] [c Ec]. unfold phase_ok in Hph. rewrite Ec in Hph.
  destruct Hph as (-> & Eo & Hre & [Epc Ea] & Hpid & Hfl). pose proof (px_inv _ _ _ Hp) as Hi.
  pose proof (pi_dispatcher _ _ Hi) as Hd. pose proof (inv_pc _ _ _ Hd) as Hpc. unfold pc_ok in Hpc.
  rewrite Epc in Hpc. destruct Hpc as [Hh Hff]. constructor; try done.
  - intros id w Hw. destruct (pi_sources _ _ Hi _ _ Hw) as (_ & Hj & _). by rewrite Eo, app_nil_r in Hj.
  - rewrite Hf. case_bool_decide as Efc; [intros E; specialize (Hff E); lia|].
    assert (failed (sys (proc r)) = []) as Efa.
    { destruct (failed (sys (proc r))) eqn:E; [done|]. destruct Efc. apply (inv_raised _ _ _ Hd). by rewrite E. }
    destruct (px_settled _ _ _ Hp) as [?|Hs]; [done|]. rewrite Epc in Hs. destruct Hs as [_ Hq].
    by rewrite (inv_fifo _ _ _ Hd) at 1; rewrite Efa, Hh, Hq, !app_nil_r.
  - intros id w Hw Hc. destruct (Hfl _ _ Hw Hc) as [t Et]. exists t. rewrite Et.
    rewrite (px_latest _ _ _ Hp _ _ Hw). unfold last_confirmed.
    unfold all_applied in Ea. apply bool_decide_eq_true in Ea. by rewrite Ea, take_ge by done.
Qed.

(** How far [main] is from its return, and how many confirmations are due. *)
Definition main_rank (ph : MainPhase) : nat :=
  match ph with
  | InLoop _ => length ids + 5
  | Waiting => length ids + 4
  | Stopping => length ids + 3
  | Joining => length ids + 2
  | Flushing rest => length rest + 1
  | Returned _ => 0
  end.

Definition shutdown_rank (r : running) : nat * nat :=
  (worker_rank (sys (proc r)) + main_rank (phase r),
   length (confirm_calls (disp_of (sys (proc r)))) - applied (proc r)).

(** What holds from the moment the loop is broken. *)
Definition ending (r : running) : Prop :=
  run_inv cfg o ids r ∧ phase r ≠ InLoop false ∧
  (phase r = InLoop true ∨ phase r = Waiting →
   length (children (manager r).2) + interrupts (manager r).2 < wait_fuel).

#[local] Ltac next_phase Eph :=
  split_and!; [apply lex_lt_alt; left; unfold shutdown_rank, worker_rank; simpl; rewrite Eph; simpl; lia
              |done|first [done|by intros [|]]].

Lemma main_step_rank r r' :
  main_step cfg jitter 49 o wait_fuel ids r = Some r' →
  lex_lt (shutdown_rank r') (shutdown_rank r) ∧ phase r' ≠ InLoop false ∧
  (phase r' = InLoop true ∨ phase r' = Waiting → phase r = InLoop true ∧ manager r' = manager r).
Proof.
  unfold main_step. destruct (phase r) as [[]| | | |[|id rest]|code] eqn:Eph; try done.
  - intros [= <-]. next_phase Eph.
  - match goal with |- context [match ?x with _ => _ end] => destruct x as [[[]| | |] m] end; [|done..].
    intros [= <-]. next_phase Eph.
  - intros (p & Hst & [= <-])%bind_Some. cbn [process_step] in Hst. case_bool_decide; [|done].
    injection Hst as <-. next_phase Eph.
  - destruct (pc (sys (proc r))); try done. destruct (all_applied (proc r)); [|done]. intros [= <-].
    next_phase Eph.
  - destruct (destroy_sources _ _); [|done..]. intros [= <-]. next_phase Eph.
  - intros (p & Hst & [= <-])%bind_Some. destruct (flush_one _ _ _ _ _ _ Hst) as (_ & Es & _).
    split_and!; [|done|by intros [|]]. apply lex_lt_alt. left. unfold shutdown_rank. simpl.
    rewrite Es, Eph. simpl. lia.
Qed.

(** Every step brings the end nearer. *)
Lemma ending_step l r r' :
  ending r → step l r = Some r' → ending r' ∧ lex_lt (shutdown_rank r') (shutdown_rank r).
Proof.
  intros (Hr & Hne & Hw) Hst. pose proof (run_inv_step _ _ _ _ _ _ _ _ _ Hr Hst) as Hr'.
  assert (∀ lab, source_callback cfg jitter 49 lab r = None) as Hno1.
  { intros lab. unfold source_callback. by destruct (phase r) as [[]| | | | |]. }
  assert (∀ f, other_callback f r = None) as Hno2.
  { intros f. unfold other_callback. by destruct (phase r) as [[]| | | | |]. }
  destruct l; cbn [run_step] in Hst; rewrite ?Hno1, ?Hno2 in Hst; try done.
  - destruct (worker_waits (sys (proc r))) eqn:Ew; [done|]. apply bind_Some in Hst as (p & Hst & [= <-]).
    split; [done|]. cbn [process_step] in Hst. destruct (all_applied _); [|done].
    apply bind_Some in Hst as (st & Hws & [= <-]). apply worker_step_rank in Hws; [|done].
    apply lex_lt_alt. left. simpl. lia.
  - apply bind_Some in Hst as (p & Hst & [= <-]). split; [done|]. cbn [process_step] in Hst.
    apply bind_Some in Hst as ([id lsn] & Hc & [= <-]). apply lookup_lt_Some in Hc.
    apply lex_lt_alt. right. simpl. split; [done|]. lia.
  - apply main_step_rank in Hst as (Hlt & Hne' & Hm). split; [|done]. split_and!; [done..|].
    intros Hph. destruct (Hm Hph) as [E ->]. by apply Hw; left.
Qed.

Context (Hdef : ∀ h, h ∈ make_handles cfg → sink_defined (sink h)) (Hclock : ∀ n, (25000 ≤ jitter n)%Z).

Lemma main_retries_end : retries_end (make_dispatcher cfg) jitter (make_handles cfg) 7 40 25000.
Proof. clear -Hdef Hclock. by constructor. Qed.

Lemma destroy_sources_alive ss : destroy_sources true ss = Ret tt.
Proof.
  clear. induction ss as [|s ss IH]; [done|]. cbn [destroy_sources]. unfold destroy_source.
  by destruct (read_event_ s), (timer_event_ s).
Qed.

Lemma flush_returns (w : src * (Srv * list (list byte))) : ∃ w', flush_confirmed_lsn w = (Ret tt, w').
Proof.
  clear. unfold flush_confirmed_lsn, ping_update, now, gets, on_snd, lib, mbind, prog_bind. cbn [fst snd].
  destruct (conn_ w.1); cbn [negb fst snd]; [|by eexists]. destruct (unix_time w.2) as [t srv]. cbn [fst snd].
  destruct (pq_put_copy _ _). by eexists.
Qed.

(** ... and until then there is one to take. *)
Lemma ending_enabled r : ending r → (∃ c, phase r = Returned c) ∨ ∃ l r', step l r = Some r'.
Proof using Hdef Hclock.
  intros (Hr & Hne & Hw). pose proof (ri_process _ _ _ _ Hr) as Hp. pose proof (ri_phase _ _ _ _ Hr) as Hph.
  pose proof (px_inv _ _ _ Hp) as Hi. unfold phase_ok in Hph.
  destruct (phase r) as [[]| | | |[|id rest]|code] eqn:Eph; [|done|..|by left; eexists]; right.
  - exists RMain. cbn [run_step]. unfold main_step. rewrite Eph. by eexists.
  - exists RMain. cbn [run_step]. unfold main_step. rewrite Eph. destruct (manager r) as [m os] eqn:Em.
    pose proof (ri_tracked _ _ _ _ Hr) as Ht. rewrite Em in Ht.
    destruct (wait_loop_ok wait_fuel m os Ht) as (os' & E1 & Hc); [apply Hw; auto|].
    rewrite (prog_bind_ret _ _ _ _ _ E1). unfold destroy_manager, wait_for_all_workers.
    destruct wait_fuel as [|n]; [simpl in Hw; specialize (Hw (or_intror eq_refl)); lia|]. by eexists.
  - destruct Hph as (_ & Eo & _). exists RMain. cbn [run_step]. unfold main_step. rewrite Eph. cbn [process_step].
    rewrite bool_decide_true by done. by eexists.
  - destruct (decide (applied (proc r) = length (confirm_calls (disp_of (sys (proc r)))))) as [Ea|Ea].
    2:{ exists RConfirm. pose proof (px_applied _ _ _ Hp).
        destruct (lookup_lt_is_Some_2 (confirm_calls (disp_of (sys (proc r)))) (applied (proc r))) as [[id lsn] E]; [lia|].
        cbn [run_step process_step]. rewrite E. by eexists. }
    assert (all_applied (proc r) = true) as Eall by by apply bool_decide_eq_true.
    assert (pc (sys (proc r)) = Exited ∨ pc (sys (proc r)) ≠ Exited) as [Epc|Epc]
      by (destruct (pc (sys (proc r))); auto).
    { exists RMain. cbn [run_step]. unfold main_step. rewrite Eph, Epc, Eall. by eexists. }
    exists RWorker. cbn [run_step process_step]. destruct Hph as (Hrun & _).
    assert (worker_waits (sys (proc r)) = false) as ->.
    { unfold worker_waits. rewrite Hrun. by destruct (pc _). }
    rewrite Eall. destruct (worker_step_enabled _ _ _ _ _ _ main_retries_end (sys (proc r))) as [st Hst];
      [apply (pi_dispatcher _ _ Hi)|by apply px_jobs|done|]. simpl in Hst. rewrite Hst. by eexists.
  - exists RMain. cbn [run_step]. unfold main_step. rewrite Eph.
    rewrite destroy_sources_alive. by eexists.
  - destruct Hph as (Eo & _ & [Epc Ea] & Hsuf & _). exists RMain. cbn [run_step]. unfold main_step. rewrite Eph.
    cbn [process_step]. rewrite Epc, Ea, bool_decide_true by done. cbn [andb].
    assert (is_Some (source_by_id (proc r) !! id)) as [w Hw'].
    { apply (px_ids _ _ _ Hp). destruct Hsuf as [l ->]. set_solver. }
    unfold on_source. rewrite Hw'. cbn [mbind option_bind].
    destruct (flush_returns w) as [w' ->]. by eexists.
Qed.

Lemma ending_finished r : ending r → inevitable step finished r.
Proof using Hdef Hclock.
  apply (inevitable_measure step lex_lt shutdown_rank); [apply lex_lt_wf|].
  intros r' He. destruct (ending_enabled r' He) as [Hret|Hen]; [left|right].
  - apply run_inv_finished; [apply He|done].
  - split; [done|]. intros l r'' Hst. by eapply ending_step.
Qed.
End inevitable.


(** A process whose only sink, a required one, always throws. *)
Module DemoStall.
#[export] Instance down : EventSink unit :=
  {| call_batch := λ _ _, throw "down"; sink_default_required := λ _, true |}.
#[export] Existing Instances DemoProcess.queries DemoProcess.stream DemoBackfill.text DemoProcesses.calls DemoProcesses.calls_ok.
Abbreviation running := (Running unit DemoProcess.server DemoProcesses.os).

Definition sources : list (src * DemoProcess.server) :=
  match DemoProcess.started.1 with Ret (_, ws) => ws | _ => [] end.
Definition start : running := launch tt 0 sources DemoProcess.started.2 DemoDaemon.daemon.
Definition step : run_label → running → option running :=
  run_step DemoProcess.config (λ _, 25000%Z) 49 DemoDaemon.options 1 (id_of ∘ fst <$> sources).

(** An insert is read and posted; the worker takes it, tries for a minute,
    gives up and raises the flag; the poll sees it. *)
Definition stalled : list run_label :=
  [RConsume 1] ++ replicate 3 (RMessage 1) ++ [RPost] ++ replicate 3 RWorker ++ [RPoll].
(** [main] goes on to its return. *)
Definition ended : list run_label := stalled ++ replicate 6 RMain.
End DemoStall.
#[local] Existing Instances DemoStall.down DemoProcess.queries DemoProcess.stream DemoBackfill.text
  DemoProcesses.calls DemoProcesses.calls_ok.


(** After a fatal stall the program ends as after a signal: with code 0, the
    event that no sink took on record as failed. *)
Example fatal_stall_returns_zero :
  ∃ r, run_labels DemoStall.step DemoStall.ended DemoStall.start = Some r ∧
    phase r = Returned 0 ∧ terminate r = true ∧ length (failed (sys (proc r))) = 1 ∧
    delivered (sys (proc r)) = [].
Proof. eexists. split; [vm_compute; reflexivity|]. repeat split. Qed.
