(* ===== verification/Workers.v ===== *)
(** * Several backfill workers on one store

    [src/bench/embed_backfill_batched_bench.cpp] forks any number of worker
    processes on one store, and a worker that outlives its parent shares the
    store with the next one.  Here the loop of [BackfillWorker::run] is cut into
    its store statements and sink calls, and any number of workers take these
    steps in any order, while the main process merges updates into the rows. *)

From S2P Require Import Prelude Progress Event Config Dispatcher Libpq Http BackfillStore Backfill.
From Stdlib Require Import Lia.

(** Where a worker is: about to claim; handing the events of its rows to the
    sinks that are left; marking the rows that are left; or at its end, with
    its error and the rows it leaves claimed. *)
Inductive DrainPc :=
| WClaim
| WDeliver (claimed : list ClaimedRow) (events : list ChangeEvent) (sinks : list SinkRef)
| WMark (claimed : list ClaimedRow)
| WExit (error : option string) (left : list ClaimedRow).

Section workers.
Context `{JsonText} `{RowOrder} {W : Type} `{EventSink W} (limit : Z) (sinks : list SinkRef).

(** The store and the sinks' servers, which the workers share; and which rows
    have been handed to which sink. *)
Record Drain := {
  dr_store : Store;
  dr_world : W;
  dr_workers : list DrainPc;
  dr_log : list (SinkRef * ClaimedRow);
}.

Abbreviation turn_result := (DrainPc * list (SinkRef * ClaimedRow) * Store * W)%type.

(** The next step of a worker's loop. *)
Definition worker_turn (pc : DrainPc) (s : Store) (w : W) : option turn_result :=
  match pc with
  | WClaim =>
      match claim_pending limit s with
      | (Ret [], s) => Some (WExit None [], [], s, w)
      | (Ret rs, s) =>
          match to_change_events rs with
          | Ret es => Some (WDeliver rs es sinks, [], s, w)
          | Throw e => Some (WExit (Some ("batch processing failed: " +:+ e)) rs, [], s, w)
          | _ => None
          end
      | (Throw e, s) => Some (WExit (Some ("claim_pending failed: " +:+ e)) [], [], s, w)
      | _ => None
      end
  | WDeliver rs es [] => Some (WMark rs, [], s, w)
  | WDeliver rs es (k :: ks) =>
      match call_batch k es w with
      | (Ret _, w) => Some (WDeliver rs es ks, pair k <$> rs, s, w)
      | (Throw e, w) => Some (WExit (Some ("batch processing failed: " +:+ e)) rs, [], s, w)
      | _ => None
      end
  | WMark [] => Some (WClaim, [], s, w)
  | WMark (r :: rs) =>
      match mark_done (cr_source_table r) (cr_row_id r) s with
      | (Ret _, s) => Some (WMark rs, [], s, w)
      | (Throw e, s) => Some (WExit (Some ("batch processing failed: " +:+ e)) (r :: rs), [], s, w)
      | _ => None
      end
  | WExit _ _ => None
  end.

Inductive drain_label :=
| DWorker (i : nat)
| DUpdate (t id data : string).      (* the main process merges an update *)

Definition drain_step (l : drain_label) (d : Drain) : option Drain :=
  match l with
  | DWorker i =>
      pc ← dr_workers d !! i;
      '(pc, log, s, w) ← worker_turn pc (dr_store d) (dr_world d);
      Some {| dr_store := s; dr_world := w; dr_workers := <[i := pc]> (dr_workers d);
              dr_log := dr_log d ++ log |}
  | DUpdate t id data =>
      Some {| dr_store := (update_row_data t id data (dr_store d)).2; dr_world := dr_world d;
              dr_workers := dr_workers d; dr_log := dr_log d |}
  end.

Definition fork_workers (n : nat) (s : Store) (w : W) : Drain :=
  {| dr_store := s; dr_world := w; dr_workers := replicate n WClaim; dr_log := [] |}.
End workers.
Arguments Drain _ : clear implicits.

(** ** One worker alone *)

Section solo.
Context `{JsonText} `{RowOrder} {W : Type} `{EventSink W} (limit : Z) (sinks : list SinkRef).
Abbreviation step := (drain_step limit sinks).
Implicit Types (s : Store) (w : W).

(** A single worker takes the steps of [ls] and is then at [pc']. *)
Definition solo (pc pc' : DrainPc) s w s' w' : Prop := ∀ log, ∃ n log',
  run_labels step (replicate n (DWorker 0)) {| dr_store := s; dr_world := w; dr_workers := [pc]; dr_log := log |}
  = Some {| dr_store := s'; dr_world := w'; dr_workers := [pc']; dr_log := log' |}.

Lemma solo_refl pc s w : solo pc pc s w s w.
Proof. intros log. by exists 0, log. Qed.

Lemma solo_step pc pc1 pc' s w s1 w1 s' w' l :
  worker_turn limit sinks pc s w = Some (pc1, l, s1, w1) → solo pc1 pc' s1 w1 s' w' → solo pc pc' s w s' w'.
Proof.
  intros Ht Hs log. destruct (Hs (log ++ l)) as (n & log' & Hr). exists (S n), log'.
  cbn [replicate run_labels drain_step dr_workers dr_store dr_world dr_log lookup list_lookup mbind option_bind].
  rewrite Ht. exact Hr.
Qed.

Definition failed_with (e : string) : option string := Some ("batch processing failed: " +:+ e).

(** The loop over the sinks. *)
Lemma solo_deliver rs es ks s w r s' w' :
  for_each ks (λ k, on_snd (call_batch k es)) (s, w) = (r, (s', w')) →
  s' = s ∧
  match r with
  | Ret _ => solo (WDeliver rs es ks) (WMark rs) s w s w'
  | Throw e => solo (WDeliver rs es ks) (WExit (failed_with e) rs) s w s w'
  | _ => True
  end.
Proof.
  revert w. induction ks as [|k ks IH]; intros w; cbn [for_each].
  - intros [= <- <- <-]. split; [done|]. eapply solo_step; [done|apply solo_refl].
  - unfold mbind, prog_bind, on_snd at 1. cbn [fst snd].
    destruct (call_batch k es w) as [[u|e|e|] w1] eqn:Ec.
    2:{ intros [= <- <- <-]. split; [done|]. eapply solo_step; [cbn [worker_turn]; by rewrite Ec|apply solo_refl]. }
    2,3: by intros [= <- <- _].
    intros [-> Hf]%IH. split; [done|]. destruct r; try done;
      (eapply solo_step; [cbn [worker_turn]; by rewrite Ec|done]).
Qed.

(** The loop over the rows. *)
Lemma solo_mark rs s w r s' w' :
  for_each rs (λ r, on_fst (mark_done (cr_source_table r) (cr_row_id r))) (s, w) = (r, (s', w')) →
  match r with
  | Ret _ => solo (WMark rs) WClaim s w s' w'
  | Throw e => ∃ left, solo (WMark rs) (WExit (failed_with e) left) s w s' w'
  | _ => True
  end.
Proof.
  revert s. induction rs as [|x rs IH]; intros s; cbn [for_each].
  - intros [= <- <- <-]. eapply solo_step; [done|apply solo_refl].
  - unfold mbind, prog_bind, on_fst at 1. cbn [fst snd].
    destruct (mark_done _ _ s) as [[u|e|e|] s1] eqn:Em.
    2:{ intros [= <- <- <-]. exists (x :: rs). eapply solo_step; [cbn [worker_turn]; by rewrite Em|apply solo_refl]. }
    2,3: by intros [= <- _].
    intros Hf%IH. destruct r as [u'|e|e|]; try done.
    + eapply solo_step; [cbn [worker_turn]; by rewrite Em|done].
    + destruct Hf as [left Hf]. exists left. eapply solo_step; [cbn [worker_turn]; by rewrite Em|done].
Qed.
Lemma solo_trans pc1 pc2 pc3 s1 w1 s2 w2 s3 w3 :
  solo pc1 pc2 s1 w1 s2 w2 → solo pc2 pc3 s2 w2 s3 w3 → solo pc1 pc3 s1 w1 s3 w3.
Proof.
  intros H1' H2' log. destruct (H1' log) as (n1 & log1 & E1), (H2' log1) as (n2 & log2 & E2).
  exists (n1 + n2), log2. rewrite replicate_add, run_labels_app, E1. exact E2.
Qed.

(** One turn of the loop. *)
Lemma drain_loop_turn fuel s w :
  drain_loop (S fuel) limit sinks (s, w) =
  match claim_pending limit s with
  | (Ret [], s1) => (Ret (inr tt), (s1, w))
  | (Ret rs, s1) =>
      match drain_batch sinks rs (s1, w) with
      | (Ret _, x) => drain_loop fuel limit sinks x
      | (Throw e, x) => (Ret (inl ("batch processing failed: " +:+ e)), x)
      | (UB e, x) => (UB e, x)
      | (OutOfFuel, x) => (OutOfFuel, x)
      end
  | (Throw e, s1) => (Ret (inl ("claim_pending failed: " +:+ e)), (s1, w))
  | (UB e, s1) => (UB e, (s1, w))
  | (OutOfFuel, s1) => (OutOfFuel, (s1, w))
  end.
Proof.
  cbn [drain_loop]. unfold try_catch, mbind, prog_bind, on_fst, mret, prog_ret. cbn [fst snd].
  destruct (claim_pending limit s) as [[[|r rs]|e|e|] s1]; try done.
  by destruct (drain_batch sinks (r :: rs) (s1, w)) as [[[]|e|e|] x].
Qed.

Lemma solo_batch s w rs s1 r s2 w2 :
  claim_pending limit s = (Ret rs, s1) → rs ≠ [] → drain_batch sinks rs (s1, w) = (r, (s2, w2)) →
  match r with
  | Ret _ => solo WClaim WClaim s w s2 w2
  | Throw e => ∃ left, solo WClaim (WExit (failed_with e) left) s w s2 w2
  | _ => True
  end.
Proof.
  intros Ecl Hne. unfold drain_batch, lift. unfold mbind at 1, prog_bind at 1.
  assert (∀ o, to_change_events rs = o →
    match o with
    | Ret es => worker_turn limit sinks WClaim s w = Some (WDeliver rs es sinks, [], s1, w)
    | Throw e => worker_turn limit sinks WClaim s w = Some (WExit (failed_with e) rs, [], s1, w)
    | _ => True
    end) as Hclaim.
  { intros o <-. cbn [worker_turn]. rewrite Ecl. destruct rs; [done|]. by destruct (to_change_events _). }
  specialize (Hclaim _ eq_refl). destruct (to_change_events rs) as [es|e|e|]; [|by intros [= <- <- <-]; exists rs;
    eapply solo_step; [done|apply solo_refl]|by intros [= <- _]..].
  unfold mbind at 1, prog_bind at 1.
  destruct (for_each sinks _ (s1, w)) as [rd [sd wd]] eqn:Edel.
  apply (solo_deliver rs) in Edel as [-> Hdel]. destruct rd as [u|e|e|].
  - intros Hm%solo_mark. destruct r as [u'|e|e|]; try done.
    + eapply solo_step; [done|]. by eapply solo_trans.
    + destruct Hm as [left Hm]. exists left. eapply solo_step; [done|]. by eapply solo_trans.
  - intros [= <- <- <-]. exists rs. by eapply solo_step.
  - by intros [= <- _].
  - by intros [= <- _].
Qed.

(** The steps are those of the loop of [run]: whatever the loop returns, a
    worker that is alone gets there, with the same store and sinks. *)
Lemma solo_worker fuel s w res s' w' :
  drain_loop fuel limit sinks (s, w) = (Ret res, (s', w')) →
  ∃ left, solo WClaim (WExit (match res with inl e => Some e | inr _ => None end) left) s w s' w'.
Proof.
  revert s w. induction fuel as [|fuel IH]; intros s w; [done|]. rewrite drain_loop_turn.
  destruct (claim_pending limit s) as [[rs|e|e|] s1] eqn:Ecl; try done.
  2:{ intros [= <- <- <-]. exists []. eapply solo_step; [cbn [worker_turn]; by rewrite Ecl|apply solo_refl]. }
  destruct rs as [|r rs].
  { intros [= <- <- <-]. exists []. eapply solo_step; [cbn [worker_turn]; by rewrite Ecl|apply solo_refl]. }
  destruct (drain_batch sinks (r :: rs) (s1, w)) as [rb [s2 w2]] eqn:Eb.
  apply (solo_batch _ _ _ _ _ _ _ Ecl) in Eb; [|done]. destruct rb as [u|e|e|]; try done.
  - intros [left Hl]%IH. exists left. by eapply solo_trans.
  - intros [= <- <- <-]. exact Eb.
Qed.
End solo.

(** ** What the workers do to one row *)

Definition hand (pc : DrainPc) : list ClaimedRow :=
  match pc with
  | WClaim => []
  | WDeliver rs _ _ | WMark rs | WExit _ rs => rs
  end.
Definition hand_keys (pc : DrainPc) : list rowkey := row_key <$> hand pc.

(** The sinks that were handed the row [k], in order. *)
Definition delivered (k : rowkey) (log : list (SinkRef * ClaimedRow)) : list SinkRef :=
  (filter (λ x, row_key x.2 = k) log).*1.

Definition status (k : rowkey) (s : Store) : option string := row_status <$> backfill_rows s !! k.

Lemma delivered_app k l1 l2 : delivered k (l1 ++ l2) = delivered k l1 ++ delivered k l2.
Proof. unfold delivered. by rewrite filter_app, fmap_app. Qed.

Lemma delivered_none k x rs : k ∉ row_key <$> rs → delivered k (pair x <$> rs) = [].
Proof.
  unfold delivered. induction rs as [|r rs IH]; csimpl; [done|]. intros [Hr Hrs]%not_elem_of_cons.
  rewrite filter_cons_False by (simpl; congruence). by apply IH.
Qed.

Lemma delivered_once k x rs :
  NoDup (row_key <$> rs) → k ∈ row_key <$> rs → delivered k (pair x <$> rs) = [x].
Proof.
  induction rs as [|r rs IH]; csimpl; [by intros _ ?%elem_of_nil|].
  intros [Hr Hrs]%NoDup_cons [->|Hin]%elem_of_cons; unfold delivered.
  - rewrite filter_cons_True by done. simpl. f_equal. by apply delivered_none.
  - rewrite filter_cons_False by (simpl; intros E; rewrite E in Hr; done). by apply IH.
Qed.

Section rows.
Context `{JsonText} `{RowOrder} {W : Type} `{EventSink W} (limit : Z) (sinks : list SinkRef) (s0 : Store).
Abbreviation step := (drain_step limit sinks).
Implicit Types (d : Drain W) (s : Store) (w : W) (k : rowkey).

Definition held (i : nat) k d : Prop := ∃ pc, dr_workers d !! i = Some pc ∧ k ∈ hand_keys pc.

(** How far the sinks are with the rows a worker holds. *)
Definition so_far (pc : DrainPc) (got : list SinkRef) : Prop :=
  match pc with
  | WClaim => False
  | WDeliver _ _ ks => got ++ ks = sinks
  | WMark _ => got = sinks
  | WExit _ _ => got `prefix_of` sinks
  end.

(** A row that was pending waits, is held by a worker, or was taken by every
    sink and is gone; the others are left alone. *)
Definition row_inv k d : Prop :=
  if decide (status k s0 = Some "pending") then
    (status k (dr_store d) = Some "pending" ∧ (∀ i, ¬ held i k d) ∧ delivered k (dr_log d) = []) ∨
    (status k (dr_store d) = Some "claimed" ∧ ∃ i pc, dr_workers d !! i = Some pc ∧
       k ∈ hand_keys pc ∧ so_far pc (delivered k (dr_log d))) ∨
    (status k (dr_store d) = None ∧ (∀ i, ¬ held i k d) ∧ delivered k (dr_log d) = sinks)
  else status k (dr_store d) = status k s0 ∧ (∀ i, ¬ held i k d) ∧ delivered k (dr_log d) = [].

Definition drain_inv d : Prop :=
  keys_ok (dr_store d) ∧
  (∀ i pc, dr_workers d !! i = Some pc → NoDup (hand_keys pc)) ∧
  (∀ i j k, held i k d → held j k d → i = j) ∧
  (∀ k, row_inv k d).

(** What one worker's step may do: leave a row alone, claim it, hand it on, or
    let go of it. *)
Definition row_move (k : rowkey) (pc pc' : DrainPc) (s s' : Store) (new : list SinkRef) : Prop :=
  if decide (k ∈ hand_keys pc) then
    if decide (k ∈ hand_keys pc') then
      status k s' = status k s ∧ ∀ got, so_far pc got → so_far pc' (got ++ new)
    else status k s' = None ∧ new = [] ∧ ∀ got, so_far pc got → got = sinks
  else
    if decide (k ∈ hand_keys pc') then
      status k s = Some "pending" ∧ status k s' = Some "claimed" ∧ new = [] ∧ so_far pc' []
    else status k s' = status k s ∧ new = [].

Lemma held_insert i j k pc' d s' w' log' :
  i < length (dr_workers d) →
  held j k {| dr_store := s'; dr_world := w'; dr_workers := <[i := pc']> (dr_workers d); dr_log := log' |} ↔
  if decide (i = j) then k ∈ hand_keys pc' else held j k d.
Proof.
  intros Hi. unfold held. simpl. case_decide as E; [subst j|].
  - split; [|intros; exists pc'; by rewrite list_lookup_insert_eq].
    rewrite list_lookup_insert_eq by done. by intros (? & [= <-] & ?).
  - by rewrite list_lookup_insert_ne.
Qed.

(** A row that a step leaves alone or another worker holds. *)
Lemma row_inv_move i pc pc' k d s' w' log :
  drain_inv d → dr_workers d !! i = Some pc →
  row_move k pc pc' (dr_store d) s' (delivered k log) →
  row_inv k {| dr_store := s'; dr_world := w'; dr_workers := <[i := pc']> (dr_workers d);
               dr_log := dr_log d ++ log |}.
Proof.
  intros (_ & _ & Hex & Hrow) Hi Hm. specialize (Hrow k).
  assert (i < length (dr_workers d)) as Hlt by by eapply lookup_lt_Some.
  unfold row_inv in *. cbn [dr_store dr_log dr_workers]. rewrite delivered_app.
  set (d' := Build_Drain _ _ _ _).
  assert ((∀ j, i ≠ j → ¬ held j k d) → k ∉ hand_keys pc' → ∀ j, ¬ held j k d') as Hno
    by (intros Hn Hk j; unfold d'; rewrite held_insert by done; destruct (decide (i = j)); [done|by apply Hn]).
  unfold row_move in Hm. destruct (decide (k ∈ hand_keys pc)) as [Hin|Hin].
  - assert (held i k d) as Hheld by by exists pc.
    destruct (decide (status k s0 = Some "pending")) as [Hp|Hp]; [|by destruct Hrow as (_ & Hn & _); destruct (Hn i)].
    destruct Hrow as [(_ & Hn & _)|[(Hst & j & pcj & Hj & Hkj & Hgot)|(_ & Hn & _)]];
      [by destruct (Hn i)| |by destruct (Hn i)].
    assert (j = i) as -> by (apply (Hex _ _ k); [by exists pcj|done]). simplify_eq.
    assert (∀ j, i ≠ j → ¬ held j k d) as Hn by (intros j Hj' Hh; apply Hj'; by apply (Hex _ _ k)).
    destruct (decide (k ∈ hand_keys pc')) as [Hin'|Hin']; [destruct Hm as [-> Hf]|destruct Hm as (-> & -> & Hf)].
    + right; left. split; [done|]. exists i, pc'. rewrite list_lookup_insert_eq by done. auto.
    + right; right. rewrite app_nil_r. split_and!; [done|by apply Hno|by apply Hf].
  - destruct (decide (k ∈ hand_keys pc')) as [Hin'|Hin'].
    + destruct Hm as (Hs & -> & -> & Hgot). rewrite app_nil_r, Hs in *.
      destruct (decide (status k s0 = Some "pending")) as [Hp|Hp]; [|by destruct Hrow as (E & _); rewrite E in Hp].
      destruct Hrow as [(_ & _ & ->)|[(? & _)|(? & _)]]; [|done..].
      right; left. split; [done|]. exists i, pc'. by rewrite list_lookup_insert_eq.
    + destruct Hm as [-> ->]. rewrite app_nil_r.
      destruct (decide (status k s0 = Some "pending")) as [Hp|Hp]; [|destruct Hrow as (? & ? & ?); auto].
      destruct Hrow as [(? & Hn & ?)|[(Hst & j & pcj & Hj & Hkj & Hgot)|(? & Hn & ?)]]; [by left; auto| |by right; right; auto].
      right; left. split; [done|]. exists j, pcj. rewrite list_lookup_insert_ne; [done|]. intros ->. by simplify_eq.
Qed.

Lemma drain_inv_move i pc pc' d s' w' log :
  drain_inv d → dr_workers d !! i = Some pc → keys_ok s' → NoDup (hand_keys pc') →
  (∀ k, row_move k pc pc' (dr_store d) s' (delivered k log)) →
  drain_inv {| dr_store := s'; dr_world := w'; dr_workers := <[i := pc']> (dr_workers d);
               dr_log := dr_log d ++ log |}.
Proof.
  intros Hinv Hi Hko Hnd Hm. pose proof Hinv as (_ & Hnds & Hex & Hrow).
  assert (i < length (dr_workers d)) as Hlt by by eapply lookup_lt_Some.
  assert (∀ j k, k ∈ hand_keys pc' → held j k d → i = j) as Hmine.
  { intros j k Hk Hj. specialize (Hm k). unfold row_move in Hm.
    destruct (decide (k ∈ hand_keys pc)) as [Hin|Hin]; [apply (Hex _ _ k); [by exists pc|done]|].
    rewrite decide_True in Hm by done. destruct Hm as (Hs & _). specialize (Hrow k). unfold row_inv in Hrow.
    destruct (decide (status k s0 = Some "pending")) as [Hp|Hp]; [|by destruct Hrow as (_ & Hn & _); destruct (Hn j)].
    rewrite Hs in Hrow. destruct Hrow as [(_ & Hn & _)|[(? & _)|(? & _)]]; [|done..]. by destruct (Hn j). }
  split_and!; [done| | |].
  - intros j pcj. simpl. destruct (decide (i = j)) as [<-|].
    + rewrite list_lookup_insert_eq by done. by intros [= <-].
    + rewrite list_lookup_insert_ne by done. apply Hnds.
  - intros j1 j2 k. rewrite !held_insert by done. repeat case_decide; subst; eauto.
    intros ??. symmetry. eauto.
  - intros k. by eapply row_inv_move.
Qed.

(** A step that neither takes rows nor lets go of them. *)
Lemma row_move_same k pc pc' s s' new :
  hand pc' = hand pc → backfill_rows s' = backfill_rows s →
  (k ∈ hand_keys pc → ∀ got, so_far pc got → so_far pc' (got ++ new)) → (k ∉ hand_keys pc → new = []) →
  row_move k pc pc' s s' new.
Proof.
  intros Hh Hr Hin Hni. assert (hand_keys pc' = hand_keys pc) as E by (unfold hand_keys; by rewrite Hh).
  unfold row_move, status. rewrite E, Hr. destruct (decide (k ∈ hand_keys pc)); auto.
Qed.

Lemma keys_ok_rows s s' : backfill_rows s' = backfill_rows s → keys_ok s → keys_ok s'.
Proof. unfold keys_ok. by intros ->. Qed.

(** The claim takes the rows it returns and no others. *)
Lemma claim_moves s rs s' pc' :
  claim_pending limit s = (Ret rs, s') → hand pc' = rs → so_far pc' [] → keys_ok s →
  keys_ok s' ∧ NoDup (hand_keys pc') ∧ ∀ k, row_move k WClaim pc' s s' [].
Proof.
  intros Hc Hh Hgot Hko. pose proof Hc as (l & Hl & Hk & _ & Hrows & _)%claim_pending_inv.
  assert (hand_keys pc' = l.*1) as E by (unfold hand_keys; by rewrite Hh).
  split_and!.
  - intros k r. rewrite Hrows, claim_all_lookup. case_decide; [|apply Hko].
    destruct (backfill_rows s !! k) as [r0|] eqn:Er; [|done]. intros _. by eapply Hko.
  - rewrite E, <- Hl. apply select_pending_nodup.
  - intros k. unfold row_move. rewrite E. rewrite decide_False by (by intros ?%elem_of_nil).
    unfold status. rewrite Hrows, claim_all_lookup. destruct (decide (k ∈ l.*1)) as [Hin|]; [|done].
    apply list_elem_of_fmap in Hin as ([k' r] & -> & Hin). rewrite <- Hl in Hin.
    apply select_pending_in in Hin as [Hin Hst]. cbn [fst]. rewrite Hin. simpl. by rewrite Hst.
Qed.

(** A row marked done is let go of. *)
Lemma mark_moves s r rs s' :
  mark_done (cr_source_table r) (cr_row_id r) s = (Ret tt, s') → keys_ok s →
  NoDup (row_key <$> r :: rs) → is_Some (status (row_key r) s) →
  keys_ok s' ∧ NoDup (hand_keys (WMark rs)) ∧ ∀ k, row_move k (WMark (r :: rs)) (WMark rs) s s' [].
Proof.
  intros [(e & ? & _)|(a & _ & E)]%statement_inv Hko Hnd [x Hx]; [done|]. injection E as _ <-.
  unfold status in Hx. destruct (backfill_rows s !! row_key r) as [d|] eqn:Ed; [|done].
  assert (key (cr_source_table r) (cr_row_id r) = row_key r) as Ek by apply (Hko _ _ Ed).
  apply NoDup_cons in Hnd as [Hni Hnd]. split_and!.
  - intros k y Hy. simpl in Hy. apply lookup_delete_Some in Hy as [_ Hy]. by eapply Hko.
  - done.
  - intros k. unfold row_move, status, hand_keys. cbn [hand backfill_rows with_rows with_faults]. rewrite Ek.
    destruct (decide (k = row_key r)) as [->|Hne].
    + rewrite decide_True by (rewrite fmap_cons; by left). rewrite decide_False by done.
      by rewrite lookup_delete_eq.
    + rewrite lookup_delete_ne by done.
      destruct (decide (k ∈ row_key <$> rs)) as [Hin|Hin].
      * rewrite decide_True by (rewrite fmap_cons; by right). split; [done|]. intros got. by rewrite app_nil_r.
      * rewrite decide_False by (rewrite fmap_cons; by intros [?|?]%elem_of_cons). done.
Qed.

Lemma turn_moves pc s w pc' log s' w' :
  worker_turn limit sinks pc s w = Some (pc', log, s', w') → keys_ok s → NoDup (hand_keys pc) →
  (∀ k, k ∈ hand_keys pc → is_Some (status k s)) →
  keys_ok s' ∧ NoDup (hand_keys pc') ∧ ∀ k, row_move k pc pc' s s' (delivered k log).
Proof.
  intros Ht Hko Hnd Hst.
  assert (∀ pc' s', hand pc' = hand pc → backfill_rows s' = backfill_rows s →
    (∀ got, so_far pc got → so_far pc' got) →
    keys_ok s' ∧ NoDup (hand_keys pc') ∧ ∀ k, row_move k pc pc' s s' []) as Hsame.
  { intros pc1 s1 Hh Hr Hf. split_and!; [by eapply keys_ok_rows|unfold hand_keys in *; by rewrite Hh|].
    intros k. apply row_move_same; try done. intros _ got. rewrite app_nil_r. apply Hf. }
  destruct pc as [|rs es [|x ks]|[|r rs]|]; cbn [worker_turn] in Ht; [| | | | |done].
  - destruct (claim_pending limit s) as [[rs|e|e|] s1] eqn:Ec; [| |done..].
    + destruct rs as [|r rs]; [|destruct (to_change_events (r :: rs)) as [es|e|e|]; [| |done..]];
        injection Ht as <- <- <- <-; (eapply claim_moves; [done|done| |done]); try done; apply prefix_nil.
    + injection Ht as <- <- <- <-. apply statement_inv in Ec as [(e' & _ & ->)|(a & ? & _)]; [|done].
      apply Hsame; [done|done|by intros got []].
  - injection Ht as <- <- <- <-. apply Hsame; try done. intros got. simpl. by rewrite app_nil_r.
  - destruct (call_batch x es w) as [[u|e|e|] w1]; [| |done..]; injection Ht as <- <- <- <-.
    + split_and!; [done|done|]. intros k. apply row_move_same; try done.
      * intros Hin got. rewrite delivered_once by done. simpl. by rewrite <- app_assoc.
      * apply delivered_none.
    + apply Hsame; try done. intros got <-. by eexists.
  - injection Ht as <- <- <- <-. split_and!; [done|done|]. intros k. apply row_move_same; try done.
    by intros ?%elem_of_nil.
  - destruct (mark_done _ _ s) as [[[]|e|e|] s1] eqn:Em; [| |done..]; injection Ht as <- <- <- <-.
    + apply mark_moves; try done. apply Hst. by left.
    + apply statement_inv in Em as [(e' & _ & ->)|(a & ? & _)]; [|done]. apply Hsame; try done. intros got ->. simpl. reflexivity.
Qed.

Lemma update_status t id data s k : status k (update_row_data t id data s).2 = status k s.
Proof.
  unfold status. destruct (update_row_data t id data s) as [r s'] eqn:E. simpl.
  apply statement_inv in E as [(e & _ & ->)|(a & _ & E)]; [done|]. cbn [with_faults backfill_rows] in E.
  destruct (backfill_rows s !! key t id) as [r0|] eqn:El; injection E as _ <-; [|done]. simpl.
  destruct (decide (key t id = k)) as [<-|Hne]; [by rewrite lookup_insert_eq, El|by rewrite lookup_insert_ne].
Qed.

Lemma keys_ok_status s s' : (∀ k, status k s' = status k s) → keys_ok s → keys_ok s'.
Proof.
  intros Hst Hko k r Hr. specialize (Hst k). unfold status in Hst. rewrite Hr in Hst. simpl in Hst.
  destruct (backfill_rows s !! k) as [r0|] eqn:E; [|done]. by eapply Hko.
Qed.

Lemma held_claimed d i k : drain_inv d → held i k d → status k (dr_store d) = Some "claimed".
Proof.
  intros (_ & _ & _ & Hrow) Hh. specialize (Hrow k). unfold row_inv in Hrow.
  case_decide; [destruct Hrow as [(_ & Hn & _)|[[? _]|(_ & Hn & _)]]|destruct Hrow as (_ & Hn & _)];
    try done; by destruct (Hn i).
Qed.

Lemma drain_step_inv l d d' : drain_inv d → step l d = Some d' → drain_inv d'.
Proof.
  intros Hinv. destruct l as [i|t id data]; cbn [drain_step].
  - intros (pc & Hi & ([[[pc' log] s'] w'] & Ht & [= <-])%bind_Some)%bind_Some.
    pose proof Hinv as (Hko & Hnd & _ & _).
    destruct (turn_moves _ _ _ _ _ _ _ Ht) as (Hko' & Hnd' & Hm); [done|by eapply Hnd| |by eapply drain_inv_move].
    intros k Hk. rewrite (held_claimed d i k); [done|done|by exists pc].
  - intros [= <-]. destruct Hinv as (Hko & Hnd & Hex & Hrow). split_and!; [|done|done|].
    + eapply keys_ok_status; [|done]. intros k. apply update_status.
    + intros k. specialize (Hrow k). unfold row_inv in *. cbn [dr_store dr_log dr_workers].
      by rewrite update_status.
Qed.

Lemma fork_inv n w : keys_ok s0 → drain_inv (fork_workers n s0 w).
Proof.
  intros Hko. assert (∀ i k, ¬ held i k (fork_workers n s0 w)) as Hno.
  { intros i k (pc & [-> _]%lookup_replicate_1 & ?%elem_of_nil)%id. done. }
  split_and!; [done| | |].
  - intros i pc [-> _]%lookup_replicate_1. constructor.
  - by intros i j k []%Hno.
  - intros k. unfold row_inv. case_decide; [left|]; split_and!; try done; apply Hno.
Qed.
End rows.

(** ** The end of the drain *)

Lemma pending_status s : pending s = ∅ ↔ ∀ k, status k s ≠ Some "pending".
Proof.
  unfold pending, status. rewrite map_empty. setoid_rewrite map_lookup_filter_None. split.
  - intros Hn k. destruct (Hn k) as [->|Hn']; [done|]. destruct (backfill_rows s !! k) as [r|] eqn:E; [|done].
    simpl. intros [= E']. by apply (Hn' r).
  - intros Hn k. right. intros r Hr Hp. apply (Hn k). rewrite Hr. simpl. by rewrite Hp.
Qed.

Section finish.
Context `{JsonText} `{RowOrder} {W : Type} `{EventSink W} (limit : Z) (sinks : list SinkRef).
Abbreviation step := (drain_step limit sinks).
Implicit Types (d : Drain W) (s : Store) (w : W) (k : rowkey).

(** A worker that ended without an error has left nothing pending, and nothing
    becomes pending again. *)
Definition exhausted d : Prop :=
  ∀ i l, dr_workers d !! i = Some (WExit None l) → l = [] ∧ ∀ k, status k (dr_store d) ≠ Some "pending".

Lemma turn_exits_empty pc s w log s' w' l :
  (1 ≤ limit < 2 ^ 63)%Z → worker_turn limit sinks pc s w = Some (WExit None l, log, s', w') →
  l = [] ∧ ∀ k, status k s' ≠ Some "pending".
Proof.
  intros Hl. destruct pc as [|rs es [|x ks]|[|r rs]|]; cbn [worker_turn].
  - destruct (claim_pending limit s) as [[[|r rs]|e|e|] s1] eqn:Ec; try done.
    + intros [= <- <- <- <-]. split; [done|]. apply pending_status.
      apply claim_pending_inv in Ec as (l' & Hsel & Hk & _ & Hrows & _).
      destruct l' as [|x l']; [|done]. apply select_nonempty in Hsel; [|done].
      unfold pending in *. by rewrite Hrows.
    + by destruct (to_change_events _).
  - done.
  - by destruct (call_batch x es w) as [[]].
  - done.
  - by destruct (mark_done _ _ s) as [[]].
  - done.
Qed.

Lemma row_move_pending k pc pc' s s' new :
  row_move sinks k pc pc' s s' new → status k s' = Some "pending" → status k s = Some "pending".
Proof. unfold row_move. repeat case_decide; naive_solver congruence. Qed.

Lemma step_exhausted s0 l d d' :
  (1 ≤ limit < 2 ^ 63)%Z → drain_inv sinks s0 d → exhausted d → step l d = Some d' → exhausted d'.
Proof.
  intros Hl Hinv He. destruct l as [i|t id data]; cbn [drain_step].
  - intros (pc & Hi & ([[[pc' log] s'] w'] & Ht & [= <-])%bind_Some)%bind_Some.
    intros j l. cbn [dr_workers dr_store]. destruct (decide (i = j)) as [<-|Hne].
    + rewrite list_lookup_insert_eq by by eapply lookup_lt_Some. intros [= ->]. by eapply turn_exits_empty.
    + rewrite list_lookup_insert_ne by done. intros [-> Hn]%He. split; [done|].
      pose proof Hinv as (Hko & Hnd & _ & _).
      destruct (turn_moves _ sinks _ _ _ _ _ _ _ Ht) as (_ & _ & Hm); [done|by eapply Hnd| |].
      { intros k Hk. rewrite (held_claimed sinks s0 d i k); [done|done|by exists pc]. }
      intros k Hk. by eapply (Hn k), row_move_pending.
  - intros [= <-] j l Hj. destruct (He j l Hj) as [-> Hn]. split; [done|]. intros k. simpl. rewrite update_status.
    apply Hn.
Qed.

(** What holds since the fork. *)
Definition drain_good (s0 : Store) d : Prop := drain_inv sinks s0 d ∧ exhausted d.

Lemma step_good s0 l d d' :
  (1 ≤ limit < 2 ^ 63)%Z → drain_good s0 d → step l d = Some d' → drain_good s0 d'.
Proof. intros Hl [Hi He] Hs. split; [by eapply drain_step_inv|by eapply step_exhausted]. Qed.

Lemma fork_good n s w : keys_ok s → drain_good s (fork_workers n s w).
Proof. intros Hko. split; [by apply fork_inv|]. by intros i l [? _]%lookup_replicate_1. Qed.

Lemma run_good n s w ls d :
  keys_ok s → (1 ≤ limit < 2 ^ 63)%Z → run_labels step ls (fork_workers n s w) = Some d → drain_good s d.
Proof.
  intros Hko Hl Hr. eapply (run_labels_inv _ (drain_good s)); [|by apply (fork_good n s w)|exact Hr].
  intros l d1 d2. by apply step_good.
Qed.

(** Some worker found nothing pending and no worker holds rows: all is done. *)
Lemma good_drained s0 d k :
  drain_good s0 d → WExit None [] ∈ dr_workers d →
  (∀ pc, pc ∈ dr_workers d → pc = WClaim ∨ pc = WExit None []) → status k s0 = Some "pending" →
  status k (dr_store d) = None ∧ delivered k (dr_log d) = sinks.
Proof.
  intros [(_ & _ & _ & Hrow) He] (i & Hi)%list_elem_of_lookup Hall Hp. destruct (He i [] Hi) as [_ Hn].
  specialize (Hrow k). unfold row_inv in Hrow. rewrite decide_True in Hrow by done.
  destruct Hrow as [(Hst & _)|[(_ & j & pc & Hj & Hk & _)|(? & _ & ?)]]; [by destruct (Hn k)| |done].
  apply list_elem_of_lookup_2, Hall in Hj as [->| ->]; by apply elem_of_nil in Hk.
Qed.
End finish.


(** ** The drain ends *)

Definition turns_left (pc : DrainPc) : nat :=
  match pc with
  | WExit _ _ => 0
  | WClaim => 1
  | WMark rs => length rs + 2
  | WDeliver rs _ ks => length rs + length ks + 3
  end.

Definition ended (pc : DrainPc) : Prop := match pc with WExit _ _ => True | _ => False end.
#[export] Instance ended_dec pc : Decision (ended pc).
Proof. destruct pc; simpl; apply _. Defined.

Lemma sum_insert {A} (f : A → nat) i x y l :
  l !! i = Some x → sum_list_with f (<[i := y]> l) + f x = sum_list_with f l + f y.
Proof.
  revert i. induction l as [|z l IH]; intros [|i] Hi; simplify_eq/=; [lia|]. specialize (IH i Hi). lia.
Qed.

Section ends.
Context `{JsonText} `{RowOrder} {W : Type} `{EventSink W} (limit : Z) (sinks : list SinkRef).
Implicit Types (d : Drain W) (s : Store) (w : W) (k : rowkey).

(** JSON texts parse or are refused. *)
Definition parse_defined : Prop :=
  ∀ x, match parse_json x with Ret _ | Throw _ => True | _ => False end.

Lemma to_change_events_defined rs :
  parse_defined → match to_change_events rs with Ret _ | Throw _ => True | _ => False end.
Proof.
  intros Hp. assert (∀ l, match decode_members l with Ret _ | Throw _ => True | _ => False end) as Hd.
  { induction l as [|[k v] l IH]; simpl; [done|]. destruct v; simpl; try done;
      by destruct (decode_members l). }
  induction rs as [|r rs IH]; simpl; [done|].
  assert (match to_change_event r with Ret _ | Throw _ => True | _ => False end) as He.
  { unfold to_change_event. specialize (Hp (cr_row_data r)). destruct (parse_json _) as [j|e|e|]; simpl; try done.
    destruct j as [| | | | |[|]|l]; simpl; try done. specialize (Hd l). by destruct (decode_members l). }
  destruct (to_change_event r); simpl; try done. by destruct (to_change_events rs).
Qed.

Definition can_call (pc : DrainPc) : Prop :=
  match pc with WDeliver _ _ ks => Forall sink_defined ks | _ => True end.

Lemma turn_taken pc s w :
  parse_defined → can_call pc → ¬ ended pc → is_Some (worker_turn limit sinks pc s w).
Proof.
  intros Hp Hc He. destruct pc as [|rs es [|x ks]|[|r rs]|]; cbn [worker_turn]; [| | | | |by destruct He].
  - destruct (claim_pending limit s) as [r s1] eqn:E. apply statement_inv in E as [(e & -> & _)|(rs & -> & _)]; [done|].
    destruct rs; [done|]. pose proof (to_change_events_defined (c :: rs) Hp) as Hd. by destruct (to_change_events _).
  - done.
  - inversion Hc as [|? ? Hx _]; subst. specialize (Hx es w). by destruct (call_batch x es w) as [[] ?].
  - done.
  - destruct (mark_done _ _ s) as [o s1] eqn:E. by apply statement_inv in E as [(e & -> & _)|([] & -> & _)].
Qed.

Lemma pending_mono s s' :
  (∀ k, backfill_rows s' !! k = backfill_rows s !! k ∨ status k s' ≠ Some "pending") → pending s' ⊆ pending s.
Proof.
  intros Hk. apply map_subseteq_spec. intros k r. unfold pending.
  rewrite !map_lookup_filter_Some. intros [Hr Hp]. destruct (Hk k) as [E|E]; [by rewrite <- E|].
  destruct E. unfold status. rewrite Hr. simpl. by rewrite Hp.
Qed.

Lemma claim_shrinks s rs s' :
  claim_pending limit s = (Ret rs, s') → rs ≠ [] → size (pending s') < size (pending s).
Proof.
  intros Hc Hne. destruct rs as [|r rs]; [done|].
  destruct (claim_pending_was _ _ _ _ r Hc) as [Hold Hnew]; [by left|].
  apply claim_pending_inv in Hc as (l & Hl & _ & _ & Hrows & _).
  apply map_subset_size, map_subset_alt. split.
  - apply pending_mono. intros k. unfold status. rewrite Hrows, claim_all_lookup.
    case_decide; [right|by left]. by destruct (backfill_rows s !! k).
  - exists (row_key r). unfold pending. split.
    + by rewrite map_lookup_filter_None, Hnew; right; intros ? [= <-].
    + exists (pending_row (cr_row_data r)). by rewrite map_lookup_filter_Some.
Qed.

Lemma turn_decreases pc s w pc' log s' w' :
  worker_turn limit sinks pc s w = Some (pc', log, s', w') →
  size (pending s') < size (pending s) ∨
  (size (pending s') ≤ size (pending s) ∧ turns_left pc' < turns_left pc).
Proof.
  intros Ht. destruct pc as [|rs es [|x ks]|[|r rs]|]; cbn [worker_turn] in Ht; [| | | | |done].
  - destruct (claim_pending limit s) as [[rs|e|e|] s1] eqn:Ec; [| |done..].
    + destruct rs as [|r rs].
      * injection Ht as <- <- <- <-. right. split; [|simpl; lia].
        apply claim_pending_inv in Ec as (l & _ & Hk & _ & Hrows & _). destruct l; [|done].
        unfold pending. rewrite Hrows. done.
      * left. apply claim_shrinks in Ec; [|done].
        destruct (to_change_events _); [| |done..]; by injection Ht as <- <- <- <-.
    + injection Ht as <- <- <- <-. apply statement_inv in Ec as [(e' & _ & ->)|(a & ? & _)]; [|done].
      right. split; [done|simpl; lia].
  - injection Ht as <- <- <- <-. right. simpl. lia.
  - destruct (call_batch x es w) as [[u|e|e|] w1]; [| |done..]; injection Ht as <- <- <- <-; right; simpl; lia.
  - injection Ht as <- <- <- <-. right. simpl. lia.
  - destruct (mark_done _ _ s) as [o s1] eqn:Em.
    assert (size (pending s1) ≤ size (pending s)) as Hs.
    { apply map_subseteq_size, pending_mono. intros k.
      apply statement_inv in Em as [(e & _ & ->)|(a & _ & E)]; [by left|]. injection E as _ <-.
      unfold status. simpl. destruct (decide (k = key (cr_source_table r) (cr_row_id r))) as [->|Hne].
      - right. by rewrite lookup_delete_eq.
      - left. by rewrite lookup_delete_ne. }
    right. destruct o as [u|e|e|]; [| |done..]; injection Ht as <- <- <- <-; simpl; (split; [done|lia]).
Qed.

Lemma turn_can_call pc s w pc' log s' w' :
  Forall sink_defined sinks → worker_turn limit sinks pc s w = Some (pc', log, s', w') → can_call pc → can_call pc'.
Proof.
  intros Hd Ht Hc. destruct pc as [|rs es [|x ks]|[|r rs]|]; cbn [worker_turn] in Ht; [| | | | |done];
    repeat case_match; simplify_eq/=; try done. by inversion Hc.
Qed.

Definition worker_step (i : nat) d : option (Drain W) := drain_step limit sinks (DWorker i) d.

(** The workers end, and whatever held before and every step keeps holds then. *)
Lemma workers_end (I : Drain W → Prop) d :
  parse_defined → Forall sink_defined sinks → Forall can_call (dr_workers d) →
  (∀ i d d', I d → worker_step i d = Some d' → I d') → I d →
  inevitable worker_step (λ d, Forall ended (dr_workers d) ∧ I d) d.
Proof.
  intros Hp Hs Hc HI Hd.
  apply (inevitable_measure _ lex_lt
           (λ d, (size (pending (dr_store d)), sum_list_with turns_left (dr_workers d)))
           (λ d, Forall can_call (dr_workers d) ∧ I d)); [apply lex_lt_wf| |done].
  clear d Hc Hd. intros d [Hc Hd].
  destruct (decide (Forall ended (dr_workers d))) as [He|He]; [by left|]. right. split.
  - apply not_Forall_Exists in He; [|apply _].
    apply Exists_exists in He as (pc & (i & Hi)%list_elem_of_lookup & Hne).
    destruct (turn_taken pc (dr_store d) (dr_world d) Hp) as [[[[pc' log] s'] w'] Ht];
      [by eapply Forall_lookup_1|done|].
    exists i. eexists. unfold worker_step. simpl. rewrite Hi. simpl. by rewrite Ht.
  - intros i d' Hst. split; [split|]; [|by eapply HI|].
    + unfold worker_step in Hst. simpl in Hst.
      apply bind_Some in Hst as (pc & Hi & ([[[pc' log] s'] w'] & Ht & [= <-])%bind_Some). simpl.
      apply Forall_insert; [done|]. eapply turn_can_call; [done..|]. by eapply Forall_lookup_1.
    + unfold worker_step in Hst. simpl in Hst.
      apply bind_Some in Hst as (pc & Hi & ([[[pc' log] s'] w'] & Ht & [= <-])%bind_Some).
      cbn [dr_store dr_workers]. apply lex_lt_alt. pose proof (sum_insert turns_left i pc pc' _ Hi).
      destruct (turn_decreases _ _ _ _ _ _ _ Ht) as [?|[? ?]]; [by left|].
      destruct (decide (size (pending s') < size (pending (dr_store d)))); [by left|]. right. split; lia.
Qed.
End ends.


(** ** On a store of two rows *)

Module DemoWorkers.
#[local] Existing Instances DemoBackfill.text listing_sink.

(** Two workers that take a row each. *)
Definition labels : list drain_label :=
  DWorker <$> [0; 1; 0; 1; 1; 1; 0; 0; 1; 1; 0; 0].
Definition between : list drain_label := [DWorker 0; DWorker 1; DUpdate "t" "1" "{}"; DWorker 1].

Definition reached (ls : list drain_label) : Drain (list ChangeEvent) :=
  default (fork_workers 2 two_rows []) (run_labels (drain_step 1 [0]) ls (fork_workers 2 two_rows [])).
End DemoWorkers.

Lemma two_rows_keys : keys_ok two_rows.
Proof.
  unfold keys_ok, two_rows. cbn [backfill_rows]. apply map_Forall_insert_2; [done|].
  by apply map_Forall_singleton.
Qed.



(** ** A worker that outlives its process *)

(** The next process on the store: [connect] on the slot it resumes puts the
    claims back, and [spawn_worker] starts a worker. *)
Definition restart_over {W} (d : Drain W) : Drain W :=
  {| dr_store := (store_reset_stale_claims (dr_store d)).2; dr_world := dr_world d;
     dr_workers := dr_workers d ++ [WClaim]; dr_log := dr_log d |}.

(** Nothing ends a worker when the process that forked it dies.  When it is
    still handing over its batch, the claims that the next process puts back
    are its own, and the sinks get its rows twice. *)
Example outlived_worker_delivers_twice :
  let step := drain_step (H := DemoBackfill.text) (H1 := listing_sink) 200 [0] in
  (d ← run_labels step [DWorker 0] (fork_workers 1 one_row []);
   d' ← run_labels step (DWorker <$> [1; 1; 1; 1; 0]) (restart_over d);
   Some (status ("docs", "1") (dr_store d'), delivered ("docs", "1") (dr_log d')))
  = Some (None, [0; 0]).
Proof. vm_compute. reflexivity. Qed.
