(* ===== verification/Numerals.v ===== *)
(** * Decimal numerals

    [std::to_string] and [std::stoi], [std::stoul], [std::atoi], as the program
    uses them on either side of a command line: what one writes the other
    reads back. *)

From S2P Require Import Prelude Libpq Http MilvusSink Entry.
From stdpp Require Import pretty.
From Stdlib Require Import Lia.

Definition is_digit (a : ascii) : bool :=
  let d := (byte_val a - 48)%Z in (0 <=? d)%Z && (d <=? 9)%Z.

Lemma pretty_digit n : (n < 10)%N → is_digit (pretty_N_char n) = true ∧ (byte_val (pretty_N_char n) - 48 = Z.of_N n)%Z.
Proof.
  intros Hn. assert (n ∈ [0;1;2;3;4;5;6;7;8;9]%N) as Hin.
  { destruct n as [|p]; [set_solver|]. do 4 (destruct p as [p|p|]; try set_solver; try lia). }
  rewrite !elem_of_cons, elem_of_nil in Hin.
  by repeat destruct Hin as [->|Hin].
Qed.

Lemma atoi_pretty_go n s : atoi_digits 0 (pretty_N_go n s) = atoi_digits (Z.of_N n) s.
Proof.
  revert s. induction (N.lt_wf_0 n) as [n _ IH]. intros s. destruct (decide (n = 0)%N) as [->|Hn].
  { by rewrite pretty_N_go_0. }
  rewrite pretty_N_go_step by lia. rewrite IH by (apply N.div_lt; lia).
  destruct (pretty_digit (n `mod` 10)%N) as [Hd Hv]; [by apply N.mod_lt|]. unfold is_digit in Hd.
  cbn [atoi_digits]. rewrite Hd, Hv. f_equal.
  rewrite N2Z.inj_div, N2Z.inj_mod. pose proof (Z.div_mod (Z.of_N n) 10). lia.
Qed.

Lemma pretty_go_digit n s : (0 < n)%N → ∃ a r, pretty_N_go n s = String a r ∧ is_digit a = true.
Proof.
  revert s. induction (N.lt_wf_0 n) as [n _ IH]. intros s Hn. rewrite pretty_N_go_step by done.
  destruct (decide (n `div` 10 = 0)%N) as [E|E].
  - rewrite E, pretty_N_go_0. eexists _, _. split; [done|]. apply pretty_digit. by apply N.mod_lt.
  - apply IH; [apply N.div_lt; lia|]. by destruct (n `div` 10)%N.
Qed.

(** The numeral of a positive number: digits, and their value. *)
Lemma pretty_pos_digits p : ∃ a r, pretty (Z.pos p) = String a r ∧ is_digit a = true ∧
  atoi_digits 0 (String a r) = Z.pos p.
Proof.
  change (pretty (Z.pos p)) with (pretty_N_go (N.pos p) "").
  destruct (pretty_go_digit (N.pos p) "") as (a & r & E & Ha); [done|].
  exists a, r. split_and!; [done..|]. by rewrite <- E, atoi_pretty_go.
Qed.

Lemma digit_first a r :
  is_digit a = true → skip_spaces (String a r) = String a r ∧ atoi (String a r) = atoi_digits 0 (String a r) ∧
  match String a r with String "-" x | String "+" x => x | _ => String a r end = String a r.
Proof. destruct a as [[] [] [] [] [] [] [] []]; try done; vm_compute; by intros. Qed.

Lemma digit_cond {A} a (x y : A) : is_digit a = true →
  (if (0 <=? byte_val a - 48)%Z && (byte_val a - 48 <=? 9)%Z then x else y) = x.
Proof. unfold is_digit. cbv zeta. by intros ->. Qed.

(** Every number written in decimal is read back. *)
Lemma stoi_pretty z : (- 2 ^ 31 ≤ z < 2 ^ 31)%Z → stoi (pretty z) = Ret z.
Proof.
  intros Hz. destruct z as [|p|p]; [done| |].
  - destruct (pretty_pos_digits p) as (a & r & E & Ha & Hv). rewrite E.
    destruct (digit_first a r Ha) as (Hs & Hat & Hd). unfold stoi. rewrite Hs. cbv zeta. rewrite Hd.
    rewrite digit_cond, Hat, Hv by done. by rewrite (proj2 (Z.leb_le _ _)), (proj2 (Z.ltb_lt _ _)) by lia.
  - change (pretty (Z.neg p)) with (String "-" (pretty (Z.pos p))).
    destruct (pretty_pos_digits p) as (a & r & E & Ha & Hv). rewrite E. unfold stoi. cbn [skip_spaces is_space].
    change (is_space "-") with false. cbv iota zeta. rewrite digit_cond by done.
    unfold atoi. cbn [skip_spaces]. change (is_space "-") with false. cbv iota. rewrite Hv.
    by rewrite (proj2 (Z.leb_le _ _)), (proj2 (Z.ltb_lt _ _)) by lia.
Qed.

(** [std::stoul] wraps a negative one. *)
Lemma stoul_pretty z : (Z.abs z < 2 ^ 64)%Z → stoul (pretty z) = Ret (u64 z).
Proof.
  intros Hz. destruct z as [|p|p]; [done| |].
  - destruct (pretty_pos_digits p) as (a & r & E & Ha & Hv). rewrite E.
    destruct (digit_first a r Ha) as (Hs & Hat & Hd). unfold stoul. rewrite Hs. cbv zeta. rewrite Hd.
    rewrite digit_cond, Hat, Hv by done. by rewrite (proj2 (Z.ltb_lt _ _)) by lia.
  - change (pretty (Z.neg p)) with (String "-" (pretty (Z.pos p))).
    destruct (pretty_pos_digits p) as (a & r & E & Ha & Hv). rewrite E. unfold stoul. cbn [skip_spaces].
    change (is_space "-") with false. cbv iota zeta. rewrite digit_cond by done.
    unfold atoi. cbn [skip_spaces]. change (is_space "-") with false. cbv iota. rewrite Hv.
    by rewrite (proj2 (Z.ltb_lt _ _)) by lia.
Qed.
