(* ===== verification/BenchStats.v ===== *)
(** * [src/bench/bench_stats.hpp], [benchmarking_sink.hpp], [resource_sampler.cpp]: what the benchmarks measure

    The lag statistics with their percentiles, the sink that measures on the
    way to the real one, and the sampler of the process's resources.  The
    percentiles are computed in double precision: the product is rounded to 53
    significant bits, to nearest and ties to even. *)

From S2P Require Import Prelude Event Config Dispatcher.
From stdpp Require Import sorting.
From Stdlib Require Import Lia.

(** ** Double precision *)

(** The double nearest to a whole number that is not negative. *)
Definition round53 (x : Z) : Z :=
  let s := Z.max 0 (Z.log2 x - 52) in
  let f := Z.shiftr x s in
  let r := (x - Z.shiftl f s)%Z in
  let up := (Z.shiftl 1 s <? 2 * r)%Z || ((Z.shiftl 1 s =? 2 * r)%Z && Z.odd f && (0 <? s)%Z) in
  Z.shiftl (if up then f + 1 else f) s.

Section round53.
#[local] Open Scope Z_scope.

(** With the shift written as a division. *)
Lemma round53_alt x s :
  0 ≤ x → s = Z.max 0 (Z.log2 x - 52) →
  round53 x = (x / 2 ^ s + (if (2 ^ s <? 2 * (x mod 2 ^ s)) ||
                               ((2 ^ s =? 2 * (x mod 2 ^ s)) && Z.odd (x / 2 ^ s) && (0 <? s)) then 1 else 0)) * 2 ^ s.
Proof.
  intros Hx ->. unfold round53. set (s := Z.max 0 _). assert (0 ≤ s) as Hs by (unfold s; lia).
  rewrite !Z.shiftr_div_pow2, !Z.shiftl_mul_pow2, Z.mul_1_l by done.
  pose proof (Z.pow_pos_nonneg 2 s ltac:(lia) Hs) as Hp.
  replace (x - x / 2 ^ s * 2 ^ s) with (x mod 2 ^ s) by (rewrite Z.mod_eq; lia).
  destruct (_ || _); lia.
Qed.

(** Whole numbers below [2^53] are doubles. *)
Lemma round53_exact x : 0 ≤ x < 2 ^ 53 → round53 x = x.
Proof.
  intros Hx. assert (Z.max 0 (Z.log2 x - 52) = 0) as Es.
  { destruct (decide (x = 0)) as [->|]; [done|]. assert (Z.log2 x < 53) by (apply Z.log2_lt_pow2; lia). lia. }
  rewrite (round53_alt x 0) by (rewrite ?Es; lia). rewrite Z.pow_0_r, Z.mod_1_r, Z.div_1_r. simpl. lia.
Qed.

(** So are these times a power of two. *)
Lemma round53_scaled n k : 0 ≤ n → 0 ≤ k < 2 ^ 53 → round53 (2 ^ n * k) = 2 ^ n * k.
Proof.
  intros Hn Hk0. destruct (decide (k = 0)) as [->|Hk]; [by rewrite Z.mul_0_r|].
  assert (Z.log2 (2 ^ n * k) = n + Z.log2 k) as El by (rewrite Z.mul_comm, Z.log2_mul_pow2 by lia; lia).
  pose proof (Z.log2_nonneg k) as Hl0. assert (Z.log2 k < 53) as Hl by (apply Z.log2_lt_pow2; lia).
  set (s := Z.max 0 (n + Z.log2 k - 52)). pose proof (Z.pow_nonneg 2 n ltac:(lia)) as Hpn.
  rewrite (round53_alt _ s) by (rewrite ?El; nia).
  assert (2 ^ n * k = (2 ^ (n - s) * k) * 2 ^ s) as E.
  { replace n with ((n - s) + s) at 1 by lia. rewrite Z.pow_add_r by lia. lia. }
  pose proof (Z.pow_pos_nonneg 2 s ltac:(lia) ltac:(lia)) as Hp.
  rewrite E, Z.div_mul, Z.mod_mul by lia. rewrite Z.mul_0_r.
  rewrite (proj2 (Z.ltb_ge _ _)), (proj2 (Z.eqb_neq _ _)) by lia. simpl. lia.
Qed.

Lemma round53_bounds x :
  0 < x → 2 ^ Z.log2 x ≤ round53 x ≤ 2 ^ (Z.log2 x + 1).
Proof.
  intros Hx. pose proof (Z.log2_spec x Hx) as [Hlo Hhi]. rewrite <- Z.add_1_r in Hhi.
  pose proof (Z.log2_nonneg x) as Hl0.
  destruct (decide (Z.log2 x ≤ 52)).
  { rewrite round53_exact; [lia|]. split; [lia|]. eapply Z.lt_le_trans; [done|]. apply Z.pow_le_mono_r; lia. }
  set (s := Z.log2 x - 52). rewrite (round53_alt x s) by lia.
  assert (2 ^ Z.log2 x = 2 ^ 52 * 2 ^ s) as E by (rewrite <- Z.pow_add_r by lia; f_equal; lia).
  rewrite Z.pow_add_r, E in * by lia. pose proof (Z.pow_pos_nonneg 2 s ltac:(lia) ltac:(lia)) as Hp.
  assert (2 ^ 52 ≤ x / 2 ^ s) as H1 by (apply Z.div_le_lower_bound; lia).
  assert (x / 2 ^ s < 2 ^ 53) as H2 by (apply Z.div_lt_upper_bound; [lia|]; change (2 ^ 53) with (2 ^ 52 * 2 ^ 1); lia).
  change (2 ^ 53) with (2 ^ 52 * 2) in H2.
  destruct (_ || _); nia.
Qed.

Lemma round53_mono x y : 0 ≤ x ≤ y → round53 x ≤ round53 y.
Proof.
  intros Hxy. destruct (decide (x = 0)) as [->|].
  { rewrite (round53_exact 0) by lia. destruct (decide (y = 0)) as [->|]; [done|].
    pose proof (round53_bounds y ltac:(lia)). pose proof (Z.pow_pos_nonneg 2 (Z.log2 y) ltac:(lia) (Z.log2_nonneg y)). lia. }
  destruct (decide (Z.log2 x = Z.log2 y)) as [El|Hne].
  - set (s := Z.max 0 (Z.log2 x - 52)).
    rewrite (round53_alt x s), (round53_alt y s) by (unfold s; rewrite ?El; lia).
    pose proof (Z.pow_pos_nonneg 2 s ltac:(lia) ltac:(lia)) as Hp. apply Z.mul_le_mono_nonneg_r; [lia|].
    pose proof (Z.div_le_mono x y (2 ^ s) Hp ltac:(lia)) as Hq.
    destruct (decide (x / 2 ^ s = y / 2 ^ s)) as [Eq|Hneq].
    + rewrite Eq. assert (x mod 2 ^ s ≤ y mod 2 ^ s) as Hr by (rewrite !Z.mod_eq by lia; rewrite Eq; lia).
      destruct (Z.ltb_spec (2 ^ s) (2 * (x mod 2 ^ s))), (Z.ltb_spec (2 ^ s) (2 * (y mod 2 ^ s))); simpl; try lia.
      * repeat case_match; lia.
      * destruct (Z.eqb_spec (2 ^ s) (2 * (x mod 2 ^ s))), (Z.eqb_spec (2 ^ s) (2 * (y mod 2 ^ s))); simpl; try lia.
        all: repeat case_match; lia.
    + repeat case_match; lia.
  - assert (Z.log2 x + 1 ≤ Z.log2 y) as Hl by (pose proof (Z.log2_le_mono x y ltac:(lia)); lia).
    pose proof (round53_bounds x ltac:(lia)). pose proof (round53_bounds y ltac:(lia)).
    pose proof (Z.pow_le_mono_r 2 _ _ ltac:(lia) Hl). lia.
Qed.
End round53.

(** ** [LagStats] *)

(** The samples, in the order they were recorded. *)
Record LagStats := { samples_ : list Z }.

Definition record (lag_us : Z) (st : LagStats) : LagStats := {| samples_ := samples_ st ++ [lag_us] |}.
Definition count (st : LagStats) : nat := length (samples_ st).
Definition lag_summary_count_warning (st : LagStats) : bool := (count st =? 0)%nat.

(** The average is the quotient of the sum and the number of samples. *)
Record Summary := {
  min_us : Z; max_us : Z; avg_us : Z * Z; p50_us : Z; p95_us : Z; p99_us : Z;
}.

(** [std::accumulate] in [int64_t]. *)
Fixpoint accumulate (acc : Z) (l : list Z) : outcome Z :=
  match l with
  | [] => Ret acc
  | x :: l => if ((- 2 ^ 63 <=? acc + x) && (acc + x <? 2 ^ 63))%Z then accumulate (acc + x) l
              else UB "signed overflow"
  end.

(** [static_cast<size_t>(p * (sorted.size() - 1))], where [p] is the double
    [m / 2^53]. *)
Definition pct_index (m : Z) (size : nat) : Z :=
  Z.shiftr (round53 (m * round53 (Z.of_nat size - 1))) 53.

Definition pct (sorted : list Z) (m : Z) : outcome Z :=
  match sorted !! Z.to_nat (pct_index m (length sorted)) with
  | Some v => Ret v
  | None => UB "vector index"
  end.

(** The doubles nearest to 0.50, 0.95 and 0.99, times [2^53]. *)
Definition d50 : Z := 4503599627370496.
Definition d95 : Z := 8556839292003942.
Definition d99 : Z := 8917127262193582.

Definition no_summary : Summary :=
  {| min_us := 0; max_us := 0; avg_us := (0, 1)%Z; p50_us := 0; p95_us := 0; p99_us := 0 |}.

Definition summarize (st : LagStats) : outcome Summary :=
  match merge_sort Z.le (samples_ st) with
  | [] => Ret no_summary
  | (lo :: _) as sorted =>
      sum ← accumulate 0 sorted;
      p50 ← pct sorted d50;
      p95 ← pct sorted d95;
      p99 ← pct sorted d99;
      Ret {| min_us := lo; max_us := List.last sorted lo; avg_us := (sum, Z.of_nat (length sorted));
             p50_us := p50; p95_us := p95; p99_us := p99 |}
  end.

Section percentiles.
#[local] Open Scope Z_scope.

Lemma pct_index_mono m m' n :
  0 ≤ m ≤ m' → (0 < n)%nat → Z.of_nat n ≤ 2 ^ 53 → 0 ≤ pct_index m n ≤ pct_index m' n.
Proof.
  intros Hm Hn Hb. unfold pct_index. rewrite (round53_exact (Z.of_nat n - 1)) by lia.
  rewrite !Z.shiftr_div_pow2 by lia. set (k := Z.of_nat n - 1). assert (0 ≤ k) by lia.
  assert (0 ≤ round53 (m * k)) as H0.
  { rewrite <- (round53_exact 0) by lia. apply round53_mono. nia. }
  split; [by apply Z.div_pos|]. apply Z.div_le_mono; [lia|]. apply round53_mono. nia.
Qed.

(** A fraction of the way is on the way: the rounding never leads past the
    last sample. *)
Lemma pct_index_range m n :
  0 ≤ m ≤ 2 ^ 53 → (0 < n)%nat → Z.of_nat n ≤ 2 ^ 53 → 0 ≤ pct_index m n < Z.of_nat n.
Proof.
  intros Hm Hn Hb. pose proof (pct_index_mono m (2 ^ 53) n Hm Hn Hb) as [H0 Hle].
  enough (pct_index (2 ^ 53) n = Z.of_nat n - 1) by lia.
  unfold pct_index. rewrite (round53_exact (Z.of_nat n - 1)) by lia.
  assert (0 ≤ Z.of_nat n - 1 < 2 ^ 53) as Hk0 by lia. set (k := Z.of_nat n - 1) in *. clearbody k.
  rewrite Z.shiftr_div_pow2 by lia.
  rewrite round53_scaled by lia. by rewrite Z.mul_comm, Z.div_mul.
Qed.
End percentiles.

Section summary.
#[local] Open Scope Z_scope.

Lemma accumulate_ok B l acc :
  Forall (λ x, Z.abs x ≤ B) l → Z.abs acc + Z.of_nat (length l) * B < 2 ^ 63 →
  accumulate acc l = Ret (acc + foldr Z.add 0 l).
Proof.
  revert acc. induction l as [|x l IH]; intros acc Hl Ha; simpl; [f_equal; lia|].
  apply Forall_cons in Hl as [Hx Hl]. cbn [length] in Ha.
  rewrite Nat2Z.inj_succ, Z.mul_succ_l in Ha.
  pose proof (Z.mul_nonneg_nonneg (Z.of_nat (length l)) B ltac:(lia) ltac:(lia)).
  rewrite (proj2 (Z.leb_le _ _)), (proj2 (Z.ltb_lt _ _)) by lia. simpl. rewrite IH; [f_equal; lia|done|lia].
Qed.

Lemma sorted_lookup l i j x y :
  StronglySorted Z.le l → l !! i = Some x → l !! j = Some y → (i ≤ j)%nat → x ≤ y.
Proof.
  intros Hs Hi Hj Hij. revert i j Hi Hj Hij. induction Hs as [|z l Hs IH Hz]; intros i j Hi Hj Hij; [done|].
  destruct i as [|i].
  - simpl in Hi. injection Hi as ->. destruct j as [|j]; simpl in Hj; [injection Hj as ->; lia|].
    by eapply (Forall_lookup_1 _ _ _ _ Hz).
  - destruct j as [|j]; [lia|]. apply (IH i j); [done..|lia].
Qed.

Lemma last_lookup (l : list Z) x : List.last (x :: l) x = default x ((x :: l) !! length l).
Proof.
  revert x. induction l as [|y l IH]; intros x; [done|].
  change (List.last (x :: y :: l) x) with (List.last (y :: l) x).
  assert (∀ d d' : Z, List.last (y :: l) d = List.last (y :: l) d') as Hd.
  { clear. revert y. induction l as [|z l IH]; intros y d d'; [done|]. exact (IH z d d'). }
  rewrite (Hd x y), IH. change ((x :: y :: l) !! length (y :: l)) with ((y :: l) !! length l).
  destruct (lookup_lt_is_Some_2 (y :: l) (length l)) as [v Hv]; [simpl; lia|]. by rewrite Hv.
Qed.

Lemma pct_ok sorted m :
  0 ≤ m ≤ 2 ^ 53 → sorted ≠ [] → Z.of_nat (length sorted) ≤ 2 ^ 53 →
  ∃ v, pct sorted m = Ret v ∧ sorted !! Z.to_nat (pct_index m (length sorted)) = Some v.
Proof.
  intros Hm Hne Hb. destruct sorted as [|x l] eqn:E; [done|]. rewrite <- E in *.
  assert (0 < length sorted)%nat as Hn by (rewrite E; simpl; lia).
  pose proof (pct_index_range m _ Hm Hn Hb) as Hr. unfold pct.
  destruct (lookup_lt_is_Some_2 sorted (Z.to_nat (pct_index m (length sorted)))) as [v Hv]; [lia|].
  exists v. by rewrite Hv.
Qed.
End summary.

(** The statistics of a benchmark are in order.  For any samples whose sum
    fits the integer type, and fewer than [2^53] of them, [summarize] returns
    (no percentile's index, computed in floating point, is out of range); the
    smallest sample, the 50th, 95th and 99th percentile and the largest sample
    are samples, in this order; no sample is below the first or above the last;
    and the average is taken of the sum of all samples. *)
Theorem summarize_ordered (st : LagStats) (B : Z) :
  samples_ st ≠ [] → (Z.of_nat (length (samples_ st)) ≤ 2 ^ 53)%Z →
  Forall (λ x, (Z.abs x ≤ B)%Z) (samples_ st) → (Z.of_nat (length (samples_ st)) * B < 2 ^ 63)%Z →
  ∃ r, summarize st = Ret r ∧
    (min_us r ≤ p50_us r ≤ p95_us r ∧ p95_us r ≤ p99_us r ≤ max_us r)%Z ∧
    [min_us r; p50_us r; p95_us r; p99_us r; max_us r] ⊆ samples_ st ∧
    (∀ x, x ∈ samples_ st → (min_us r ≤ x ≤ max_us r)%Z) ∧
    avg_us r = (foldr Z.add 0%Z (samples_ st), Z.of_nat (length (samples_ st))).
Proof.
  intros Hne Hlen HB Hsum. set (sorted := merge_sort Z.le (samples_ st)).
  assert (sorted ≡ₚ samples_ st) as Hp by apply merge_sort_Permutation.
  assert (StronglySorted Z.le sorted) as Hs by (apply StronglySorted_merge_sort; apply _).
  rewrite <- (Permutation_length Hp) in Hlen, Hsum. rewrite <- Hp in HB.
  assert (sorted ≠ []) as Hsne by (intros E; rewrite E in Hp; by apply Permutation_nil_l in Hp).
  assert (0 < length sorted) as Hn by (by destruct sorted; simpl; [|lia]).
  destruct (pct_ok sorted d50) as (v50 & E50 & L50); [by unfold d50; lia|done|done|].
  destruct (pct_ok sorted d95) as (v95 & E95 & L95); [by unfold d95; lia|done|done|].
  destruct (pct_ok sorted d99) as (v99 & E99 & L99); [by unfold d99; lia|done|done|].
  pose proof (pct_index_mono d50 d95 (length sorted)) as M1. pose proof (pct_index_mono d95 d99 (length sorted)) as M2.
  unfold d50, d95, d99 in M1, M2. specialize (M1 ltac:(lia) Hn Hlen). specialize (M2 ltac:(lia) Hn Hlen).
  fold d50 d95 d99 in M1, M2.
  pose proof (pct_index_range d99 (length sorted) ltac:(unfold d99; lia) Hn Hlen) as R99.
  unfold summarize. fold sorted. destruct sorted as [|lo l] eqn:El; [done|]. rewrite <- El in *.
  rewrite (accumulate_ok B) by (done || (simpl; lia)). simpl. rewrite E50, E95, E99. simpl. eexists. split; [done|].
  assert (sorted !! 0 = Some lo) as L0 by by rewrite El.
  assert (∃ hi, List.last sorted lo = hi ∧ sorted !! (length sorted - 1) = Some hi) as (hi & Ehi & Lhi).
  { rewrite El, last_lookup. simpl. rewrite Nat.sub_0_r.
    destruct (lookup_lt_is_Some_2 (lo :: l) (length l)) as [v Hv]; [simpl; lia|]. exists v. by rewrite Hv. }
  rewrite Ehi. simpl. split_and!.
  - by eapply (sorted_lookup sorted 0); [done..|lia].
  - by eapply (sorted_lookup sorted); [done|exact L50|exact L95|lia].
  - by eapply (sorted_lookup sorted); [done|exact L95|exact L99|lia].
  - by eapply (sorted_lookup sorted); [done|exact L99|exact Lhi|lia].
  - intros x Hx. rewrite <- Hp. repeat (apply elem_of_cons in Hx as [->|Hx]; [by eapply list_elem_of_lookup_2|]).
    by apply elem_of_nil in Hx.
  - intros x. rewrite <- Hp. intros (i & Hi)%list_elem_of_lookup. pose proof (lookup_lt_Some _ _ _ Hi).
    split; [by eapply (sorted_lookup sorted 0 i); [done..|lia]|by eapply (sorted_lookup sorted i); [done|exact Hi|exact Lhi|lia]].
  - f_equal; [|by rewrite (Permutation_length Hp)]. clear -Hp. induction Hp; simpl; lia.
Qed.

Lemma summarize_ordered_witness :
  ∃ r, summarize {| samples_ := [30; 10; 20; 40]%Z |} = Ret r ∧
    (min_us r ≤ p50_us r ≤ p95_us r ∧ p95_us r ≤ p99_us r ≤ max_us r)%Z ∧
    [min_us r; p50_us r; p95_us r; p99_us r; max_us r] ⊆ [30; 10; 20; 40]%Z ∧
    (∀ x, x ∈ [30; 10; 20; 40]%Z → (min_us r ≤ x ≤ max_us r)%Z) ∧
    avg_us r = (100, 4)%Z ∧ p50_us r = 20%Z.
Proof.
  destruct (summarize_ordered {| samples_ := [30; 10; 20; 40]%Z |} 40) as (r & Hr & H1 & H2 & H3 & H4);
    [done|simpl; lia|simpl; repeat constructor; lia|simpl; lia|].
  exists r. split_and!; [done|apply H1..|apply H2|apply H3|apply H4|]. vm_compute in Hr. by injection Hr as <-.
Defined.

(** ** [BenchmarkingSink] *)

Section benchmarking.
Context {W : Type} (inner_call : ChangeEvent → prog W unit).

(** Readings of the two clocks: the system's in microseconds since the epoch,
    and the steady one. *)
Context (system_now steady_now : nat → Z).

(** A time point is its count; [reads] is how often a clock was read. *)
Record BenchmarkingSink := {
  stats_ : LagStats;
  processed_count_ : Z;
  first_event_time_ : Z;
  last_event_time_ : Z;
  reads : nat;
  inner_ : W;
}.

Definition take_lag (event : ChangeEvent) : prog BenchmarkingSink unit := λ b,
  let now_us := system_now (reads b) in
  let next st := {| stats_ := st; processed_count_ := processed_count_ b; first_event_time_ := first_event_time_ b;
                    last_event_time_ := last_event_time_ b; reads := S (reads b); inner_ := inner_ b |} in
  if (0 <? commit_timestamp event)%Z then
    let lag_us := (now_us - i64 (commit_timestamp event))%Z in
    if ((- 2 ^ 63 <=? lag_us) && (lag_us <? 2 ^ 63))%Z then (Ret tt, next (record lag_us (stats_ b)))
    else (UB "signed overflow", b)
  else (Ret tt, next (stats_ b)).

Definition take_times : prog BenchmarkingSink unit := λ b,
  let '(first, n) := if (first_event_time_ b =? 0)%Z then (steady_now (reads b), S (reads b))
                     else (first_event_time_ b, reads b) in
  (Ret tt, {| stats_ := stats_ b; processed_count_ := processed_count_ b; first_event_time_ := first;
              last_event_time_ := steady_now n; reads := S n; inner_ := inner_ b |}).

Definition call_inner (event : ChangeEvent) : prog BenchmarkingSink unit := λ b,
  let '(r, w) := inner_call event (inner_ b) in
  (r, {| stats_ := stats_ b; processed_count_ := processed_count_ b; first_event_time_ := first_event_time_ b;
         last_event_time_ := last_event_time_ b; reads := reads b; inner_ := w |}).

Definition count_processed : prog BenchmarkingSink unit := λ b,
  (Ret tt, {| stats_ := stats_ b; processed_count_ := u64 (processed_count_ b + 1);
              first_event_time_ := first_event_time_ b; last_event_time_ := last_event_time_ b;
              reads := reads b; inner_ := inner_ b |}).

Definition bench_call (event : ChangeEvent) : prog BenchmarkingSink unit :=
  take_lag event ;; take_times ;; call_inner event ;; count_processed.

(** [call_batch] of the class it derives from: the events one by one. *)
Definition bench_call_batch (events : list ChangeEvent) : prog BenchmarkingSink unit := for_each events bench_call.

(** One event that gets through: counted once, sampled once if it has a
    commit time; if the inner sink throws it is sampled and not counted. *)
Lemma bench_call_inv event b r b' :
  bench_call event b = (r, b') → (∀ e, r ≠ UB e) → r ≠ OutOfFuel →
  ∃ w, inner_call event (inner_ b) = (r, w) ∧ inner_ b' = w ∧
    processed_count_ b' = match r with Ret _ => u64 (processed_count_ b + 1) | _ => processed_count_ b end ∧
    length (samples_ (stats_ b')) =
      length (samples_ (stats_ b)) + (if (0 <? commit_timestamp event)%Z then 1 else 0).
Proof.
  unfold bench_call, take_lag, take_times, call_inner, count_processed, mbind, prog_bind. intros E Hub Hfu.
  destruct (0 <? commit_timestamp event)%Z; repeat match type of E with context [if ?c then _ else _] => destruct c end;
    simplify_eq; try (by destruct (Hub _ eq_refl)); cbn [inner_ stats_ processed_count_ first_event_time_] in E;
    repeat match type of E with context [if ?c then _ else _] => destruct c end;
    cbn [inner_ stats_ processed_count_ first_event_time_] in E;
    destruct (inner_call event (inner_ b)) as [[[]|e|e|] w]; simplify_eq/=; try (by destruct (Hub _ eq_refl));
    try done; eexists; split_and!; try done; rewrite ?length_app; simpl; lia.
Qed.

(** The benchmark sees a batch as single events; when the dispatcher retries
    a batch that failed half way, the events that had got through are counted
    and sampled again. *)
Lemma bench_batch_counts events b b' :
  bench_call_batch events b = (Ret tt, b') →
  for_each events inner_call (inner_ b) = (Ret tt, inner_ b') ∧
  u64 (processed_count_ b') = u64 (processed_count_ b + Z.of_nat (length events)).
Proof.
  unfold bench_call_batch. revert b. induction events as [|e events IH]; intros b; cbn [for_each].
  - intros [= <-]. simpl. by rewrite Z.add_0_r.
  - unfold mbind at 1, prog_bind at 1. destruct (bench_call e b) as [[[]| | |] b1] eqn:E; try done.
    intros [Hf Hc]%IH. apply bench_call_inv in E as (w & Hi & <- & Hp & _); [|done..].
    unfold mbind, prog_bind. rewrite Hi. split; [done|]. rewrite Hc, Hp.
    unfold u64. rewrite Zplus_mod_idemp_l. cbn [length]. f_equal. lia.
Qed.
End benchmarking.
Arguments BenchmarkingSink _ : clear implicits.

(** ** [ResourceSampler] *)

(** [getrusage], when it succeeds: user and system time in seconds and
    microseconds. *)
Definition process_cpu_time_micros (usage : option ((Z * Z) * (Z * Z))) : Z :=
  match usage with
  | None => -1
  | Some ((us, uu), (ss, su)) => (us * 1000000 + uu) + (ss * 1000000 + su)
  end%Z.

(** [iss >> kb] on the rest of the first line of [/proc/self/status] that
    starts with [VmRSS:]. *)
Fixpoint current_rss_kb (parse_long : string → Z) (lines : list string) : Z :=
  match lines with
  | [] => -1
  | line :: lines =>
      if String.prefix "VmRSS:" line then parse_long (String.substring 6 (String.length line - 6) line)
      else current_rss_kb parse_long lines
  end.

Record ResourceSample := { at_us : Z; cpu_time_micros : Z; rss_kb : Z }.

(** Arithmetic in double precision. *)
Class Doubles := {
  double : Type;
  d_of : Z → double;
  d_add : double → double → double;
  d_mul : double → double → double;
  d_div : double → double → double;
  d_max : double → double → double;
}.

Section sampler.
Context `{Doubles}.

Record Report := { avg_cpu_percent : double; peak_cpu_percent : double; avg_rss_kb : Z; peak_rss_kb : Z }.

(** The loop of [summarize]: what it has summed up so far. *)
Record Sums := { rss_sum : Z; peak_rss : Z; cpu_pct_sum : double; cpu_pct_n : nat; peak_cpu : double }.

Definition add_sample (prev : option ResourceSample) (s : ResourceSample) (a : Sums) : Sums :=
  let rss := (rss_sum a + rss_kb s)%Z in
  let peak := Z.max (peak_rss a) (rss_kb s) in
  match prev with
  | Some p =>
      let wall_delta_us := (at_us s - at_us p)%Z in
      let cpu_delta_us := (cpu_time_micros s - cpu_time_micros p)%Z in
      if (0 <? wall_delta_us)%Z then
        let pct := d_mul (d_div (d_of cpu_delta_us) (d_of wall_delta_us)) (d_of 100) in
        {| rss_sum := rss; peak_rss := peak; cpu_pct_sum := d_add (cpu_pct_sum a) pct;
           cpu_pct_n := S (cpu_pct_n a); peak_cpu := d_max (peak_cpu a) pct |}
      else {| rss_sum := rss; peak_rss := peak; cpu_pct_sum := cpu_pct_sum a; cpu_pct_n := cpu_pct_n a;
              peak_cpu := peak_cpu a |}
  | None => {| rss_sum := rss; peak_rss := peak; cpu_pct_sum := cpu_pct_sum a; cpu_pct_n := cpu_pct_n a;
               peak_cpu := peak_cpu a |}
  end.

Fixpoint add_samples (prev : option ResourceSample) (l : list ResourceSample) (a : Sums) : Sums :=
  match l with
  | [] => a
  | s :: l => add_samples (Some s) l (add_sample prev s a)
  end.

Definition summarize_resources (l : list ResourceSample) : Report :=
  if (length l <? 2)%nat
  then {| avg_cpu_percent := d_of 0; peak_cpu_percent := d_of 0; avg_rss_kb := 0; peak_rss_kb := 0 |}
  else
    let a := add_samples None l {| rss_sum := 0; peak_rss := 0; cpu_pct_sum := d_of 0; cpu_pct_n := 0; peak_cpu := d_of 0 |} in
    {| avg_cpu_percent := if (0 <? cpu_pct_n a)%nat then d_div (cpu_pct_sum a) (d_of (Z.of_nat (cpu_pct_n a))) else d_of 0;
       peak_cpu_percent := peak_cpu a;
       avg_rss_kb := Z.quot (rss_sum a) (Z.of_nat (length l));
       peak_rss_kb := peak_rss a |}.

Lemma add_samples_rss prev l a :
  rss_sum (add_samples prev l a) = (rss_sum a + foldr Z.add 0 (rss_kb <$> l))%Z ∧
  peak_rss (add_samples prev l a) = foldr Z.max (peak_rss a) (rss_kb <$> l).
Proof.
  revert prev a. induction l as [|s l IH]; intros prev a; [simpl; split; [lia|done]|].
  cbn [add_samples fmap list_fmap foldr]. destruct (IH (Some s) (add_sample prev s a)) as [-> ->].
  assert (rss_sum (add_sample prev s a) = rss_sum a + rss_kb s ∧
          peak_rss (add_sample prev s a) = Z.max (peak_rss a) (rss_kb s))%Z as [-> ->]
    by (unfold add_sample; destruct prev; [case_match|]; done).
  split; [lia|]. clear. induction (rss_kb <$> l) as [|x xs IHx]; simpl; lia.
Qed.

(** The memory figures: the average lies below the peak, which is the largest
    sample. *)
Lemma rss_report l :
  2 ≤ length l → Forall (λ s, (0 ≤ rss_kb s)%Z) l →
  let r := summarize_resources l in
  (0 ≤ avg_rss_kb r ≤ peak_rss_kb r)%Z ∧ (∀ s, s ∈ l → (rss_kb s ≤ peak_rss_kb r)%Z).
Proof.
  intros Hl Hp. unfold summarize_resources. rewrite (proj2 (Nat.ltb_ge _ _)) by lia. cbn [avg_rss_kb peak_rss_kb].
  set (a0 := Build_Sums _ _ _ _ _). destruct (add_samples_rss None l a0) as [-> ->]. simpl. clear a0.
  assert (0 ≤ foldr Z.add 0 (rss_kb <$> l) ≤ Z.of_nat (length l) * foldr Z.max 0 (rss_kb <$> l) ∧
    0 ≤ foldr Z.max 0 (rss_kb <$> l) ∧
    ∀ s, s ∈ l → rss_kb s ≤ foldr Z.max 0 (rss_kb <$> l))%Z as (Hs & Hm & Hb).
  { clear Hl. induction Hp as [|s l Hs Hp IH]; [simpl; split_and!; [lia..|by intros ? ?%elem_of_nil]|].
    destruct IH as (IH1 & IH2 & IH3). cbn [fmap list_fmap foldr length].
    rewrite Nat2Z.inj_succ, Z.mul_succ_l. split_and!; [lia|nia|lia|].
    intros s' [->|Hin]%elem_of_cons; [lia|]. specialize (IH3 s' Hin). lia. }
  split; [|done]. rewrite Z.quot_div_nonneg by lia. split; [apply Z.div_pos; lia|].
  apply Z.div_le_upper_bound; lia.
Qed.
End sampler.
