(* ===== verification/Bench.v ===== *)
(** * [src/bench/]: the benchmark programs

    Command lines, the SQL and the rows they seed, the live load that runs
    beside a backfill, the timers that end a run, and the percentiles of the
    latency benchmarks.  Printing the reports is not modelled. *)

From S2P Require Import Prelude Event Config Dispatcher Libpq Http MilvusSink BackfillStore Backfill ReplicationSource Progress Workers BenchStats Entry.
From stdpp Require Import pretty sorting.
From Stdlib Require Import Lia.

(** ** Command lines *)

(** The loop [for (int i = 2; i < argc; ++i)] of the programs: [with_value] is
    what an option that has a following argument does with it, [flag] what an
    argument does by itself; an argument that neither takes is passed over. *)
Fixpoint arg_loop {O} (with_value : string → string → O → option (outcome O)) (flag : string → O → O)
    (args : list string) (o : O) : outcome O :=
  match args with
  | [] => Ret o
  | [arg] => Ret (flag arg o)
  | arg :: ((value :: rest') as rest) =>
      match with_value arg value o with
      | Some r => o ← r; arg_loop with_value flag rest' o
      | None => arg_loop with_value flag rest (flag arg o)
      end
  end.

Module BackfillBench.
Record Options := {
  config_path : string;
  rows : Z;
  live_load : bool;
  live_load_rows : Z;
  live_load_batch : Z;
}.

Definition defaults (path : string) : Options :=
  {| config_path := path; rows := 1000; live_load := false; live_load_rows := 200; live_load_batch := 10 |}.

Definition with_value (arg value : string) (o : Options) : option (outcome Options) :=
  if bool_decide (arg = "--rows") then
    Some (n ← stoi value;
          Ret {| config_path := config_path o; rows := n; live_load := live_load o;
                 live_load_rows := live_load_rows o; live_load_batch := live_load_batch o |})
  else if bool_decide (arg = "--live-load") then None
  else if bool_decide (arg = "--live-load-rows") then
    Some (n ← stoi value;
          Ret {| config_path := config_path o; rows := rows o; live_load := live_load o;
                 live_load_rows := n; live_load_batch := live_load_batch o |})
  else if bool_decide (arg = "--live-load-batch") then
    Some (n ← stoi value;
          Ret {| config_path := config_path o; rows := rows o; live_load := live_load o;
                 live_load_rows := live_load_rows o; live_load_batch := n |})
  else None.

Definition flag (arg : string) (o : Options) : Options :=
  if bool_decide (arg = "--live-load") then
    {| config_path := config_path o; rows := rows o; live_load := true;
       live_load_rows := live_load_rows o; live_load_batch := live_load_batch o |}
  else o.

Definition parse_args (argv : list string) : outcome Options :=
  match argv with
  | _ :: path :: args => arg_loop with_value flag args (defaults path)
  | _ => Ret (defaults "")
  end.

(** ** SQL *)

Definition sample_text (i : Z) : string :=
  "This is a representative sample sentence used to benchmark embedding latency for the walkrie CDC pipeline. "
  +:+ pretty i.

Definition sql_type_for (cm : ColumnMapping) : string :=
  if bool_decide (role cm = "id") then "int primary key" else "text".

Definition sql_value_for (cm : ColumnMapping) (i : Z) : string :=
  if bool_decide (role cm = "id") then pretty i else sample_text i.

Definition create_sql (tm : TableMapping) : string :=
  "CREATE TABLE " +:+ source_table tm +:+ " (" +:+
  Prelude.join ", " ((λ cm, source_column cm +:+ " " +:+ sql_type_for cm) <$> tm_columns tm) +:+ ")".

Definition seed_sql (tm : TableMapping) (n : Z) : string :=
  "INSERT INTO " +:+ source_table tm +:+ " SELECT " +:+
  Prelude.join ", " ((λ cm, if bool_decide (role cm = "id") then "i"
                            else "'" +:+ sample_text 0 +:+ "' || i") <$> tm_columns tm) +:+
  " FROM generate_series(1, " +:+ pretty n +:+ ") AS i".

(** One row of an [INSERT]. *)
Definition row_values (tm : TableMapping) (id : Z) : string :=
  "(" +:+ Prelude.join ", " ((λ cm, if bool_decide (role cm = "id") then pretty id
                                    else "'" +:+ sql_value_for cm id +:+ "'") <$> tm_columns tm) +:+ ")".

Definition insert_sql (tm : TableMapping) (ids : list Z) : string :=
  "INSERT INTO " +:+ source_table tm +:+ " (" +:+ Prelude.join ", " (source_column <$> tm_columns tm) +:+
  ") VALUES " +:+ Prelude.join ", " (row_values tm <$> ids).

Section server.
Context {Srv : Type} `{Libpq Srv}.

(** [Some code] is [std::exit]. *)
Definition exec_or_die (sql : string) : prog Srv (option Z) :=
  r ← PQexec sql;
  mret match r with CommandOk | TuplesOk _ => None | _ => Some 1%Z end.

Definition exec_ignore_errors (sql : string) : prog Srv unit := PQexec sql ;; mret tt.

(** The start of [main]: a fresh table, no slot, and the rows to be dumped. *)
Definition reset_table (tm : TableMapping) (publication slot_name : string) (n : Z) : prog Srv (option Z) :=
  exists_res ← PQexec ("SELECT to_regclass('" +:+ source_table tm +:+ "')");
  let table_exists :=
    match exists_res with TuplesOk ((Some _ :: _) :: _) => true | _ => false end in
  died ← (if table_exists : bool then exec_or_die ("TRUNCATE TABLE " +:+ source_table tm)
          else
            d ← exec_or_die (create_sql tm);
            match d with
            | Some code => mret (Some code)
            | None => exec_ignore_errors ("CREATE PUBLICATION " +:+ publication +:+ " FOR TABLE " +:+ source_table tm) ;;
                      mret None
            end);
  match died with
  | Some code => mret (Some code)
  | None =>
      exec_ignore_errors ("SELECT pg_drop_replication_slot('" +:+ slot_name +:+ "')") ;;
      exec_or_die (seed_sql tm n)
  end.

(** ** The live load *)

(** The ids of one batch. *)
Definition batch_ids (start_id count batch_size base : Z) : list Z :=
  let this_batch := Z.min batch_size (count - base) in
  seqZ (start_id + base) this_batch.

(** An [int] that the program computed. *)
Definition int_fits (z : Z) : bool := ((- 2 ^ 31 <=? z) && (z <? 2 ^ 31))%Z.

(** The loop of [run_live_load]; [stop] is [g_stop] as the turns find it.  The
    ids and the counter are of type [int]. *)
Fixpoint live_load_loop (fuel : nat) (tm : TableMapping) (start_id count batch_size base : Z) (stop : nat → bool)
    (turn : nat) : prog Srv unit :=
  if (base <? count)%Z && negb (stop turn) then
    match fuel with
    | O => lift OutOfFuel
    | S fuel =>
        let ids := batch_ids start_id count batch_size base in
        if forallb int_fits ids && int_fits (base + batch_size) then
          PQexec (insert_sql tm ids) ;;
          live_load_loop fuel tm start_id count batch_size (base + batch_size) stop (S turn)
        else lift (UB "signed overflow")
    end
  else mret tt.

(** Either way the caller learns that the load is done. *)
Definition run_live_load (fuel : nat) (conninfo : string) (tm : TableMapping) (start_id count batch_size : Z)
    (stop : nat → bool) : prog Srv unit :=
  err ← PQconnectdb conninfo;
  match err with
  | Some _ => mret tt
  | None => live_load_loop fuel tm start_id count batch_size 0 stop 0
  end.
End server.

(** ** The end of a run *)

Record CompletionCtx := { worker_pid : Z; worker_done : bool; ready_since : Z }.

(** The timer's callback: [reaped] is whether [waitpid] finds the worker ended,
    [now] the steady clock in milliseconds; whether it breaks the loop. *)
Definition on_completion_timer (reaped live_load_done : bool) (now : Z) (c : CompletionCtx) : CompletionCtx * bool :=
  let done := if negb (worker_done c) && (0 <? worker_pid c)%Z then reaped else worker_done c in
  if done && live_load_done then
    if (ready_since c =? 0)%Z then
      ({| worker_pid := worker_pid c; worker_done := done; ready_since := now |}, false)
    else ({| worker_pid := worker_pid c; worker_done := done; ready_since := ready_since c |},
          (1000 <? now - ready_since c)%Z)
  else ({| worker_pid := worker_pid c; worker_done := done; ready_since := 0 |}, false).

(** Returning from [main] destroys the live-load thread's object: a thread
    that was not joined ends the program in [std::terminate]. *)
Definition return_from_main (thread_joinable : bool) (code : Z) : outcome Z :=
  if thread_joinable then Throw "std::terminate" else Ret code.

(** From the start of the live load to the end of [main]. *)
Definition main_end (o : Options) (streaming_ok registered_ok : bool) : outcome Z :=
  let live_load_thread := live_load o in
  if negb streaming_ok then return_from_main live_load_thread 1
  else if negb registered_ok then return_from_main live_load_thread 1
  else return_from_main false 0.            (* joined after the event loop *)
End BackfillBench.

Section live_load.
Import BackfillBench.
Context {Srv : Type} `{Libpq Srv}.

Definition insert_batch (tm : TableMapping) (ids : list Z) : prog Srv unit := PQexec (insert_sql tm ids) ;; mret tt.

Lemma PQexec_returns sql (s : Srv) : PQexec sql s = (Ret (pq_exec (c_str sql) s).1, (pq_exec (c_str sql) s).2).
Proof. unfold PQexec, lib. by destruct (pq_exec _ s). Qed.

Lemma insert_batch_returns tm ids (s : Srv) :
  insert_batch tm ids s = (Ret tt, (pq_exec (c_str (insert_sql tm ids)) s).2).
Proof. unfold insert_batch. by rewrite (prog_bind_ret _ _ _ _ _ (PQexec_returns _ s)). Qed.

Lemma batch_split start_id base count batch_size :
  (1 ≤ batch_size)%Z → (base < count)%Z →
  seqZ (start_id + base) (count - base) =
  batch_ids start_id count batch_size base ++
  seqZ (start_id + (base + batch_size)) (count - (base + batch_size)).
Proof.
  intros Hb Hc. unfold batch_ids. destruct (decide (base + batch_size ≤ count)%Z).
  - rewrite Z.min_l by lia. replace (count - base)%Z with (batch_size + (count - (base + batch_size)))%Z by lia.
    rewrite seqZ_app by lia. do 2 f_equal. lia.
  - rewrite Z.min_r by lia. rewrite (seqZ_nil (start_id + (base + batch_size))) by lia. by rewrite app_nil_r.
Qed.

Lemma int_fits_ok z : (- 2 ^ 31 ≤ z < 2 ^ 31)%Z → int_fits z = true.
Proof. intros [??]. unfold int_fits. by rewrite (proj2 (Z.leb_le _ _)), (proj2 (Z.ltb_lt _ _)). Qed.

Lemma batch_ids_fit start_id count batch_size base :
  (0 ≤ base)%Z → (- 2 ^ 31 ≤ start_id)%Z → (start_id + count ≤ 2 ^ 31)%Z →
  ∀ i, List.In i (batch_ids start_id count batch_size base) → int_fits i = true.
Proof. intros H0 Hlo Hhi i Hi%list_elem_of_In%elem_of_seqZ. apply int_fits_ok. lia. Qed.

Lemma live_load_loop_ok fuel tm start_id count batch_size base turn :
  (1 ≤ batch_size)%Z → (0 ≤ base)%Z → (count + batch_size < 2 ^ 31)%Z →
  (- 2 ^ 31 ≤ start_id)%Z → (start_id + count ≤ 2 ^ 31)%Z → (count - base ≤ Z.of_nat fuel)%Z →
  ∃ batches, (∀ s : Srv, live_load_loop fuel tm start_id count batch_size base (λ _, false) turn s
                         = for_each batches (insert_batch tm) s) ∧
    concat batches = seqZ (start_id + base) (count - base) ∧
    Forall (λ ids, ids ≠ [] ∧ (Z.of_nat (length ids) ≤ batch_size)%Z) batches.
Proof.
  intros Hb H0 Hc Hlo Hhi. revert base turn H0. induction fuel as [|fuel IH]; intros base turn H0 Hf; cbn [live_load_loop].
  all: rewrite andb_true_r; destruct (Z.ltb_spec base count) as [Hlt|Hge];
    try (exists []; split_and!; [done|by rewrite seqZ_nil by lia|constructor]).
  { lia. }
  destruct (IH (base + batch_size)%Z (S turn)) as (batches & Hl & Hcat & Hall); [lia..|].
  exists (batch_ids start_id count batch_size base :: batches). split_and!.
  - intros s. cbn [for_each]. rewrite (prog_bind_ret _ _ _ _ _ (insert_batch_returns _ _ s)). cbv zeta.
    rewrite (proj2 (forallb_forall _ _)), int_fits_ok by first [lia|by apply batch_ids_fit].
    rewrite andb_true_r. rewrite (prog_bind_ret _ _ _ _ _ (PQexec_returns _ s)). apply Hl.
  - cbn [concat]. rewrite Hcat. by rewrite <- batch_split.
  - constructor; [|done]. unfold batch_ids. rewrite length_seqZ. split; [|lia].
    intros E. apply (f_equal length) in E. rewrite length_seqZ in E. simpl in E. lia.
Qed.
End live_load.

(** The live load of the backfill benchmark inserts each of its rows once.
    With a batch size of at least one (and ids that fit an [int]) the loop ends, after at most as many
    turns as there are rows; what it sends to the server is a sequence of
    [INSERT] statements whose rows have the ids from the first one on, in order
    and without a gap or a repetition, at least one row and at most a batch per
    statement, whether or not statements fail. *)
Theorem live_load_inserts_all {Srv} `{Libpq Srv} (tm : TableMapping) (start_id count batch_size : Z) :
  (1 ≤ batch_size)%Z → (0 ≤ count)%Z → (count + batch_size < 2 ^ 31)%Z →
  (- 2 ^ 31 ≤ start_id)%Z → (start_id + count ≤ 2 ^ 31)%Z →
  ∃ batches,
    (∀ s : Srv, BackfillBench.live_load_loop (Z.to_nat count) tm start_id count batch_size 0 (λ _, false) 0 s
                = for_each batches (insert_batch tm) s) ∧
    concat batches = seqZ start_id count ∧
    Forall (λ ids, ids ≠ [] ∧ (Z.of_nat (length ids) ≤ batch_size)%Z) batches.
Proof.
  intros Hb H0 Hc Hlo Hhi. destruct (live_load_loop_ok (Srv := Srv) (Z.to_nat count) tm start_id count batch_size 0 0)
    as (batches & ? & Hcat & ?); [lia..|].
  exists batches. rewrite Z.add_0_r, Z.sub_0_r in Hcat. done.
Qed.

Lemma live_load_inserts_all_witness :
  ∃ batches,
    (∀ s : unit, BackfillBench.live_load_loop (H := DemoBackfill.server) 25 empty_mapping 1001 25 10 0 (λ _, false) 0 s
                 = for_each batches (insert_batch (H := DemoBackfill.server) empty_mapping) s) ∧
    concat batches = seqZ 1001 25 ∧
    Forall (λ ids, ids ≠ [] ∧ (Z.of_nat (length ids) ≤ 10)%Z) batches.
Proof. apply (live_load_inserts_all (H := DemoBackfill.server) empty_mapping 1001 25 10); lia. Defined.

(** With [--live-load-batch 0] it never ends: it sends an [INSERT] without rows
    for ever. *)
Lemma live_load_zero_batch {Srv} `{Libpq Srv} fuel tm start_id count turn (s : Srv) :
  (0 < count)%Z →
  (BackfillBench.live_load_loop fuel tm start_id count 0 0 (λ _, false) turn s).1 = OutOfFuel.
Proof.
  intros Hc. revert s turn. induction fuel as [|fuel IH]; intros s turn; cbn [BackfillBench.live_load_loop];
    rewrite (proj2 (Z.ltb_lt _ _)) by lia; cbn [andb negb]; [done|].
  cbv zeta. unfold BackfillBench.batch_ids. rewrite Z.min_l, seqZ_nil by lia. change (BackfillBench.int_fits (0 + 0)) with true. cbn [forallb andb].
  rewrite (prog_bind_ret _ _ _ _ _ (PQexec_returns _ s)). apply IH.
Qed.

(** A failure to start streaming while the live load runs ends the benchmark
    in [std::terminate], not with its error code. *)
Example failed_start_terminates :
  BackfillBench.main_end
    {| BackfillBench.config_path := "c"; BackfillBench.rows := 10; BackfillBench.live_load := true;
       BackfillBench.live_load_rows := 10; BackfillBench.live_load_batch := 10 |} false true
  = Throw "std::terminate".
Proof. reflexivity. Qed.

Section completion.
Import BackfillBench.

(** The loop is broken only when the worker has ended, the live load is done
    and both have been so for more than a second. *)
Lemma completion_break_safe reaped live_load_done now c c' :
  on_completion_timer reaped live_load_done now c = (c', true) →
  worker_done c' = true ∧ live_load_done = true ∧ ready_since c ≠ 0%Z ∧ (1000 < now - ready_since c)%Z.
Proof.
  unfold on_completion_timer. set (w := if negb _ && _ then _ else _).
  destruct w; destruct live_load_done; simpl; try done.
  destruct (Z.eqb_spec (ready_since c) 0); [done|]. intros [= <- E]. split_and!; [done..|]. by apply Z.ltb_lt.
Qed.

(** Whether the timer breaks the loop at one of its ticks: what [waitpid] and
    the live load say then, and the time. *)
Fixpoint breaks (c : CompletionCtx) (ticks : list (bool * bool * Z)) : bool :=
  match ticks with
  | [] => false
  | (reaped, live_load_done, now) :: ticks =>
      let '(c, b) := on_completion_timer reaped live_load_done now c in b || breaks c ticks
  end.

(** And it is: once both are done the timer breaks the loop at the first tick
    more than a second after the one that saw it first. *)
Lemma completion_break_live c ticks t1 t :
  worker_done c = true → ready_since c = 0%Z → t1 ≠ 0%Z → (1000 < t - t1)%Z →
  breaks c (pair (false, true) <$> t1 :: ticks ++ [t]) = true.
Proof.
  intros Hw Hr Ht1 Ht. csimpl. unfold on_completion_timer at 1. rewrite Hw, Hr. simpl.
  set (c1 := Build_CompletionCtx _ _ _).
  assert (worker_done c1 = true ∧ ready_since c1 = t1) as Hc1 by done. clearbody c1. revert c1 Hc1.
  assert (∀ c1 n, worker_done c1 = true ∧ ready_since c1 = t1 →
    ∃ c2, on_completion_timer false true n c1 = (c2, (1000 <? n - t1)%Z) ∧ worker_done c2 = true ∧ ready_since c2 = t1)
    as Htick.
  { intros c1 n [Hw1 Hr1]. unfold on_completion_timer. rewrite Hw1, Hr1. simpl.
    rewrite (proj2 (Z.eqb_neq _ _)) by done. by eexists. }
  induction ticks as [|n ticks IH]; intros c1 Hc1; csimpl.
  - destruct (Htick c1 t Hc1) as (c2 & -> & _). rewrite (proj2 (Z.ltb_lt _ _)) by done. done.
  - destruct (Htick c1 n Hc1) as (c2 & -> & Hc2). rewrite IH by done. apply orb_true_r.
Qed.
End completion.

(** ** [walkrie_bench.cpp] *)

Module WalkrieBench.
Record Options := { config_path : string; target_count : Z; duration_secs : Z }.

Definition with_value (arg value : string) (o : Options) : option (outcome Options) :=
  if bool_decide (arg = "--target-count") then
    Some (n ← stoul value;
          Ret {| config_path := config_path o; target_count := n; duration_secs := duration_secs o |})
  else if bool_decide (arg = "--duration-secs") then
    Some (n ← stoi value;
          Ret {| config_path := config_path o; target_count := target_count o; duration_secs := n |})
  else None.

(** [inr] is the exit code after the usage line. *)
Definition parse_args (argv : list string) : outcome (Options + Z) :=
  match argv with
  | _ :: path :: args =>
      o ← arg_loop with_value (λ _ o, o) args {| config_path := path; target_count := 0; duration_secs := 0 |};
      Ret (inl o)
  | _ => Ret (inr 1%Z)
  end.

(** The timer that is only there when there is a target: whether it breaks the
    loop. *)
Definition on_completion_check {W} (o : Options) (sink : BenchmarkingSink W) : bool :=
  (0 <? target_count o)%Z && (target_count o <=? processed_count_ sink)%Z.

(** The sources: the fields that are copied from the configuration. *)
Definition source_config (s : SourceConfig) : PgReplicationConfig :=
  {| rc_host := src_host s; rc_port := src_port s; rc_dbname := src_dbname s; rc_user := src_user s;
     rc_password := src_password s; slot_name := src_slot_name s; publication_name := src_publication s;
     rc_tls := default_tls; rc_backfill := false; backfill_table_mappings := []; backfill_store_path := "" |}.
End WalkrieBench.

(** The benchmarks leave out the source's TLS settings: a source that asks for
    an encrypted connection is benchmarked over whatever the server offers. *)
Example bench_ignores_tls :
  to_conninfo (WalkrieBench.source_config
    {| src_host := "db"; src_port := "5432"; src_dbname := "d"; src_user := "u"; src_password := "";
       src_slot_name := "s"; src_publication := "p"; src_backfill := false;
       src_tls := {| sslmode := "verify-full"; sslrootcert := "/ca"; sslcert := ""; sslkey := ""; sslpassword := "" |} |})
  = "host=db port=5432 dbname=d user=u replication=database".
Proof. reflexivity. Qed.

(** ** The latency benchmarks *)

(** [embedding_bench.cpp] and [pg_upsert_bench.cpp]: the latencies of the calls
    that succeeded, in any ordered type of durations. *)
Section latency.
Context {D : Type} (R : relation D) `{∀ x y, Decision (R x y)}.

Record Latency := { lat_min : D; lat_p50 : D; lat_p95 : D; lat_max : D }.

(** [static_cast<size_t>(latencies_ms.size() * 0.95)] *)
Definition p95_index (n : nat) : nat := Z.to_nat (Z.shiftr (round53 (round53 (Z.of_nat n) * d95)) 53).

(** [None]: nothing to report, exit code 1. *)
Definition latency_report (latencies : list D) : option (outcome Latency) :=
  let sorted := merge_sort R latencies in
  match sorted with
  | [] => None
  | lo :: _ =>
      Some match sorted !! (length sorted / 2), sorted !! p95_index (length sorted) with
           | Some p50, Some p95 =>
               Ret {| lat_min := lo; lat_p50 := p50; lat_p95 := p95; lat_max := List.last sorted lo |}
           | _, _ => UB "vector index"
           end
  end.

(** [embedding_bench_batch.cpp]: the totals of the rounds, sorted; [front()] and
    [back()] of an empty vector are undefined. *)
Definition round_summary (totals : list D) : outcome (D * D) :=
  match merge_sort R totals with
  | [] => UB "front() of an empty vector"
  | (lo :: _) as sorted => Ret (lo, List.last sorted lo)
  end.
End latency.

(** The index of the 95th percentile is in range. *)
Lemma p95_index_range n : (0 < n)%nat → (Z.of_nat n ≤ 2 ^ 48)%Z → (p95_index n < n)%nat.
Proof.
  intros Hn Hb. unfold p95_index. rewrite (round53_exact (Z.of_nat n)) by lia.
  pose proof (round53_mono (Z.of_nat n * d95) (2 ^ 48 * (31 * Z.of_nat n))) as Hm.
  rewrite round53_scaled in Hm by lia. unfold d95 in *. specialize (Hm ltac:(lia)).
  pose proof (round53_mono 0 (Z.of_nat n * 8556839292003942) ltac:(lia)) as H0. rewrite (round53_exact 0) in H0 by lia.
  rewrite Z.shiftr_div_pow2 by lia.
  assert (round53 (Z.of_nat n * 8556839292003942) / 2 ^ 53 < Z.of_nat n)%Z; [|lia].
  apply Z.div_lt_upper_bound; lia.
Qed.

(** So the latency benchmarks have a report whenever a call succeeded. *)
Lemma latency_report_ok {D} (R : relation D) `{∀ x y, Decision (R x y)} (l : list D) :
  l ≠ [] → (Z.of_nat (length l) ≤ 2 ^ 48)%Z → ∃ r, latency_report R l = Some (Ret r) ∧ lat_p95 r ∈ l ∧ lat_p50 r ∈ l.
Proof.
  intros Hne Hb. unfold latency_report. pose proof (merge_sort_Permutation R l) as Hp.
  rewrite <- (Permutation_length Hp) in Hb.
  assert (merge_sort R l ≠ []) as Hs by (intros E; rewrite E in Hp; by apply Permutation_nil_l in Hp).
  destruct (merge_sort R l) as [|lo s] eqn:E; [done|]. rewrite <- E in *.
  assert (0 < length (merge_sort R l)) as Hn by (rewrite E; simpl; lia).
  destruct (lookup_lt_is_Some_2 (merge_sort R l) (length (merge_sort R l) / 2)) as [v50 H50];
    [apply Nat.div_lt; lia|].
  destruct (lookup_lt_is_Some_2 (merge_sort R l) (p95_index (length (merge_sort R l)))) as [v95 H95];
    [by apply p95_index_range|].
  rewrite H50, H95. eexists. split; [done|]. simpl. rewrite <- Hp. split; by eapply list_elem_of_lookup_2.
Qed.

(** ** [embed_backfill_batched_bench.cpp] *)

Module BatchedBench.
Record Options := { config_path : string; rows : Z; workers : Z; batch_size : Z }.

Definition with_value (arg value : string) (o : Options) : option (outcome Options) :=
  if bool_decide (arg = "--rows") then
    Some (n ← stoi value;
          Ret {| config_path := config_path o; rows := n; workers := workers o; batch_size := batch_size o |})
  else if bool_decide (arg = "--workers") then
    Some (n ← stoi value;
          Ret {| config_path := config_path o; rows := rows o; workers := n; batch_size := batch_size o |})
  else if bool_decide (arg = "--batch-size") then
    Some (n ← stoi value;
          Ret {| config_path := config_path o; rows := rows o; workers := workers o; batch_size := n |})
  else None.

Definition parse_args (argv : list string) : outcome Options :=
  match argv with
  | _ :: path :: args =>
      arg_loop with_value (λ _ o, o) args {| config_path := path; rows := 200; workers := 1; batch_size := 20 |}
  | _ => Ret {| config_path := ""; rows := 200; workers := 1; batch_size := 20 |}
  end.

Fixpoint json_escape (s : string) : string :=
  match s with
  | EmptyString => EmptyString
  | String c s =>
      if bool_decide (c = "034"%char ∨ c = "\"%char) then String "\" (String c (json_escape s))
      else String c (json_escape s)
  end.

Definition row_id (i : Z) : string := "bench-" +:+ pretty i.

Definition row_json (tm : TableMapping) (i : Z) : string :=
  "{" +:+ quote +:+ id_source_ tm +:+ quote +:+ ":" +:+ quote +:+ json_escape (row_id i) +:+ quote +:+ "," +:+
  quote +:+ embed_source_ tm +:+ quote +:+ ":" +:+ quote +:+ json_escape (BackfillBench.sample_text i) +:+ quote +:+ "}".

(** A fresh store with the rows, marked as dumped. *)
Definition seed_store (store_path : string) (tm : TableMapping) (n : Z) : prog Store unit :=
  store_open store_path ;;
  for_each (seqZ 0 n) (λ i, insert_row (source_table tm) (row_id i) (row_json tm i)) ;;
  mark_table_dumped (source_table tm) n.

(** What the parent makes of its children: their exit codes, [None] for one
    that could not be forked. *)
Fixpoint failures (exits : list (option Z)) : nat :=
  match exits with
  | [] => 0
  | Some code :: exits => (if bool_decide (code ≠ 0%Z) then 1 else 0) + failures exits
  | None :: exits => failures exits
  end.

Definition exit_code (exits : list (option Z)) : Z := if (0 <? failures exits)%nat then 1 else 0.

(** The exit code of a worker at its end. *)
Definition worker_exit (pc : DrainPc) : option Z :=
  match pc with
  | WExit None _ => Some 0%Z
  | WExit (Some _) _ => Some 1%Z
  | _ => None
  end.
End BatchedBench.

Section batched.
Import BatchedBench.

(** A JSON reader inside a string: the characters up to the closing quote, and
    what follows it; control characters must be escaped. *)
Fixpoint read_json_string (s : string) : option (string * string) :=
  match s with
  | EmptyString => None
  | String c s =>
      if bool_decide (c = "034"%char) then Some ("", s)
      else if bool_decide (c = "\"%char) then
        match s with
        | String c' s =>
            if bool_decide (c' = "034"%char ∨ c' = "\"%char)
            then '(t, rest) ← read_json_string s; Some (String c' t, rest) else None
        | EmptyString => None
        end
      else if (byte_val c <? 32)%Z then None
      else '(t, rest) ← read_json_string s; Some (String c t, rest)
  end.

(** [json_escape] is undone by it. *)
Lemma json_escape_read s rest :
  Forall (λ c, (32 ≤ byte_val c)%Z) (bytes_of_string s) →
  read_json_string (json_escape s +:+ quote +:+ rest) = Some (s, rest).
Proof.
  induction s as [|c s IH]; intros Hs; [done|]. apply Forall_cons in Hs as [Hc Hs]. simpl json_escape.
  case_bool_decide as E.
  - simpl. rewrite bool_decide_true by done. by rewrite IH.
  - simpl. rewrite !bool_decide_false by tauto. rewrite (proj2 (Z.ltb_ge _ _)) by done. by rewrite IH.
Qed.

Lemma insert_row_status t i d s s' :
  faults s = [] → insert_row t i d s = (Ret tt, s') →
  faults s' = [] ∧ (keys_ok s → keys_ok s') ∧ is_Some (status (key t i) s') ∧
  (∀ k, status k s' = if decide (k = key t i) then Some (default "pending" (status k s)) else status k s).
Proof.
  intros Hf. unfold insert_row, statement. rewrite Hf. unfold status.
  destruct (backfill_rows s !! key t i) as [r|] eqn:E; intros [= <-]; simpl.
  - rewrite E. split_and!; [done|done|by eexists|]. intros k. case_decide as Ek; [|done]. subst k. by rewrite E.
  - rewrite lookup_insert_eq. split_and!; [done| |by eexists|].
    + intros Hko k r Hk. simpl in Hk. apply lookup_insert_Some in Hk as [[<- _]|[_ Hk]]; [|by eapply Hko].
      unfold key. simpl. by rewrite !c_str_idemp.
    + intros k. case_decide as Ek; [subst k; by rewrite lookup_insert_eq, E|by rewrite lookup_insert_ne].
Qed.

Lemma insert_rows_status tm l s :
  faults s = [] → keys_ok s → (∀ k, status k s = None ∨ status k s = Some "pending") →
  ∃ s', for_each l (λ i, insert_row (source_table tm) (row_id i) (row_json tm i)) s = (Ret tt, s') ∧
    faults s' = [] ∧ keys_ok s' ∧ (∀ k, status k s = Some "pending" → status k s' = Some "pending") ∧
    (∀ i, i ∈ l → status (key (source_table tm) (row_id i)) s' = Some "pending").
Proof.
  revert s. induction l as [|i l IH]; intros s Hf Hko Hst; cbn [for_each].
  - exists s. split_and!; [done..|]. by intros ? ?%elem_of_nil.
  - destruct (insert_row (source_table tm) (row_id i) (row_json tm i) s) as [r s1] eqn:E.
    assert (r = Ret tt) as ->.
    { revert E. unfold insert_row, statement. rewrite Hf. cbv zeta. by intros [= <- _]. }
    pose proof (insert_row_status _ _ _ _ _ Hf E) as (Hf1 & Hko1 & _ & Hk1).
    destruct (IH s1 Hf1 (Hko1 Hko)) as (s' & Hr & Hf' & Hko' & Hkeep & Hin).
    { intros k. rewrite Hk1. case_decide; [|apply Hst]. right. by destruct (Hst k) as [->| ->]. }
    assert (∀ k, status k s = Some "pending" → status k s' = Some "pending") as Hkeep'.
    { intros k Hk. apply Hkeep. rewrite Hk1, Hk. by case_decide. }
    exists s'. rewrite (prog_bind_ret _ _ _ _ _ E). split_and!; [done..|].
    intros j [->|Hj]%elem_of_cons; [|by apply Hin]. apply Hkeep. rewrite Hk1, decide_True by done.
    by destruct (Hst (key (source_table tm) (row_id i))) as [->| ->].
Qed.

Lemma seed_store_status path tm n :
  ∃ s, seed_store path tm n DemoBackfill.empty_store = (Ret tt, s) ∧ keys_ok s ∧
    ∀ i, (0 ≤ i < n)%Z → status (key (source_table tm) (row_id i)) s = Some "pending".
Proof.
  destruct (insert_rows_status tm (seqZ 0 n) DemoBackfill.empty_store) as (s & Hr & Hf & Hko & _ & Hin);
    [done|by intros k r|by left|].
  eexists. split_and!.
  - unfold seed_store. rewrite (prog_bind_ret (store_open path) _ _ tt DemoBackfill.empty_store) by done.
    rewrite (prog_bind_ret _ _ _ _ _ Hr). unfold mark_table_dumped, statement. by rewrite Hf.
  - exact Hko.
  - intros i Hi. apply (Hin i). by apply elem_of_seqZ.
Qed.
End batched.



(** Workers that could not be forked are not counted as failures: with none of
    them forked nothing is drained, and the benchmark ends with success. *)
Example no_worker_is_success : BatchedBench.exit_code [None; None] = 0%Z.
Proof. reflexivity. Qed.
