(* ===== verification/BenchMain.v ===== *)
(** * [src/bench/]: the [main] functions of the benchmarks

    What the programs do around the parts of the other benchmark files: they
    check the configuration, start the sources, call the embedding provider or
    the server a number of times, and end with an exit code.  An exception that
    [main] does not catch is a result [Throw] of the program.  The clock is
    given as the time each measured call takes; the printed reports are the
    values that are printed. *)

From S2P Require Import Prelude Event Config EmbeddingProvider Libpq Http MilvusSink BackfillStore Backfill ReplicationSource Pipeline Entry Numerals BenchStats Bench.
From stdpp Require Import pretty sorting.
From Stdlib Require Import Lia.

(** [vector::reserve] or the constructor of a vector with [static_cast<size_t>]
    of an [int]: a negative number is beyond [max_size()]. *)
Definition vector_size (n : Z) : outcome nat :=
  if (n <? 0)%Z then Throw "std::length_error" else Ret (Z.to_nat n).

(** The body of a loop [for (int i = 0; i < n; ++i)]. *)
Definition times {W} (n : nat) (body : nat → prog W unit) : prog W unit := for_each (seq 0 n) body.

(** A loop whose turns may add to a vector. *)
Fixpoint collect {W A} (n i : nat) (body : nat → prog W (option A)) : prog W (list A) :=
  match n with
  | O => mret []
  | S n => a ← body i; l ← collect n (S i) body; mret (match a with Some a => a :: l | None => l end)
  end.

Section configured.
Context (to_float : Z → Z) (parse_file : string → outcome toml_table).

(** [try { cfg = load_config(path); } catch (...) { return 1; }] *)
Definition load_or_exit (path : string) : outcome (Z + AppConfig) :=
  match load_config to_float parse_file path with
  | Ret cfg => Ret (inr cfg)
  | Throw _ => Ret (inl 1%Z)
  | UB e => UB e
  | OutOfFuel => OutOfFuel
  end.

(** ** [embedding_bench.cpp] *)

Section embedding.
Context {P : Type} `{EmbeddingProvider P} (make_provider : EmbeddingConfig → outcome P).
Context {D : Type} (R : relation D) `{∀ x y, Decision (R x y)} (elapsed : nat → D).

Definition calls_value (arg value : string) (n : Z) : option (outcome Z) :=
  if bool_decide (arg = "--calls") then Some (stoi value) else None.

Definition sample_text : string :=
  "This is a representative sample sentence used to benchmark embedding latency for the walkrie CDC pipeline.".

(** A call that gives an empty vector is left out. *)
Definition embed_call (i : nat) : prog P (option D) :=
  v ← embed sample_text; mret (if bool_decide (v = []) then None else Some (elapsed i)).

(** Of the call on: the exit code and the figures. *)
Definition embed_calls (num_calls : Z) : prog P (Z * option Latency) :=
  n ← lift (vector_size num_calls);
  latencies_ms ← collect n 0 embed_call;
  match latency_report R latencies_ms with
  | None => mret (1%Z, None)
  | Some r => r ← lift r; mret (0%Z, Some r)
  end.

Definition embedding_bench_main (argv : list string) : outcome (Z * option Latency) :=
  match argv with
  | _ :: path :: args =>
      num_calls ← arg_loop calls_value (λ _ n, n) args 100%Z;
      c ← load_or_exit path;
      match c with
      | inl code => Ret (code, None)
      | inr cfg =>
          p ← make_provider (embedding cfg);
          ((prov_init ;; embed_calls num_calls) p).1
      end
  | _ => Ret (1%Z, None)
  end.

(** ** [embedding_bench_batch.cpp] *)

Definition rounds_value (arg value : string) (o : Z * Z) : option (outcome (Z * Z)) :=
  if bool_decide (arg = "--rounds") then Some (n ← stoi value; Ret (n, o.2))
  else if bool_decide (arg = "--batch-size") then Some (n ← stoi value; Ret (o.1, n))
  else None.

Definition batch_text : string :=
  "This is a representative sample sentence used to benchmark embedding latency.".

(** A round of single calls, and one of a call with the whole batch; a failure
    is only reported.  [elapsed] measures the rounds of both kinds in order. *)
Definition sequential_round (batch_size : nat) (r : nat) : prog P (option D) :=
  times batch_size (λ _, v ← embed batch_text; mret tt) ;; mret (Some (elapsed r)).

Definition batched_round (batch_texts : list string) (r : nat) : prog P (option D) :=
  vecs ← embed_batch batch_texts; mret (Some (elapsed r)).

Definition run_rounds (rounds batch_size : Z) : prog P (Z * ((D * D) * (D * D))) :=
  n ← lift (vector_size batch_size);
  let batch_texts := replicate n batch_text in
  sequential_totals_ms ← collect (Z.to_nat rounds) 0 (sequential_round n);
  batched_totals_ms ← collect (Z.to_nat rounds) (Z.to_nat rounds) (batched_round batch_texts);
  s ← lift (round_summary R sequential_totals_ms);
  b ← lift (round_summary R batched_totals_ms);
  mret (0%Z, (s, b)).

Definition embedding_bench_batch_main (argv : list string) : outcome (Z * option ((D * D) * (D * D))) :=
  match argv with
  | _ :: path :: args =>
      '(rounds, batch_size) ← arg_loop rounds_value (λ _ o, o) args (20%Z, 10%Z);
      c ← load_or_exit path;
      match c with
      | inl code => Ret (code, None)
      | inr cfg =>
          p ← make_provider (embedding cfg);
          '(code, r) ← ((prov_init ;; run_rounds rounds batch_size) p).1;
          Ret (code, Some r)
      end
  | _ => Ret (1%Z, None)
  end.
End embedding.

(** ** [pg_upsert_bench.cpp] *)

Section upsert.
Context {Srv : Type} `{Libpq Srv}.
Context {D : Type} (R : relation D) `{∀ x y, Decision (R x y)} (elapsed : nat → D).

(** The random numbers, as they are printed. *)
Context (dist : nat → string).

Definition upsert_value (arg value : string) (o : Z * Z) : option (outcome (Z * Z)) :=
  if bool_decide (arg = "--calls") then Some (n ← stoi value; Ret (n, o.2))
  else if bool_decide (arg = "--vector-dims") then Some (n ← stoi value; Ret (o.1, n))
  else None.

Definition upsert_sql : string :=
  "INSERT INTO test_embeddings (item_id, item_name, embedding) " +:+
  "VALUES ($1, $2, $3::vector) " +:+
  "ON CONFLICT (item_id) DO UPDATE SET " +:+
  "item_name = EXCLUDED.item_name, embedding = EXCLUDED.embedding".

Definition dummy_vector (dims : Z) : string :=
  "[" +:+ Prelude.join "," (dist <$> seq 0 (Z.to_nat dims)) +:+ "]".

Definition upsert_params (vec_literal : string) (i : nat) : list string :=
  ["bench-" +:+ pretty i; "Bench upsert row " +:+ pretty i; vec_literal].

(** A call that fails is left out. *)
Definition upsert_call (vec_literal : string) (i : nat) : prog Srv (option D) :=
  res ← PQexecParams upsert_sql (upsert_params vec_literal i);
  mret (if is_command_ok res then Some (elapsed i) else None).

Definition upsert_calls (num_calls dims : Z) : prog Srv (Z * option Latency) :=
  n ← lift (vector_size num_calls);
  latencies_ms ← collect n 0 (upsert_call (dummy_vector dims));
  match latency_report R latencies_ms with
  | None => mret (1%Z, None)
  | Some r => r ← lift r; mret (0%Z, Some r)
  end.

Definition pg_upsert_bench_main (argv : list string) : prog Srv (Z * option Latency) :=
  match argv with
  | _ :: path :: args =>
      '(num_calls, dims) ← lift (arg_loop upsert_value (λ _ o, o) args (100%Z, 1024%Z));
      c ← lift (load_or_exit path);
      match c with
      | inl code => mret (code, None)
      | inr _ =>
          err ← PQconnectdb "host=localhost port=5432 dbname=qdb user=quser password=quser1234";
          match err with
          | Some _ => mret (1%Z, None)
          | None => upsert_calls num_calls dims
          end
      end
  | _ => mret (1%Z, None)
  end.
End upsert.

(** ** [walkrie_bench.cpp] *)

Context (fs : fs_view).

(** Up to the sinks: the exit code, or the options and the configuration. *)
Definition walkrie_configure (argv : list string) : outcome (Z + (WalkrieBench.Options * AppConfig)) :=
  a ← WalkrieBench.parse_args argv;
  match a with
  | inr code => Ret (inl code)
  | inl o =>
      c ← load_or_exit (WalkrieBench.config_path o);
      match c with
      | inl code => Ret (inl code)
      | inr cfg =>
          Ret match validate fs cfg, sinks cfg, sources cfg with
              | [], _ :: _, _ :: _ => inr (o, cfg)
              | _, _, _ => inl 1%Z
              end
      end
  end.

(** ** [backfill_bench.cpp] *)

(** Up to the first connection: what the rest of [main] uses. *)
Definition backfill_configure (argv : list string)
    : outcome (Z + (BackfillBench.Options * AppConfig * SourceConfig * SinkConfiguration * TableMapping)) :=
  o ← BackfillBench.parse_args argv;
  if str_empty (BackfillBench.config_path o) then Ret (inl 1%Z)
  else
    c ← load_or_exit (BackfillBench.config_path o);
    match c with
    | inl code => Ret (inl code)
    | inr cfg =>
        Ret match sources cfg with
            | s :: _ =>
                if negb (src_backfill s) then inl 1%Z
                else match sinks cfg with
                     | k :: _ => match sink_mappings k with tm :: _ => inr (o, cfg, s, k, tm) | [] => inl 1%Z end
                     | [] => inl 1%Z
                     end
            | [] => inl 1%Z
            end
    end.

(** ** [embed_backfill_batched_bench.cpp] *)

Definition batched_configure (argv : list string)
    : outcome (Z + (BatchedBench.Options * AppConfig * TableMapping)) :=
  o ← BatchedBench.parse_args argv;
  if str_empty (BatchedBench.config_path o) then Ret (inl 1%Z)
  else
    c ← load_or_exit (BatchedBench.config_path o);
    match c with
    | inl code => Ret (inl code)
    | inr cfg =>
        Ret match sinks cfg with
            | k :: _ => match sink_mappings k with tm :: _ => inr (o, cfg, tm) | [] => inl 1%Z end
            | [] => inl 1%Z
            end
    end.
End configured.

(** Phase A: the model alone; the number of vectors is only compared for a
    warning. *)
Definition batched_baseline {P} `{EmbeddingProvider P} (rows : Z) : prog P bool :=
  n ← lift (vector_size rows);
  let texts := BackfillBench.sample_text <$> seqZ 0 rows in
  prov_init ;;
  vecs ← embed_batch texts;
  mret (bool_decide (length vecs = length texts)).

(** The arguments of the workers. *)
Definition batched_worker_argv (worker_path config_path store_path : string) (batch_size : Z) : list string :=
  [c_str worker_path; "-c"; c_str config_path; "--store"; c_str store_path; "--batch-size"; pretty batch_size].

Section sources.
Context {Srv : Type} `{Libpq Srv} `{CopyStream Srv} `{JsonText} (create_parent : string → outcome unit).

(** The loop over the sources of [walkrie_bench]. *)
Definition bench_start_source : prog (src * Srv) bool :=
  ok ← connect create_parent;
  if negb ok then mret false
  else
    ok ← start_streaming;
    if negb ok then mret false else register_event_loop.

Fixpoint bench_start_sources (ws : list (src * Srv)) : outcome (bool * list (src * Srv)) :=
  match ws with
  | [] => Ret (true, [])
  | w :: ws =>
      match bench_start_source w with
      | (Ret true, w) => '(ok, ws) ← bench_start_sources ws; Ret (ok, w :: ws)
      | (Ret false, w) => Ret (false, w :: ws)
      | (Throw e, _) => Throw e
      | (UB e, _) => UB e
      | (OutOfFuel, _) => OutOfFuel
      end
  end.

(** Either way [main] frees the event base before it returns, and the sources,
    which are locals of it, are destroyed after that. *)
Definition walkrie_return (code : Z) (ss : list src) : outcome Z :=
  _ ← destroy_sources false ss; Ret code.

Definition admin_conninfo (s : SourceConfig) : string :=
  "host=" +:+ src_host s +:+ " port=" +:+ src_port s +:+ " dbname=" +:+ src_dbname s +:+ " user=" +:+ src_user s +:+
  (if str_empty (src_password s) then "" else " password=" +:+ src_password s).

Definition bench_store_path (cfg : AppConfig) (s : SourceConfig) : string :=
  backfill_dir (settings cfg) +:+ "/" +:+ src_slot_name s +:+ ".sqlite3".

Definition backfill_source_config (cfg : AppConfig) (s : SourceConfig) (k : SinkConfiguration) : PgReplicationConfig :=
  {| rc_host := src_host s; rc_port := src_port s; rc_dbname := src_dbname s; rc_user := src_user s;
     rc_password := src_password s; slot_name := src_slot_name s; publication_name := src_publication s;
     rc_tls := default_tls; rc_backfill := true; backfill_table_mappings := sink_mappings k;
     backfill_store_path := bench_store_path cfg s |}.

Definition bench_worker_argv (worker_path config_path store_path slot_name : string) : list string :=
  [c_str worker_path; "-c"; c_str config_path; "--store"; c_str store_path; "--slot"; c_str slot_name].

(** From [connect] to the worker: the exit code, or the worker's pid ([-1] when
    there was nothing to drain); [fork_pid] is what [fork] would return. *)
Definition backfill_start (worker_exists : bool) (fork_pid : Z) : prog (src * Srv) (Z + Z) :=
  ok ← connect create_parent;
  if negb ok then mret (inl 1%Z)
  else
    ok ← run_backfill_dump_if_required;
    if negb ok then mret (inl 1%Z)
    else if negb worker_exists then mret (inl 1%Z)
    else
      p ← has_pending_backfill_work;
      mret (inr (if (p : bool) then fork_pid else (-1)%Z)).

Definition completion_ctx (worker_pid : Z) : BackfillBench.CompletionCtx :=
  {| BackfillBench.worker_pid := worker_pid; BackfillBench.worker_done := (worker_pid <? 0)%Z;
     BackfillBench.ready_since := 0 |}.
End sources.

(** ** The latency benchmarks report what they measured *)

Lemma collect_ok {W A} (I : W → Prop) (f : nat → option A) (body : nat → prog W (option A)) n i w :
  I w → (∀ i w, I w → ∃ w', body i w = (Ret (f i), w') ∧ I w') →
  ∃ w', collect n i body w = (Ret (omap f (seq i n)), w') ∧ I w'.
Proof.
  intros Hw Hb. revert i w Hw. induction n as [|n IH]; intros i w Hw; [by exists w|]. cbn [collect seq].
  destruct (Hb i w Hw) as (w1 & E1 & Hw1). rewrite (prog_bind_ret _ _ _ _ _ E1).
  destruct (IH (S i) w1 Hw1) as (w2 & E2 & Hw2). rewrite (prog_bind_ret _ _ _ _ _ E2).
  exists w2. split; [|done]. simpl. by destruct (f i).
Qed.

Lemma latency_report_seq {D} (R : relation D) `{∀ x y, Decision (R x y)} (elapsed : nat → D) (n : nat) :
  (0 < Z.of_nat n < 2 ^ 31)%Z →
  ∃ r, latency_report R (omap (λ i, Some (elapsed i)) (seq 0 n)) = Some (Ret r) ∧
    (∃ i, i < n ∧ lat_p50 r = elapsed i) ∧ (∃ i, i < n ∧ lat_p95 r = elapsed i).
Proof.
  intros Hn. assert (omap (λ i, Some (elapsed i)) (seq 0 n) = elapsed <$> seq 0 n) as ->.
  { generalize (seq 0 n). intros l. induction l as [|i l IH]; csimpl; by f_equal. }
  destruct (latency_report_ok R (elapsed <$> seq 0 n)) as (r & E & H95 & H50).
  - destruct n; [lia|done].
  - rewrite length_fmap, length_seq. lia.
  - exists r. split; [done|].
    apply list_elem_of_fmap in H50 as (i & -> & Hi%elem_of_seq), H95 as (j & -> & Hj%elem_of_seq).
    split; eexists; (split; [|done]); lia.
Qed.

Section embedding_lemmas.
Context {P : Type} `{EmbeddingProvider P} {I : P → Prop} {e : string → vec} `{!ProviderOk I e}.
Context {D : Type} (R : relation D) `{∀ x y, Decision (R x y)} (elapsed : nat → D).

(** With a provider that embeds, [embedding_bench] makes its calls and, if
    there was one, ends with 0 and the figures of these calls; without a call,
    or with a provider that fails on the text, it ends with 1. *)
Lemma embed_calls_report num_calls p :
  I p → (0 ≤ num_calls < 2 ^ 31)%Z →
  ∃ p', I p' ∧
  if bool_decide (e sample_text = [] ∨ num_calls = 0%Z) then
    embed_calls R elapsed num_calls p = (Ret (1%Z, None), p')
  else ∃ r, embed_calls R elapsed num_calls p = (Ret (0%Z, Some r), p') ∧
    (∃ i, i < Z.to_nat num_calls ∧ lat_p50 r = elapsed i) ∧ (∃ i, i < Z.to_nat num_calls ∧ lat_p95 r = elapsed i).
Proof.
  intros Hp Hn. set (f := λ i : nat, if bool_decide (e sample_text = []) then None else Some (elapsed i)).
  destruct (collect_ok I f (embed_call elapsed) (Z.to_nat num_calls) 0 p Hp) as (p' & Ec & Hp').
  { intros i q Hq. destruct (embed_ok sample_text q Hq) as (q' & Eq & Hq'). exists q'. split; [|done].
    unfold embed_call. by rewrite (prog_bind_ret _ _ _ _ _ Eq). }
  exists p'. split; [done|]. unfold embed_calls, vector_size. rewrite (proj2 (Z.ltb_ge _ _)) by lia.
  rewrite (prog_bind_ret (lift (Ret (Z.to_nat num_calls))) _ p (Z.to_nat num_calls) p) by done.
  rewrite (prog_bind_ret _ _ _ _ _ Ec). subst f.
  destruct (decide (e sample_text = [])) as [Ee|Ee].
  { rewrite bool_decide_true by (by left). rewrite bool_decide_true by done.
    assert (omap (λ _ : nat, None : option D) (seq 0 (Z.to_nat num_calls)) = []) as ->; [|done].
    generalize (seq 0 (Z.to_nat num_calls)). intros l. by induction l. }
  rewrite (bool_decide_false (e sample_text = [])) by done.
  destruct (decide (num_calls = 0%Z)) as [->|Hne]; [by rewrite bool_decide_true by (by right)|].
  rewrite bool_decide_false by tauto.
  destruct (latency_report_seq R elapsed (Z.to_nat num_calls)) as (r & -> & H50 & H95); [lia|]. by exists r.
Qed.

(** A negative number of calls is not refused by the command line: [reserve]
    throws, and nothing catches it. *)
Lemma embed_calls_negative num_calls (p : P) :
  (num_calls < 0)%Z → embed_calls R elapsed num_calls p = (Throw "std::length_error", p).
Proof. intros Hn. unfold embed_calls, vector_size. by rewrite (proj2 (Z.ltb_lt _ _)). Qed.

Lemma times_ok (n : nat) (body : nat → prog P unit) p :
  I p → (∀ i p, I p → ∃ p', body i p = (Ret tt, p') ∧ I p') → ∃ p', times n body p = (Ret tt, p') ∧ I p'.
Proof.
  intros Hp Hb. unfold times. generalize (seq 0 n). intros l. revert p Hp.
  induction l as [|i l IH]; intros p Hp; [by exists p|].
  destruct (Hb i p Hp) as (p1 & E1 & Hp1). destruct (IH p1 Hp1) as (p2 & E2 & Hp2).
  exists p2. split; [|done]. cbn [for_each]. by rewrite (prog_bind_ret _ _ _ _ _ E1).
Qed.

Lemma round_summary_some (elapsed' : nat → D) i n :
  0 < n → ∃ lohi, round_summary R (omap (λ i, Some (elapsed' i)) (seq i n)) = Ret lohi.
Proof.
  intros Hn. unfold round_summary. destruct (merge_sort R _) as [|lo s] eqn:E; [|by eexists].
  pose proof (merge_sort_Permutation R (omap (λ i, Some (elapsed' i)) (seq i n))) as Hp. rewrite E in Hp.
  apply Permutation_nil_l in Hp. destruct n; [lia|]. by inversion Hp.
Qed.

(** [embedding_bench_batch] has its figures whenever there is a round; without
    one it takes the first element of an empty vector. *)
Lemma run_rounds_report rounds batch_size p :
  I p → (0 ≤ batch_size)%Z →
  ∃ p', I p' ∧
  if (0 <? rounds)%Z then ∃ r, run_rounds R elapsed rounds batch_size p = (Ret (0%Z, r), p')
  else run_rounds R elapsed rounds batch_size p = (UB "front() of an empty vector", p').
Proof.
  intros Hp Hb. unfold run_rounds, vector_size. rewrite (proj2 (Z.ltb_ge batch_size 0)) by lia.
  rewrite (prog_bind_ret (lift (Ret (Z.to_nat batch_size))) _ p (Z.to_nat batch_size) p) by done. cbv zeta.
  destruct (collect_ok I (λ i, Some (elapsed i)) (sequential_round elapsed (Z.to_nat batch_size))
              (Z.to_nat rounds) 0 p Hp) as (p1 & E1 & Hp1).
  { intros i q Hq. destruct (times_ok (Z.to_nat batch_size) (λ _, v ← embed batch_text; mret tt) q Hq) as (q' & Eq & Hq').
    - intros _ q1 Hq1. destruct (embed_ok batch_text q1 Hq1) as (q2 & E2 & Hq2). exists q2.
      by rewrite (prog_bind_ret _ _ _ _ _ E2).
    - exists q'. split; [|done]. unfold sequential_round. by rewrite (prog_bind_ret _ _ _ _ _ Eq). }
  rewrite (prog_bind_ret _ _ _ _ _ E1).
  destruct (collect_ok I (λ i, Some (elapsed i)) (batched_round elapsed (replicate (Z.to_nat batch_size) batch_text))
              (Z.to_nat rounds) (Z.to_nat rounds) p1 Hp1) as (p2 & E2 & Hp2).
  { intros i q Hq. destruct (embed_batch_ok (replicate (Z.to_nat batch_size) batch_text) q Hq) as (q' & Eq & Hq').
    exists q'. split; [|done]. unfold batched_round. by rewrite (prog_bind_ret _ _ _ _ _ Eq). }
  rewrite (prog_bind_ret _ _ _ _ _ E2). exists p2. split; [done|].
  destruct (Z.ltb_spec 0 rounds) as [Hr|Hr].
  - destruct (round_summary_some elapsed 0 (Z.to_nat rounds)) as [s Es]; [lia|].
    destruct (round_summary_some elapsed (Z.to_nat rounds) (Z.to_nat rounds)) as [b Eb]; [lia|].
    exists (s, b). by rewrite Es, Eb.
  - assert (Z.to_nat rounds = 0) as -> by lia. done.
Qed.
End embedding_lemmas.

(** [pg_upsert_bench] always ends with a report or with 1, whatever the server
    answers. *)
Lemma collect_returns {W A} (body : nat → prog W (option A)) n i w :
  (∀ i w, ∃ a w', body i w = (Ret a, w')) →
  ∃ l w', collect n i body w = (Ret l, w') ∧ length l ≤ n.
Proof.
  intros Hb. revert i w. induction n as [|n IH]; intros i w; [by exists [], w|]. cbn [collect].
  destruct (Hb i w) as (a & w1 & E1). rewrite (prog_bind_ret _ _ _ _ _ E1).
  destruct (IH (S i) w1) as (l & w2 & E2 & Hl). rewrite (prog_bind_ret _ _ _ _ _ E2).
  eexists _, w2. split; [done|]. destruct a; simpl; lia.
Qed.

Lemma upsert_calls_report {Srv} `{Libpq Srv} {D} (R : relation D) `{∀ x y, Decision (R x y)} (elapsed : nat → D)
    (dist : nat → string) num_calls dims (s : Srv) :
  (0 ≤ num_calls < 2 ^ 31)%Z →
  ∃ code r s', upsert_calls R elapsed dist num_calls dims s = (Ret (code, r), s') ∧
    (code = 0%Z ∧ is_Some r ∨ code = 1%Z ∧ r = None).
Proof.
  intros Hn. unfold upsert_calls, vector_size. rewrite (proj2 (Z.ltb_ge _ _)) by lia.
  rewrite (prog_bind_ret (lift (Ret (Z.to_nat num_calls))) _ s (Z.to_nat num_calls) s) by done.
  destruct (collect_returns (upsert_call elapsed (dummy_vector dist dims)) (Z.to_nat num_calls) 0 s)
    as (l & s' & E & Hl).
  { intros i w. unfold upsert_call, PQexecParams, lib, mbind, prog_bind. destruct (pq_exec_params _ _ w) as [r w'].
    by eexists _, w'. }
  rewrite (prog_bind_ret _ _ _ _ _ E). destruct l as [|d l].
  - eexists _, _, s'. split; [done|]. by right.
  - destruct (latency_report_ok R (d :: l)) as (r & -> & _); [done|lia|].
    eexists _, _, s'. split; [done|]. left. by split; [|eexists].
Qed.

(** ** The sources of the benchmarks outlive the event base *)

Section sources_end.
Context {Srv : Type} `{Libpq Srv} `{CopyStream Srv} `{JsonText} (create_parent : string → outcome unit).

Lemma register_event_loop_added (w w' : src * Srv) :
  register_event_loop w = (Ret true, w') → read_event_ w'.1 ≠ None.
Proof.
  unfold register_event_loop, gets, upd, modify, on_snd, lib, mbind, prog_bind, mret, prog_ret. cbn [fst snd].
  repeat match goal with
  | |- context [if ?c then _ else _] => destruct c
  | |- context [let '(_, _) := ?c in _] => destruct c as [[] ?]; cbn [fst snd negb]
  end; intros [= <-]; done.
Qed.

Lemma bench_start_source_added (w w' : src * Srv) :
  bench_start_source create_parent w = (Ret true, w') → read_event_ w'.1 ≠ None.
Proof.
  unfold bench_start_source. intros ([] & w1 & _ & Hs)%prog_bind_inv; [|done].
  apply prog_bind_inv in Hs as ([] & w2 & _ & Hr); [|done]. by apply register_event_loop_added in Hr.
Qed.

Lemma bench_start_sources_added (ws ws' : list (src * Srv)) :
  bench_start_sources create_parent ws = Ret (true, ws') →
  length ws' = length ws ∧ Forall (λ w, read_event_ w.1 ≠ None) ws'.
Proof.
  revert ws'. induction ws as [|w ws IH]; intros ws'; cbn [bench_start_sources]; [by intros [= <-]|].
  destruct (bench_start_source create_parent w) as [[[]| | |] w1] eqn:E; try done.
  destruct (bench_start_sources create_parent ws) as [[ok ws1]| | |]; try done.
  intros [= -> <-]. destruct (IH ws1 eq_refl) as [Hl ?]. split; [simpl; by f_equal|]. constructor; [|done].
  by eapply bench_start_source_added.
Qed.

(** [main] itself clears its sources before it frees the event base;
    [walkrie_bench] does not.  However the event loop left the sources, a run
    whose sources all started ends in their destructors freeing events of a
    base that is gone. *)
Lemma walkrie_bench_ends_in_freed_base (ws ws' : list (src * Srv)) (ss : list src) :
  bench_start_sources create_parent ws = Ret (true, ws') → ws ≠ [] →
  Forall2 (λ w s, read_event_ s = None ↔ read_event_ w.1 = None) ws' ss →
  walkrie_return 0 ss = UB "event_free after event_base_free".
Proof.
  intros [Hl Hall]%bench_start_sources_added Hne Hss. unfold walkrie_return. rewrite destroy_sources_dead; [done|].
  destruct Hss as [|w s ws1 ss Hs]; [destruct ws; simpl in Hl; [done|lia]|].
  apply Forall_cons in Hall as [Hw _]. left. tauto.
Qed.

(** With one sink and a source without TLS settings, [backfill_bench] runs the
    source that the program runs. *)
Lemma backfill_source_config_same (cfg : AppConfig) (s : SourceConfig) (k : SinkConfiguration) :
  sinks cfg = [k] → src_backfill s = true → src_tls s = default_tls →
  backfill_source_config cfg s k = source_config cfg s.
Proof.
  intros Hk Hb Ht. unfold backfill_source_config, source_config, backfill_mappings. rewrite Hb, Ht, Hk.
  simpl. by rewrite app_nil_r.
Qed.
End sources_end.

(** The warning of phase A is never printed with a provider that embeds. *)
Lemma batched_baseline_complete {P} `{EmbeddingProvider P} {I : P → Prop} {e : string → vec} `{!ProviderOk I e} rows
    (p p1 : P) :
  (0 ≤ rows)%Z → prov_init p = (Ret tt, p1) → I p1 → ∃ p', batched_baseline rows p = (Ret true, p') ∧ I p'.
Proof.
  intros Hr Hi Hp. unfold batched_baseline, vector_size. rewrite (proj2 (Z.ltb_ge _ _)) by lia.
  rewrite (prog_bind_ret (lift (Ret (Z.to_nat rows))) _ p (Z.to_nat rows) p) by done. cbv zeta.
  rewrite (prog_bind_ret _ _ _ _ _ Hi).
  destruct (embed_batch_ok (BackfillBench.sample_text <$> seqZ 0 rows) p1 Hp) as (p' & E & Hp'). exists p'.
  rewrite (prog_bind_ret _ _ _ _ _ E). split; [|done]. by rewrite length_fmap, bool_decide_true.
Qed.

(** ** The workers read back what the benchmarks give them *)

(** A negative batch size of the benchmark becomes a huge one of the worker. *)
Lemma batched_worker_reads worker_path config_path store_path batch_size :
  (- 2 ^ 31 ≤ batch_size < 2 ^ 31)%Z →
  worker_parse_args (batched_worker_argv worker_path config_path store_path batch_size) =
  Ret (inl {| wo_config_path := c_str config_path; wo_store_path := c_str store_path; wo_slot_name := "";
              wo_batch_size := u64 batch_size; wo_show_help := false |}).
Proof.
  intros Hb. unfold worker_parse_args.
  change (getopt_long worker_table (tail (batched_worker_argv worker_path config_path store_path batch_size)))
    with [("c"%char, Some (c_str config_path)); ("s"%char, Some (c_str store_path)); ("b"%char, Some (pretty batch_size))].
  cbn [fold_options worker_option fst snd default from_option id mbind outcome_bind].
  by rewrite stoul_pretty by lia.
Qed.

Lemma bench_worker_reads worker_path config_path store_path slot :
  worker_parse_args (bench_worker_argv worker_path config_path store_path slot) =
  Ret (inl {| wo_config_path := c_str config_path; wo_store_path := c_str store_path; wo_slot_name := c_str slot;
              wo_batch_size := 200; wo_show_help := false |}).
Proof. reflexivity. Qed.
