(* ===== verification/BenchRun.v ===== *)
(** * [src/bench/]: running benchmarks

    [walkrie_bench.cpp] while it runs, as steps of its threads: [main], the
    sampler of [resource_sampler.cpp], the duration timer, the signal handler
    and the completion check in the event loop, with the clock; and what the
    programs set up before and report afterwards. *)

From S2P Require Import Prelude Event Config Dispatcher EmbeddingProvider SinkBatch Libpq Http QdrantSink MilvusSink JsonSink Sinks BackfillStore Backfill ReplicationSource Pipeline Entry Progress Numerals BenchStats Bench BenchMain.
From stdpp Require Import sorting.
From Stdlib Require Import Lia.

Module WalkrieRun.
(** Where [main] is, from [sampler.start()] to the report. *)
Inductive MainPc := StartSampler | StartTimer | EnterLoop | InLoop | JoinTimer | StopSampler | JoinSampler | Report.

(** The duration timer sleeps until a time. *)
Inductive TimerPc := NoTimer | TSleep (until : Z) | TEnded.

(** [ResourceSampler::run]: before the test, with a sample to take, asleep. *)
Inductive SamplerPc := SNone | SCheck | STake | SSleep (until : Z) | SEnded.

(** The steady clock is in microseconds; [processed] counts the events the
    sink has processed. *)
Record Run := {
  clock : Z;
  main_pc : MainPc;
  g_stop : bool;
  loop_break : bool;
  timer : TimerPc;
  running_ : bool;
  sampler : SamplerPc;
  sampled : list ResourceSample;
  processed : nat;
  bench_start : Z;
  bench_end : Z;
}.

Section run.
Context (o : WalkrieBench.Options).
Implicit Types s : Run.

Definition interval_us : Z := 200000.

Definition set_clock (t : Z) s : Run :=
  {| clock := t; main_pc := main_pc s; g_stop := g_stop s; loop_break := loop_break s; timer := timer s;
     running_ := running_ s; sampler := sampler s; sampled := sampled s; processed := processed s;
     bench_start := bench_start s; bench_end := bench_end s |}.
Definition main_to (pc : MainPc) s : Run :=
  {| clock := clock s; main_pc := pc; g_stop := g_stop s; loop_break := loop_break s; timer := timer s;
     running_ := running_ s; sampler := sampler s; sampled := sampled s; processed := processed s;
     bench_start := bench_start s; bench_end := bench_end s |}.
Definition set_stop s : Run :=
  {| clock := clock s; main_pc := main_pc s; g_stop := true; loop_break := loop_break s; timer := timer s;
     running_ := running_ s; sampler := sampler s; sampled := sampled s; processed := processed s;
     bench_start := bench_start s; bench_end := bench_end s |}.
Definition set_break (b : bool) s : Run :=
  {| clock := clock s; main_pc := main_pc s; g_stop := g_stop s; loop_break := b; timer := timer s;
     running_ := running_ s; sampler := sampler s; sampled := sampled s; processed := processed s;
     bench_start := bench_start s; bench_end := bench_end s |}.
Definition set_timer (t : TimerPc) s : Run :=
  {| clock := clock s; main_pc := main_pc s; g_stop := g_stop s; loop_break := loop_break s; timer := t;
     running_ := running_ s; sampler := sampler s; sampled := sampled s; processed := processed s;
     bench_start := bench_start s; bench_end := bench_end s |}.
Definition set_sampler (r : bool) (pc : SamplerPc) (l : list ResourceSample) s : Run :=
  {| clock := clock s; main_pc := main_pc s; g_stop := g_stop s; loop_break := loop_break s; timer := timer s;
     running_ := r; sampler := pc; sampled := l; processed := processed s;
     bench_start := bench_start s; bench_end := bench_end s |}.
Definition count_event s : Run :=
  {| clock := clock s; main_pc := main_pc s; g_stop := g_stop s; loop_break := loop_break s; timer := timer s;
     running_ := running_ s; sampler := sampler s; sampled := sampled s; processed := S (processed s);
     bench_start := bench_start s; bench_end := bench_end s |}.
Definition set_times (b e : Z) s : Run :=
  {| clock := clock s; main_pc := main_pc s; g_stop := g_stop s; loop_break := loop_break s; timer := timer s;
     running_ := running_ s; sampler := sampler s; sampled := sampled s; processed := processed s;
     bench_start := b; bench_end := e |}.

(** [event_base_loopbreak]: it ends the loop that is running, if one is. *)
Definition loopbreak s : Run := match main_pc s with InLoop => set_break true s | _ => s end.

Definition handle_sigint s : Run := loopbreak (set_stop s).

(** The thread of the duration timer *)
Definition timer_step s : option Run :=
  match timer s with
  | TSleep until => if (until <=? clock s)%Z then Some (loopbreak (set_stop (set_timer TEnded s))) else None
  | _ => None
  end.

(** The callback of the completion timer, every 20 ms of the loop *)
Definition completion_check s : option Run :=
  match main_pc s with
  | InLoop =>
      if (0 <? WalkrieBench.target_count o)%Z then
        Some (if (WalkrieBench.target_count o <=? u64 (Z.of_nat (processed s)))%Z then loopbreak s else s)
      else None
  | _ => None
  end.

(** [ResourceSampler::run] *)
Definition sampler_step (cpu rss : Z) s : option Run :=
  match sampler s with
  | SCheck => Some (set_sampler (running_ s) (if running_ s then STake else SEnded) (sampled s) s)
  | STake =>
      let sample := {| at_us := clock s; cpu_time_micros := cpu; rss_kb := rss |} in
      Some (set_sampler (running_ s) (SSleep (clock s + interval_us)) (sampled s ++ [sample]) s)
  | SSleep until =>
      if (until <=? clock s)%Z then Some (set_sampler (running_ s) SCheck (sampled s) s) else None
  | SNone | SEnded => None
  end.

(** [main] from [sampler.start()] on *)
Definition main_step s : option Run :=
  match main_pc s with
  | StartSampler => Some (main_to StartTimer (set_sampler true SCheck (sampled s) s))
  | StartTimer =>
      let d := WalkrieBench.duration_secs o in
      Some (main_to EnterLoop
              (if (0 <? d)%Z then set_timer (TSleep (clock s + d * 1000000)) s else s))
  | EnterLoop => Some (main_to InLoop (set_break false (set_times (clock s) (clock s) s)))
  | InLoop => if loop_break s then Some (main_to JoinTimer (set_times (bench_start s) (clock s) s)) else None
  | JoinTimer =>
      match timer s with
      | NoTimer | TEnded => Some (main_to StopSampler s)
      | TSleep _ => None
      end
  | StopSampler => Some (main_to JoinSampler (set_sampler false (sampler s) (sampled s) s))
  | JoinSampler => match sampler s with SEnded => Some (main_to Report s) | _ => None end
  | Report => None
  end.

Inductive label :=
| LClock (t : Z)                       (* time goes by *)
| LSigint
| LTimer
| LCompletion
| LProcessed                           (* the dispatcher's thread has processed an event *)
| LSampler (cpu rss : Z)
| LMain.

Definition run_step (l : label) s : option Run :=
  match l with
  | LClock t => if (clock s <=? t)%Z then Some (set_clock t s) else None
  | LSigint => Some (handle_sigint s)
  | LTimer => timer_step s
  | LCompletion => completion_check s
  | LProcessed => Some (count_event s)
  | LSampler cpu rss => sampler_step cpu rss s
  | LMain => main_step s
  end.

Definition start (t : Z) : Run :=
  {| clock := t; main_pc := StartSampler; g_stop := false; loop_break := false; timer := NoTimer;
     running_ := false; sampler := SNone; sampled := []; processed := 0; bench_start := 0; bench_end := 0 |}.
End run.
End WalkrieRun.

(** ** What a report stands for *)

Section report.
Import WalkrieRun.
Context (o : WalkrieBench.Options) (t0 : Z).
Implicit Types s : Run.

(** Why the loop may end. *)
Definition reason s : Prop :=
  g_stop s = true ∨
  (0 < WalkrieBench.target_count o ∧ WalkrieBench.target_count o ≤ Z.of_nat (processed s))%Z.

Definition far_apart (a b : ResourceSample) : Prop := (at_us a + interval_us ≤ at_us b)%Z.

Definition after_loop (pc : MainPc) : Prop :=
  match pc with JoinTimer | StopSampler | JoinSampler | Report => True | _ => False end.

(** The duration timer, once it is started. *)
Definition timer_ok s : Prop :=
  let due := (t0 + WalkrieBench.duration_secs o * 1000000)%Z in
  match timer s with
  | NoTimer => (WalkrieBench.duration_secs o ≤ 0)%Z
  | TSleep until => (due ≤ until)%Z ∧ match main_pc s with StopSampler | JoinSampler | Report => False | _ => True end
  | TEnded => (due ≤ clock s)%Z
  end.

(** When the next sample can be taken at the earliest. *)
Definition next_sample s : option Z :=
  match sampler s with
  | SNone | SEnded => None
  | SCheck | STake => Some (clock s)
  | SSleep until => Some until
  end.

Record run_inv s : Prop := {
  r_clock : (t0 ≤ clock s)%Z;
  r_break : main_pc s = InLoop → loop_break s = true → reason s;
  r_reason : after_loop (main_pc s) → reason s;
  r_start : match main_pc s with
            | StartSampler | StartTimer | EnterLoop => True
            | InLoop => (t0 ≤ bench_start s ≤ clock s)%Z
            | _ => (t0 ≤ bench_start s ≤ bench_end s)%Z ∧ (bench_end s ≤ clock s)%Z
            end;
  r_timer : match main_pc s with StartSampler | StartTimer => timer s = NoTimer | _ => timer_ok s end;
  r_spaced : Sorted far_apart (sampled s);
  r_within : Forall (λ x, t0 ≤ at_us x ≤ clock s)%Z (sampled s);
  r_next : ∀ x t, last (sampled s) = Some x → next_sample s = Some t → (at_us x + interval_us ≤ t)%Z;
  r_ended : main_pc s = Report → sampler s = SEnded;
  r_none : main_pc s = StartSampler → sampled s = [] ∧ sampler s = SNone;
}.

Lemma sorted_snoc {A} (R : relation A) (l : list A) x :
  Sorted R l → (∀ y, last l = Some y → R y x) → Sorted R (l ++ [x]).
Proof.
  induction 1 as [|y l Hl IH Hy]; intros Hx; [by repeat constructor|]. simpl. constructor.
  - apply IH. intros z Hz. apply Hx. destruct l; [done|]. exact Hz.
  - destruct l as [|z l]; constructor; first [by apply Hx|by inversion Hy].
Qed.

Lemma bench_inv_start : run_inv (start t0).
Proof. split; try done; simpl; lia. Qed.

Lemma within_later t t' (l : list ResourceSample) :
  (t ≤ t')%Z → Forall (λ x, t0 ≤ at_us x ≤ t)%Z l → Forall (λ x, t0 ≤ at_us x ≤ t')%Z l.
Proof. intros Ht Hl. apply (Forall_impl _ _ _ Hl). intros x. lia. Qed.

(** A signal or the timer breaks the loop with the flag set. *)
Lemma bench_inv_stop s : run_inv s → run_inv (loopbreak (set_stop s)).
Proof.
  intros [H1 H2 H3 H4 H5 H6 H7 H8 H9 H10]. unfold loopbreak, timer_ok in *. simpl.
  destruct (main_pc s) eqn:E; (split; try done; unfold timer_ok; simpl; rewrite ?E; try done; by intros; left).
Qed.

Lemma bench_inv_step l s s' : run_inv s → run_step o l s = Some s' → run_inv s'.
Proof.
  intros Hi. pose proof Hi as [H1 H2 H3 H4 H5 H6 H7 H8 H9 H10]. destruct l as [t| | | | |cpu rss|]; simpl.
  - destruct (clock s <=? t)%Z eqn:E; [|done]. apply Z.leb_le in E. intros [= <-].
    split; simpl; try done; [lia| | | |].
    + destruct (main_pc s); lia.
    + unfold timer_ok in *. simpl. destruct (main_pc s), (timer s); try done; lia.
    + by eapply within_later.
    + intros x u Hx Hu. specialize (H8 x). unfold next_sample in *. simpl in Hu.
      destruct (sampler s); simplify_eq/=; try (specialize (H8 _ Hx eq_refl); lia).
  - intros [= <-]. by apply bench_inv_stop.
  - unfold timer_step. destruct (timer s) as [|u|] eqn:Et; try done.
    destruct (u <=? clock s)%Z eqn:E; [|done]. apply Z.leb_le in E. intros [= <-].
    apply bench_inv_stop. split; simpl; try done. unfold timer_ok in *. rewrite Et in H5. simpl.
    destruct (main_pc s); try done; lia.
  - unfold completion_check. destruct (main_pc s) eqn:Em; try done.
    destruct (0 <? _)%Z eqn:E0; [|done]. intros [= <-]. destruct (_ <=? _)%Z eqn:E1; [|done].
    apply Z.ltb_lt in E0. apply Z.leb_le in E1. unfold loopbreak. rewrite Em.
    split; simpl; rewrite ?Em; try done. intros _ _. right. simpl. split; [done|].
    pose proof (Z.mod_le (Z.of_nat (processed s)) (2 ^ 64)). unfold u64 in E1. lia.
  - intros [= <-]. assert (reason s → reason (count_event s)) as Hr.
    { unfold reason. simpl. intros [?|?]; [by left|right; lia]. }
    split; simpl; try done; auto.
  - unfold sampler_step. destruct (sampler s) as [| | |u|] eqn:Es; try done.
    + intros [= <-]. split; simpl; try done.
      * intros x t Hx Ht. apply (H8 x); [done|]. unfold next_sample in *. simpl in *. rewrite Es. by destruct (running_ s).
      * intros Hm. specialize (H9 Hm). congruence.
      * intros [_ Hm]%H10. congruence.
    + intros [= <-]. assert (run_inv s → ∀ y, last (sampled s) = Some y → (at_us y + interval_us ≤ clock s)%Z) as Hl.
      { intros _ y Hy. apply (H8 y); [done|]. unfold next_sample. by rewrite Es. }
      split; simpl; try done.
      * apply sorted_snoc; [done|]. intros y Hy. by apply Hl.
      * apply Forall_app. split; [done|]. repeat constructor; simpl; lia.
      * intros x t. rewrite last_snoc. unfold next_sample. simpl. intros [= <-] [= <-]. simpl. lia.
      * intros Hm. specialize (H9 Hm). congruence.
      * intros [_ Hm]%H10. congruence.
    + destruct (u <=? clock s)%Z eqn:E; [|done]. apply Z.leb_le in E. intros [= <-].
      split; simpl; try done.
      * intros x t Hx Ht. unfold next_sample in *. simpl in Ht. injection Ht as <-.
        specialize (H8 x u Hx). rewrite Es in H8. specialize (H8 eq_refl). lia.
      * intros Hm. specialize (H9 Hm). congruence.
      * intros [_ Hm]%H10. congruence.
  - unfold main_step. destruct (main_pc s) eqn:Em; try done.
    + intros [= <-]. destruct (H10 eq_refl) as [El _]. split; simpl; try done; by rewrite El.
    + intros [= <-]. destruct (0 <? _)%Z eqn:E; (split; simpl; try done); unfold timer_ok; simpl; [lia|].
      rewrite H5. by apply Z.ltb_ge.
    + intros [= <-]. split; simpl; try done. unfold timer_ok in *. rewrite Em in *. simpl. done.
    + destruct (loop_break s) eqn:Eb; [|done]. intros [= <-]. split; simpl; try done; [by intros _; apply H2|..].
      all: try lia; unfold timer_ok in *; rewrite Em in *; simpl; done.
    + destruct (timer s) eqn:Et; try done; intros [= <-]; (split; simpl; try done); unfold timer_ok in *; simpl;
        by rewrite Et in *.
    + intros [= <-]. split; simpl; try done. unfold timer_ok in *. rewrite Em in *. simpl. done.
    + destruct (sampler s) eqn:Es; try done. intros [= <-]. split; simpl; try done.
      unfold timer_ok in *. rewrite Em in *. simpl. done.
Qed.
End report.

(** What a report of [walkrie_bench] stands for, however the threads ran: the
    loop ended because of a signal, the duration or the target; the reported
    wall time lies inside the run; the samples were taken during it, at least
    200 ms apart, by a thread that has ended; and with a duration the report
    comes no earlier than that, whatever ended the loop. *)
Theorem walkrie_report_sound (o : WalkrieBench.Options) (t0 : Z) (ls : list WalkrieRun.label) (s : WalkrieRun.Run) :
  run_labels (WalkrieRun.run_step o) ls (WalkrieRun.start t0) = Some s →
  WalkrieRun.main_pc s = WalkrieRun.Report →
  reason o s ∧
  (t0 ≤ WalkrieRun.bench_start s ≤ WalkrieRun.bench_end s)%Z ∧ (WalkrieRun.bench_end s ≤ WalkrieRun.clock s)%Z ∧
  WalkrieRun.sampler s = WalkrieRun.SEnded ∧ Sorted far_apart (WalkrieRun.sampled s) ∧
  Forall (λ x, t0 ≤ at_us x ≤ WalkrieRun.clock s)%Z (WalkrieRun.sampled s) ∧
  ((0 < WalkrieBench.duration_secs o)%Z → (t0 + WalkrieBench.duration_secs o * 1000000 ≤ WalkrieRun.clock s)%Z).
Proof.
  intros Hr Hp.
  assert (run_inv o t0 s) as [H1 H2 H3 H4 H5 H6 H7 H8 H9 H10].
  { eapply run_labels_inv; [|apply bench_inv_start|exact Hr]. intros l s1 s2. apply bench_inv_step. }
  rewrite Hp in *. destruct H4. split_and!; [by apply H3|lia..|by apply H9|done|done|].
  intros Hd. unfold timer_ok in H5. rewrite Hp in H5. destruct (WalkrieRun.timer s); [lia|naive_solver|lia].
Qed.

Module DemoBenchRun.
Import WalkrieRun.
Definition options : WalkrieBench.Options :=
  {| WalkrieBench.config_path := "c.toml"; WalkrieBench.target_count := 1; WalkrieBench.duration_secs := 60 |}.
(** The target is reached at once; [main] then waits for the timer. *)
Definition early : list label :=
  [LMain; LSampler 0 0; LMain; LMain; LProcessed; LSampler 5 100; LCompletion; LMain; LClock 300000; LSampler 0 0;
   LSampler 0 0; LSampler 9 120; LClock 60000000; LTimer; LMain; LMain; LSampler 0 0; LSampler 0 0; LMain].
End DemoBenchRun.

Lemma walkrie_report_sound_witness :
  ∃ s, run_labels (WalkrieRun.run_step DemoBenchRun.options) DemoBenchRun.early (WalkrieRun.start 0) = Some s ∧
    WalkrieRun.main_pc s = WalkrieRun.Report ∧ WalkrieRun.bench_end s = 0%Z ∧
    length (WalkrieRun.sampled s) = 2 ∧ (60 * 1000000 ≤ WalkrieRun.clock s)%Z.
Proof.
  eexists. split; [vm_compute; reflexivity|].
  destruct (walkrie_report_sound DemoBenchRun.options 0 DemoBenchRun.early _ ltac:(vm_compute; reflexivity)
    ltac:(reflexivity)) as (_ & _ & _ & _ & _ & _ & Hd).
  split_and!; [done..|]. by apply Hd.
Defined.

(** A signal between the installation of the handler and the loop is lost: the
    loop starts unbroken, and nothing reads the flag. *)
Lemma early_sigint_lost o s :
  WalkrieRun.main_pc s = WalkrieRun.EnterLoop →
  ∃ s', WalkrieRun.main_step o (WalkrieRun.handle_sigint s) = Some s' ∧
    WalkrieRun.main_pc s' = WalkrieRun.InLoop ∧ WalkrieRun.loop_break s' = false ∧
    WalkrieRun.main_step o s' = None.
Proof.
  intros Hp. unfold WalkrieRun.handle_sigint, WalkrieRun.loopbreak, WalkrieRun.main_step. simpl. rewrite Hp. simpl.
  rewrite Hp. by eexists.
Qed.

(** ** What the programs set up and report *)

Section setup.
Context {P Srv Net F : Type} `{EmbeddingProvider P} `{Curl Net} `{JsonText} `{LibUuid} `{Files F}.
Context (conn : SinkRef → Libpq Srv) (trunc_float : Z → Z) (has_curl : bool).
Context (make_provider : EmbeddingConfig → outcome P).

(** The provider, if the first sink needs one, and that sink. *)
Definition first_sink (cfg : AppConfig) : prog (SinkWorld P Srv Net F) SinkObject :=
  match sinks cfg with
  | [] => undefined "front() of an empty vector"
  | sink_cfg :: _ =>
      (if needs_embedding_provider sink_cfg
       then p ← lift (make_provider (embedding cfg)); modify (set_provider p)
       else mret tt) ;;
      create_sink conn trunc_float has_curl 0 sink_cfg
  end.

(** [backfill_bench] catches what that throws. *)
Definition backfill_first_sink (cfg : AppConfig) : prog (SinkWorld P Srv Net F) (Z + SinkObject) :=
  try_catch (o ← first_sink cfg; mret (inr o)) (λ _, mret (inl 1%Z)).

(** The object is one of the class that the configuration names. *)
Lemma first_sink_typed cfg (w w' : SinkWorld P Srv Net F) o :
  first_sink cfg w = (Ret o, w') → ∃ k, head (sinks cfg) = Some k ∧ object_of k o.
Proof.
  unfold first_sink. destruct (sinks cfg) as [|k ks]; [done|].
  intros ([] & w1 & _ & Hc)%prog_bind_inv. exists k. split; [done|]. by eapply create_sink_object.
Qed.

Lemma backfill_first_sink_returns cfg (w w' : SinkWorld P Srv Net F) r :
  backfill_first_sink cfg w = (r, w') → ∀ e, r ≠ Throw e.
Proof.
  unfold backfill_first_sink, try_catch, mbind, prog_bind.
  destruct (first_sink cfg w) as [[] w1]; intros [= <- <-] e; done.
Qed.
End setup.

(** The admin connection and the reset of the table: an exit code, or on. *)
Definition backfill_admin {Srv} `{Libpq Srv} (conninfo : string) (tm : TableMapping) (publication slot_name : string)
    (rows : Z) : prog Srv (option Z) :=
  err ← PQconnectdb conninfo;
  match err with
  | Some _ => mret (Some 1%Z)
  | None => BackfillBench.reset_table tm publication slot_name rows
  end.

(** [handle_sigint] of [backfill_bench]: the flag stops the live load, the
    break the loop. *)
Definition backfill_sigint (base_set : bool) (stop_break : bool * bool) : bool * bool :=
  (true, if base_set then true else stop_break.2).

(** [resolve_worker_path] of [backfill_bench], and the path of
    [embed_backfill_batched_bench]. *)
Definition bench_worker_path (self_exe : option string) (argv0 : string) : string :=
  path_join (match self_exe with Some exe => parent_path exe | None => parent_path argv0 end) "walkrie_worker".
Definition batched_worker_path (argv0 : string) : string := path_join (parent_path argv0) "walkrie_worker".

Lemma bench_worker_path_same self_exe argv0 :
  bench_worker_path self_exe argv0 = resolve_backfill_worker_path self_exe argv0.
Proof. by destruct self_exe. Qed.

Section figures.
Context {W : Type} `{Doubles}.

(** The figures that [walkrie_bench] prints; times in microseconds. *)
Record WalkrieFigures := {
  wf_processed : Z;
  wf_wall_us : Z;
  wf_processing_us : Z;
  wf_lag : option Summary;
  wf_resources : Report;
}.

Definition walkrie_figures (sink : BenchmarkingSink W) (s : WalkrieRun.Run) : outcome WalkrieFigures :=
  lag ← summarize (stats_ sink);
  Ret {| wf_processed := processed_count_ sink;
         wf_wall_us := (WalkrieRun.bench_end s - WalkrieRun.bench_start s)%Z;
         wf_processing_us := (last_event_time_ sink - first_event_time_ sink)%Z;
         wf_lag := if lag_summary_count_warning (stats_ sink) then None else Some lag;
         wf_resources := summarize_resources (WalkrieRun.sampled s) |}.

(** Those of [backfill_bench]: the figures of the live load only with one. *)
Record BackfillFigures := {
  bf_rows : Z;
  bf_wall_us : Z;
  bf_live : option (Z * Z * option Summary);
}.

Definition backfill_figures (o : BackfillBench.Options) (bench_start bench_end : Z) (sink : BenchmarkingSink W) :
    outcome BackfillFigures :=
  lag ← summarize (stats_ sink);
  Ret {| bf_rows := BackfillBench.rows o; bf_wall_us := (bench_end - bench_start)%Z;
         bf_live := if BackfillBench.live_load o
                    then Some (BackfillBench.live_load_rows o, processed_count_ sink,
                               if (0 <? count (stats_ sink))%nat then Some lag else None)
                    else None |}.

(** The report of a sound run has a wall time that is not negative. *)
Lemma walkrie_figures_wall o t0 ls (sink : BenchmarkingSink W) s f :
  run_labels (WalkrieRun.run_step o) ls (WalkrieRun.start t0) = Some s →
  WalkrieRun.main_pc s = WalkrieRun.Report → walkrie_figures sink s = Ret f → (0 ≤ wf_wall_us f)%Z.
Proof.
  intros Hr Hp Hf. destruct (walkrie_report_sound o t0 ls s Hr Hp) as (_ & Hb & _).
  unfold walkrie_figures in Hf. destruct (summarize _); try done. injection Hf as <-. simpl. lia.
Qed.
End figures.

(** [embed_backfill_batched_bench] from the worker's path on: the exit code and
    the printed times in microseconds (the drain's, and what it takes more than
    the embedding alone). *)
Definition batched_end (worker_exists : bool) (baseline_us drain_us : Z) (exits : list (option Z)) :
    Z * option (Z * Z * nat) :=
  if negb worker_exists then (1%Z, None)
  else (BatchedBench.exit_code exits, Some (drain_us, (drain_us - baseline_us)%Z, BatchedBench.failures exits)).

(** [dispatch_handle] of [walkrie_bench] and [backfill_bench]: one handle, on
    the measuring sink, which has the default of [EventSink]. *)
Definition bench_handles : list SinkHandle := [handle_with 0 true].
Definition bench_job (source_id : Z) (event : ChangeEvent) : EventJob :=
  {| ev := event; Dispatcher.source_id := source_id; job_sinks := bench_handles |}.

(** A JSON sink, which the program treats as best effort, is a required one in
    the benchmarks. *)
Lemma bench_sink_required `{EventSink W} (cfg : AppConfig) (c : JsonSinkConfiguration) :
  sinks cfg = [Config.JsonSink c] → js_required_override c = None → sink_default_required 0 = false →
  bench_handles ≠ make_handles cfg.
Proof. intros Hs Hr Hd. unfold make_handles, bench_handles. rewrite Hs. simpl. rewrite Hr, Hd. done. Qed.
