(* ===== verification/Demo.v ===== *)
(** * [demo/product_search_tool.cpp], [demo/candidate_search_tool.cpp]: the search tools

    Both embed a query text with the configured provider and ask PostgreSQL for
    the nearest rows, optionally filtered.  The whole of both [main] functions,
    with what they print and their exit codes. *)

From S2P Require Import Prelude Event Config EmbeddingProvider SinkBatch Libpq SqlBuilder PgSink Http MilvusSink Progress BackfillStore Backfill Workers BenchStats Entry Bench.
From stdpp Require Import pretty.
From Stdlib Require Import Lia.

(** ** Command lines *)

Record SearchOptions := {
  limit : Z;
  filters : gmap string string;          (* by option: its value; absent is empty *)
  conninfo_override : string;
  query_parts : list string;
}.

Definition default_search : SearchOptions :=
  {| limit := 10; filters := ∅; conninfo_override := ""; query_parts := [] |}.

(** The options of a tool: [--limit], its filters and [--conninfo]. *)
Definition search_value (filter_options : list string) (arg value : string) (o : SearchOptions)
    : option (outcome SearchOptions) :=
  if bool_decide (arg = "--limit") then
    Some (n ← stoi value;
          Ret {| limit := n; filters := filters o; conninfo_override := conninfo_override o; query_parts := query_parts o |})
  else if bool_decide (arg ∈ filter_options) then
    Some (Ret {| limit := limit o; filters := <[arg := value]> (filters o);
                 conninfo_override := conninfo_override o; query_parts := query_parts o |})
  else if bool_decide (arg = "--conninfo") then
    Some (Ret {| limit := limit o; filters := filters o; conninfo_override := value; query_parts := query_parts o |})
  else None.

(** Everything else is query text, an option that is last on the line too. *)
Definition search_word (arg : string) (o : SearchOptions) : SearchOptions :=
  {| limit := limit o; filters := filters o; conninfo_override := conninfo_override o;
     query_parts := query_parts o ++ [arg] |}.

Definition search_args (filter_options args : list string) : outcome SearchOptions :=
  arg_loop (search_value filter_options) search_word args default_search.

Definition filter_of (opt : string) (o : SearchOptions) : string := default "" (filters o !! opt).

(** ** The queries *)

(** The statement and its parameters. *)
Definition product_query (vec_literal category_filter language_filter limit_str : string) : string * list string :=
  let sql := "SELECT product_id, title, category, language, price, currency, description, "
             +:+ "embedding <=> $1::vector AS distance "
             +:+ "FROM product_search " in
  let params := [vec_literal] in
  let '(where_clauses, params) :=
    if str_empty category_filter then ([], params)
    else (["category = $" +:+ pretty (S (length params))], params ++ [category_filter]) in
  let '(where_clauses, params) :=
    if str_empty language_filter then (where_clauses, params)
    else (where_clauses ++ ["language = $" +:+ pretty (S (length params))], params ++ [language_filter]) in
  let sql := match where_clauses with
             | [] => sql
             | _ => sql +:+ "WHERE " +:+ Prelude.join " AND " where_clauses +:+ " "
             end in
  (sql +:+ "ORDER BY distance ASC LIMIT $" +:+ pretty (S (length params)), params ++ [limit_str]).

Definition candidate_query (vec_literal location_filter limit_str : string) : string * list string :=
  if str_empty location_filter then
    ("SELECT candidate_id, full_name, years_experience, location, cv_text, "
     +:+ "embedding <=> $1::vector AS distance "
     +:+ "FROM candidate_search "
     +:+ "ORDER BY distance ASC "
     +:+ "LIMIT $2", [vec_literal; limit_str])
  else
    ("SELECT candidate_id, full_name, years_experience, location, cv_text, "
     +:+ "embedding <=> $1::vector AS distance "
     +:+ "FROM candidate_search "
     +:+ "WHERE location = $2 "
     +:+ "ORDER BY distance ASC "
     +:+ "LIMIT $3", [vec_literal; location_filter; limit_str]).

(** ** [main] *)

Definition newline : string := String "010" "".
Definition dash : string := " — ".

Section main.
Context {P Srv : Type} `{EmbeddingProvider P} `{Libpq Srv}.
Context (to_float : Z → Z) (parse_file : string → outcome toml_table) (make_provider : EmbeddingConfig → outcome P).

(** A tool: its filter options, its query, its database and how it prints the
    filters and a row. *)
Record Tool := {
  tool_filters : list string;
  tool_query : string → SearchOptions → string → string * list string;
  tool_conninfo : string;
  tool_heading : SearchOptions → string;
  tool_row : list (list (option string)) → nat → outcome string;
}.

Fixpoint print_rows (row : nat → outcome string) (n i : nat) : outcome string :=
  match n with
  | O => Ret ""
  | S n => s ← row i; rest ← print_rows row n (S i); Ret (pretty (S i) +:+ ". " +:+ s +:+ rest)
  end.

(** From the connection on. *)
Definition search (t : Tool) (o : SearchOptions) (query_text vec_literal : string) : prog Srv (Z * string) :=
  err ← PQconnectdb (if str_empty (conninfo_override o) then tool_conninfo t else conninfo_override o);
  match err with
  | Some _ => mret (1%Z, "")
  | None =>
      let '(sql, params) := tool_query t vec_literal o (pretty (limit o)) in
      res ← PQexecParams sql params;
      match res with
      | TuplesOk rows =>
          body ← lift (print_rows (tool_row t rows) (length rows) 0);
          mret (0%Z, newline +:+ "Query: " +:+ quote +:+ query_text +:+ quote +:+ tool_heading t o +:+ newline +:+
                "Top " +:+ pretty (length rows) +:+ " matches:" +:+ newline +:+ newline +:+ body)
      | _ => mret (1%Z, "")
      end
  end.

(** The exit code and what is printed; an exception that is not caught ends
    the program. *)
Definition search_main (t : Tool) (argv : list string) : prog Srv (Z * string) :=
  match argv with
  | _ :: config_path :: ((_ :: _) as args) =>
      o ← lift (search_args (tool_filters t) args);
      match query_parts o with
      | [] => mret (1%Z, "")
      | parts =>
          let query_text := Prelude.join " " parts in
          match load_config to_float parse_file config_path with
          | Throw _ => mret (1%Z, "")
          | UB e => lift (UB e)
          | OutOfFuel => lift OutOfFuel
          | Ret cfg =>
              p ← lift (make_provider (embedding cfg));
              match prov_init p with
              | (Throw _, _) => mret (1%Z, "")
              | (UB e, _) => lift (UB e)
              | (OutOfFuel, _) => lift OutOfFuel
              | (Ret _, p) =>
                  vecs ← lift (embed_batch [query_text] p).1;
                  match vecs with
                  | [(_ :: _) as v] => search t o query_text (vec_literal v)
                  | _ => mret (1%Z, "")
                  end
              end
          end
      end
  | _ => mret (1%Z, "")
  end.
End main.

Definition filter_heading (label value : string) : string :=
  if str_empty value then "" else "  (" +:+ label +:+ " = " +:+ quote +:+ value +:+ quote +:+ ")".

Definition product_tool : Tool := {|
  tool_filters := ["--category"; "--language"];
  tool_query vec_literal o limit_str :=
    product_query vec_literal (filter_of "--category" o) (filter_of "--language" o) limit_str;
  tool_conninfo := "host=localhost port=5432 dbname=ecommerce_demo user=walkrie_demo password=walkrie";
  tool_heading o := filter_heading "category" (filter_of "--category" o) +:+
                    filter_heading "language" (filter_of "--language" o);
  tool_row rows i :=
    c1 ← PQgetvalue rows i 1; c2 ← PQgetvalue rows i 2; c3 ← PQgetvalue rows i 3; c4 ← PQgetvalue rows i 4;
    c5 ← PQgetvalue rows i 5; c7 ← PQgetvalue rows i 7; c6 ← PQgetvalue rows i 6;
    Ret (c1 +:+ " [" +:+ c2 +:+ ", " +:+ c3 +:+ "]" +:+ dash +:+ c4 +:+ " " +:+ c5 +:+ dash +:+ "distance: " +:+ c7 +:+
         newline +:+ "   " +:+ c6 +:+ newline +:+ newline);
|}.

Definition candidate_tool : Tool := {|
  tool_filters := ["--location"];
  tool_query vec_literal o limit_str := candidate_query vec_literal (filter_of "--location" o) limit_str;
  tool_conninfo := "host=localhost port=5432 dbname=hr_demo user=walkrie_demo password=walkrie";
  tool_heading o := filter_heading "filtered to location" (filter_of "--location" o);
  tool_row rows i :=
    c1 ← PQgetvalue rows i 1; c2 ← PQgetvalue rows i 2; c3 ← PQgetvalue rows i 3; c5 ← PQgetvalue rows i 5;
    c4 ← PQgetvalue rows i 4;
    Ret (c1 +:+ " (" +:+ c2 +:+ " yrs, " +:+ c3 +:+ ")" +:+ dash +:+ "distance: " +:+ c5 +:+
         newline +:+ "   " +:+ c4 +:+ newline +:+ newline);
|}.

(** The two programs. *)
Section programs.
Context {P Srv : Type} `{EmbeddingProvider P} `{Libpq Srv}.
Context (to_float : Z → Z) (parse_file : string → outcome toml_table) (make_provider : EmbeddingConfig → outcome P).

Definition product_main : list string → prog Srv (Z * string) :=
  search_main to_float parse_file make_provider product_tool.
Definition candidate_main : list string → prog Srv (Z * string) :=
  search_main to_float parse_file make_provider candidate_tool.
End programs.

(** ** The queries are well formed *)

(** The numbers after the dollar signs of a statement. *)
Fixpoint placeholders (s : string) : list Z :=
  match s with
  | EmptyString => []
  | String c s => if bool_decide (c = "$"%char) then atoi_digits 0 s :: placeholders s else placeholders s
  end.

(** The filters that are given, in the order of the tool. *)
Definition given (values : list string) : list string := filter (λ v, str_empty v = false) values.

(** The search tools' statements are fixed texts.  Whatever the query, the
    filter values, the limit and the embedding are, the statement that reaches
    the server depends on nothing but which filters are given (no text of the
    user's ever becomes part of it); it refers to its parameters as [$1], [$2],
    ..., each once and in this order, exactly as many as are passed; and these
    are the query's vector, the given filter values and the limit. *)
Theorem search_statements_fixed (vec vec' limit limit' : string) :
  (∀ category language category' language',
     str_empty category = str_empty category' → str_empty language = str_empty language' →
     let '(sql, params) := product_query vec category language limit in
     sql = (product_query vec' category' language' limit').1 ∧
     placeholders sql = seqZ 1 (Z.of_nat (length params)) ∧
     params = [vec] ++ given [category; language] ++ [limit]) ∧
  (∀ location location',
     str_empty location = str_empty location' →
     let '(sql, params) := candidate_query vec location limit in
     sql = (candidate_query vec' location' limit').1 ∧
     placeholders sql = seqZ 1 (Z.of_nat (length params)) ∧
     params = [vec] ++ given [location] ++ [limit]).
Proof.
  split.
  - intros category language category' language' Hc Hl. unfold product_query. rewrite <- Hc, <- Hl.
    destruct category as [|c1 c2], language as [|l1 l2]; cbn [str_empty]; (split_and!; [done|vm_compute; done|done]).
  - intros location location' Hl. unfold candidate_query. rewrite <- Hl.
    destruct location as [|c1 c2]; cbn [str_empty]; (split_and!; [done|vm_compute; done|done]).
Qed.

Lemma search_statements_fixed_witness :
  let '(sql, params) := product_query "[1]" "" "tr" "10" in
  (sql = (product_query "[2]" "" "ja" "5").1 ∧
   placeholders sql = [1; 2; 3]%Z ∧ params = ["[1]"; "tr"; "10"]) ∧
  (candidate_query "[1]" "Berlin" "10").1 = (candidate_query "[2]" "Rome" "5").1.
Proof.
  pose proof (search_statements_fixed "[1]" "[2]" "10" "5") as [Hp Hc].
  split; [exact (Hp "" "tr" "" "ja" eq_refl eq_refl)|]. exact (proj1 (Hc "Berlin" "Rome" eq_refl)).
Defined.

(** ** The tools end *)

Lemma print_rows_ok row n i : (∀ j, i ≤ j < i + n → ∃ s, row j = Ret s) → ∃ s, print_rows row n i = Ret s.
Proof.
  revert i. induction n as [|n IH]; intros i Hrow; simpl; [by eexists|].
  destruct (Hrow i) as [s ->]; [lia|]. simpl. destruct (IH (S i)) as [rest ->]; [intros j Hj; apply Hrow; lia|].
  by eexists.
Qed.

(** A result with all the columns that were asked for prints. *)
Lemma PQgetvalue_wide rows (n i j : nat) :
  Forall (λ r : list (option string), length r = n) rows → i < length rows → j < n → ∃ s, PQgetvalue rows i j = Ret s.
Proof.
  intros Hw Hi Hj. unfold PQgetvalue. destruct (lookup_lt_is_Some_2 rows i Hi) as [r Hr]. rewrite Hr. simpl.
  pose proof (Forall_lookup_1 _ _ _ _ Hw Hr) as Hlen. simpl in Hlen.
  destruct (lookup_lt_is_Some_2 r j) as [v ->]; [lia|]. by eexists.
Qed.

(** Whatever the server answers, as long as a result has the columns of the
    statement, the search ends with exit code 0 or 1, and with 0 exactly when
    there is a result. *)
Lemma product_search_ends {Srv} `{Libpq Srv} o query_text vec_literal (s : Srv) :
  (∀ sql params s rows, (pq_exec_params sql params s).1 = TuplesOk rows → Forall (λ r, length r = 8) rows) →
  ∃ code out s', search product_tool o query_text vec_literal s = (Ret (code, out), s') ∧ (code = 0 ∨ code = 1)%Z.
Proof.
  intros Hw. unfold search, PQconnectdb, PQexecParams, lib, mbind, prog_bind.
  destruct (pq_connect _ s) as [[e|] s1]; [by eexists _, _, _; split; [done|right]|].
  destruct (tool_query product_tool _ _ _) as [sql params].
  destruct (pq_exec_params (c_str sql) (c_str <$> params) s1) as [r s2] eqn:E.
  destruct r as [rows| | |]; try (by eexists _, _, _; split; [done|right]).
  pose proof (Hw (c_str sql) (c_str <$> params) s1 rows) as Hrows. rewrite E in Hrows. specialize (Hrows eq_refl).
  destruct (print_rows_ok (tool_row product_tool rows) (length rows) 0) as [body Hb].
  - intros j Hj. simpl. destruct (PQgetvalue_wide rows 8 j 1 Hrows) as [? ->]; [lia..|].
    destruct (PQgetvalue_wide rows 8 j 2 Hrows) as [? ->]; [lia..|].
    destruct (PQgetvalue_wide rows 8 j 3 Hrows) as [? ->]; [lia..|].
    destruct (PQgetvalue_wide rows 8 j 4 Hrows) as [? ->]; [lia..|].
    destruct (PQgetvalue_wide rows 8 j 5 Hrows) as [? ->]; [lia..|].
    destruct (PQgetvalue_wide rows 8 j 7 Hrows) as [? ->]; [lia..|].
    destruct (PQgetvalue_wide rows 8 j 6 Hrows) as [? ->]; [lia..|]. by eexists.
  - unfold lift. rewrite Hb. by eexists _, _, _; split; [done|left].
Qed.
